(* ===== verification/_CoqProject ===== *)
-Q . S2P
Prelude.v
GoErrors.v
Float64.v
Hex.v
Config.v
Mqi.v
GoProg.v
Always.v
Fuel.v
Termination.v
Compose.v
Script.v
Backoff.v
Connection.v
Telemetry.v
Wire.v
Sender.v
Listener.v
RequestReply.v
OtelEquiv.v
Health.v
SenderPool.v
ListenerLife.v
Registry.v
Client.v
Traffic.v
Lasting.v
Session.v
ClientLogic.v
ClientLife.v
ClientRaces.v
ExampleEnv.v
ExampleProcess.v
ExampleSendReceive.v
ExampleRequestReply.v
