(* ===== verification/Prelude.v ===== *)
(** * commons-mq-go: a verification development

    The library under verification is a Go client for IBM MQ: a [Client] built
    from a validated [Config] hands out senders (a lazily filled pool of
    connections), listeners (consumer goroutines that poll a queue) and
    request-reply clients (temporary reply queue, or a shared queue filtered by
    correlation ID), reports their health and closes them; the otel package and
    src/mq/telemetry.go instrument all of it.

    ** How the program is modelled

    A Go function is one definition of the same name ([conn_Close], [Sender_close],
    [Listener_close], [RR_Close], [Client_Close] for the methods called Close).
    Functions without effects are Rocq functions.  The others are values of
    [GoProg.prog S A]: a tree of critical sections on the shared state [S] of a
    component, channel, lock and WaitGroup operations that may have to wait,
    external calls and goroutine starts, with panics as an outcome of their own, so
    that [defer] and [recover] are definitions.  The IBM MQ binding, OpenTelemetry,
    contexts, clocks, randomness and the application's callbacks are not part of
    the repository: a call to one of them is an event of [Mqi.ext] whose answer the
    environment chooses.  The numeric constants and zero structures of the binding
    are the class [MQBinding]; the result of an out-of-range float to integer
    conversion, which Go leaves to the architecture, is the class [GoArch].

    The same definitions have two semantics.  [GoProg.run] executes one call
    against an environment [h] and yields its outcome, final state and trace of
    external events; [wp] is its weakest precondition over all environments.
    [GoProg.cstep] interleaves any number of goroutines; [cwp] is a logic in which
    a goroutine owns tokens and an invariant relates the shared state to the tokens
    in circulation, with the operations that may have to wait listed.  Locks of the
    source that protect a few assignments are one atomic step; locks that are held
    across other operations ([Sender.poolMu], [Listener.mu]) are part of the state.
    [Always.always] is a third view, of what a program does from any state and hence
    under any interference; [Always.link] puts an application's own programs in the
    place of its callbacks, which is how the example programs are built.

    Components compose by their tokens.  [Compose] gives the rules: a component's
    logic is zoomed into the client's ([cwp_component]), where a token of the sender
    at index [i] is the token [TS i] of the client and the other components' tokens
    are its frame; every token that stands for work others wait for has a level, a
    waiting operation only waits for tokens of its own level or above, and
    [no_deadlock] follows for any machine whose logic satisfies this ([WaitsFor]).
    An application of the client is a value of [ClientLife.app], a tree of public
    calls continued on each result; its handlers are values of [reaction].  Both
    are arbitrary: they choose components among those they have made or been
    handed, and a handler may start goroutines that do whatever an application does.
    Every step of a machine is one of a goroutine's own tree, so no machine steps for
    ever ([Termination]); what has fuel for more steps than a run takes has not run
    out of it ([Fuel], [Lasting]).

    ** Files

    - [Prelude]: machine integers, durations, shared lemmas and tactics.
    - [GoErrors] (errors of src/mq/config.go, classification and sanitising of
      src/mq/connection.go): error values, [errors.Is], [errors.As],
      [errors.Join] and their texts.
    - [Float64], [Hex]: the parts of binary64 arithmetic and encoding/hex used.
    - [Config] (src/mq/types.go, src/mq/config.go): types, defaults, validation.
    - [Mqi]: external events and projections of traces.  [GoProg]: programs and
      their two semantics.  [Always]: invariants of calls and endings under any
      interference.  [Fuel]: programs that last for a number of steps.
      [Termination]: machines stop.  [Compose]: composition of component logics,
      progress.  [Script]: a concrete environment for witnesses.
    - [Backoff], [Connection] (src/mq/connection.go): delays, jitter, dialling, the
      two retry loops.
    - [Telemetry] (src/mq/telemetry.go; src/otel in the module [Otel]),
      [OtelEquiv]: the two compared.
    - [Wire] (put of src/mq/sender.go, messageFromMQMD, queue_customizer.go).
    - [Sender] (src/mq/sender.go), [SenderPool]: its interleavings.
    - [Listener] (src/mq/listener.go), [ListenerLife]: its interleavings.
    - [RequestReply] (src/mq/request_reply_tmp.go, request_reply_fixed.go).
    - [Health] (probes of src/mq/health.go), [Client] (src/mq/client.go and
      Client.Health), [Session]: every sequence of public calls on a client.
    - [ClientLogic]: the client's invariant and the component logics inside it;
      [ClientLife]: any application of a client, interleaved with any number of calls
      of Close; [ClientRaces]: concrete interleavings of Close.
    - [Traffic]: which queues each operation opens, which messages it puts, and that
      only a creator's panic can end it abnormally, under any interference.
      [Lasting]: no operation but a consumer's loops can run out of fuel.
    - [ExampleEnv], [ExampleSendReceive], [ExampleRequestReply] (src/examples): the
      two programs, from their environment variables to their goroutines;
      [ExampleProcess]: why a program of their shape cannot get stuck.
    - [Registry] (src/internal/correlation/registry.go).

    ** What is proved

    - Whatever goroutines an application runs on one client, with whatever the
      handlers of its listeners do in between: every component respects its limits,
      after any number of steps some goroutine can move unless all have ended, no run
      goes on for ever, and one that has come to its end has every goroutine returned.
      Once every call of Close has returned nothing of what Close took runs any more.
      A handler that calls Close is the exception the documentation names; it deadlocks.
    - Under any interleaving the sender's pool respects its limit, holds usable
      connections only and balances its accounts; a listener's close returns only
      when no consumer runs; the registry never hands a message to the wrong waiter.
    - Against any broker, context and callbacks: connecting and reconnecting stay
      within their attempts and delays; a Send puts at most twice and gives back
      what it took; a consumer delivers each message once and in order, reports
      every failure once and leaves nothing open; a request-reply call correlates
      its reply, leaves nothing open and reports timeouts exactly.
    - What a put writes, a consumer or a wait reads back: body, reply queue and the
      bytes of the correlation ID, with the exact fate of IDs that are short, long or
      not hexadecimal.
    - In every state a sequence of public calls can reach: the client is well formed
      and stays so, Close closes and Health reports every component, a closed client
      stays closed and its components refuse work, and the factories hand out what
      the configuration and the options say.  Accepted configurations are exactly the
      documented ones; credentials do not reach error texts; machine-width
      conversions have the bounds stated.
    - The otel package's helpers make the calls of the library's own instrumentation,
      and a client without telemetry is indistinguishable from one with the explicit
      no-op configuration.
    - The example programs start exactly when their environment is complete, never
      panic under any schedule, and touch only the queues and messages they are meant
      to; the replier's answer is the one the requester's wait is looking for.  After
      any number of steps main has returned or some goroutine can move, and once main
      has returned the client is closed and each component it made is shut.
      Only the goroutine that counts the messages may wait for ever, for one that
      never comes.
    - Behaviours that differ from the documentation are theorems too: a connection
      missed by close, the gauge that close does not decrement, a slot lost to a
      panicking creator and the sender starved by such losses, the delay that
      collapses on overflow, truncated waits and expiries, senders created after Close, a call of Close that returns before the
      work is done.

    ** Assumptions and bounds

    [handler_ok] asks the environment for what the Go library documents of its
    random functions; [ctx_monotone] that a context stays done; [CorrelId24] that an
    MQMD has a 24-byte CorrelId; [creator_ok] that a message creator only makes
    calls of its own.  Each theorem with such a hypothesis has a witness evaluated
    in [Script]'s environment with the documented constants.  The only loops with
    fuel are the two of a listener's consumer, which runs until its context ends:
    [runConsumer_returns] shows that fuel beyond the number of times the context is
    found live is enough for one call, and the theorems on the progress of
    applications and example programs give the consumers more fuel than the run has
    steps ([Fuel.machine_fuelled]: it cannot be used up).  In the select of
    [acquireConn] that waits for a connection the context may end at any moment, so a
    send never waits for ever in the model; one whose context cannot end waits for a
    connection to come back.

    ** Not modelled

    The tests, the third-party packages themselves, the log output of the example
    programs and their fixed pauses (which no behaviour depends on: every schedule is
    covered).  Case conversion beyond ASCII is the class [GoStrings].  Message
    properties are carried by [Message] but never reach an MQMD, as in the source.  A
    handler gets a pointer: the error callback sees the message as the handler left
    it.  What is not represented is the aliasing of a message that an application
    callback keeps after it returned.  The handlers of the application model make the calls that never wait
    (factories, sends, requests) and start goroutines for the others; a handler that
    itself calls Start, which waits for consumers, or Health, which waits for locks, is
    outside the progress theorems. *)

From Stdlib Require Import ZArith Lia List.
From stdpp Require Import base list option strings numbers.

Declare Scope go_scope.
Delimit Scope go_scope with go.

(** ** Machine integers

    Go's sized integers as [Z], with the two's-complement conversion written
    out.  [time.Duration] is an [int64] count of nanoseconds. *)

Definition wrap32 (z : Z) : Z := (z + 2 ^ 31) mod 2 ^ 32 - 2 ^ 31.

Definition wrap64 (z : Z) : Z := (z + 2 ^ 63) mod 2 ^ 64 - 2 ^ 63.

Definition int32_range (z : Z) : Prop := (- 2 ^ 31 <= z < 2 ^ 31)%Z.

Definition int64_range (z : Z) : Prop := (- 2 ^ 63 <= z < 2 ^ 63)%Z.

Definition Nanosecond : Z := 1.

Definition Millisecond : Z := 1000000.

Definition Second : Z := 1000000000.

(** ** Automation *)

Create HintDb go_db.

Create Rewrite HintDb go_err.

(** Case analysis on the scrutinee of a match in the goal or the context. *)
Ltac case_goal :=
  match goal with
  | |- context [match ?x with _ => _ end] => destruct x eqn:?
  end.

Ltac case_hyp H :=
  match type of H with
  | context [match ?x with _ => _ end] => destruct x eqn:?
  end.

(** Closed, decidable goals by evaluation. *)
Ltac by_compute := vm_compute; repeat split; congruence.

(** ** Lemmas on machine integers *)

Lemma wrap32_range z : int32_range (wrap32 z).
Proof.
  unfold int32_range, wrap32.
  pose proof (Z.mod_pos_bound (z + 2 ^ 31) (2 ^ 32)). lia.
Qed.

Lemma wrap64_range z : int64_range (wrap64 z).
Proof.
  unfold int64_range, wrap64.
  pose proof (Z.mod_pos_bound (z + 2 ^ 63) (2 ^ 64)). lia.
Qed.

Lemma wrap32_id z : int32_range z -> wrap32 z = z.
Proof. unfold int32_range, wrap32. intros ?. rewrite Z.mod_small; lia. Qed.

Lemma wrap64_id z : int64_range z -> wrap64 z = z.
Proof. unfold int64_range, wrap64. intros ?. rewrite Z.mod_small; lia. Qed.

#[export] Hint Resolve wrap32_range wrap64_range wrap32_id wrap64_id : go_db.
