(* ===== verification/GoErrors.v ===== *)
(** * Go error values

    The [error] values the library builds ([errors.New], [fmt.Errorf] with its
    [%w] verbs, [errors.Join], sentinels, context errors and the [*MQReturn] of
    the IBM MQ binding), the standard library's traversals [errors.Is] and
    [errors.As], and the classifiers of src/mq/connection.go. *)

From stdpp Require Import base list option strings numbers sets.
From S2P Require Import Prelude.

(** The reason codes of the IBM MQ binding (a third-party package): the model
    is parametric in them.  Only the codes the source names appear. *)
Class MQReasons := {
  MQRC_CONNECTION_BROKEN : Z;
  MQRC_HCONN_ERROR : Z;
  MQRC_Q_MGR_NOT_AVAILABLE : Z;
  MQRC_Q_MGR_QUIESCING : Z;
  MQRC_Q_MGR_STOPPING : Z;
  MQRC_CONNECTION_QUIESCING : Z;
  MQRC_CONNECTION_STOPPING : Z;
  MQRC_Q_MGR_NOT_ACTIVE : Z;
  MQRC_CONNECTION_ERROR : Z;
  MQRC_CONNECTION_SUSPENDED : Z;
  MQRC_CONNECTION_STOPPED : Z;
  MQRC_NO_MSG_AVAILABLE : Z
}.

(** [*ibmmq.MQReturn]: completion and reason code of a failed MQI call. *)
Record MQReturn := mkMQReturn { MQCC : Z; MQRC : Z }.

(** The package-level sentinels of src/mq/config.go. *)
Inductive sentinel :=
| ErrInvalidConfig
| ErrTimeout
| ErrConnectionFailed
| ErrClientClosed
| ErrHandlerPanic.

(** [context.Canceled] and [context.DeadlineExceeded]. *)
Inductive ctx_error := Canceled | DeadlineExceeded.

(** A formatted message, verb by verb: literal text, [%q], [%d], the text of an
    MQ return code (formatted by the binding), the text of an application error
    and a recovered panic value printed with [%v]. *)
Inductive piece :=
| Lit (s : string)
| Quoted (s : string)
| Num (n : Z)
| MQText (r : MQReturn)
| UserText (id : nat)
| PanicText (v : nat).

Abbreviation text := (list piece).

(** A non-nil error.  [ErrFmt] is [fmt.Errorf]: its format, in order, with the
    operands of its [%w] verbs kept as errors.  [ErrUser] is an error made by the
    application (or by any package outside the library). *)
#[warnings="-register-all"]
Inductive err :=
| ErrSentinel (s : sentinel)
| ErrCtx (c : ctx_error)
| ErrMQ (r : MQReturn)
| ErrNew (t : text)
| ErrFmt (ps : list (piece + err))
| ErrJoin (es : list err)
| ErrUser (id : nat).

(** Go's [error] interface value; [None] is nil. *)
Abbreviation error := (option err).

#[export] Instance sentinel_eq_dec : EqDecision sentinel.
Proof. solve_decision. Defined.

#[export] Instance ctx_error_eq_dec : EqDecision ctx_error.
Proof. solve_decision. Defined.

#[export] Instance MQReturn_eq_dec : EqDecision MQReturn.
Proof. solve_decision. Defined.

#[export] Instance piece_eq_dec : EqDecision piece.
Proof. solve_decision. Defined.

(** First success along a list: the order in which [errors.Is] and [errors.As]
    visit [Unwrap() []error]. *)
Fixpoint first_some {A B : Type} (f : A -> option B) (l : list A) : option B :=
  match l with
  | [] => None
  | x :: l => match f x with Some y => Some y | None => first_some f l end
  end.

(** [errors.As(err, &mqRet)] with [mqRet *ibmmq.MQReturn]: the first MQReturn
    of the error tree in pre-order. *)
Fixpoint as_MQReturn (e : err) : option MQReturn :=
  match e with
  | ErrMQ r => Some r
  | ErrFmt ps =>
      first_some (fun p => match p with inl _ => None | inr e' => as_MQReturn e' end) ps
  | ErrJoin es => first_some as_MQReturn es
  | _ => None
  end.

(** [errors.Is(err, s)] for a package sentinel. *)
Fixpoint is_sentinel (s : sentinel) (e : err) : bool :=
  match e with
  | ErrSentinel s' => bool_decide (s = s')
  | ErrFmt ps =>
      existsb (fun p => match p with inl _ => false | inr e' => is_sentinel s e' end) ps
  | ErrJoin es => existsb (is_sentinel s) es
  | _ => false
  end.

(** [errors.Is(err, context.Canceled)] and its deadline twin. *)
Fixpoint is_ctx (c : ctx_error) (e : err) : bool :=
  match e with
  | ErrCtx c' => bool_decide (c = c')
  | ErrFmt ps =>
      existsb (fun p => match p with inl _ => false | inr e' => is_ctx c e' end) ps
  | ErrJoin es => existsb (is_ctx c) es
  | _ => false
  end.

(** The message texts of the sentinels (src/mq/config.go). *)
Definition sentinel_text (s : sentinel) : string :=
  match s with
  | ErrInvalidConfig => "commons-mq-go: invalid configuration"
  | ErrTimeout => "commons-mq-go: request-reply timeout"
  | ErrConnectionFailed => "commons-mq-go: connection permanently failed"
  | ErrClientClosed => "commons-mq-go: client is closed"
  | ErrHandlerPanic => "commons-mq-go: message handler panicked"
  end.

Definition ctx_error_text (c : ctx_error) : string :=
  match c with
  | Canceled => "context canceled"
  | DeadlineExceeded => "context deadline exceeded"
  end.

Definition newline : string := String (Ascii.ascii_of_nat 10) EmptyString.

(** [err.Error()].  A joined error prints its members one per line. *)
Fixpoint Error (e : err) : text :=
  match e with
  | ErrSentinel s => [Lit (sentinel_text s)]
  | ErrCtx c => [Lit (ctx_error_text c)]
  | ErrMQ r => [MQText r]
  | ErrNew t => t
  | ErrFmt ps =>
      concat (map (fun p => match p with inl t => [t] | inr e' => Error e' end) ps)
  | ErrJoin es =>
      (fix go es :=
         match es with
         | [] => []
         | [e'] => Error e'
         | e' :: es' => Error e' ++ [Lit newline] ++ go es'
         end) es
  | ErrUser id => [UserText id]
  end.

(** [errors.Join]: drops the nil members, nil when none is left. *)
Definition errors_Join (es : list error) : error :=
  match omap id es with
  | [] => None
  | es' => Some (ErrJoin es')
  end.

(** src/mq/connection.go, IsConnectionError. *)
Definition IsConnectionError `{MQReasons} (e : error) : bool :=
  match e ≫= as_MQReturn with
  | None => false
  | Some mqRet =>
      existsb (Z.eqb (MQRC mqRet))
        [MQRC_CONNECTION_BROKEN; MQRC_HCONN_ERROR; MQRC_Q_MGR_NOT_AVAILABLE;
         MQRC_Q_MGR_QUIESCING; MQRC_Q_MGR_STOPPING; MQRC_CONNECTION_QUIESCING;
         MQRC_CONNECTION_STOPPING; MQRC_Q_MGR_NOT_ACTIVE; MQRC_CONNECTION_ERROR;
         MQRC_CONNECTION_SUSPENDED; MQRC_CONNECTION_STOPPED]
  end.

(** src/mq/connection.go, IsEmptyQueueError. *)
Definition IsEmptyQueueError `{MQReasons} (e : error) : bool :=
  match e ≫= as_MQReturn with
  | None => false
  | Some mqRet => Z.eqb (MQRC mqRet) MQRC_NO_MSG_AVAILABLE
  end.

(** src/mq/connection.go, sanitizeError. *)
Definition sanitizeError (e : error) : error :=
  match e with
  | None => None
  | Some e' =>
      match as_MQReturn e' with
      | Some _ => Some e'
      | None => Some (ErrNew [Lit "IBM MQ operation failed"])
      end
  end.

(** The codes as the documentation comment of IsConnectionError lists them. *)
Definition documented_reasons : MQReasons := {|
  MQRC_CONNECTION_BROKEN := 2009;
  MQRC_HCONN_ERROR := 2018;
  MQRC_Q_MGR_NOT_AVAILABLE := 2059;
  MQRC_Q_MGR_QUIESCING := 2161;
  MQRC_Q_MGR_STOPPING := 2162;
  MQRC_CONNECTION_QUIESCING := 2202;
  MQRC_CONNECTION_STOPPING := 2203;
  MQRC_Q_MGR_NOT_ACTIVE := 2223;
  MQRC_CONNECTION_ERROR := 2273;
  MQRC_CONNECTION_SUSPENDED := 2521;
  MQRC_CONNECTION_STOPPED := 2528;
  MQRC_NO_MSG_AVAILABLE := 2033 |}.

(** The code the empty-queue test looks for is none of the connection codes. *)
Class DistinctReasons `{MQReasons} : Prop := distinct_reasons :
  MQRC_NO_MSG_AVAILABLE ∉
    [MQRC_CONNECTION_BROKEN; MQRC_HCONN_ERROR; MQRC_Q_MGR_NOT_AVAILABLE;
     MQRC_Q_MGR_QUIESCING; MQRC_Q_MGR_STOPPING; MQRC_CONNECTION_QUIESCING;
     MQRC_CONNECTION_STOPPING; MQRC_Q_MGR_NOT_ACTIVE; MQRC_CONNECTION_ERROR;
     MQRC_CONNECTION_SUSPENDED; MQRC_CONNECTION_STOPPED].

(** [fmt.Errorf("prefix ...: %w", err)]: a prefix and one wrapped error. *)
Definition wrapf (pre : text) (e : error) : err :=
  ErrFmt (map inl pre ++ match e with
                         | Some e' => [inr e']
                         | None => [inl (Lit "%!w(<nil>)")]
                         end).

(** ** Lemmas *)

Lemma first_some_inl {B : Type} (f : err -> option B) (pre : text) ps :
  first_some (fun p : piece + err => match p with inl _ => None | inr e => f e end)
    (map inl pre ++ ps)
  = first_some (fun p => match p with inl _ => None | inr e => f e end) ps.
Proof. induction pre; simpl; auto. Qed.

Lemma existsb_inl (f : err -> bool) (pre : text) ps :
  existsb (fun p : piece + err => match p with inl _ => false | inr e => f e end)
    (map inl pre ++ ps)
  = existsb (fun p => match p with inl _ => false | inr e => f e end) ps.
Proof. induction pre; simpl; auto. Qed.

Lemma as_MQReturn_wrapf pre e :
  as_MQReturn (wrapf pre (Some e)) = as_MQReturn e.
Proof. simpl. rewrite first_some_inl. simpl. by destruct (as_MQReturn e). Qed.

Lemma is_sentinel_wrapf s pre e :
  is_sentinel s (wrapf pre (Some e)) = is_sentinel s e.
Proof. simpl. rewrite existsb_inl. simpl. by rewrite orb_false_r. Qed.

Lemma is_ctx_wrapf c pre e : is_ctx c (wrapf pre (Some e)) = is_ctx c e.
Proof. simpl. rewrite existsb_inl. simpl. by rewrite orb_false_r. Qed.

Lemma sanitizeError_as e :
  sanitizeError e ≫= as_MQReturn = e ≫= as_MQReturn.
Proof. destruct e as [e|]; simpl; [|done]. by destruct (as_MQReturn e) eqn:E. Qed.

Lemma sanitizeError_Some e : exists e', sanitizeError (Some e) = Some e'.
Proof. simpl. destruct (as_MQReturn e); eauto. Qed.

Lemma IsConnectionError_sanitize `{MQReasons} e :
  IsConnectionError (sanitizeError e) = IsConnectionError e.
Proof. unfold IsConnectionError. by rewrite sanitizeError_as. Qed.

Lemma IsEmptyQueueError_sanitize `{MQReasons} e :
  IsEmptyQueueError (sanitizeError e) = IsEmptyQueueError e.
Proof. unfold IsEmptyQueueError. by rewrite sanitizeError_as. Qed.

Lemma IsConnectionError_wrapf `{MQReasons} pre e :
  IsConnectionError (Some (wrapf pre (Some e))) = IsConnectionError (Some e).
Proof. unfold IsConnectionError. cbn [mbind option_bind]. by rewrite as_MQReturn_wrapf. Qed.

Lemma IsEmptyQueueError_wrapf `{MQReasons} pre e :
  IsEmptyQueueError (Some (wrapf pre (Some e))) = IsEmptyQueueError (Some e).
Proof. unfold IsEmptyQueueError. cbn [mbind option_bind]. by rewrite as_MQReturn_wrapf. Qed.

#[export] Hint Rewrite @IsConnectionError_wrapf @IsEmptyQueueError_wrapf
  @IsConnectionError_sanitize @IsEmptyQueueError_sanitize
  is_sentinel_wrapf is_ctx_wrapf as_MQReturn_wrapf : go_err.

(** The errors the library wraps are classified through their wrapper: an error
    of the form "prefix: sanitized cause" is a connection (or empty-queue) error
    exactly when the cause is. *)
Lemma IsConnectionError_wrap_sanitized `{MQReasons} pre e :
  IsConnectionError (Some (wrapf pre (sanitizeError (Some e))))
  = IsConnectionError (Some e).
Proof.
  destruct (sanitizeError_Some e) as [e' He]. rewrite He.
  rewrite IsConnectionError_wrapf, <-He. apply IsConnectionError_sanitize.
Qed.

Lemma Connection_not_Empty `{DistinctReasons} e :
  IsConnectionError e = true -> IsEmptyQueueError e = false.
Proof.
  unfold IsConnectionError, IsEmptyQueueError.
  destruct (e ≫= as_MQReturn) as [r|]; [|done].
  intros Hex. apply Z.eqb_neq. intros Heq.
  apply distinct_reasons. rewrite <-Heq.
  apply existsb_exists in Hex as (c & Hc & ->%Z.eqb_eq).
  by apply list_elem_of_In.
Qed.

#[export] Instance documented_distinct : @DistinctReasons documented_reasons.
Proof. unfold DistinctReasons. apply (bool_decide_unpack _). by vm_compute. Qed.

Lemma errors_Join_nil es : errors_Join es = None <-> Forall (fun e => e = None) es.
Proof.
  unfold errors_Join. induction es as [|[e|] es IH]; simpl.
  - split; [constructor | done].
  - split; [done|]. inversion 1; done.
  - rewrite IH. split; [by constructor | by inversion 1].
Qed.
