(* ===== verification/Float64.v ===== *)
(** * IEEE 754 binary64 as Go uses it

    [float64] values as the Standard Library's [spec_float] at precision 53 and
    maximal exponent 1024 (an executable specification with no axioms), with
    Go's conversions from and to [int64].  The Go specification leaves a
    conversion whose value does not fit to the implementation: the class
    [GoArch] carries that choice. *)

From Stdlib Require Import ZArith Lia.
From Stdlib Require Export SpecFloat.
From stdpp Require Import base numbers.
From S2P Require Import Prelude.

Local Open Scope Z_scope.

Abbreviation float64 := spec_float.

(** [float64(z)] for an integer z. *)
Definition f64_of_int (z : Z) : float64 := binary_normalize 53 1024 z 0 false.

Definition f64_mul (x y : float64) : float64 := SFmul 53 1024 x y.

Definition f64_div (x y : float64) : float64 := SFdiv 53 1024 x y.

(** [x < y]; false as soon as one side is NaN. *)
Definition f64_ltb (x y : float64) : bool := SFltb x y.

Definition f64_one : float64 := f64_of_int 1.

Definition f64_two : float64 := f64_of_int 2.

(** Truncation toward zero; [None] for the infinities and NaN. *)
Definition f64_trunc (f : float64) : option Z :=
  match f with
  | S754_zero _ => Some 0
  | S754_finite s m e =>
      let v := if 0 <=? e then Z.pos m * 2 ^ e else Z.pos m / 2 ^ (- e) in
      Some (if s then - v else v)
  | _ => None
  end.

(** What the target machine yields when the truncated value is not an int64. *)
Class GoArch := float_to_int64_oob : float64 -> Z.

(** [int64(f)], hence also [time.Duration(f)]. *)
Definition f64_to_int64 `{GoArch} (f : float64) : Z :=
  match f64_trunc f with
  | Some z => if (- 2 ^ 63 <=? z) && (z <? 2 ^ 63) then z else float_to_int64_oob f
  | None => float_to_int64_oob f
  end.

(** amd64 (CVTTSD2SQ): the "integer indefinite" value. *)
Definition amd64 : GoArch := fun _ => - 2 ^ 63.

(** arm64 (FCVTZS): saturation, NaN to zero. *)
Definition arm64 : GoArch := fun f =>
  match f with
  | S754_nan => 0
  | S754_infinity true | S754_finite true _ _ => - 2 ^ 63
  | _ => 2 ^ 63 - 1
  end.

(** ** Exactness of the conversion from small integers and of doubling *)

Lemma digits2_pos_size p : digits2_pos p = Pos.size p.
Proof. induction p; simpl; congruence. Qed.

Lemma digits2_iter_xO m d :
  Z.pos (digits2_pos (Pos.iter xO m d)) = Z.pos (digits2_pos m) + Z.pos d.
Proof.
  induction d using Pos.peano_ind; [simpl; lia|].
  rewrite Pos.iter_succ. simpl digits2_pos. lia.
Qed.

Lemma iter_xO_value m d : Z.pos (Pos.iter xO m d) = Z.pos m * 2 ^ Z.pos d.
Proof.
  induction d using Pos.peano_ind; [simpl; lia|].
  rewrite Pos.iter_succ, Pos2Z.inj_succ, Z.pow_succ_r by lia.
  rewrite Pos2Z.inj_xO. lia.
Qed.

Lemma digits2_bound p n : Z.pos p < 2 ^ n -> 0 <= n -> Z.pos (digits2_pos p) <= n.
Proof.
  intros Hp Hn. rewrite digits2_pos_size.
  destruct (Z.le_gt_cases (Z.pos (Pos.size p)) n) as [|Hgt]; [done|].
  pose proof (Pos.size_le p) as Hs.
  assert (2 ^ Z.pos (Pos.size p) <= Z.pos p~0) by (rewrite <-Pos2Z.inj_pow; exact Hs).
  assert (2 ^ (n + 1) <= 2 ^ Z.pos (Pos.size p)) by (apply Z.pow_le_mono_r; lia).
  rewrite Z.pow_add_r in H0 by lia. rewrite Pos2Z.inj_xO in H. lia.
Qed.

Lemma fexp_normal d e : -1074 <= d + e - 53 -> fexp 53 1024 (d + e) = d + e - 53.
Proof. unfold fexp, emin. lia. Qed.

(** A 53-bit mantissa in the exponent range is left alone by rounding. *)
Lemma round_canonical s m e :
  digits2_pos m = 53%positive -> -1074 <= e ->
  binary_round_aux 53 1024 s (Z.pos m) e loc_Exact
  = if e <=? 971 then S754_finite s m e else S754_infinity s.
Proof.
  intros Hd He. unfold binary_round_aux, shr_fexp. cbn [Zdigits2].
  rewrite Hd, fexp_normal by lia. replace (53 + e - 53 - e) with 0 by lia.
  cbn -[Z.leb Z.sub fexp digits2_pos].
  rewrite Hd, fexp_normal by lia. replace (53 + e - 53 - e) with 0 by lia.
  reflexivity.
Qed.

Lemma f64_of_int_canonical z :
  0 < z < 2 ^ 53 ->
  exists m k, f64_of_int z = S754_finite false m (- k) /\
    digits2_pos m = 53%positive /\ 0 <= k <= 52 /\ Z.pos m = z * 2 ^ k.
Proof.
  destruct z as [|p|p]; try lia. intros [_ Hp].
  unfold f64_of_int, binary_normalize, binary_round.
  pose proof (digits2_bound p 53 Hp ltac:(lia)) as Hd.
  rewrite fexp_normal by lia. unfold shl_align.
  destruct (Z.pos (digits2_pos p) + 0 - 53 - 0) as [|d|d] eqn:E; [| lia |].
  - exists p, 0. assert (Hp53 : digits2_pos p = 53%positive) by lia.
    rewrite round_canonical by (assumption || lia).
    repeat split; auto; lia.
  - exists (Pos.iter xO p d), (Z.pos d).
    assert (Hm : digits2_pos (Pos.iter xO p d) = 53%positive)
      by (pose proof (digits2_iter_xO p d); lia).
    replace (Z.pos (digits2_pos p) + 0 - 53) with (Z.neg d) by lia.
    rewrite round_canonical by (assumption || lia).
    rewrite iter_xO_value. repeat split; auto; lia.
Qed.

Lemma shr_52 m :
  SpecFloat.iter_pos shr_1 52 (Build_shr_record (Z.pos (Pos.iter xO m 52)) false false)
  = Build_shr_record (Z.pos m) false false.
Proof. reflexivity. Qed.

(** Multiplying a normal number by 2.0 increments its exponent. *)
Lemma f64_mul_two s m e :
  digits2_pos m = 53%positive -> -1073 <= e ->
  f64_mul (S754_finite s m e) f64_two
  = if e + 1 <=? 971 then S754_finite s m (e + 1) else S754_infinity s.
Proof.
  intros Hd He. unfold f64_mul.
  replace f64_two with (S754_finite false 4503599627370496 (-51)) by reflexivity.
  cbn [SFmul]. rewrite xorb_false_r, (Pos.mul_comm m).
  change (4503599627370496 * m)%positive with (Pos.iter xO m 52).
  unfold binary_round_aux at 1, shr_fexp at 1.
  cbn [Zdigits2]. rewrite digits2_iter_xO, Hd.
  rewrite fexp_normal by lia.
  replace (53 + 52 + (e + -51) - 53 - (e + -51)) with 52 by lia.
  cbn [shr shr_record_of_loc]. rewrite shr_52.
  cbn [shr_m loc_of_shr_record round_nearest_even].
  replace (e + -51 + 52) with (e + 1) by lia.
  unfold shr_fexp. cbn [Zdigits2].
  rewrite Hd, fexp_normal by lia. replace (53 + (e + 1) - 53 - (e + 1)) with 0 by lia.
  reflexivity.
Qed.

Lemma f64_mul_two_infinity s : f64_mul (S754_infinity s) f64_two = S754_infinity s.
Proof. by destruct s. Qed.

(** Repeated doubling: the exponent counts the doublings until it overflows. *)
Lemma f64_iter_two m e n :
  digits2_pos m = 53%positive -> -1073 <= e <= 971 ->
  Nat.iter n (fun d => f64_mul d f64_two) (S754_finite false m e)
  = if e + Z.of_nat n <=? 971 then S754_finite false m (e + Z.of_nat n)
    else S754_infinity false.
Proof.
  intros Hd He. induction n as [|n IH].
  - simpl. rewrite Z.add_0_r, (proj2 (Z.leb_le _ _)) by lia. reflexivity.
  - cbn [Nat.iter nat_rect]. change (nat_rect _ _ _ n) with
      (Nat.iter n (fun d => f64_mul d f64_two) (S754_finite false m e)).
    rewrite IH. destruct (e + Z.of_nat n <=? 971) eqn:E.
    + rewrite f64_mul_two by (assumption || lia).
      replace (e + Z.of_nat n + 1) with (e + Z.of_nat (S n)) by lia. reflexivity.
    + rewrite f64_mul_two_infinity, (proj2 (Z.leb_gt _ _)); [done|].
      apply Z.leb_gt in E. lia.
Qed.

(** The truncation of an integer scaled by a power of two. *)
Lemma f64_trunc_scaled z m k n :
  Z.pos m = z * 2 ^ k -> 0 <= k -> 0 <= n ->
  f64_trunc (S754_finite false m (- k + n)) = Some (z * 2 ^ n).
Proof.
  intros Hm Hk Hn. simpl. f_equal. rewrite Hm.
  destruct (0 <=? - k + n) eqn:E.
  - apply Z.leb_le in E. rewrite <-Z.mul_assoc, <-Z.pow_add_r by lia. do 2 f_equal. lia.
  - apply Z.leb_gt in E.
    replace k with ((- (- k + n)) + n) at 1 by lia.
    rewrite Z.pow_add_r by lia.
    rewrite (Z.mul_comm (2 ^ (- (- k + n)))), Z.mul_assoc, Z.div_mul by (apply Z.pow_nonzero; lia).
    reflexivity.
Qed.
