(* ===== verification/Hex.v ===== *)
(** * encoding/hex and byte copies

    The two functions of Go's encoding/hex the library uses for message and
    correlation identifiers, and the built-in [copy] on byte slices. *)

From Stdlib Require Import NArith Lia Strings.Byte Ascii.
From stdpp Require Import base list option strings.
From S2P Require Import Prelude.

Definition hex_digit (n : N) : ascii :=
  if (n <? 10)%N then ascii_of_N (48 + n) else ascii_of_N (87 + n).

(** The value of a hexadecimal digit, in either case. *)
Definition unhex (a : ascii) : option N :=
  let c := N_of_ascii a in
  if (48 <=? c)%N && (c <=? 57)%N then Some (c - 48)%N
  else if (97 <=? c)%N && (c <=? 102)%N then Some (c - 87)%N
  else if (65 <=? c)%N && (c <=? 70)%N then Some (c - 55)%N
  else None.

(** [hex.EncodeToString]. *)
Fixpoint EncodeToString (bs : list byte) : string :=
  match bs with
  | [] => EmptyString
  | b :: bs =>
      String (hex_digit (to_N b / 16)) (String (hex_digit (to_N b mod 16)) (EncodeToString bs))
  end.

(** [hex.DecodeString]; [None] is a non-nil error (invalid byte or odd length). *)
Fixpoint DecodeString (s : string) : option (list byte) :=
  match s with
  | EmptyString => Some []
  | String _ EmptyString => None
  | String a (String b s) =>
      hi ← unhex a; lo ← unhex b; x ← of_N (16 * hi + lo); bs ← DecodeString s; Some (x :: bs)
  end.

(** [copy(dst, src)]: the new contents of [dst]. *)
Definition copy_bytes (dst src : list byte) : list byte :=
  take (length dst) src ++ drop (length src) dst.

(** ** Lemmas *)

Lemma hex_byte_roundtrip b :
  (hi ← unhex (hex_digit (to_N b / 16)); lo ← unhex (hex_digit (to_N b mod 16));
   of_N (16 * hi + lo)) = Some b.
Proof. destruct b; vm_compute; reflexivity. Qed.

Lemma Decode_Encode bs : DecodeString (EncodeToString bs) = Some bs.
Proof.
  induction bs as [|b bs IH]; [done|]. cbn [EncodeToString DecodeString].
  pose proof (hex_byte_roundtrip b) as Hb. rewrite IH.
  destruct (unhex (hex_digit (to_N b / 16))) as [hi|]; [|done]. simpl in *.
  destruct (unhex (hex_digit (to_N b mod 16))) as [lo|]; [|done]. simpl in *.
  by rewrite Hb.
Qed.

Lemma Encode_inj bs bs' : EncodeToString bs = EncodeToString bs' -> bs = bs'.
Proof.
  intros H. apply (f_equal DecodeString) in H. rewrite !Decode_Encode in H. congruence.
Qed.

Lemma Encode_length bs : String.length (EncodeToString bs) = 2 * length bs.
Proof. induction bs as [|b bs IH]; [done|]. simpl. rewrite IH. lia. Qed.

Lemma Encode_nil bs : EncodeToString bs = "" <-> bs = [].
Proof. split; [by destruct bs | by intros ->]. Qed.

(** A successful decoding halves the length. *)
Lemma Decode_length n s bs :
  String.length s <= n -> DecodeString s = Some bs -> String.length s = 2 * length bs.
Proof.
  revert s bs. induction n as [|n IH]; intros s bs Hn Hd.
  - destruct s; simpl in Hn; [by inversion Hd|lia].
  - destruct s as [|a [|b s]]; simpl in *; [by inversion Hd|done|].
    destruct (unhex a), (unhex b); simpl in *; try done.
    destruct (of_N _); simpl in *; try done.
    destruct (DecodeString s) as [bs'|] eqn:E; simpl in *; [|done].
    inversion Hd; subst. simpl. rewrite (IH s bs') by (lia || done). lia.
Qed.

Lemma copy_bytes_length dst src : length (copy_bytes dst src) = length dst.
Proof. unfold copy_bytes. rewrite length_app, length_take, length_drop. lia. Qed.

Lemma copy_bytes_same dst src : length src = length dst -> copy_bytes dst src = src.
Proof.
  intros H. unfold copy_bytes. rewrite <-H, firstn_all, H, drop_all. apply app_nil_r.
Qed.

(** A source no longer than the destination is its prefix afterwards. *)
Lemma copy_bytes_prefix dst src :
  length src <= length dst -> take (length src) (copy_bytes dst src) = src.
Proof.
  intros H. unfold copy_bytes. rewrite (take_ge src) by lia.
  by rewrite take_app_length.
Qed.
