(* ===== verification/Config.v ===== *)
(** * Public types and configuration

    The data types of src/mq/types.go and src/mq/config.go, the defaulting and
    the validation of a [Config]. *)

From Stdlib Require Import ZArith Lia Strings.Byte.
From stdpp Require Import base list option strings numbers gmap.
From S2P Require Import Prelude GoErrors Float64.

Local Open Scope Z_scope.

(** ** src/mq/types.go *)

Inductive ConnectionState :=
| StateConnected
| StateReconnecting
| StateFailed
| StateUnknown
| StateStopped.

Inductive RequestReplyMode := TemporaryQueue | FixedQueueSelector.

(** [UserProperties] is a Go map: [None] is the nil map. *)
Record Message := mkMessage {
  ID : string;
  CorrelationID : string;
  ReplyToQueue : string;
  ReplyToQueueManager : string;
  Body : list byte;
  UserProperties : option (gmap string string);
  TTL : Z
}.

Record QueueOptions := mkQueueOptions {
  TargetClient : bool;
  MQMDReadEnabled : bool;
  MQMDWriteEnabled : bool;
  PutAsyncAllowed : bool;
  ReadAheadAllowed : bool
}.

Record ConnectionStatus := mkConnectionStatus {
  QueueManager : string;
  Alive : bool;
  Reason : text;
  Component : text
}.

Record HealthStatus := mkHealthStatus {
  Healthy : bool;
  Details : list ConnectionStatus
}.

(** ** src/mq/config.go *)

Record TLSConfig := mkTLSConfig {
  KeyRepository : string;
  CertificateLabel : string;
  CipherSpec : string;
  PeerName : string;
  FIPSRequired : bool
}.

(** A tracer or meter provider: the no-op one of the otel packages, or one
    supplied by the application (third-party code, a handle). *)
Inductive provider := NoopProvider | UserProvider (id : nat).

(** A text-map propagator: the two no-ops of the repository (src/mq/telemetry.go
    and src/otel/noop.go), or one supplied by the application. *)
Inductive propagator :=
| NoopTextMapPropagator
| OtelNoopPropagator
| UserPropagator (id : nat).

(** [None] is the nil interface. *)
Record TelemetryConfig := mkTelemetryConfig {
  TracerProvider : option provider;
  MeterProvider : option provider;
  Propagator : option propagator
}.

Record Config := mkConfig {
  QueueManagerName : string;
  ConnectionName : string;
  ChannelName : string;
  Username : string;
  Password : string;
  TLS : option TLSConfig;
  InputQueue : string;
  OutputQueue : string;
  ModelQueue : string;
  InputConcurrency : Z;
  OutputConcurrency : Z;
  ProducerTTL : Z;
  MaxRetries : Z;
  InitialRetryInterval : Z;
  RetryMultiplier : float64;
  MaxRetryInterval : Z;
  SetQueueManager : bool;
  Telemetry : option TelemetryConfig
}.

#[export] Instance ConnectionState_eq_dec : EqDecision ConnectionState.
Proof. solve_decision. Defined.

#[export] Instance RequestReplyMode_eq_dec : EqDecision RequestReplyMode.
Proof. solve_decision. Defined.

(** The zero value of [Message]. *)
Definition Message_zero : Message := mkMessage "" "" "" "" [] None 0.

Definition QueueOptions_zero : QueueOptions := mkQueueOptions false false false false false.

(** [Config.applyDefaults]. *)
Definition applyDefaults (c : Config) : Config := {|
  QueueManagerName := QueueManagerName c;
  ConnectionName := ConnectionName c;
  ChannelName := ChannelName c;
  Username := Username c;
  Password := Password c;
  TLS := TLS c;
  InputQueue := InputQueue c;
  OutputQueue := OutputQueue c;
  ModelQueue := if String.eqb (ModelQueue c) "" then "SYSTEM.DEFAULT.MODEL.QUEUE" else ModelQueue c;
  InputConcurrency := if InputConcurrency c <=? 0 then 1 else InputConcurrency c;
  OutputConcurrency := if OutputConcurrency c <=? 0 then 1 else OutputConcurrency c;
  ProducerTTL := ProducerTTL c;
  MaxRetries := if MaxRetries c <=? 0 then 10 else MaxRetries c;
  InitialRetryInterval := if InitialRetryInterval c <=? 0 then 2 * Second else InitialRetryInterval c;
  RetryMultiplier := if f64_ltb (RetryMultiplier c) f64_one then f64_two else RetryMultiplier c;
  MaxRetryInterval := if MaxRetryInterval c <=? 0 then 30 * Second else MaxRetryInterval c;
  SetQueueManager := SetQueueManager c;
  Telemetry := Telemetry c
|}.

(** The checks of [Config.Validate], in source order: whether the check fails,
    and the message it appends. *)
Definition validate_checks (c : Config) : list (bool * string) :=
  [(String.eqb (QueueManagerName c) "", "QueueManagerName is required"%string);
   (String.eqb (ConnectionName c) "", "ConnectionName is required"%string);
   (String.eqb (ChannelName c) "", "ChannelName is required"%string);
   (InputConcurrency c <? 1, "InputConcurrency must be ≥ 1"%string);
   (OutputConcurrency c <? 1, "OutputConcurrency must be ≥ 1"%string);
   (MaxRetries c <? 0, "MaxRetries must be ≥ 0"%string);
   (f64_ltb (RetryMultiplier c) f64_one, "RetryMultiplier must be ≥ 1.0"%string);
   (ProducerTTL c <? 0, "ProducerTTL must be ≥ 0"%string)].

(** The [errs] slice of [Config.Validate]. *)
Definition validate_errs (c : Config) : list string :=
  map snd (filter (fun p => p.1 = true) (validate_checks c)).

(** [msg := errs[0]; for _, e := range errs[1:] { msg = Sprintf("%s; %s", msg, e) }]. *)
Definition join_messages (first : string) (rest : list string) : string :=
  fold_left (fun msg e => String.append msg (String.append "; " e)) rest first.

(** [Config.Validate]. *)
Definition Validate (c : Config) : error :=
  match validate_errs c with
  | [] => None
  | first :: rest =>
      Some (ErrFmt [inr (ErrSentinel ErrInvalidConfig); inl (Lit ": ");
                    inl (Lit (join_messages first rest))])
  end.

(** The constraints the documentation of [Config] states, as a predicate. *)
Record config_ok (c : Config) : Prop := {
  ok_qm : QueueManagerName c <> "";
  ok_conn : ConnectionName c <> "";
  ok_chan : ChannelName c <> "";
  ok_in : 1 <= InputConcurrency c;
  ok_out : 1 <= OutputConcurrency c;
  ok_retries : 0 <= MaxRetries c;
  ok_mult : f64_ltb (RetryMultiplier c) f64_one = false;
  ok_ttl : 0 <= ProducerTTL c
}.

(** What the rest of the library may assume of a defaulted configuration. *)
Record config_defaulted (c : Config) : Prop := {
  d_model : ModelQueue c <> "";
  d_in : 1 <= InputConcurrency c;
  d_out : 1 <= OutputConcurrency c;
  d_retries : 1 <= MaxRetries c;
  d_initial : 0 < InitialRetryInterval c;
  d_mult : f64_ltb (RetryMultiplier c) f64_one = false;
  d_cap : 0 < MaxRetryInterval c
}.

(** Two configurations that differ at most in the secrets: the password and the
    TLS key store path and certificate label. *)
Definition tls_public (t : TLSConfig) : string * string * bool :=
  (CipherSpec t, PeerName t, FIPSRequired t).

Record same_public (c1 c2 : Config) : Prop := {
  sp_qm : QueueManagerName c1 = QueueManagerName c2;
  sp_conn : ConnectionName c1 = ConnectionName c2;
  sp_chan : ChannelName c1 = ChannelName c2;
  sp_tls : tls_public <$> TLS c1 = tls_public <$> TLS c2;
  sp_iq : InputQueue c1 = InputQueue c2;
  sp_oq : OutputQueue c1 = OutputQueue c2;
  sp_mq : ModelQueue c1 = ModelQueue c2;
  sp_ic : InputConcurrency c1 = InputConcurrency c2;
  sp_oc : OutputConcurrency c1 = OutputConcurrency c2;
  sp_ttl : ProducerTTL c1 = ProducerTTL c2;
  sp_mr : MaxRetries c1 = MaxRetries c2;
  sp_iri : InitialRetryInterval c1 = InitialRetryInterval c2;
  sp_mult : RetryMultiplier c1 = RetryMultiplier c2;
  sp_mri : MaxRetryInterval c1 = MaxRetryInterval c2;
  sp_sqm : SetQueueManager c1 = SetQueueManager c2
}.

(** The configuration of the README's first example, after defaulting. *)
Definition readme_config : Config := applyDefaults {|
  QueueManagerName := "QM1";
  ConnectionName := "localhost(1414)";
  ChannelName := "DEV.APP.SVRCONN";
  Username := "app";
  Password := "passw0rd";
  TLS := None;
  InputQueue := "DEV.QUEUE.1";
  OutputQueue := "";
  ModelQueue := "DEV.APP.MODEL.QUEUE";
  InputConcurrency := 3;
  OutputConcurrency := 0;
  ProducerTTL := 0;
  MaxRetries := 0;
  InitialRetryInterval := 0;
  RetryMultiplier := S754_zero false;
  MaxRetryInterval := 0;
  SetQueueManager := false;
  Telemetry := None
|}.

(** ** Lemmas *)

Lemma applyDefaults_ok c : config_defaulted (applyDefaults c).
Proof.
  split; simpl.
  1: destruct (String.eqb_spec (ModelQueue c) ""); done.
  5: destruct (f64_ltb (RetryMultiplier c) f64_one) eqn:?; done.
  all: unfold Second; case_goal; lia.
Qed.

Lemma validate_errs_nil c :
  validate_errs c = [] <-> Forall (fun p => p.1 = false) (validate_checks c).
Proof.
  unfold validate_errs. generalize (validate_checks c) as l.
  induction l as [|[b s] l IH]; [split; constructor|].
  rewrite filter_cons, Forall_cons. destruct b; simpl; [naive_solver|].
  rewrite IH. tauto.
Qed.

Lemma Validate_nil c : Validate c = None <-> config_ok c.
Proof.
  unfold Validate. transitivity (validate_errs c = []).
  { by destruct (validate_errs c). }
  rewrite validate_errs_nil. unfold validate_checks. rewrite !Forall_cons. simpl.
  rewrite !String.eqb_neq, !Z.ltb_ge.
  split; [intros (?&?&?&?&?&?&?&?&?); by split | intros []; repeat split; auto; lia].
Qed.

Lemma applyDefaults_id c : config_defaulted c -> applyDefaults c = c.
Proof.
  intros [Hm Hi Ho Hr Hii Hmu Hc]. destruct c; simpl in *. unfold applyDefaults; simpl.
  rewrite (proj2 (String.eqb_neq _ _) Hm), Hmu.
  repeat match goal with |- context [?x <=? 0] => rewrite (proj2 (Z.leb_gt x 0)) by lia end.
  reflexivity.
Qed.

Lemma validate_checks_public c1 c2 :
  same_public c1 c2 -> validate_checks c1 = validate_checks c2.
Proof. intros []. unfold validate_checks. congruence. Qed.

