(* ===== verification/Mqi.v ===== *)
(** * The world outside the library

    The IBM MQ binding (github.com/ibm-messaging/mq-golang), OpenTelemetry, the
    clock, randomness, contexts and the application's callbacks are not part of
    the repository: the model treats a call to one of them as an external event
    [ext], whose answer the environment chooses.  The structures of the binding
    appear with the fields the source reads or writes; the values its
    constructors ([NewMQMD] and so on) give the other fields, and its numeric
    constants, are the parameters [MQBinding]. *)

From Stdlib Require Import ZArith Lia Strings.Byte.
From stdpp Require Import base list option strings gmap sets.
From S2P Require Import Prelude GoErrors Float64 Config.

(** ** Structures of the binding *)

Record MQCD := mkMQCD {
  cd_ChannelName : string;
  cd_ConnectionName : string;
  SSLCipherSpec : string;
  SSLPeerName : string
}.

Record MQCSP := mkMQCSP {
  AuthenticationType : Z;
  UserId : string;
  csp_Password : string
}.

Record MQSCO := mkMQSCO {
  sco_KeyRepository : string;
  sco_CertificateLabel : string;
  FipsRequired : bool
}.

Record MQCNO := mkMQCNO {
  cno_Options : Z;
  ClientConn : option MQCD;
  SecurityParms : option MQCSP;
  SSLConfig : option MQSCO
}.

Record MQOD := mkMQOD { ObjectName : string; DynamicQName : string }.

Record MQMD := mkMQMD {
  MsgId : list byte;
  CorrelId : list byte;
  ReplyToQ : string;
  ReplyToQMgr : string;
  Expiry : Z
}.

Record MQPMO := mkMQPMO { pmo_Options : Z }.

Record MQGMO := mkMQGMO { gmo_Options : Z; MatchOptions : Z; WaitInterval : Z }.

(** Handles of live objects.  Handle 0 is the zero value of
    [ibmmq.MQQueueManager], before any connect. *)
Abbreviation MQQueueManager := nat (only parsing).
Abbreviation MQObject := nat (only parsing).
Abbreviation Ctx := nat (only parsing).
Abbreviation Span := nat (only parsing).

(** Constructors and constants of the binding. *)
Class MQBinding := {
  #[global] mq_reasons :: MQReasons;
  NewMQCD : MQCD;
  NewMQCSP : MQCSP;
  NewMQSCO : MQSCO;
  NewMQCNO : MQCNO;
  NewMQOD : MQOD;
  NewMQMD : MQMD;
  NewMQPMO : MQPMO;
  NewMQGMO : MQGMO;
  MQCNO_CLIENT_BINDING : Z;
  MQCSP_AUTH_USER_ID_AND_PWD : Z;
  MQOO_INPUT_AS_Q_DEF : Z;
  MQOO_INPUT_SHARED : Z;
  MQOO_INPUT_EXCLUSIVE : Z;
  MQOO_OUTPUT : Z;
  MQOO_FAIL_IF_QUIESCING : Z;
  MQOO_READ_AHEAD : Z;
  MQGMO_WAIT : Z;
  MQGMO_NO_SYNCPOINT : Z;
  MQPMO_NEW_MSG_ID : Z;
  MQPMO_NO_SYNCPOINT : Z;
  MQMO_MATCH_CORREL_ID : Z
}.

(** MQMD.CorrelId is a 24-byte field (MQ_CORREL_ID_LENGTH), which is what the
    [copy] calls of the source rely on. *)
Class CorrelId24 `{MQBinding} : Prop := correl_id_24 : length (CorrelId NewMQMD) = 24%nat.

(** ** OpenTelemetry *)

Inductive SpanKind := SpanKindProducer | SpanKindConsumer | SpanKindClient.

Inductive InstrumentKind := Float64Histogram | Int64ObservableGauge | Int64Counter.

(** A call of an application callback, which is given a pointer to a message: it
    leaves the message as it likes, and returns an error or panics with a value. *)
Inductive user_answer := UserReturns (m : Message) (e : error) | UserPanics (m : Message) (v : nat).

(** ** External events, with the type of their answer *)

Inductive ext : Type -> Type :=
(* context, clock and randomness *)
| CtxErr (c : Ctx) : ext (option ctx_error)
| WithCancel (c : Ctx) : ext Ctx
| CancelCtx (c : Ctx) : ext unit
| SleepOrDone (c : Ctx) (d : Z) : ext (option ctx_error)
| Int63n (n : Z) : ext Z
| RandRead (n : nat) : ext (list byte + err)
| Now : ext Z
(* IBM MQ *)
| Connx (qm : string) (cno : MQCNO) : ext (MQQueueManager + err)
| Disc (h : MQQueueManager) : ext error
| MQOpen (h : MQQueueManager) (od : MQOD) (opts : Z) : ext ((MQObject * MQOD) + err)
| MQClose (o : MQObject) (opts : Z) : ext error
| MQPut (o : MQObject) (md : MQMD) (pmo : MQPMO) (body : list byte) : ext (MQMD + err)
| GetSlice (o : MQObject) (md : MQMD) (gmo : MQGMO) (buf : Z) : ext ((MQMD * list byte) + err)
(* OpenTelemetry *)
| TracerOf (p : provider) (scope : string) : ext nat
| MeterOf (p : provider) (scope : string) : ext nat
| NewInstrument (m : nat) (k : InstrumentKind) (name desc unit_ : string) : ext (nat * error)
| SpanStart (tracer : nat) (c : Ctx) (name : string) (k : SpanKind)
    (attrs : list (string * string)) : ext (Ctx * Span)
| SpanRecordError (sp : Span) (e : err) : ext unit
| SpanSetStatusError (sp : Span) (t : text) : ext unit
| SpanSetAttribute (sp : Span) (k v : string) : ext unit
| SpanEnd (sp : Span) : ext unit
| HistogramRecord (i : nat) (c : Ctx) (v : float64) : ext unit
| CounterAdd (i : nat) (c : Ctx) (n : Z) (attrs : list (string * string)) : ext unit
| PropInject (p : nat) (c : Ctx) (carrier : gmap string string) : ext (gmap string string)
| PropExtract (p : nat) (c : Ctx) (carrier : option (gmap string string)) : ext Ctx
(* application callbacks *)
| UserCall (f : nat) (c : Ctx) (m : option Message) (e : error) : ext user_answer.

(** One external call with its answer, as it appears in a trace. *)
Inductive event : Type :=
| Ev {B : Type} (e : ext B) (b : B).

(** What the environment owes: a random number lies in its range and a random
    read fills the slice. *)
Definition answer_ok {B : Type} (e : ext B) (b : B) : Prop :=
  match e in ext B return B -> Prop with
  | Int63n n => fun r => (0 < n -> 0 <= r < n)%Z
  | RandRead n => fun r => match r with inl bs => length bs = n | inr _ => True end
  | _ => fun _ => True
  end b.

(** Every call has a lawful answer. *)
Lemma answer_exists {B : Type} (e : ext B) : exists b, answer_ok e b.
Proof.
  destruct e; simpl;
    first [exists None; exact I | exists tt; exact I | exists 0%nat; exact I | exists (inr (ErrNew [])); exact I
          | exists 0%Z; lia | exists 0%Z; exact I | exists ∅; exact I | exists (0%nat, None); exact I
          | exists (0%nat, 0%nat); exact I | exists (UserPanics Message_zero 0); exact I].
Qed.

(** Projections of a trace. *)

Definition is_Connx (ev : event) : bool :=
  match ev with Ev e _ => match e with Connx _ _ => true | _ => false end end.

Definition is_GetSlice (ev : event) : bool :=
  match ev with Ev e _ => match e with GetSlice _ _ _ _ => true | _ => false end end.

Definition is_MQPut (ev : event) : bool :=
  match ev with Ev e _ => match e with MQPut _ _ _ _ => true | _ => false end end.

Definition is_Disc (ev : event) : bool :=
  match ev with Ev e _ => match e with Disc _ => true | _ => false end end.

(** A call to the queue manager. *)
Definition mqi_call (ev : event) : bool :=
  match ev with
  | Ev e _ => match e with
              | Connx _ _ | Disc _ | MQOpen _ _ _ | MQClose _ _ | MQPut _ _ _ _ | GetSlice _ _ _ _ => true
              | _ => false
              end
  end.

(** Handles released by a Disc. *)
Definition disc_handle (ev : event) : option MQQueueManager :=
  match ev with Ev e _ => match e with Disc h => Some h | _ => None end end.

(** Disconnects that failed. *)
Definition disc_failure (ev : event) : option err :=
  match ev with
  | Ev e b => match e in ext B return B -> option err with
              | Disc _ => fun r => r
              | _ => fun _ => None
              end b
  end.

(** The waits requested from the timer. *)
Definition sleep_request (ev : event) : option Z :=
  match ev with Ev e _ => match e with SleepOrDone _ d => Some d | _ => None end end.

(** Queue objects opened and closed. *)
Definition opened_object (ev : event) : option MQObject :=
  match ev with
  | Ev e b => match e in ext B return B -> option MQObject with
              | MQOpen _ _ _ => fun r => match r with inl (o, _) => Some o | inr _ => None end
              | _ => fun _ => None
              end b
  end.

Definition closed_object (ev : event) : option MQObject :=
  match ev with Ev e _ => match e with MQClose o _ => Some o | _ => None end end.

(** Spans started and ended. *)
Definition started_span (ev : event) : option Span :=
  match ev with
  | Ev e b => match e in ext B return B -> option Span with
              | SpanStart _ _ _ _ _ => fun r => Some r.2
              | _ => fun _ => None
              end b
  end.

Definition ended_span (ev : event) : option Span :=
  match ev with Ev e _ => match e with SpanEnd s => Some s | _ => None end end.

(** The message descriptors and bodies handed to MQPUT. *)
Definition put_request (ev : event) : option (MQMD * list byte) :=
  match ev with Ev e _ => match e with MQPut _ md _ body => Some (md, body) | _ => None end end.

(** An observation that context [c] is done, or that it is not. *)
Definition ctx_observation (c : Ctx) (ev : event) : option (option ctx_error) :=
  match ev with
  | Ev e b => match e in ext B return B -> option (option ctx_error) with
              | CtxErr c' => fun r => if decide (c = c') then Some r else None
              | SleepOrDone c' _ =>
                  fun r => if decide (c = c') then match r with Some _ => Some r | None => None end
                           else None
              | _ => fun _ => None
              end b
  end.

(** A context that was seen done stays done, with the same error (the contract
    of [context.Context.Err]). *)
Fixpoint ctx_monotone_from (c : Ctx) (seen : option ctx_error) (tr : list event) : Prop :=
  match tr with
  | [] => True
  | ev :: tr =>
      match ctx_observation c ev with
      | None => ctx_monotone_from c seen tr
      | Some obs =>
          match seen with
          | Some e => obs = Some e /\ ctx_monotone_from c seen tr
          | None => ctx_monotone_from c obs tr
          end
      end
  end.

Definition ctx_monotone (c : Ctx) (tr : list event) : Prop := ctx_monotone_from c None tr.

(** What the latest look at context [c] found. *)
Definition last_seen (c : Ctx) (tr : list event) : option (option ctx_error) :=
  last (omap (ctx_observation c) tr).

(** A check that found context [c] live. *)
Definition live_check (c : Ctx) (ev : event) : bool :=
  match ctx_observation c ev with Some None => true | _ => false end.

(** The connections a trace leaves open: each successful connect adds a handle,
    each disconnect removes one. *)
Definition track_handle (live : gset nat) (ev : event) : gset nat :=
  match ev with
  | Ev e b => match e in ext B return B -> gset nat with
              | Connx _ _ => fun r => match r with inl q => {[q]} ∪ live | inr _ => live end
              | Disc h => fun _ => live ∖ {[h]}
              | _ => fun _ => live
              end b
  end.

Definition live_handles (live : gset nat) (tr : list event) : gset nat :=
  fold_left track_handle tr live.

(** Neither a connect nor a disconnect. *)
Definition keeps_handles (ev : event) : bool :=
  match ev with
  | Ev e _ => match e with Connx _ _ | Disc _ => false | _ => true end
  end.

(** The descriptor and options of each MQGET. *)
Definition get_request (ev : event) : option (MQMD * MQGMO) :=
  match ev with Ev e _ => match e with GetSlice _ md gmo _ => Some (md, gmo) | _ => None end end.

(** The messages MQGET delivered, as (descriptor, body). *)
Definition received (ev : event) : option (MQMD * list byte) :=
  match ev with
  | Ev e b => match e in ext B return B -> option (MQMD * list byte) with
              | GetSlice _ _ _ _ => fun r => match r with inl x => Some x | inr _ => None end
              | _ => fun _ => None
              end b
  end.

(** How many events of a trace satisfy a test. *)
Definition count_events (f : event -> bool) (tr : list event) : nat :=
  length (List.filter f tr).

Arguments count_events f !tr /.

(** The event with which a computation saw context [c] end with [x]. *)
Definition saw_done (c : Ctx) (x : ctx_error) (ev : event) : Prop :=
  ctx_observation c ev = Some (Some x).

(** The last event of a trace. *)
Definition ends_with (ev : event) (t : list event) : Prop := exists t', t = t' ++ [ev].

(** ** Lemmas *)

Lemma ends_with_app ev t t' : ends_with ev t' -> ends_with ev (t ++ t').
Proof. intros [u ->]. exists (t ++ u). by rewrite app_assoc. Qed.

Lemma ends_with_one ev t : ends_with ev (t ++ [ev]).
Proof. by exists t. Qed.

Lemma count_events_app f t t' : count_events f (t ++ t') = count_events f t + count_events f t'.
Proof. unfold count_events. by rewrite List.filter_app, length_app. Qed.

Lemma omap_cons {A B : Type} (f : A -> option B) x l :
  omap f (x :: l) = option_list (f x) ++ omap f l.
Proof. simpl. by destruct (f x). Qed.

Lemma live_handles_app live t t' :
  live_handles live (t ++ t') = live_handles (live_handles live t) t'.
Proof. apply fold_left_app. Qed.

Lemma live_keeps live t :
  Forall (fun ev => keeps_handles ev = true) t -> live_handles live t = live.
Proof.
  intros Ht. revert live. induction Ht as [|[B e b] t He Ht IH]; intros live; [done|].
  simpl. rewrite IH. by destruct e.
Qed.

Lemma live_handles_mono live live' t :
  live ⊆ live' -> live_handles live t ⊆ live_handles live' t.
Proof.
  revert live live'. induction t as [|[B e b] t IH]; intros live live' Hs; [done|].
  simpl. apply IH. destruct e; simpl; try done; [|set_solver]. destruct b; [set_solver|done].
Qed.

Lemma last_seen_live c t t' :
  ends_with (Ev (CtxErr c) None) t -> omap (ctx_observation c) t' = [] ->
  last_seen c (t ++ t') = Some None.
Proof.
  intros [u ->] Ht. unfold last_seen. rewrite !omap_app, Ht, app_nil_r. simpl.
  rewrite decide_True by done. apply last_snoc.
Qed.

(** A context whose last observation found it live was never seen done. *)
Lemma ctx_monotone_live c t :
  ctx_monotone c t -> last_seen c t = Some None ->
  forall x ev, ev ∈ t -> ~ saw_done c x ev.
Proof.
  unfold ctx_monotone, saw_done, last_seen.
  assert (Hdone : forall x t, ctx_monotone_from c (Some x) t ->
    Forall (fun o => o = Some x) (omap (ctx_observation c) t)).
  { intros x u. induction u as [|ev u IH]; [done|]. rewrite omap_cons. simpl.
    destruct (ctx_observation c ev); simpl; [|done]. intros [-> Hu]. auto. }
  induction t as [|ev t IH]; intros Hm Hl x ev' Hin; [set_solver|].
  rewrite omap_cons in Hl. simpl in Hm.
  destruct (ctx_observation c ev) as [[y|]|] eqn:E; simpl in *.
  - exfalso. apply Hdone in Hm. destruct (omap (ctx_observation c) t) as [|o l] eqn:Eo; [done|].
    apply last_Some_elem_of in Hl. rewrite Forall_forall in Hm. apply elem_of_cons in Hl as [|Hl]; [done|].
    by specialize (Hm None Hl).
  - apply elem_of_cons in Hin as [->|Hin]; [by rewrite E|].
    destruct (omap (ctx_observation c) t) as [|o l] eqn:Eo; simpl in *.
    + intros Hs. assert (Some x ∈ omap (ctx_observation c) t) as Hx.
      { apply list_elem_of_omap. eauto. } rewrite Eo in Hx. set_solver.
    + by eapply IH.
  - apply elem_of_cons in Hin as [->|Hin]; [by rewrite E|]. by eapply IH.
Qed.

Lemma saw_done_CtxErr c x : saw_done c x (Ev (CtxErr c) (Some x)).
Proof. unfold saw_done. simpl. by rewrite decide_True. Qed.

Lemma saw_done_Sleep c d x : saw_done c x (Ev (SleepOrDone c d) (Some x)).
Proof. unfold saw_done. simpl. by rewrite decide_True. Qed.

#[export] Hint Resolve saw_done_CtxErr saw_done_Sleep : go_db.
