(* ===== verification/GoProg.v ===== *)
(** * Go programs over shared state

    [prog S A] is a Go computation of result [A] over the mutable state [S] of a
    component.  Its steps are the ones other goroutines can observe: a critical
    section ([Atomic]), a channel operation, lock or wait that may block
    ([Select], which lists the outcomes that are ready), an external call ([Ext])
    and the start of a goroutine ([Fork]).  Panics are an outcome of their own,
    so [defer] and [recover] are definable.

    One definition per Go function then serves two semantics: [run], a
    sequential interpreter (with [wp], the properties that hold whatever the
    environment answers), and [cstep], the interleavings of any number of
    goroutines (with [cwp], a logic of thread-owned tokens). *)

From stdpp Require Import base list option relations.
From S2P Require Import Prelude GoErrors Mqi.

(** What a blocking step waits for. *)
Inductive chanop := ChanSend | ChanRecv | MutexLock | WgWait | SelectDefault.

Inductive prog (S A : Type) : Type :=
| Ret (a : A)
| Panic (v : nat)
| OutOfFuel
| Atomic {B : Type} (f : S -> B * S) (k : B -> prog S A)
| Select {B : Type} (l : chanop) (f : S -> list (B * S)) (k : B -> prog S A)
| Ext {B : Type} (e : ext B) (k : B -> prog S A)
| Fork (child : prog S unit) (k : prog S A).

Arguments Ret {S A} a.
Arguments Panic {S A} v.
Arguments OutOfFuel {S A}.
Arguments Atomic {S A B} f k.
Arguments Select {S A B} l f k.
Arguments Ext {S A B} e k.
Arguments Fork {S A} child k.

(** Sequencing that also sees a panic: the common core of bind, defer, recover. *)
Fixpoint tbind {S A B : Type} (p : prog S A) (k : A + nat -> prog S B) : prog S B :=
  match p with
  | Ret a => k (inl a)
  | Panic v => k (inr v)
  | OutOfFuel => OutOfFuel
  | Atomic f j => Atomic f (fun b => tbind (j b) k)
  | Select l f j => Select l f (fun b => tbind (j b) k)
  | Ext e j => Ext e (fun b => tbind (j b) k)
  | Fork c j => Fork c (tbind j k)
  end.

Definition bind {S A B : Type} (p : prog S A) (k : A -> prog S B) : prog S B :=
  tbind p (fun r => match r with inl a => k a | inr v => Panic v end).

(** [defer cleanup] around [body]: the cleanup runs on return and on panic. *)
Definition defer {S A : Type} (cleanup : prog S unit) (body : prog S A) : prog S A :=
  tbind body (fun r => bind cleanup (fun _ =>
    match r with inl a => Ret a | inr v => Panic v end)).

(** [defer func() { if r := recover(); r != nil { handler } }()]. *)
Definition recover {S A : Type} (handler : nat -> prog S A) (body : prog S A) : prog S A :=
  tbind body (fun r => match r with inl a => Ret a | inr v => handler v end).

Notation "'do!' x <- p ; q" := (bind p (fun x => q))
  (at level 10, x name, p at level 100, q at level 200) : go_scope.
Notation "'do!' ' pat <- p ; q" := (bind p (fun x => match x with pat => q end))
  (at level 10, pat pattern, p at level 100, q at level 200) : go_scope.
Notation "p ;;; q" := (bind p (fun _ => q))
  (at level 100, q at level 200, right associativity) : go_scope.

Definition atomic {S B : Type} (f : S -> B * S) : prog S B := Atomic f Ret.

Definition modify {S : Type} (f : S -> S) : prog S unit := atomic (fun s => (tt, f s)).

Definition reads {S B : Type} (f : S -> B) : prog S B := atomic (fun s => (f s, s)).

Definition select {S B : Type} (l : chanop) (f : S -> list (B * S)) : prog S B :=
  Select l f Ret.

Definition call {S B : Type} (e : ext B) : prog S B := Ext e Ret.

(** A computation on a part of the state, seen from the whole. *)
Fixpoint zoom {S T A : Type} (get : S -> T) (set : T -> S -> S) (p : prog T A) : prog S A :=
  match p with
  | Ret a => Ret a
  | Panic v => Panic v
  | OutOfFuel => OutOfFuel
  | Atomic f k =>
      Atomic (fun s => let r := f (get s) in (r.1, set r.2 s)) (fun b => zoom get set (k b))
  | Select l f k =>
      Select l (fun s => map (fun r => (r.1, set r.2 s)) (f (get s))) (fun b => zoom get set (k b))
  | Ext e k => Ext e (fun b => zoom get set (k b))
  | Fork c k => Fork (zoom get set c) (zoom get set k)
  end.

(** Computations that touch no component state, and their use inside one that
    does. *)
Abbreviation io := (prog unit).

Definition lift {S A : Type} (p : io A) : prog S A := zoom (fun _ => tt) (fun _ s => s) p.

(** ** Sequential execution *)

Inductive outcome (A : Type) :=
| Returned (a : A)
| Panicked (v : nat)
| NoFuel
| Blocked
| Crashed (v : nat).

Arguments Returned {A} a.
Arguments Panicked {A} v.
Arguments NoFuel {A}.
Arguments Blocked {A}.
Arguments Crashed {A} v.

(** A call that came back, with a result or with a panic. *)
Definition ended {A : Type} (o : outcome A) : bool :=
  match o with Returned _ | Panicked _ => true | _ => false end.

(** An environment: how it answers, from a state of its own. *)
Definition handler (W : Type) : Type := forall B : Type, ext B -> W -> B * W.

Record result (S W A : Type) := mkResult {
  out : outcome A;
  st : S;
  env : W;
  tr : list event
}.

Arguments mkResult {S W A}.
Arguments out {S W A}.
Arguments st {S W A}.
Arguments env {S W A}.
Arguments tr {S W A}.

Definition after {S W A : Type} (t : list event) (r : result S W A) : result S W A :=
  mkResult (out r) (st r) (env r) (t ++ tr r).

(** One goroutine run alone: a blocking step takes its first ready outcome, a
    forked goroutine runs at once; the panic of a forked goroutine ends the process ([Crashed]). *)
Fixpoint run {S W A : Type} (h : handler W) (p : prog S A) (s : S) (w : W) : result S W A :=
  match p with
  | Ret a => mkResult (Returned a) s w []
  | Panic v => mkResult (Panicked v) s w []
  | OutOfFuel => mkResult NoFuel s w []
  | Atomic f k => run h (k (f s).1) (f s).2 w
  | Select l f k =>
      match f s with
      | [] => mkResult Blocked s w []
      | r :: _ => run h (k r.1) r.2 w
      end
  | Ext e k =>
      let r := h _ e w in
      after [Ev e r.1] (run h (k r.1) s r.2)
  | Fork c k =>
      let r := run h c s w in
      match out r with
      | Panicked v | Crashed v => mkResult (Crashed v) (st r) (env r) (tr r)
      | _ => after (tr r) (run h k (st r) (env r))
      end
  end.

Definition handler_ok {W : Type} (h : handler W) : Prop :=
  forall B (e : ext B) w, answer_ok e (h B e w).1.

(** [wp p Q s]: every sequential run of [p] from [s], whatever the environment
    answers, ends in an outcome, a state and a trace that satisfy [Q]. *)
Fixpoint wp {S A : Type} (p : prog S A) (Q : outcome A -> S -> list event -> Prop) (s : S) : Prop :=
  match p with
  | Ret a => Q (Returned a) s []
  | Panic v => Q (Panicked v) s []
  | OutOfFuel => Q NoFuel s []
  | Atomic f k => wp (k (f s).1) Q (f s).2
  | Select l f k =>
      (f s = [] -> Q Blocked s []) /\
      (forall r, r ∈ f s -> wp (k r.1) Q r.2)
  | Ext e k => forall b, answer_ok e b -> wp (k b) (fun o s' t => Q o s' (Ev e b :: t)) s
  | Fork c k =>
      wp c (fun o s' t =>
        match o with
        | Panicked v | Crashed v => Q (Crashed v) s' t
        | _ => wp k (fun o' s'' t' => Q o' s'' (t ++ t')) s'
        end) s
  end.

(** ** Interleaved execution *)

(** The shared state and the goroutines. *)
Record machine (S A : Type) := mkMachine { shared : S; threads : list (prog S A) }.

Arguments mkMachine {S A}.
Arguments shared {S A}.
Arguments threads {S A}.

(** One step of one goroutine; a forked goroutine joins the others. *)
Inductive tstep {S A : Type} : prog S A -> S -> prog S A -> S -> option (prog S unit) -> Prop :=
| t_atomic {B} (f : S -> B * S) k s :
    tstep (Atomic f k) s (k (f s).1) (f s).2 None
| t_select {B} l (f : S -> list (B * S)) k s r :
    r ∈ f s -> tstep (Select l f k) s (k r.1) r.2 None
| t_ext {B} (e : ext B) k s b :
    answer_ok e b -> tstep (Ext e k) s (k b) s None
| t_fork c k s :
    tstep (Fork c k) s k s (Some c).

(** Goroutines with the same result type; a forked one returns unit, which
    [inj] injects. *)
Inductive cstep {S A : Type} (inj : unit -> A) : machine S A -> machine S A -> Prop :=
| c_step s s' ts i p p' c :
    ts !! i = Some p -> tstep p s p' s' c ->
    cstep inj (mkMachine s ts)
      (mkMachine s' (<[i := p']> ts ++
                    match c with None => [] | Some q => [bind q (fun u => Ret (inj u))] end)).

Definition reachable {S A : Type} (inj : unit -> A) : machine S A -> machine S A -> Prop :=
  rtc (cstep inj).

(** An interleaving computed from a schedule (which goroutine moves next) and an
    environment; a goroutine that cannot move stays where it is. *)
Definition exec_thread {S W A : Type} (h : handler W) (p : prog S A) (s : S) (w : W)
    : option (prog S A * S * W * option (prog S unit)) :=
  match p with
  | Atomic f k => Some (k (f s).1, (f s).2, w, None)
  | Select _ f k => match f s with [] => None | r :: _ => Some (k r.1, r.2, w, None) end
  | Ext e k => let r := h _ e w in Some (k r.1, s, r.2, None)
  | Fork c k => Some (k, s, w, Some c)
  | _ => None
  end.

Fixpoint exec {S W A : Type} (h : handler W) (inj : unit -> A) (sched : list nat) (c : machine S A) (w : W)
    : machine S A :=
  match sched with
  | [] => c
  | i :: sched =>
      match threads c !! i with
      | Some p =>
          match exec_thread h p (shared c) w with
          | Some (p', s', w', fk) =>
              exec h inj sched
                (mkMachine s' (<[i := p']> (threads c) ++
                   match fk with None => [] | Some q => [bind q (fun u => Ret (inj u))] end)) w'
          | None => exec h inj sched c w
          end
      | None => exec h inj sched c w
      end
  end.

(** A goroutine that is about to do a channel operation of kind [l] that is not
    ready. *)
Definition stuck_on {S A : Type} (l : chanop) (p : prog S A) (s : S) : Prop :=
  match p with
  | Select l' f _ => l' = l /\ f s = []
  | _ => False
  end.

(** A computation whose only steps are external calls. *)
Fixpoint ext_only {S A : Type} (p : prog S A) : Prop :=
  match p with
  | Ret _ | Panic _ | OutOfFuel => True
  | Ext e k => forall b, ext_only (k b)
  | _ => False
  end.

(** Every external call [p] can make, with every lawful answer, satisfies [P]. *)
Fixpoint emits {S A : Type} (P : event -> Prop) (p : prog S A) : Prop :=
  match p with
  | Ret _ | Panic _ | OutOfFuel => True
  | Atomic f k => forall b, emits P (k b)
  | Select _ f k => forall b, emits P (k b)
  | Ext e k => forall b, answer_ok e b -> P (Ev e b) /\ emits P (k b)
  | Fork c k => emits P c /\ emits P k
  end.

(** Every step of [p], and of the goroutines it starts, moves the state along [R]. *)
Fixpoint stays {S A : Type} (R : S -> S -> Prop) (p : prog S A) : Prop :=
  match p with
  | Ret _ | Panic _ | OutOfFuel => True
  | Atomic f k => (forall s, R s (f s).2) /\ forall b, stays R (k b)
  | Select _ f k => (forall s r, r ∈ f s -> R s r.2) /\ forall b, stays R (k b)
  | Ext e k => forall b, stays R (k b)
  | Fork c k => stays R c /\ stays R k
  end.

(** ** The token logic

    Each goroutine owns a list of tokens; [Inv s ts] relates the shared state to
    all the tokens in circulation.  [cwp p t Q]: a goroutine that runs [p] owning
    [t] keeps the invariant whatever the others own, finds an operation of kind
    [l] not ready only in a state where it may ([mb l s t]), and ends owning tokens
    that satisfy [Q]; a goroutine it starts takes a share, which may duplicate
    tokens the invariant allows to, and ends owning tokens that satisfy [QF]. *)

Section token_logic.
Context {S Tok : Type} (Inv : S -> list Tok -> Prop) (mb : chanop -> S -> list Tok -> Prop)
  (QF : outcome unit -> list Tok -> Prop).

Fixpoint cwp {A : Type} (p : prog S A) (t : list Tok) (Q : outcome A -> list Tok -> Prop) : Prop :=
  match p with
  | Ret a => Q (Returned a) t
  | Panic v => Q (Panicked v) t
  | OutOfFuel => Q NoFuel t
  | Atomic f k =>
      forall s F, Inv s (t ++ F) ->
        exists t', Inv (f s).2 (t' ++ F) /\ cwp (k (f s).1) t' Q
  | Select l f k =>
      forall s F, Inv s (t ++ F) ->
        (f s = [] -> mb l s t) /\
        forall r, r ∈ f s -> exists t', Inv r.2 (t' ++ F) /\ cwp (k r.1) t' Q
  | Ext e k => forall b, answer_ok e b -> cwp (k b) t Q
  | Fork c k =>
      forall s F, Inv s (t ++ F) ->
        exists t1 t2, Inv s (t1 ++ t2 ++ F) /\ cwp c t1 QF /\ cwp k t2 Q
  end.

(** [QF] seen through the injection of a forked goroutine's result. *)
Definition fork_post {A : Type} (inj : unit -> A) (Q : outcome A -> list Tok -> Prop) : Prop :=
  forall o t, QF o t ->
    match o with
    | Returned u => Q (Returned (inj u)) t
    | Panicked v => Q (Panicked v) t
    | NoFuel => Q NoFuel t
    | Blocked | Crashed _ => True
    end.

(** Every goroutine owns a share of the tokens with which it is verified. *)
Definition machine_inv {A : Type} (Q : outcome A -> list Tok -> Prop) (c : machine S A) : Prop :=
  exists tss : list (list Tok),
    Forall2 (fun p t => cwp p t Q) (threads c) tss /\ Inv (shared c) (concat tss).

End token_logic.

(** What a continuation owes to the postcondition of the whole. *)
Definition post_tbind {S A B : Type} (k : A + nat -> prog S B)
    (Q : outcome B -> S -> list event -> Prop) (o : outcome A) (s : S) (t : list event) : Prop :=
  match o with
  | Returned a => wp (k (inl a)) (fun o' s' t' => Q o' s' (t ++ t')) s
  | Panicked v => wp (k (inr v)) (fun o' s' t' => Q o' s' (t ++ t')) s
  | NoFuel => Q NoFuel s t
  | Blocked => Q Blocked s t
  | Crashed v => Q (Crashed v) s t
  end.

(** ** Lemmas: sequential runs *)

Lemma wp_mono {S A : Type} (p : prog S A) :
  forall (Q Q' : outcome A -> S -> list event -> Prop) s,
  (forall o s' t, Q o s' t -> Q' o s' t) -> wp p Q s -> wp p Q' s.
Proof.
  induction p as [A a|A v|A|A B f k IH|A B l f k IH|A B e k IH|A c IHc k IHk];
    intros Q Q' s HQ Hp; simpl in *; eauto.
  - destruct Hp as [Hb Hp]. split; eauto.
  - intros b Hb. eapply IH; [|exact (Hp b Hb)]. simpl. eauto.
  - eapply IHc; [|exact Hp]. simpl. intros [] s' t H; eauto.
    all: eapply IHk; [|exact H]; simpl; eauto.
Qed.

Lemma wp_conj {S A : Type} (p : prog S A) :
  forall (Q Q' : outcome A -> S -> list event -> Prop) s,
  wp p Q s -> wp p Q' s -> wp p (fun o s' t => Q o s' t /\ Q' o s' t) s.
Proof.
  induction p as [A a|A v|A|A B f k IH|A B l f k IH|A B e k IH|A c IHc k IHk];
    intros Q Q' s Hp Hp'; simpl in *; auto.
  - destruct Hp, Hp'. split; auto.
  - eapply wp_mono; [|apply (IHc _ _ _ Hp Hp')]. intros o s' t [H1 H2]. destruct o; auto.
Qed.

Lemma post_tbind_app {S A B : Type} (k : A + nat -> prog S B) Q o s t t' :
  post_tbind k Q o s (t ++ t') <-> post_tbind k (fun o s t'' => Q o s (t ++ t'')) o s t'.
Proof.
  destruct o; simpl; try done.
  all: split; apply wp_mono; intros ? ? ?; by rewrite app_assoc.
Qed.

Lemma wp_tbind {S A B : Type} (p : prog S A) :
  forall (k : A + nat -> prog S B) Q s,
  wp p (post_tbind k Q) s -> wp (tbind p k) Q s.
Proof.
  induction p as [A a|A v|A|A C f j IH|A C l f j IH|A C e j IH|A c IHc j IHj];
    intros k Q s Hp; simpl in *; eauto.
  - destruct Hp as [Hb Hp]. split; eauto.
  - eapply wp_mono; [|exact Hp]. intros o s' t H. destruct o; simpl in *; auto.
    all: apply IHj; eapply wp_mono; [|exact H]; intros ? ? ?; apply post_tbind_app.
Qed.

Lemma wp_bind {S A B : Type} (p : prog S A) (k : A -> prog S B) Q s :
  wp p (post_tbind (fun r => match r with inl a => k a | inr v => Panic v end) Q) s ->
  wp (bind p k) Q s.
Proof. apply wp_tbind. Qed.

(** Soundness: [wp] speaks of every run under every lawful environment. *)
Lemma wp_run {S W A : Type} (h : handler W) (p : prog S A) :
  handler_ok h ->
  forall Q s w, wp p Q s ->
  Q (out (run h p s w)) (st (run h p s w)) (tr (run h p s w)).
Proof.
  intros Hh.
  induction p as [A a|A v|A|A B f k IH|A B l f k IH|A B e k IH|A c IHc k IHk];
    intros Q s w Hp; simpl in *.
  1-3: exact Hp.
  - exact (IH _ Q _ w Hp).
  - destruct Hp as [Hb Hp]. destruct (f s) as [|r rs]; simpl; [by apply Hb|].
    apply IH, Hp. left.
  - apply (IH _ (fun o s' t => Q o s' (Ev e (h B e w).1 :: t))), Hp, Hh.
  - specialize (IHc _ _ w Hp). destruct (out (run h c s w)); simpl in *; auto.
    all: apply (IHk (fun o s' t => Q o s' (tr (run h c s w) ++ t))), IHc.
Qed.

(** A postcondition and a property of all the events, together. *)
Lemma wp_emits {S A : Type} (P : event -> Prop) (p : prog S A) :
  emits P p -> forall Q s, wp p Q s -> wp p (fun o s' t => Q o s' t /\ Forall P t) s.
Proof.
  induction p as [A a|A v|A|A B f k IH|A B l f k IH|A B e k IH|A c IHc k IHk];
    simpl; intros He Q s Hp; eauto.
  - destruct Hp as [Hb Hp]. split; [by auto|]. intros r Hr. by apply IH; [|apply Hp].
  - intros b Hb. destruct (He b Hb) as [HP Hk]. eapply wp_mono; [|apply (IH b Hk), (Hp b Hb)].
    simpl. intros o s' t [? ?]. auto.
  - destruct He as [Hc Hk]. eapply wp_mono; [|apply (IHc Hc _ _ Hp)].
    intros o s' t [HQ Ht]. destruct o; auto.
    all: eapply wp_mono; [|apply (IHk Hk _ _ HQ)]; intros ? ? ? [? ?]; split; auto; by apply Forall_app.
Qed.

Lemma emits_tbind {S A B : Type} P (p : prog S A) (k : A + nat -> prog S B) :
  emits P p -> (forall r, emits P (k r)) -> emits P (tbind p k).
Proof.
  intros Hp Hk. induction p as [A a|A v|A|A C f j IH|A C l f j IH|A C e j IH|A c IHc j IHj];
    simpl in *; auto; [|naive_solver].
  intros b Hb. destruct (Hp b Hb). auto.
Qed.

Lemma emits_bind {S A B : Type} P (p : prog S A) (k : A -> prog S B) :
  emits P p -> (forall a, emits P (k a)) -> emits P (bind p k).
Proof. intros Hp Hk. apply emits_tbind; [done|]. by intros []. Qed.

(** A postcondition and a frame, together. *)
Lemma wp_stays {S A : Type} (R : S -> S -> Prop) `{!PreOrder R} (p : prog S A) :
  stays R p -> forall Q s, wp p Q s -> wp p (fun o s' t => Q o s' t /\ R s s') s.
Proof.
  induction p as [A a|A v|A|A B f k IH|A B l f k IH|A B e k IH|A c IHc k IHk];
    simpl; intros He Q s Hp; try (by split).
  - destruct He as [Hf Hk]. eapply wp_mono; [|exact (IH _ (Hk _) _ _ Hp)].
    intros o s' t [HQ HR]. split; [done|]. etrans; [apply Hf|done].
  - destruct He as [Hf Hk], Hp as [Hb Hp]. split; [split; [by auto|done]|]. intros r Hr.
    eapply wp_mono; [|exact (IH _ (Hk _) _ _ (Hp r Hr))].
    intros o s' t [HQ HR]. split; [done|]. by etrans; [by apply Hf|].
  - intros b Hb. exact (IH b (He b) _ _ (Hp b Hb)).
  - destruct He as [Hc Hk]. eapply wp_mono; [|apply (IHc Hc _ _ Hp)].
    intros o s' t [HQ HR]. destruct o; auto.
    all: eapply wp_mono; [|apply (IHk Hk _ _ HQ)]; intros ? ? ? [? ?]; split; [done|by etrans].
Qed.

Lemma stays_tbind {S A B : Type} R (p : prog S A) (k : A + nat -> prog S B) :
  stays R p -> (forall r, stays R (k r)) -> stays R (tbind p k).
Proof.
  intros Hp Hk. induction p as [A a|A v|A|A C f j IH|A C l f j IH|A C e j IH|A c IHc j IHj];
    simpl in *; naive_solver.
Qed.

Lemma stays_bind {S A B : Type} R (p : prog S A) (k : A -> prog S B) :
  stays R p -> (forall a, stays R (k a)) -> stays R (bind p k).
Proof. intros Hp Hk. apply stays_tbind; [done|]. by intros []. Qed.

Lemma stays_defer {S A : Type} R (c : prog S unit) (p : prog S A) :
  stays R c -> stays R p -> stays R (defer c p).
Proof.
  intros Hc Hp. apply stays_tbind; [done|]. intros r. apply stays_bind; [done|]. by destruct r.
Qed.

Lemma stays_modify {S : Type} (R : S -> S -> Prop) f : (forall s, R s (f s)) -> stays R (modify f).
Proof. by split. Qed.

Lemma stays_select {S B : Type} (R : S -> S -> Prop) l (f : S -> list (B * S)) :
  (forall s r, r ∈ f s -> R s r.2) -> stays R (select l f).
Proof. by split. Qed.

Lemma stays_lift {S A : Type} (R : S -> S -> Prop) `{!Reflexive R} (p : io A) : stays R (lift p).
Proof.
  unfold lift. induction p as [A a|A v|A|A B f k IH|A B l f k IH|A B e k IH|A c IHc k IHk]; simpl; auto.
  split; [|done]. by intros s r (x & -> & _)%list_elem_of_fmap.
Qed.

#[export] Hint Resolve stays_bind stays_defer stays_modify stays_select : go_db.

Lemma wp_select {S B : Type} l (f : S -> list (B * S)) (Q : outcome B -> S -> list event -> Prop) s :
  (f s = [] -> Q Blocked s []) -> (forall r, r ∈ f s -> Q (Returned r.1) r.2 []) ->
  wp (select l f) Q s.
Proof. intros Hb Hr. split; auto. Qed.

Lemma run_tbind {S W A B : Type} (h : handler W) (p : prog S A) :
  forall (k : A + nat -> prog S B) s w,
  let r := run h p s w in
  run h (tbind p k) s w =
  match out r with
  | Returned a => after (tr r) (run h (k (inl a)) (st r) (env r))
  | Panicked v => after (tr r) (run h (k (inr v)) (st r) (env r))
  | NoFuel => mkResult NoFuel (st r) (env r) (tr r)
  | Blocked => mkResult Blocked (st r) (env r) (tr r)
  | Crashed v => mkResult (Crashed v) (st r) (env r) (tr r)
  end.
Proof.
  assert (Hnil : forall C (x : result S W C), after [] x = x) by (intros C []; reflexivity).
  assert (Happ : forall C t t' (x : result S W C), after t (after t' x) = after (t ++ t') x)
    by (intros; unfold after; simpl; by rewrite app_assoc).
  induction p as [A a|A v|A|A C f j IH|A C l f j IH|A C e j IH|A c IHc j IHj];
    intros k s w; simpl; rewrite ?Hnil; auto.
  - destruct (f s) as [|r rs]; simpl; auto.
  - rewrite IH. destruct (out (run h (j _) s _)); simpl; rewrite ?Happ; reflexivity.
  - destruct (out (run h c s w)); simpl; auto; rewrite IHj;
      destruct (out (run h j _ _)); simpl; rewrite ?Happ; reflexivity.
Qed.

(** Lens laws, on the states that satisfy [P], under which [zoom] is transparent. *)
Class LensOn {S T : Type} (P : S -> Prop) (get : S -> T) (set : T -> S -> S) : Prop := {
  get_set : forall t s, P s -> get (set t s) = t;
  set_get : forall s, P s -> set (get s) s = s;
  set_set : forall t t' s, set t (set t' s) = set t s;
  set_on : forall t s, P s -> P (set t s)
}.

Lemma wp_zoom {S T A : Type} (P : S -> Prop) (get : S -> T) (set : T -> S -> S) `{!LensOn P get set}
    (p : prog T A) :
  forall (Q : outcome A -> S -> list event -> Prop) s,
  P s -> wp p (fun o t tr => Q o (set t s) tr) (get s) -> wp (zoom get set p) Q s.
Proof.
  induction p as [A a|A v|A|A B f k IH|A B l f k IH|A B e k IH|A c IHc k IHk];
    intros Q s HP Hp; simpl in *.
  1-3: by rewrite set_get in Hp.
  - apply IH; [by apply set_on|]. rewrite get_set by done.
    eapply wp_mono; [|exact Hp]. intros ? ? ?; by rewrite set_set.
  - destruct Hp as [Hb Hp]. split.
    + intros Hn%map_eq_nil. specialize (Hb Hn). by rewrite set_get in Hb.
    + intros r (r' & -> & Hr)%list_elem_of_fmap. simpl. apply IH; [by apply set_on|].
      rewrite get_set by done. eapply wp_mono; [|exact (Hp r' Hr)]. intros ? ? ?; by rewrite set_set.
  - intros b Hb. apply IH; [done|]. exact (Hp b Hb).
  - apply IHc; [done|]. eapply wp_mono; [|exact Hp]. intros o t tr H. destruct o; auto.
    all: apply IHk; [by apply set_on|]; rewrite get_set by done; eapply wp_mono; [|exact H];
      intros ? ? ?; by rewrite set_set.
Qed.

#[export] Instance lift_lens {S : Type} : LensOn (fun _ => True) (fun _ : S => tt) (fun _ s => s).
Proof. split; [by intros [] | done..]. Qed.

Lemma wp_lift {S A : Type} (p : io A) (Q : outcome A -> S -> list event -> Prop) s :
  wp p (fun o _ t => Q o s t) tt -> wp (lift p) Q s.
Proof. intros H. apply (wp_zoom (fun _ => True) (fun _ => tt) (fun _ s => s)); [done|]. exact H. Qed.

(** External-only computations *)

Lemma ext_only_tbind {S A B : Type} (p : prog S A) (k : A + nat -> prog S B) :
  ext_only p -> (forall r, ext_only (k r)) -> ext_only (tbind p k).
Proof.
  intros Hp Hk.
  induction p as [A a|A v|A|A C f j IH|A C l f j IH|A C e j IH|A c IHc j IHj];
    simpl in *; auto; contradiction.
Qed.

Lemma ext_only_bind {S A B : Type} (p : prog S A) (k : A -> prog S B) :
  ext_only p -> (forall a, ext_only (k a)) -> ext_only (bind p k).
Proof. intros Hp Hk. apply ext_only_tbind; [done|]. by intros []. Qed.

Lemma ext_only_defer {S A : Type} (c : prog S unit) (p : prog S A) :
  ext_only c -> ext_only p -> ext_only (defer c p).
Proof.
  intros Hc Hp. apply ext_only_tbind; [done|]. intros r. apply ext_only_bind; [done|].
  by destruct r.
Qed.

Lemma ext_only_recover {S A : Type} (h : nat -> prog S A) (p : prog S A) :
  (forall v, ext_only (h v)) -> ext_only p -> ext_only (recover h p).
Proof. intros Hh Hp. apply ext_only_tbind; [done|]. by intros []. Qed.

Lemma ext_only_call {S B : Type} (e : ext B) : ext_only (S := S) (call e).
Proof. done. Qed.

#[export] Hint Resolve ext_only_bind ext_only_defer ext_only_recover ext_only_call : go_db.

(** ** Lemmas: interleavings *)

(** A schedule of [n] turns takes at most [n] steps. *)
Lemma exec_nsteps {S W A : Type} (h : handler W) (inj : unit -> A) sched (c : machine S A) w :
  handler_ok h -> exists k, (k <= length sched)%nat /\ nsteps (cstep inj) k c (exec h inj sched c w).
Proof.
  intros Hh. revert c w. induction sched as [|i sched IH]; intros c w; simpl.
  { exists 0%nat. split; [done|constructor]. }
  assert (Hskip : exists k, (k <= Datatypes.S (length sched))%nat /\ nsteps (cstep inj) k c (exec h inj sched c w)).
  { destruct (IH c w) as (k & Hk & Hs). exists k. split; [by apply Nat.le_le_succ_r|done]. }
  destruct (threads c !! i) as [p|] eqn:Hi; [|done].
  destruct (exec_thread h p (shared c) w) as [[[[p' s'] w'] fk]|] eqn:Hs; [|done].
  destruct (IH (mkMachine s' (<[i := p']> (threads c) ++
    match fk with None => [] | Some q => [bind q (fun u => Ret (inj u))] end)) w') as (k & Hk & Hsteps).
  exists (Datatypes.S k). split; [by apply le_n_S|]. eapply nsteps_l; [|exact Hsteps].
  destruct c as [s ts]. simpl in *. apply (c_step inj s s' ts i p p' fk Hi).
  destruct p as [a|v| |B f j|B l f j|B e j|q j]; simplify_eq/=; try constructor.
  - destruct (f s) as [|r rs] eqn:Hf; simplify_eq. constructor. rewrite Hf. left.
  - apply Hh.
Qed.

Lemma exec_reachable {S W A : Type} (h : handler W) (inj : unit -> A) sched (c : machine S A) w :
  handler_ok h -> reachable inj c (exec h inj sched c w).
Proof. intros Hh. destruct (exec_nsteps h inj sched c w Hh) as (k & _ & Hs). by eapply rtc_nsteps_2. Qed.

(** A goroutine with no step left. *)
Definition finished {S A : Type} (p : prog S A) : bool :=
  match p with Ret _ | Panic _ | OutOfFuel => true | _ => false end.

(** The same, to be evaluated on a concrete machine. *)
Definition out_of_fuel {S A : Type} (p : prog S A) : bool :=
  match p with OutOfFuel => true | _ => false end.

Definition stuck_thread {S A : Type} (l : chanop) (i : nat) (c : machine S A) : Prop :=
  match threads c !! i with Some p => stuck_on l p (shared c) | None => False end.

Lemma Forall_finished {S A : Type} (ps : list (prog S A)) :
  Forall (fun p => finished p = true) ps -> forallb finished ps = true.
Proof. induction 1 as [|p ps Hp _ IH]; simpl; [done|]. by rewrite Hp. Qed.

Lemma elem_out_of_fuel {S A : Type} (ps : list (prog S A)) :
  OutOfFuel ∈ ps -> existsb out_of_fuel ps = true.
Proof.
  induction ps as [|p ps IH]; [by intros ?%not_elem_of_nil|].
  intros [<-|Hin]%elem_of_cons; [done|]. simpl. rewrite IH by done. apply orb_true_r.
Qed.

Lemma out_of_fuel_dec {S A : Type} (ps : list (prog S A)) : OutOfFuel ∈ ps \/ OutOfFuel ∉ ps.
Proof.
  induction ps as [|p ps [IH|IH]]; [right; apply not_elem_of_nil|left; by right|].
  destruct p; try (right; by intros [?|?]%elem_of_cons). left. by left.
Qed.

(** What a step of each kind of program is. *)
Lemma tstep_inv {S A : Type} (p : prog S A) s p' s' c :
  tstep p s p' s' c ->
  match p with
  | Atomic f k => p' = k (f s).1 /\ s' = (f s).2 /\ c = None
  | Select _ f k => exists r, r ∈ f s /\ p' = k r.1 /\ s' = r.2 /\ c = None
  | Ext e k => exists b, answer_ok e b /\ p' = k b /\ s' = s /\ c = None
  | Fork q k => p' = k /\ s' = s /\ c = Some q
  | _ => False
  end.
Proof. destruct 1; naive_solver. Qed.

(** Some goroutine can move. *)
Definition can_step {S A : Type} (inj : unit -> A) (c : machine S A) : Prop :=
  exists c', cstep inj c c'.

Lemma tstep_progress {S A : Type} (p : prog S A) s :
  finished p = true \/ (exists l, stuck_on l p s) \/ exists p' s' c, tstep p s p' s' c.
Proof.
  destruct p as [| | |B f k|B l f k|B e k|c k]; auto; right.
  - right. eauto using t_atomic.
  - destruct (f s) as [|r rs] eqn:Hf; [left; by exists l|]. right. exists (k r.1), r.2, None.
    constructor. rewrite Hf. by left.
  - right. destruct (answer_exists e) as [b Hb]. eauto using t_ext.
  - right. eauto using t_fork.
Qed.

(** A goroutine that is neither finished nor stuck lets the machine move. *)
Lemma can_step_thread {S A : Type} (inj : unit -> A) (c : machine S A) p :
  p ∈ threads c -> finished p = false -> (forall l, ~ stuck_on l p (shared c)) -> can_step inj c.
Proof.
  intros [i Hi]%list_elem_of_lookup Hf Hs. destruct c as [s ts]. simpl in *.
  destruct (tstep_progress p s) as [Hx|[[l Hx]|(p' & s' & fk & Hx)]]; [congruence|by destruct (Hs l)|].
  eexists. by econstructor.
Qed.

(** Every goroutine has ended or waits for something that is not ready. *)
Definition halted {S A : Type} (c : machine S A) : Prop :=
  Forall (fun p => finished p = true \/ exists l, stuck_on l p (shared c)) (threads c).

Lemma halted_no_step {S A : Type} (inj : unit -> A) (c : machine S A) : halted c -> ~ can_step inj c.
Proof.
  intros Hh [c' Hc]. destruct Hc as [s s' ts i p p' fk Hi Ht]. unfold halted in Hh. simpl in Hh.
  pose proof (Forall_lookup_1 _ _ _ _ Hh Hi) as Hp. clear Hi Hh. destruct Ht; simpl in Hp.
  all: destruct Hp as [Hf|[l' Hl]]; try done.
  destruct Hl as [_ Hn]. rewrite Hn in *. by eapply not_elem_of_nil.
Qed.

Lemma Forall_finished_halted {S A : Type} (c : machine S A) : forallb finished (threads c) = true -> halted c.
Proof.
  unfold halted. induction (threads c) as [|p ps IH]; simpl; [constructor|].
  intros [Hp Hps]%andb_true_iff. constructor; [by left|by apply IH].
Qed.

Section token_logic_lemmas.
Context {S Tok : Type} (Inv : S -> list Tok -> Prop) (mb : chanop -> S -> list Tok -> Prop)
  (QF : outcome unit -> list Tok -> Prop).
Context {Inv_proper : forall s, Proper ((≡ₚ) ==> iff) (Inv s)}.

Lemma cwp_mono {A : Type} (p : prog S A) :
  forall t (Q Q' : outcome A -> list Tok -> Prop),
  (forall o t', Q o t' -> Q' o t') -> cwp Inv mb QF p t Q -> cwp Inv mb QF p t Q'.
Proof.
  induction p as [A a|A v|A|A B f k IH|A B l f k IH|A B e k IH|A c IHc k IHk];
    intros t Q Q' HQ Hp; simpl in *; eauto.
  - intros s F HI. destruct (Hp s F HI) as (t' & HI' & Hk). eauto.
  - intros s F HI. destruct (Hp s F HI) as [Hb Hk]. split; [done|].
    intros r Hr. destruct (Hk r Hr) as (t' & HI' & Hk'). eauto.
  - intros s F HI. destruct (Hp s F HI) as (t1 & t2 & Ht & Hc & Hk). eauto 6.
Qed.

Lemma cwp_tbind {A B : Type} (p : prog S A) :
  forall (k : A + nat -> prog S B) t Q,
  cwp Inv mb QF p t (fun o t' =>
    match o with
    | Returned a => cwp Inv mb QF (k (inl a)) t' Q
    | Panicked v => cwp Inv mb QF (k (inr v)) t' Q
    | NoFuel => Q NoFuel t'
    | Blocked | Crashed _ => True
    end) ->
  cwp Inv mb QF (tbind p k) t Q.
Proof.
  induction p as [A a|A v|A|A C f j IH|A C l f j IH|A C e j IH|A c IHc j IHj];
    intros k t Q Hp; simpl in *; eauto.
  - intros s F HI. destruct (Hp s F HI) as (t' & HI' & Hk). eauto.
  - intros s F HI. destruct (Hp s F HI) as [Hb Hk]. split; [done|].
    intros r Hr. destruct (Hk r Hr) as (t' & HI' & Hk'). eauto.
  - intros s F HI. destruct (Hp s F HI) as (t1 & t2 & Ht & Hc & Hk). eauto 6.
Qed.

Lemma cwp_bind {A B : Type} (p : prog S A) (k : A -> prog S B) t Q :
  cwp Inv mb QF p t (fun o t' =>
    match o with
    | Returned a => cwp Inv mb QF (k a) t' Q
    | Panicked v => Q (Panicked v) t'
    | NoFuel => Q NoFuel t'
    | Blocked | Crashed _ => True
    end) ->
  cwp Inv mb QF (bind p k) t Q.
Proof.
  intros Hp. apply cwp_tbind. eapply cwp_mono; [|exact Hp]. by intros [].
Qed.

(** A computation that only makes external calls leaves the tokens alone; what
    it returns is what its sequential [wp] says. *)
Lemma cwp_lift {A : Type} (p : io A) t (Q : outcome A -> list Tok -> Prop) :
  ext_only p -> wp p (fun o _ _ => Q o t) tt -> cwp Inv mb QF (lift p) t Q.
Proof.
  induction p as [A a|A v|A|A B f k IH|A B l f k IH|A B e k IH|A c IHc k IHk];
    simpl; intros Hp Hw; try done.
  intros b Hb. by apply IH; [|apply Hw].
Qed.

Lemma concat_insert_perm (tss : list (list Tok)) i t t' :
  tss !! i = Some t ->
  exists F, concat tss ≡ₚ t ++ F /\ concat (<[i := t']> tss) ≡ₚ t' ++ F.
Proof.
  intros Hi. exists (concat (take i tss) ++ concat (drop (Datatypes.S i) tss)). split.
  - rewrite <-(take_drop_middle tss i t Hi) at 1. rewrite concat_app. simpl. solve_Permutation.
  - rewrite insert_take_drop by (by eapply lookup_lt_Some).
    rewrite concat_app. simpl. solve_Permutation.
Qed.

(** The token step: a goroutine step turns its share into another share, and a
    forked goroutine takes its own. *)
Lemma tstep_cwp {A : Type} (p : prog S A) s p' s' c t F Q :
  tstep p s p' s' c -> cwp Inv mb QF p t Q -> Inv s (t ++ F) ->
  exists t' tc, Inv s' (t' ++ tc ++ F) /\ cwp Inv mb QF p' t' Q /\
    match c with None => tc = [] | Some q => cwp Inv mb QF q tc QF end.
Proof.
  intros Hstep Hp HI. destruct Hstep; simpl in *.
  - destruct (Hp s F HI) as (t' & ? & ?). by exists t', [].
  - destruct (Hp s F HI) as [_ Hk]. destruct (Hk r) as (t' & ? & ?); [done|]. by exists t', [].
  - exists t, []. eauto.
  - destruct (Hp s F HI) as (t1 & t2 & HI' & Hc & Hk). exists t2, t1. split; [|done].
    by rewrite app_assoc, (Permutation_app_comm t2), <-app_assoc.
Qed.

Lemma cstep_inv {A : Type} (inj : unit -> A) Q c c' :
  fork_post QF inj Q -> cstep inj c c' ->
  machine_inv Inv mb QF Q c -> machine_inv Inv mb QF Q c'.
Proof.
  intros HQ Hstep (tss & Hts & HI). destruct Hstep as [s s' ts i p p' fk Hi Ht]. simpl in *.
  destruct (Forall2_lookup_l _ _ _ _ _ Hts Hi) as (t & Hti & Hp).
  destruct (concat_insert_perm tss i t t Hti) as (F & HF & _).
  destruct (tstep_cwp p s p' s' fk t F Q Ht Hp) as (t' & tc & HI' & Hp' & Hfk).
  { by rewrite <-HF. }
  exists (<[i := t']> tss ++ match fk with None => [] | Some _ => [tc] end). split; simpl.
  - apply Forall2_app; [by apply Forall2_insert|]. destruct fk as [q|]; [|constructor].
    constructor; [|constructor]. apply cwp_bind. eapply cwp_mono; [|exact Hfk].
    intros o t0 Ho. specialize (HQ o t0 Ho). by destruct o.
  - rewrite concat_app.
    destruct (concat_insert_perm tss i t t' Hti) as (F' & HF' & HFn).
    assert (HFF : F ≡ₚ F') by (apply (Permutation_app_inv_l t); by rewrite <-HF, <-HF').
    rewrite HFn, <-HFF, <-app_assoc, (Permutation_app_comm F).
    destruct fk; simpl; [by rewrite app_nil_r|by subst tc].
Qed.

(** The soundness of the logic: the invariant holds in every reachable state,
    with every goroutine still verified. *)
Lemma reachable_inv {A : Type} (inj : unit -> A) Q c c' :
  fork_post QF inj Q -> reachable inj c c' ->
  machine_inv Inv mb QF Q c -> machine_inv Inv mb QF Q c'.
Proof. intros HQ. induction 1; eauto using cstep_inv. Qed.

(** The owner of a token. *)
Lemma token_owner {A : Type} Q (c : machine S A) tss x :
  Forall2 (fun p t => cwp Inv mb QF p t Q) (threads c) tss -> x ∈ concat tss ->
  exists p t F, p ∈ threads c /\ x ∈ t /\ cwp Inv mb QF p t Q /\ concat tss ≡ₚ t ++ F.
Proof.
  intros Hts (t & Ht & Hx)%list_elem_of_In%in_concat. apply list_elem_of_In, list_elem_of_lookup in Ht as [i Hi].
  destruct (Forall2_lookup_r _ _ _ _ _ Hts Hi) as (p & Hp & Hcwp).
  destruct (concat_insert_perm tss i t t Hi) as (F & HF & _).
  exists p, t, F. split_and!; [by eapply list_elem_of_lookup_2|by apply list_elem_of_In|done|done].
Qed.

(** A verified goroutine is stuck only where it may block. *)
Lemma stuck_may_block {A : Type} Q (p : prog S A) t F s l :
  cwp Inv mb QF p t Q -> Inv s (t ++ F) -> stuck_on l p s -> mb l s t.
Proof.
  destruct p; simpl; try done. intros Hp HI [-> Hf]. by destruct (Hp s F HI) as [Hb _]; apply Hb.
Qed.

Lemma machine_inv_stuck {A : Type} Q (c : machine S A) l p :
  machine_inv Inv mb QF Q c -> p ∈ threads c -> stuck_on l p (shared c) -> exists t, mb l (shared c) t.
Proof.
  intros (tss & Hts & HI) Hp Hst. apply list_elem_of_lookup in Hp as [i Hi].
  destruct (Forall2_lookup_l _ _ _ _ _ Hts Hi) as (t & Hti & Hcwp).
  destruct (concat_insert_perm tss i t t Hti) as (F & HF & _).
  exists t. eapply stuck_may_block; [done| |done]. by rewrite <-HF.
Qed.

(** A goroutine that has returned satisfies its postcondition. *)
Lemma machine_inv_returned {A : Type} Q (c : machine S A) a :
  machine_inv Inv mb QF Q c -> Ret a ∈ threads c -> exists t, Q (Returned a) t.
Proof.
  intros (tss & Hts & HI) Hp. apply list_elem_of_lookup in Hp as [i Hi].
  destruct (Forall2_lookup_l _ _ _ _ _ Hts Hi) as (t & Hti & Hcwp). eauto.
Qed.
End token_logic_lemmas.

(** Symbolic execution of a [wp] goal: one bind, call or case at a time. *)
Ltac wp_step :=
  lazymatch goal with
  | |- wp (bind _ _) _ _ => apply wp_bind
  | |- wp (tbind _ _) _ _ => apply wp_tbind
  | |- wp (defer _ _) _ _ => unfold defer; apply wp_tbind
  | |- wp (recover _ _) _ _ => unfold recover; apply wp_tbind
  | |- wp (lift _) _ _ => apply wp_lift
  | |- wp (Ret _) _ _ => cbn [wp]
  | |- wp (Panic _) _ _ => cbn [wp]
  | |- wp (call _) _ _ => unfold call; cbn [wp]; intros ? ?
  | |- wp (Ext _ _) _ _ => cbn [wp]; intros ? ?
  | |- wp (Atomic _ _) _ _ => cbn [wp]
  | |- wp (atomic _) _ _ => unfold atomic; cbn [wp]
  | |- wp (modify _) _ _ => unfold modify, atomic; cbn [wp]
  | |- wp (reads _) _ _ => unfold reads, atomic; cbn [wp]
  | |- post_tbind _ _ _ _ _ => cbn [post_tbind]
  end.

Ltac wp_go := repeat wp_step.

(** Traces in right-nested form, without empty pieces. *)
Ltac tr_norm := rewrite ?app_nil_r, <-?app_assoc; cbn [app].
