(* ===== verification/Always.v ===== *)
(** * What a program does from any state, in any interleaving

    [always P RF p R]: whatever the shared state is at each step of [p], every
    external call it makes satisfies [P] and it ends as [R] says; the goroutines it
    starts end as [RF] says.  Nothing is assumed of the state, so the property
    survives any interference from other goroutines.  [link] replaces the calls of
    an application's callbacks by programs for them. *)

From Stdlib Require Import ZArith Lia.
From stdpp Require Import base list option relations.
From S2P Require Import Prelude GoErrors Config Mqi GoProg.

Fixpoint always {S A : Type} (P : event -> Prop) (RF : outcome unit -> Prop) (p : prog S A)
    (R : outcome A -> Prop) : Prop :=
  match p with
  | Ret a => R (Returned a)
  | Panic v => R (Panicked v)
  | OutOfFuel => R NoFuel
  | Atomic f k => forall s, always P RF (k (f s).1) R
  | Select _ f k => forall s r, r ∈ f s -> always P RF (k r.1) R
  | Ext e k => forall b, answer_ok e b -> P (Ev e b) /\ always P RF (k b) R
  | Fork c k => always P RF c RF /\ always P RF k R
  end.

(** The calls of application callback [f] become calls of the program [cb f]; a
    panic of the program is a panic of the callback that leaves its message alone. *)
Fixpoint link {S A : Type} (cb : nat -> Ctx -> option Message -> error -> prog S user_answer) (p : prog S A)
    : prog S A :=
  match p with
  | Ret a => Ret a
  | Panic v => Panic v
  | OutOfFuel => OutOfFuel
  | Atomic f k => Atomic f (fun b => link cb (k b))
  | Select l f k => Select l f (fun b => link cb (k b))
  | Ext e k =>
      match e in ext B return (B -> prog S A) -> prog S A with
      | UserCall f c m er => fun k' =>
          tbind (cb f c m er) (fun r => k' (match r with inl a => a | inr v => UserPanics (default Message_zero m) v end))
      | e' => fun k' => Ext e' k'
      end (fun b => link cb (k b))
  | Fork c k => Fork (link cb c) (link cb k)
  end.

Section always.
Context {S : Type} (P : event -> Prop) (RF : outcome unit -> Prop).

Lemma always_mono {A : Type} (p : prog S A) :
  forall R R' : outcome A -> Prop, (forall o, R o -> R' o) -> always P RF p R -> always P RF p R'.
Proof.
  induction p as [A a|A v|A|A B f k IH|A B l f k IH|A B e k IH|A c IHc k IHk]; simpl; intros R R' HR Hp; eauto.
  - intros b Hb. destruct (Hp b Hb). eauto.
  - destruct Hp. eauto.
Qed.

(** What the continuation of a program owes. *)
Definition always_post {A B : Type} (k : A + nat -> prog S B) (R : outcome B -> Prop) (o : outcome A) : Prop :=
  match o with
  | Returned a => always P RF (k (inl a)) R
  | Panicked v => always P RF (k (inr v)) R
  | NoFuel => R NoFuel
  | Blocked | Crashed _ => True
  end.

Lemma always_tbind {A B : Type} (p : prog S A) (k : A + nat -> prog S B) R :
  always P RF p (always_post k R) -> always P RF (tbind p k) R.
Proof.
  induction p as [A a|A v|A|A C f j IH|A C l f j IH|A C e j IH|A c IHc j IHj]; simpl; intros Hp; eauto.
  - intros b Hb. destruct (Hp b Hb). eauto.
  - destruct Hp. eauto.
Qed.

Lemma always_bind {A B : Type} (p : prog S A) (k : A -> prog S B) R :
  always P RF p (fun o => match o with
    | Returned a => always P RF (k a) R
    | Panicked v => R (Panicked v)
    | NoFuel => R NoFuel
    | Blocked | Crashed _ => True
    end) -> always P RF (bind p k) R.
Proof. intros Hp. apply always_tbind. eapply always_mono; [|exact Hp]. by intros []. Qed.

Lemma always_defer {A : Type} (c : prog S unit) (p : prog S A) R :
  always P RF p (always_post (fun r => bind c (fun _ => match r with inl a => Ret a | inr v => Panic v end)) R) ->
  always P RF (defer c p) R.
Proof. apply always_tbind. Qed.

(** Computations that only make external calls are known by their [wp]. *)
Lemma always_of_wp {A : Type} (p : prog S A) (R : outcome A -> Prop) s :
  ext_only p -> emits P p -> wp p (fun o _ _ => R o) s -> always P RF p R.
Proof.
  induction p as [A a|A v|A|A B f k IH|A B l f k IH|A B e k IH|A c IHc k IHk]; simpl; intros Hp He Hw; try tauto.
  intros b Hb. destruct (He b Hb). auto.
Qed.

(** Sequential runs: the calls, and the end. *)
Lemma wp_always {A : Type} (p : prog S A) (R : outcome A -> Prop) s :
  (forall v, ~ RF (Panicked v)) -> always P RF p R ->
  wp p (fun o _ t => Forall P t /\
    match o with Blocked => True | Crashed _ => False | _ => R o end) s.
Proof.
  intros HRF. revert R s. induction p as [A a|A v|A|A B f k IH|A B l f k IH|A B e k IH|A c IHc k IHk];
    simpl; intros R s Hp; auto.
  - split; [done|]. intros r Hr. apply IH. eauto.
  - intros b Hb. destruct (Hp b Hb) as [He Hk]. eapply wp_mono; [|by apply (IH b)]. intros o s' t [Ht Ho]. auto.
  - destruct Hp as [Hc Hk]. eapply wp_mono; [|by apply IHc]. intros o s' t [Ht Ho].
    assert (Hk' : wp k (fun o' _ t' => Forall P (t ++ t') /\
      match o' with Blocked => True | Crashed _ => False | _ => R o' end) s').
    { eapply wp_mono; [|by apply IHk]. intros o' s'' t' [Ht' Ho']. split; [by apply Forall_app|done]. }
    destruct o; try done. by destruct (HRF v).
Qed.

(** ** Interleavings *)

Lemma always_step {A : Type} (p : prog S A) s p' s' c R :
  tstep p s p' s' c -> always P RF p R ->
  always P RF p' R /\ match c with None => True | Some q => always P RF q RF end.
Proof.
  intros Ht. destruct Ht as [B f k s|B l f k s r Hr|B e k s b Hb|c k s]; simpl; intros Hp;
    [by auto|by eauto|by destruct (Hp b Hb)|tauto].
Qed.

(** Soundness: in every reachable state every goroutine still satisfies it. *)
Lemma always_reachable {A : Type} (inj : unit -> A) R (c c' : machine S A) :
  (forall o, RF o -> match o with Returned u => R (Returned (inj u)) | Panicked v => R (Panicked v) | NoFuel => R NoFuel
                             | _ => True end) ->
  reachable inj c c' -> Forall (fun p => always P RF p R) (threads c) ->
  Forall (fun p => always P RF p R) (threads c').
Proof.
  intros HRF Hr. induction Hr as [c|c1 c2 c3 Hs _ IH]; [done|]. intros Hc. apply IH.
  destruct Hs as [s s' ts i p p' fk Hi Ht]. simpl in *.
  pose proof (Forall_lookup_1 _ _ _ _ Hc Hi) as Hp. destruct (always_step _ _ _ _ _ _ Ht Hp) as [Hp' Hfk].
  apply Forall_app_2; [by apply Forall_insert|]. destruct fk as [q|]; [|constructor].
  apply Forall_singleton, always_bind. eapply always_mono; [|exact Hfk]. intros o Ho%HRF. by destruct o.
Qed.

(** The same for one goroutine, by its place. *)
Lemma always_at {A : Type} (inj : unit -> A) R i (c c' : machine S A) :
  reachable inj c c' -> (exists p, threads c !! i = Some p /\ always P RF p R) ->
  exists p, threads c' !! i = Some p /\ always P RF p R.
Proof.
  induction 1 as [c|c1 c2 c3 Hs _ IH]; [done|]. intros (p & Hp & Ha). apply IH.
  destruct Hs as [s s' ts j q q' fk Hj Ht]. simpl in *.
  assert (Hi : (i < length ts)%nat) by (by eapply lookup_lt_Some).
  rewrite lookup_app_l by (by rewrite length_insert).
  destruct (decide (i = j)) as [<-|Hne]; [|rewrite list_lookup_insert_ne by done; eauto].
  rewrite list_lookup_insert_eq by done. simplify_eq. eexists. split; [done|by eapply always_step].
Qed.

End always.

(** A process of one goroutine whose next step is a critical section. *)
Lemma reachable_atomic {S A B : Type} (inj : unit -> A) (f : S -> B * S) (k : B -> prog S A) s c :
  reachable inj (mkMachine s [Atomic f k]) c ->
  c = mkMachine s [Atomic f k] \/ reachable inj (mkMachine (f s).2 [k (f s).1]) c.
Proof.
  intros Hr. inversion Hr as [|c1 c2 c3 Hs Hr']; subst; [by left|right].
  inversion Hs as [s0 s' ts i p p' fk Hi Ht]; subst. apply list_lookup_singleton_Some in Hi as [-> <-].
  apply tstep_inv in Ht as (-> & -> & ->). exact Hr'.
Qed.

(** A part of the state, seen from the whole. *)
Lemma always_zoom {S T A : Type} P RF (get : S -> T) (set : T -> S -> S) (p : prog T A) :
  forall R, always P RF p R -> always P RF (zoom get set p) R.
Proof.
  induction p as [A a|A v|A|A B f k IH|A B l f k IH|A B e k IH|A c IHc k IHk]; simpl; intros R Hp; eauto.
  - intros s r (r' & -> & Hr)%list_elem_of_fmap. apply IH. eauto.
  - intros b Hb. destruct (Hp b Hb). eauto.
  - destruct Hp. eauto.
Qed.

Lemma always_lift {S A : Type} P RF (p : io A) R : always P RF p R -> always P RF (S := S) (lift p) R.
Proof. apply always_zoom. Qed.

(** Callbacks that end, whatever they return. *)
Lemma always_link {S A : Type} P RF cb (p : prog S A) :
  (forall f c m e, always P RF (cb f c m e) (fun o => match o with NoFuel => False | _ => True end)) ->
  forall R, always P RF p R -> always P RF (link cb p) R.
Proof.
  intros Hcb. induction p as [A a|A v|A|A B f k IH|A B l f k IH|A B e k IH|A c IHc k IHk]; simpl; intros R Hp; eauto.
  - destruct e; try (intros b Hb; destruct (Hp b Hb); eauto).
    apply always_tbind. eapply always_mono; [|apply Hcb]. intros [a|v| | |] Ho; simpl; try done.
    + apply IH. by apply (Hp a).
    + apply IH. by apply (Hp (UserPanics (default Message_zero m) v)).
  - destruct Hp. eauto.
Qed.

(** One step each. *)
Section steps.
Context {S : Type} (P : event -> Prop) (RF : outcome unit -> Prop).

Lemma always_ret {A : Type} (a : A) (R : outcome A -> Prop) : R (Returned a) -> always P RF (S := S) (Ret a) R.
Proof. exact id. Qed.

Lemma always_panic {A : Type} v (R : outcome A -> Prop) : R (Panicked v) -> always P RF (S := S) (Panic v) R.
Proof. exact id. Qed.

Lemma always_call {B : Type} (e : ext B) (R : outcome B -> Prop) :
  (forall b, answer_ok e b -> P (Ev e b) /\ R (Returned b)) -> always P RF (S := S) (call e) R.
Proof. exact id. Qed.

Lemma always_atomic {B : Type} (f : S -> B * S) (R : outcome B -> Prop) :
  (forall s, R (Returned (f s).1)) -> always P RF (atomic f) R.
Proof. exact id. Qed.

Lemma always_modify (f : S -> S) (R : outcome unit -> Prop) : R (Returned tt) -> always P RF (modify f) R.
Proof. by intros HR s. Qed.

Lemma always_reads {B : Type} (f : S -> B) (R : outcome B -> Prop) :
  (forall s, R (Returned (f s))) -> always P RF (reads f) R.
Proof. exact id. Qed.

Lemma always_select {B : Type} l (f : S -> list (B * S)) (R : outcome B -> Prop) :
  (forall s r, r ∈ f s -> R (Returned r.1)) -> always P RF (select l f) R.
Proof. exact id. Qed.
End steps.

(** Symbolic execution of an [always] goal, one step at a time. *)
Ltac always_step :=
  lazymatch goal with
  | |- always _ _ (bind _ _) _ => apply always_bind
  | |- always _ _ (defer _ _) _ => apply always_defer
  | |- always _ _ (recover _ _) _ => unfold recover; apply always_tbind
  | |- always _ _ (tbind _ _) _ => apply always_tbind
  | |- always _ _ (lift _) _ => apply always_lift
  | |- always _ _ (zoom _ _ _) _ => apply always_zoom
  | |- always _ _ (Ret _) _ => apply always_ret; cbv beta iota
  | |- always _ _ (Panic _) _ => apply always_panic; cbv beta iota
  | |- always _ _ (call _) _ => apply always_call; intros ? ?; cbv beta iota; split; [try exact I|]
  | |- always _ _ (atomic _) _ => apply always_atomic; intros ?; cbv beta iota
  | |- always _ _ (modify _) _ => apply always_modify; cbv beta iota
  | |- always _ _ (reads _) _ => apply always_reads; intros ?; cbv beta iota
  | |- always _ _ (select _ _) _ => apply always_select; intros ? ? ?; cbv beta iota
  | |- always_post _ _ _ _ _ => cbn [always_post]
  end.

Ltac always_go := repeat always_step; try exact I.

(** The endings a hypothesis excludes, and those the goal does not constrain. *)
Ltac ends H := try exact I; try (exfalso; exact H).
