(* ===== verification/Fuel.v ===== *)
(** * Enough fuel

    Only the loops of a listener's consumer carry fuel, and every round of them takes
    steps.  [lasts k p]: whatever the shared state and the answers, [p] and the
    goroutines it starts take [k] steps without running out of fuel.  A machine of
    such goroutines has not run out after fewer than [k] steps ([machine_lasts]), so
    what is proved of runs with enough fuel is proved of every finite run. *)

From Stdlib Require Import ZArith Lia.
From stdpp Require Import base numbers list option relations.
From S2P Require Import Prelude GoErrors Config Mqi GoProg Always.

(** The steps that remain after an external call.  A callback counts for nothing: an
    application's own program may stand in its place. *)
Definition spend {B : Type} (e : ext B) (k : nat) : nat :=
  match e with UserCall _ _ _ _ => k | _ => pred k end.

Fixpoint lasts {S A : Type} (k : nat) (p : prog S A) : Prop :=
  match p with
  | Ret _ | Panic _ => True
  | OutOfFuel => k = 0%nat
  | Atomic f j => forall s, lasts (pred k) (j (f s).1)
  | Select _ f j => forall s r, r ∈ f s -> lasts (pred k) (j r.1)
  | Ext e j => forall b, answer_ok e b -> lasts (spend e k) (j b)
  | Fork c j => lasts (pred k) c /\ lasts (pred k) j
  end.

Lemma spend_le {B : Type} (e : ext B) j k : (j <= k)%nat -> (spend e j <= spend e k)%nat.
Proof. destruct e; simpl; lia. Qed.

Lemma spend_pred {B : Type} (e : ext B) k : (k <= spend e (S k))%nat.
Proof. destruct e; simpl; lia. Qed.

Lemma spend_sub {B : Type} (e : ext B) k : (spend e k <= k)%nat.
Proof. destruct e; simpl; lia. Qed.

(** ** Composition *)

Section lasts.
Context {S : Type}.

Lemma lasts_le {A : Type} (p : prog S A) : forall j k, (j <= k)%nat -> lasts k p -> lasts j p.
Proof.
  induction p as [A a|A v|A|A B f i IH|A B l f i IH|A B e i IH|A c IHc i IHi]; simpl; intros j k Hjk Hp; try done.
  - lia.
  - intros s. eapply IH; [|apply Hp]. lia.
  - intros s r Hr. eapply IH; [|by eapply Hp]. lia.
  - intros b Hb. eapply IH; [|by apply Hp]. by apply spend_le.
  - destruct Hp as [Hc Hi]. split; [eapply IHc; [|exact Hc]|eapply IHi; [|exact Hi]]; lia.
Qed.

Lemma lasts_tbind {A B : Type} (p : prog S A) (f : A + nat -> prog S B) :
  forall k, lasts k p -> (forall r, lasts k (f r)) -> lasts k (tbind p f).
Proof.
  induction p as [A a|A v|A|A C g i IH|A C l g i IH|A C e i IH|A c IHc i IHi]; simpl; intros k Hp Hf; auto.
  - intros s. apply IH; [auto|]. intros r. eapply lasts_le; [|apply Hf]. lia.
  - intros s r Hr. apply IH; [eauto|]. intros r'. eapply lasts_le; [|apply Hf]. lia.
  - intros b Hb. apply IH; [auto|]. intros r. eapply lasts_le; [|apply Hf]. apply spend_sub.
  - destruct Hp as [Hc Hi]. split; [done|]. apply IHi; [done|]. intros r. eapply lasts_le; [|apply Hf]. lia.
Qed.

Lemma lasts_bind {A B : Type} (p : prog S A) (f : A -> prog S B) k :
  lasts k p -> (forall a, lasts k (f a)) -> lasts k (bind p f).
Proof. intros Hp Hf. apply lasts_tbind; [done|]. by intros [a|v]. Qed.

Lemma lasts_defer {A : Type} (c : prog S unit) (p : prog S A) k : lasts k c -> lasts k p -> lasts k (defer c p).
Proof. intros Hc Hp. apply lasts_tbind; [done|]. intros r. apply lasts_bind; [done|]. by destruct r. Qed.

Lemma lasts_recover {A : Type} (h : nat -> prog S A) (p : prog S A) k :
  (forall v, lasts k (h v)) -> lasts k p -> lasts k (recover h p).
Proof. intros Hh Hp. apply lasts_tbind; [done|]. by intros [a|v]. Qed.

(** A first step that counts pays for one more round. *)
Lemma lasts_atomic_bind {A B : Type} (f : S -> B * S) (j : B -> prog S A) k :
  (forall b, lasts (pred k) (j b)) -> lasts k (bind (atomic f) j).
Proof. intros Hj s. apply Hj. Qed.

Lemma lasts_call_bind {A B : Type} (e : ext B) (j : B -> prog S A) k :
  (forall b, lasts (spend e k) (j b)) -> lasts k (bind (call e) j).
Proof. intros Hj b _. apply Hj. Qed.

Lemma lasts_atomic {B : Type} (f : S -> B * S) k : lasts k (atomic f).
Proof. by intros s. Qed.

Lemma lasts_select {B : Type} l (f : S -> list (B * S)) k : lasts k (select l f).
Proof. by intros s r _. Qed.

Lemma lasts_call {B : Type} (e : ext B) k : lasts (S := S) k (call e).
Proof. by intros b _. Qed.

(** What never runs out of fuel lasts for ever. *)
Lemma always_lasts {A : Type} P RF (p : prog S A) :
  (RF NoFuel -> False) -> forall R k, (R NoFuel -> False) -> always P RF p R -> lasts k p.
Proof.
  intros HRF. induction p as [A a|A v|A|A B f i IH|A B l f i IH|A B e i IH|A c IHc i IHi]; simpl; intros R k HR Hp;
    try done.
  - intros s. by eapply IH.
  - intros s r Hr. eapply IH; [done|by eapply Hp].
  - intros b Hb. eapply IH; [done|by apply (Hp b Hb)].
  - destruct Hp. eauto.
Qed.

End lasts.

(** A computation of external calls, by its [wp]. *)
Lemma wp_lasts {S A : Type} (p : prog S A) s k :
  ext_only p -> wp p (fun o _ _ => ended o = true) s -> lasts k p.
Proof.
  revert k. induction p as [A a|A v|A|A B f i IH|A B l f i IH|A B e i IH|A c IHc i IHi]; simpl; intros k Hp Hw; try done.
  intros b Hb. apply IH; [done|by apply Hw].
Qed.

Lemma lasts_zoom {S T A : Type} (get : S -> T) (set : T -> S -> S) (p : prog T A) :
  forall k, lasts k p -> lasts k (zoom get set p).
Proof.
  induction p as [A a|A v|A|A B f i IH|A B l f i IH|A B e i IH|A c IHc i IHi]; simpl; intros k Hp; auto.
  - intros s r (r' & -> & Hr)%list_elem_of_fmap. apply IH. by eapply Hp.
  - destruct Hp. auto.
Qed.

Lemma lasts_lift {S A : Type} (p : io A) k : lasts k p -> lasts (S := S) k (lift p).
Proof. apply lasts_zoom. Qed.

Lemma lasts_link {S A : Type} (cb : nat -> Ctx -> option Message -> error -> prog S user_answer) (p : prog S A) :
  forall k, (forall f c m e, lasts k (cb f c m e)) -> lasts k p -> lasts k (link cb p).
Proof.
  induction p as [A a|A v|A|A B f i IH|A B l f i IH|A B e i IH|A c IHc i IHi]; simpl; intros k Hcb Hp; auto.
  - intros s. apply IH; [|done]. intros. eapply lasts_le; [|apply Hcb]. lia.
  - intros s r Hr. apply IH; [|by eapply Hp]. intros. eapply lasts_le; [|apply Hcb]. lia.
  - assert (Hi : forall b j, (j <= k)%nat -> lasts j (i b) -> lasts j (link cb (i b))).
    { intros b j Hj Hb. apply IH; [|done]. intros. eapply lasts_le; [exact Hj|apply Hcb]. }
    destruct e; simpl in *; try (intros b Hb; apply Hi; [lia|by apply Hp]).
    apply lasts_tbind; [apply Hcb|]. intros r. apply Hi; [done|by apply Hp; destruct r].
  - destruct Hp as [Hc Hi]. split; [apply IHc|apply IHi]; try done; intros; (eapply lasts_le; [|apply Hcb]); lia.
Qed.

(** ** Machines *)

Lemma lasts_step {S A : Type} (p : prog S A) s p' s' c k :
  tstep p s p' s' c -> lasts (Datatypes.S k) p ->
  lasts k p' /\ match c with None => True | Some q => lasts k q end.
Proof.
  intros Ht. destruct Ht as [B f j s|B l f j s r Hr|B e j s b Hb|c j s]; simpl; intros Hp.
  - by split.
  - split; [by eapply Hp|done].
  - split; [|done]. eapply lasts_le; [apply (spend_pred e)|by apply Hp].
  - tauto.
Qed.

Lemma machine_lasts {S A : Type} (inj : unit -> A) (c c' : machine S A) j : forall k,
  nsteps (cstep inj) j c c' -> Forall (lasts (j + k)) (threads c) -> Forall (lasts k) (threads c').
Proof.
  induction j as [|j IH] in c |- *; intros k Hs Hc; inversion Hs as [|? ? c1 ? Hst Hs']; subst; [done|].
  apply (IH c1); [done|]. destruct Hst as [s s' ts i p p' fk Hi Ht]. simpl in *.
  pose proof (Forall_lookup_1 _ _ _ _ Hc Hi) as Hp. destruct (lasts_step _ _ _ _ _ _ Ht Hp) as [Hp' Hfk].
  apply Forall_app_2.
  - apply Forall_insert; [|done]. eapply Forall_impl; [exact Hc|]. intros q. apply lasts_le. lia.
  - destruct fk as [q|]; [|constructor]. apply Forall_singleton, lasts_bind; [exact Hfk|done].
Qed.

(** No goroutine has run out of fuel after fewer steps than they all last. *)
Lemma machine_fuelled {S A : Type} (inj : unit -> A) (c c' : machine S A) k :
  nsteps (cstep inj) k c c' -> Forall (lasts (Datatypes.S k)) (threads c) -> OutOfFuel ∉ threads c'.
Proof.
  intros Hs Hc Hin. apply (machine_lasts inj c c' k 1) in Hs; [|by rewrite Nat.add_1_r].
  rewrite Forall_forall in Hs. by specialize (Hs _ Hin).
Qed.

Create HintDb lasts_db.

(** One bind, call or case at a time. *)
Ltac lasts_step :=
  lazymatch goal with
  | |- lasts _ (bind _ _) => apply lasts_bind; [|intros ?]
  | |- lasts _ (defer _ _) => apply lasts_defer
  | |- lasts _ (recover _ _) => apply lasts_recover; [intros ?|]
  | |- lasts _ (tbind _ _) => apply lasts_tbind; [|intros ?]
  | |- lasts _ (zoom _ _ _) => apply lasts_zoom
  | |- lasts _ (lift _) => apply lasts_lift
  | |- lasts _ (call _) => apply lasts_call
  | |- lasts _ (atomic _) => apply lasts_atomic
  | |- lasts _ (modify _) => apply lasts_atomic
  | |- lasts _ (reads _) => apply lasts_atomic
  | |- lasts _ (select _ _) => apply lasts_select
  | |- lasts _ (Ret _) => exact I
  | |- lasts _ (Panic _) => exact I
  | |- lasts _ (Fork _ _) => split
  | |- lasts _ (match ?x with _ => _ end) => destruct x
  | |- lasts _ ((match ?x with _ => _ end) _) => destruct x
  end.

Ltac lasts_go := repeat first [lasts_step | solve [auto 4 with lasts_db]].
