(* ===== verification/Termination.v ===== *)
(** * Runs are finite

    A program is a finite tree, whatever its branching: the loops of the code are
    bounded, but for those of a consumer, which carry fuel.  Goroutines may start
    others, so a machine grows while it runs; it runs out of steps all the same, in
    any interleaving ([machine_terminates]). *)

From Stdlib Require Import ZArith Lia.
From stdpp Require Import base list option relations.
From S2P Require Import Prelude GoErrors Mqi GoProg.

Section termination.
Context {S : Type}.

(** The goroutine a step starts, if any. *)
Definition forked {A : Type} (inj : unit -> A) (c : option (prog S unit)) : list (prog S A) :=
  match c with None => [] | Some q => [bind q (fun u => Ret (inj u))] end.

(** Neither the program nor a goroutine it starts runs for ever. *)
Inductive sn {A : Type} (inj : unit -> A) : prog S A -> Prop :=
| sn_intro p :
    (forall s p' s' c, tstep p s p' s' c -> sn inj p') ->
    (forall s p' s' c q, tstep p s p' s' c -> q ∈ forked inj c -> sn inj q) -> sn inj p.

(** A program that has ended, and one whose steps start nothing. *)
Lemma sn_finished {A : Type} (inj : unit -> A) (p : prog S A) : finished p = true -> sn inj p.
Proof. intros Hp. constructor; intros s p' s' c; [|intros q]; intros Ht%tstep_inv; by destruct p. Qed.

Lemma sn_alone {A : Type} (inj : unit -> A) (p : prog S A) :
  (forall s p' s' c, tstep p s p' s' c -> c = None /\ sn inj p') -> sn inj p.
Proof.
  intros Hp. constructor.
  - intros s p' s' c Ht. by destruct (Hp _ _ _ _ Ht).
  - intros s p' s' c q Ht. destruct (Hp _ _ _ _ Ht) as [-> _]. by intros ?%not_elem_of_nil.
Qed.

Lemma sn_tbind {A B : Type} (inj : unit -> A) (p : prog S B) :
  forall k, (forall r, sn inj (k r)) -> sn inj (tbind p k).
Proof.
  induction p as [B b|B v|B|B C f j IH|B C l f j IH|B C e j IH|B c IHc j IHj]; intros k Hk; simpl; auto.
  - by apply sn_finished.
  - apply sn_alone. intros s p' s' c (-> & -> & ->)%tstep_inv. auto.
  - apply sn_alone. intros s p' s' c (r & _ & -> & -> & ->)%tstep_inv. auto.
  - apply sn_alone. intros s p' s' c (b & _ & -> & -> & ->)%tstep_inv. auto.
  - constructor; intros s p' s' c'; [by intros (-> & -> & ->)%tstep_inv; apply IHj|].
    intros q (-> & -> & ->)%tstep_inv ->%list_elem_of_singleton. apply IHc. intros [u|v]; by apply sn_finished.
Qed.

Lemma sn_all {A : Type} (p : prog S A) : forall inj, sn inj p.
Proof.
  induction p as [A a|A v|A|A C f j IH|A C l f j IH|A C e j IH|A c IHc j IHj]; intros inj; try by apply sn_finished.
  - apply sn_alone. intros s p' s' c (-> & -> & ->)%tstep_inv. auto.
  - apply sn_alone. intros s p' s' c (r & _ & -> & -> & ->)%tstep_inv. auto.
  - apply sn_alone. intros s p' s' c (b & _ & -> & -> & ->)%tstep_inv. auto.
  - constructor; intros s p' s' c'; [by intros (-> & -> & ->)%tstep_inv; apply IHj|].
    intros q (-> & -> & ->)%tstep_inv ->%list_elem_of_singleton. apply sn_tbind. intros [u|v]; by apply sn_finished.
Qed.

(** ** Machines *)

Context {A : Type} (inj : unit -> A).

(** A step of one of the goroutines, in any shared state and wherever it is. *)
Definition lstep (us ts : list (prog S A)) : Prop :=
  exists s p rest p' s' c, ts ≡ₚ p :: rest /\ tstep p s p' s' c /\ us ≡ₚ p' :: forked inj c ++ rest.

Lemma lstep_perm ts us : ts ≡ₚ us -> Acc lstep ts -> Acc lstep us.
Proof.
  intros Hp [Hacc]. constructor. intros vs (s & p & rest & p' & s' & c & Hus & Ht & Hvs). apply Hacc.
  exists s, p, rest, p', s', c. by rewrite Hp.
Qed.

Lemma lstep_cons p : sn inj p -> forall ts, Acc lstep ts -> Acc lstep (p :: ts).
Proof.
  induction 1 as [p _ IHp _ IHf]. intros ts Hts. induction Hts as [ts Hts IHts]. constructor.
  intros us (s & x & rest & x' & s' & c & Hperm & Ht & Hus).
  assert (Hp : p ∈ x :: rest) by (rewrite <-Hperm; by left).
  apply elem_of_cons in Hp as [->|[rest' Hrest]%elem_of_Permutation].
  - apply Permutation_cons_inv in Hperm. apply (lstep_perm (x' :: forked inj c ++ ts)); [by rewrite Hus, Hperm|].
    eapply IHp; [exact Ht|]. destruct c as [q|]; simpl; [|by constructor].
    eapply IHf; [exact Ht|by left|by constructor].
  - assert (Hts' : ts ≡ₚ x :: rest').
    { apply (Permutation_cons_inv (a := p)). rewrite Hperm, Hrest. apply Permutation_swap. }
    apply (lstep_perm (p :: x' :: forked inj c ++ rest')).
    { rewrite Hus, Hrest, <-Permutation_middle. apply Permutation_swap. }
    apply IHts. by exists s, x, rest', x', s', c.
Qed.

Lemma lstep_acc ts : Acc lstep ts.
Proof.
  induction ts as [|p ts IH]; [|by apply lstep_cons; [apply sn_all|]]. constructor.
  intros us (s & p & rest & p' & s' & c & Hp & _). by apply Permutation_nil_cons in Hp.
Qed.

Lemma cstep_lstep (c c' : machine S A) : cstep inj c c' -> lstep (threads c') (threads c).
Proof.
  intros Hs. destruct Hs as [s s' ts i p p' fk Hi Ht]. simpl.
  exists s, p, (take i ts ++ drop (Datatypes.S i) ts), p', s', fk. split_and!; [|done|].
  - by rewrite <-(take_drop_middle ts i p Hi) at 1; rewrite <-Permutation_middle.
  - rewrite insert_take_drop by (by eapply lookup_lt_Some). fold (forked inj fk).
    rewrite <-app_assoc, <-app_comm_cons, <-Permutation_middle. constructor.
    rewrite (app_assoc (take i ts)). apply Permutation_app_comm.
Qed.

(** No run goes on for ever. *)
Lemma machine_terminates (c : machine S A) : Acc (fun c2 c1 => cstep inj c1 c2) c.
Proof.
  remember (threads c) as ts eqn:Hts. pose proof (lstep_acc ts) as Hacc. revert c Hts.
  induction Hacc as [ts _ IH]. intros c ->. constructor. intros c' Hs. eapply IH; [by apply cstep_lstep|done].
Qed.

End termination.
