(* ===== verification/Compose.v ===== *)
(** * Composing the logics of components

    Two general results on the token logic of [GoProg].

    Progress: tokens have a rank, and a goroutine that has to wait waits for the
    owner of a token of a rank above all those it owns; then some goroutine can
    always move.

    Composition: a component verified on its own state, with its own tokens, stays
    verified when it runs inside a larger state ([zoom]), its goroutines owning the
    larger system's tokens besides, and when the application's callbacks are programs
    of the larger system ([link]). *)

From Stdlib Require Import ZArith Lia.
From stdpp Require Import base numbers list option relations.
From S2P Require Import Prelude GoErrors Config Mqi GoProg Always.

Local Open Scope Z_scope.

(** ** Waiting *)

(** The least rank of what a blocked operation waits for: the owner of a lock or a
    member of a WaitGroup waits for nobody; a goroutine that will close a channel
    may itself be waiting for a lock or for a WaitGroup. *)
Definition level (o : chanop) : nat := match o with ChanRecv => 1%nat | _ => 2%nat end.

(** Where goroutines may block: in the states that [waits] lists, owning only
    tokens of a lower rank. *)
Definition blocks {S Tok : Type} (rank : Tok -> nat) (waits : chanop -> S -> Prop) (o : chanop) (s : S)
    (t : list Tok) : Prop :=
  (forall x, x ∈ t -> (rank x < level o)%nat) /\ waits o s.

(** Whatever is waited for is owned by a goroutine. *)
Class WaitsFor {S Tok : Type} (Inv : S -> list Tok -> Prop) (rank : Tok -> nat) (waits : chanop -> S -> Prop)
    : Prop := {
  waits_for : forall o s ts, Inv s ts -> waits o s -> exists x, x ∈ ts /\ (level o <= rank x)%nat;
  rank_max : forall x, (rank x <= 2)%nat
}.

(** What a goroutine that has ended owns: nothing that others wait for. *)
Definition idle_end {Tok A : Type} (rank : Tok -> nat) (Q : outcome A -> list Tok -> Prop) : Prop :=
  forall o t x, Q o t -> o <> NoFuel -> x ∈ t -> rank x = 0%nat.

(** A goroutine that has to wait and owns something waits for the owner of a token of
    a rank above all those it owns.  One that owns nothing may wait for ever. *)
Class Yields {S Tok : Type} (Inv : S -> list Tok -> Prop) (rank : Tok -> nat)
    (mb : chanop -> S -> list Tok -> Prop) : Prop := {
  yields : forall o s t F, Inv s (t ++ F) -> mb o s t -> t <> [] ->
    exists y, y ∈ t ++ F /\ (0 < rank y)%nat /\ forall x, x ∈ t -> (rank x < rank y)%nat;
  yields_max : forall x, (rank x <= 2)%nat
}.

#[export] Instance blocks_yields {S Tok : Type} (Inv : S -> list Tok -> Prop) rank waits `{!WaitsFor Inv rank waits} :
  Yields Inv rank (blocks rank waits).
Proof.
  split; [|apply rank_max]. intros o s t F HI [Hlow Hw] _. destruct (waits_for o _ _ HI Hw) as (y & Hy & Hr).
  exists y. split_and!; [done|destruct o; simpl in Hr; lia|]. intros x Hx. specialize (Hlow x Hx). lia.
Qed.

Section progress.
Context {S Tok A : Type} (Inv : S -> list Tok -> Prop) (rank : Tok -> nat)
  (mb : chanop -> S -> list Tok -> Prop) (QF : outcome unit -> list Tok -> Prop)
  (Q : outcome A -> list Tok -> Prop) (inj : unit -> A).
Context {Inv_proper : forall s, Proper ((≡ₚ) ==> iff) (Inv s)} `{!Yields Inv rank mb}.
Context (Hend : idle_end rank Q).

Abbreviation shares c tss :=
  (Forall2 (fun p t => cwp Inv mb QF p t Q) (threads c) tss /\ Inv (shared c) (concat tss)).

(** A goroutine that can move, wherever it is. *)
Lemma can_step_elem (c : machine S A) p p' s' fk :
  p ∈ threads c -> tstep p (shared c) p' s' fk -> can_step inj c.
Proof. intros [i Hi]%list_elem_of_lookup Hp. destruct c as [st ts]. eexists. by econstructor. Qed.

(** The owner of a token has ended, or some goroutine can move: the owner, or
    someone it waits for. *)
Lemma owner_progress (c : machine S A) tss x :
  shares c tss -> OutOfFuel ∉ threads c -> x ∈ concat tss ->
  can_step inj c \/ exists p t, p ∈ threads c /\ x ∈ t /\ finished p = true /\ cwp Inv mb QF p t Q.
Proof.
  intros Hs Hf. remember (2 - rank x)%nat as n eqn:Hn. revert x Hn.
  induction n as [n IH] using lt_wf_ind. intros x Hn Hx. destruct Hs as [Hts HI].
  destruct (token_owner Inv mb QF Q c tss x Hts Hx) as (p & t & F & Hp & Hxt & Hcwp & HF).
  destruct (tstep_progress p (shared c)) as [Hfin|[[o Hst]|(p' & s' & fk & Hstep)]].
  - right. by exists p, t.
  - left. assert (HI' : Inv (shared c) (t ++ F)) by (by rewrite <-HF).
    pose proof (stuck_may_block Inv mb QF Q p t F _ o Hcwp HI' Hst) as Hmb.
    destruct (yields o _ _ _ HI' Hmb) as (y & Hy & Hpos & Hlow); [by intros ->; apply not_elem_of_nil in Hxt|].
    specialize (Hlow x Hxt). pose proof (yields_max y). rewrite <-HF in Hy.
    destruct (IH (2 - rank y)%nat) with (x := y) as [Hstep|(q & u & Hq & Hyu & Hfin & Hcq)]; [lia|done|done|done|].
    exfalso. destruct q; try done; pose proof (Hend _ _ y Hcq ltac:(done) Hyu); lia.
  - left. by eapply can_step_elem.
Qed.

End progress.

(** No deadlock: every goroutine has ended, or some goroutine can move.  (A loop
    that has used up its fuel stands for one that is still running.) *)
Lemma no_deadlock {S Tok A : Type} (Inv : S -> list Tok -> Prop) rank waits QF (Q : outcome A -> list Tok -> Prop) inj
    {Inv_proper : forall s, Proper ((≡ₚ) ==> iff) (Inv s)} `{!WaitsFor Inv rank waits} (c : machine S A) :
  idle_end rank Q -> machine_inv Inv (blocks rank waits) QF Q c ->
  Forall (fun p => finished p = true) (threads c) \/ OutOfFuel ∈ threads c \/ can_step inj c.
Proof.
  intros Hend Hm. destruct (decide (Forall (fun p => finished p = true) (threads c))) as [Hf|Hf]; [by left|right].
  apply not_Forall_Exists, Exists_exists in Hf as (p & Hp & Hnf); try apply _. apply not_true_is_false in Hnf.
  destruct (out_of_fuel_dec (threads c)) as [?|Hfuel]; [by left|right].
  destruct (tstep_progress p (shared c)) as [Hx|[[o Hst]|(p' & s' & fk & Hx)]]; [congruence| |by eapply can_step_elem].
  destruct (machine_inv_stuck Inv (blocks rank waits) QF Q c o p Hm Hp Hst) as (t & _ & Hw).
  destruct Hm as (tss & Hs). destruct (waits_for o _ _ (proj2 Hs) Hw) as (x & Hx & Hr).
  destruct (owner_progress Inv rank (blocks rank waits) QF Q inj Hend c tss x Hs Hfuel Hx)
    as [?|(q & u & Hq & Hxu & Hfin & Hcq)]; [done|].
  exfalso. destruct q; try done; pose proof (Hend _ _ x Hcq ltac:(done) Hxu); destruct o; simpl in Hr; lia.
Qed.

(** ** Weights of tokens *)

Fixpoint weigh {Tok : Type} (w : Tok -> Z) (ts : list Tok) : Z :=
  match ts with [] => 0 | x :: ts => w x + weigh w ts end.

Section weights.
Context {Tok : Type} (w : Tok -> Z).

Lemma weigh_app ts ts' : weigh w (ts ++ ts') = weigh w ts + weigh w ts'.
Proof. induction ts as [|x ts IH]; simpl; lia. Qed.

Lemma weigh_nonneg ts : (forall x, 0 <= w x) -> 0 <= weigh w ts.
Proof. intros Hw. induction ts as [|x ts IH]; simpl; [lia|]. specialize (Hw x). lia. Qed.

Lemma weigh_elem x ts : (forall y, 0 <= w y) -> x ∈ ts -> w x <= weigh w ts.
Proof.
  intros Hw. induction 1 as [x ts|x y ts _ IH]; simpl.
  - pose proof (weigh_nonneg ts Hw). lia.
  - specialize (Hw y). lia.
Qed.

Lemma weigh_le w' ts : (forall x, w x <= w' x) -> weigh w ts <= weigh w' ts.
Proof. intros Hw. induction ts as [|x ts IH]; simpl; [lia|]. specialize (Hw x). lia. Qed.

Lemma weigh_pos ts : (forall x, 0 <= w x <= 1) -> 0 < weigh w ts -> exists x, x ∈ ts /\ w x = 1.
Proof.
  intros Hw. induction ts as [|y ts IH]; simpl; [lia|]. intros Hs.
  destruct (decide (w y = 1)) as [Hy|Hy]; [exists y; split; [by left|done]|].
  specialize (Hw y). destruct IH as (x & ? & ?); [lia|]. exists x. split; [by right|done].
Qed.

(** Where the total is at most 1, only one token has weight 1. *)
Lemma weigh_unique ts x y :
  (forall z, 0 <= w z) -> weigh w ts <= 1 -> x ∈ ts -> y ∈ ts -> w x = 1 -> w y = 1 -> x = y.
Proof.
  intros Hw Hts [R HR]%elem_of_Permutation Hy Hx1 Hy1.
  assert (Hp : forall t t', t ≡ₚ t' -> weigh w t = weigh w t') by (induction 1; simpl; lia).
  rewrite (Hp _ _ HR) in Hts. simpl in Hts. rewrite HR in Hy. apply elem_of_cons in Hy as [->|Hy]; [done|].
  pose proof (weigh_elem y R Hw Hy). lia.
Qed.

(** [n] shares of weight weigh at least [n]. *)
Lemma weigh_shares n tss :
  (forall z, 0 <= w z) -> (forall i, (i < n)%nat -> exists t, tss !! i = Some t /\ 1 <= weigh w t) ->
  Z.of_nat n <= weigh w (concat tss).
Proof.
  intros Hw. revert tss. induction n as [|n IH]; intros tss Hn; [apply (weigh_nonneg (concat tss) Hw)|].
  destruct (Hn 0%nat) as (t & Ht & Hwt); [lia|]. destruct tss as [|t1 tss]; [done|]. simpl in Ht |- *. simplify_eq.
  rewrite weigh_app. assert (Z.of_nat n <= weigh w (concat tss)) by (apply IH; intros i Hi; apply (Hn (S i)); lia). lia.
Qed.

(** Where the first [n] shares weigh as much as all of them, nobody else has any. *)
Lemma weigh_owner n tss x :
  (forall z, 0 <= w z) -> (forall i, (i < n)%nat -> exists t, tss !! i = Some t /\ 1 <= weigh w t) ->
  weigh w (concat tss) = Z.of_nat n -> x ∈ concat tss -> 0 < w x ->
  exists i t, (i < n)%nat /\ tss !! i = Some t /\ x ∈ t.
Proof.
  intros Hw. revert tss. induction n as [|n IH]; intros tss Hn Ht Hx Hx1.
  - pose proof (weigh_elem x _ Hw Hx). lia.
  - destruct (Hn 0%nat) as (t & Ht0 & Hwt); [lia|]. destruct tss as [|t0 tss]; [done|].
    simpl in Ht0. simplify_eq. simpl in Ht, Hx. rewrite weigh_app in Ht.
    apply elem_of_app in Hx as [Hx|Hx]; [exists 0%nat, t; split_and!; [lia|done|done]|].
    assert (Hn' : forall i, (i < n)%nat -> exists t, tss !! i = Some t /\ 1 <= weigh w t).
    { intros i Hi. apply (Hn (S i)). lia. }
    pose proof (weigh_shares n tss Hw Hn').
    destruct (IH tss) as (i & t' & Hi & Ht' & Hin); [done|lia|done|done|].
    exists (S i), t'. split_and!; [lia|done|done].
Qed.

(** Tokens without weight. *)
Lemma weigh_zero ts : Forall (fun x => w x = 0) ts -> weigh w ts = 0.
Proof. induction 1 as [|x ts Hx _ IH]; simpl; lia. Qed.

#[export] Instance weigh_proper : Proper ((≡ₚ) ==> (=)) (weigh w).
Proof. intros ts ts'. induction 1; simpl; lia. Qed.

End weights.

(** ** A component inside a larger state *)

Section component.
Context {S T TokS TokT : Type} (get : S -> T) (set : T -> S -> S) (inj : TokT -> TokS).
Context (InvT : T -> list TokT -> Prop) (mbT : chanop -> T -> list TokT -> Prop)
  (QFT : outcome unit -> list TokT -> Prop).
Context (InvS : S -> list TokS -> Prop) (mbS : chanop -> S -> list TokS -> Prop)
  (QFS : outcome unit -> list TokS -> Prop).
Context {InvS_proper : forall s, Proper ((≡ₚ) ==> iff) (InvS s)}.

(** How the component's logic sits inside the larger one: [K] is what a goroutine
    must own to use the component, and may hand on to the goroutines it starts;
    tokens that satisfy [rest] do not matter to the others. *)
Record embeds (K : list TokS) (rest : TokS -> Prop) : Prop := {
  em_in : forall s t F, InvS s (map inj t ++ K ++ F) ->
    exists F', InvT (get s) (t ++ F') /\
      forall x t', InvT x (t' ++ F') -> InvS (set x s) (map inj t' ++ K ++ F);
  em_id : forall s t F, InvS s (map inj t ++ K ++ F) -> set (get s) s = s;
  em_dup : forall s F, InvS s (K ++ F) -> InvS s (K ++ K ++ F);
  em_block : forall o s t R F, Forall rest R -> InvS s (map inj t ++ K ++ R ++ F) ->
    mbT o (get s) t -> mbS o s (map inj t ++ K ++ R);
  em_fork : forall o t, QFT o t -> QFS o (map inj t ++ K)
}.

Lemma cwp_component {A : Type} (p : prog T A) K rest :
  embeds K rest -> forall t (Q : outcome A -> list TokT -> Prop) R,
  Forall rest R -> cwp InvT mbT QFT p t Q ->
  cwp InvS mbS QFS (zoom get set p) (map inj t ++ K ++ R)
    (fun o t' => exists u, t' = map inj u ++ K ++ R /\ Q o u).
Proof.
  intros Hem. induction p as [A a|A v|A|A B f k IH|A B l f k IH|A B e k IH|A c IHc k IHk];
    intros t Q R HR Hp; simpl in *; eauto.
  - intros s F HI. rewrite <-!app_assoc in HI.
    destruct (em_in _ _ Hem s t (R ++ F) HI) as (F' & HT & Hback).
    destruct (Hp _ _ HT) as (t' & HT' & Hk). exists (map inj t' ++ K ++ R).
    split; [rewrite <-!app_assoc; by apply Hback|]. by apply IH.
  - intros s F HI. rewrite <-!app_assoc in HI.
    destruct (em_in _ _ Hem s t (R ++ F) HI) as (F' & HT & Hback).
    destruct (Hp _ _ HT) as [Hb Hk]. split.
    + intros Hn%map_eq_nil. eapply (em_block _ _ Hem); eauto.
    + intros r (r' & -> & Hr)%list_elem_of_fmap. destruct (Hk r' Hr) as (t' & HT' & Hk').
      exists (map inj t' ++ K ++ R). simpl. split; [rewrite <-!app_assoc; by apply Hback|]. by apply IH.
  - intros s F HI. rewrite <-!app_assoc in HI.
    destruct (em_in _ _ Hem s t (R ++ F) HI) as (F' & HT & Hback).
    pose proof (em_id _ _ Hem s t (R ++ F) HI) as Hid.
    destruct (Hp _ _ HT) as (t1 & t2 & HT' & Hc & Hk).
    exists (map inj t1 ++ K), (map inj t2 ++ K ++ R). split_and!.
    + rewrite app_assoc in HT'. specialize (Hback _ _ HT'). rewrite Hid, map_app in Hback.
      rewrite (Permutation_app_comm _ (K ++ _)), <-app_assoc in Hback.
      apply (em_dup _ _ Hem) in Hback.
      assert (Heq : K ++ K ++ (R ++ F) ++ map inj t1 ++ map inj t2
        ≡ₚ (map inj t1 ++ K) ++ (map inj t2 ++ K ++ R) ++ F) by solve_Permutation.
      by rewrite <-Heq.
    + pose proof (IHc t1 QFT [] (Forall_nil_2 _) Hc) as Hc'. rewrite app_nil_r in Hc'.
      eapply cwp_mono; [|exact Hc']. intros o t' (u & -> & Hu). by apply (em_fork _ _ Hem).
    + by apply IHk.
Qed.

End component.

(** An account of blocking that only looks at which tokens are owned. *)
Class PermBlock {S Tok : Type} (mb : chanop -> S -> list Tok -> Prop) : Prop :=
  perm_block : forall o s t t', t ≡ₚ t' -> mb o s t -> mb o s t'.

#[export] Instance blocks_perm {S Tok : Type} (rank : Tok -> nat) (waits : chanop -> S -> Prop) :
  PermBlock (blocks rank waits).
Proof. intros o s t t' Ht [Hl Hw]. split; [|done]. intros x Hx. apply Hl. by rewrite Ht. Qed.

(** Shares up to permutation. *)
Lemma cwp_perm {S Tok A : Type} (Inv : S -> list Tok -> Prop) {Inv_proper : forall s, Proper ((≡ₚ) ==> iff) (Inv s)}
    mb `{!PermBlock mb} QF (p : prog S A) :
  forall t t' (Q : outcome A -> list Tok -> Prop),
  (forall o u u', u ≡ₚ u' -> Q o u -> Q o u') -> t ≡ₚ t' -> cwp Inv mb QF p t Q -> cwp Inv mb QF p t' Q.
Proof.
  induction p as [A a|A v|A|A B f k IH|A B l f k IH|A B e k IH|A c IHc k IHk];
    intros t t' Q HQ Ht Hp; simpl in *; eauto.
  - intros s F HI. apply Hp. by rewrite Ht.
  - intros s F HI. destruct (Hp s F) as [Hb Hk]; [by rewrite Ht|]. split; [|done].
    intros Hn. eapply perm_block; [exact Ht|by apply Hb].
  - intros s F HI. apply Hp. by rewrite Ht.
Qed.

(** A computation whose first step is one of the shared state may gain tokens before
    it takes that step. *)
Definition shared_first {S A : Type} (p : prog S A) : bool :=
  match p with Atomic _ _ | Select _ _ _ | Fork _ _ => true | _ => false end.

Lemma cwp_gain {S Tok A : Type} (Inv : S -> list Tok -> Prop) rank waits QF (p : prog S A) t t'
    (Q : outcome A -> list Tok -> Prop) :
  shared_first p = true -> t ⊆ t' -> (forall s F, Inv s (t ++ F) -> Inv s (t' ++ F)) ->
  cwp Inv (blocks rank waits) QF p t' Q -> cwp Inv (blocks rank waits) QF p t Q.
Proof.
  intros Hf Hsub Hinv Hp. destruct p as [a|v| |B f k|B l f k|B e k|c k]; try done; intros s F HI;
    apply Hinv in HI.
  - exact (Hp s F HI).
  - destruct (Hp s F HI) as [Hb Hk]. split; [|done]. intros Hn. destruct (Hb Hn) as [Hl Hw]. split; [|done].
    intros x Hx. by apply Hl, Hsub.
  - exact (Hp s F HI).
Qed.

(** The two logics of a computation agree on how it ends. *)
Lemma cwp_always {S Tok A : Type} (Inv : S -> list Tok -> Prop) mb QF P RF (R : outcome A -> Prop) (p : prog S A) :
  forall t Q, always P RF p R -> cwp Inv mb QF p t Q -> cwp Inv mb QF p t (fun o t' => Q o t' /\ R o).
Proof.
  induction p as [A a|A v|A|A B f k IH|A B l f k IH|A B e k IH|A c IHc k IHk]; intros t Q Ha Hp; simpl in *; try done.
  - intros s F HI. destruct (Hp s F HI) as (t' & HI' & Hk). exists t'. eauto.
  - intros s F HI. destruct (Hp s F HI) as [Hb Hk]. split; [done|]. intros r Hr.
    destruct (Hk r Hr) as (t' & HI' & Hk'). exists t'. split; [done|]. apply IH; [by eapply Ha|done].
  - intros b Hb. apply IH; [by apply Ha|by apply Hp].
  - intros s F HI. destruct (Hp s F HI) as (t1 & t2 & HI' & Hc & Hk). exists t1, t2. split_and!; [done|done|].
    apply IHk; [apply Ha|done].
Qed.

(** ** Computations that never block *)

Definition never {S Tok : Type} (_ : chanop) (_ : S) (_ : list Tok) : Prop := False.

#[export] Instance never_perm {S Tok : Type} : PermBlock (@never S Tok).
Proof. by intros o s t t' Ht []. Qed.

(** They may run whatever else their goroutine owns. *)
Lemma cwp_frame {S Tok A : Type} (Inv : S -> list Tok -> Prop) mb QF (p : prog S A) :
  forall t (Q : outcome A -> list Tok -> Prop) T,
  cwp Inv never QF p t Q ->
  cwp Inv mb QF p (t ++ T) (fun o t' => exists t0, t' = t0 ++ T /\ Q o t0).
Proof.
  induction p as [A a|A v|A|A B f k IH|A B l f k IH|A B e k IH|A c IHc k IHk];
    intros t Q T Hp; simpl in *; eauto.
  - intros s F HI. rewrite <-app_assoc in HI. destruct (Hp s _ HI) as (t' & HI' & Hk).
    exists (t' ++ T). rewrite <-app_assoc. eauto.
  - intros s F HI. rewrite <-app_assoc in HI. destruct (Hp s _ HI) as [Hb Hk]. split; [by intros ?%Hb|].
    intros r Hr. destruct (Hk r Hr) as (t' & HI' & Hk'). exists (t' ++ T). rewrite <-app_assoc. eauto.
  - intros s F HI. rewrite <-app_assoc in HI. destruct (Hp s _ HI) as (t1 & t2 & HI' & Hc & Hk).
    exists t1, (t2 ++ T). rewrite <-app_assoc. split_and!; [done| |by apply IHk].
    pose proof (IHc t1 QF [] Hc) as Hc'. rewrite app_nil_r in Hc'. eapply cwp_mono; [|exact Hc'].
    intros o t' (t0 & -> & Hq). by rewrite app_nil_r.
Qed.

(** ** Callbacks that are programs *)

Section callbacks.
Context {S Tok : Type} (Inv : S -> list Tok -> Prop) (spare : Tok -> Prop)
  (mbI mbO : chanop -> S -> list Tok -> Prop) (QF : outcome unit -> list Tok -> Prop).
Context {Inv_proper : forall s, Proper ((≡ₚ) ==> iff) (Inv s)} `{!PermBlock mbO}.

(** [spare]: tokens that nobody waits for and that make no difference. *)
Abbreviation lazy := (Forall spare).

(** [K]: what the callbacks need to know, handed on to every goroutine. *)
Context (K : list Tok) (HK : lazy K) (Hdup : forall s F, Inv s (K ++ F) -> Inv s (K ++ K ++ F)).
Context (HQF : forall o t t' R, QF o t -> lazy R -> t' ≡ₚ t ++ R -> QF o t').

(** Where the caller may block, so it may with spare tokens besides. *)
Context (Hmb : forall o s t R, lazy R -> mbI o s t -> mbO o s (t ++ R)).

(** A callback may be called whatever its caller owns; it gives it all back, with
    spare tokens besides. *)
Context (cb : nat -> Ctx -> option Message -> error -> prog S user_answer).
Context (Hcb : forall f c m er t, cwp Inv mbO QF (cb f c m er) (K ++ t)
  (fun o t' => ended o = true /\ exists R, lazy R /\ t' ≡ₚ K ++ t ++ R)).

Lemma cwp_link {A : Type} (p : prog S A) :
  forall t t0 R (Q : outcome A -> list Tok -> Prop),
  t0 ≡ₚ t ++ K ++ R -> lazy R -> cwp Inv mbI QF p t Q ->
  cwp Inv mbO QF (link cb p) t0
    (fun o t' => exists u R', t' ≡ₚ u ++ K ++ R ++ R' /\ lazy R' /\ Q o u).
Proof.
  assert (Hend : forall (A : Type) (o : outcome A) t t0 R (Q : outcome A -> list Tok -> Prop),
    t0 ≡ₚ t ++ K ++ R -> Q o t -> exists u R', t0 ≡ₚ u ++ K ++ R ++ R' /\ lazy R' /\ Q o u).
  { intros A' o t t0 R Q Ht HQ. exists t, []. rewrite app_nil_r. auto. }
  induction p as [A a|A v|A|A B f k IH|A B l f k IH|A B e k IH|A c IHc k IHk];
    intros t t0 R Q Ht HR Hp; cbn [link]; try (by eapply Hend).
  - intros s F HI. rewrite Ht, <-app_assoc in HI. destruct (Hp s _ HI) as (t' & HI' & Hk).
    exists (t' ++ K ++ R). split; [by rewrite <-app_assoc|]. by eapply IH.
  - intros s F HI. rewrite Ht, <-app_assoc in HI. destruct (Hp s _ HI) as [Hb Hk]. split.
    + intros Hn. eapply perm_block; [symmetry; exact Ht|]. apply Hmb; [by apply Forall_app|by apply Hb].
    + intros r Hr. destruct (Hk r Hr) as (t' & HI' & Hk').
      exists (t' ++ K ++ R). split; [by rewrite <-app_assoc|]. by eapply IH.
  - destruct e; try (intros b Hb; eapply IH; [exact Ht|exact HR|exact (Hp b Hb)]).
    apply cwp_tbind. eapply cwp_mono; [|eapply (cwp_perm Inv mbO QF _ (K ++ t ++ R) t0)]; [| | |apply Hcb].
    + intros o t' (Ho & R' & HR' & Ht').
      assert (Hnext : forall a, cwp Inv mbO QF (link cb (k a)) t'
        (fun o t' => exists u R'', t' ≡ₚ u ++ K ++ R ++ R'' /\ lazy R'' /\ Q o u)).
      { intros a. eapply cwp_mono; [|eapply (IH a t t' (R ++ R')); [|by apply Forall_app|exact (Hp a I)]].
        - intros o' t'' (u & R'' & Ht'' & HR'' & Hu). exists u, (R' ++ R''). rewrite Ht''.
          split_and!; [by rewrite <-app_assoc|by apply Forall_app|done].
        - rewrite Ht'. solve_Permutation. }
      by destruct o; try done.
    + intros o u u' Hu (Ho & R' & HR' & Hp'). split; [done|]. exists R'. by rewrite <-Hu.
    + rewrite Ht. solve_Permutation.
  - intros s F HI. rewrite Ht, <-app_assoc in HI. destruct (Hp s _ HI) as (t1 & t2 & HI' & Hc & Hk).
    exists (t1 ++ K), (t2 ++ K ++ R). split_and!.
    + assert (Heq : K ++ K ++ t1 ++ t2 ++ R ++ F ≡ₚ (t1 ++ K) ++ (t2 ++ K ++ R) ++ F) by solve_Permutation.
      rewrite <-Heq. apply Hdup.
      assert (Heq' : t1 ++ t2 ++ (K ++ R) ++ F ≡ₚ K ++ t1 ++ t2 ++ R ++ F) by solve_Permutation.
      by rewrite <-Heq'.
    + eapply cwp_mono; [|eapply (IHc t1 (t1 ++ K) []); [by rewrite app_nil_r|constructor|exact Hc]].
      intros o t' (u & R' & Ht' & HR' & Hu). simpl in Ht'.
      eapply (HQF o u t' (K ++ R')); [done|by apply Forall_app|by rewrite Ht'].
    + by eapply IHk.
Qed.

End callbacks.

Lemma blocks_lazy {S Tok : Type} (rank : Tok -> nat) (waits : chanop -> S -> Prop) o s t R :
  Forall (fun x => rank x = 0%nat) R -> blocks rank waits o s t -> blocks rank waits o s (t ++ R).
Proof.
  intros HR [Hl Hw]. split; [|done]. rewrite Forall_forall in HR. intros x [Hx|Hx]%elem_of_app; [by apply Hl|].
  rewrite (HR x Hx). destruct o; simpl; lia.
Qed.

(** A view of a view is a view. *)
Lemma cwp_zoom_zoom {S T U Tok A : Type} (Inv : S -> list Tok -> Prop) mb QF
    (g1 : S -> T) (s1 : T -> S -> S) (g2 : T -> U) (s2 : U -> T -> T) (p : prog U A) :
  forall t (Q : outcome A -> list Tok -> Prop),
  cwp Inv mb QF (zoom (fun s => g2 (g1 s)) (fun x s => s1 (s2 x (g1 s)) s) p) t Q ->
  cwp Inv mb QF (zoom g1 s1 (zoom g2 s2 p)) t Q.
Proof.
  induction p as [A a|A v|A|A B f k IH|A B l f k IH|A B e k IH|A c IHc k IHk];
    intros t Q Hp; simpl in *; eauto.
  - intros s F HI. destruct (Hp s F HI) as (t' & HI' & Hk). eauto.
  - intros s F HI. destruct (Hp s F HI) as [Hb Hk]. split.
    + intros Hn. apply Hb. rewrite map_map in Hn. exact Hn.
    + intros r Hr. rewrite map_map in Hr. destruct (Hk r Hr) as (t' & HI' & Hk').
      apply list_elem_of_fmap in Hr as (r' & -> & _). exists t'. split; [exact HI'|]. by apply IH.
  - intros s F HI. destruct (Hp s F HI) as (t1 & t2 & HI' & Hc & Hk). eauto 8.
Qed.
