(* ===== verification/Script.v ===== *)
(** * A scripted environment

    A concrete environment, to evaluate programs on chosen inputs: each kind of
    call has a queue of answers, and once the queue is empty the call succeeds in
    the most benign way (a live context, a free broker, an empty message). *)

From Stdlib Require Import ZArith Lia Strings.Byte.
From stdpp Require Import base list option strings gmap.
From S2P Require Import Prelude GoErrors Float64 Config Mqi GoProg.

Local Open Scope Z_scope.

Record script := mkScript {
  sc_ctx : list (option ctx_error);
  sc_sleep : list (option ctx_error);
  sc_connx : list (MQQueueManager + err);
  sc_disc : list error;
  sc_open : list (MQObject + err);
  sc_put : list (list byte + err);
  sc_get : list ((MQMD * list byte) + err);
  sc_user : list user_answer;
  sc_next : nat
}.

(** Nothing scripted; handles are numbered from 1. *)
Definition calm : script := mkScript [] [] [] [] [] [] [] [] 1.

(** The scripted answers of a queue, or a default when it is used up. *)
Definition pop {A : Type} (l : list A) (d : A) : A * list A :=
  match l with [] => (d, []) | x :: l => (x, l) end.

Definition scripted : handler script := fun B e w =>
  let '(mkScript cs ss xs ds os ps gs us n) := w in
  match e in ext B return B * script with
  | CtxErr _ => let r := pop cs None in (r.1, mkScript r.2 ss xs ds os ps gs us n)
  | WithCancel c => (c, w)
  | CancelCtx _ => (tt, w)
  | SleepOrDone _ _ => let r := pop ss None in (r.1, mkScript cs r.2 xs ds os ps gs us n)
  | Int63n k => (k / 2, w)
  | RandRead k => (inl (repeat x2a k), w)
  | Now => (0, w)
  | Connx _ _ => let r := pop xs (inl n) in (r.1, mkScript cs ss r.2 ds os ps gs us (S n))
  | Disc _ => let r := pop ds None in (r.1, mkScript cs ss xs r.2 os ps gs us n)
  | MQOpen _ od _ =>
      let r := pop os (inl n) in
      (match r.1 with inl o => inl (o, od) | inr x => inr x end,
       mkScript cs ss xs ds r.2 ps gs us (S n))
  | MQClose _ _ => (None, w)
  | MQPut _ md _ _ =>
      let r := pop ps (inl []) in
      (match r.1 with
       | inl i => inl (mkMQMD i (CorrelId md) (ReplyToQ md) (ReplyToQMgr md) (Expiry md))
       | inr x => inr x
       end, mkScript cs ss xs ds os r.2 gs us n)
  | GetSlice _ md _ _ =>
      let r := pop gs (inl (md, [])) in (r.1, mkScript cs ss xs ds os ps r.2 us n)
  | TracerOf _ _ => (0%nat, w)
  | MeterOf _ _ => (0%nat, w)
  | NewInstrument _ _ _ _ _ => ((0%nat, None), w)
  | SpanStart _ c _ _ _ => ((c, n), mkScript cs ss xs ds os ps gs us (S n))
  | SpanRecordError _ _ => (tt, w)
  | SpanSetStatusError _ _ => (tt, w)
  | SpanSetAttribute _ _ _ => (tt, w)
  | SpanEnd _ => (tt, w)
  | HistogramRecord _ _ _ => (tt, w)
  | CounterAdd _ _ _ _ => (tt, w)
  | PropInject _ _ carrier => (carrier, w)
  | PropExtract _ c _ => (c, w)
  | UserCall _ _ m _ =>
      let r := pop us (UserReturns (default Message_zero m) None) in
      (r.1, mkScript cs ss xs ds os ps gs r.2 n)
  end.

(** Values of the binding's constants and constructors as the MQ documentation
    gives them (default MQMD: blank fields, null identifiers, no expiry). *)
Definition ibm_binding : MQBinding := {|
  mq_reasons := documented_reasons;
  NewMQCD := mkMQCD "" "" "" "";
  NewMQCSP := mkMQCSP 0 "" "";
  NewMQSCO := mkMQSCO "" "" false;
  NewMQCNO := mkMQCNO 0 None None None;
  NewMQOD := mkMQOD "" "AMQ.*";
  NewMQMD := mkMQMD (repeat x00 24) (repeat x00 24) "" "" (-1);
  NewMQPMO := mkMQPMO 0;
  NewMQGMO := mkMQGMO 0 3 0;
  MQCNO_CLIENT_BINDING := 2048;
  MQCSP_AUTH_USER_ID_AND_PWD := 1;
  MQOO_INPUT_AS_Q_DEF := 1;
  MQOO_INPUT_SHARED := 2;
  MQOO_INPUT_EXCLUSIVE := 4;
  MQOO_OUTPUT := 16;
  MQOO_FAIL_IF_QUIESCING := 8192;
  MQOO_READ_AHEAD := 1048576;
  MQGMO_WAIT := 1;
  MQGMO_NO_SYNCPOINT := 4;
  MQPMO_NEW_MSG_ID := 64;
  MQPMO_NO_SYNCPOINT := 4;
  MQMO_MATCH_CORREL_ID := 2
|}.

#[export] Instance ibm_correl_id_24 : @CorrelId24 ibm_binding.
Proof. reflexivity. Qed.

Lemma scripted_ok : handler_ok scripted.
Proof.
  intros B e w. destruct w. destruct e; simpl; auto.
  - intros Hn. split; [apply Z.div_pos; lia|apply Z.div_lt; lia].
  - by rewrite repeat_length.
Qed.
