(* ===== verification/Backoff.v ===== *)
(** * Reconnect delays

    The capped exponential backoff of src/mq/connection.go, computed on binary64
    numbers as the source does, and the context-aware sleep with jitter. *)

From Stdlib Require Import ZArith Lia.
From stdpp Require Import base list option numbers.
From S2P Require Import Prelude GoErrors Float64 Config Mqi GoProg Script.

Local Open Scope Z_scope.
Local Open Scope go_scope.

(** [BackoffDuration]: [float64(initial)] multiplied [attempt] times. *)
Definition BackoffDuration `{GoArch} (initial : Z) (multiplier : float64) (attempt : Z) : Z :=
  f64_to_int64
    (Nat.iter (Z.to_nat attempt) (fun d => f64_mul d multiplier) (f64_of_int initial)).

(** [retryDelay]. *)
Definition retryDelay `{GoArch} (cfg : Config) (attempt : Z) : Z :=
  let d := BackoffDuration (InitialRetryInterval cfg) (RetryMultiplier cfg) attempt in
  if MaxRetryInterval cfg <? d then MaxRetryInterval cfg else d.

(** [rand.Int63n], which panics unless its argument is positive. *)
Definition rand_Int63n (n : Z) : io Z :=
  if n <=? 0 then Panic 0 else call (Int63n n).

(** The wait [sleepWithJitterCtx] aims at, before jitter. *)
Definition sleep_base (d : Z) : Z := if d <=? 0 then Millisecond else d.

(** The exclusive bound of its jitter: [int64(d / 10)], at least 1. *)
Definition jitter_ceil (d : Z) : Z := if Z.quot d 10 <=? 0 then 1 else Z.quot d 10.

(** [sleepWithJitterCtx]. *)
Definition sleepWithJitterCtx (ctx : Ctx) (d : Z) : io error :=
  let d := sleep_base d in
  do! j <- rand_Int63n (jitter_ceil d);
  do! e <- call (SleepOrDone ctx (wrap64 (d + j)));
  Ret (ErrCtx <$> e).

(** The delay the documentation promises:
    min(initial * multiplier^attempt, maxRetryInterval), for a multiplier of 2. *)
Definition documented_delay (initial cap attempt : Z) : Z := Z.min (initial * 2 ^ attempt) cap.

(** ** Lemmas *)

Lemma Backoff_float_two initial n :
  0 < initial < 2 ^ 53 ->
  exists m k, Z.pos m = initial * 2 ^ k /\ 0 <= k <= 52 /\
    Nat.iter n (fun d => f64_mul d f64_two) (f64_of_int initial)
    = if - k + Z.of_nat n <=? 971 then S754_finite false m (- k + Z.of_nat n)
      else S754_infinity false.
Proof.
  intros Hi. destruct (f64_of_int_canonical initial Hi) as (m & k & -> & Hd & Hk & Hm).
  exists m, k. split_and!; [done|lia..|]. apply f64_iter_two; [done|lia].
Qed.

Lemma BackoffDuration_two `{GoArch} initial attempt :
  0 < initial < 2 ^ 53 -> 0 <= attempt -> initial * 2 ^ attempt < 2 ^ 63 ->
  BackoffDuration initial f64_two attempt = initial * 2 ^ attempt.
Proof.
  intros Hi Ha Hb. unfold BackoffDuration.
  destruct (Backoff_float_two initial (Z.to_nat attempt) Hi) as (m & k & Hm & Hk & ->).
  rewrite Z2Nat.id by lia.
  assert (attempt < 63).
  { apply (Z.pow_lt_mono_r_iff 2); [lia..|]. nia. }
  rewrite (proj2 (Z.leb_le _ _)) by lia. unfold f64_to_int64.
  rewrite (f64_trunc_scaled initial m k attempt) by (done || lia).
  assert (0 < 2 ^ attempt) by (apply Z.pow_pos_nonneg; lia).
  rewrite (proj2 (Z.leb_le _ _)), (proj2 (Z.ltb_lt _ _)) by nia. reflexivity.
Qed.

Lemma BackoffDuration_two_oob `{GoArch} initial attempt :
  0 < initial < 2 ^ 53 -> 0 <= attempt -> 2 ^ 63 <= initial * 2 ^ attempt ->
  exists f, BackoffDuration initial f64_two attempt = float_to_int64_oob f /\
    (f = S754_infinity false \/ exists m e, f = S754_finite false m e).
Proof.
  intros Hi Ha Hb. unfold BackoffDuration.
  destruct (Backoff_float_two initial (Z.to_nat attempt) Hi) as (m & k & Hm & Hk & ->).
  rewrite Z2Nat.id by lia. unfold f64_to_int64.
  destruct (- k + attempt <=? 971); [|by eauto].
  rewrite (f64_trunc_scaled initial m k attempt) by (done || lia).
  rewrite (proj2 (Z.ltb_ge _ _)), andb_false_r by lia. eauto 6.
Qed.

Lemma jitter_ceil_pos d : 0 < jitter_ceil d.
Proof. unfold jitter_ceil. case_goal; lia. Qed.

Lemma sleep_base_pos d : 0 < sleep_base d.
Proof. unfold sleep_base, Millisecond. case_goal; lia. Qed.

Lemma ext_only_sleep ctx d : ext_only (sleepWithJitterCtx ctx d).
Proof.
  unfold sleepWithJitterCtx, rand_Int63n. case_goal; simpl; auto.
Qed.

#[export] Hint Resolve ext_only_sleep : go_db.

(** Every run of the sleep draws one jitter, asks for one wait and reports the
    context error when the context ends first. *)
Lemma wp_sleep ctx d (Q : outcome error -> unit -> list event -> Prop) s :
  (forall j e, 0 <= j < jitter_ceil (sleep_base d) ->
     Q (Returned (ErrCtx <$> e)) s
       [Ev (Int63n (jitter_ceil (sleep_base d))) j;
        Ev (SleepOrDone ctx (wrap64 (sleep_base d + j))) e]) ->
  wp (sleepWithJitterCtx ctx d) Q s.
Proof.
  intros HQ. unfold sleepWithJitterCtx, rand_Int63n.
  pose proof (jitter_ceil_pos (sleep_base d)).
  rewrite (proj2 (Z.leb_gt _ _)) by lia. simpl. auto.
Qed.

(** ** Properties *)

(** C30: with the default multiplier 2.0 the computed delay is the documented one,
    min(initial * 2^attempt, MaxRetryInterval), for every initial interval below
    2^53 ns (104 days) and every attempt whose product fits an int64. *)
Theorem retryDelay_documented `{GoArch} cfg attempt :
  RetryMultiplier cfg = f64_two -> 0 < InitialRetryInterval cfg < 2 ^ 53 -> 0 <= attempt ->
  InitialRetryInterval cfg * 2 ^ attempt < 2 ^ 63 ->
  retryDelay cfg attempt
  = documented_delay (InitialRetryInterval cfg) (MaxRetryInterval cfg) attempt.
Proof.
  intros Hm Hi Ha Hb. unfold retryDelay, documented_delay.
  rewrite Hm, BackoffDuration_two by done. case_goal; lia.
Qed.

Lemma retryDelay_documented_witness :
  @retryDelay amd64 readme_config 3 = documented_delay (2 * Second) (30 * Second) 3
  /\ @retryDelay amd64 readme_config 8 = 30 * Second.
Proof.
  split; [|rewrite (@retryDelay_documented amd64); by_compute].
  apply (@retryDelay_documented amd64 readme_config 3); by_compute.
Defined.

(** On a machine whose float-to-integer conversion saturates (arm64) the
    documented delay is computed for every attempt, however large. *)
Lemma retryDelay_saturating cfg attempt :
  RetryMultiplier cfg = f64_two -> 0 < InitialRetryInterval cfg < 2 ^ 53 -> 0 <= attempt ->
  int64_range (MaxRetryInterval cfg) ->
  @retryDelay arm64 cfg attempt
  = documented_delay (InitialRetryInterval cfg) (MaxRetryInterval cfg) attempt.
Proof.
  intros Hm Hi Ha Hc. unfold retryDelay, documented_delay, int64_range in *. rewrite Hm.
  destruct (Z.lt_ge_cases (InitialRetryInterval cfg * 2 ^ attempt) (2 ^ 63)) as [Hb|Hb].
  - rewrite BackoffDuration_two by done. case_goal; lia.
  - destruct (BackoffDuration_two_oob (H := arm64) _ _ Hi Ha Hb) as (f & -> & Hf).
    replace (@float_to_int64_oob arm64 f) with (2 ^ 63 - 1)
      by (destruct Hf as [->|(m & e & ->)]; reflexivity).
    case_goal; lia.
Qed.

(** C31: on amd64 the delay collapses once initial * 2^attempt leaves the int64
    range: the conversion yields the smallest int64, the cap comparison lets it
    through, and the sleep falls back to one millisecond instead of waiting
    MaxRetryInterval. *)
Theorem retryDelay_overflow_amd64 cfg attempt :
  RetryMultiplier cfg = f64_two -> 0 < InitialRetryInterval cfg < 2 ^ 53 -> 0 <= attempt ->
  0 < MaxRetryInterval cfg -> 2 ^ 63 <= InitialRetryInterval cfg * 2 ^ attempt ->
  @retryDelay amd64 cfg attempt = - 2 ^ 63 /\
  sleep_base (@retryDelay amd64 cfg attempt) = Millisecond.
Proof.
  intros Hm Hi Ha Hc Hb.
  assert (Hd : @retryDelay amd64 cfg attempt = - 2 ^ 63); [|by rewrite Hd].
  unfold retryDelay. rewrite Hm.
  destruct (BackoffDuration_two_oob (H := amd64) _ _ Hi Ha Hb) as (f & -> & _).
  unfold float_to_int64_oob, amd64. rewrite (proj2 (Z.ltb_ge _ _)); lia.
Qed.

Lemma retryDelay_overflow_amd64_witness :
  @retryDelay amd64 readme_config 33 = - 2 ^ 63 /\
  sleep_base (@retryDelay amd64 readme_config 33) = Millisecond.
Proof. apply retryDelay_overflow_amd64; by_compute. Defined.

(** The sleep never panics on its random draw and requests exactly one wait,
    which lies between the (positive) delay and ten per cent above it, for every
    delay whose sum with the jitter fits an int64; it returns nil or the error of
    the context it waits on. *)
Theorem sleepWithJitterCtx_bounds {W} (h : handler W) ctx d w :
  handler_ok h -> sleep_base d + jitter_ceil (sleep_base d) <= 2 ^ 63 ->
  exists e wait, out (run h (sleepWithJitterCtx ctx d) tt w) = Returned (ErrCtx <$> e) /\
    omap sleep_request (tr (run h (sleepWithJitterCtx ctx d) tt w)) = [wait] /\
    sleep_base d <= wait < sleep_base d + jitter_ceil (sleep_base d).
Proof.
  intros Hh Hd.
  apply (wp_run h (sleepWithJitterCtx ctx d) Hh (fun o _ t => exists e wait,
    o = Returned (ErrCtx <$> e) /\ omap sleep_request t = [wait] /\
    sleep_base d <= wait < sleep_base d + jitter_ceil (sleep_base d))).
  apply wp_sleep. intros j e Hj. exists e, (sleep_base d + j).
  pose proof (sleep_base_pos d).
  simpl. rewrite wrap64_id by (unfold int64_range; lia). split_and!; auto; lia.
Qed.

Lemma sleepWithJitterCtx_bounds_witness :
  exists e wait, out (run scripted (sleepWithJitterCtx 0 (5 * Second)) tt calm) = Returned (ErrCtx <$> e) /\
    omap sleep_request (tr (run scripted (sleepWithJitterCtx 0 (5 * Second)) tt calm)) = [wait] /\
    5 * Second <= wait < 5 * Second + Second / 2.
Proof. apply (sleepWithJitterCtx_bounds scripted 0 (5 * Second) calm scripted_ok). by vm_compute. Defined.
