(* ===== verification/Connection.v ===== *)
(** * A single IBM MQ connection

    The unexported [connection] of src/mq/connection.go: dialling, the retry
    loops of the initial connect and of the reconnect, and closing.  A connection
    is owned by one goroutine at a time, so its methods take it and return it. *)

From Stdlib Require Import ZArith Lia.
From stdpp Require Import base list option strings numbers gmap sets.
From S2P Require Import Prelude GoErrors Float64 Config Mqi GoProg Script Backoff.

Local Open Scope Z_scope.
Local Open Scope go_scope.

Record connection := mkConnection {
  conn_queueManager : MQQueueManager;
  conn_config : Config;
  conn_state : ConnectionState;
  conn_lastError : error
}.

(** The accessors [State], [LastError] and [QueueManager]. *)
Definition conn_State (c : connection) : ConnectionState := conn_state c.

Definition conn_LastError (c : connection) : error := conn_lastError c.

Definition conn_QueueManager (c : connection) : MQQueueManager := conn_queueManager c.

Definition setState (s : ConnectionState) (c : connection) : connection :=
  mkConnection (conn_queueManager c) (conn_config c) s (conn_lastError c).

Definition setLastError (e : error) (c : connection) : connection :=
  mkConnection (conn_queueManager c) (conn_config c) (conn_state c) e.

Definition setQueueManager (h : MQQueueManager) (c : connection) : connection :=
  mkConnection h (conn_config c) (conn_state c) (conn_lastError c).

(** [&connection{config: cfg, state: StateReconnecting}]. *)
Definition fresh_connection (cfg : Config) : connection :=
  mkConnection 0 cfg StateReconnecting None.

Section connection.
Context `{MQBinding} `{GoArch}.

(** The channel definition of [dial]: TLS settings included, since [mqcno] holds
    a pointer to it. *)
Definition dial_mqcd (cfg : Config) : MQCD :=
  let cd := mkMQCD (ChannelName cfg) (ConnectionName cfg)
              (SSLCipherSpec NewMQCD) (SSLPeerName NewMQCD) in
  match TLS cfg with
  | None => cd
  | Some t => mkMQCD (cd_ChannelName cd) (cd_ConnectionName cd) (CipherSpec t) (PeerName t)
  end.

(** The connect options of [dial]. *)
Definition dial_mqcno (cfg : Config) : MQCNO := {|
  cno_Options := MQCNO_CLIENT_BINDING;
  ClientConn := Some (dial_mqcd cfg);
  SecurityParms :=
    if String.eqb (Username cfg) "" then SecurityParms NewMQCNO
    else Some (mkMQCSP MQCSP_AUTH_USER_ID_AND_PWD (Username cfg) (Password cfg));
  SSLConfig :=
    match TLS cfg with
    | None => SSLConfig NewMQCNO
    | Some t => Some (mkMQSCO (KeyRepository t) (CertificateLabel t) (FIPSRequired t))
    end
|}.

Definition dial_error (cfg : Config) (e : err) : err :=
  wrapf [Lit "commons-mq-go: failed to connect to queue manager ";
         Quoted (QueueManagerName cfg); Lit " on "; Quoted (ConnectionName cfg); Lit ": "]
    (sanitizeError (Some e)).

(** [connection.dial]. *)
Definition dial (c : connection) : io (connection * error) :=
  let cfg := conn_config c in
  do! r <- call (Connx (QueueManagerName cfg) (dial_mqcno cfg));
  match r with
  | inr e =>
      Ret (setLastError (Some e) (setState StateFailed c), Some (dial_error cfg e))
  | inl qmgr =>
      Ret (setLastError None (setState StateConnected (setQueueManager qmgr c)), None)
  end.

(** [newConnection]: one dial. *)
Definition newConnection (cfg : Config) : io (connection + err) :=
  do! '(c, e) <- dial (fresh_connection cfg);
  match e with
  | Some e => Ret (inr e)
  | None => Ret (inl c)
  end.

(** [attempts := cfg.MaxRetries; if attempts < 1 { attempts = 1 }]. *)
Definition max_attempts (cfg : Config) : Z := if MaxRetries cfg <? 1 then 1 else MaxRetries cfg.

(** [fmt.Errorf("%w: queue manager %q <what> ...: %w", ErrConnectionFailed, ...)]. *)
Definition exhausted_error (cfg : Config) (what : Z -> text) (attempts : Z) (lastErr : error) : err :=
  ErrFmt (inr (ErrSentinel ErrConnectionFailed)
          :: map inl ([Lit ": queue manager "; Quoted (QueueManagerName cfg)] ++ what attempts)
          ++ match lastErr with Some e => [inr e] | None => [inl (Lit "%!w(<nil>)")] end).

Definition connect_exhausted (cfg : Config) : Z -> error -> err :=
  exhausted_error cfg (fun n => [Lit " failed to connect after "; Num n; Lit " attempts: "]).

Definition reconnect_exhausted (cfg : Config) : Z -> error -> err :=
  exhausted_error cfg (fun n => [Lit " exhausted "; Num n; Lit " reconnect attempts: "]).

(** The wait between attempts: only when another attempt follows. *)
Definition wait_retry (ctx : Ctx) (cfg : Config) (attempts attempt : Z) : io error :=
  if attempt <? attempts - 1 then sleepWithJitterCtx ctx (retryDelay cfg attempt) else Ret None.

(** The loop of [newConnectionWithRetry] with [n] attempts left. *)
Fixpoint connect_loop (ctx : Ctx) (cfg : Config) (attempts : Z) (n : nat) (lastErr : error)
    : io (connection + err) :=
  match n with
  | O => Ret (inr (connect_exhausted cfg attempts lastErr))
  | S n' =>
      do! e <- call (CtxErr ctx);
      match e with
      | Some x => Ret (inr (ErrCtx x))
      | None =>
          do! '(c, e) <- dial (fresh_connection cfg);
          match e with
          | None => Ret (inl c)
          | Some e =>
              do! w <- wait_retry ctx cfg attempts (attempts - Z.of_nat n);
              match w with
              | Some x => Ret (inr x)
              | None => connect_loop ctx cfg attempts n' (Some e)
              end
          end
      end
  end.

(** [newConnectionWithRetry]. *)
Definition newConnectionWithRetry (ctx : Ctx) (cfg : Config) : io (connection + err) :=
  connect_loop ctx cfg (max_attempts cfg) (Z.to_nat (max_attempts cfg)) None.

(** The loop of [Reconnect] with [n] attempts left. *)
Fixpoint reconnect_loop (ctx : Ctx) (c : connection) (attempts : Z) (n : nat) (lastErr : error)
    : io (connection * error) :=
  let cfg := conn_config c in
  match n with
  | O => Ret (setState StateFailed c, Some (reconnect_exhausted cfg attempts lastErr))
  | S n' =>
      do! e <- call (CtxErr ctx);
      match e with
      | Some x => Ret (c, Some (ErrCtx x))
      | None =>
          call (Disc (conn_queueManager c)) ;;;
          do! '(c, e) <- dial c;
          match e with
          | None => Ret (c, None)
          | Some e =>
              do! w <- wait_retry ctx cfg attempts (attempts - Z.of_nat n);
              match w with
              | Some x => Ret (c, Some x)
              | None => reconnect_loop ctx c attempts n' (Some e)
              end
          end
      end
  end.

(** [connection.Reconnect]. *)
Definition Reconnect (ctx : Ctx) (c : connection) : io (connection * error) :=
  let attempts := max_attempts (conn_config c) in
  reconnect_loop ctx (setState StateReconnecting c) attempts (Z.to_nat attempts) None.

(** [connection.Close]. *)
Definition conn_Close (c : connection) : io (connection * error) :=
  let c := setState StateFailed c in
  do! e <- call (Disc (conn_queueManager c));
  match e with
  | Some e =>
      Ret (c, Some (wrapf [Lit "commons-mq-go: failed to disconnect from queue manager ";
                           Quoted (QueueManagerName (conn_config c)); Lit ": "]
                      (sanitizeError (Some e))))
  | None => Ret (c, None)
  end.

(** The calls the connection code makes. *)
Definition conn_event (ev : event) : bool :=
  match ev with
  | Ev e _ => match e with
              | CtxErr _ | SleepOrDone _ _ | Int63n _ | Connx _ _ | Disc _ => true
              | _ => false
              end
  end.

(** A wait of at most ten per cent above [d], in wrapped int64 arithmetic. *)
Definition in_jitter (d w : Z) : Prop :=
  exists j, 0 <= j < jitter_ceil (sleep_base d) /\ w = wrap64 (sleep_base d + j).

(** What a pause between attempts leaves in the trace. *)
Inductive wait_trace (ctx : Ctx) (cfg : Config) (attempts attempt : Z)
    : option ctx_error -> list event -> Prop :=
| wt_last : attempts - 1 <= attempt -> wait_trace ctx cfg attempts attempt None []
| wt_wait k j w e : attempt < attempts - 1 -> in_jitter (retryDelay cfg attempt) w ->
    wait_trace ctx cfg attempts attempt e [Ev (Int63n k) j; Ev (SleepOrDone ctx w) e].

(** The trace of a retry loop with [n] attempts left of [attempts]: at most [n]
    dials, strictly fewer waits than attempts, a wait between any two dials, the
    i-th wait following the backoff of its attempt. *)
Record retry_trace (cfg : Config) (attempts : Z) (n : nat) (t : list event) : Prop := {
  rt_dials : (count_events is_Connx t <= n)%nat;
  rt_waits : (length (omap sleep_request t) <= n - 1)%nat;
  rt_paced : (count_events is_Connx t <= S (length (omap sleep_request t)))%nat;
  rt_delays : forall i w, omap sleep_request t !! i = Some w ->
    in_jitter (retryDelay cfg (attempts - Z.of_nat n + Z.of_nat i)) w
}.

(** How a retry loop can fail: the context was seen to end by its last event, or
    the attempts are used up and every one of them dialled. *)
Definition retry_failed (ctx : Ctx) (n : nat) (exhausted : error -> err) (lastErr : error)
    (e : err) (t : list event) : Prop :=
  (exists x ev, e = ErrCtx x /\ ends_with ev t /\ saw_done ctx x ev) \/
  (count_events is_Connx t = n /\ exists le, e = exhausted le /\ (n <> O \/ lastErr <> None -> le <> None)).

(** ** Lemmas *)

Lemma max_attempts_pos cfg : 1 <= max_attempts cfg.
Proof. unfold max_attempts. case_goal; lia. Qed.

Lemma ext_only_dial c : ext_only (dial c).
Proof. simpl. by intros []. Qed.

Lemma ext_only_wait ctx cfg a i : ext_only (wait_retry ctx cfg a i).
Proof. unfold wait_retry. case_goal; [apply ext_only_sleep|done]. Qed.

Lemma ext_only_connect_loop ctx cfg a n e : ext_only (connect_loop ctx cfg a n e).
Proof.
  revert e. induction n as [|n IH]; intros e; [done|]. cbn [connect_loop].
  apply ext_only_bind; [done|]. intros [x|]; [done|].
  apply ext_only_bind; [apply ext_only_dial|]. intros [c [e'|]]; [|done].
  apply ext_only_bind; [apply ext_only_wait|]. intros [x|]; [done|]. apply IH.
Qed.

Lemma ext_only_newConnectionWithRetry ctx cfg : ext_only (newConnectionWithRetry ctx cfg).
Proof. apply ext_only_connect_loop. Qed.

Lemma ext_only_reconnect_loop ctx c a n e : ext_only (reconnect_loop ctx c a n e).
Proof.
  revert c e. induction n as [|n IH]; intros c e; [done|]. cbn [reconnect_loop].
  apply ext_only_bind; [done|]. intros [x|]; [done|].
  apply ext_only_bind; [done|]. intros _.
  apply ext_only_bind; [apply ext_only_dial|]. intros [c' [e'|]]; [|done].
  apply ext_only_bind; [apply ext_only_wait|]. intros [x|]; [done|]. apply IH.
Qed.

Lemma ext_only_Reconnect ctx c : ext_only (Reconnect ctx c).
Proof. apply ext_only_reconnect_loop. Qed.

Lemma ext_only_conn_Close c : ext_only (conn_Close c).
Proof. simpl. by intros []. Qed.

Lemma emits_wait ctx cfg a i : emits (fun ev => conn_event ev = true) (wait_retry ctx cfg a i).
Proof.
  unfold wait_retry, sleepWithJitterCtx, rand_Int63n. repeat case_goal; simpl; auto.
Qed.

Lemma emits_dial c : emits (fun ev => conn_event ev = true) (dial c).
Proof. simpl. by intros []. Qed.

Lemma emits_connect_loop ctx cfg a n e :
  emits (fun ev => conn_event ev = true) (connect_loop ctx cfg a n e).
Proof.
  revert e. induction n as [|n IH]; intros e; [done|]. cbn [connect_loop].
  apply emits_bind; [done|]. intros [x|]; [done|].
  apply emits_bind; [apply emits_dial|]. intros [c [e'|]]; [|done].
  apply emits_bind; [apply emits_wait|]. intros [x|]; [done|]. apply IH.
Qed.

Lemma emits_reconnect_loop ctx c a n e :
  emits (fun ev => conn_event ev = true) (reconnect_loop ctx c a n e).
Proof.
  revert c e. induction n as [|n IH]; intros c e; [done|]. cbn [reconnect_loop].
  apply emits_bind; [done|]. intros [x|]; [done|]. apply emits_bind; [done|]. intros _.
  apply emits_bind; [apply emits_dial|]. intros [c' [e'|]]; [|done].
  apply emits_bind; [apply emits_wait|]. intros [x|]; [done|]. apply IH.
Qed.

Lemma wp_dial c (Q : outcome (connection * error) -> unit -> list event -> Prop) s :
  (forall e, Q (Returned (setLastError (Some e) (setState StateFailed c),
                          Some (dial_error (conn_config c) e))) s
     [Ev (Connx (QueueManagerName (conn_config c)) (dial_mqcno (conn_config c))) (inr e)]) ->
  (forall q, Q (Returned (setLastError None (setState StateConnected (setQueueManager q c)), None)) s
     [Ev (Connx (QueueManagerName (conn_config c)) (dial_mqcno (conn_config c))) (inl q)]) ->
  wp (dial c) Q s.
Proof. intros He Hq. simpl. intros [q|e] _; simpl; auto. Qed.

Lemma wp_wait ctx cfg attempts attempt (Q : outcome error -> unit -> list event -> Prop) s :
  (forall e t, wait_trace ctx cfg attempts attempt e t -> Q (Returned (ErrCtx <$> e)) s t) ->
  wp (wait_retry ctx cfg attempts attempt) Q s.
Proof.
  intros HQ. unfold wait_retry. destruct (Z.ltb_spec attempt (attempts - 1)).
  - apply wp_sleep. intros j e Hj. apply HQ. constructor; [done|]. exists j. auto.
  - apply (HQ None). by constructor.
Qed.

(** One attempt and its pause, when nothing follows. *)
Lemma retry_trace_one ctx cfg attempts n pre e t :
  (count_events is_Connx pre <= 1)%nat -> omap sleep_request pre = [] ->
  wait_trace ctx cfg attempts (attempts - Z.of_nat (S n)) e t ->
  retry_trace cfg attempts (S n) (pre ++ t).
Proof.
  intros Hd Hp Ht. destruct Ht as [|k j w e Hlt Hw].
  - rewrite app_nil_r. split; rewrite ?Hp; simpl; [lia|lia|lia|done].
  - split; rewrite ?count_events_app, ?omap_app, ?Hp; simpl; [lia|lia|lia|].
    intros [|i] w' Hi; simplify_eq/=. by rewrite Z.add_0_r.
Qed.

(** One failed attempt followed by the rest of the loop. *)
Lemma retry_trace_step ctx cfg attempts n pre e t3 t :
  (count_events is_Connx pre <= 1)%nat -> omap sleep_request pre = [] ->
  wait_trace ctx cfg attempts (attempts - Z.of_nat (S n)) e t3 ->
  retry_trace cfg attempts n t ->
  retry_trace cfg attempts (S n) (pre ++ t3 ++ t).
Proof.
  intros Hd Hp Ht [Hdials Hwaits Hpaced Hdelays]. destruct Ht as [Hge|k j w e Hlt Hw].
  - assert (n = O) as -> by lia. destruct (omap sleep_request t) eqn:E; [|simpl in *; lia].
    split; rewrite ?count_events_app, ?omap_app, ?Hp, ?E; simpl; [lia|lia|lia|done].
  - split; rewrite ?count_events_app, ?omap_app, ?Hp; simpl; [lia|lia|lia|].
    intros [|i] w' Hi; simplify_eq/=; [by rewrite Z.add_0_r|].
    replace (attempts - Z.of_nat (S n) + Z.of_nat (S i)) with (attempts - Z.of_nat n + Z.of_nat i) by lia.
    auto.
Qed.

Lemma retry_failed_wait ctx cfg attempts attempt n ex le x pre t :
  wait_trace ctx cfg attempts attempt (Some x) t ->
  retry_failed ctx n ex le (ErrCtx x) (pre ++ t).
Proof.
  inversion 1; subst. left. do 2 eexists. split_and!; [done| |apply saw_done_Sleep].
  apply ends_with_app. by eexists [_].
Qed.

Lemma retry_failed_step ctx n ex le le' e pre t :
  count_events is_Connx pre = 1%nat -> le' <> None ->
  retry_failed ctx n ex le' e t -> retry_failed ctx (S n) ex le e (pre ++ t).
Proof.
  intros Hc Hle [(x & ev & -> & He & Hs)|(Hn & l & -> & Hl)].
  - left. exists x, ev. split_and!; auto. by apply ends_with_app.
  - right. split; [rewrite count_events_app; lia|]. exists l. split; auto.
Qed.

(** Every run of the connect loop. *)
Lemma wp_connect_loop ctx cfg attempts n lastErr s :
  wp (connect_loop ctx cfg attempts n lastErr) (fun o _ t =>
    retry_trace cfg attempts n t /\
    exists r, o = Returned r /\
      match r with
      | inl c => conn_state c = StateConnected /\ conn_config c = cfg /\ conn_lastError c = None
      | inr e => retry_failed ctx n (connect_exhausted cfg attempts) lastErr e t
      end) s.
Proof.
  revert lastErr s. induction n as [|n IH]; intros lastErr s; cbn [connect_loop].
  { cbn [wp]. split; [split; simpl; [lia|lia|lia|done]|]. eexists; split; [done|].
    right. split; [done|]. exists lastErr. split; [done|]. intros [|]; done. }
  wp_go. destruct b as [x|]; wp_go.
  { split; [by split; simpl; [lia|lia|lia|]|]. eexists; split; [done|]. left.
    do 2 eexists. split_and!; [done|by eexists []|apply saw_done_CtxErr]. }
  apply wp_dial; [intros e|intros q]; wp_go; cycle 1.
  { split; [by split; simpl; [lia|lia|lia|]|]. eexists; split; [done|]. done. }
  apply wp_wait. intros [x|] t Ht; wp_go; simpl fmap; cbn iota; cbn [wp].
  - split.
    + rewrite app_nil_r. by eapply (retry_trace_one ctx cfg attempts n [_; _]).
    + eexists; split; [done|]. rewrite app_nil_r. by eapply (retry_failed_wait _ _ _ _ _ _ _ _ [_; _]).
  - eapply wp_mono; [|apply IH]. intros o s' t' (Htr & r & -> & Hr). split.
    + by eapply (retry_trace_step ctx cfg attempts n [_; _]).
    + eexists; split; [done|]. destruct r as [c|e']; [done|].
      eapply (retry_failed_step _ _ _ _ (Some _) _ (_ :: _ :: t)); [|done|exact Hr].
      by inversion Ht.
Qed.

(** Every run of the reconnect loop from a connection that is not connected. *)
Lemma wp_reconnect_loop ctx c attempts n lastErr s :
  conn_state c <> StateConnected ->
  wp (reconnect_loop ctx c attempts n lastErr) (fun o _ t =>
    retry_trace (conn_config c) attempts n t /\
    count_events is_Disc t = count_events is_Connx t /\
    exists c' e, o = Returned (c', e) /\ conn_config c' = conn_config c /\
      match e with
      | None => conn_state c' = StateConnected /\ conn_lastError c' = None
      | Some e =>
          retry_failed ctx n (reconnect_exhausted (conn_config c) attempts) lastErr e t /\
          conn_state c' <> StateConnected /\
          (is_sentinel ErrConnectionFailed e = true -> conn_state c' = StateFailed)
      end) s.
Proof.
  revert c lastErr s. induction n as [|n IH]; intros c lastErr s Hc; cbn [reconnect_loop].
  { cbn [wp]. split_and!; [by split; simpl; [lia|lia|lia|]|done|].
    do 2 eexists; split; [done|]; split_and!; [done| |done|done].
    right. split; [done|]. exists lastErr. split; [done|]. intros [|]; done. }
  wp_go. destruct b as [x|]; wp_go.
  { split_and!; [by split; simpl; [lia|lia|lia|]|done|]. do 2 eexists; split; [done|]; split_and!; [done| |done|done].
    left. do 2 eexists. split_and!; [done|by eexists []|apply saw_done_CtxErr]. }
  apply wp_dial; [intros e|intros q]; wp_go; cycle 1.
  { split_and!; [by split; simpl; [lia|lia|lia|]|done|]. do 2 eexists; split; [done|]; split_and!; done. }
  apply wp_wait. intros [x|] t Ht; wp_go; simpl fmap; cbn iota; cbn [wp].
  - rewrite app_nil_r. split_and!.
    + by eapply (retry_trace_one ctx _ attempts n [_; _; _]).
    + by inversion Ht.
    + do 2 eexists; split; [done|]; split_and!; [done| |done|done].
      by eapply (retry_failed_wait _ _ _ _ _ _ _ _ [_; _; _]).
  - eapply wp_mono; [|by apply IH]. intros o s' t' (Htr & Hdc & c' & e' & -> & Hcfg & He').
    split_and!.
    + by eapply (retry_trace_step ctx _ attempts n [_; _; _]).
    + rewrite !count_events_app. inversion Ht; subst; simpl; lia.
    + do 2 eexists; split; [done|]; split; [done|]. destruct e' as [e'|]; [|done].
      destruct He' as (Hf & Hst & Hs). split_and!; [|done|done].
      eapply (retry_failed_step _ _ _ _ (Some _) _ (_ :: _ :: _ :: t)); [|done|exact Hf].
      by inversion Ht.
Qed.

(** A failed connect leaves no connection open, a successful one leaves its own;
    a reconnect never leaves more than the connection it hands back. *)
Lemma wait_trace_live ctx cfg a i e t live :
  wait_trace ctx cfg a i e t -> live_handles live t = live.
Proof. by inversion 1. Qed.

Lemma wp_connect_live ctx cfg attempts n lastErr s :
  wp (connect_loop ctx cfg attempts n lastErr) (fun o _ t =>
    match o with
    | Returned (inl c) => live_handles ∅ t = {[conn_queueManager c]}
    | Returned (inr _) => live_handles ∅ t = ∅
    | _ => False
    end) s.
Proof.
  revert lastErr s. induction n as [|n IH]; intros lastErr s; cbn [connect_loop]; [done|].
  wp_go. destruct b as [x|]; wp_go; [done|].
  apply wp_dial; [intros e|intros q]; wp_go; [|simpl; set_solver].
  apply wp_wait. intros [x|] t Ht; wp_go; simpl fmap; cbn iota; cbn [wp]; wp_go.
  - rewrite app_nil_r. apply (wait_trace_live _ _ _ _ _ _ ∅ Ht).
  - eapply wp_mono; [|apply IH]. intros o s' t' Ho.
    change (live_handles ∅ _) with (live_handles ∅ (t ++ t')).
    by rewrite live_handles_app, (wait_trace_live _ _ _ _ _ _ ∅ Ht).
Qed.

Lemma wp_reconnect_live ctx c attempts n lastErr s live :
  live ⊆ {[conn_queueManager c]} ->
  wp (reconnect_loop ctx c attempts n lastErr) (fun o _ t =>
    match o with
    | Returned (c', _) => live_handles live t ⊆ {[conn_queueManager c']}
    | _ => False
    end) s.
Proof.
  revert c lastErr s live. induction n as [|n IH]; intros c lastErr s live Hl; cbn [reconnect_loop]; [done|].
  wp_go. destruct b as [x|]; wp_go; [done|].
  apply wp_dial; [intros e|intros q]; wp_go; [|simpl; set_solver].
  apply wp_wait. intros [x|] t Ht; wp_go; simpl fmap; cbn iota; cbn [wp]; wp_go.
  - rewrite app_nil_r. simpl. rewrite (wait_trace_live _ _ _ _ _ _ _ Ht). set_solver.
  - eapply wp_mono; [|apply (IH _ _ _ (live ∖ {[conn_queueManager c]})); simpl; set_solver].
    intros o s' t' Ho. simpl. by rewrite live_handles_app, (wait_trace_live _ _ _ _ _ _ _ Ht).
Qed.

(** The two retry loops as their callers use them. *)
Lemma wp_newConnectionWithRetry ctx cfg (Q : outcome (connection + err) -> unit -> list event -> Prop) s :
  (forall c t, Forall (fun ev => conn_event ev = true) t -> conn_state c = StateConnected ->
     conn_config c = cfg -> live_handles ∅ t = {[conn_queueManager c]} -> Q (Returned (inl c)) s t) ->
  (forall e t, Forall (fun ev => conn_event ev = true) t ->
     retry_failed ctx (Z.to_nat (max_attempts cfg)) (connect_exhausted cfg (max_attempts cfg)) None e t ->
     live_handles ∅ t = ∅ -> Q (Returned (inr e)) s t) ->
  wp (newConnectionWithRetry ctx cfg) Q s.
Proof.
  intros H1 H2. unfold newConnectionWithRetry.
  eapply wp_mono; [|apply wp_conj; [apply (wp_emits _ _ (emits_connect_loop ctx cfg _ _ None)),
    wp_connect_loop|apply wp_connect_live]].
  intros o [] t [[(_ & r & -> & Hr) Ht] Hl]. destruct s, r as [c|e]; [|by apply H2].
  by apply H1; try apply Hr.
Qed.

Lemma wp_Reconnect ctx c (Q : outcome (connection * error) -> unit -> list event -> Prop) s :
  (forall c' t, Forall (fun ev => conn_event ev = true) t -> conn_state c' = StateConnected ->
     conn_config c' = conn_config c ->
     (forall live, live ⊆ {[conn_queueManager c]} -> live_handles live t ⊆ {[conn_queueManager c']}) ->
     Q (Returned (c', None)) s t) ->
  (forall c' e t, Forall (fun ev => conn_event ev = true) t -> conn_state c' <> StateConnected ->
     conn_config c' = conn_config c ->
     retry_failed ctx (Z.to_nat (max_attempts (conn_config c)))
       (reconnect_exhausted (conn_config c) (max_attempts (conn_config c))) None e t ->
     (forall live, live ⊆ {[conn_queueManager c]} -> live_handles live t ⊆ {[conn_queueManager c']}) ->
     Q (Returned (c', Some e)) s t) ->
  wp (Reconnect ctx c) Q s.
Proof.
  intros H1 H2. unfold Reconnect.
  eapply wp_mono; [|apply wp_conj; [apply (wp_emits _ _ (emits_reconnect_loop ctx _ _ _ None)),
    wp_reconnect_loop; done|apply (wp_reconnect_live _ _ _ _ _ _ {[conn_queueManager c]}); done]].
  intros o [] t [[(_ & _ & c' & e & -> & Hcfg & He) Ht] Hl].
  assert (Hlive : forall live, live ⊆ {[conn_queueManager c]} ->
    live_handles live t ⊆ {[conn_queueManager c']}).
  { intros live Hs. etrans; [by apply live_handles_mono|done]. }
  destruct s, e as [e|].
  - apply H2; try done; apply He.
  - apply H1; try done; apply He.
Qed.

Lemma wp_conn_Close c (Q : outcome (connection * error) -> unit -> list event -> Prop) s :
  (forall e x, (x = None <-> e = None) ->
     Q (Returned (setState StateFailed c, e)) s [Ev (Disc (conn_queueManager c)) x]) ->
  wp (conn_Close c) Q s.
Proof.
  intros HQ. unfold conn_Close. wp_go. destruct b as [e|]; cbn [wp]; apply HQ; by split.
Qed.

(** Connection code neither puts nor opens nor touches spans. *)
Lemma conn_events_mq t :
  Forall (fun ev => conn_event ev = true) t ->
  omap opened_object t = [] /\ omap closed_object t = [] /\ omap put_request t = [] /\
  omap started_span t = [] /\ omap ended_span t = [].
Proof.
  induction 1 as [|[B e b] t He Ht (? & ? & ? & ? & ?)]; [done|].
  destruct e; try discriminate; done.
Qed.

Lemma exhausted_is_failed cfg what attempts le :
  is_sentinel ErrConnectionFailed (exhausted_error cfg what attempts le) = true.
Proof. reflexivity. Qed.

(** The exhausted error keeps the reason code of the last dial. *)
Lemma exhausted_as cfg what attempts e :
  as_MQReturn (exhausted_error cfg what attempts (Some e)) = as_MQReturn e.
Proof. simpl. rewrite first_some_inl. simpl. by destruct (as_MQReturn e). Qed.

(** ** Properties *)

(** C4: the initial connect, whatever the broker and the context do: it returns;
    it dials at most max(1, MaxRetries) times; between any two dials it waits, and
    it does not wait after the last, the i-th wait being the capped backoff of attempt i plus at most ten per cent jitter.
    A returned connection is connected with no error recorded; a failure is
    either the context's error, seen by the very last call made, or an error that
    wraps ErrConnectionFailed after exactly max(1, MaxRetries) dials. *)
Theorem newConnectionWithRetry_spec {W} (h : handler W) ctx cfg w :
  handler_ok h ->
  let r := run h (newConnectionWithRetry ctx cfg) tt w in
  let n := Z.to_nat (max_attempts cfg) in
  (count_events is_Connx (tr r) <= n)%nat /\
  (count_events is_Connx (tr r) - 1 <= length (omap sleep_request (tr r)) <= n - 1)%nat /\
  (forall i d, omap sleep_request (tr r) !! i = Some d -> in_jitter (retryDelay cfg (Z.of_nat i)) d) /\
  ((exists c, out r = Returned (inl c) /\ conn_state c = StateConnected /\
      conn_config c = cfg /\ conn_lastError c = None) \/
   (exists x ev, out r = Returned (inr (ErrCtx x)) /\ ends_with ev (tr r) /\ saw_done ctx x ev) \/
   (exists le, out r = Returned (inr (connect_exhausted cfg (max_attempts cfg) (Some le))) /\
      count_events is_Connx (tr r) = n)).
Proof.
  intros Hh r n. pose proof (max_attempts_pos cfg).
  pose proof (wp_run h _ Hh _ tt w (wp_connect_loop ctx cfg (max_attempts cfg) n None tt))
    as ([Hd Hw Hp Hdel] & x & Hout & Hx).
  split_and!; [done|by apply Nat.le_sub_le_add_l|done| |].
  { intros i d Hi. specialize (Hdel i d Hi).
    replace (max_attempts cfg - Z.of_nat n + Z.of_nat i) with (Z.of_nat i) in Hdel by lia. done. }
  destruct x as [c|e]; [left; exists c; by split|right].
  destruct Hx as [(y & ev & -> & ? & ?)|(Hn & [le|] & -> & Hle)]; [left; eauto|right; eauto|].
  exfalso. apply Hle; [left; lia|done].
Qed.


(** *** Secrets *)

(** An environment whose answer to a connect does not depend on the credentials
    it carries. *)
Definition creds_blind {W} (h : handler W) : Prop :=
  forall qm cno1 cno2 w, h _ (Connx qm cno1) w = h _ (Connx qm cno2) w.

(** The error part of an outcome, which is all a caller can print. *)
Definition connect_err (o : outcome (connection + err)) : outcome error :=
  match o with
  | Returned (inl _) => Returned None
  | Returned (inr e) => Returned (Some e)
  | Panicked v => Panicked v
  | NoFuel => NoFuel
  | Blocked => Blocked
  | Crashed v => Crashed v
  end.

Lemma wait_retry_public ctx c1 c2 a i :
  same_public c1 c2 -> wait_retry ctx c1 a i = wait_retry ctx c2 a i.
Proof.
  intros Hp. unfold wait_retry, retryDelay.
  by rewrite (sp_iri _ _ Hp), (sp_mult _ _ Hp), (sp_mri _ _ Hp).
Qed.

Lemma dial_error_public c1 c2 e : same_public c1 c2 -> dial_error c1 e = dial_error c2 e.
Proof. intros Hp. unfold dial_error. by rewrite (sp_qm _ _ Hp), (sp_conn _ _ Hp). Qed.

Lemma connect_exhausted_public c1 c2 : same_public c1 c2 -> connect_exhausted c1 = connect_exhausted c2.
Proof. intros Hp. unfold connect_exhausted, exhausted_error. by rewrite (sp_qm _ _ Hp). Qed.

Lemma connect_loop_public {W} (h : handler W) ctx c1 c2 a n le w :
  creds_blind h -> same_public c1 c2 ->
  connect_err (out (run h (connect_loop ctx c1 a n le) tt w))
  = connect_err (out (run h (connect_loop ctx c2 a n le) tt w)).
Proof.
  intros Hh Hp. revert le w. induction n as [|n IH]; intros le w.
  { simpl. by rewrite (connect_exhausted_public c1 c2 Hp). }
  cbn [connect_loop]. unfold bind. cbn [call tbind run after out].
  destruct (h _ (CtxErr ctx) w) as [[x|] w1]; cbn [fst snd run out]; [done|].
  unfold dial, bind. cbn [call tbind run after out fst snd fresh_connection conn_config].
  rewrite (Hh _ (dial_mqcno c1) (dial_mqcno c2)), (sp_qm _ _ Hp).
  destruct (h _ (Connx _ _) w1) as [[q|e] w2]; cbn [fst snd run out tbind]; [done|].
  rewrite (wait_retry_public ctx c1 c2 _ _ Hp), (dial_error_public c1 c2 e Hp), !run_tbind.
  destruct (out (run h (wait_retry _ _ _ _) tt w2)) as [[x|]| | | |]; cbn [after out run]; [done| |done..].
  destruct (st (run h (wait_retry ctx c2 a (a - Z.of_nat (S n))) tt w2)). apply IH.
Qed.


End connection.

#[export] Hint Resolve ext_only_newConnectionWithRetry ext_only_Reconnect ext_only_conn_Close
  ext_only_dial : go_db.

(** *** Witnesses: two refused dials, then a live broker *)

Definition refused : MQQueueManager + err := inr (ErrMQ (mkMQReturn 2 2059)).

Definition flaky_broker : script := mkScript [] [] [refused; refused] [] [] [] [] [] 7.

Definition readme_config_2 : Config :=
  match readme_config with
  | mkConfig a b c _ _ t i o m x y z r q f v g k =>
      mkConfig a b c "other" "s3cret" t i o m x y z r q f v g k
  end.

Lemma newConnectionWithRetry_spec_witness :
  let r := run scripted (@newConnectionWithRetry ibm_binding amd64 0 readme_config) tt flaky_broker in
  (count_events is_Connx (tr r) <= 10)%nat /\ count_events is_Connx (tr r) = 3%nat.
Proof.
  split; [|reflexivity].
  exact (proj1 (@newConnectionWithRetry_spec ibm_binding amd64 script scripted 0 readme_config
                  flaky_broker scripted_ok)).
Defined.


