(* ===== verification/Telemetry.v ===== *)
(** * Telemetry

    src/mq/telemetry.go (the instrumentation the components carry) and the
    helper package src/otel.  Calls into OpenTelemetry are external events; the
    no-op propagators are the repository's own. *)

From Stdlib Require Import ZArith Lia.
From stdpp Require Import base list option strings gmap numbers.
From S2P Require Import Prelude GoErrors Float64 Config Mqi GoProg Script.

Local Open Scope Z_scope.
Local Open Scope go_scope.

Definition mqInstrumentationScope : string := "github.com/bancolombia/commons-mq-go".

(** The instruments and the tracer of a component.  The counter behind the
    connection gauge is part of the component's state ([HasActiveConns]). *)
Record mqTelemetry := mkTelemetry {
  tel_tracer : nat;
  tel_propagator : propagator;
  tel_publishDuration : nat;
  tel_receiveDuration : nat;
  tel_connActive : nat;
  tel_errorsTotal : nat
}.

(** A component state with the [activeConns] counter of its telemetry. *)
Class HasActiveConns (S : Type) := {
  activeConns : S -> Z;
  setActiveConns : Z -> S -> S
}.

(** The methods of [noopTextMapPropagator] of src/mq/telemetry.go, which stands in for
    a missing propagator. *)
Definition noopTextMapPropagator_Inject (c : Ctx) (carrier : gmap string string) : io (gmap string string) :=
  Ret carrier.

Definition noopTextMapPropagator_Extract (c : Ctx) (carrier : option (gmap string string)) : io Ctx := Ret c.

Definition noopTextMapPropagator_Fields : list string := [].

(** The methods of [noopPropagator] of src/otel/noop.go. *)
Definition noopPropagator_Inject (c : Ctx) (carrier : gmap string string) : io (gmap string string) :=
  Ret carrier.

Definition noopPropagator_Extract (c : Ctx) (carrier : option (gmap string string)) : io Ctx := Ret c.

Definition noopPropagator_Fields : list string := [].

(** [propagator.Inject] and [Extract], dispatched on the propagator. *)
Definition Inject (p : propagator) (c : Ctx) (carrier : gmap string string)
    : io (gmap string string) :=
  match p with
  | NoopTextMapPropagator => noopTextMapPropagator_Inject c carrier
  | OtelNoopPropagator => noopPropagator_Inject c carrier
  | UserPropagator id => call (PropInject id c carrier)
  end.

Definition Extract (p : propagator) (c : Ctx) (carrier : option (gmap string string)) : io Ctx :=
  match p with
  | NoopTextMapPropagator => noopTextMapPropagator_Extract c carrier
  | OtelNoopPropagator => noopPropagator_Extract c carrier
  | UserPropagator id => call (PropExtract id c carrier)
  end.

(** ** src/mq/telemetry.go *)

(** [newMQTelemetry]. *)
Definition newMQTelemetry (tel : option TelemetryConfig) : io mqTelemetry :=
  let tp := default NoopProvider (tel ≫= TracerProvider) in
  let mp := default NoopProvider (tel ≫= MeterProvider) in
  let prop := default NoopTextMapPropagator (tel ≫= Propagator) in
  do! tracer <- call (TracerOf tp mqInstrumentationScope);
  do! m <- call (MeterOf mp mqInstrumentationScope);
  do! '(pub, _) <- call (NewInstrument m Float64Histogram "messaging.publish.duration"
                           "Time from Put call start to Put return" "ms");
  do! '(rcv, _) <- call (NewInstrument m Float64Histogram "messaging.receive.duration"
                           "Time from message available to handler return" "ms");
  do! '(act, _) <- call (NewInstrument m Int64ObservableGauge "messaging.connection.active"
                           "Count of live MQ connections" "{connection}");
  do! '(errs, _) <- call (NewInstrument m Int64Counter "messaging.errors.total"
                            "Count of errors labeled by error.type" "{error}");
  Ret (mkTelemetry tracer prop pub rcv act errs).

Definition span_attrs (queueName op : string) : list (string * string) :=
  [("messaging.system", "ibmmq"); ("messaging.destination.name", queueName);
   ("messaging.operation.type", op)]%string.

Definition startProducerSpan (t : mqTelemetry) (ctx : Ctx) (queueName : string) : io (Ctx * Span) :=
  call (SpanStart (tel_tracer t) ctx "messaging send" SpanKindProducer (span_attrs queueName "send")).

Definition startConsumerSpan (t : mqTelemetry) (ctx : Ctx) (queueName msgID : string)
    : io (Ctx * Span) :=
  call (SpanStart (tel_tracer t) ctx "messaging receive" SpanKindConsumer
          (span_attrs queueName "receive" ++ [("messaging.message.id"%string, msgID)])).

Definition startClientSpan (t : mqTelemetry) (ctx : Ctx) (queueName : string) : io (Ctx * Span) :=
  call (SpanStart (tel_tracer t) ctx "messaging request-reply" SpanKindClient
          (span_attrs queueName "receive")).

Definition set_UserProperties (p : option (gmap string string)) (m : Message) : Message :=
  mkMessage (ID m) (CorrelationID m) (ReplyToQueue m) (ReplyToQueueManager m) (Body m) p (TTL m).

(** [injectToMessage]: a nil property map is replaced by an empty one first. *)
Definition injectToMessage (t : mqTelemetry) (ctx : Ctx) (msg : Message) : io Message :=
  do! carrier <- Inject (tel_propagator t) ctx (default ∅ (UserProperties msg));
  Ret (set_UserProperties (Some carrier) msg).

Definition extractFromMessage (t : mqTelemetry) (ctx : Ctx) (msg : Message) : io Ctx :=
  Extract (tel_propagator t) ctx (UserProperties msg).

(** [float64(time.Since(start).Microseconds()) / 1000.0]. *)
Definition since_ms (start now : Z) : float64 :=
  f64_div (f64_of_int (Z.quot (now - start) 1000)) (f64_of_int 1000).

Definition recordPublishDuration (t : mqTelemetry) (ctx : Ctx) (start : Z) : io unit :=
  do! now <- call Now;
  call (HistogramRecord (tel_publishDuration t) ctx (since_ms start now)).

Definition recordReceiveDuration (t : mqTelemetry) (ctx : Ctx) (start : Z) : io unit :=
  do! now <- call Now;
  call (HistogramRecord (tel_receiveDuration t) ctx (since_ms start now)).

Definition incConnActive {S : Type} `{HasActiveConns S} : prog S unit :=
  modify (fun s => setActiveConns (activeConns s + 1) s).

Definition decConnActive {S : Type} `{HasActiveConns S} : prog S unit :=
  modify (fun s => setActiveConns (activeConns s - 1) s).

Definition incError (t : mqTelemetry) (ctx : Ctx) (errType : string) : io unit :=
  call (CounterAdd (tel_errorsTotal t) ctx 1 [("error.type"%string, errType)]).

Definition endSpan (span : Span) (e : error) : io unit :=
  match e with
  | Some e =>
      call (SpanRecordError span e) ;;;
      call (SpanSetStatusError span (Error e)) ;;;
      call (SpanEnd span)
  | None => call (SpanEnd span)
  end.

(** ** src/otel *)

Module Otel.

(** src/otel/noop.go *)
Definition NoopTracerProvider : provider := NoopProvider.

Definition NoopMeterProvider : provider := NoopProvider.

Definition NoopPropagator : propagator := OtelNoopPropagator.

Definition NewTelemetryConfig (tp mp : option provider) (prop : option propagator)
    : TelemetryConfig :=
  mkTelemetryConfig (Some (default NoopTracerProvider tp)) (Some (default NoopMeterProvider mp))
    (Some (default NoopPropagator prop)).

(** src/otel/tracer.go *)
Definition id_attr (msgID : string) : list (string * string) :=
  if String.eqb msgID "" then [] else [("messaging.message.id"%string, msgID)].

Definition StartProducerSpan (ctx : Ctx) (tracer : nat) (queueName msgID : string) : io (Ctx * Span) :=
  call (SpanStart tracer ctx "messaging send" SpanKindProducer
          (span_attrs queueName "send" ++ id_attr msgID)).

Definition StartConsumerSpan (ctx : Ctx) (tracer : nat) (queueName msgID : string) : io (Ctx * Span) :=
  call (SpanStart tracer ctx "messaging receive" SpanKindConsumer
          (span_attrs queueName "receive" ++ id_attr msgID)).

Definition StartClientSpan (ctx : Ctx) (tracer : nat) (queueName : string) : io (Ctx * Span) :=
  call (SpanStart tracer ctx "messaging request-reply" SpanKindClient
          (span_attrs queueName "receive")).

(** [EndSpan(span, errp)]: [errp] may be nil, and may point to a nil error. *)
Definition EndSpan (span : Span) (errp : option error) : io unit :=
  match errp with
  | Some (Some e) =>
      call (SpanRecordError span e) ;;;
      call (SpanSetStatusError span (Error e)) ;;;
      call (SpanEnd span)
  | _ => call (SpanEnd span)
  end.

(** src/otel/propagator.go *)
Definition InjectToMap (ctx : Ctx) (p : option propagator) (carrier : option (gmap string string))
    : io (option (gmap string string)) :=
  match p, carrier with
  | Some p, Some m => do! m' <- Inject p ctx m; Ret (Some m')
  | _, _ => Ret carrier
  end.

Definition ExtractFromMap (ctx : Ctx) (p : option propagator) (carrier : option (gmap string string))
    : io Ctx :=
  match p with
  | None => Ret ctx
  | Some p => Extract p ctx carrier
  end.

(** src/otel/metrics.go *)
Record Instruments := mkInstruments {
  PublishDuration : nat;
  ReceiveDuration : nat;
  ConnectionActive : nat;
  ErrorsTotal : nat
}.

Definition NewInstruments (mp : provider) : io (Instruments + err) :=
  do! m <- call (MeterOf mp "github.com/bancolombia/commons-mq-go");
  do! '(pub, e) <- call (NewInstrument m Float64Histogram "messaging.publish.duration"
                           "Time from Put call start to Put return" "ms");
  match e with Some e => Ret (inr e) | None =>
  do! '(rcv, e) <- call (NewInstrument m Float64Histogram "messaging.receive.duration"
                           "Time from message available to handler return" "ms");
  match e with Some e => Ret (inr e) | None =>
  do! '(act, e) <- call (NewInstrument m Int64ObservableGauge "messaging.connection.active"
                           "Count of live MQ connections" "{connection}");
  match e with Some e => Ret (inr e) | None =>
  do! '(errs, e) <- call (NewInstrument m Int64Counter "messaging.errors.total"
                            "Count of errors labeled by error.type" "{error}");
  match e with Some e => Ret (inr e) | None =>
  Ret (inl (mkInstruments pub rcv act errs))
  end end end end.

(** The value the gauge callback observes; a nil [activeConnFn] reads 0. *)
Definition observe_active (activeConnFn : option (unit -> Z)) : Z :=
  match activeConnFn with None => 0 | Some f => f tt end.

Definition RecordError (ins : Instruments) (ctx : Ctx) (errType : string) : io unit :=
  call (CounterAdd (ErrorsTotal ins) ctx 1 [("error.type"%string, errType)]).

End Otel.

(** ** Lemmas *)

Lemma ext_only_Inject p c m : ext_only (Inject p c m).
Proof. by destruct p. Qed.

Lemma ext_only_Extract p c m : ext_only (Extract p c m).
Proof. by destruct p. Qed.

Lemma ext_only_inject t ctx m : ext_only (injectToMessage t ctx m).
Proof. apply ext_only_bind; [apply ext_only_Inject|done]. Qed.

Lemma ext_only_extract t ctx m : ext_only (extractFromMessage t ctx m).
Proof. apply ext_only_Extract. Qed.

Lemma ext_only_endSpan s e : ext_only (endSpan s e).
Proof. by destruct e. Qed.

Lemma ext_only_publish t ctx s : ext_only (recordPublishDuration t ctx s).
Proof. done. Qed.

Lemma ext_only_receive t ctx s : ext_only (recordReceiveDuration t ctx s).
Proof. done. Qed.

#[export] Hint Resolve ext_only_inject ext_only_extract ext_only_endSpan ext_only_publish
  ext_only_receive : go_db.
