(* ===== verification/Wire.v ===== *)
(** * Messages on the wire

    How a [Message] becomes an MQMD and back: the descriptor built by
    [Sender.put] and by the two request-reply flows, [messageFromMQMD], the
    expiry and wait-interval conversions to 32-bit integers, and the queue open
    options of src/mq/queue_customizer.go. *)

From Stdlib Require Import ZArith Lia Strings.Byte.
From stdpp Require Import base list option strings gmap numbers.
From S2P Require Import Prelude GoErrors Float64 Hex Config Mqi GoProg Script Telemetry.

Local Open Scope Z_scope.
Local Open Scope go_scope.

(** A creator fills in the outgoing message it is given and may fail. *)
Definition MessageCreator : Type := Message -> io (Message * error).

(** A creator supplied by the application: called through the environment. *)
Definition user_creator (f : nat) : MessageCreator := fun m =>
  do! r <- call (UserCall f 0 (Some m) None);
  match r with
  | UserReturns m' e => Ret (m', e)
  | UserPanics _ v => Panic v
  end.

Definition set_Body (b : list byte) (m : Message) : Message :=
  mkMessage (ID m) (CorrelationID m) (ReplyToQueue m) (ReplyToQueueManager m) b
    (UserProperties m) (TTL m).

(** [func(msg *Message) error { msg.Body = []byte(payload); return nil }]. *)
Definition body_creator (payload : string) : MessageCreator := fun m =>
  Ret (set_Body (String.list_byte_of_string payload) m, None).

(** The [wrappedCreator] of SendWithCreator and RequestReplyWithCreator: the
    caller's creator, then the injection of the span context. *)
Definition wrap_creator (t : mqTelemetry) (spanCtx : Ctx) (creator : option MessageCreator)
    : MessageCreator := fun msg =>
  do! '(msg, e) <- match creator with Some f => f msg | None => Ret (msg, None) end;
  match e with
  | Some e => Ret (msg, Some e)
  | None => do! msg <- injectToMessage t spanCtx msg; Ret (msg, None)
  end.

(** [int32(ttl / (100 * time.Millisecond))]: tenths of a second. *)
Definition expiry_of_ttl (ttl : Z) : Z := wrap32 (Z.quot ttl (100 * Millisecond)).

(** [waitMS := int32(timeout.Milliseconds()); if waitMS <= 0 { waitMS = 1 }]. *)
Definition wait_ms (timeout : Z) : Z :=
  let w := wrap32 (Z.quot timeout Millisecond) in if w <=? 0 then 1 else w.

(** [if decoded, decErr := hex.DecodeString(id); decErr == nil && len(decoded) <= 24
    { copy(mqmd.CorrelId, decoded) }], skipped when [id] is empty. *)
Definition apply_correl (id : string) (correl : list byte) : list byte :=
  if String.eqb id "" then correl else
  match DecodeString id with
  | Some decoded => if Nat.leb (length decoded) 24 then copy_bytes correl decoded else correl
  | None => correl
  end.

(** [messageFromMQMD]. *)
Definition messageFromMQMD (md : MQMD) (body : list byte) : Message := {|
  ID := EncodeToString (MsgId md);
  CorrelationID := EncodeToString (CorrelId md);
  ReplyToQueue := ReplyToQ md;
  ReplyToQueueManager := ReplyToQMgr md;
  Body := body;
  UserProperties := Some ∅;
  TTL := 0
|}.

Section wire.
Context `{MQBinding}.

(** src/mq/queue_customizer.go *)
Definition applyQueueOpenOptions (opts : QueueOptions) (oo : Z) : Z :=
  if ReadAheadAllowed opts then Z.lor oo MQOO_READ_AHEAD else oo.

(** The descriptor [Sender.put] hands to MQPUT. *)
Definition put_mqmd (cfg : Config) (msg : Message) : MQMD :=
  let ttl := if TTL msg =? 0 then ProducerTTL cfg else TTL msg in
  let replyMgr := ReplyToQueueManager msg in
  {| MsgId := MsgId NewMQMD;
     CorrelId := apply_correl (CorrelationID msg) (CorrelId NewMQMD);
     ReplyToQ := ReplyToQueue msg;
     ReplyToQMgr :=
       if negb (String.eqb (ReplyToQueue msg) "") && String.eqb replyMgr "" && SetQueueManager cfg
       then QueueManagerName cfg else replyMgr;
     Expiry := if 0 <? ttl then expiry_of_ttl ttl else Expiry NewMQMD |}.

(** The descriptor of a request ([requestReplyViaTempQueue],
    [requestReplyViaFixedQueue]): [correl] is the CorrelId the flow sets. *)
Definition request_mqmd (cfg : Config) (msg : Message) (replyQueue : string) (correl : list byte)
    : MQMD :=
  {| MsgId := MsgId NewMQMD;
     CorrelId := correl;
     ReplyToQ := replyQueue;
     ReplyToQMgr := if SetQueueManager cfg then QueueManagerName cfg else ReplyToQMgr NewMQMD;
     Expiry := if 0 <? TTL msg then expiry_of_ttl (TTL msg) else Expiry NewMQMD |}.

Definition put_mqpmo : MQPMO := mkMQPMO (Z.lor MQPMO_NEW_MSG_ID MQPMO_NO_SYNCPOINT).

Definition output_options : Z := Z.lor MQOO_OUTPUT MQOO_FAIL_IF_QUIESCING.

Definition queue_od (name : string) : MQOD := mkMQOD name (DynamicQName NewMQOD).

Definition open_error (pre : text) (e : err) : err := wrapf pre (sanitizeError (Some e)).

Definition creator_error (e : err) : err :=
  wrapf [Lit "commons-mq-go: MessageCreator returned error: "] (Some e).

(** The message [put] gives to the creator. *)
Definition outgoing_message : Message := set_UserProperties (Some ∅) Message_zero.

(** [Sender.put] on the connection with handle [hConn]. *)
Definition put (cfg : Config) (hConn : MQQueueManager) (queueName : string)
    (creator : MessageCreator) : io (string * error) :=
  do! r <- call (MQOpen hConn (queue_od queueName) output_options);
  match r with
  | inr e =>
      Ret (""%string, Some (open_error [Lit "commons-mq-go: failed to open queue ";
                                 Quoted queueName; Lit " for output: "] e))
  | inl (qObj, _) =>
      defer (call (MQClose qObj 0) ;;; Ret tt)
        (do! '(msg, e) <- creator outgoing_message;
         match e with
         | Some e => Ret (""%string, Some (creator_error e))
         | None =>
             do! r <- call (MQPut qObj (put_mqmd cfg msg) put_mqpmo (Body msg));
             match r with
             | inr e =>
                 Ret (""%string, Some (open_error [Lit "commons-mq-go: failed to put message to queue ";
                                            Quoted queueName; Lit ": "] e))
             | inl md => Ret (EncodeToString (MsgId md), None)
             end
         end)
  end.

End wire.

(** An event of application code or of its propagator. *)
Definition app_event (ev : event) : bool :=
  match ev with
  | Ev e _ => match e with UserCall _ _ _ _ | PropInject _ _ _ => true | _ => false end
  end.

(** A creator as applications write them: it touches neither the library's state
    nor the broker, and it returns or panics. *)
Record creator_ok (creator : MessageCreator) : Prop := {
  cr_ext : forall m, ext_only (creator m);
  cr_wp : forall m s, wp (creator m) (fun o _ t =>
    Forall (fun ev => app_event ev = true) t /\
    ((exists r, o = Returned r) \/ exists v, o = Panicked v)) s
}.

(** ** Lemmas *)

Lemma ext_only_user_creator f m : ext_only (user_creator f m).
Proof. simpl. by intros []. Qed.

Lemma ext_only_wrap_creator t c creator :
  (forall f m, creator = Some f -> ext_only (f m)) ->
  forall m, ext_only (wrap_creator t c creator m).
Proof.
  intros Hf m. unfold wrap_creator. apply ext_only_bind.
  { destruct creator; [by apply Hf|done]. }
  intros [m' [e|]]; [done|]. apply ext_only_bind; [apply ext_only_inject|done].
Qed.

Lemma ext_only_put `{MQBinding} cfg hc q creator :
  (forall m, ext_only (creator m)) -> ext_only (put cfg hc q creator).
Proof.
  intros Hc. unfold put. apply ext_only_bind; [done|]. intros [[o od]|e]; [|done].
  apply ext_only_defer; [done|]. apply ext_only_bind; [apply Hc|].
  intros [m [e|]]; [done|]. apply ext_only_bind; [done|]. by intros [].
Qed.

Lemma apply_correl_length id correl : length (apply_correl id correl) = length correl.
Proof.
  unfold apply_correl. repeat case_goal; try done. apply copy_bytes_length.
Qed.

(** The three courses of the copy: overwriting a prefix of the default, the whole
    of it, or nothing. *)
Lemma apply_correl_prefix id bs correl :
  length correl = 24%nat -> DecodeString id = Some bs -> (length bs <= 24)%nat ->
  apply_correl id correl = bs ++ drop (length bs) correl.
Proof.
  intros Hc Hd Hl. unfold apply_correl. destruct (String.eqb_spec id "") as [->|].
  { by simplify_eq/=. }
  rewrite Hd, (proj2 (Nat.leb_le _ _)) by done. unfold copy_bytes. by rewrite take_ge by lia.
Qed.

Lemma apply_correl_full id bs correl :
  length correl = 24%nat -> DecodeString id = Some bs -> length bs = 24%nat ->
  apply_correl id correl = bs.
Proof.
  intros Hc Hd Hl. rewrite (apply_correl_prefix _ bs) by (done || lia).
  by rewrite drop_ge, app_nil_r by lia.
Qed.

Lemma apply_correl_dropped id correl :
  (forall bs, DecodeString id = Some bs -> (24 < length bs)%nat) -> apply_correl id correl = correl.
Proof.
  intros Hno. unfold apply_correl. destruct (String.eqb id ""); [done|].
  destruct (DecodeString id) as [bs|]; [|done]. specialize (Hno bs eq_refl).
  by rewrite (proj2 (Nat.leb_gt _ _)).
Qed.

(** The correlation bytes a peer reads are those the hex string denotes. *)
Lemma apply_correl_decoded id bs correl :
  id <> ""%string -> DecodeString id = Some bs -> (length bs <= 24)%nat ->
  apply_correl id correl = copy_bytes correl bs.
Proof.
  intros Hid Hd Hl. unfold apply_correl. rewrite (proj2 (String.eqb_neq _ _) Hid), Hd.
  by rewrite (proj2 (Nat.leb_le _ _)).
Qed.

Lemma creator_ok_user f : creator_ok (user_creator f).
Proof.
  split; [apply ext_only_user_creator|].
  intros m s. unfold user_creator. wp_go. destruct b; cbn [wp]; eauto using Forall_cons.
Qed.

Lemma creator_ok_body p : creator_ok (body_creator p).
Proof. split; [done|]. intros m s. simpl. eauto. Qed.

Lemma wp_inject t c m (Q : outcome Message -> unit -> list event -> Prop) s :
  (forall carrier tr, Forall (fun ev => app_event ev = true) tr ->
     Q (Returned (set_UserProperties (Some carrier) m)) s tr) ->
  wp (injectToMessage t c m) Q s.
Proof.
  intros HQ. unfold injectToMessage, Inject. destruct (tel_propagator t); wp_go; apply HQ;
    by repeat constructor.
Qed.

Lemma creator_ok_wrap t c creator :
  (forall f, creator = Some f -> creator_ok f) -> creator_ok (wrap_creator t c creator).
Proof.
  intros Hf. split.
  { apply ext_only_wrap_creator. intros f m Hc. by apply (Hf f Hc). }
  intros m s. unfold wrap_creator. wp_go.
  assert (Hu : wp (match creator with Some f => f m | None => Ret (m, None) end) (fun o _ t =>
    Forall (fun ev => app_event ev = true) t /\
    ((exists r, o = Returned r) \/ exists v, o = Panicked v)) s).
  { destruct creator as [f|]; [by apply (Hf f)|]. simpl; eauto. }
  eapply wp_mono; [|exact Hu]. intros o s' t' [Ht [[[m' e] ->]|[v ->]]]; wp_go.
  - destruct e as [e|]; wp_go; [rewrite app_nil_r; eauto|].
    apply wp_inject. intros carrier tr Htr. wp_go. rewrite app_nil_r.
    split; [by apply Forall_app|eauto].
  - rewrite app_nil_r. eauto.
Qed.

#[export] Hint Resolve creator_ok_user creator_ok_body creator_ok_wrap : go_db.

(** Events of application code are neither opens nor closes nor puts. *)
Lemma app_events_mq t :
  Forall (fun ev => app_event ev = true) t ->
  omap opened_object t = [] /\ omap closed_object t = [] /\ omap put_request t = [] /\
  omap started_span t = [] /\ omap ended_span t = [] /\ count_events is_Connx t = 0%nat /\
  count_events is_Disc t = 0%nat.
Proof.
  induction 1 as [|[B e b] t He Ht (? & ? & ? & ? & ? & ? & ?)]; [done|].
  destruct e; try discriminate; done.
Qed.

Section put_spec.
Context `{MQBinding}.

(** The possible courses of a put: the open fails, or the object is opened,
    used and closed, in that order, also when the creator fails or panics. *)
Lemma wp_put cfg hc q creator (Q : outcome (string * error) -> unit -> list event -> Prop) s :
  creator_ok creator ->
  (forall e, Q (Returned (""%string, Some (open_error
       [Lit "commons-mq-go: failed to open queue "; Quoted q; Lit " for output: "] e))) s
     [Ev (MQOpen hc (queue_od q) output_options) (inr e)]) ->
  (forall o od t v x, Forall (fun ev => app_event ev = true) t ->
     Q (Panicked v) s (Ev (MQOpen hc (queue_od q) output_options) (inl (o, od)) ::
                       t ++ [Ev (MQClose o 0) x])) ->
  (forall o od t e x, Forall (fun ev => app_event ev = true) t ->
     Q (Returned (""%string, Some (creator_error e))) s
       (Ev (MQOpen hc (queue_od q) output_options) (inl (o, od)) :: t ++ [Ev (MQClose o 0) x])) ->
  (forall o od t msg r x, Forall (fun ev => app_event ev = true) t ->
     Q (Returned match r with
                 | inl md => (EncodeToString (MsgId md), None)
                 | inr e => (""%string, Some (open_error
                     [Lit "commons-mq-go: failed to put message to queue "; Quoted q; Lit ": "] e))
                 end) s
       (Ev (MQOpen hc (queue_od q) output_options) (inl (o, od)) ::
        t ++ [Ev (MQPut o (put_mqmd cfg msg) put_mqpmo (Body msg)) r; Ev (MQClose o 0) x])) ->
  wp (put cfg hc q creator) Q s.
Proof.
  intros Hc H1 H2 H3 H4. unfold put. wp_go. destruct b as [[o od]|e]; wp_go; [|apply H1].
  eapply wp_mono; [|apply (cr_wp _ Hc)]. intros out s' t [Ht [[[m e] ->]|[v ->]]]; destruct s, s'; wp_go.
  - destruct e as [e|]; wp_go; [|destruct b; wp_go].
    + rewrite !app_nil_r. by apply H3.
    + tr_norm. exact (H4 o od t m (inl m0) b Ht).
    + tr_norm. exact (H4 o od t m (inr e) b Ht).
  - rewrite !app_nil_r. by apply H2.
Qed.

(** The descriptor of a reply that copies the correlation of [md]. *)
Lemma put_mqmd_correl `{!CorrelId24} cfg md body msg :
  length (CorrelId md) = 24%nat ->
  CorrelationID msg = CorrelationID (messageFromMQMD md body) ->
  CorrelId (put_mqmd cfg msg) = CorrelId md.
Proof.
  intros Hl Hc. simpl in *. rewrite Hc.
  rewrite (apply_correl_decoded _ (CorrelId md)).
  - apply copy_bytes_same. by rewrite correl_id_24.
  - rewrite Encode_nil. intros Hn. by rewrite Hn in Hl.
  - apply Decode_Encode.
  - lia.
Qed.

(** ** Properties *)


(** C40: expiry.  The message's own TTL wins over Config.ProducerTTL unless it is
    zero; a non-positive effective TTL leaves the binding's default (no expiry),
    and one of at least a tenth of a second and below 2^31 tenths becomes that
    many tenths, rounded down and at least 1.  A positive TTL below a tenth of a
    second is not rounded up: the descriptor asks for an expiry of 0. *)
Theorem put_expiry cfg msg :
  let ttl := if TTL msg =? 0 then ProducerTTL cfg else TTL msg in
  (ttl <= 0 -> Expiry (put_mqmd cfg msg) = Expiry NewMQMD) /\
  (100 * Millisecond <= ttl < 2 ^ 31 * (100 * Millisecond) ->
   let x := Expiry (put_mqmd cfg msg) in
   1 <= x < 2 ^ 31 /\ x * (100 * Millisecond) <= ttl < (x + 1) * (100 * Millisecond)) /\
  (0 < ttl < 100 * Millisecond -> Expiry (put_mqmd cfg msg) = 0).
Proof.
  intros ttl. simpl. fold ttl. split_and!.
  - intros Hle. by rewrite (proj2 (Z.ltb_ge _ _)) by lia.
  - intros Ht. assert (0 < 100 * Millisecond) by (unfold Millisecond; lia).
    rewrite (proj2 (Z.ltb_lt _ _)) by lia. unfold expiry_of_ttl.
    rewrite Z.quot_div_nonneg by lia.
    pose proof (Z.div_mod ttl (100 * Millisecond) ltac:(lia)) as Hd.
    pose proof (Z.mod_pos_bound ttl (100 * Millisecond) ltac:(lia)).
    assert (1 <= ttl / (100 * Millisecond) < 2 ^ 31) by (split; nia).
    rewrite wrap32_id by (unfold int32_range; lia). split; [lia|nia].
  - intros Ht. rewrite (proj2 (Z.ltb_lt _ _)) by lia. unfold expiry_of_ttl.
    rewrite Z.quot_small by lia. reflexivity.
Qed.

(** The put never leaks a queue handle: whatever it opened it closes, exactly
    once and also when the creator fails or panics; it puts at most one message;
    and a successful result is the hex form of the MsgId the queue manager
    assigned to that put. *)
Theorem put_safe {W} (h : handler W) cfg hc q creator w :
  handler_ok h -> creator_ok creator ->
  let r := run h (put cfg hc q creator) tt w in
  omap opened_object (tr r) = omap closed_object (tr r) /\
  (length (omap put_request (tr r)) <= 1)%nat /\
  (forall id, out r = Returned (id, None) ->
     exists o msg md, Ev (MQPut o (put_mqmd cfg msg) put_mqpmo (Body msg)) (inl md) ∈ tr r /\
       id = EncodeToString (MsgId md)).
Proof.
  intros Hh Hc r.
  apply (wp_run h (put cfg hc q creator) Hh (fun o _ t =>
    omap opened_object t = omap closed_object t /\ (length (omap put_request t) <= 1)%nat /\
    (forall id, o = Returned (id, None) ->
       exists ob msg md, Ev (MQPut ob (put_mqmd cfg msg) put_mqpmo (Body msg)) (inl md) ∈ t /\
         id = EncodeToString (MsgId md)))).
  apply wp_put; [done|..]; intros; try apply app_events_mq in H0 as (Ho & Hcl & Hp & _);
    simpl; rewrite ?omap_app, ?Ho, ?Hcl, ?Hp; simpl; split_and!; try done; try lia.
  intros id Hid. destruct r0 as [md|e]; simplify_eq. exists o, msg, md.
  split; [|done]. set_solver.
Qed.

End put_spec.

(** The wait of a request-reply is at least one millisecond and never above
    the 32-bit maximum; it is the caller's timeout in whole milliseconds as long
    as that fits in 31 bits.  Above that it is not capped but truncated: a timeout
    of 2^31 ms (24.8 days) waits one millisecond, 2^32 ms plus [k] waits [k]. *)
Theorem wait_ms_bounds timeout :
  1 <= wait_ms timeout < 2 ^ 31 /\
  (timeout < 2 ^ 31 * Millisecond -> Millisecond <= timeout ->
   wait_ms timeout = timeout / Millisecond) /\
  wait_ms (2 ^ 31 * Millisecond) = 1 /\
  (forall k, 0 < k < 2 ^ 31 -> wait_ms ((2 ^ 32 + k) * Millisecond) = k).
Proof.
  unfold wait_ms. split_and!; [| | |reflexivity|].
  1,2: pose proof (wrap32_range (Z.quot timeout Millisecond)) as [? ?]; case_goal; lia.
  - intros Hhi Hlo. assert (0 < Millisecond) by (unfold Millisecond; lia).
    rewrite Z.quot_div_nonneg by lia.
    assert (1 <= timeout / Millisecond < 2 ^ 31).
    { split; [apply Z.div_le_lower_bound; lia|apply Z.div_lt_upper_bound; lia]. }
    rewrite wrap32_id by (unfold int32_range; lia).
    rewrite (proj2 (Z.leb_gt _ _)) by lia. reflexivity.
  - intros k Hk. rewrite Z.quot_mul by (unfold Millisecond; lia).
    assert (Hw : wrap32 (2 ^ 32 + k) = k).
    { unfold wrap32. replace (2 ^ 32 + k + 2 ^ 31) with (k + 2 ^ 31 + 1 * 2 ^ 32) by lia.
      rewrite Z.mod_add by lia. rewrite Z.mod_small; lia. }
    rewrite Hw, (proj2 (Z.leb_gt _ _)) by lia. reflexivity.
Qed.

(** *** Witnesses *)

Definition sample_mqmd : MQMD :=
  mkMQMD (repeat x11 24) (repeat xab 24) "REPLY.Q" "QM1" (-1).

Definition sample_reply : Message :=
  mkMessage "" (CorrelationID (messageFromMQMD sample_mqmd [])) "" "" [x68; x69] None
    (30 * Second).

Lemma put_expiry_witness :
  let x := Expiry (@put_mqmd ibm_binding readme_config sample_reply) in
  1 <= x < 2 ^ 31 /\ x = 300.
Proof.
  split; [|reflexivity].
  refine (proj1 (proj1 (proj2 (@put_expiry ibm_binding readme_config sample_reply)) _)). by_compute.
Defined.


Lemma put_safe_witness :
  let r := run scripted (@put ibm_binding readme_config 1 "DEV.QUEUE.1" (user_creator 0)) tt
             (mkScript [] [] [] [] [] [inl [xca; xfe]] [] [] 1) in
  omap opened_object (tr r) = omap closed_object (tr r) /\
  out r = Returned ("cafe"%string, None).
Proof.
  split; [|reflexivity].
  exact (proj1 (@put_safe ibm_binding script scripted readme_config 1 "DEV.QUEUE.1" (user_creator 0)
    (mkScript [] [] [] [] [] [inl [xca; xfe]] [] [] 1) scripted_ok (creator_ok_user 0))).
Defined.

Lemma wait_ms_bounds_witness : 1 <= wait_ms (5 * Second) < 2 ^ 31 /\ wait_ms (5 * Second) = 5000.
Proof.
  split; [apply (wait_ms_bounds (5 * Second))|].
  rewrite (proj1 (proj2 (wait_ms_bounds (5 * Second)))); by_compute.
Defined.
