(* ===== verification/Sender.v ===== *)
(** * The sender and its connection pool

    src/mq/sender.go.  The fields a [Sender] never changes after construction are
    the record [Sender]; the ones its methods share between goroutines are
    [SenderState].  A pool is the contents of the buffered channel, oldest
    connection first, whose capacity is [maxConns]. *)

From Stdlib Require Import ZArith Lia Strings.Byte.
From stdpp Require Import base list option strings gmap numbers.
From S2P Require Import Prelude GoErrors Float64 Hex Config Mqi GoProg Script Backoff Connection.
From S2P Require Import Telemetry Wire.

Local Open Scope Z_scope.
Local Open Scope go_scope.

Record Sender := mkSender {
  s_cfg : Config;
  s_queue : string;
  s_maxConns : Z;
  s_tel : mqTelemetry
}.

Record SenderState := mkSenderState {
  pool : list connection;
  created : Z;
  s_closed : bool;
  s_state : ConnectionState;
  s_lastErr : error;
  wg : Z;
  poolMu : bool;
  s_active : Z
}.

Definition set_pool (p : list connection) (s : SenderState) : SenderState :=
  mkSenderState p (created s) (s_closed s) (s_state s) (s_lastErr s) (wg s) (poolMu s) (s_active s).

Definition set_created (n : Z) (s : SenderState) : SenderState :=
  mkSenderState (pool s) n (s_closed s) (s_state s) (s_lastErr s) (wg s) (poolMu s) (s_active s).

Definition set_state (x : ConnectionState) (e : error) (s : SenderState) : SenderState :=
  mkSenderState (pool s) (created s) (s_closed s) x e (wg s) (poolMu s) (s_active s).

Definition set_wg (n : Z) (s : SenderState) : SenderState :=
  mkSenderState (pool s) (created s) (s_closed s) (s_state s) (s_lastErr s) n (poolMu s) (s_active s).

Definition set_poolMu (b : bool) (s : SenderState) : SenderState :=
  mkSenderState (pool s) (created s) (s_closed s) (s_state s) (s_lastErr s) (wg s) b (s_active s).

Definition set_closed (s : SenderState) : SenderState :=
  mkSenderState (pool s) (created s) true StateStopped None (wg s) (poolMu s) (s_active s).

#[export] Instance Sender_active : HasActiveConns SenderState := {|
  activeConns := s_active;
  setActiveConns n s := mkSenderState (pool s) (created s) (s_closed s) (s_state s) (s_lastErr s)
                          (wg s) (poolMu s) n
|}.

(** The state [Client.NewSender] starts from. *)
Definition SenderState_init : SenderState := mkSenderState [] 0 false StateUnknown None 0 false 0.

(** [SenderOption]: an option sets fields of a new sender. *)
Definition SenderOption : Type := Sender -> Sender.

(** [WithSenderConcurrency]: the pool channel is re-made with the new capacity,
    which is [maxConns] throughout. *)
Definition WithSenderConcurrency (n : Z) (s : Sender) : Sender :=
  if 1 <=? n then mkSender (s_cfg s) (s_queue s) n (s_tel s) else s.

(** [Sender.setState]. *)
Definition Sender_setState (x : ConnectionState) (e : error) : prog SenderState unit :=
  modify (set_state x e).

(** [case conn := <-s.pool], when a connection is idle. *)
Definition recv_pool (st : SenderState) : option (connection * SenderState) :=
  match pool st with
  | c :: p => Some (c, set_pool p st)
  | [] => None
  end.

(** [select { case conn := <-s.pool: ... default: }]. *)
Definition try_recv_pool : prog SenderState (option connection) :=
  select SelectDefault (fun st =>
    match recv_pool st with
    | Some (c, st') => [(Some c, st')]
    | None => [(None, st)]
    end).

Section sender.
Context `{MQBinding} `{GoArch}.

(** [Sender.acquireConn].  In the last select the context can end, either way, at
    any moment: both of its errors are ready outcomes. *)
Definition acquireConn (s : Sender) (ctx : Ctx) : prog SenderState (connection + err) :=
  do! e <- lift (call (CtxErr ctx));
  match e with
  | Some x => Ret (inr (ErrCtx x))
  | None =>
      do! idle <- try_recv_pool;
      match idle with
      | Some conn => Sender_setState StateConnected None ;;; Ret (inl conn)
      | None =>
          do! canCreate <- atomic (fun st =>
            if created st <? s_maxConns s then (true, set_created (created st + 1) st)
            else (false, st));
          if canCreate : bool then
            do! r <- lift (newConnectionWithRetry ctx (s_cfg s));
            match r with
            | inr e =>
                modify (fun st => set_created (created st - 1) st) ;;;
                do! x <- lift (call (CtxErr ctx));
                (match x with None => Sender_setState StateFailed (Some e) | Some _ => Ret tt end) ;;;
                Ret (inr e)
            | inl conn =>
                incConnActive ;;;
                Sender_setState StateConnected None ;;;
                Ret (inl conn)
            end
          else
            do! r <- select ChanRecv (fun st =>
              (match recv_pool st with Some (c, st') => [(inl c, st')] | None => [] end)
              ++ [(inr Canceled, st); (inr DeadlineExceeded, st)]);
            match r with
            | inl conn => Sender_setState StateConnected None ;;; Ret (inl conn)
            | inr x => Ret (inr (ErrCtx x))
            end
      end
  end.

(** [Sender.releaseConn]: [s.pool <- conn], ready when the channel has room. *)
Definition releaseConn (s : Sender) (conn : connection) : prog SenderState unit :=
  select ChanSend (fun st =>
    if Z.of_nat (length (pool st)) <? s_maxConns s then [(tt, set_pool (pool st ++ [conn]) st)]
    else []).

(** [_ = conn.Close(); s.created--; s.tel.decConnActive()]. *)
Definition discard (conn : connection) : prog SenderState unit :=
  lift (conn_Close conn) ;;;
  modify (fun st => set_created (created st - 1) st) ;;;
  decConnActive.

(** The common tail of SendWithCreator: state, metrics, span and release. *)
Definition finish_send (s : Sender) (spanCtx : Ctx) (span : Span) (start : Z) (conn : connection)
    (msgID : string) (putErr : error) : prog SenderState (string * error) :=
  (match putErr with None => Sender_setState StateConnected None | Some _ => Ret tt end) ;;;
  lift (recordPublishDuration (s_tel s) spanCtx start) ;;;
  lift (match putErr with
        | Some _ => incError (s_tel s) spanCtx "put_failed"
        | None => if String.eqb msgID "" then Ret tt
                  else call (SpanSetAttribute span "messaging.message.id" msgID)
        end) ;;;
  lift (endSpan span putErr) ;;;
  releaseConn s conn ;;;
  Ret (msgID, putErr).

(** The body of SendWithCreator once the call is admitted. *)
Definition send_admitted (s : Sender) (ctx : Ctx) (destination : string)
    (creator : option MessageCreator) : prog SenderState (string * error) :=
  do! '(spanCtx, span) <- lift (startProducerSpan (s_tel s) ctx destination);
  do! start <- lift (call Now);
  let wrappedCreator := wrap_creator (s_tel s) spanCtx creator in
  do! r <- acquireConn s ctx;
  match r with
  | inr e =>
      lift (incError (s_tel s) ctx "connection_failed") ;;;
      lift (endSpan span (Some e)) ;;;
      Ret (""%string, Some e)
  | inl conn =>
      do! '(msgID, putErr) <- lift (put (s_cfg s) (conn_QueueManager conn) destination wrappedCreator);
      if IsConnectionError putErr then
        Sender_setState StateReconnecting putErr ;;;
        do! '(conn, reconnErr) <- lift (Reconnect ctx conn);
        match reconnErr with
        | Some e =>
            discard conn ;;;
            Sender_setState StateFailed (Some e) ;;;
            lift (incError (s_tel s) spanCtx "connection_failed") ;;;
            lift (endSpan span (Some e)) ;;;
            Ret (""%string, Some e)
        | None =>
            Sender_setState StateConnected None ;;;
            do! '(msgID, putErr) <-
              lift (put (s_cfg s) (conn_QueueManager conn) destination wrappedCreator);
            match putErr with
            | Some e =>
                discard conn ;;;
                (if IsConnectionError putErr then Sender_setState StateFailed putErr else Ret tt) ;;;
                lift (incError (s_tel s) spanCtx "put_failed") ;;;
                lift (endSpan span (Some e)) ;;;
                Ret (""%string, Some e)
            | None => finish_send s spanCtx span start conn msgID None
            end
        end
      else finish_send s spanCtx span start conn msgID putErr
  end.

(** [Sender.SendWithCreator]. *)
Definition SendWithCreator (s : Sender) (ctx : Ctx) (destination : string)
    (creator : option MessageCreator) : prog SenderState (string * error) :=
  let destination := if String.eqb destination "" then s_queue s else destination in
  if String.eqb destination "" then
    Ret (""%string, Some (ErrNew [Lit "commons-mq-go: no destination queue specified and Config.OutputQueue is empty"]))
  else
    do! admitted <- atomic (fun st =>
      if s_closed st then (false, st) else (true, set_wg (wg st + 1) st));
    if admitted : bool then
      defer (modify (fun st => set_wg (wg st - 1) st)) (send_admitted s ctx destination creator)
    else Ret (""%string, Some (ErrSentinel ErrClientClosed)).

(** [Sender.Send] and [Sender.SendTo]. *)
Definition Send (s : Sender) (ctx : Ctx) (payload : string) : prog SenderState (string * error) :=
  SendWithCreator s ctx "" (Some (body_creator payload)).

Definition SendTo (s : Sender) (ctx : Ctx) (destination payload : string)
    : prog SenderState (string * error) :=
  SendWithCreator s ctx destination (Some (body_creator payload)).

(** The drain loop of [Sender.close], [n] rounds left; [errs] is what it has
    appended so far. *)
Fixpoint drain (n : nat) (errs : list error) : prog SenderState (list error) :=
  match n with
  | O => Ret errs
  | S n' =>
      do! c <- try_recv_pool;
      match c with
      | None => drain n' errs
      | Some conn =>
          do! '(_, e) <- lift (conn_Close conn);
          drain n' (match e with Some _ => errs ++ [e] | None => errs end)
      end
  end.

(** [Sender.close]. *)
Definition Sender_close : prog SenderState error :=
  do! r <- atomic (fun st =>
    if s_closed st then (None, st) else (Some (created st), set_closed st));
  match r with
  | None => Ret None
  | Some n =>
      select WgWait (fun st => if wg st =? 0 then [(tt, st)] else []) ;;;
      select MutexLock (fun st => if poolMu st then [] else [(tt, set_poolMu true st)]) ;;;
      defer (modify (set_poolMu false))
        (do! errs <- drain (Z.to_nat n) []; Ret (errors_Join errs))
  end.

End sender.

(** ** The pool between two operations *)

(** A connection fit for the pool: dialled with the sender's configuration and
    not known to be broken. *)
Definition conn_ready (s : Sender) (c : connection) : Prop :=
  conn_state c = StateConnected /\ conn_config c = s_cfg s.

(** The pool's accounts with [k] connections checked out. *)
Record pool_ok (s : Sender) (k : Z) (st : SenderState) : Prop := {
  po_out : 0 <= k;
  po_created : created st = Z.of_nat (length (pool st)) + k;
  po_bound : created st <= s_maxConns s;
  po_active : s_active st = created st;
  po_ready : Forall (conn_ready s) (pool st)
}.

(** The state that a Send does not touch. *)
Definition same_shell (st st' : SenderState) : Prop :=
  s_closed st' = s_closed st /\ wg st' = wg st /\ poolMu st' = poolMu st.

(** The answers MQPUT gave. *)
Definition put_answer (ev : event) : option error :=
  match ev with
  | Ev e b => match e in ext B return B -> option error with
              | MQPut _ _ _ _ => fun r => Some match r with inl _ => None | inr x => Some x end
              | _ => fun _ => None
              end b
  end.

(** A trace that opens and closes no queue, puts nothing and touches no span. *)
Record silent (t : list event) : Prop := {
  si_open : omap opened_object t = [];
  si_close : omap closed_object t = [];
  si_put : omap put_answer t = [];
  si_start : omap started_span t = [];
  si_end : omap ended_span t = []
}.

Section sender_lemmas.
Context `{MQBinding} `{GoArch}.

(** A put of the trace was accepted and given the MsgId that [id] encodes. *)
Definition delivered (cfg : Config) (id : string) (t : list event) : Prop :=
  exists ob msg md, Ev (MQPut ob (put_mqmd cfg msg) put_mqpmo (Body msg)) (inl md) ∈ t /\
    id = EncodeToString (MsgId md).

(** The trace of one [put] that ended with [o]. *)
Record put_facts (cfg : Config) (o : outcome (string * error)) (t : list event) : Prop := {
  pf_balanced : omap opened_object t = omap closed_object t;
  pf_start : omap started_span t = [];
  pf_end : omap ended_span t = [];
  pf_out : (exists v, o = Panicked v) \/ (exists id e, o = Returned (id, e));
  pf_answers : omap put_answer t = [] \/
    exists x, omap put_answer t = [x] /\
      forall id e, o = Returned (id, e) -> IsConnectionError x = IsConnectionError e;
  pf_ok : forall id, o = Returned (id, None) -> delivered cfg id t;
  pf_fail : forall id e, o = Returned (id, Some e) -> id = ""%string
}.

Lemma delivered_app cfg id t t' : delivered cfg id t \/ delivered cfg id t' -> delivered cfg id (t ++ t').
Proof.
  intros [(ob & m & md & Hin & ->)|(ob & m & md & Hin & ->)]; exists ob, m, md;
    (split; [|done]); apply elem_of_app; auto.
Qed.

Lemma delivered_cons cfg id ev t : delivered cfg id t -> delivered cfg id (ev :: t).
Proof. intros Hd. apply (delivered_app _ _ [ev]). auto. Qed.

Lemma silent_app t t' : silent t -> silent t' -> silent (t ++ t').
Proof. intros [Ho Hc Hp Hs He] []. by split; rewrite omap_app, ?Ho, ?Hc, ?Hp, ?Hs, ?He. Qed.

Lemma silent_cons ev t : silent [ev] -> silent t -> silent (ev :: t).
Proof. apply (silent_app [ev]). Qed.

Lemma silent_conn t : Forall (fun ev => conn_event ev = true) t -> silent t.
Proof.
  induction 1 as [|[B e b] t He Ht [? ? ? ? ?]]; [done|]. destruct e; try discriminate; by split.
Qed.

Lemma silent_app_events t : Forall (fun ev => app_event ev = true) t -> silent t.
Proof.
  induction 1 as [|[B e b] t He Ht [? ? ? ? ?]]; [done|]. destruct e; try discriminate; by split.
Qed.

Ltac destruct_unit := repeat match goal with b : unit |- _ => destruct b end.

(** A trace of silent pieces is silent. *)
Ltac silence :=
  simpl; repeat first
    [done | assumption | apply silent_app | apply (silent_cons _ (_ :: _)) | apply silent_cons; [|assumption]
     | apply (silent_cons _ (_ ++ _))].

(** Rewrite the projections of a trace with what is known of its parts. *)
Ltac tr_facts :=
  rewrite ?omap_app, ?omap_cons, ?omap_app, ?omap_cons;
  repeat match goal with
  | H : omap ?f ?t = _ |- context [omap ?f ?t] => rewrite H
  | H : silent ?t |- context [omap _ ?t] => destruct H as [?Hso ?Hsc ?Hsp ?Hss ?Hse]
  end; simpl; rewrite ?app_nil_r; try done; try congruence.

Lemma wp_put_facts cfg hc q creator s :
  creator_ok creator -> wp (put cfg hc q creator) (fun o _ t => put_facts cfg o t) s.
Proof.
  intros Hc. apply wp_put; [done|..].
  - intros e. split; try done; eauto. intros; by simplify_eq.
  - intros o od t v x Ht%silent_app_events. split; try done; eauto; try tr_facts. left. tr_facts.
  - intros o od t e x Ht%silent_app_events. split; try done; eauto; try tr_facts. by left.
  - intros o od t msg r x Ht%silent_app_events. split; try tr_facts.
    + right. destruct r; eauto.
    + right. eexists. split; [done|]. intros id e Heq. destruct r as [md|y]; simplify_eq; [done|].
      symmetry. apply IsConnectionError_wrap_sanitized.
    + intros id Heq. destruct r as [md|y]; simplify_eq. exists o, msg, md. split; [|done]. set_solver.
    + intros id e Heq. destruct r as [md|y]; by simplify_eq.
Qed.

(** Acquiring: a ready connection and one more checked out, or an error and the
    accounts unchanged. *)
Lemma wp_acquireConn s ctx k st (Q : outcome (connection + err) -> SenderState -> list event -> Prop) :
  pool_ok s k st ->
  (forall c st' t, silent t -> conn_ready s c -> pool_ok s (k + 1) st' -> same_shell st st' ->
     Q (Returned (inl c)) st' t) ->
  (forall e st' t, silent t -> pool_ok s k st' -> same_shell st st' ->
     (exists x, e = ErrCtx x) \/ is_sentinel ErrConnectionFailed e = true ->
     Q (Returned (inr e)) st' t) ->
  wp (acquireConn s ctx) Q st.
Proof.
  intros Hpo Hok Herr. pose proof Hpo as [Hk Hcr Hb Ha Hr]. unfold acquireConn, Sender_setState, incConnActive.
  wp_go. destruct b as [x|]; wp_go; [apply Herr; try done; eauto|].
  unfold try_recv_pool, recv_pool.
  apply wp_select; destruct (pool st) as [|c p] eqn:Hp; try done;
    intros r ->%list_elem_of_singleton; cbn [fst snd]; wp_go; cycle 1.
  { apply Forall_cons_1 in Hr as [Hc Hr]. apply Hok; try done.
    split; simpl in *; try done; lia. }
  destruct (Z.ltb_spec (created st) (s_maxConns s)) as [Hlt|Hge]; cbn [fst snd]; wp_go.
  - apply wp_newConnectionWithRetry.
    + intros c t Ht%silent_conn Hcs Hcc _. wp_go. rewrite ?app_nil_r.
      apply Hok; [silence|done| |done].
      split; simpl in *; rewrite ?Hp; simpl; try done; lia.
    + intros e t Ht%silent_conn Hf _. wp_go. destruct b; wp_go; rewrite ?app_nil_r.
      all: apply Herr; [silence| |done|].
      1,3: split; simpl in *; rewrite ?Hp; simpl; try done; lia.
      all: destruct Hf as [(x & ev & -> & _)|(_ & le & -> & _)]; [by left; eauto|by right].
  - apply wp_select; [by rewrite Hp|]. rewrite Hp. intros r Hin.
    assert (exists x, r = (inr x, st)) as [x ->] by (decompose_list_elem_of; eauto). cbn [fst snd]. wp_go.
    apply Herr; try done; eauto.
Qed.

(** Releasing never blocks while the released connection is accounted for. *)
Lemma wp_releaseConn s c k st (Q : outcome unit -> SenderState -> list event -> Prop) :
  0 <= k -> pool_ok s (k + 1) st -> conn_ready s c ->
  (forall st', pool_ok s k st' -> same_shell st st' -> s_state st' = s_state st ->
     s_lastErr st' = s_lastErr st -> Q (Returned tt) st' []) ->
  wp (releaseConn s c) Q st.
Proof.
  intros Hk [_ Hcr Hb Ha Hr] Hc HQ. unfold releaseConn.
  apply wp_select; rewrite (proj2 (Z.ltb_lt _ _)) by lia; [done|].
  intros r ->%list_elem_of_singleton. apply HQ; try done.
  split; simpl; try done; [rewrite length_app; simpl; lia|].
  by apply Forall_app_2; [|apply Forall_singleton].
Qed.

Lemma wp_discard s c k st (Q : outcome unit -> SenderState -> list event -> Prop) :
  0 <= k -> pool_ok s (k + 1) st ->
  (forall st' x, pool_ok s k st' -> same_shell st st' ->
     Q (Returned tt) st' [Ev (Disc (conn_queueManager c)) x]) ->
  wp (discard c) Q st.
Proof.
  intros Hk [_ Hcr Hb Ha Hr] HQ. unfold discard, decConnActive. wp_go.
  apply wp_conn_Close. intros e x _. wp_go. apply HQ; try done. split; simpl; try done; lia.
Qed.

Lemma pool_ok_state s k st x e : pool_ok s k st -> pool_ok s k (set_state x e st).
Proof. intros []. by split. Qed.

Lemma wp_endSpan sp e (Q : outcome unit -> unit -> list event -> Prop) s :
  (forall t x, silent t -> Q (Returned tt) s (t ++ [Ev (SpanEnd sp) x])) -> wp (endSpan sp e) Q s.
Proof.
  intros HQ. unfold endSpan. destruct e as [e|]; wp_go; destruct_unit.
  - by apply (HQ [_; _]).
  - by apply (HQ []).
Qed.

Lemma wp_endSpan_events sp e (Q : outcome unit -> unit -> list event -> Prop) s :
  (forall t, Forall (fun ev => mqi_call ev = false) t -> Q (Returned tt) s t) -> wp (endSpan sp e) Q s.
Proof. intros HQ. unfold endSpan. destruct e as [e|]; wp_go; destruct_unit; apply HQ; by repeat constructor. Qed.

(** What every completed Send leaves: the pool's accounts as they were, every
    queue closed and every span ended. *)
Record send_done (s : Sender) (k : Z) (st : SenderState) (id : string) (e : error)
    (st' : SenderState) (t : list event) : Prop := {
  sd_pool : pool_ok s k st';
  sd_shell : same_shell st st';
  sd_queues : omap opened_object t = omap closed_object t;
  sd_spans : omap started_span t = omap ended_span t;
  sd_ok : e = None -> s_state st' = StateConnected /\ s_lastErr st' = None /\
    delivered (s_cfg s) id t;
  sd_fail : e <> None -> id = ""%string
}.

(** At most two puts, the second only after a connection error of the first. *)
Definition retry_shape (answers : list error) : Prop :=
  match answers with
  | [] | [_] => True
  | [a; _] => IsConnectionError a = true
  | _ => False
  end.

Definition send_post (s : Sender) (k : Z) (st : SenderState) (o : outcome (string * error))
    (st' : SenderState) (t : list event) : Prop :=
  retry_shape (omap put_answer t) /\
  match o with
  | Returned (id, e) => send_done s k st id e st' t
  | Panicked _ =>
      pool_ok s (k + 1) st' /\ same_shell st st' /\
      omap opened_object t = omap closed_object t /\ omap ended_span t = []
  | _ => False
  end.

Lemma wp_finish_send s spanCtx span start c id e k st
    (Q : outcome (string * error) -> SenderState -> list event -> Prop) :
  0 <= k -> pool_ok s (k + 1) st -> conn_ready s c ->
  (forall st' t x, pool_ok s k st' -> same_shell st st' ->
     (e = None -> s_state st' = StateConnected /\ s_lastErr st' = None) -> silent t ->
     Q (Returned (id, e)) st' (t ++ [Ev (SpanEnd span) x])) ->
  wp (finish_send s spanCtx span start c id e) Q st.
Proof.
  intros Hk Hpo Hc HQ. unfold finish_send, Sender_setState, recordPublishDuration, incError.
  destruct e as [e|]; [|case_goal]; wp_go.
  all: apply wp_endSpan; intros t x Ht; wp_go.
  all: eapply (wp_releaseConn s c k); [done|by try apply pool_ok_state|done|].
  all: intros st' Hpo' Hsh Hs He; wp_go; rewrite ?app_nil_r; tr_norm.
  - apply (HQ st' (_ :: _ :: _ :: t) x); [done|done|done|silence].
  - apply (HQ st' (_ :: _ :: t) x); [done|done|by rewrite Hs, He|silence].
  - apply (HQ st' (_ :: _ :: _ :: t) x); [done|done|by rewrite Hs, He|silence].
Qed.

Lemma same_shell_trans st1 st2 st3 : same_shell st1 st2 -> same_shell st2 st3 -> same_shell st1 st3.
Proof. unfold same_shell. intuition congruence. Qed.

Ltac deliver := repeat first [done | apply delivered_cons | apply delivered_app; (left; by auto) || right].

Lemma wp_send_admitted s ctx dest creator k st :
  (forall f, creator = Some f -> creator_ok f) -> pool_ok s k st ->
  wp (send_admitted s ctx dest creator) (send_post s k st) st.
Proof.
  intros Hf Hpo. pose proof (po_out _ _ _ Hpo) as Hk.
  unfold send_admitted, startProducerSpan, Sender_setState, incError. wp_go. destruct b as [spanCtx span].
  wp_go. eapply wp_acquireConn; [exact Hpo|..].
  2:{ intros e st1 t1 Ht1 Hpo1 Hsh1 _. wp_go. apply wp_endSpan. intros t2 x Ht2. wp_go.
      split; [tr_facts|]. split; try done; tr_facts. }
  intros c st1 t1 Ht1 Hc1 Hpo1 Hsh1. wp_go.
  eapply wp_mono; [|apply wp_put_facts; by apply creator_ok_wrap].
  intros o [] t2 [Hb2 Hs2 He2 Hout Ha2 Hok2 Hf2]. destruct Hout as [(v & ->)|(id & e & ->)]; wp_go.
  { split; [destruct Ha2 as [Ha|(y & Ha & _)]; tr_facts|]. split_and!; [done|done|tr_facts..]. }
  destruct (IsConnectionError e) eqn:Hce; wp_go.
  2:{ eapply (wp_finish_send s _ _ _ c id e k); [done|done|done|]. intros st' t3 x Hpo' Hsh' Hst Ht3.
      split; [destruct Ha2 as [Ha|(y & Ha & _)]; tr_facts|].
      split; [done|by eapply same_shell_trans|tr_facts|tr_facts| |].
      - intros ->. destruct (Hst eq_refl). split_and!; [done..|]. deliver.
      - destruct e; [intros _; by eapply Hf2|done]. }
  apply wp_Reconnect; cycle 1.
  { intros c' e' t3 Ht3%silent_conn _ _ _ _. wp_go.
    eapply (wp_discard s _ k); [done|by apply pool_ok_state|]. intros st' x Hpo' Hsh'. wp_go.
    apply wp_endSpan. intros t4 y Ht4. wp_go.
    split; [destruct Ha2 as [Ha|(z & Ha & _)]; tr_facts|].
    split; [by apply pool_ok_state|by eapply same_shell_trans|tr_facts|tr_facts|done|done]. }
  intros c' t3 Ht3%silent_conn Hs3 Hc3 _. wp_go.
  assert (Hc' : conn_ready s c') by (split; [done|]; rewrite Hc3; apply Hc1).
  eapply wp_mono; [|apply wp_put_facts; by apply creator_ok_wrap].
  intros o [] t4 [Hb4 Hs4 He4 Hout Ha4 Hok4 Hf4].
  assert (Hshape : retry_shape (omap put_answer t2 ++ omap put_answer t4)).
  { destruct Ha2 as [->|(y & -> & Hy)], Ha4 as [->|(z & -> & _)]; try done.
    simpl. by rewrite (Hy _ _ eq_refl). }
  destruct Hout as [(v & ->)|(id' & [e'|] & ->)]; wp_go.
  - split; [tr_facts|]. split_and!; [by do 2 apply pool_ok_state|done|tr_facts..].
  - eapply (wp_discard s _ k); [done|by do 2 apply pool_ok_state|]. intros st' x Hpo' Hsh'. wp_go.
    apply (wp_mono _ (fun o st'' t => o = Returned tt /\ t = [] /\ pool_ok s k st'' /\ same_shell st' st'')).
    2:{ case_goal; wp_go; split_and!; try done. by apply pool_ok_state. }
    intros ? st'' ? (-> & -> & Hpo'' & Hsh''). wp_go. apply wp_endSpan. intros t5 y Ht5. wp_go.
    split; [tr_facts|].
    split; [done|do 2 (eapply same_shell_trans; [eassumption|]); done|tr_facts|tr_facts|done|done].
  - eapply (wp_finish_send s _ _ _ c' id' None k); [done|by do 2 apply pool_ok_state|done|].
    intros st' t5 x Hpo' Hsh' Hst Ht5. split; [tr_facts|].
    split; [done|by eapply same_shell_trans|tr_facts|tr_facts| |done].
    intros _. destruct (Hst eq_refl). split_and!; [done..|]. deliver.
Qed.

(** What [n] rounds of draining leave: the first [n] connections disconnected
    once each, in order, and one error kept per failed disconnect. *)
Definition drained (n : nat) (errs : list error) (st : SenderState) (o : outcome (list error))
    (st' : SenderState) (t : list event) : Prop :=
  exists errs', o = Returned (errs ++ errs') /\ st' = set_pool (drop n (pool st)) st /\
    omap disc_handle t = map conn_queueManager (take n (pool st)) /\
    Forall (fun e => e <> None) errs' /\ length errs' = length (omap disc_failure t).

Lemma wp_drain n errs st : wp (drain n errs) (drained n errs st) st.
Proof.
  revert errs st. induction n as [|n IH]; intros errs st; cbn [drain].
  { exists []. rewrite app_nil_r. split_and!; try done. by destruct st. }
  wp_go. unfold try_recv_pool, recv_pool.
  apply wp_select; destruct (pool st) as [|c p] eqn:Hp; try done;
    intros r ->%list_elem_of_singleton; cbn [fst snd]; wp_go.
  - eapply wp_mono; [|apply IH]. intros o st' t (errs' & -> & -> & Ht & He & Hl).
    exists errs'. rewrite Hp in *. rewrite drop_nil, take_nil in *. done.
  - apply wp_conn_Close. intros e x Hx. wp_go. eapply wp_mono; [|apply IH].
    intros o st' t (errs' & -> & -> & Ht & He & Hl). cbn [app pool] in *. unfold drained.
    rewrite Hp, !omap_cons, Ht. destruct Hx as [Hx1 Hx2]. destruct e as [e|], x as [x|].
    + exists (Some e :: errs'). rewrite <-app_assoc. split_and!; simpl; auto.
    + by specialize (Hx1 eq_refl).
    + by specialize (Hx2 eq_refl).
    + exists errs'. split_and!; simpl; auto.
Qed.

(** Every sequential close of an idle sender, whatever was lost to panics. *)
Lemma wp_Sender_close s k st0 :
  pool_ok s k st0 -> s_closed st0 = false -> wg st0 = 0 -> poolMu st0 = false ->
  wp Sender_close (fun o st' t =>
    (exists e, o = Returned e /\ (e = None <-> omap disc_failure t = [])) /\
    omap disc_handle t = map conn_queueManager (pool st0) /\
    st' = set_poolMu false (set_pool [] (set_closed st0))) st0.
Proof.
  intros Hpo Hcl Hwg Hmu. pose proof (po_created _ _ _ Hpo) as Hcr. pose proof (po_out _ _ _ Hpo).
  unfold Sender_close. wp_go. rewrite Hcl. cbn [fst snd]. wp_go.
  apply wp_select; cbn [wg set_closed]; rewrite Hwg; [done|].
  intros ? ->%list_elem_of_singleton. cbn [fst snd]. wp_go.
  apply wp_select; cbn [poolMu set_closed]; rewrite Hmu; [done|].
  intros ? ->%list_elem_of_singleton. cbn [fst snd]. wp_go.
  eapply wp_mono; [|apply wp_drain]. intros o st' t (errs & -> & -> & Ht & He & Hl). wp_go.
  rewrite !app_nil_r. cbn [app pool set_poolMu set_closed] in *.
  rewrite take_ge in Ht by lia. rewrite drop_ge by lia. split_and!; try done. eexists. split; [done|].
  rewrite errors_Join_nil. destruct errs as [|e errs], (omap disc_failure t); try done.
  inversion He; subst. split; [by inversion 1|done].
Qed.

(** Every admitted Send. *)
Lemma wp_SendWithCreator s ctx dest creator k st0 :
  (forall f, creator = Some f -> creator_ok f) ->
  pool_ok s k st0 -> s_closed st0 = false -> dest <> ""%string \/ s_queue s <> ""%string ->
  wp (SendWithCreator s ctx dest creator) (send_post s k st0) st0.
Proof.
  intros Hf Hpo Hcl Hd. unfold SendWithCreator.
  assert (Hq : String.eqb (if String.eqb dest "" then s_queue s else dest) "" = false).
  { destruct (String.eqb_spec dest ""); apply String.eqb_neq; naive_solver. }
  rewrite Hq. wp_go. rewrite Hcl. cbn [fst snd]. wp_go.
  eapply wp_mono; [|apply (wp_send_admitted s ctx _ creator k); [done|]; by destruct Hpo].
  intros o st' t [Hshape Ho]. destruct o as [[id e]|v| | |]; try done; wp_go; rewrite app_nil_r.
  - split; [done|]. destruct Ho as [[] [? [? ?]] ? ? ? ?]. split; try done. split_and!; simpl in *; try done; lia.
  - split; [done|]. destruct Ho as [[] [[? [? ?]] [? ?]]]. split_and!; try done. split_and!; simpl in *; try done; lia.
Qed.

(** Without a destination, or once the sender is closed, a Send returns an error
    and does nothing else: no state change, no external call. *)
Lemma wp_SendWithCreator_refused s ctx dest creator st0 :
  (dest = ""%string /\ s_queue s = ""%string) \/ s_closed st0 = true ->
  wp (SendWithCreator s ctx dest creator) (fun o st' t => st' = st0 /\ t = [] /\
    exists e, o = Returned (""%string, Some e) /\
      (dest <> ""%string \/ s_queue s <> ""%string -> e = ErrSentinel ErrClientClosed)) st0.
Proof.
  intros Hd. unfold SendWithCreator.
  destruct (String.eqb_spec dest ""), (String.eqb_spec (s_queue s) ""); cbn iota;
    rewrite ?(proj2 (String.eqb_eq _ _)), ?(proj2 (String.eqb_neq _ _)) by done;
    [wp_go; split_and!; [done|done|]; eexists; split; [done|naive_solver]|..].
  all: assert (Hc : s_closed st0 = true) by naive_solver; wp_go; rewrite Hc; cbn [fst snd]; wp_go.
  all: split_and!; [done|done|]; by eexists.
Qed.

(** ** Properties *)



(** C24: closing a sender with no Send in flight, [k] of its connections lost to
    creators that panicked: it returns; every pooled connection is disconnected
    exactly once, oldest first; the pool is left empty and the sender closed and
    StateStopped, with its lock released; the result is nil exactly when every
    disconnect succeeded.  A second close returns nil and does nothing.  The
    connection gauge is not told: the counter behind messaging.connection.active
    still reads the number of connections that were counted before the close. *)
Theorem Sender_close_spec {W} (h : handler W) s k st0 w :
  handler_ok h -> pool_ok s k st0 -> s_closed st0 = false -> wg st0 = 0 -> poolMu st0 = false ->
  let r := run h Sender_close st0 w in
  (exists e, out r = Returned e /\ (e = None <-> omap disc_failure (tr r) = [])) /\
  omap disc_handle (tr r) = map conn_queueManager (pool st0) /\
  pool (st r) = [] /\ s_closed (st r) = true /\ s_state (st r) = StateStopped /\ poolMu (st r) = false /\
  s_active (st r) = Z.of_nat (length (pool st0)) + k /\
  run h Sender_close (st r) (env r) = mkResult (Returned None) (st r) (env r) [].
Proof.
  intros Hh Hpo Hcl Hwg Hmu r.
  destruct (wp_run h _ Hh _ st0 w (wp_Sender_close s k st0 Hpo Hcl Hwg Hmu)) as (He & Hd & Hst).
  fold r in He, Hd, Hst. rewrite Hst. destruct Hpo. split_and!; try done. simpl. lia.
Qed.

End sender_lemmas.

(** *** Witnesses: a sender with two idle connections *)

Definition sample_tel : mqTelemetry := mkTelemetry 0 NoopTextMapPropagator 1 2 3 4.

Definition sample_sender : Sender := mkSender readme_config "DEV.QUEUE.1" 3 sample_tel.

Definition idle_conn (h : MQQueueManager) : connection :=
  mkConnection h readme_config StateConnected None.

Definition sample_pool : SenderState :=
  mkSenderState [idle_conn 5; idle_conn 6] 2 false StateConnected None 0 false 2.

Lemma sample_pool_ok : pool_ok sample_sender 0 sample_pool.
Proof. split; simpl; try lia. by repeat constructor. Qed.

(** A broken connection on the first put, a reconnect, then success. *)
Definition broken_once : script :=
  mkScript [] [] [] [] [] [inr (ErrMQ (mkMQReturn 2 2009)); inl [xca; xfe]] [] [] 20.

(** A creator that panics. *)
Definition panicking : script := mkScript [] [] [] [] [] [] [] [UserPanics Message_zero 1] 20.


Lemma Sender_close_spec_witness :
  let r := run scripted Sender_close sample_pool calm in
  omap disc_handle (tr r) = [5; 6]%nat /\ pool (st r) = [] /\ s_active (st r) = 2.
Proof.
  destruct (Sender_close_spec scripted sample_sender 0 sample_pool calm scripted_ok sample_pool_ok
              eq_refl eq_refl eq_refl) as (_ & Hd & Hp & _ & _ & _ & Ha & _).
  split; [exact Hd|]. split; [exact Hp|exact Ha].
Defined.

(** A sender with one connection, after a creator panicked. *)
Definition lonely : Sender := mkSender readme_config "DEV.QUEUE.1" 1 sample_tel.

Definition starved : SenderState :=
  st (run scripted (@SendWithCreator ibm_binding amd64 lonely 0 "" (Some (user_creator 0))) SenderState_init panicking).

Lemma starved_pool : pool_ok lonely 1 starved.
Proof. split; try (vm_compute; congruence). vm_compute. constructor. Qed.

