(* ===== verification/Listener.v ===== *)
(** * The listener

    src/mq/listener.go: the consumer goroutines, their poll loop, the panic
    barrier around the application's handler, and the life cycle [Start]/[close].
    A listener is meant to run until its context ends, so its two nested loops
    carry fuel: [n] rounds of (re)connecting and [m] polls per round. *)

From Stdlib Require Import ZArith Lia Strings.Byte.
From stdpp Require Import base list option strings gmap numbers.
From S2P Require Import Prelude GoErrors Float64 Hex Config Mqi GoProg Script Backoff Connection.
From S2P Require Import Telemetry Wire.

Local Open Scope Z_scope.
Local Open Scope go_scope.

(** The fields fixed once [Client.NewListener] returns; [l_onError] is the
    application's error callback, if any. *)
Record Listener := mkListener {
  l_cfg : Config;
  l_queue : string;
  l_concurrency : Z;
  l_maxRetries : Z;
  l_queueOpts : QueueOptions;
  l_tel : mqTelemetry;
  l_onError : option nat
}.

(** The shared fields, with the WaitGroup and the error channel that [Start],
    which runs once, shares with its goroutines.  [l_done] is nil, open or
    closed. *)
Record ListenerState := mkListenerState {
  l_mu : bool;
  l_started : bool;
  l_closed : bool;
  l_cancel : option Ctx;
  l_done : option bool;
  l_states : list ConnectionState;
  l_wg : Z;
  l_errs : list err;
  l_active : Z
}.

Definition set_l_mu (b : bool) (s : ListenerState) : ListenerState :=
  mkListenerState b (l_started s) (l_closed s) (l_cancel s) (l_done s) (l_states s) (l_wg s)
    (l_errs s) (l_active s).

Definition set_l_started (s : ListenerState) : ListenerState :=
  mkListenerState (l_mu s) true (l_closed s) (l_cancel s) (l_done s) (l_states s) (l_wg s)
    (l_errs s) (l_active s).

Definition set_l_closed (s : ListenerState) : ListenerState :=
  mkListenerState (l_mu s) (l_started s) true (l_cancel s) (l_done s) (l_states s) (l_wg s)
    (l_errs s) (l_active s).

Definition set_l_cancel (c : Ctx) (s : ListenerState) : ListenerState :=
  mkListenerState (l_mu s) (l_started s) (l_closed s) (Some c) (l_done s) (l_states s) (l_wg s)
    (l_errs s) (l_active s).

Definition set_l_done (b : bool) (s : ListenerState) : ListenerState :=
  mkListenerState (l_mu s) (l_started s) (l_closed s) (l_cancel s) (Some b) (l_states s) (l_wg s)
    (l_errs s) (l_active s).

Definition set_l_states (x : list ConnectionState) (s : ListenerState) : ListenerState :=
  mkListenerState (l_mu s) (l_started s) (l_closed s) (l_cancel s) (l_done s) x (l_wg s)
    (l_errs s) (l_active s).

Definition set_l_wg (n : Z) (s : ListenerState) : ListenerState :=
  mkListenerState (l_mu s) (l_started s) (l_closed s) (l_cancel s) (l_done s) (l_states s) n
    (l_errs s) (l_active s).

Definition set_l_errs (es : list err) (s : ListenerState) : ListenerState :=
  mkListenerState (l_mu s) (l_started s) (l_closed s) (l_cancel s) (l_done s) (l_states s) (l_wg s)
    es (l_active s).

#[export] Instance Listener_active : HasActiveConns ListenerState := {|
  activeConns := l_active;
  setActiveConns n s := mkListenerState (l_mu s) (l_started s) (l_closed s) (l_cancel s) (l_done s)
                          (l_states s) (l_wg s) (l_errs s) n
|}.

(** [ListenerOption] and the options. *)
Definition ListenerOption : Type := Listener -> Listener.

Definition WithListenerConcurrency (n : Z) (l : Listener) : Listener :=
  if 1 <=? n then
    mkListener (l_cfg l) (l_queue l) n (l_maxRetries l) (l_queueOpts l) (l_tel l) (l_onError l)
  else l.

Definition WithListenerQueueOptions (opts : QueueOptions) (l : Listener) : Listener :=
  mkListener (l_cfg l) (l_queue l) (l_concurrency l) (l_maxRetries l) opts (l_tel l) (l_onError l).

Definition WithListenerMaxRetries (n : Z) (l : Listener) : Listener :=
  if 0 <=? n then
    mkListener (l_cfg l) (l_queue l) (l_concurrency l) n (l_queueOpts l) (l_tel l) (l_onError l)
  else l.

Definition WithListenerErrorHandler (h : option nat) (l : Listener) : Listener :=
  mkListener (l_cfg l) (l_queue l) (l_concurrency l) (l_maxRetries l) (l_queueOpts l) (l_tel l) h.

(** [initStates], on the zero state of a new listener. *)
Definition initStates (l : Listener) : ListenerState :=
  mkListenerState false false false None None (repeat StateUnknown (Z.to_nat (l_concurrency l)))
    0 [] 0.

(** A handler works on the message it is given a pointer to: it leaves a message,
    and the error it returns or the value it panics with. *)
Definition MessageHandler : Type := Ctx -> Message -> io (Message * (error + nat)).

(** A handler supplied by the application. *)
Definition user_handler (f : nat) : MessageHandler := fun ctx m =>
  do! r <- call (UserCall f ctx (Some m) None);
  match r with
  | UserReturns m' e => Ret (m', inl e)
  | UserPanics m' v => Ret (m', inr v)
  end.

(** [fmt.Errorf("%w: %v", ErrHandlerPanic, r)]. *)
Definition panic_error (v : nat) : err :=
  ErrFmt [inr (ErrSentinel ErrHandlerPanic); inl (Lit ": "); inl (PanicText v)].

(** [invokeHandler], with the message as the handler leaves it: the deferred function
    turns a panic into an error.  [InvokeHandlerSafe] discards the error. *)
Definition invokeHandler (ctx : Ctx) (handler : MessageHandler) (msg : Message) : io (Message * error) :=
  do! '(msg, r) <- handler ctx msg;
  match r with
  | inl e => Ret (msg, e)
  | inr v => Ret (msg, Some (panic_error v))
  end.

Definition InvokeHandlerSafe (ctx : Ctx) (handler : MessageHandler) (msg : Message) : io unit :=
  invokeHandler ctx handler msg ;;; Ret tt.

(** [Listener.reportError]. *)
Definition reportError (l : Listener) (ctx : Ctx) (msg : option Message) (e : error) : io unit :=
  match l_onError l, e with
  | Some f, Some _ =>
      recover (fun _ => Ret tt)
        (do! r <- call (UserCall f ctx msg e);
         match r with
         | UserReturns _ _ => Ret tt
         | UserPanics _ v => Panic v
         end)
  | _, _ => Ret tt
  end.

(** [Listener.setConsumerState]. *)
Definition store_state (idx : Z) (x : ConnectionState) (s : ListenerState) : ListenerState :=
  if (0 <=? idx) && (idx <? Z.of_nat (length (l_states s)))
  then set_l_states (<[Z.to_nat idx := x]> (l_states s)) s else s.

Definition setConsumerState (idx : Z) (x : ConnectionState) : prog ListenerState unit :=
  modify (store_state idx x).

(** The outcome of a Go call as a value, a panic included. *)
Definition try {S A : Type} (p : prog S A) : prog S (A + nat) := tbind p Ret.

Definition raise {S A : Type} (r : A + nat) : prog S A :=
  match r with inl a => Ret a | inr v => Panic v end.

Section listener.
Context `{MQBinding} `{GoArch}.

Definition listen_options (opts : QueueOptions) : Z :=
  applyQueueOpenOptions opts (Z.lor MQOO_INPUT_AS_Q_DEF MQOO_FAIL_IF_QUIESCING).

Definition listen_gmo : MQGMO := mkMQGMO (Z.lor MQGMO_WAIT MQGMO_NO_SYNCPOINT) 0 1000.

Definition receive_buffer : Z := 4 * 1024 * 1024.

(** One received message: extract, span, handler, report, metrics. *)
Definition handle_message (l : Listener) (ctx : Ctx) (handler : MessageHandler) (md : MQMD)
    (data : list byte) : io unit :=
  let msg := messageFromMQMD md data in
  do! msgCtx <- extractFromMessage (l_tel l) ctx msg;
  do! '(spanCtx, span) <- startConsumerSpan (l_tel l) msgCtx (l_queue l) (ID msg);
  do! start <- call Now;
  do! '(msg, handlerErr) <- invokeHandler spanCtx handler msg;
  (match handlerErr with
   | Some _ =>
       incError (l_tel l) spanCtx "handler_failed" ;;;
       reportError l spanCtx (Some msg) handlerErr
   | None => Ret tt
   end) ;;;
  recordReceiveDuration (l_tel l) spanCtx start ;;;
  endSpan span handlerErr.

(** The loop of [consumeLoop], with [m] polls left. *)
Fixpoint consume_polls (m : nat) (l : Listener) (ctx : Ctx) (qObj : MQObject)
    (handler : MessageHandler) : io error :=
  match m with
  | O => OutOfFuel
  | S m' =>
      do! e <- call (CtxErr ctx);
      match e with
      | Some _ => Ret None
      | None =>
          do! r <- call (GetSlice qObj NewMQMD listen_gmo receive_buffer);
          match r with
          | inr e =>
              if IsEmptyQueueError (Some e) then consume_polls m' l ctx qObj handler
              else Ret (Some e)
          | inl (md, data) =>
              handle_message l ctx handler md data ;;;
              consume_polls m' l ctx qObj handler
          end
      end
  end.

(** [Listener.consumeLoop]. *)
Definition consumeLoop (m : nat) (l : Listener) (ctx : Ctx) (conn : connection)
    (handler : MessageHandler) : io error :=
  do! r <- call (MQOpen (conn_QueueManager conn) (queue_od (l_queue l)) (listen_options (l_queueOpts l)));
  match r with
  | inr e =>
      Ret (Some (open_error [Lit "commons-mq-go: failed to open queue "; Quoted (l_queue l); Lit ": "] e))
  | inl (qObj, _) =>
      defer (call (MQClose qObj 0) ;;; Ret tt) (consume_polls m l ctx qObj handler)
  end.

(** The [for] loop of [runConsumer]; [Reconnect] works on the connection in
    place, so the loop hands back the connection its deferred Close will see. *)
Fixpoint consumer_rounds (n m : nat) (l : Listener) (ctx : Ctx) (conn : connection)
    (handler : MessageHandler) (idx : Z) : prog ListenerState (connection * (error + nat)) :=
  match n with
  | O => OutOfFuel
  | S n' =>
      do! e <- lift (call (CtxErr ctx));
      match e with
      | Some _ => Ret (conn, inl None)
      | None =>
          do! r <- try (lift (consumeLoop m l ctx conn handler));
          match r with
          | inr v => Ret (conn, inr v)
          | inl None => Ret (conn, inl None)
          | inl (Some loopErr) =>
              do! e <- lift (call (CtxErr ctx));
              match e with
              | Some _ => Ret (conn, inl None)
              | None =>
                  if IsConnectionError (Some loopErr) then
                    setConsumerState idx StateReconnecting ;;;
                    do! '(conn, reconnErr) <- lift (Reconnect ctx conn);
                    match reconnErr with
                    | Some e =>
                        do! x <- lift (call (CtxErr ctx));
                        match x with
                        | Some _ => Ret (conn, inl None)
                        | None => Ret (conn, inl (Some e))
                        end
                    | None =>
                        setConsumerState idx StateConnected ;;;
                        consumer_rounds n' m l ctx conn handler idx
                    end
                  else Ret (conn, inl (Some loopErr))
              end
          end
      end
  end.

(** [cfg := l.client.cfg; cfg.MaxRetries = l.maxRetries]. *)
Definition consumer_cfg (l : Listener) : Config :=
  match l_cfg l with
  | mkConfig a b c u p t i o mo ic oc ttl _ iri mul mri sq tel =>
      mkConfig a b c u p t i o mo ic oc ttl (l_maxRetries l) iri mul mri sq tel
  end.

(** The body of [runConsumer], before its first deferred function. *)
Definition consumer_body (n m : nat) (l : Listener) (ctx : Ctx) (handler : MessageHandler) (idx : Z)
    : prog ListenerState error :=
  do! e <- lift (call (CtxErr ctx));
  match e with
  | Some _ => Ret None
  | None =>
      setConsumerState idx StateReconnecting ;;;
      do! r <- lift (newConnectionWithRetry ctx (consumer_cfg l));
      match r with
      | inr e =>
          do! x <- lift (call (CtxErr ctx));
          match x with
          | Some _ => Ret None
          | None => Ret (Some e)
          end
      | inl conn =>
          setConsumerState idx StateConnected ;;;
          incConnActive ;;;
          do! '(conn, r) <- consumer_rounds n m l ctx conn handler idx;
          decConnActive ;;;
          lift (conn_Close conn) ;;;
          raise r
      end
  end.

(** [Listener.runConsumer]: the first deferred function runs last; while a panic
    unwinds it finds [retErr] nil. *)
Definition runConsumer (n m : nat) (l : Listener) (ctx : Ctx) (handler : MessageHandler) (idx : Z)
    : prog ListenerState error :=
  do! r <- try (consumer_body n m l ctx handler idx);
  (match r with
   | inl (Some e) =>
       setConsumerState idx StateFailed ;;;
       lift (reportError l ctx None (Some e))
   | inl None | inr _ => setConsumerState idx StateStopped
   end) ;;;
  raise r.

Definition lock_l : prog ListenerState unit :=
  select MutexLock (fun st => if l_mu st then [] else [(tt, set_l_mu true st)]).

Definition unlock_l : prog ListenerState unit := modify (set_l_mu false).

(** The goroutine of consumer [idx]. *)
Definition consumer_goroutine (n m : nat) (l : Listener) (ctx : Ctx) (handler : MessageHandler)
    (idx : Z) : prog ListenerState unit :=
  defer (modify (fun st => set_l_wg (l_wg st - 1) st))
    (do! e <- runConsumer n m l ctx handler idx;
     match e with
     | Some e =>
         select ChanSend (fun st =>
           if Z.of_nat (length (l_errs st)) <? l_concurrency l
           then [(tt, set_l_errs (l_errs st ++ [e]) st)] else [])
     | None => Ret tt
     end).

(** [for i := range l.concurrency { wg.Add(1); go ... }], [k] goroutines left. *)
Fixpoint spawn (k : nat) (n m : nat) (l : Listener) (ctx : Ctx) (handler : MessageHandler)
    : prog ListenerState unit :=
  match k with
  | O => Ret tt
  | S k' =>
      modify (fun st => set_l_wg (l_wg st + 1) st) ;;;
      Fork (consumer_goroutine n m l ctx handler (l_concurrency l - Z.of_nat k))
        (spawn k' n m l ctx handler)
  end.

(** [Listener.Start]. *)
Definition Start (n m : nat) (l : Listener) (ctx : Ctx) (handler : MessageHandler)
    : prog ListenerState error :=
  lock_l ;;;
  do! closed <- reads l_closed;
  if closed : bool then unlock_l ;;; Ret (Some (ErrSentinel ErrClientClosed))
  else
    do! started <- reads l_started;
    if started : bool then
      unlock_l ;;; Ret (Some (ErrNew [Lit "commons-mq-go: Listener.Start may only be called once"]))
    else
      modify set_l_started ;;;
      do! runCtx <- lift (call (WithCancel ctx));
      modify (set_l_cancel runCtx) ;;;
      modify (set_l_done false) ;;;
      unlock_l ;;;
      defer (modify (set_l_done true))
        (defer (lift (call (CancelCtx runCtx)))
          (spawn (Z.to_nat (l_concurrency l)) n m l runCtx handler ;;;
           select WgWait (fun st => if l_wg st =? 0 then [(tt, st)] else []) ;;;
           do! errs <- reads l_errs;
           Ret (errors_Join (map Some errs)))).

(** [Listener.close]. *)
Definition Listener_close : prog ListenerState error :=
  lock_l ;;;
  do! closed <- reads l_closed;
  if closed : bool then unlock_l ;;; Ret None
  else
    modify set_l_closed ;;;
    do! cancel <- reads l_cancel;
    do! done <- reads l_done;
    unlock_l ;;;
    (match cancel with Some c => lift (call (CancelCtx c)) | None => Ret tt end) ;;;
    (match done with
     | Some _ => select ChanRecv (fun st => match l_done st with Some true => [(tt, st)] | _ => [] end)
     | None => Ret tt
     end) ;;;
    Ret None.

End listener.

(** ** Projections of a consumer's trace *)

(** The messages handed to handler [f]. *)
Definition handler_call (f : nat) (ev : event) : option Message :=
  match ev with
  | Ev e _ => match e with
              | UserCall g _ (Some m) None => if decide (f = g) then Some m else None
              | _ => None
              end
  end.

(** The failures of handler [f]: the error it returned, or its panic as one, with the
    message as it left it. *)
Definition handler_failure (f : nat) (ev : event) : option (Message * err) :=
  match ev with
  | Ev e b => match e in ext B return B -> option (Message * err) with
              | UserCall g _ (Some m) None => fun r =>
                  if decide (f = g) then
                    match r with
                    | UserReturns m' (Some e) => Some (m', e)
                    | UserReturns _ None => None
                    | UserPanics m' v => Some (m', panic_error v)
                    end
                  else None
              | _ => fun _ => None
              end b
  end.

(** What the error callback [g] was told: a message with its error, or a
    consumer's own error. *)
Definition reported (g : nat) (ev : event) : option (Message * err) :=
  match ev with
  | Ev e _ => match e with
              | UserCall g' _ (Some m) (Some e) => if decide (g = g') then Some (m, e) else None
              | _ => None
              end
  end.

Definition reported_exit (g : nat) (ev : event) : option err :=
  match ev with
  | Ev e _ => match e with
              | UserCall g' _ None (Some e) => if decide (g = g') then Some e else None
              | _ => None
              end
  end.

Definition received_message (ev : event) : option Message :=
  (fun '(md, data) => messageFromMQMD md data) <$> received ev.

(** What holds of every piece of a consumer's trace: spans and queue objects are
    balanced, each received message goes to the handler once and in order, and
    each failure of the handler is reported once and in order. *)
Record consumer_facts (l : Listener) (f : nat) (t : list event) : Prop := {
  cf_spans : omap started_span t = omap ended_span t;
  cf_objects : omap opened_object t = omap closed_object t;
  cf_handled : omap (handler_call f) t = omap received_message t;
  cf_reported : forall g, l_onError l = Some g -> omap (reported g) t = omap (handler_failure f) t;
  cf_no_exit : forall g, omap (reported_exit g) t = []
}.

(** An event none of these projections looks at. *)
Definition plain_event (ev : event) : bool :=
  match ev with
  | Ev e _ => match e with
              | SpanStart _ _ _ _ _ | SpanEnd _ | MQOpen _ _ _ | MQClose _ _
              | GetSlice _ _ _ _ | UserCall _ _ _ _ => false
              | _ => true
              end
  end.

Section listener_lemmas.
Context `{MQBinding} `{GoArch}.
Variables (l : Listener) (f : nat).

Lemma cf_app t t' : consumer_facts l f t -> consumer_facts l f t' -> consumer_facts l f (t ++ t').
Proof.
  intros [Hs Ho Hh Hr Hx] [Hs' Ho' Hh' Hr' Hx']. split; rewrite ?omap_app; try congruence.
  - intros g Hg. rewrite !omap_app, Hr, Hr'; done.
  - intros g. by rewrite omap_app, Hx, Hx'.
Qed.

Lemma cf_plain t : Forall (fun ev => plain_event ev = true) t -> consumer_facts l f t.
Proof.
  induction 1 as [|[B e b] t He Ht IH]; [done|]. apply (cf_app [_]); [|done].
  destruct e; try discriminate; by split.
Qed.

Lemma cf_conn t : Forall (fun ev => conn_event ev = true) t -> consumer_facts l f t.
Proof.
  intros Ht. apply cf_plain. eapply Forall_impl; [|exact Ht]. intros [B e b]. by destruct e.
Qed.

(** One message: whatever handler and callback do, control comes back. *)
Lemma wp_handle_message ctx md data (Q : outcome unit -> unit -> list event -> Prop) s :
  (forall t, Forall (fun ev => keeps_handles ev = true) t -> count_events (live_check ctx) t = 0%nat ->
     omap opened_object t = [] -> omap closed_object t = [] ->
     (forall o, consumer_facts l f (Ev (GetSlice o NewMQMD listen_gmo receive_buffer) (inl (md, data)) :: t)) ->
     Q (Returned tt) s t) ->
  wp (handle_message l ctx (user_handler f) md data) Q s.
Proof.
  intros HQ.
  unfold handle_message, extractFromMessage, Extract, noopTextMapPropagator_Extract, noopPropagator_Extract,
    startConsumerSpan, invokeHandler, user_handler, incError, reportError, recordReceiveDuration, endSpan.
  destruct (tel_propagator (l_tel l)); wp_go.
  all: match goal with b : (nat * nat)%type |- _ => destruct b as [spanCtx span] end; wp_go.
  all: match goal with b : user_answer |- _ => destruct b as [m' [e|]|m' v] end; wp_go.
  all: destruct (l_onError l) as [g|] eqn:Hg; wp_go.
  all: try match goal with b : user_answer |- _ => destruct b as [m2 e2|m2 v2] end; wp_go.
  all: repeat match goal with b : unit |- _ => destruct b end; apply HQ.
  all: try done; try by repeat constructor.
  all: intros o; split; simpl; rewrite ?decide_True by done; try done.
  all: intros g' Hg'; simplify_eq; simpl; rewrite ?decide_True by done; try done.
Qed.

Lemma live_check_CtxErr ctx t :
  count_events (live_check ctx) (Ev (CtxErr ctx) None :: t) = S (count_events (live_check ctx) t).
Proof. unfold live_check. simpl. by rewrite decide_True. Qed.

(** A piece of trace inside one open queue. *)
Record poll_facts (t : list event) : Prop := {
  pl_keeps : Forall (fun ev => keeps_handles ev = true) t;
  pl_opened : omap opened_object t = [];
  pl_closed : omap closed_object t = [];
  pl_facts : consumer_facts l f t
}.

Lemma poll_app t t' : poll_facts t -> poll_facts t' -> poll_facts (t ++ t').
Proof.
  intros [Hk Ho Hc Hf] [Hk' Ho' Hc' Hf']. split; rewrite ?omap_app, ?Ho, ?Hc; auto using Forall_app_2, cf_app.
Qed.

Lemma wp_consume_polls ctx q m s :
  wp (consume_polls m l ctx q (user_handler f)) (fun o _ t => poll_facts t /\
    match o with
    | Returned None => exists x, ends_with (Ev (CtxErr ctx) (Some x)) t
    | Returned (Some e) => IsEmptyQueueError (Some e) = false
    | NoFuel => (m <= count_events (live_check ctx) t)%nat
    | _ => False
    end) s.
Proof.
  revert s. induction m as [|m IH]; intros s; cbn [consume_polls]; [by split; [split|simpl; lia]|].
  wp_go. destruct b as [x|]; wp_go; [split; [by repeat (split || constructor)|by exists x, []]|].
  destruct b as [[md data]|e]; wp_go.
  - apply wp_handle_message. intros t Hk _ Ho Hcl Hf. wp_go. eapply wp_mono; [|apply IH].
    intros o s' t' [Hp Ho']. rewrite !app_assoc. split.
    + apply poll_app; [|done]. apply (poll_app [_]); [by repeat (split || constructor)|].
      split; simpl; try done. by constructor.
    + destruct o as [[e|]|v| | |]; try done.
      * destruct Ho' as [x Hx]. exists x. by apply ends_with_app.
      * rewrite <-!app_assoc. cbn [app]. rewrite live_check_CtxErr.
        change (?x :: t ++ t') with ([x] ++ t ++ t'). rewrite !count_events_app. lia.
  - destruct (IsEmptyQueueError (Some e)) eqn:He.
    + eapply wp_mono; [|apply IH]. intros o s' t' [Hp Ho']. rewrite app_assoc. split.
      * apply poll_app; [|done]. by repeat (split || constructor).
      * destruct o as [[e'|]|v| | |]; try done.
        -- destruct Ho' as [x Hx]. exists x. by apply ends_with_app.
        -- rewrite <-!app_assoc. cbn [app]. rewrite live_check_CtxErr.
           change (?x :: t') with ([x] ++ t'). rewrite !count_events_app. lia.
    + wp_go. split; [by repeat (split || constructor)|done].
Qed.

Lemma wp_consumeLoop ctx c m s :
  wp (consumeLoop m l ctx c (user_handler f)) (fun o _ t =>
    Forall (fun ev => keeps_handles ev = true) t /\
    match o with
    | Returned e => consumer_facts l f t /\ (e = None -> exists x ev, ev ∈ t /\ saw_done ctx x ev)
    | NoFuel => (m <= count_events (live_check ctx) t)%nat
    | _ => False
    end) s.
Proof.
  unfold consumeLoop. wp_go. destruct b as [[q od]|e]; wp_go; [|by repeat (split || constructor)].
  eapply wp_mono; [|apply wp_consume_polls]. intros o s' t [[Hk Ho Hc Hf] Hout].
  assert (Hcf : forall x : error,
    consumer_facts l f (Ev (MQOpen (conn_queueManager c) (queue_od (l_queue l))
       (listen_options (l_queueOpts l))) (inl (q, od)) :: t ++ [Ev (MQClose q 0) x])).
  { intros x. destruct Hf as [Hs _ Hh Hr Hx].
    split; try intros g; try intros Hg; rewrite ?omap_cons, ?omap_app, ?omap_cons; simpl;
      rewrite ?app_nil_r, ?Ho, ?Hc; auto. }
  destruct o as [e|v| | |]; try done; wp_go.
  - rewrite !app_nil_r. split_and!; [by repeat (constructor || apply Forall_app_2)|apply Hcf|].
    intros ->. destruct Hout as (x & t' & ->).
    exists x, (Ev (CtxErr ctx) (Some x)). split; [set_solver|apply saw_done_CtxErr].
  - split; [by constructor|]. rewrite count_events_app. lia.
Qed.

(** The consumer's slot is the only thing the rounds change. *)
Definition touched (idx : Z) (s s' : ListenerState) : Prop :=
  s' = s \/ exists x, s' = store_state idx x s.

Lemma store_store idx x y s : store_state idx x (store_state idx y s) = store_state idx x s.
Proof.
  unfold store_state. destruct ((0 <=? idx) && (idx <? Z.of_nat (length (l_states s)))) eqn:E; simpl.
  - rewrite length_insert, E. simpl. by rewrite list_insert_insert_eq.
  - by rewrite E.
Qed.

Lemma touched_store idx x s s' : touched idx s s' -> store_state idx x s' = store_state idx x s.
Proof. intros [->|[y ->]]; [done|apply store_store]. Qed.

Lemma touched_step idx x s s' : touched idx s s' -> touched idx s (store_state idx x s').
Proof. intros Ht. right. exists x. by apply touched_store. Qed.

(** What a run of the rounds from connection [c] leaves. *)
Definition rounds_post (ctx : Ctx) (n m : nat) (idx : Z) (c : connection) (s : ListenerState)
    (o : outcome (connection * (error + nat))) (s' : ListenerState) (t : list event) : Prop :=
  touched idx s s' /\
  match o with
  | Returned (c', r) =>
      (forall live, live ⊆ {[conn_queueManager c]} -> live_handles live t ⊆ {[conn_queueManager c']}) /\
      consumer_facts l f t /\
      match r with
      | inl None => exists x ev, ev ∈ t /\ saw_done ctx x ev
      | inl (Some _) => ends_with (Ev (CtxErr ctx) None) t
      | inr _ => False
      end
  | NoFuel => (Nat.min n m <= count_events (live_check ctx) t)%nat
  | _ => False
  end.

(** One more round in front. *)
Lemma rounds_post_cons ctx n m idx c c1 s s1 o s' pre t :
  touched idx s s1 -> consumer_facts l f pre ->
  (forall live, live ⊆ {[conn_queueManager c]} -> live_handles live pre ⊆ {[conn_queueManager c1]}) ->
  (1 <= count_events (live_check ctx) pre)%nat ->
  rounds_post ctx n m idx c1 s1 o s' t -> rounds_post ctx (S n) m idx c s o s' (pre ++ t).
Proof.
  intros Hts Hf Hl Hc [Ht Ho]. split.
  { destruct Ht as [->|[x ->]]; [done|by apply touched_step]. }
  destruct o as [[c' r]|v| | |]; try done; [|rewrite count_events_app; lia].
  destruct Ho as (Hl' & Hf' & Hr). split_and!.
  - intros live Hs. rewrite live_handles_app. auto.
  - by apply cf_app.
  - destruct r as [[e|]|v]; [by apply ends_with_app| |done].
    destruct Hr as (x & ev & ? & ?). exists x, ev. set_solver.
Qed.

(** What the consumer makes of its context after a reconnect that failed. *)
Definition reconnect_verdict (r : option ctx_error) (q : error + nat) : Prop :=
  match q with inl None => exists x, r = Some x | inl (Some _) => r = None | inr _ => False end.

(** A last round that ends with a failed reconnect. *)
Lemma rounds_post_failed ctx n m idx c c' s pre t1 r q :
  consumer_facts l f pre -> (forall live, live_handles live pre = live) ->
  Forall (fun ev => conn_event ev = true) t1 ->
  (forall live, live ⊆ {[conn_queueManager c]} -> live_handles live t1 ⊆ {[conn_queueManager c']}) ->
  reconnect_verdict r q ->
  rounds_post ctx n m idx c s (Returned (c', q)) (store_state idx StateReconnecting s)
    (pre ++ t1 ++ [Ev (CtxErr ctx) r]).
Proof.
  intros Hpre Hlv Ht1 Hl Hq. split; [right; by eexists|]. split_and!.
  - intros live Hs. rewrite !live_handles_app, Hlv. by apply Hl.
  - apply cf_app; [done|]. apply cf_app; [by apply cf_conn|by apply cf_plain; repeat constructor].
  - destruct q as [[?|]|?]; [simpl in Hq; subst r|destruct Hq as [x ->]|done].
    + rewrite app_assoc. apply ends_with_one.
    + exists x. eexists. split; [|apply saw_done_CtxErr]. set_solver.
Qed.

Lemma wp_consumer_rounds ctx m idx n c s :
  wp (consumer_rounds n m l ctx c (user_handler f) idx) (rounds_post ctx n m idx c s) s.
Proof.
  revert c s. induction n as [|n IH]; intros c s; cbn [consumer_rounds]; [split; [by left|simpl; lia]|].
  wp_go. destruct b as [x|]; wp_go.
  { split; [by left|]. split_and!; [done|by apply cf_plain; repeat constructor|].
    exists x. eexists. split; [by left|apply saw_done_CtxErr]. }
  unfold try. wp_go. eapply wp_mono; [|apply wp_consumeLoop]. intros o [] t [Hk Ho].
  assert (Hlive : forall live, live_handles live t = live) by (intros; by apply live_keeps).
  destruct o as [[e|]|v| | |]; try done; wp_go; cycle 1.
  { rewrite !app_nil_r. destruct Ho as [Hf Ho]. destruct (Ho eq_refl) as (x & ev & Hin & Hx).
    split; [by left|]. split_and!; [intros live; simpl; by rewrite Hlive| |].
    - apply (cf_app [_]); [by apply cf_plain; repeat constructor|done].
    - exists x, ev. set_solver. }
  { split; [by left|]. cbn [app]. rewrite live_check_CtxErr. lia. }
  destruct Ho as [Hf _]. rewrite app_nil_r.
  assert (Hpre : forall r, consumer_facts l f (Ev (CtxErr ctx) None :: t ++ [Ev (CtxErr ctx) r])).
  { intros r. apply (cf_app [_]); [by apply cf_plain; repeat constructor|].
    apply cf_app; [done|by apply cf_plain; repeat constructor]. }
  assert (Hlv : forall r live, live_handles live (Ev (CtxErr ctx) None :: t ++ [Ev (CtxErr ctx) r]) = live).
  { intros r live. simpl. by rewrite live_handles_app, Hlive. }
  destruct b as [x|]; wp_go; tr_norm.
  { split; [by left|]. split_and!; [intros live; by rewrite Hlv|apply Hpre|].
    exists x. eexists. split; [|apply saw_done_CtxErr]. set_solver. }
  destruct (IsConnectionError (Some e)); wp_go; tr_norm; cycle 1.
  { split; [by left|]. split_and!; [intros live; by rewrite Hlv|apply Hpre|].
    apply (ends_with_app _ (_ :: t)). by exists []. }
  unfold setConsumerState. wp_go. apply wp_Reconnect.
  - intros c' t1 Ht1 _ _ Hl. wp_go. eapply wp_mono; [|apply IH]. intros o s' t' Hpost.
    replace (Ev (CtxErr ctx) None :: t ++ _) with ((Ev (CtxErr ctx) None :: t ++ [Ev (CtxErr ctx) None] ++ t1) ++ t')
      by (simpl; by rewrite <-!app_assoc).
    eapply rounds_post_cons; [| | | |exact Hpost].
    + apply touched_step, touched_step. by left.
    + rewrite app_assoc. apply (cf_app (_ :: _)); [apply Hpre|by apply cf_conn].
    + intros live Hs. rewrite app_assoc, app_comm_cons, live_handles_app, Hlv. auto.
    + rewrite live_check_CtxErr. lia.
  - intros c' e' t1 Ht1 _ _ _ Hl. wp_go.
    assert (Hpost : forall r q, reconnect_verdict r q -> rounds_post ctx (S n) m idx c s (Returned (c', q))
        (store_state idx StateReconnecting s)
        ((Ev (CtxErr ctx) None :: t ++ [Ev (CtxErr ctx) None]) ++ t1 ++ [Ev (CtxErr ctx) r])).
    { intros r q Hq. by apply rounds_post_failed. }
    destruct b as [x|]; wp_go; tr_norm.
    + specialize (Hpost (Some x) (inl None) (ex_intro _ x eq_refl)). cbn [app] in Hpost.
      by rewrite <-!app_assoc in Hpost.
    + specialize (Hpost None (inl (Some e')) eq_refl). cbn [app] in Hpost.
      by rewrite <-!app_assoc in Hpost.
Qed.

Lemma touched_active idx s s' :
  touched idx (setActiveConns (activeConns s + 1) s) s' ->
  touched idx s (setActiveConns (activeConns s' - 1) s').
Proof.
  intros [->|[x ->]].
  - left. destruct s; simpl. f_equal. lia.
  - right. exists x. destruct s as [? ? ? ? ? ls]. unfold store_state, set_l_states. simpl.
    destruct ((0 <=? idx) && (idx <? Z.of_nat (length ls))); simpl; f_equal; lia.
Qed.

(** Everything of [runConsumer] but its last deferred function. *)
Definition body_post (ctx : Ctx) (n m : nat) (idx : Z) (s : ListenerState) (o : outcome error)
    (s' : ListenerState) (t : list event) : Prop :=
  match o with
  | Returned e =>
      touched idx s s' /\ live_handles ∅ t = ∅ /\ consumer_facts l f t /\
      match e with
      | None => exists x ev, ev ∈ t /\ saw_done ctx x ev
      | Some _ => last_seen ctx t = Some None
      end
  | NoFuel => (Nat.min n m <= count_events (live_check ctx) t)%nat
  | _ => False
  end.

Lemma wp_consumer_body ctx n m idx s :
  wp (consumer_body n m l ctx (user_handler f) idx) (body_post ctx n m idx s) s.
Proof.
  unfold consumer_body, setConsumerState, incConnActive, decConnActive. wp_go.
  destruct b as [x|]; wp_go.
  { split_and!; [by left|done|by apply cf_plain; repeat constructor|].
    exists x. eexists. split; [by left|apply saw_done_CtxErr]. }
  apply wp_newConnectionWithRetry.
  - intros c t Ht _ _ Hl. wp_go. eapply wp_mono; [|apply wp_consumer_rounds].
    intros o s1 t1 [Hts Ho]. destruct o as [[c' r]|v| | |]; try done; wp_go.
    2:{ unfold body_post. rewrite !count_events_app. lia. }
    destruct Ho as (Hl' & Hf & Hr). apply wp_conn_Close. intros e x _.
    assert (Hpost : forall q, r = inl q ->
      body_post ctx n m idx s (Returned q) (setActiveConns (activeConns s1 - 1) s1)
        (Ev (CtxErr ctx) None :: t ++ t1 ++ [Ev (Disc (conn_queueManager c')) x])).
    { intros q ->. split_and!.
      - cbn [fst snd] in Hts. apply touched_active in Hts. rewrite store_store in Hts.
        destruct Hts as [->|[y ->]]; [|rewrite store_store]; right; by eexists.
      - simpl. rewrite live_handles_app, Hl, live_handles_app. simpl.
        specialize (Hl' {[conn_queueManager c]}). set_solver.
      - apply (cf_app [_]); [by apply cf_plain; repeat constructor|].
        apply cf_app; [by apply cf_conn|]. apply cf_app; [done|by apply cf_plain; repeat constructor].
      - destruct q as [q|].
        + rewrite app_assoc, app_comm_cons. apply last_seen_live; [|done].
          by apply (ends_with_app _ (_ :: t)).
        + destruct Hr as (y & ev & Hin & Hy). exists y, ev. set_solver. }
    destruct r as [q|v]; [|done]. unfold raise. wp_go. tr_norm. by apply Hpost.
  - intros e t Ht Hfail Hl. wp_go.
    assert (Hcf : forall r, consumer_facts l f (Ev (CtxErr ctx) None :: t ++ [Ev (CtxErr ctx) r])).
    { intros r. apply (cf_app [_]); [by apply cf_plain; repeat constructor|].
      apply cf_app; [by apply cf_conn|by apply cf_plain; repeat constructor]. }
    destruct b as [x|]; wp_go; tr_norm.
    all: split_and!; [right; by eexists|simpl; by rewrite live_handles_app, Hl|by auto|].
    + exists x. eexists. split; [|apply saw_done_CtxErr]. set_solver.
    + rewrite <-(app_nil_r (_ :: _)). apply last_seen_live; [|done].
      apply (ends_with_app _ (_ :: t)). by exists [].
Qed.

(** Every run of a consumer, from any state of the listener. *)
Definition consumer_post (ctx : Ctx) (n m : nat) (idx : Z) (s : ListenerState) (o : outcome error)
    (s' : ListenerState) (t : list event) : Prop :=
  match o with
  | Returned e =>
      s' = store_state idx (match e with None => StateStopped | Some _ => StateFailed end) s /\
      (exists t1 t2, t = t1 ++ t2 /\ consumer_facts l f t1 /\ live_handles ∅ t1 = ∅ /\
         match e, l_onError l with
         | Some e, Some g => exists r, t2 = [Ev (UserCall g ctx None (Some e)) r]
         | _, _ => t2 = []
         end) /\
      match e with
      | None => exists x ev, ev ∈ t /\ saw_done ctx x ev
      | Some _ => last_seen ctx t = Some None
      end
  | NoFuel => (Nat.min n m <= count_events (live_check ctx) t)%nat
  | _ => False
  end.

Lemma last_seen_app c t t' :
  omap (ctx_observation c) t' = [] -> last_seen c (t ++ t') = last_seen c t.
Proof. intros Ht. unfold last_seen. by rewrite omap_app, Ht, app_nil_r. Qed.

Lemma wp_runConsumer ctx n m idx s :
  wp (runConsumer n m l ctx (user_handler f) idx) (consumer_post ctx n m idx s) s.
Proof.
  unfold runConsumer, try, setConsumerState, reportError. wp_go.
  eapply wp_mono; [|apply wp_consumer_body]. intros o s1 t Ho.
  destruct o as [[e|]|v| | |]; try done; wp_go; unfold raise.
  - destruct Ho as (Hts & Hl & Hf & Hs). unfold consumer_post.
    destruct (l_onError l) as [g|] eqn:Hg; wp_go; [destruct b|]; wp_go; rewrite !app_nil_r.
    all: cbn [fst snd]; rewrite (touched_store _ _ _ _ Hts); split; [done|].
    all: split; [|by rewrite ?last_seen_app].
    1,2: exists t; eexists; split_and!; [reflexivity|done|done|by eexists].
    exists t, []. by rewrite app_nil_r.
  - destruct Ho as (Hts & Hl & Hf & Hs). cbn [wp fst snd]. rewrite !app_nil_r.
    rewrite (touched_store _ _ _ _ Hts). split_and!; [done| |done].
    exists t, []. by rewrite app_nil_r.
Qed.

(** *** Starting a listener with no other goroutine around *)

(** What the consumers never touch. *)
Definition kept (s s' : ListenerState) : Prop :=
  l_mu s' = l_mu s /\ length (l_states s') = length (l_states s) /\ l_closed s' = l_closed s /\
  l_done s' = l_done s.

#[local] Instance kept_preorder : PreOrder kept.
Proof. split; [done|]. intros x y z (? & ? & ? & ?) (? & ? & ? & ?). unfold kept. intuition congruence. Qed.

Lemma stays_setConsumerState idx x : stays kept (setConsumerState idx x).
Proof. apply stays_modify. intros s. unfold store_state. case_goal; [|done]. by split_and!; [|apply length_insert|..]. Qed.

Lemma stays_consumer_rounds ctx m idx n c :
  stays kept (consumer_rounds n m l ctx c (user_handler f) idx).
Proof.
  revert c. induction n as [|n IH]; intros c; cbn [consumer_rounds]; [done|].
  apply stays_bind; [apply stays_lift, _|intros [x|]; [done|]].
  apply stays_bind; [apply stays_tbind; [apply stays_lift, _|done]|intros [[e|]|v]; [|done|done]].
  apply stays_bind; [apply stays_lift, _|intros [x|]; [done|]]. case_goal; [|done].
  apply stays_bind; [apply stays_setConsumerState|intros _].
  apply stays_bind; [apply stays_lift, _|intros [c' [e'|]]].
  - apply stays_bind; [apply stays_lift, _|by intros [x|]].
  - apply stays_bind; [apply stays_setConsumerState|auto].
Qed.

Lemma stays_consumer_goroutine ctx n m idx :
  stays kept (consumer_goroutine n m l ctx (user_handler f) idx).
Proof.
  unfold consumer_goroutine, runConsumer, consumer_body, incConnActive, decConnActive.
  apply stays_defer; [by apply stays_modify|]. apply stays_bind.
  - apply stays_bind; [apply stays_tbind; [|done]|intros [[e|]|v]].
    + apply stays_bind; [apply stays_lift, _|intros [x|]; [done|]].
      apply stays_bind; [apply stays_setConsumerState|intros _].
      apply stays_bind; [apply stays_lift, _|intros [c|e]].
      * apply stays_bind; [apply stays_setConsumerState|intros _].
        apply stays_bind; [by apply stays_modify|intros _].
        apply stays_bind; [apply stays_consumer_rounds|intros [c' r]].
        apply stays_bind; [by apply stays_modify|intros _].
        apply stays_bind; [apply stays_lift, _|intros _; by destruct r].
      * apply stays_bind; [apply stays_lift, _|by intros [x|]].
    + apply stays_bind; [apply stays_bind; [apply stays_setConsumerState|intros _; apply stays_lift, _]|done].
    + apply stays_bind; [apply stays_setConsumerState|done].
    + apply stays_bind; [apply stays_setConsumerState|done].
  - intros [e|]; [|done]. apply stays_select. intros s r. case_goal; [|by intros ?%not_elem_of_nil].
    by intros ->%list_elem_of_singleton.
Qed.

(** A consumer's goroutine never brings the process down. *)
Lemma wp_consumer_goroutine ctx n m idx s :
  wp (consumer_goroutine n m l ctx (user_handler f) idx) (fun o s' t =>
    match o with Panicked _ | Crashed _ => False | _ => kept s s' end) s.
Proof.
  apply (wp_mono _ (fun o s' t => match o with Panicked _ | Crashed _ => False | _ => True end /\ kept s s')).
  { intros o s' t [Ho Hk]. by destruct o. }
  apply (wp_stays kept (consumer_goroutine n m l ctx (user_handler f) idx) (stays_consumer_goroutine _ _ _ _)).
  unfold consumer_goroutine. wp_go. eapply wp_mono; [|apply wp_runConsumer].
  intros o s' t Ho. destruct o as [[e|]|v| | |]; try done; wp_go; try done.
Qed.

Lemma wp_spawn ctx n m k s :
  wp (spawn k n m l ctx (user_handler f)) (fun o s' t => o = Returned tt /\ kept s s') s.
Proof.
  revert s. induction k as [|k IH]; intros s; cbn [spawn]; [done|]. wp_go. cbn [bind tbind wp fst snd].
  eapply wp_mono; [|apply wp_consumer_goroutine]. intros o s1 t Ho.
  assert (Hk : forall s1 : ListenerState, kept s s1 -> wp (spawn k n m l ctx (user_handler f))
    (fun o s' t => o = Returned tt /\ kept s s') s1).
  { intros s2 Hs2. eapply wp_mono; [|apply IH]. intros ? s3 ? [? ?]. split; [done|by etrans]. }
  by destruct o; try contradiction; apply Hk.
Qed.

(** A Start on a listener no goroutine works on returns, or waits for its
    consumers; it never panics.  When it returns, the lock is free and no run is
    under way. *)
Lemma wp_Start ctx n m s :
  l_mu s = false -> l_done s <> Some false ->
  wp (Start n m l ctx (user_handler f)) (fun o s' t =>
    match o with
    | Returned e =>
        l_mu s' = false /\ l_done s' <> Some false /\ l_closed s' = l_closed s /\
        length (l_states s') = length (l_states s) /\ (l_closed s = true -> e = Some (ErrSentinel ErrClientClosed) /\ t = [] /\ s' = s)
    | Blocked => l_closed s = false
    | _ => False
    end) s.
Proof.
  intros Hmu Hd. unfold Start, lock_l, unlock_l. wp_go. apply wp_select; rewrite Hmu; [done|].
  intros ? ->%list_elem_of_singleton. cbn [fst snd]. wp_go. cbn [l_closed set_l_mu fst snd].
  destruct (l_closed s) eqn:Hc; wp_go.
  { split_and!; try done. intros _. split_and!; try done. destruct s; simpl in *; by subst. }
  cbn [l_started set_l_mu fst snd]. destruct (l_started s); wp_go; [done|].
  eapply wp_mono; [|apply wp_spawn]. intros o s1 t [-> (Hm1 & Hl1 & Hc1 & Hd1)].
  cbn [fst snd l_mu l_closed l_done set_l_mu set_l_done set_l_cancel set_l_started] in *. wp_go.
  apply wp_select; [done|]. intros r. case_goal; [|by intros ?%not_elem_of_nil].
  intros ->%list_elem_of_singleton. cbn [fst snd]. wp_go. simpl. split_and!; try done; congruence.
Qed.

End listener_lemmas.

(** ** Properties *)

Section listener_claims.
Context `{MQBinding} `{GoArch} {W : Type} (h : handler W).

(** The panic barrier.  Whatever the application's handler is and does, a
    call through invokeHandler makes the same calls, leaves the message alike and
    returns what the handler returns; a panic becomes an error that errors.Is
    recognises as ErrHandlerPanic. *)
Lemma invokeHandler_barrier ctx handler msg w :
  let d := run h (handler ctx msg) tt w in
  let r := run h (invokeHandler ctx handler msg) tt w in
  tr r = tr d /\
  match out d with
  | Returned (m, inl e) => out r = Returned (m, e)
  | Returned (m, inr v) => exists e, out r = Returned (m, Some e) /\ is_sentinel ErrHandlerPanic e = true
  | Panicked v => out r = Panicked v
  | NoFuel => out r = NoFuel
  | Blocked => out r = Blocked
  | Crashed v => out r = Crashed v
  end.
Proof.
  intros d r. unfold r, invokeHandler, bind. rewrite run_tbind. fold d.
  destruct (out d) as [[m [e|v]]|v| | |]; simpl; rewrite ?app_nil_r; eauto.
Qed.

(** C11: the life of a consumer.  For any broker, context, handler and error
    callback, a consumer never panics and never blocks; when it returns, its slot
    reads StateStopped after a nil result and StateFailed after an error, no other
    slot and nothing else of the listener has changed (the connection gauge is
    back to its value), no connection, queue handle or span is left open, and the
    error, if any, was reported to the callback exactly once. *)
Theorem runConsumer_lifecycle l f ctx n m idx st0 w :
  handler_ok h ->
  let r := run h (runConsumer n m l ctx (user_handler f) idx) st0 w in
  (out r = NoFuel \/ exists e, out r = Returned e) /\
  (forall e, out r = Returned e ->
     st r = store_state idx (match e with None => StateStopped | Some _ => StateFailed end) st0 /\
     live_handles ∅ (tr r) = ∅ /\
     omap opened_object (tr r) = omap closed_object (tr r) /\
     omap started_span (tr r) = omap ended_span (tr r) /\
     forall g, l_onError l = Some g -> omap (reported_exit g) (tr r) = option_list e).
Proof.
  intros Hh r. pose proof (wp_run h _ Hh _ st0 w (wp_runConsumer l f ctx n m idx st0)) as Hp.
  fold r in Hp. destruct (out r) as [e|v| | |]; try done; [|by split; [left|]].
  split; [by right; eexists|]. intros e' [= <-].
  destruct Hp as (Hst & (t1 & t2 & -> & [Hs Ho _ _ Hx] & Hl & Ht2) & _). split; [done|].
  assert (Hnil : omap started_span t2 = [] /\ omap ended_span t2 = [] /\ omap opened_object t2 = [] /\
    omap closed_object t2 = [] /\ live_handles ∅ t2 = ∅).
  { destruct e, (l_onError l); try by subst t2. by destruct Ht2 as [? ->]. }
  destruct Hnil as (Hs1 & Hs2 & Ho1 & Ho2 & Hl2).
  rewrite live_handles_app, Hl, Hl2, !omap_app, Hs1, Hs2, Ho1, Ho2, Hs, Ho. split_and!; try done.
  intros g Hg. rewrite omap_app, Hx. rewrite Hg in Ht2. destruct e as [e|]; [|by subst t2].
  destruct Ht2 as [? ->]. simpl. by rewrite decide_True.
Qed.

(** C12: message delivery.  When a consumer has returned, the messages handed to
    the handler are those MQGET delivered, each once and in order, and the error
    callback was told of each failure of the handler, an error or a panic, once
    and in order, with the message as the handler left it. *)
Theorem runConsumer_messages l f ctx n m idx st0 w e :
  handler_ok h ->
  let r := run h (runConsumer n m l ctx (user_handler f) idx) st0 w in
  out r = Returned e ->
  omap (handler_call f) (tr r) = omap received_message (tr r) /\
  (forall g, l_onError l = Some g -> omap (reported g) (tr r) = omap (handler_failure f) (tr r)).
Proof.
  intros Hh r Hr. pose proof (wp_run h _ Hh _ st0 w (wp_runConsumer l f ctx n m idx st0)) as Hp.
  fold r in Hp. rewrite Hr in Hp.
  destruct Hp as (_ & (t1 & t2 & -> & [_ _ Hc Hrep _] & _ & Ht2) & _).
  assert (Hnil : forall g, omap (handler_call f) t2 = [] /\ omap received_message t2 = [] /\
    omap (reported g) t2 = [] /\ omap (handler_failure f) t2 = []).
  { intros g. destruct e, (l_onError l); try by subst t2. by destruct Ht2 as [? ->]. }
  split.
  - destruct (Hnil 0%nat) as (H1 & H2 & _). by rewrite !omap_app, Hc, H1, H2.
  - intros g Hg. destruct (Hnil g) as (_ & _ & H3 & H4). by rewrite !omap_app, (Hrep g Hg), H3, H4.
Qed.

(** C13: shutdown is not an error.  Under the contract of context.Context (once
    done, always done) a consumer returns nil exactly when it has seen its context
    end: no cancellation surfaces as an error, and it never stops silently while
    the context is live. *)
Theorem runConsumer_cancellation l f ctx n m idx st0 w e :
  handler_ok h ->
  let r := run h (runConsumer n m l ctx (user_handler f) idx) st0 w in
  ctx_monotone ctx (tr r) -> out r = Returned e ->
  (e = None <-> exists x ev, ev ∈ tr r /\ saw_done ctx x ev).
Proof.
  intros Hh r Hm Hr. pose proof (wp_run h _ Hh _ st0 w (wp_runConsumer l f ctx n m idx st0)) as Hp.
  fold r in Hp. rewrite Hr in Hp. destruct Hp as (_ & _ & Hp). destruct e as [e|]; [|done].
  split; [done|]. intros (x & ev & Hin & Hx). by destruct (ctx_monotone_live ctx _ Hm Hp x ev Hin).
Qed.

(** C14: a consumer returns.  If the context is found live fewer times than the
    fuel of the two loops, the consumer has returned: it stops at the latest one
    poll after its context ends. *)
Theorem runConsumer_returns l f ctx n m idx st0 w :
  handler_ok h ->
  let r := run h (runConsumer n m l ctx (user_handler f) idx) st0 w in
  (count_events (live_check ctx) (tr r) < Nat.min n m)%nat -> exists e, out r = Returned e.
Proof.
  intros Hh r Hc. pose proof (wp_run h _ Hh _ st0 w (wp_runConsumer l f ctx n m idx st0)) as Hp.
  fold r in Hp. destruct (out r) as [e|v| | |]; try done; [eauto|]. unfold consumer_post in Hp. lia.
Qed.

End listener_claims.

(** *** Witnesses: one message whose handler panics, an empty poll, then shutdown *)

Definition sample_listener : Listener :=
  mkListener readme_config "DEV.QUEUE.1" 1 2 QueueOptions_zero (mkTelemetry 0 NoopTextMapPropagator 1 2 3 4)
    (Some 9%nat).

Definition one_message : script :=
  mkScript [None; None; None; None; None; Some Canceled] [] [] [] [] []
    [inl (sample_mqmd, [x68; x69]); inr (ErrMQ (mkMQReturn 2 2033))] [UserPanics (messageFromMQMD sample_mqmd [x68]) 7] 30.

Definition sample_run (n m : nat) : result ListenerState script error :=
  run scripted (@runConsumer ibm_binding amd64 n m sample_listener 0 (user_handler 8) 0)
    (initStates sample_listener) one_message.

Lemma sample_run_returns : out (sample_run 4 4) = Returned None.
Proof. vm_compute. reflexivity. Qed.

Lemma runConsumer_lifecycle_witness :
  l_states (st (sample_run 4 4)) = [StateStopped] /\ live_handles ∅ (tr (sample_run 4 4)) = ∅ /\
  count_events is_Connx (tr (sample_run 4 4)) = 1%nat.
Proof.
  destruct (proj2 (@runConsumer_lifecycle ibm_binding amd64 script scripted sample_listener 8 0 4 4 0
    (initStates sample_listener) one_message scripted_ok) None sample_run_returns) as (Hst & Hl & _).
  split; [|split; [exact Hl|vm_compute; reflexivity]].
  exact (f_equal l_states Hst).
Defined.

Lemma runConsumer_messages_witness :
  omap (handler_call 8) (tr (sample_run 4 4)) = [messageFromMQMD sample_mqmd [x68; x69]] /\
  omap (reported 9) (tr (sample_run 4 4))
    = [(messageFromMQMD sample_mqmd [x68], panic_error 7)].
Proof.
  destruct (@runConsumer_messages ibm_binding amd64 script scripted sample_listener 8 0 4 4 0
    (initStates sample_listener) one_message None scripted_ok sample_run_returns) as [Hc Hr].
  split; [exact (eq_trans Hc eq_refl)|exact (eq_trans (Hr 9%nat eq_refl) eq_refl)].
Defined.

Lemma runConsumer_cancellation_witness :
  exists x ev, ev ∈ tr (sample_run 4 4) /\ saw_done 0 x ev.
Proof.
  apply (proj1 (@runConsumer_cancellation ibm_binding amd64 script scripted sample_listener 8 0 4 4 0
    (initStates sample_listener) one_message None scripted_ok
    ltac:(vm_compute; repeat split) sample_run_returns)). reflexivity.
Defined.

Lemma runConsumer_returns_witness : exists e, out (sample_run 7 7) = Returned e.
Proof.
  apply (@runConsumer_returns ibm_binding amd64 script scripted sample_listener 8 0 7 7 0
    (initStates sample_listener) one_message scripted_ok). vm_compute. lia.
Defined.
