(* ===== verification/RequestReply.v ===== *)
(** * Request-reply

    src/mq/request_reply_tmp.go (the client and the temporary-queue flow) and
    src/mq/request_reply_fixed.go (the fixed reply queue with correlation).  A
    call owns its connection, so both flows are sequences of MQI calls. *)

From Stdlib Require Import ZArith Lia Strings.Byte.
From stdpp Require Import base list option strings gmap sets numbers.
From S2P Require Import Prelude GoErrors Float64 Hex Config Mqi GoProg Script Backoff Connection.
From S2P Require Import Telemetry Wire.

Local Open Scope Z_scope.
Local Open Scope go_scope.

Record RequestReplyClient := mkRRClient {
  rr_cfg : Config;
  rr_requestQueue : string;
  rr_replyQueue : string;
  rr_mode : RequestReplyMode;
  rr_tel : mqTelemetry
}.

Record RRState := mkRRState {
  rr_closed : bool;
  rr_state : ConnectionState;
  rr_lastErr : error
}.

Definition RRState_init : RRState := mkRRState false StateUnknown None.

(** [RROption]. *)
Definition RROption : Type := RequestReplyClient -> RequestReplyClient.

Definition WithRRReplyQueue (queue : string) (r : RequestReplyClient) : RequestReplyClient :=
  if decide (rr_mode r = FixedQueueSelector)
  then mkRRClient (rr_cfg r) (rr_requestQueue r) queue (rr_mode r) (rr_tel r) else r.

(** [recordState] and [Close]. *)
Definition recordState (x : ConnectionState) (e : error) : prog RRState unit :=
  modify (fun s => mkRRState (rr_closed s) x e).

Definition RR_Close : prog RRState error :=
  modify (fun s => mkRRState true (rr_state s) (rr_lastErr s)) ;;; Ret None.

Section request_reply.
Context `{MQBinding}.

Definition get_options : Z := Z.lor MQGMO_WAIT MQGMO_NO_SYNCPOINT.

Definition rr_buffer : Z := 4 * 1024 * 1024.

(** [&Message{ReplyToQueue: ..., UserProperties: make(map...)}]. *)
Definition request_message (correlID replyQueue : string) : Message :=
  mkMessage "" correlID replyQueue "" [] (Some ∅) 0.

(** The reply of the temporary-queue flow: no property map. *)
Definition temp_reply (md : MQMD) (data : list byte) : Message :=
  mkMessage (EncodeToString (MsgId md)) (EncodeToString (CorrelId md)) (ReplyToQ md) (ReplyToQMgr md)
    data None 0.

(** The steps both flows share once the reply queue is open and the message
    built: open the request queue, put, and wait for the reply. *)
Definition exchange (cfg : Config) (hConn : MQQueueManager) (requestQueue : string)
    (replyQObj : MQObject) (md : MQMD) (body : list byte) (getMD : MQMD) (getGMO : MQGMO)
    (put_text : text) (get_text : text) (reply : MQMD -> list byte -> Message)
    : io (option Message * error) :=
  do! r <- call (MQOpen hConn (queue_od requestQueue) output_options);
  match r with
  | inr e =>
      Ret (None, Some (open_error [Lit "commons-mq-go: failed to open request queue ";
                                   Quoted requestQueue; Lit ": "] e))
  | inl (reqQObj, _) =>
      defer (call (MQClose reqQObj 0) ;;; Ret tt)
        (do! r <- call (MQPut reqQObj md put_mqpmo body);
         match r with
         | inr e => Ret (None, Some (open_error put_text e))
         | inl _ =>
             do! r <- call (GetSlice replyQObj getMD getGMO rr_buffer);
             match r with
             | inr e =>
                 if IsEmptyQueueError (Some e) then Ret (None, Some (ErrSentinel ErrTimeout))
                 else Ret (None, Some (open_error get_text e))
             | inl (got, data) => Ret (Some (reply got data), None)
             end
         end)
  end.

(** [requestReplyViaTempQueue]. *)
Definition requestReplyViaTempQueue (conn : connection) (requestQueue modelQueue : string)
    (creator : MessageCreator) (timeout : Z) : io (option Message * error) :=
  let cfg := conn_config conn in
  let hConn := conn_QueueManager conn in
  do! r <- call (MQOpen hConn (mkMQOD modelQueue "AMQ.*")
                   (Z.lor MQOO_INPUT_EXCLUSIVE MQOO_FAIL_IF_QUIESCING));
  match r with
  | inr e =>
      Ret (None, Some (open_error [Lit "commons-mq-go: failed to open temporary reply queue: "] e))
  | inl (replyQObj, od) =>
      defer (call (MQClose replyQObj 0) ;;; Ret tt)
        (let replyQueueName := ObjectName od in
         do! '(msg, e) <- creator (request_message "" replyQueueName);
         match e with
         | Some e => Ret (None, Some (creator_error e))
         | None =>
             exchange cfg hConn requestQueue replyQObj
               (request_mqmd cfg msg replyQueueName
                  (apply_correl (CorrelationID msg) (CorrelId NewMQMD)))
               (Body msg) NewMQMD
               (mkMQGMO get_options (MatchOptions NewMQGMO) (wait_ms timeout))
               [Lit "commons-mq-go: failed to put request message to queue "; Quoted requestQueue; Lit ": "]
               [Lit "commons-mq-go: failed to receive reply message: "] temp_reply
         end)
  end.

(** The correlation bytes of a fixed-queue request: the random ones, unless the
    creator leaves a correlation ID, which must then decode to at most 24 bytes. *)
Definition fixed_correl (random : list byte) (id : string) : list byte + err :=
  if String.eqb id "" then inl random else
  match DecodeString id with
  | Some decoded =>
      if Nat.leb (length decoded) 24 then inl (copy_bytes (repeat x00 24) decoded)
      else inr (ErrNew [Lit "commons-mq-go: invalid correlation ID "; Quoted id;
        Lit ": must be an even-length hex string of at most "; Num 48; Lit " characters"])
  | None => inr (ErrNew [Lit "commons-mq-go: invalid correlation ID "; Quoted id;
        Lit ": must be an even-length hex string of at most "; Num 48; Lit " characters"])
  end.

(** [requestReplyViaFixedQueue]. *)
Definition requestReplyViaFixedQueue (conn : connection) (requestQueue replyQueue : string)
    (creator : MessageCreator) (timeout : Z) : io (option Message * error) :=
  let cfg := conn_config conn in
  let hConn := conn_QueueManager conn in
  do! r <- call (RandRead 24);
  match r with
  | inr e => Ret (None, Some (wrapf [Lit "commons-mq-go: failed to generate correlation ID: "] (Some e)))
  | inl random =>
      do! '(msg, e) <- creator (request_message (EncodeToString random) replyQueue);
      match e with
      | Some e => Ret (None, Some (creator_error e))
      | None =>
          match fixed_correl random (CorrelationID msg) with
          | inr e => Ret (None, Some e)
          | inl correlBytes =>
              do! r <- call (MQOpen hConn (queue_od replyQueue)
                               (Z.lor MQOO_INPUT_SHARED MQOO_FAIL_IF_QUIESCING));
              match r with
              | inr e =>
                  Ret (None, Some (open_error [Lit "commons-mq-go: failed to open fixed reply queue ";
                                               Quoted replyQueue; Lit ": "] e))
              | inl (replyQObj, _) =>
                  defer (call (MQClose replyQObj 0) ;;; Ret tt)
                    (exchange cfg hConn requestQueue replyQObj
                       (request_mqmd cfg msg replyQueue (copy_bytes (CorrelId NewMQMD) correlBytes))
                       (Body msg)
                       (mkMQMD (MsgId NewMQMD) (copy_bytes (CorrelId NewMQMD) correlBytes)
                          (ReplyToQ NewMQMD) (ReplyToQMgr NewMQMD) (Expiry NewMQMD))
                       (mkMQGMO get_options MQMO_MATCH_CORREL_ID (wait_ms timeout))
                       [Lit "commons-mq-go: failed to put request to queue "; Quoted requestQueue; Lit ": "]
                       [Lit "commons-mq-go: failed to receive fixed-queue reply: "] messageFromMQMD)
              end
          end
      end
  end.

(** The flow a client's mode selects. *)
Definition flow (r : RequestReplyClient) (conn : connection) (creator : MessageCreator) (timeout : Z)
    : io (option Message * error) :=
  match rr_mode r with
  | FixedQueueSelector =>
      requestReplyViaFixedQueue conn (rr_requestQueue r) (rr_replyQueue r) creator timeout
  | TemporaryQueue =>
      requestReplyViaTempQueue conn (rr_requestQueue r) (ModelQueue (rr_cfg r)) creator timeout
  end.

(** The state a finished flow leaves: a timeout or a non-connection error means
    the connection itself worked. *)
Definition flow_state (e : error) : ConnectionState * error :=
  match e with
  | Some x =>
      if is_sentinel ErrTimeout x || negb (IsConnectionError e) then (StateConnected, None)
      else (StateFailed, e)
  | None => (StateConnected, None)
  end.

(** The body of RequestReplyWithCreator past its guards. *)
Definition call_admitted (r : RequestReplyClient) (ctx : Ctx) (creator : option MessageCreator)
    (timeout : Z) : prog RRState (option Message * error) :=
  do! '(spanCtx, span) <- lift (startClientSpan (rr_tel r) ctx (rr_requestQueue r));
  defer (lift (call (SpanEnd span)))
    (do! c <- lift (newConnection (rr_cfg r));
     match c with
     | inr e =>
         recordState StateFailed (Some e) ;;;
         lift (call (SpanRecordError span e)) ;;;
         Ret (None, Some e)
     | inl conn =>
         defer (lift (conn_Close conn) ;;; Ret tt)
           (do! '(reply, e) <- lift (flow r conn (wrap_creator (rr_tel r) spanCtx creator) timeout);
            lift (match e with Some x => call (SpanRecordError span x) | None => Ret tt end) ;;;
            recordState (flow_state e).1 (flow_state e).2 ;;;
            Ret (reply, e))
     end).

(** [RequestReplyClient.RequestReplyWithCreator]. *)
Definition RequestReplyWithCreator (r : RequestReplyClient) (ctx : Ctx)
    (creator : option MessageCreator) (timeout : Z) : prog RRState (option Message * error) :=
  do! e <- lift (call (CtxErr ctx));
  match e with
  | Some x => Ret (None, Some (ErrCtx x))
  | None =>
      do! closed <- reads rr_closed;
      if closed : bool then Ret (None, Some (ErrSentinel ErrClientClosed))
      else call_admitted r ctx creator timeout
  end.

(** [RequestReplyClient.RequestReply]. *)
Definition RequestReply (r : RequestReplyClient) (ctx : Ctx) (payload : string) (timeout : Z)
    : prog RRState (option Message * error) :=
  RequestReplyWithCreator r ctx (Some (body_creator payload)) timeout.

(** ** Properties of a flow *)

(** How a GET that found nothing shows in a trace. *)
Definition get_empty (ev : event) : bool :=
  match ev with
  | Ev e b => match e in ext B return B -> bool with
              | GetSlice _ _ _ _ => fun r => match r with
                                             | inr x => IsEmptyQueueError (Some x)
                                             | inl _ => false
                                             end
              | _ => fun _ => false
              end b
  end.

(** An event that is neither an observation of a context, nor a span event, nor a
    connect or disconnect. *)
Definition inner_event (ev : event) : bool :=
  match ev with
  | Ev e _ => match e with
              | CtxErr _ | SleepOrDone _ _ | SpanStart _ _ _ _ _ | SpanEnd _ | Connx _ _ | Disc _ => false
              | _ => true
              end
  end.

(** A reply made by [reply] out of what MQGET delivered. *)
Definition answered (reply : MQMD -> list byte -> Message) (m : Message) (t : list event) : Prop :=
  exists md data, (md, data) ∈ omap received t /\ m = reply md data.

(** What every run of a flow leaves: the queues closed in the reverse of the
    order they were opened, at most one request and one wait, the wait only after
    the request; and a result that is a reply, or an error and no reply, ErrTimeout
    standing for an empty reply queue. *)
Record flow_post (reply : MQMD -> list byte -> Message) (o : outcome (option Message * error))
    (t : list event) : Prop := {
  fl_inner : Forall (fun ev => inner_event ev = true) t;
  fl_objects : omap closed_object t = reverse (omap opened_object t);
  fl_once : (length (omap get_request t) <= length (omap put_request t) <= 1)%nat;
  fl_out :
    match o with
    | Returned (Some m, None) => answered reply m t /\ count_events get_empty t = 0%nat
    | Returned (None, Some e) => (e = ErrSentinel ErrTimeout <-> count_events get_empty t = 1%nat)
    | Panicked _ => omap put_request t = []
    | _ => False
    end
}.

(** Events of a flow's own computations: callbacks and randomness. *)
Definition idle_event (ev : event) : bool :=
  match ev with
  | Ev e _ => match e with UserCall _ _ _ _ | PropInject _ _ _ | RandRead _ => true | _ => false end
  end.

Lemma idle_app t :
  Forall (fun ev => app_event ev = true) t -> Forall (fun ev => idle_event ev = true) t.
Proof. apply Forall_impl. intros [B e b]. by destruct e. Qed.

Lemma inner_app_events t :
  Forall (fun ev => idle_event ev = true) t ->
  Forall (fun ev => inner_event ev = true) t /\ omap closed_object t = [] /\ omap opened_object t = [] /\
  omap get_request t = [] /\ omap put_request t = [] /\ omap received t = [] /\
  count_events get_empty t = 0%nat.
Proof.
  induction 1 as [|[B e b] t He Ht (? & ? & ? & ? & ? & ? & ?)]; [done|].
  destruct e; try discriminate; split_and!; try done; by constructor.
Qed.

(** The trace and the result of the common exchange on an open reply queue. *)
Lemma wp_exchange cfg hc q ro md body gmd gmo pt gt reply
    (Q : outcome (option Message * error) -> unit -> list event -> Prop) s :
  (forall o t, flow_post reply o t -> (exists r, o = Returned r) ->
     (forall p, p ∈ omap put_request t -> p = (md, body)) ->
     (forall g, g ∈ omap get_request t -> g = (gmd, gmo)) -> Q o s t) ->
  wp (exchange cfg hc q ro md body gmd gmo pt gt reply) Q s.
Proof.
  intros HQ. unfold exchange. wp_go. destruct b as [[o od]|e]; wp_go.
  2:{ apply HQ; [|by eexists|set_solver..]. split; [by repeat constructor|done|simpl; lia|done]. }
  destruct b as [md'|e]; wp_go.
  2:{ apply HQ; [|by eexists|set_solver..]. split; [by repeat constructor|done|simpl; lia|done]. }
  destruct b as [[got data]|e]; wp_go.
  - apply HQ; [|by eexists|set_solver..]. split; [by repeat constructor|done|simpl; lia|].
    split; [|done]. exists got, data. set_solver.
  - destruct (IsEmptyQueueError (Some e)) eqn:He; wp_go.
    all: apply HQ; [|by eexists|set_solver..]; split; [by repeat constructor|done|simpl; lia|simpl; rewrite He; done].
Qed.

(** Events before a flow that open, put and get nothing. *)
Lemma flow_post_after reply o pre t :
  Forall (fun ev => idle_event ev = true) pre -> flow_post reply o t -> flow_post reply o (pre ++ t).
Proof.
  intros (Hi & Hc & Ho & Hg & Hp & Hr & He)%inner_app_events [Hi' Ho' H1 Hout].
  split; rewrite ?omap_app, ?Hc, ?Ho, ?Hg, ?Hp; auto using Forall_app_2.
  destruct o as [[[m|] [e|]]|v| | |]; try done; unfold answered in *;
    rewrite ?omap_app, ?count_events_app, ?Hr, ?Hp, ?He; done.
Qed.

(** A flow inside an open queue. *)
Lemma flow_post_around reply o hc od opts q od' x t :
  flow_post reply o t ->
  flow_post reply o (Ev (MQOpen hc od opts) (inl (q, od')) :: t ++ [Ev (MQClose q 0) x]).
Proof.
  intros [Hi Ho H1 Hout].
  assert (Hn : count_events get_empty (Ev (MQOpen hc od opts) (inl (q, od')) :: t ++ [Ev (MQClose q 0) x])
    = count_events get_empty t).
  { rewrite app_comm_cons, count_events_app. apply (Nat.add_0_r (count_events get_empty t)). }
  split.
  - constructor; [done|]. by apply Forall_app_2; [|repeat constructor].
  - rewrite !omap_cons, !omap_app, !omap_cons. simpl. by rewrite app_nil_r, Ho, reverse_cons.
  - rewrite !omap_cons, !omap_app, !omap_cons. simpl. by rewrite !app_nil_r.
  - destruct o as [[[m|] [e|]]|v| | |]; try done; rewrite ?Hn; auto.
    + destruct Hout as [(md & data & Hin & ->) ?]. split; [|done]. exists md, data.
      split; [|done]. rewrite omap_cons, omap_app. set_solver.
    + rewrite omap_cons, omap_app, Hout. done.
Qed.

(** A flow that ends before its request. *)
Lemma flow_post_early reply o t :
  Forall (fun ev => idle_event ev = true) t ->
  ((exists e, o = Returned (None, Some e) /\ e <> ErrSentinel ErrTimeout) \/ (exists v, o = Panicked v)) ->
  flow_post reply o t.
Proof.
  intros (Hi & Hc & Ho & Hg & Hp & Hr & He)%inner_app_events Hout.
  split; rewrite ?Hc, ?Ho, ?Hg, ?Hp; try done; [simpl; lia|].
  destruct Hout as [(e & -> & Hne)|(v & ->)]; [|done]. rewrite He. done.
Qed.

Lemma flow_post_failed reply e ev :
  inner_event ev = true -> omap opened_object [ev] = [] -> omap closed_object [ev] = [] ->
  omap put_request [ev] = [] -> omap get_request [ev] = [] -> get_empty ev = false ->
  e <> ErrSentinel ErrTimeout -> flow_post reply (Returned (None, Some e)) [ev].
Proof.
  intros Hi Ho Hc Hp Hg He Hne. split; rewrite ?Ho, ?Hc, ?Hp, ?Hg; [by repeat constructor|done|simpl; lia|].
  simpl. rewrite He. simpl. done.
Qed.

Lemma wp_temp conn rq model creator timeout s :
  creator_ok creator ->
  wp (requestReplyViaTempQueue conn rq model creator timeout) (fun o _ t => flow_post temp_reply o t) s.
Proof.
  intros Hc. unfold requestReplyViaTempQueue. wp_go. destruct b as [[q od]|e]; wp_go.
  2:{ by apply flow_post_failed. }
  eapply wp_mono; [|apply (cr_wp _ Hc)].
  intros o [] t [Ht%idle_app [[[m e] ->]|[v ->]]]; wp_go; [destruct e as [e|]; wp_go|].
  - rewrite !app_nil_r. apply flow_post_around, flow_post_early; [done|left; eauto].
  - apply wp_exchange. intros o t' Hf [r ->] _ _. wp_go. rewrite !app_nil_r. apply flow_post_around.
    by apply flow_post_after.
  - rewrite !app_nil_r. apply flow_post_around, flow_post_early; [done|right; eauto].
Qed.

(** How a fixed-queue wait is correlated: it matches on the CorrelId of the
    request just put, which names the reply queue. *)
Definition correlated (replyQueue : string) (t : list event) : Prop :=
  forall gmd gmo, (gmd, gmo) ∈ omap get_request t ->
    MatchOptions gmo = MQMO_MATCH_CORREL_ID /\ length (CorrelId gmd) = length (CorrelId NewMQMD) /\
    exists pmd body, omap put_request t = [(pmd, body)] /\ CorrelId pmd = CorrelId gmd /\
      ReplyToQ pmd = replyQueue.

Lemma fixed_correl_err random id e : fixed_correl random id = inr e -> e <> ErrSentinel ErrTimeout.
Proof. unfold fixed_correl. repeat case_goal; congruence. Qed.

Lemma wp_fixed conn rq replyQ creator timeout s :
  creator_ok creator ->
  wp (requestReplyViaFixedQueue conn rq replyQ creator timeout) (fun o _ t =>
    flow_post messageFromMQMD o t /\ correlated replyQ t) s.
Proof.
  intros Hc. unfold requestReplyViaFixedQueue. wp_go. destruct b as [random|e]; wp_go.
  2:{ split; [by apply flow_post_failed|]. intros ? ? ?. set_solver. }
  eapply wp_mono; [|apply (cr_wp _ Hc)].
  intros o [] t [Ht%idle_app Ho].
  assert (Hpre : Forall (fun ev => idle_event ev = true) (Ev (RandRead 24) (inl random) :: t))
    by by constructor.
  pose proof (inner_app_events _ Hpre) as (_ & _ & _ & Hg & Hp & _).
  assert (Hno : correlated replyQ (Ev (RandRead 24) (inl random) :: t)).
  { intros gmd gmo. rewrite Hg. set_solver. }
  destruct Ho as [[[m e] ->]|[v ->]]; wp_go; [destruct e as [e|]; wp_go|].
  2: destruct (fixed_correl random (CorrelationID m)) as [bs|e] eqn:Hbs; wp_go;
    [destruct b as [[q od]|e]; wp_go|].
  - rewrite !app_nil_r. split; [apply flow_post_early; [done|eauto]|by apply Hno].
  - apply wp_exchange. intros o t' Hf [r ->] Hput Hget. wp_go. tr_norm. rewrite app_comm_cons.
    split; [by apply flow_post_after, flow_post_around|].
    intros gmd gmo. rewrite !omap_app, Hg, Hp, !omap_cons, !omap_app, !omap_cons. simpl.
    rewrite !app_nil_r. intros Hin. pose proof (Hget _ Hin) as [= -> ->]. split; [done|]. split; [apply copy_bytes_length|].
    pose proof (fl_once _ _ _ Hf) as Honce.
    destruct (omap put_request t') as [|p [|p' l]] eqn:Ep; simpl in Honce; try lia.
    + destruct (omap get_request t'); [set_solver|simpl in Honce; lia].
    + exists (request_mqmd (conn_config conn) m replyQ (copy_bytes (CorrelId NewMQMD) bs)), (Body m).
      rewrite <-(Hput p) by set_solver. done.
  - tr_norm. rewrite app_comm_cons. split.
    + by apply flow_post_after, flow_post_failed.
    + intros gmd gmo. rewrite omap_app, Hg. set_solver.
  - rewrite !app_nil_r. split; [apply flow_post_early; [done|]|by apply Hno].
    left. exists e. split; [done|]. by eapply fixed_correl_err.
  - rewrite !app_nil_r. split; [apply flow_post_early; [done|eauto]|by apply Hno].
Qed.

(** The reply constructor of each mode. *)
Definition reply_of (r : RequestReplyClient) : MQMD -> list byte -> Message :=
  match rr_mode r with FixedQueueSelector => messageFromMQMD | TemporaryQueue => temp_reply end.

Lemma wp_flow r conn creator timeout s :
  creator_ok creator ->
  wp (flow r conn creator timeout) (fun o _ t =>
    flow_post (reply_of r) o t /\ (rr_mode r = FixedQueueSelector -> correlated (rr_replyQueue r) t)) s.
Proof.
  intros Hc. unfold flow, reply_of. destruct (rr_mode r).
  - eapply wp_mono; [|by apply wp_temp]. done.
  - eapply wp_mono; [|by apply wp_fixed]. intros o s' t [? ?]. done.
Qed.

(** A call past its two guards, its context check excluded. *)
Record call_post (r : RequestReplyClient) (st : RRState) (o : outcome (option Message * error))
    (st' : RRState) (t : list event) : Prop := {
  ca_objects : omap closed_object t = reverse (omap opened_object t);
  ca_handles : live_handles ∅ t = ∅;
  ca_spans : omap started_span t = omap ended_span t;
  ca_ctx : forall c, omap (ctx_observation c) t = [];
  ca_once : (length (omap get_request t) <= length (omap put_request t) <= 1)%nat;
  ca_correlated : rr_mode r = FixedQueueSelector -> correlated (rr_replyQueue r) t;
  ca_out :
    match o with
    | Returned (Some m, None) =>
        answered (reply_of r) m t /\ st' = mkRRState (rr_closed st) StateConnected None
    | Returned (None, Some e) =>
        (e = ErrSentinel ErrTimeout <-> count_events get_empty t = 1%nat) /\
        (st' = mkRRState (rr_closed st) (flow_state (Some e)).1 (flow_state (Some e)).2 \/
         exists e0, e = dial_error (rr_cfg r) e0 /\ st' = mkRRState (rr_closed st) StateFailed (Some e))
    | Panicked _ => st' = st /\ omap put_request t = []
    | _ => False
    end
}.

Lemma inner_events t :
  Forall (fun ev => inner_event ev = true) t ->
  omap started_span t = [] /\ omap ended_span t = [] /\ (forall c, omap (ctx_observation c) t = []) /\
  (forall live, live_handles live t = live).
Proof.
  induction 1 as [|[B e b] t He Ht (? & ? & ? & ?)]; [done|].
  destruct e; try discriminate; split_and!; done.
Qed.

Ltac call_proj :=
  rewrite ?omap_cons, ?omap_app, ?omap_cons; simpl; rewrite ?app_nil_r.

(** The events of a call around those of its flow. *)
Lemma call_post_flow r st o st' t tr c nm k at_ sc sp qm cno h y z mid :
  flow_post (reply_of r) o t -> (rr_mode r = FixedQueueSelector -> correlated (rr_replyQueue r) t) ->
  match o with
  | Returned (m, e) => st' = mkRRState (rr_closed st) (flow_state e).1 (flow_state e).2
  | _ => st' = st
  end ->
  (mid = [] \/ exists u v, mid = [Ev (SpanRecordError sp u) v]) ->
  call_post r st o st' (Ev (SpanStart tr c nm k at_) (sc, sp) :: Ev (Connx qm cno) (inl h) ::
                        t ++ mid ++ [Ev (Disc h) y; Ev (SpanEnd sp) z]).
Proof.
  intros [Hi Ho H1 Hout] Hcor Hst Hmid. pose proof (inner_events t Hi) as (Hs & He & Hx & Hl).
  set (post := mid ++ [Ev (Disc h) y; Ev (SpanEnd sp) z]).
  assert (Hpost : omap started_span post = [] /\ omap ended_span post = [sp] /\
    omap opened_object post = [] /\ omap closed_object post = [] /\ omap get_request post = [] /\
    omap put_request post = [] /\ (forall c, omap (ctx_observation c) post = []) /\
    (forall live, live_handles live post = live ∖ {[h]}) /\ count_events get_empty post = 0%nat).
  { subst post. destruct Hmid as [->|(u & v & ->)]; split_and!; done. }
  destruct Hpost as (P1 & P2 & P3 & P4 & P5 & P6 & P7 & P8 & P9).
  assert (Hn : count_events get_empty (Ev (SpanStart tr c nm k at_) (sc, sp) ::
    Ev (Connx qm cno) (inl h) :: t ++ post) = count_events get_empty t).
  { rewrite !app_comm_cons, count_events_app, P9. apply Nat.add_0_r. }
  split; rewrite ?Hn.
  - call_proj. by rewrite P3, P4, !app_nil_r.
  - simpl. rewrite live_handles_app, Hl, P8. set_solver.
  - call_proj. by rewrite Hs, He, P1, P2.
  - intros c'. call_proj. by rewrite Hx, P7.
  - call_proj. by rewrite P5, P6, !app_nil_r.
  - intros Hm gmd gmo. call_proj. rewrite P5, P6, !app_nil_r. by apply Hcor.
  - destruct o as [[[m|] [e|]]|v| | |]; try done.
    + destruct Hout as [(md & data & Hin & ->) _]. split; [|done]. exists md, data. split; [|done].
      call_proj. set_solver.
    + split; [done|]. by left.
    + split; [done|]. call_proj. by rewrite Hout, P6.
Qed.

Lemma wp_call_admitted r ctx creator timeout st :
  (forall f, creator = Some f -> creator_ok f) ->
  wp (call_admitted r ctx creator timeout) (call_post r st) st.
Proof.
  intros Hf. unfold call_admitted, startClientSpan, newConnection, recordState. wp_go.
  destruct b as [spanCtx span]. wp_go. apply wp_dial; [intros e|intros q]; wp_go.
  { split; try done; [simpl; lia|by intros _ ? ? ?; set_solver|]. split; [done|]. right. by exists e. }
  eapply wp_mono; [|by apply wp_flow, creator_ok_wrap].
  intros o [] t [Hfl Hcor]. pose proof (fl_out _ _ _ Hfl) as Hout.
  destruct o as [[[m|] [e|]]|v| | |]; try done; wp_go; apply wp_conn_Close; intros e' x _; wp_go; tr_norm.
  - apply (call_post_flow r st _ _ t _ _ _ _ _ _ _ _ _ _ _ _ []); auto.
  - apply (call_post_flow r st _ _ t _ _ _ _ _ _ _ _ _ _ _ _ [_]); eauto.
  - apply (call_post_flow r st _ _ t _ _ _ _ _ _ _ _ _ _ _ _ []); auto.
Qed.

(** The three ways a call goes. *)
Lemma wp_RequestReply r ctx creator timeout st :
  (forall f, creator = Some f -> creator_ok f) ->
  wp (RequestReplyWithCreator r ctx creator timeout) (fun o st' t =>
    (exists x, o = Returned (None, Some (ErrCtx x)) /\ st' = st /\ t = [Ev (CtxErr ctx) (Some x)]) \/
    (rr_closed st = true /\ o = Returned (None, Some (ErrSentinel ErrClientClosed)) /\ st' = st /\
       t = [Ev (CtxErr ctx) None]) \/
    (rr_closed st = false /\ exists t', t = Ev (CtxErr ctx) None :: t' /\ call_post r st o st' t')) st.
Proof.
  intros Hf. unfold RequestReplyWithCreator. wp_go. destruct b as [x|]; wp_go; [by left; eauto|].
  destruct (rr_closed st) eqn:Hc; cbn [fst snd]; wp_go; [by right; left|].
  eapply wp_mono; [|by apply wp_call_admitted]. intros o st' t Ho. right; right. eauto.
Qed.

(** In fixed-queue mode a wait is for the request just put. *)
Lemma run_correlated `{!CorrelId24} {W} (h : handler W) r ctx creator timeout st0 w gmd gmo :
  (forall f, creator = Some f -> creator_ok f) -> handler_ok h -> rr_mode r = FixedQueueSelector ->
  let x := run h (RequestReplyWithCreator r ctx creator timeout) st0 w in
  (gmd, gmo) ∈ omap get_request (tr x) ->
  MatchOptions gmo = MQMO_MATCH_CORREL_ID /\ length (CorrelId gmd) = 24%nat /\
  exists pmd body, omap put_request (tr x) = [(pmd, body)] /\ ReplyToQ pmd = rr_replyQueue r /\
    CorrelId pmd = CorrelId gmd.
Proof.
  intros Hf Hh Hm x Hin.
  pose proof (wp_run h _ Hh _ st0 w (wp_RequestReply r ctx creator timeout st0 Hf)) as Hp.
  fold x in Hp. destruct Hp as [(y & _ & _ & Ht)|[(_ & _ & _ & Ht)|(_ & t & Ht & [_ _ _ _ _ Hcor _])]];
    rewrite Ht in Hin |- *; [by apply not_elem_of_nil in Hin..|].
  destruct (Hcor Hm gmd gmo Hin) as (Hmo & Hlen & pmd & body & Hput & Hc & Hq).
  rewrite correl_id_24 in Hlen. split_and!; [done|done|]. by exists pmd, body.
Qed.

End request_reply.

(** ** Properties *)

Section request_reply_claims.
Context `{MQBinding} {W : Type} (h : handler W).
Variables (r : RequestReplyClient) (ctx : Ctx) (creator : option MessageCreator) (timeout : Z).
Hypothesis creators : forall f, creator = Some f -> creator_ok f.

(** C16: a request-reply call leaves nothing behind.  Whatever the broker answers
    and the creator does (it may fail or panic), the call returns or propagates
    the creator's panic; the connection it opened is disconnected, its queues are
    closed in the reverse order of their opening, its span is ended, and it put at
    most one request and waited at most once, only after a put. *)
Theorem RequestReply_safe st0 w :
  handler_ok h ->
  let x := run h (RequestReplyWithCreator r ctx creator timeout) st0 w in
  ((exists m e, out x = Returned (m, e)) \/ (exists v, out x = Panicked v)) /\
  live_handles ∅ (tr x) = ∅ /\
  omap closed_object (tr x) = reverse (omap opened_object (tr x)) /\
  omap started_span (tr x) = omap ended_span (tr x) /\
  (length (omap get_request (tr x)) <= length (omap put_request (tr x)) <= 1)%nat.
Proof.
  intros Hh x. pose proof (wp_run h _ Hh _ st0 w (wp_RequestReply r ctx creator timeout st0 creators)) as Hp.
  fold x in Hp. destruct Hp as [(y & -> & _ & ->)|[(_ & -> & _ & ->)|(_ & t & -> & [Ho Hl Hs _ H1 _ Hout])]].
  - split_and!; simpl; try done; try lia. eauto.
  - split_and!; simpl; try done; try lia. eauto.
  - split_and!; try done; [destruct (out x) as [[[m|] [e|]]|v| | |]; try done; eauto| |]; apply H1.
Qed.


(** The context is consulted once, before anything else: a context that ends
    while the call waits for its reply goes unnoticed, and the call then ends with
    its reply or its timeout.  A context that is already done, or a closed client,
    ends the call at once, with the context's error or ErrClientClosed and no other
    effect. *)
Theorem RequestReply_context st0 w :
  handler_ok h ->
  let x := run h (RequestReplyWithCreator r ctx creator timeout) st0 w in
  exists seen t, tr x = Ev (CtxErr ctx) seen :: t /\
    (forall c, omap (ctx_observation c) t = []) /\
    (seen <> None \/ rr_closed st0 = true -> t = [] /\ st x = st0 /\
       out x = Returned (None, Some match seen with Some y => ErrCtx y | None => ErrSentinel ErrClientClosed end)).
Proof.
  intros Hh x. pose proof (wp_run h _ Hh _ st0 w (wp_RequestReply r ctx creator timeout st0 creators)) as Hp.
  fold x in Hp. destruct Hp as [(y & -> & Hst & ->)|[(Hc & -> & Hst & ->)|(Hc & t & -> & [_ _ _ Hx _ _ _])]].
  - by exists (Some y), [].
  - by exists None, [].
  - exists None, t. split_and!; [done|done|]. intros [|]; congruence.
Qed.

(** C15: isolation on a shared reply queue.  In fixed-queue mode every wait
    matches on the CorrelId of the request just put, 24 bytes long, and the request
    names the reply queue; a service that replies by copying the CorrelationID of
    the message it received, whatever else it sets, produces the CorrelId that this
    wait, and no wait with another CorrelId, is looking for. *)
Theorem RequestReply_correlation `{!CorrelId24} st0 w gmd gmo :
  handler_ok h -> rr_mode r = FixedQueueSelector ->
  let x := run h (RequestReplyWithCreator r ctx creator timeout) st0 w in
  (gmd, gmo) ∈ omap get_request (tr x) ->
  MatchOptions gmo = MQMO_MATCH_CORREL_ID /\ length (CorrelId gmd) = 24%nat /\
  exists pmd body, omap put_request (tr x) = [(pmd, body)] /\ ReplyToQ pmd = rr_replyQueue r /\
    CorrelId pmd = CorrelId gmd /\
    forall cfg md data reply, CorrelId md = CorrelId pmd ->
      CorrelationID reply = CorrelationID (messageFromMQMD md data) ->
      CorrelId (put_mqmd cfg reply) = CorrelId gmd.
Proof.
  intros Hh Hm x Hin.
  destruct (run_correlated h r ctx creator timeout st0 w gmd gmo creators Hh Hm Hin)
    as (Hmo & Hlen & pmd & body & Hput & Hq & Hc).
  split_and!; [done|done|]. exists pmd, body. split_and!; [done..|].
  intros cfg md data reply Hmd Hrep. rewrite <-Hc, <-Hmd. eapply put_mqmd_correl; [|exact Hrep]. congruence.
Qed.

End request_reply_claims.

(** *** Witnesses: a reply on a fixed queue, then a silent service *)

Definition sample_rr : RequestReplyClient :=
  mkRRClient readme_config "DEV.REQ" "DEV.REPLY" FixedQueueSelector
    (mkTelemetry 0 NoopTextMapPropagator 1 2 3 4).

Definition replying : script :=
  mkScript [] [] [] [] [] [] [inl (sample_mqmd, [x68; x69])] [] 40.

Definition silent_service : script :=
  mkScript [] [] [] [] [] [] [inr (ErrMQ (mkMQReturn 2 2033))] [] 40.

Definition rr_run (w : script) : result RRState script (option Message * error) :=
  run scripted (@RequestReply ibm_binding sample_rr 0 "ping" (5 * Second)) RRState_init w.

Lemma body_creators_ok p f : Some (body_creator p) = Some f -> creator_ok f.
Proof. intros [= <-]. apply creator_ok_body. Qed.

Lemma RequestReply_safe_witness :
  live_handles ∅ (tr (rr_run replying)) = ∅ /\ length (omap opened_object (tr (rr_run replying))) = 2%nat.
Proof.
  destruct (@RequestReply_safe ibm_binding script scripted sample_rr 0 (Some (body_creator "ping"))
    (5 * Second) (body_creators_ok "ping") RRState_init replying scripted_ok) as (_ & Hl & _).
  split; [exact Hl|vm_compute; reflexivity].
Defined.


Lemma RequestReply_context_witness :
  exists seen t, tr (rr_run replying) = Ev (CtxErr 0) seen :: t /\ omap (ctx_observation 0) t = [].
Proof.
  destruct (@RequestReply_context ibm_binding script scripted sample_rr 0 (Some (body_creator "ping"))
    (5 * Second) (body_creators_ok "ping") RRState_init replying scripted_ok) as (seen & t & Ht & Hc & _).
  exists seen, t. split; [exact Ht|exact (Hc 0%nat)].
Defined.

Definition sample_filter : MQMD := mkMQMD (repeat x00 24) (repeat x2a 24) "" "" (-1).

Definition sample_wait : MQGMO := mkMQGMO 5 2 5000.

Lemma RequestReply_correlation_witness :
  omap get_request (tr (rr_run replying)) = [(sample_filter, sample_wait)] /\
  exists pmd body, omap put_request (tr (rr_run replying)) = [(pmd, body)] /\
    CorrelId pmd = repeat x2a 24.
Proof.
  assert (Hg : omap get_request (tr (rr_run replying)) = [(sample_filter, sample_wait)])
    by (vm_compute; reflexivity).
  split; [exact Hg|].
  destruct (@RequestReply_correlation ibm_binding script scripted sample_rr 0
    (Some (body_creator "ping")) (5 * Second) (body_creators_ok "ping") ibm_correl_id_24
    RRState_init replying sample_filter sample_wait scripted_ok eq_refl
    (eq_ind_r (fun l => (sample_filter, sample_wait) ∈ l) (list_elem_of_here _ _) Hg))
    as (_ & _ & pmd & body & Hp & _ & Hc & _).
  exists pmd, body. split; [exact Hp|exact Hc].
Defined.
