(* ===== verification/OtelEquiv.v ===== *)
(** * Two implementations of the instrumentation

    The mq package carries its own instrumentation (src/mq/telemetry.go), the otel
    package exports the same helpers to applications (src/otel).  This file relates
    the two: the helpers make the same OpenTelemetry calls, and a client without
    telemetry behaves like one given the otel package's no-op configuration. *)

From Stdlib Require Import ZArith Lia.
From stdpp Require Import base numbers list option strings gmap.
From S2P Require Import Prelude GoErrors Float64 Config Mqi GoProg Script Backoff Connection.
From S2P Require Import Telemetry Wire Sender Listener RequestReply.

Local Open Scope Z_scope.
Local Open Scope go_scope.

(** The same outcome, state, environment and calls under every environment. *)
Definition run_equiv {S A : Type} (p q : prog S A) : Prop :=
  forall (W : Type) (h : handler W) s w, run h p s w = run h q s w.

#[export] Instance run_equiv_equivalence {S A : Type} : Equivalence (@run_equiv S A).
Proof.
  split; [by intros p W h s w|by intros p q Hpq W h s w|].
  intros p q r Hpq Hqr W h s w. by rewrite Hpq, Hqr.
Qed.

Lemma run_equiv_tbind {S A B : Type} (p q : prog S A) (j k : A + nat -> prog S B) :
  run_equiv p q -> (forall r, run_equiv (j r) (k r)) -> run_equiv (tbind p j) (tbind q k).
Proof.
  intros Hpq Hjk W h s w. rewrite !run_tbind, Hpq. destruct (out (run h q s w)); simpl; try done;
    by rewrite Hjk.
Qed.

Lemma run_equiv_bind {S A B : Type} (p q : prog S A) (j k : A -> prog S B) :
  run_equiv p q -> (forall a, run_equiv (j a) (k a)) -> run_equiv (bind p j) (bind q k).
Proof. intros Hpq Hjk. apply run_equiv_tbind; [done|]. intros []; [apply Hjk|reflexivity]. Qed.

Lemma run_equiv_defer {S A : Type} (c d : prog S unit) (p q : prog S A) :
  run_equiv c d -> run_equiv p q -> run_equiv (defer c p) (defer d q).
Proof.
  intros Hcd Hpq. apply run_equiv_tbind; [done|]. intros r. apply run_equiv_bind; [done|]. intros _. reflexivity.
Qed.

(** What [lift] does to a run. *)
Lemma run_lift {S W A : Type} (h : handler W) (p : io A) :
  forall (s : S) w, run h (lift p) s w =
    mkResult (out (run h p tt w)) s (env (run h p tt w)) (tr (run h p tt w)).
Proof.
  unfold lift. induction p as [A a|A v|A|A B f k IH|A B l f k IH|A B e k IH|A c IHc k IHk]; intros s w; simpl.
  1-3: done.
  - rewrite IH. by destruct (f tt).2.
  - destruct (f tt) as [|[b []] rs]; simpl; [done|]. apply IH.
  - rewrite IH. done.
  - rewrite IHc, IHk. simpl. destruct (run h c tt w) as [o [] e t]. by destruct o.
Qed.

Lemma run_equiv_lift {S A : Type} (p q : io A) : run_equiv p q -> run_equiv (S := S) (lift p) (lift q).
Proof. intros Hpq W h s w. by rewrite !run_lift, Hpq. Qed.

(** The instruments of a component, as the otel package groups them. *)
Definition instruments_of (t : mqTelemetry) : Otel.Instruments :=
  Otel.mkInstruments (tel_publishDuration t) (tel_receiveDuration t) (tel_connActive t) (tel_errorsTotal t).

(** The instrument registrations a trace saw rejected. *)
Definition rejected (ev : event) : option err :=
  match ev with
  | Ev e b => match e in ext B return B -> option err with
              | NewInstrument _ _ _ _ _ => fun r => r.2
              | _ => fun _ => None
              end b
  end.

(** A component's telemetry with another propagator. *)
Definition set_propagator (p : propagator) (t : mqTelemetry) : mqTelemetry :=
  mkTelemetry (tel_tracer t) p (tel_publishDuration t) (tel_receiveDuration t) (tel_connActive t)
    (tel_errorsTotal t).

Definition sender_tel (t : mqTelemetry) (s : Sender) : Sender := mkSender (s_cfg s) (s_queue s) (s_maxConns s) t.

Definition listener_tel (t : mqTelemetry) (l : Listener) : Listener :=
  mkListener (l_cfg l) (l_queue l) (l_concurrency l) (l_maxRetries l) (l_queueOpts l) t (l_onError l).

Definition rr_with_tel (t : mqTelemetry) (r : RequestReplyClient) : RequestReplyClient :=
  mkRRClient (rr_cfg r) (rr_requestQueue r) (rr_replyQueue r) (rr_mode r) t.

Section equiv.
Context `{MQBinding} `{GoArch}.

Definition quiet (t : mqTelemetry) : mqTelemetry := set_propagator NoopTextMapPropagator t.

Definition otel_quiet (t : mqTelemetry) : mqTelemetry := set_propagator Otel.NoopPropagator t.

Lemma handle_message_quiet l t ctx f md data :
  run_equiv (handle_message (listener_tel (otel_quiet t) l) ctx (user_handler f) md data)
            (handle_message (listener_tel (quiet t) l) ctx (user_handler f) md data).
Proof. intros W h s w. reflexivity. Qed.

Lemma Send_quiet s t ctx dest creator :
  run_equiv (SendWithCreator (sender_tel (otel_quiet t) s) ctx dest creator)
            (SendWithCreator (sender_tel (quiet t) s) ctx dest creator).
Proof. intros W h st w. reflexivity. Qed.

Lemma RequestReply_quiet r t ctx creator timeout :
  run_equiv (RequestReplyWithCreator (rr_with_tel (otel_quiet t) r) ctx creator timeout)
            (RequestReplyWithCreator (rr_with_tel (quiet t) r) ctx creator timeout).
Proof. intros W h st w. reflexivity. Qed.

Lemma consumeLoop_quiet l t m ctx conn f :
  run_equiv (consumeLoop m (listener_tel (otel_quiet t) l) ctx conn (user_handler f))
            (consumeLoop m (listener_tel (quiet t) l) ctx conn (user_handler f)).
Proof.
  apply run_equiv_bind; [reflexivity|]. intros [[qObj od]|e]; [|reflexivity].
  apply run_equiv_defer; [reflexivity|].
  induction m as [|m IH]; cbn [consume_polls]; [reflexivity|].
  apply run_equiv_bind; [reflexivity|]. intros [x|]; [reflexivity|].
  apply run_equiv_bind; [reflexivity|]. intros [[md data]|e]; [|by destruct (IsEmptyQueueError (Some e))].
  apply run_equiv_bind; [apply handle_message_quiet|done].
Qed.

Lemma consumer_rounds_quiet l t n m ctx conn f idx :
  run_equiv (consumer_rounds n m (listener_tel (otel_quiet t) l) ctx conn (user_handler f) idx)
            (consumer_rounds n m (listener_tel (quiet t) l) ctx conn (user_handler f) idx).
Proof.
  revert conn. induction n as [|n IH]; intros conn; cbn [consumer_rounds]; [reflexivity|].
  apply run_equiv_bind; [reflexivity|]. intros [x|]; [reflexivity|].
  apply run_equiv_bind.
  { apply run_equiv_tbind; [apply run_equiv_lift, consumeLoop_quiet|intros r; reflexivity]. }
  intros [[e|]|v]; [|reflexivity|reflexivity].
  apply run_equiv_bind; [reflexivity|]. intros [x|]; [reflexivity|].
  destruct (IsConnectionError (Some e)); [|reflexivity].
  apply run_equiv_bind; [reflexivity|intros _]. apply run_equiv_bind; [reflexivity|]. intros [c' [e'|]]; [reflexivity|].
  apply run_equiv_bind; [reflexivity|]. intros _. apply IH.
Qed.

Lemma runConsumer_quiet l t n m ctx f idx :
  run_equiv (runConsumer n m (listener_tel (otel_quiet t) l) ctx (user_handler f) idx)
            (runConsumer n m (listener_tel (quiet t) l) ctx (user_handler f) idx).
Proof.
  unfold runConsumer. apply run_equiv_bind; [|reflexivity].
  apply run_equiv_tbind; [|intros r; reflexivity]. unfold consumer_body.
  apply run_equiv_bind; [reflexivity|]. intros [x|]; [reflexivity|].
  apply run_equiv_bind; [reflexivity|]. intros _.
  apply run_equiv_bind; [reflexivity|]. intros [conn|e]; [|reflexivity].
  do 2 (apply run_equiv_bind; [reflexivity|]; intros _).
  apply run_equiv_bind; [apply consumer_rounds_quiet|reflexivity].
Qed.

(** The instruments both packages register. *)
Definition instruments_agree {W : Type} (h : handler W) (mp : provider) (w : W) : Prop :=
  let scope := "github.com/bancolombia/commons-mq-go"%string in
  let own := run h (newMQTelemetry (Some (mkTelemetryConfig None (Some mp) None))) tt w in
  exists w1 tracer, h _ (TracerOf NoopProvider scope) w = (tracer, w1) /\
    let lib := run h (Otel.NewInstruments mp) tt w1 in
    match omap rejected (tr lib) with
    | [] => tr own = Ev (TracerOf NoopProvider scope) tracer :: tr lib /\ env own = env lib /\
        exists t, out own = Returned t /\ out lib = Returned (inl (instruments_of t))
    | e :: _ => out lib = Returned (inr e) /\ (exists t, out own = Returned t) /\
        (Ev (TracerOf NoopProvider scope) tracer :: tr lib) `prefix_of` tr own
    end.

Lemma NewInstruments_agree {W : Type} (h : handler W) mp w : instruments_agree h mp w.
Proof.
  unfold instruments_agree. simpl. unfold mqInstrumentationScope.
  destruct (h nat (TracerOf NoopProvider _) w) as [tracer w1]; simpl.
  exists w1, tracer. split; [done|]. destruct (h nat (MeterOf mp _) w1) as [mt w2]; simpl.
  destruct (h (nat * error)%type (NewInstrument _ Float64Histogram "messaging.publish.duration" _ _) w2) as [[pub e1] w3] eqn:E1; simpl.
  destruct (h (nat * error)%type (NewInstrument _ _ "messaging.receive.duration" _ _) w3) as [[rcv e2] w4] eqn:E2; simpl.
  destruct (h (nat * error)%type (NewInstrument _ _ "messaging.connection.active" _ _) w4) as [[act e3] w5] eqn:E3; simpl.
  destruct (h (nat * error)%type (NewInstrument _ _ "messaging.errors.total" _ _) w5) as [[errs e4] w6] eqn:E4; simpl.
  destruct e1 as [e1|], e2 as [e2|], e3 as [e3|], e4 as [e4|];
    simpl; rewrite ?E2; simpl; rewrite ?E3; simpl; rewrite ?E4; simpl; split_and!; by try eexists.
Qed.

(** ** Properties *)

(** C35: the helpers the otel package exports make the same OpenTelemetry calls as
    the instrumentation inside the mq package: spans (a consumer span whenever the
    message has an ID), their end, the error counter and context propagation.
    NewInstruments registers the same four instruments under the same scope, and
    stops at the first one the provider rejects, where the mq package goes on. *)
Theorem otel_equivalence t ctx q id span e errType msg m mp {W} (h : handler W) w :
  UserProperties msg = Some m ->
  Otel.StartProducerSpan ctx (tel_tracer t) q "" = startProducerSpan t ctx q /\
  (id <> ""%string -> Otel.StartConsumerSpan ctx (tel_tracer t) q id = startConsumerSpan t ctx q id) /\
  Otel.StartClientSpan ctx (tel_tracer t) q = startClientSpan t ctx q /\
  Otel.EndSpan span (Some e) = endSpan span e /\
  Otel.RecordError (instruments_of t) ctx errType = incError t ctx errType /\
  run_equiv (do! m' <- Otel.InjectToMap ctx (Some (tel_propagator t)) (Some m); Ret (set_UserProperties m' msg))
    (injectToMessage t ctx msg) /\
  Otel.ExtractFromMap ctx (Some (tel_propagator t)) (Some m) = extractFromMessage t ctx msg /\
  instruments_agree h mp w.
Proof.
  intros Hm. split_and!; try done.
  - intros Hid. unfold Otel.StartConsumerSpan, Otel.id_attr. by rewrite (proj2 (String.eqb_neq _ _) Hid).
  - unfold Otel.InjectToMap, injectToMessage. rewrite Hm. intros W' h' s' w'. by destruct (tel_propagator t).
  - unfold Otel.ExtractFromMap, extractFromMessage. by rewrite Hm.
  - apply NewInstruments_agree.
Qed.

(** C34: leaving Config.Telemetry nil is the same as passing the otel package's
    explicit no-op configuration: creating the telemetry makes the same calls, and a
    Send, a request and a consumer make the same external calls, end with the same
    result and leave the same state, under every environment. *)
Theorem telemetry_off_equivalence {W} (h : handler W) w :
  let off := run h (newMQTelemetry None) tt w in
  let noop := run h (newMQTelemetry (Some (Otel.NewTelemetryConfig None None None))) tt w in
  tr noop = tr off /\ env noop = env off /\
  exists t t', out off = Returned t /\ out noop = Returned t' /\
    (forall s ctx dest creator, run_equiv (SendWithCreator (sender_tel t' s) ctx dest creator)
       (SendWithCreator (sender_tel t s) ctx dest creator)) /\
    (forall r ctx creator timeout, run_equiv (RequestReplyWithCreator (rr_with_tel t' r) ctx creator timeout)
       (RequestReplyWithCreator (rr_with_tel t r) ctx creator timeout)) /\
    (forall l n m ctx f idx, run_equiv (runConsumer n m (listener_tel t' l) ctx (user_handler f) idx)
       (runConsumer n m (listener_tel t l) ctx (user_handler f) idx)).
Proof.
  simpl. unfold Otel.NoopTracerProvider, Otel.NoopMeterProvider.
  repeat match goal with
  | |- context[h ?B ?e ?w] => let r := fresh "r" in set (r := h B e w); clearbody r; simpl;
      try (destruct r as [[? ?] ?]; simpl)
  end.
  split_and!; [done|done|].
  set (t := mkTelemetry _ NoopTextMapPropagator _ _ _ _). exists t, (otel_quiet t).
  split_and!; [done|done|..].
  - intros s ctx dest creator. apply (Send_quiet s t).
  - intros r0' ctx creator timeout. apply (RequestReply_quiet r0' t).
  - intros l n' m' ctx f idx. apply (runConsumer_quiet l t).
Qed.

End equiv.

(** *** Witness: a message with one property *)

Lemma otel_equivalence_witness :
  let t := mkTelemetry 0 NoopTextMapPropagator 1 2 3 4 in
  let msg := set_UserProperties (Some {[ "k" := "v" ]}) Message_zero in
  Otel.StartProducerSpan 0 0 "Q" "" = startProducerSpan t 0 "Q" /\ UserProperties msg = Some {[ "k" := "v" ]}.
Proof.
  split; [|reflexivity].
  apply (otel_equivalence (mkTelemetry 0 NoopTextMapPropagator 1 2 3 4) 0 "Q" "id" 0 None "timeout"
    (set_UserProperties (Some {[ "k" := "v" ]}) Message_zero) {[ "k" := "v" ]} NoopProvider scripted calm eq_refl).
Defined.
