(* ===== verification/Health.v ===== *)
(** * Health probes

    The probes of src/mq/health.go that the components register with the client:
    one per sender, listener and request-reply client.  [Client.Health], which
    aggregates them, is in the file of the client. *)

From Stdlib Require Import ZArith Lia.
From stdpp Require Import base list option strings gmap numbers.
From S2P Require Import Prelude GoErrors Float64 Config Mqi GoProg Script Backoff Connection.
From S2P Require Import Telemetry Wire Sender Listener RequestReply.

Local Open Scope Z_scope.
Local Open Scope go_scope.

Definition stateLabel (s : ConnectionState) : string :=
  match s with
  | StateConnected => "connected"
  | StateReconnecting => "reconnecting"
  | StateFailed => "failed"
  | StateStopped => "stopped"
  | StateUnknown => "unknown"
  end.

Definition connectionStateReason (s : ConnectionState) : text :=
  [Lit "connection state: "; Lit (stateLabel s)].

(** [reason += ": " + lastErr.Error()]. *)
Definition with_error (reason : text) (e : error) : text :=
  match e with Some e => reason ++ [Lit ": "] ++ Error e | None => reason end.

Definition alive_status (qm : string) (component : text) : list ConnectionStatus :=
  [mkConnectionStatus qm true [] component].

Definition dead_status (qm : string) (component reason : text) : list ConnectionStatus :=
  [mkConnectionStatus qm false reason component].

Definition sender_component (s : Sender) : text := [Lit "sender "; Quoted (s_queue s)].

(** The part of [senderHealthProber] under poolMu: peek at one idle connection. *)
Definition probe_pool (s : Sender) (state : ConnectionState) : prog SenderState (list ConnectionStatus) :=
  let qm := QueueManagerName (s_cfg s) in
  let dead := dead_status qm (sender_component s) in
  select MutexLock (fun st => if poolMu st then [] else [(tt, set_poolMu true st)]) ;;;
  defer (modify (set_poolMu false))
    (do! c <- try_recv_pool;
     match c with
     | Some conn =>
         releaseConn s conn ;;;
         Ret (if decide (conn_State conn = StateConnected)
              then alive_status qm (sender_component s)
              else dead (connectionStateReason (conn_State conn)))
     | None =>
         Ret (if decide (state = StateConnected \/ state = StateUnknown)
              then alive_status qm (sender_component s)
              else dead (connectionStateReason state))
     end).

(** [senderHealthProber]. *)
Definition senderHealthProber (s : Sender) : prog SenderState (list ConnectionStatus) :=
  do! '(created, closed, state, lastErr) <-
    reads (fun st => (created st, s_closed st, s_state st, s_lastErr st));
  let qm := QueueManagerName (s_cfg s) in
  let dead := dead_status qm (sender_component s) in
  if closed : bool then Ret (dead [Lit "sender is closed"])
  else
    match state with
    | StateReconnecting => Ret (dead (connectionStateReason StateReconnecting))
    | StateFailed => Ret (dead (with_error (connectionStateReason StateFailed) lastErr))
    | _ =>
        if created =? 0 then
          Ret match lastErr with
              | Some e => dead ([Lit "no live connections: "] ++ Error e)
              | None => []
              end
        else
          probe_pool s state
    end.

(** The entry of consumer [i] of a listener. *)
Definition consumer_status (l : Listener) (closed : bool) (i : nat) (state : ConnectionState)
    : ConnectionStatus :=
  let alive := bool_decide (state = StateConnected) && negb closed in
  mkConnectionStatus (QueueManagerName (l_cfg l)) alive
    (if closed then [Lit "listener is closed"]
     else if alive then [] else connectionStateReason state)
    [Lit "listener "; Quoted (l_queue l); Lit " consumer "; Num (Z.of_nat i)].

(** [listenerHealthProber]: [closed] is read first, then each slot by itself. *)
Fixpoint probe_slots (l : Listener) (closed : bool) (i n : nat) (details : list ConnectionStatus)
    : prog ListenerState (list ConnectionStatus) :=
  match n with
  | O => Ret details
  | S n' =>
      do! state <- reads (fun st => default StateUnknown (l_states st !! i));
      probe_slots l closed (S i) n' (details ++ [consumer_status l closed i state])
  end.

Definition listenerHealthProber (l : Listener) : prog ListenerState (list ConnectionStatus) :=
  lock_l ;;;
  do! closed <- reads l_closed;
  unlock_l ;;;
  do! n <- reads (fun st => length (l_states st));
  probe_slots l closed 0 n [].

(** [requestReplyHealthProber]. *)
Definition requestReplyHealthProber (r : RequestReplyClient) : prog RRState (list ConnectionStatus) :=
  do! '(closed, state, lastErr) <- reads (fun st => (rr_closed st, rr_state st, rr_lastErr st));
  let qm := QueueManagerName (rr_cfg r) in
  let component := [Lit "request-reply "; Quoted (rr_requestQueue r)] in
  Ret (if closed : bool then dead_status qm component [Lit "request-reply client is closed"]
       else if decide (state = StateUnknown /\ lastErr = None) then []
       else if decide (state = StateFailed)
            then dead_status qm component (with_error (connectionStateReason StateFailed) lastErr)
            else alive_status qm component).

(** ** Lemmas *)

(** An entry explains itself exactly when it is not alive. *)
Definition explained (d : ConnectionStatus) : Prop := Alive d = true <-> Reason d = [].

Lemma explained_dead qm c reason d : reason <> [] -> d ∈ dead_status qm c reason -> explained d.
Proof. intros Hr ->%list_elem_of_singleton. by split. Qed.

Lemma explained_alive qm c d : d ∈ alive_status qm c -> explained d.
Proof. by intros ->%list_elem_of_singleton. Qed.

Lemma with_error_nonempty x e : with_error (connectionStateReason x) e <> [].
Proof. by destruct e. Qed.

(** What a sender is expected to report. *)
Definition sender_usable (st : SenderState) : Prop :=
  s_closed st = false /\ s_state st <> StateReconnecting /\ s_state st <> StateFailed.

(** The report of a sender whose pool is in order, and the state it leaves: the
    pool turned by at most one place. *)
Definition sender_probe_post (s : Sender) (st : SenderState)
    (o : outcome (list ConnectionStatus)) (st' : SenderState) (t : list event) : Prop :=
  t = [] /\ exists ds p, o = Returned ds /\ st' = set_pool p st /\ p ≡ₚ pool st /\
    (length ds <= 1)%nat /\ (forall d, d ∈ ds -> explained d) /\
    (ds = [] <-> sender_usable st /\ created st = 0 /\ s_lastErr st = None) /\
    ((exists d, d ∈ ds /\ Alive d = true) <-> sender_usable st /\ created st <> 0 /\
       (pool st <> [] \/ s_state st = StateConnected \/ s_state st = StateUnknown)).

Lemma probe_dead s st reason :
  reason <> [] ->
  ~ (sender_usable st /\ created st = 0 /\ s_lastErr st = None) ->
  ~ (sender_usable st /\ created st <> 0 /\
     (pool st <> [] \/ s_state st = StateConnected \/ s_state st = StateUnknown)) ->
  sender_probe_post s st
    (Returned (dead_status (QueueManagerName (s_cfg s)) (sender_component s) reason)) st [].
Proof.
  intros Hr H1 H2. split; [done|]. eexists _, (pool st). split_and!; try done.
  - by destruct st.
  - intros d. by apply explained_dead.
  - split; [intros (d & ->%list_elem_of_singleton & Ha); done|tauto].
Qed.

Lemma probe_alive s st p :
  p ≡ₚ pool st -> sender_usable st -> created st <> 0 ->
  (pool st <> [] \/ s_state st = StateConnected \/ s_state st = StateUnknown) ->
  sender_probe_post s st
    (Returned (alive_status (QueueManagerName (s_cfg s)) (sender_component s))) (set_pool p st) [].
Proof.
  intros Hp Hu Hc Hs. split; [done|]. eexists _, p. split_and!; try done.
  - intros d. apply explained_alive.
  - split; [done|]. by intros (_ & Hz & _).
  - split; [done|]. intros _. eexists. split; [by apply list_elem_of_singleton|done].
Qed.

Lemma set_pool_unlock st p :
  poolMu st = false -> set_poolMu false (set_pool p (set_poolMu true st)) = set_pool p st.
Proof. intros Hm. destruct st; simpl in *. by subst. Qed.

Lemma pool_ok_lock s k st b : pool_ok s k st -> pool_ok s k (set_poolMu b st).
Proof. intros []. by split. Qed.

Lemma probe_idle s st :
  sender_usable st -> created st = 0 -> s_lastErr st = None ->
  sender_probe_post s st (Returned []) st [].
Proof.
  intros Hu Hc He. split; [done|]. exists [], (pool st). split_and!; try done.
  - by destruct st.
  - simpl. lia.
  - set_solver.
  - split; [set_solver|]. by intros (_ & Hz & _).
Qed.

(** The locked part of the probe, for a sender that has connections. *)
Lemma wp_probe_pool s k st :
  pool_ok s k st -> poolMu st = false -> sender_usable st -> created st <> 0 ->
  wp (probe_pool s (s_state st)) (sender_probe_post s st) st.
Proof.
  intros [Hk Hcr Hb _ Hr] Hmu Hu Hc. unfold probe_pool. wp_go. apply wp_select; rewrite Hmu; [done|].
  intros ? ->%list_elem_of_singleton. cbn [fst snd]. wp_go.
  unfold try_recv_pool, recv_pool.
  apply wp_select; cbn [pool set_poolMu]; destruct (pool st) as [|c p] eqn:Hp; try done;
    intros ? ->%list_elem_of_singleton; cbn [fst snd]; wp_go.
  - assert (Heq : set_poolMu false (set_poolMu true st) = set_pool [] st)
      by (destruct st; simpl in *; by subst).
    cbn [fst snd]. rewrite Heq. destruct (decide _) as [Hs|Hs].
    + apply probe_alive; rewrite ?Hp; auto.
    + rewrite <-Hp at 1. destruct st; simpl in *. apply probe_dead; [done|naive_solver|].
      intros (_ & _ & [?|?]); [by subst|tauto].
  - apply Forall_cons_1 in Hr as [[Hst _] Hr]. simpl in Hcr. unfold releaseConn.
    apply wp_select; cbn [pool set_pool]; rewrite (proj2 (Z.ltb_lt _ _)) by lia; [done|].
    intros ? ->%list_elem_of_singleton. cbn [fst snd]. wp_go.
    rewrite (decide_True (P := conn_State c = StateConnected)) by done. cbn [fst snd].
    change (sender_probe_post s st
      (Returned (alive_status (QueueManagerName (s_cfg s)) (sender_component s)))
      (set_poolMu false (set_pool (p ++ [c]) (set_poolMu true st))) []).
    rewrite set_pool_unlock by done.
    apply probe_alive; rewrite ?Hp; [|done|done|by left].
    by rewrite Permutation_app_comm.
Qed.

Lemma wp_senderHealthProber s k st0 :
  pool_ok s k st0 -> poolMu st0 = false -> wp (senderHealthProber s) (sender_probe_post s st0) st0.
Proof.
  intros Hpo Hmu. unfold senderHealthProber.
  wp_go. destruct (s_closed st0) eqn:Hcl; cbn [fst snd]; wp_go.
  { apply probe_dead; [done| |]; unfold sender_usable; rewrite Hcl; naive_solver. }
  assert (Hx : forall x, x = s_state st0 -> x <> StateReconnecting -> x <> StateFailed ->
    wp (if created st0 =? 0 then Ret match s_lastErr st0 with
         | Some e => dead_status (QueueManagerName (s_cfg s)) (sender_component s)
                       ([Lit "no live connections: "] ++ Error e)
         | None => []
         end else probe_pool s x) (sender_probe_post s st0) st0).
  { intros x -> H1 H2. destruct (Z.eqb_spec (created st0) 0) as [Hz|Hz].
    - cbn [wp]. destruct (s_lastErr st0) eqn:He; [|by apply probe_idle].
      apply probe_dead; [done|naive_solver|naive_solver].
    - by apply (wp_probe_pool s k). }
  destruct (s_state st0) eqn:Hst; cbn [fst snd];
    try (apply Hx; done); wp_go;
    (apply probe_dead; [apply with_error_nonempty || done| |];
     unfold sender_usable; rewrite Hst; naive_solver).
Qed.

Lemma wp_probe_slots l closed n i ds (s0 : ListenerState) :
  wp (probe_slots l closed i n ds) (fun o s' t =>
    o = Returned (ds ++ imap (fun j x => consumer_status l closed (i + j) x)
                          (map (fun j => default StateUnknown (l_states s0 !! j)) (seq i n))) /\
    s' = s0 /\ t = []) s0.
Proof.
  revert i ds. induction n as [|n IH]; intros i ds; cbn [probe_slots].
  { simpl. by rewrite app_nil_r. }
  wp_go. eapply wp_mono; [|apply IH]. intros o s' t (-> & -> & ->). split_and!; [|done|done].
  rewrite <-app_assoc. simpl. rewrite Nat.add_0_r. do 3 f_equal.
  apply imap_ext. intros j x _. simpl. by rewrite Nat.add_succ_r.
Qed.

Lemma map_lookup_seq (xs : list ConnectionState) :
  map (fun j => default StateUnknown (xs !! j)) (seq 0 (length xs)) = xs.
Proof.
  apply list_eq. intros i. rewrite list_lookup_fmap.
  destruct (decide (i < length xs)%nat) as [Hi|Hi].
  - rewrite lookup_seq_lt by done. simpl. destruct (lookup_lt_is_Some_2 xs i Hi) as [x Hx]. by rewrite Hx.
  - rewrite lookup_seq_ge, lookup_ge_None_2 by lia. done.
Qed.

(** One entry per consumer, alive exactly when it is connected. *)
Definition listener_probe_post (st0 : ListenerState) (o : outcome (list ConnectionStatus))
    (st' : ListenerState) (t : list event) : Prop :=
  exists ds, o = Returned ds /\ st' = st0 /\ t = [] /\ length ds = length (l_states st0) /\
    forall i x, l_states st0 !! i = Some x ->
      exists d, ds !! i = Some d /\ explained d /\
        (Alive d = true <-> x = StateConnected /\ l_closed st0 = false).

Lemma wp_listenerHealthProber l st0 :
  l_mu st0 = false -> wp (listenerHealthProber l) (listener_probe_post st0) st0.
Proof.
  intros Hmu.
  unfold listenerHealthProber, lock_l, unlock_l. wp_go. apply wp_select; rewrite Hmu; [done|].
  intros ? ->%list_elem_of_singleton. cbn [fst snd]. wp_go.
  assert (Hs : set_l_mu false (set_l_mu true st0) = st0) by (destruct st0; simpl in *; by subst).
  cbn [fst snd]. rewrite Hs. eapply wp_mono; [|apply wp_probe_slots].
  intros o s' t (-> & -> & ->). eexists. split_and!; [reflexivity|done|done|..].
  { cbn [app]. rewrite map_lookup_seq. apply length_imap. }
  intros i x Hx. cbn [app]. rewrite map_lookup_seq, list_lookup_imap, Hx. eexists. split; [done|].
  unfold explained. simpl. destruct (l_closed st0), (decide (x = StateConnected)) as [->|Hne]; simpl;
    rewrite ?bool_decide_false by done; simpl; naive_solver.
Qed.

Definition rr_probe_post (st0 : RRState) (o : outcome (list ConnectionStatus)) (st' : RRState)
    (t : list event) : Prop :=
  exists ds, o = Returned ds /\ st' = st0 /\ t = [] /\ (forall d, d ∈ ds -> explained d) /\
    (ds = [] <-> rr_closed st0 = false /\ rr_state st0 = StateUnknown /\ rr_lastErr st0 = None) /\
    ((exists d, d ∈ ds /\ Alive d = false) <-> rr_closed st0 = true \/ rr_state st0 = StateFailed).

Lemma wp_requestReplyHealthProber r st0 :
  wp (requestReplyHealthProber r) (rr_probe_post st0) st0.
Proof.
  unfold requestReplyHealthProber. wp_go. eexists. split; [reflexivity|]. split; [done|]. split; [done|].
  destruct (rr_closed st0).
  { split_and!; [intros d; by apply explained_dead|naive_solver|].
    split; [by left|]. intros _. eexists. split; [by left|done]. }
  destruct (decide (rr_state st0 = StateUnknown /\ rr_lastErr st0 = None)) as [[-> ->]|Hn].
  { split_and!; [set_solver|done|]. split; [set_solver|naive_solver]. }
  destruct (decide (rr_state st0 = StateFailed)) as [Hf|Hf].
  - split_and!; [intros d; apply explained_dead, with_error_nonempty|naive_solver|].
    split; [by right|]. intros _. eexists. split; [by left|done].
  - split_and!; [intros d; apply explained_alive|naive_solver|].
    split; [|naive_solver]. intros (d & ->%list_elem_of_singleton & Ha). done.
Qed.

(** ** Properties *)

(** C39: the three probes make no external call and return.  The sender's, from any
    pool whose accounts are in order, leaves the sender as it was, the pool turned by
    at most one place; it reports nothing exactly when the sender is open, unused and
    has recorded no failure, and life exactly when it is open, has connections and is
    neither reconnecting nor failed.  The listener's changes nothing and reports one
    entry per consumer, in order, alive exactly when that consumer's slot reads
    StateConnected and the listener is open.  The request-reply client's changes
    nothing and reports nothing exactly when the client is open and was never used,
    death exactly when it is closed or its last dial or exchange failed.  An entry
    carries a reason exactly when it is not alive. *)
Theorem probes_spec {W} (h : handler W) :
  handler_ok h ->
  (forall s k st0 w, pool_ok s k st0 -> poolMu st0 = false ->
     let r := run h (senderHealthProber s) st0 w in sender_probe_post s st0 (out r) (st r) (tr r)) /\
  (forall l st0 w, l_mu st0 = false ->
     let r := run h (listenerHealthProber l) st0 w in
     exists ds, out r = Returned ds /\ st r = st0 /\ tr r = [] /\ length ds = length (l_states st0) /\
       forall i x, l_states st0 !! i = Some x ->
         exists d, ds !! i = Some d /\ explained d /\
           (Alive d = true <-> x = StateConnected /\ l_closed st0 = false)) /\
  (forall r st0 w,
     let x := run h (requestReplyHealthProber r) st0 w in
     exists ds, out x = Returned ds /\ st x = st0 /\ tr x = [] /\ (forall d, d ∈ ds -> explained d) /\
       (ds = [] <-> rr_closed st0 = false /\ rr_state st0 = StateUnknown /\ rr_lastErr st0 = None) /\
       ((exists d, d ∈ ds /\ Alive d = false) <-> rr_closed st0 = true \/ rr_state st0 = StateFailed)).
Proof.
  intros Hh. split_and!.
  - intros s k st0 w Hpo Hmu r. by apply (wp_run h _ Hh (sender_probe_post s st0)), (wp_senderHealthProber s k).
  - intros l st0 w Hmu r. by apply (wp_run h _ Hh (listener_probe_post st0)), wp_listenerHealthProber.
  - intros r st0 w x. by apply (wp_run h _ Hh (rr_probe_post st0)), wp_requestReplyHealthProber.
Qed.

(** *** Witnesses *)

Lemma probes_spec_witness :
  let r := run scripted (senderHealthProber sample_sender) sample_pool calm in
  sender_probe_post sample_sender sample_pool (out r) (st r) (tr r) /\
  map conn_queueManager (pool (st r)) = [6; 5]%nat.
Proof.
  split; [|reflexivity].
  exact (proj1 (probes_spec scripted scripted_ok) sample_sender 0 sample_pool calm sample_pool_ok eq_refl).
Defined.
