(* ===== verification/SenderPool.v ===== *)
(** * The sender's pool under concurrency

    Any number of goroutines call Send, the health probe and close on one sender.
    Each goroutine owns tokens: a [Slot] per connection it has taken out of the
    pool (or is about to create), a [Flight] while its Send is counted by the
    WaitGroup, [Lock] while it holds poolMu, [Closer] and [Waited] once its close
    has marked the sender closed and has seen the WaitGroup reach zero.  The right
    to call close is a token too: [AnyShut] for one of several closes, [MayShut]
    for the only one.  [pool_inv] ties the shared fields to the tokens in
    circulation. *)

From Stdlib Require Import ZArith Lia Strings.Byte.
From stdpp Require Import base numbers list option strings gmap.
From S2P Require Import Prelude GoErrors Float64 Config Mqi GoProg Compose Script Backoff Connection.
From S2P Require Import Telemetry Wire Sender Listener RequestReply Health.

Local Open Scope Z_scope.
Local Open Scope go_scope.

Inductive tok := Slot | Flight | Lock | Closer | Waited | MayShut | AnyShut.

#[export] Instance tok_eq_dec : EqDecision tok.
Proof. solve_decision. Defined.

(** How many tokens of a kind are in circulation. *)
Definition cnt (x : tok) (ts : list tok) : Z := Z.of_nat (length (filter (fun y => x = y) ts)).

(** Where a goroutine may block: on the pool lock while another holds it, and in
    close while sends are in flight, and never while it is itself in flight or
    holds the lock.  Returning a connection is not on the list. *)
Definition pool_rank (x : tok) : nat := match x with Flight | Lock => 2 | _ => 0 end.

Definition pool_waits (l : chanop) (st : SenderState) : Prop :=
  match l with
  | MutexLock => poolMu st = true
  | WgWait => wg st <> 0
  | _ => False
  end.

Abbreviation may_block := (blocks pool_rank pool_waits).

Section pool.
Context `{MQBinding} `{GoArch}.
Variable s : Sender.

Record pool_inv (st : SenderState) (ts : list tok) : Prop := {
  pi_slots : Z.of_nat (length (pool st)) + cnt Slot ts <= created st;
  pi_exact : s_closed st = false -> created st = Z.of_nat (length (pool st)) + cnt Slot ts;
  pi_max : created st <= s_maxConns s;
  pi_wg : wg st = cnt Flight ts;
  pi_mu : cnt Lock ts = if poolMu st then 1 else 0;
  pi_ready : Forall (conn_ready s) (pool st);
  pi_closer : 0 < cnt Closer ts -> s_closed st = true;
  pi_waited : 0 < cnt Waited ts -> s_closed st = true /\ wg st = 0;
  pi_open : 0 < cnt MayShut ts -> s_closed st = false /\ cnt MayShut ts = 1 /\ cnt AnyShut ts = 0
}.

(** No goroutine is forked by a sender. *)
Definition no_fork (_ : outcome unit) (_ : list tok) : Prop := False.

(** ** Counting *)

Lemma cnt_app x ts ts' : cnt x (ts ++ ts') = cnt x ts + cnt x ts'.
Proof. unfold cnt. rewrite filter_app, length_app. lia. Qed.

Lemma cnt_same x ts : cnt x (x :: ts) = 1 + cnt x ts.
Proof. unfold cnt. rewrite filter_cons, decide_True by done. simpl length. lia. Qed.

Lemma cnt_diff x y ts : x <> y -> cnt x (y :: ts) = cnt x ts.
Proof. intros Hne. unfold cnt. by rewrite filter_cons, decide_False. Qed.

Lemma cnt_nil x : cnt x [] = 0.
Proof. done. Qed.

Lemma cnt_nonneg x ts : 0 <= cnt x ts.
Proof. unfold cnt. lia. Qed.

Lemma cnt_elem x ts : 0 < cnt x ts -> x ∈ ts.
Proof.
  unfold cnt. destruct (filter (fun y => x = y) ts) as [|y ys] eqn:Hf; [simpl; lia|]. intros _.
  assert (Hy : y ∈ filter (fun y => x = y) ts) by (rewrite Hf; left).
  by apply list_elem_of_filter in Hy as [-> Hy].
Qed.

#[export] Instance pool_inv_proper st : Proper ((≡ₚ) ==> iff) (pool_inv st).
Proof.
  assert (Hc : forall x (t t' : list tok), t ≡ₚ t' -> cnt x t = cnt x t').
  { intros x t t' Ht. unfold cnt. by rewrite Ht. }
  intros t t' Ht. split; intros []; split;
    rewrite <-?(Hc _ _ _ Ht) || rewrite ?(Hc _ _ _ Ht); auto.
Qed.

(** Preservation of the invariant by a step that exchanges tokens: the counts
    become linear arithmetic. *)
Ltac counts :=
  cbn [app] in *;
  repeat first [rewrite cnt_app in * | rewrite cnt_same in * | rewrite cnt_diff in * by done
               | rewrite cnt_nil in *].

Ltac inv_step :=
  match goal with
  | Hi : pool_inv _ _ |- _ =>
      destruct Hi as [Hslots Hexact Hmax Hwg Hmu Hready Hcloser Hwaited Hopen]
  end;
  split; simpl in *; counts; auto; try lia.

(** ** Sends

    A Send never blocks, whatever its caller owns: its rules hold for any account of
    blocking [mb]. *)

Section sends.
Context {mb : chanop -> SenderState -> list tok -> Prop}.

Abbreviation pcwp := (cwp pool_inv mb no_fork).

(** One-step rules. *)
Lemma pcwp_modify f t t' (Q : outcome unit -> list tok -> Prop) :
  (forall st F, pool_inv st (t ++ F) -> pool_inv (f st) (t' ++ F)) -> Q (Returned tt) t' ->
  pcwp (modify f) t Q.
Proof. intros Hf HQ st F HI. exists t'. split; [by apply Hf|done]. Qed.

Lemma pcwp_setState x e t (Q : outcome unit -> list tok -> Prop) :
  Q (Returned tt) t -> pcwp (Sender_setState x e) t Q.
Proof. apply pcwp_modify. intros st F HI. inv_step. Qed.

Lemma pcwp_incConnActive t (Q : outcome unit -> list tok -> Prop) :
  Q (Returned tt) t -> pcwp incConnActive t Q.
Proof. apply pcwp_modify. intros st F HI. inv_step. Qed.

Lemma pcwp_decConnActive t (Q : outcome unit -> list tok -> Prop) :
  Q (Returned tt) t -> pcwp decConnActive t Q.
Proof. apply pcwp_modify. intros st F HI. inv_step. Qed.

(** Taking an idle connection out of the pool yields its slot. *)
Lemma recv_pool_inv st c st' t F :
  recv_pool st = Some (c, st') -> pool_inv st (t ++ F) -> pool_inv st' ((Slot :: t) ++ F) /\ conn_ready s c.
Proof.
  unfold recv_pool. destruct (pool st) as [|c0 p] eqn:Hp; [done|]. intros [= <- <-] HI.
  assert (Hc : Forall (conn_ready s) (c0 :: p)) by (rewrite <-Hp; apply HI).
  apply Forall_cons in Hc as [Hc Hr]. split; [|done].
  inv_step; rewrite Hp in *; simpl in *; try done; [lia|]. intros Hcl. specialize (Hexact Hcl). lia.
Qed.

Lemma pcwp_try_recv t (Q : outcome (option connection) -> list tok -> Prop) :
  (forall c, conn_ready s c -> Q (Returned (Some c)) (Slot :: t)) -> Q (Returned None) t ->
  pcwp try_recv_pool t Q.
Proof.
  intros H1 H2 st F HI. split.
  { by destruct (recv_pool st) as [[c st']|]. }
  intros r Hr. destruct (recv_pool st) as [[c st']|] eqn:Hp; apply list_elem_of_singleton in Hr as ->.
  - destruct (recv_pool_inv st c st' t F Hp HI) as [HI' Hc]. exists (Slot :: t). split; [done|]. by apply H1.
  - exists t. split; [done|]. exact H2.
Qed.

(** Returning a connection never blocks: its slot is accounted for. *)
Lemma pcwp_releaseConn c t (Q : outcome unit -> list tok -> Prop) :
  conn_ready s c -> Q (Returned tt) t -> pcwp (releaseConn s c) (Slot :: t) Q.
Proof.
  intros Hc HQ st F HI.
  assert (Hlt : Z.of_nat (length (pool st)) < s_maxConns s).
  { destruct HI. counts. pose proof (cnt_nonneg Slot t). pose proof (cnt_nonneg Slot F). lia. }
  cbn. rewrite (proj2 (Z.ltb_lt _ _) Hlt). split; [done|].
  intros r ->%list_elem_of_singleton. exists t. split; [|done].
  inv_step; rewrite ?length_app; simpl; try lia.
  - intros Hcl. specialize (Hexact Hcl). lia.
  - by apply Forall_app_2; [|apply Forall_singleton].
Qed.

(** A call that touches no shared state, whatever it returns. *)
Lemma pcwp_call {A} (e : ext A) t (Q : outcome A -> list tok -> Prop) :
  (forall b, Q (Returned b) t) -> pcwp (lift (call e)) t Q.
Proof. intros HQ b _. apply HQ. Qed.

Lemma pcwp_io {A} (p : io A) t (Q : outcome A -> list tok -> Prop) :
  ext_only p -> wp p (fun o _ _ => exists a, o = Returned a) tt -> (forall a, Q (Returned a) t) ->
  pcwp (lift p) t Q.
Proof.
  intros Hp Hw HQ. apply cwp_lift; [done|]. eapply wp_mono; [|exact Hw]. by intros o _ _ [a ->].
Qed.

Lemma wp_endSpan_returns span e :
  wp (endSpan span e) (fun o _ _ => exists a, o = Returned a) tt.
Proof. destruct e; simpl; eauto. Qed.

Lemma pcwp_endSpan span e t (Q : outcome unit -> list tok -> Prop) :
  (forall u, Q (Returned u) t) -> pcwp (lift (endSpan span e)) t Q.
Proof. apply pcwp_io; [apply ext_only_endSpan|apply wp_endSpan_returns]. Qed.

Lemma pcwp_acquireConn ctx t (Q : outcome (connection + err) -> list tok -> Prop) :
  (forall c, conn_ready s c -> Q (Returned (inl c)) (Slot :: t)) ->
  (forall e, Q (Returned (inr e)) t) -> pcwp (acquireConn s ctx) t Q.
Proof.
  intros Hok Herr. unfold acquireConn. apply cwp_bind, pcwp_call. intros [x|]; [apply Herr|].
  apply cwp_bind, pcwp_try_recv.
  { intros c Hc. apply cwp_bind, pcwp_setState. by apply Hok. }
  apply cwp_bind. intros st F HI. destruct (Z.ltb_spec (created st) (s_maxConns s)) as [Hlt|Hge]; cbn [fst snd].
  - exists (Slot :: t). split.
    { inv_step. intros Hcl. specialize (Hexact Hcl). lia. }
    cbn [cwp]. apply cwp_bind, cwp_lift; [apply ext_only_newConnectionWithRetry|].
    apply wp_newConnectionWithRetry.
    + intros c _ _ Hst Hcfg _. apply cwp_bind, pcwp_incConnActive. apply cwp_bind, pcwp_setState.
      by apply Hok.
    + intros e _ _ _ _. apply cwp_bind. apply (pcwp_modify _ _ t).
      { clear -s. intros st F HI. inv_step. intros Hcl. specialize (Hexact Hcl). lia. }
      apply cwp_bind, pcwp_call. intros [x|]; apply cwp_bind; [apply Herr|]. apply pcwp_setState, Herr.
  - exists t. split; [done|]. cbn [cwp]. apply cwp_bind. clear st F HI Hge. intros st F HI.
    split; [by intros [_ ?]%app_eq_nil|]. intros r Hr. rewrite elem_of_app in Hr. destruct Hr as [Hr|Hr].
    + destruct (recv_pool st) as [[c st']|] eqn:Hp; [|by apply not_elem_of_nil in Hr].
      apply list_elem_of_singleton in Hr as ->.
      destruct (recv_pool_inv st c st' t F Hp HI) as [HI' Hc]. exists (Slot :: t). split; [done|].
      cbn [cwp fst]. apply cwp_bind, pcwp_setState. by apply Hok.
    + exists t. assert (Hx : exists x, r = (inr x, st)) by (decompose_list_elem_of; eauto).
      destruct Hx as [x ->]. split; [done|]. cbn [cwp fst]. apply Herr.
Qed.

Lemma pcwp_discard c t (Q : outcome unit -> list tok -> Prop) :
  Q (Returned tt) t -> pcwp (discard c) (Slot :: t) Q.
Proof.
  intros HQ. unfold discard. apply cwp_bind, pcwp_io; [apply ext_only_conn_Close| |].
  { apply wp_conn_Close. eauto. }
  intros _. apply cwp_bind. apply (pcwp_modify _ _ t).
  { intros st F HI. inv_step. intros Hcl. specialize (Hexact Hcl). lia. }
  by apply pcwp_decConnActive.
Qed.

Lemma pcwp_finish_send spanCtx span start c id e t (Q : outcome (string * error) -> list tok -> Prop) :
  conn_ready s c -> (forall r, Q (Returned r) t) ->
  pcwp (finish_send s spanCtx span start c id e) (Slot :: t) Q.
Proof.
  intros Hc HQ. unfold finish_send. apply cwp_bind.
  assert (Htail : pcwp (lift (recordPublishDuration (s_tel s) spanCtx start) ;;;
    lift (match e with
          | Some _ => incError (s_tel s) spanCtx "put_failed"
          | None => if String.eqb id "" then Ret tt
                    else call (SpanSetAttribute span "messaging.message.id" id)
          end) ;;;
    lift (endSpan span e) ;;; releaseConn s c ;;; Ret (id, e)) (Slot :: t) Q).
  { apply cwp_bind, pcwp_io; [done|simpl; eauto|]. intros _. apply cwp_bind, pcwp_io.
    - destruct e; [done|]. by destruct (String.eqb id "").
    - destruct e; [simpl; eauto|]. destruct (String.eqb id ""); simpl; eauto.
    - intros _. apply cwp_bind, pcwp_endSpan. intros _. apply cwp_bind, pcwp_releaseConn; [done|]. apply HQ. }
  destruct e; [exact Htail|]. by apply pcwp_setState.
Qed.

Lemma pcwp_put hc dest creator t (Q : outcome (string * error) -> list tok -> Prop) :
  creator_ok creator -> (forall r, Q (Returned r) t) -> (forall v, Q (Panicked v) t) ->
  pcwp (lift (put (s_cfg s) hc dest creator)) t Q.
Proof.
  intros Hc HR HP. apply cwp_lift; [apply ext_only_put, Hc|].
  eapply wp_mono; [|by apply wp_put_facts]. intros o _ tr' [_ _ _ Hout _ _ _].
  destruct Hout as [[v ->]|(id & e & ->)]; auto.
Qed.

Lemma pcwp_send_admitted ctx dest creator t (Q : outcome (string * error) -> list tok -> Prop) :
  (forall f, creator = Some f -> creator_ok f) ->
  (forall r, Q (Returned r) t) -> (forall v, Q (Panicked v) (Slot :: t)) ->
  pcwp (send_admitted s ctx dest creator) t Q.
Proof.
  intros Hf HR HP. unfold send_admitted.
  apply cwp_bind, pcwp_io; [done|simpl; eauto|]. intros [spanCtx span].
  apply cwp_bind, pcwp_io; [done|simpl; eauto|]. intros start.
  assert (Hok : creator_ok (wrap_creator (s_tel s) spanCtx creator)) by by apply creator_ok_wrap.
  apply cwp_bind, pcwp_acquireConn.
  2:{ intros e. apply cwp_bind, pcwp_io; [done|simpl; eauto|]. intros _.
      apply cwp_bind, pcwp_endSpan. intros _. apply HR. }
  intros c Hc. apply cwp_bind, pcwp_put; [done| |done]. intros [id e].
  destruct (IsConnectionError e); [|by apply pcwp_finish_send].
  apply cwp_bind, pcwp_setState. apply cwp_bind, cwp_lift; [apply ext_only_Reconnect|].
  apply wp_Reconnect.
  - intros c' _ _ Hs Hcfg _. apply cwp_bind, pcwp_setState.
    assert (Hc' : conn_ready s c') by (split; [done|]; rewrite Hcfg; apply Hc).
    apply cwp_bind, pcwp_put; [done| |done]. intros [id' [e'|]]; [|by apply pcwp_finish_send].
    apply cwp_bind, pcwp_discard. apply cwp_bind.
    assert (Htail : pcwp (lift (incError (s_tel s) spanCtx "put_failed") ;;;
      lift (endSpan span (Some e')) ;;; Ret (""%string, Some e')) t Q).
    { apply cwp_bind, pcwp_io; [done|simpl; eauto|]. intros _. apply cwp_bind, pcwp_endSpan. intros _. apply HR. }
    destruct (IsConnectionError (Some e')); [by apply pcwp_setState|exact Htail].
  - intros c' e' _ _ _ _ _ _. apply cwp_bind, pcwp_discard, cwp_bind, pcwp_setState.
    apply cwp_bind, pcwp_io; [done|simpl; eauto|]. intros _. apply cwp_bind, pcwp_endSpan. intros _. apply HR.
Qed.

(** A Send owns nothing before and nothing after; when its creator panics it
    keeps the slot of the connection it had taken. *)
Lemma pcwp_SendWithCreator ctx dest creator (Q : outcome (string * error) -> list tok -> Prop) :
  (forall f, creator = Some f -> creator_ok f) ->
  (forall r, Q (Returned r) []) -> (forall v, Q (Panicked v) [Slot]) ->
  pcwp (SendWithCreator s ctx dest creator) [] Q.
Proof.
  intros Hf HR HP. unfold SendWithCreator. destruct (String.eqb _ ""); [apply HR|].
  apply cwp_bind. intros st F HI. destruct (s_closed st) eqn:Hcl; cbn [fst snd].
  { exists []. split; [done|]. apply HR. }
  exists [Flight]. split.
  { inv_step; [intros Hw; destruct (Hwaited Hw); congruence]. }
  cbn [cwp]. unfold defer. apply cwp_tbind, pcwp_send_admitted; [done| |].
  - intros r. apply cwp_bind. apply (pcwp_modify _ _ []); [|apply HR]. clear.
    intros st F HI. inv_step. intros Hw. destruct (Hwaited Hw) as [? ?]. split; [done|].
    pose proof (cnt_nonneg Flight F). lia.
  - intros v. apply cwp_bind. apply (pcwp_modify _ _ [Slot]); [|apply HP]. clear.
    intros st F HI. inv_step. intros Hw. destruct (Hwaited Hw) as [? ?]. split; [done|].
    pose proof (cnt_nonneg Flight F). lia.
Qed.

End sends.

(** ** Probes and closes *)

Abbreviation pcwp := (cwp pool_inv may_block no_fork).

Lemma may_block_mutex st (t : list tok) (x : unit * SenderState) :
  Forall (fun x => pool_rank x = 0%nat) t -> (if poolMu st then [] else [x]) = [] -> may_block MutexLock st t.
Proof.
  intros Ht Hb. split; [|by simpl; destruct (poolMu st)]. intros y Hy.
  rewrite Forall_forall in Ht. rewrite (Ht y Hy). simpl. lia.
Qed.

Lemma may_block_wg st (t : list tok) (x : unit * SenderState) :
  Forall (fun x => pool_rank x = 0%nat) t -> (if wg st =? 0 then [x] else []) = [] -> may_block WgWait st t.
Proof.
  intros Ht Hb. split; [|by simpl; destruct (Z.eqb_spec (wg st) 0)]. intros y Hy.
  rewrite Forall_forall in Ht. rewrite (Ht y Hy). simpl. lia.
Qed.

(** The probe holds the slot it peeks at only while it holds the lock. *)
Lemma pcwp_probe (Q : outcome (list ConnectionStatus) -> list tok -> Prop) :
  (forall r, Q (Returned r) []) -> pcwp (senderHealthProber s) [] Q.
Proof.
  intros HR. unfold senderHealthProber. apply cwp_bind. intros st F HI. exists []. split; [done|].
  cbn [cwp fst]. destruct (s_closed st); [apply HR|]. clear HI. revert st.
  assert (Hp : forall x, pcwp (probe_pool s x) [] Q).
  { intros x. unfold probe_pool. apply cwp_bind. clear F. intros st F HI. split; [apply may_block_mutex; by repeat constructor|].
    intros r Hr. destruct (poolMu st) eqn:Hmu0; [by apply not_elem_of_nil in Hr|].
    apply list_elem_of_singleton in Hr as ->. exists [Lock]. split; [inv_step; rewrite Hmu0 in *; lia|].
    cbn [cwp]. unfold defer. apply cwp_tbind, cwp_bind.
    assert (Hun : forall r, pcwp (modify (set_poolMu false) ;;; Ret r) [Lock] Q).
    { intros r. apply cwp_bind. apply (pcwp_modify _ _ []); [|apply HR]. clear. intros st F HI. inv_step.
      pose proof (cnt_nonneg Lock F). destruct (poolMu st); lia. }
    apply pcwp_try_recv; [|apply Hun]. intros c Hc.
    apply cwp_bind, pcwp_releaseConn; [done|]. apply Hun. }
  intros st. destruct (s_state st); try apply HR; (destruct (created st =? 0); [apply HR|apply Hp]).
Qed.

Lemma pcwp_drain n errs t (Q : outcome (list error) -> list tok -> Prop) :
  Closer ∈ t -> (forall r, Q (Returned r) t) -> pcwp (drain n errs) t Q.
Proof.
  intros Ht HR. revert errs. induction n as [|n IH]; intros errs; cbn [drain]; [apply HR|].
  apply cwp_bind. intros st F HI. split.
  { by destruct (recv_pool st) as [[c st']|]. }
  intros r Hr. destruct (recv_pool st) as [[c st']|] eqn:Hp; apply list_elem_of_singleton in Hr as ->.
  - exists t. split.
    + unfold recv_pool in Hp. destruct (pool st) as [|c0 p] eqn:Hpool; simplify_eq.
      assert (Hcl : s_closed st = true).
      { apply HI. rewrite cnt_app. apply list_elem_of_split in Ht as (t1 & t2 & ->).
        rewrite cnt_app, cnt_same. pose proof (cnt_nonneg Closer t1). pose proof (cnt_nonneg Closer t2).
        pose proof (cnt_nonneg Closer F). lia. }
      destruct HI as [H1 H2 H3 H4 H5 H6 H7 H8]. rewrite Hpool in *. apply Forall_cons in H6 as [_ H6].
      split; simpl in *; try done; [lia|]. congruence.
    + cbn [cwp fst]. apply cwp_bind, pcwp_io; [apply ext_only_conn_Close|apply wp_conn_Close; eauto|].
      intros [c' e]. apply IH.
  - exists t. split; [done|]. cbn [cwp fst]. apply IH.
Qed.

(** Close after it has marked the sender closed. *)
Lemma pcwp_close_tail n t (Q : outcome error -> list tok -> Prop) :
  Forall (fun x => pool_rank x = 0%nat) t -> (forall r, Q (Returned r) (Closer :: Waited :: t)) ->
  pcwp
    (select WgWait (fun st => if wg st =? 0 then [(tt, st)] else []) ;;;
     select MutexLock (fun st => if poolMu st then [] else [(tt, set_poolMu true st)]) ;;;
     defer (modify (set_poolMu false))
       (do! errs <- drain n []; Ret (errors_Join errs))) (Closer :: t) Q.
Proof.
  intros Ht HC.
  apply cwp_bind. intros st F HI. split; [apply may_block_wg; by repeat constructor|]. intros r Hr.
  destruct (Z.eqb_spec (wg st) 0) as [Hz|Hz]; [|by apply not_elem_of_nil in Hr].
  apply list_elem_of_singleton in Hr as ->. exists (Closer :: Waited :: t). split.
  { inv_step. intros _. split; [|lia]. apply Hcloser.
    pose proof (cnt_nonneg Closer F). pose proof (cnt_nonneg Closer t). lia. }
  cbn [cwp]. apply cwp_bind. clear st F HI Hz. intros st F HI.
  split; [apply may_block_mutex; by repeat constructor|]. intros r Hr.
  destruct (poolMu st) eqn:Hmu0; [by apply not_elem_of_nil in Hr|].
  apply list_elem_of_singleton in Hr as ->. exists (Lock :: Closer :: Waited :: t). split.
  { inv_step. rewrite Hmu0 in *. lia. }
  cbn [cwp]. unfold defer. apply cwp_tbind, cwp_bind, pcwp_drain; [set_solver|]. intros errs.
  apply cwp_bind. apply (pcwp_modify _ _ (Closer :: Waited :: t)); [|apply HC]. clear.
  intros st F HI. inv_step. pose proof (cnt_nonneg Lock F). pose proof (cnt_nonneg Lock t).
  destruct (poolMu st); lia.
Qed.

(** One of several closes ends owning [Closer] and [Waited] besides, or nothing new
    when it was not the first. *)
Lemma pcwp_close (Q : outcome error -> list tok -> Prop) :
  (forall r, Q (Returned r) [AnyShut]) -> (forall r, Q (Returned r) [Closer; Waited; AnyShut]) ->
  pcwp Sender_close [AnyShut] Q.
Proof.
  intros HR HC. unfold Sender_close. apply cwp_bind. intros st F HI.
  destruct (s_closed st) eqn:Hcl; cbn [fst snd]; [exists [AnyShut]; split; [done|apply HR]|].
  exists [Closer; AnyShut]. split; [|apply pcwp_close_tail; [by repeat constructor|done]].
  inv_step; try congruence. intros Hm. specialize (Hopen Hm). pose proof (cnt_nonneg AnyShut F). lia.
Qed.

(** The only close finds the sender open. *)
Lemma pcwp_close_once (Q : outcome error -> list tok -> Prop) :
  (forall r, Q (Returned r) [Closer; Waited]) -> pcwp Sender_close [MayShut] Q.
Proof.
  intros HC. unfold Sender_close. apply cwp_bind. intros st F HI.
  assert (Ho : s_closed st = false /\ cnt MayShut F = 0).
  { pose proof (cnt_nonneg MayShut F). destruct (pi_open _ _ HI) as (? & Hm & _); counts; [lia|]. split; [done|lia]. }
  destruct Ho as [Hcl HF]. rewrite Hcl. cbn [fst snd].
  exists [Closer]. split; [|by apply pcwp_close_tail]. inv_step; congruence.
Qed.

End pool.

(** ** Goroutines of a sender *)

Inductive pool_op :=
| OpSend (ctx : Ctx) (dest : string) (creator : option MessageCreator)
| OpProbe
| OpClose.

Inductive pool_result :=
| Sent (r : string * error)
| Probed (ds : list ConnectionStatus)
| Closed (e : error).

Definition op_ok (op : pool_op) : Prop :=
  match op with OpSend _ _ creator => forall f, creator = Some f -> creator_ok f | _ => True end.

Definition goroutine `{MQBinding} `{GoArch} (s : Sender) (op : pool_op) : prog SenderState pool_result :=
  match op with
  | OpSend ctx dest creator => do! r <- SendWithCreator s ctx dest creator; Ret (Sent r)
  | OpProbe => do! ds <- senderHealthProber s; Ret (Probed ds)
  | OpClose => do! e <- Sender_close; Ret (Closed e)
  end.

(** Any number of operations started together on a new sender. *)
Definition pool_machine `{MQBinding} `{GoArch} (s : Sender) (ops : list pool_op)
    : machine SenderState pool_result :=
  mkMachine SenderState_init (map (goroutine s) ops).

Abbreviation pool_reachable := (reachable (fun _ => Probed [])).

Definition has_returned {S A} (p : prog S A) : Prop := exists a, p = Ret a.

Section pool_claims.
Context `{MQBinding} `{GoArch}.
Variable s : Sender.

(** What a goroutine may still own when it ends. *)
Definition end_tokens (o : outcome pool_result) (t : list tok) : Prop :=
  match o with
  | Returned _ => t = [] \/ t = [AnyShut] \/ t = [Closer; Waited; AnyShut]
  | Panicked _ => t = [Slot]
  | _ => False
  end.

(** What it owns when it starts. *)
Definition start_tokens (op : pool_op) : list tok := match op with OpClose => [AnyShut] | _ => [] end.

Lemma pool_machine_inv ops m :
  0 <= s_maxConns s -> Forall op_ok ops -> pool_reachable (pool_machine s ops) m ->
  machine_inv (pool_inv s) may_block no_fork end_tokens m.
Proof.
  intros Hmax Hops Hr. eapply (reachable_inv (pool_inv s) may_block no_fork (Inv_proper := pool_inv_proper s));
    [|exact Hr|].
  { by intros o t []. }
  exists (map start_tokens ops). split; simpl.
  - rewrite Forall2_fmap. apply Forall2_same_length_lookup_2; [done|]. intros i op op' Hop Hop'.
    assert (op = op') as <- by congruence. clear Hop'.
    assert (Hok : op_ok op) by (by eapply Forall_lookup_1).
    destruct op as [ctx dest creator| |]; apply cwp_bind.
    + apply pcwp_SendWithCreator; simpl; auto.
    + apply pcwp_probe; simpl; auto.
    + apply pcwp_close; simpl; auto.
  - assert (Hc : forall x, x <> AnyShut -> cnt x (concat (map start_tokens ops)) = 0).
    { intros x Hx. clear -Hx. induction ops as [|[] ops IH]; cbn [map start_tokens concat app]; try done.
      by rewrite cnt_diff. }
    split; simpl; rewrite ?Hc by done; try done; lia.
Qed.

(** A share of tokens left by a goroutine that has returned holds no slot, no
    flight and no lock. *)
Lemma returned_tokens (ps : list (prog SenderState pool_result)) tss :
  Forall has_returned ps ->
  Forall2 (fun p t => cwp (pool_inv s) may_block no_fork p t end_tokens) ps tss ->
  cnt Slot (concat tss) = 0 /\ cnt Flight (concat tss) = 0 /\ cnt Lock (concat tss) = 0.
Proof.
  intros Hr. revert tss. induction Hr as [|p ps [a ->] _ IH]; intros tss Hf; inversion Hf; subst; [done|].
  simpl. rewrite !cnt_app.
  match goal with Hx : Forall2 _ ps _ |- _ => destruct (IH _ Hx) as (-> & -> & ->) end.
  match goal with Hx : cwp _ _ _ (Ret a) _ _ |- _ => destruct Hx as [->|[->| ->]] end; done.
Qed.

(** C2: the pool under any interleaving.  However many goroutines send, probe
    and close at once, in every state they can reach: the sender never has more
    than maxConns connections, created or being created; the pool holds no more
    than are counted, and only usable ones; and no goroutine is ever stuck giving a
    connection back.  Once every call has returned, nothing is in flight and the
    pool lock is free, and if the sender is still open every connection counted is
    back in the pool. *)
Theorem pool_interleaving ops m :
  0 <= s_maxConns s -> Forall op_ok ops -> pool_reachable (pool_machine s ops) m ->
  let st := shared m in
  0 <= Z.of_nat (length (pool st)) <= created st /\ created st <= s_maxConns s /\
  Forall (conn_ready s) (pool st) /\
  (forall p, p ∈ threads m -> ~ stuck_on ChanSend p st) /\
  (Forall has_returned (threads m) -> wg st = 0 /\ poolMu st = false /\
     (s_closed st = false -> created st = Z.of_nat (length (pool st)))).
Proof.
  intros Hmax Hops Hr st. pose proof (pool_machine_inv ops m Hmax Hops Hr) as Hm.
  pose proof Hm as (tss & Hts & [Hs Hx Hmx Hwg Hmu Hrd _ _ _]). fold st in Hs, Hx, Hmx, Hwg, Hmu, Hrd.
  split_and!; [lia|pose proof (cnt_nonneg Slot (concat tss)); lia|done|done| |].
  - intros p Hp Hst. by destruct (machine_inv_stuck (pool_inv s) may_block no_fork
      (Inv_proper := pool_inv_proper s) end_tokens m ChanSend p Hm Hp Hst) as (t & _ & []).
  - intros Hret. destruct (returned_tokens _ _ Hret Hts) as (H1 & H2 & H3).
    rewrite H2 in Hwg. rewrite H3 in Hmu. split_and!; [done|by destruct (poolMu st)|].
    intros Hcl. specialize (Hx Hcl). lia.
Qed.

#[export] Instance pool_waits_for : WaitsFor (pool_inv s) pool_rank pool_waits.
Proof.
  split; [|by intros []; simpl; lia]. intros o st ts HI Hw. destruct o; try done; simpl in Hw.
  - exists Lock. split; [|done]. apply cnt_elem. pose proof (pi_mu _ _ _ HI) as Hmu. rewrite Hw in Hmu. lia.
  - exists Flight. split; [|done]. apply cnt_elem. pose proof (pi_wg _ _ _ HI) as Hwg.
    pose proof (cnt_nonneg Flight ts). lia.
Qed.

Lemma end_tokens_idle : idle_end pool_rank end_tokens.
Proof.
  intros o t x Ho _ Hx. destruct o as [a|v| | |]; simpl in Ho; [|subst t|done..].
  - destruct Ho as [->|[->| ->]]; decompose_list_elem_of; by subst.
  - by apply list_elem_of_singleton in Hx as ->.
Qed.

(** No deadlock in a pool.  Whatever sends, probes and closes run at once, in every
    state they can reach either every call has ended or some goroutine can move:
    close cannot wait for a send that waits for it, nor a probe for a lock whose
    holder waits.  (A send that waits for a connection can always be ended by its
    context.) *)
Theorem pool_no_deadlock ops m :
  0 <= s_maxConns s -> Forall op_ok ops -> pool_reachable (pool_machine s ops) m ->
  Forall (fun p => finished p = true) (threads m) \/ can_step (fun _ => Probed []) m.
Proof.
  intros Hmax Hops Hr. pose proof (pool_machine_inv ops m Hmax Hops Hr) as Hm.
  destruct (no_deadlock (pool_inv s) pool_rank pool_waits no_fork end_tokens (fun _ => Probed [])
    (Inv_proper := pool_inv_proper s) m end_tokens_idle Hm) as [?|[Hf|?]]; [by left| |by right].
  exfalso. destruct Hm as (tss & Hts & _). apply list_elem_of_lookup in Hf as [i Hi].
  by destruct (Forall2_lookup_l _ _ _ _ _ Hts Hi) as (t & _ & []).
Qed.

End pool_claims.

(** *** A close that misses a connection *)

(** A Send is admitted and has checked its context; close marks the sender
    closed, counting no connection; the Send then dials, puts and pools its
    connection; close waits for it and drains as many connections as it counted. *)
Definition leak_schedule : list nat := repeat 0%nat 4 ++ [1%nat] ++ repeat 0%nat 40 ++ repeat 1%nat 10.

Definition leak_ops : list pool_op := [OpSend 0 "" (Some (body_creator "hi")); OpClose].

Definition leak_machine : machine SenderState pool_result :=
  exec scripted (fun _ => Probed []) leak_schedule
    (@pool_machine ibm_binding amd64 sample_sender leak_ops) calm.

(** C25: close can leave a connection behind.  A Send that is in flight when close
    starts may create its connection after close has counted the connections to
    drain: in this reachable state both calls have returned without error, the
    sender is closed, and a connection sits in the pool that nobody will ever
    disconnect. *)
Theorem close_misses_connection :
  pool_reachable (@pool_machine ibm_binding amd64 sample_sender leak_ops) leak_machine /\
  (exists id, threads leak_machine = [Ret (Sent (id, None)); Ret (Closed None)]) /\
  s_closed (shared leak_machine) = true /\ length (pool (shared leak_machine)) = 1%nat.
Proof.
  split; [apply exec_reachable, scripted_ok|].
  split; [eexists; vm_compute; reflexivity|]. split; vm_compute; reflexivity.
Qed.

(** *** Witness: the same interleaving *)

Lemma pool_interleaving_witness :
  created (shared leak_machine) <= 3 /\ wg (shared leak_machine) = 0.
Proof.
  destruct (@pool_interleaving ibm_binding amd64 sample_sender leak_ops leak_machine)
    as (_ & Hc & _ & _ & Hret).
  - simpl. lia.
  - apply Forall_cons; split; [intros f [= <-]; apply creator_ok_body|]. by repeat constructor.
  - apply exec_reachable, scripted_ok.
  - split; [exact Hc|]. apply Hret. vm_compute. repeat constructor; by eexists.
Defined.

(** Close has marked the sender closed and waits for the Send. *)
Definition waiting_machine : machine SenderState pool_result :=
  exec scripted (fun _ => Probed []) (repeat 0%nat 4 ++ repeat 1%nat 3)
    (@pool_machine ibm_binding amd64 sample_sender leak_ops) calm.

Lemma pool_no_deadlock_witness :
  stuck_thread WgWait 1 waiting_machine /\
  can_step (fun _ => Probed []) waiting_machine.
Proof.
  split; [vm_compute; split; reflexivity|].
  destruct (@pool_no_deadlock ibm_binding amd64 sample_sender leak_ops waiting_machine) as [Hf|Hs].
  - simpl. lia.
  - apply Forall_cons; split; [intros f [= <-]; apply creator_ok_body|]. by repeat constructor.
  - apply exec_reachable, scripted_ok.
  - exfalso. apply Forall_finished in Hf. vm_compute in Hf. discriminate.
  - exact Hs.
Defined.
