(* ===== verification/ListenerLife.v ===== *)
(** * The life cycle of a listener under concurrency

    Start, its consumer goroutines, the health probe and the one close that the
    client makes, in any interleaving.  A goroutine owns tokens that say how far it
    has got: what it knows while it holds [l.mu], that it is the Start that runs
    (with the number of consumers still to start), that it is consumer [i] (with or
    without a connection), and what close has seen.  [life_inv] ties the listener's
    fields to the tokens in circulation. *)

From Stdlib Require Import ZArith Lia Strings.Byte.
From stdpp Require Import base numbers list option strings gmap.
From S2P Require Import Prelude GoErrors Float64 Config Mqi GoProg Compose Script Backoff Connection.
From S2P Require Import Telemetry Wire Sender Listener RequestReply Health.

Local Open Scope Z_scope.
Local Open Scope go_scope.

(** The holder of [l.mu] knows nothing ([Mu]), that the listener is open ([MuOpen]),
    open and not started ([MuFresh]), being started by itself ([MuInit]), or closed
    by itself ([MuClosed]). *)
Inductive ltok :=
| Mu | MuOpen | MuFresh | MuInit | MuClosed
| Starter (k : nat) | StarterIdle | StarterErrs (es : list err)
| Consumer (i : nat) (conn : bool) | Reporting | Leaving
| MayClose | NeverStarted | SawStarted | SawDone | SawErrs (es : list err).

(** Weights of tokens: the lock, the running Start, the WaitGroup, room reserved
    in the error channel, open connections. *)
Definition w_lock (x : ltok) : Z :=
  match x with Mu | MuOpen | MuFresh | MuInit | MuClosed => 1 | _ => 0 end.

Definition w_start (x : ltok) : Z :=
  match x with MuInit | Starter _ | StarterIdle | StarterErrs _ => 1 | _ => 0 end.

Definition w_work (x : ltok) : Z :=
  match x with Consumer _ _ | Reporting | Leaving => 1 | _ => 0 end.

Definition w_room (x : ltok) : Z :=
  match x with Starter k => Z.of_nat k | Consumer _ _ | Reporting => 1 | _ => 0 end.

Definition w_conn (x : ltok) : Z := match x with Consumer _ true => 1 | _ => 0 end.

Definition w_close (x : ltok) : Z := match x with MayClose => 1 | _ => 0 end.

(** The states in which a consumer's slot comes to rest. *)
Definition at_rest (x : ConnectionState) : Prop := x = StateStopped \/ x = StateFailed.

(** No consumer is running, none holds a connection, every slot is at rest. *)
Definition quiet (st : ListenerState) : Prop :=
  l_wg st = 0 /\ l_active st = 0 /\ Forall at_rest (l_states st).

(** ** Ranges of the weights *)

Lemma w_lock_range x : 0 <= w_lock x <= 1.
Proof. destruct x; simpl; lia. Qed.

Lemma w_start_range x : 0 <= w_start x <= 1.
Proof. destruct x; simpl; lia. Qed.

Lemma w_work_range x : 0 <= w_work x <= 1.
Proof. destruct x; simpl; lia. Qed.

Lemma w_close_range x : 0 <= w_close x <= 1.
Proof. destruct x; simpl; lia. Qed.

Lemma w_room_nonneg x : 0 <= w_room x.
Proof. destruct x; simpl; lia. Qed.

Lemma w_conn_work x : 0 <= w_conn x <= w_work x.
Proof. destruct x as [| | | | | | | |? []| | | | | | |]; simpl; lia. Qed.

(** Where a goroutine may block: never while it holds the lock or is a consumer;
    on the lock while it is held, in Start while consumers run, and in close,
    never in Start, while Start runs. *)
Definition life_rank (x : ltok) : nat :=
  if decide (w_lock x = 0 /\ w_work x = 0) then (if decide (w_start x = 0) then 0 else 1) else 2.

Definition life_waits (o : chanop) (st : ListenerState) : Prop :=
  match o with
  | MutexLock => l_mu st = true
  | WgWait => l_wg st <> 0
  | ChanRecv => l_done st = Some false
  | _ => False
  end.

Abbreviation life_may_block := (blocks life_rank life_waits).

(** Accounts of blocking under which a Start may wait for the lock and for its
    consumers; it never receives from a channel. *)
Class StartBlocks (mb : chanop -> ListenerState -> list ltok -> Prop) : Prop :=
  start_blocks : forall o st t, o <> ChanRecv -> life_may_block o st t -> mb o st t.

#[export] Instance life_may_block_start : StartBlocks life_may_block.
Proof. by intros o st t _. Qed.

(** The least of them. *)
Definition start_may_block (o : chanop) (st : ListenerState) (t : list ltok) : Prop :=
  o <> ChanRecv /\ life_may_block o st t.

#[export] Instance start_may_block_start : StartBlocks start_may_block.
Proof. by intros o st t. Qed.

#[export] Instance start_may_block_perm : PermBlock start_may_block.
Proof. intros o s t t' Ht [Ho Hb]. split; [done|]. by eapply perm_block. Qed.

Section life.
Context `{MQBinding} `{GoArch}.
Variable l : Listener.

(** ** The invariant *)

(** What a token says of the listener. *)
Definition tok_fact (st : ListenerState) (x : ltok) : Prop :=
  match x with
  | MuOpen | MayClose => l_closed st = false
  | MuFresh => l_closed st = false /\ l_started st = false
  | MuInit => l_started st = true /\ l_done st = None
  | MuClosed => l_closed st = true
  | StarterIdle => l_wg st = 0
  | StarterErrs es => l_wg st = 0 /\ l_errs st = es
  | NeverStarted => l_closed st = true /\ l_started st = false
  | SawStarted => l_closed st = true /\ l_done st <> None
  | SawDone => l_closed st = true /\ l_done st = Some true
  | SawErrs es => l_done st = Some true /\ l_errs st = es
  | _ => True
  end.

Definition slots : nat := Z.to_nat (l_concurrency l).

(** Slot [i] is at rest, or its consumer runs, or it is still to be started. *)
Definition slot_fact (st : ListenerState) (ts : list ltok) (i : nat) : Prop :=
  (exists x, l_states st !! i = Some x /\ at_rest x) \/
  (exists b, Consumer i b ∈ ts) \/ MuInit ∈ ts \/
  (exists k, Starter k ∈ ts /\ (slots - k <= i)%nat).

Definition running (st : ListenerState) : bool :=
  l_started st && match l_done st with Some true => false | _ => true end.

Record life_inv (st : ListenerState) (ts : list ltok) : Prop := {
  li_mu : weigh w_lock ts = if l_mu st then 1 else 0;
  li_start : weigh w_start ts = if running st then 1 else 0;
  li_may : weigh w_close ts <= 1;
  li_wg : l_wg st = weigh w_work ts;
  li_room : Z.of_nat (length (l_errs st)) + weigh w_room ts <= Z.of_nat slots;
  li_conn : l_active st = weigh w_conn ts;
  li_len : length (l_states st) = slots;
  li_new : l_started st = false -> l_done st = None;
  li_fresh : l_done st = None -> l_errs st = [] /\ weigh w_room ts = 0;
  li_init : l_started st = true -> l_done st = None -> MuInit ∈ ts;
  li_done : l_done st = Some true -> l_wg st = 0;
  li_slots : l_started st = true -> forall i, (i < slots)%nat -> slot_fact st ts i;
  li_tok : forall x, x ∈ ts -> tok_fact st x
}.

(** A consumer goroutine gives everything back. *)
Definition consumer_end (o : outcome unit) (t : list ltok) : Prop :=
  match o with Returned _ => t = [] | NoFuel => True | _ => False end.

Context {mb : chanop -> ListenerState -> list ltok -> Prop} `{!StartBlocks mb}.

Abbreviation lcwp := (cwp life_inv mb consumer_end).

#[export] Instance life_inv_proper st : Proper ((≡ₚ) ==> iff) (life_inv st).
Proof.
  assert (Hp : forall ts ts', ts ≡ₚ ts' -> life_inv st ts -> life_inv st ts').
  { intros ts ts' Hts []. split; rewrite <-?Hts; try done.
    - intros Hs i Hi. specialize (li_slots0 Hs i Hi). unfold slot_fact in *. by setoid_rewrite <-Hts.
    - intros x Hx. apply li_tok0. by rewrite Hts. }
  intros ts ts' Hts. split; apply Hp; [done|by symmetry].
Qed.

(** Tokens whose presence a slot or the initialisation depends on. *)
Definition structural (x : ltok) : bool :=
  match x with MuInit | Starter _ | Consumer _ _ => true | _ => false end.

Lemma slot_fact_mono st ts ts' i :
  (forall x, structural x = true -> x ∈ ts -> x ∈ ts') -> slot_fact st ts i -> slot_fact st ts' i.
Proof.
  intros Hs [Hx|[(b & Hb)|[Hb|(k & Hk & Hi)]]]; [by left|right..].
  - left. exists b. by apply Hs.
  - right. left. by apply Hs.
  - right. right. exists k. split; [by apply Hs|done].
Qed.

(** A token of weight 1 cannot be elsewhere when the weight elsewhere is 0. *)
Lemma weigh_absent (w : ltok -> Z) x F : (forall y, 0 <= w y <= 1) -> weigh w F <= 0 -> w x = 1 -> x ∈ F -> False.
Proof.
  intros Hw HF Hx Hin. pose proof (weigh_elem w x F (fun y => proj1 (Hw y)) Hin). lia.
Qed.

(** Membership among a few tokens in front of a frame. *)
Ltac mem :=
  repeat match goal with
  | Hin : _ ∈ _ :: _ |- _ =>
      apply elem_of_cons in Hin as [Hin|Hin]; [first [discriminate Hin | subst; discriminate | idtac]|]
  end;
  rewrite ?elem_of_cons; auto; try congruence.

Ltac open_inv HI :=
  destruct HI as [Hmu Hstart Hmay Hwg Hroom Hconn Hlen Hnew Hfresh Hinit Hdone Hslots Htok];
  rewrite ?weigh_app in *; cbn [weigh app w_lock w_start w_close w_work w_room w_conn] in *.

(** Preservation by one step: the weights are arithmetic, the rest is for the
    caller. *)
Ltac inv_step :=
  match goal with HI : life_inv _ _ |- _ => open_inv HI end;
  split; unfold running in *; rewrite ?weigh_app; cbn [weigh app w_lock w_start w_close w_work w_room w_conn
    set_l_mu set_l_started set_l_closed set_l_cancel set_l_done set_l_states set_l_wg set_l_errs
    l_mu l_started l_closed l_cancel l_done l_states l_wg l_errs l_active activeConns setActiveConns Listener_active
    fst snd] in *; try done; try lia.

Lemma lcwp_modify f t t' (Q : outcome unit -> list ltok -> Prop) :
  (forall st F, life_inv st (t ++ F) -> life_inv (f st) (t' ++ F)) -> Q (Returned tt) t' ->
  lcwp (modify f) t Q.
Proof. intros Hf HQ st F HI. exists t'. split; [by apply Hf|done]. Qed.

Lemma lcwp_call {A} (e : ext A) t (Q : outcome A -> list ltok -> Prop) :
  (forall b, Q (Returned b) t) -> lcwp (lift (call e)) t Q.
Proof. intros HQ b _. apply HQ. Qed.

(** ** Steps of a consumer *)

Lemma store_state_spec i x st :
  exists ss, store_state (Z.of_nat i) x st = set_l_states ss st /\ length ss = length (l_states st) /\
    (forall j, j <> i -> ss !! j = l_states st !! j) /\
    ((i < length (l_states st))%nat -> ss !! i = Some x).
Proof.
  unfold store_state. rewrite (proj2 (Z.leb_le 0 (Z.of_nat i))), Nat2Z.id by lia. simpl.
  destruct (Z.ltb_spec (Z.of_nat i) (Z.of_nat (length (l_states st)))).
  - eexists. split; [reflexivity|]. rewrite length_insert. split_and!; [done| |].
    + intros j Hj. by apply list_lookup_insert_ne.
    + intros Hi. by apply list_lookup_insert_eq.
  - exists (l_states st). split_and!; try done; [by destruct st|lia].
Qed.

Lemma inv_store i b x st F :
  life_inv st ([Consumer i b] ++ F) -> life_inv (store_state (Z.of_nat i) x st) ([Consumer i b] ++ F).
Proof.
  intros HI. destruct (store_state_spec i x st) as (ss & -> & Hl & Hne & _). inv_step.
  intros Hs j Hj. destruct (decide (j = i)) as [->|Hji]; [right; left; exists b; mem|].
  destruct (Hslots Hs j Hj) as [(y & Hy & Hr)|Hx]; [left|by right].
  exists y. split; [|done]. simpl. by rewrite Hne.
Qed.

Lemma inv_rest i x st F :
  at_rest x -> life_inv st ([Consumer i false] ++ F) ->
  life_inv (store_state (Z.of_nat i) x st) ([Reporting] ++ F).
Proof.
  intros Hx HI. destruct (store_state_spec i x st) as (ss & -> & Hl & Hne & Hi). inv_step.
  - intros Hs Hd. specialize (Hinit Hs Hd). mem.
  - intros Hs j Hj. destruct (decide (j = i)) as [->|Hji]; [left; exists x; split; [apply Hi; lia|done]|].
    destruct (Hslots Hs j Hj) as [(y & Hy & Hr)|[(b & Hb)|[Hb|(k & Hk & Hj')]]].
    + left. exists y. split; [|done]. simpl. by rewrite Hne.
    + right. left. exists b. mem.
    + right. right. left. mem.
    + right. right. right. exists k. mem.
  - intros y [->|Hy]%elem_of_cons; [done|]. apply (Htok y). mem.
Qed.

Lemma ext_only_report ctx msg e : ext_only (reportError l ctx msg e).
Proof.
  unfold reportError. destruct (l_onError l); [|done]. destruct e; [|done].
  apply ext_only_recover; [done|]. apply ext_only_bind; [done|]. by intros [].
Qed.

Lemma ext_only_handle ctx f md data : ext_only (handle_message l ctx (user_handler f) md data).
Proof.
  unfold handle_message. apply ext_only_bind; [apply ext_only_extract|]. intros c.
  apply ext_only_bind; [done|]. intros [spanCtx span]. apply ext_only_bind; [done|]. intros start.
  apply ext_only_bind.
  { unfold invokeHandler. apply ext_only_bind; [apply ext_only_bind; [done|by intros []]|]. by intros [m' [e|v]]. }
  intros [m' e]. apply ext_only_bind.
  { destruct e; [|done]. apply ext_only_bind; [done|]. intros _. apply ext_only_report. }
  intros _. apply ext_only_bind; [apply ext_only_receive|]. intros _. apply ext_only_endSpan.
Qed.

Lemma ext_only_polls m ctx q f : ext_only (consume_polls m l ctx q (user_handler f)).
Proof.
  induction m as [|m IH]; cbn [consume_polls]; [done|]. apply ext_only_bind; [done|]. intros [x|]; [done|].
  apply ext_only_bind; [done|]. intros [[md data]|e].
  - apply ext_only_bind; [apply ext_only_handle|]. by intros _.
  - by destruct (IsEmptyQueueError (Some e)).
Qed.

Lemma ext_only_consumeLoop m ctx c f : ext_only (consumeLoop m l ctx c (user_handler f)).
Proof.
  unfold consumeLoop. apply ext_only_bind; [done|]. intros [[q od]|e]; [|done].
  apply ext_only_defer; [done|apply ext_only_polls].
Qed.

Lemma lcwp_setState i b x (Q : outcome unit -> list ltok -> Prop) :
  Q (Returned tt) [Consumer i b] -> lcwp (setConsumerState (Z.of_nat i) x) [Consumer i b] Q.
Proof. apply lcwp_modify. intros st F. apply inv_store. Qed.

Lemma lcwp_rounds n m ctx c f i :
  lcwp (consumer_rounds n m l ctx c (user_handler f) (Z.of_nat i)) [Consumer i true] (fun o t =>
    match o with
    | Returned (_, r) => (exists e, r = inl e) /\ t = [Consumer i true]
    | NoFuel => True
    | _ => False
    end).
Proof.
  revert c. induction n as [|n IH]; intros c; cbn [consumer_rounds]; [done|].
  apply cwp_bind, lcwp_call. intros [x|]; [by split; [eexists|]|].
  apply cwp_bind. unfold try. apply cwp_tbind, cwp_lift; [apply ext_only_consumeLoop|].
  eapply wp_mono; [|apply wp_consumeLoop]. intros o _ t [_ Ho].
  destruct o as [[e|]|v| | |]; try done; [|by split; [eexists|]]. clear Ho. cbn [cwp].
  apply cwp_bind, lcwp_call. intros [x|]; [by split; [eexists|]|].
  destruct (IsConnectionError (Some e)); [|by split; [eexists|]].
  apply cwp_bind, lcwp_setState, cwp_bind, cwp_lift; [apply ext_only_Reconnect|].
  apply wp_Reconnect.
  - intros c' _ _ _ _ _. apply cwp_bind, lcwp_setState, IH.
  - intros c' e' _ _ _ _ _ _. apply cwp_bind, lcwp_call. intros [x|]; by split; [eexists|].
Qed.

Lemma lcwp_active b i (Q : outcome unit -> list ltok -> Prop) :
  Q (Returned tt) [Consumer i (negb b)] ->
  lcwp (if b then decConnActive else incConnActive) [Consumer i b] Q.
Proof.
  intros HQ. assert (Hst : forall d st F, d = (if b then -1 else 1) ->
    life_inv st ([Consumer i b] ++ F) ->
    life_inv (setActiveConns (activeConns st + d) st) ([Consumer i (negb b)] ++ F)).
  { intros d st F -> HI. inv_step.
    - destruct b; simpl in *; lia.
    - intros Hs Hd. specialize (Hinit Hs Hd). mem.
    - intros Hs j Hj. destruct (Hslots Hs j Hj) as [Hy|[(b' & Hb)|[Hb|(k & Hk & Hj')]]].
      + by left.
      + right. left. apply elem_of_cons in Hb as [Hb|Hb]; [|exists b'; mem].
        simplify_eq. exists (negb b). mem.
      + right. right. left. mem.
      + right. right. right. exists k. mem.
    - intros y [->|Hy]%elem_of_cons; [done|]. apply (Htok y). mem. }
  destruct b; (eapply lcwp_modify; [|exact HQ]); intros st F HI; by apply Hst.
Qed.

Lemma lcwp_body n m ctx f i :
  lcwp (consumer_body n m l ctx (user_handler f) (Z.of_nat i)) [Consumer i false] (fun o t =>
    match o with Returned _ => t = [Consumer i false] | NoFuel => True | _ => False end).
Proof.
  unfold consumer_body. apply cwp_bind, lcwp_call. intros [x|]; [done|].
  apply cwp_bind, lcwp_setState, cwp_bind, cwp_lift; [apply ext_only_newConnectionWithRetry|].
  apply wp_newConnectionWithRetry.
  - intros c _ _ _ _ _. apply cwp_bind, lcwp_setState, cwp_bind, (lcwp_active false), cwp_bind.
    eapply cwp_mono; [|apply lcwp_rounds]. intros o t Ho. destruct o as [[c' r]|v| | |]; try done.
    destruct Ho as [[e ->] ->]. apply cwp_bind, (lcwp_active true), cwp_bind, cwp_lift;
      [apply ext_only_conn_Close|]. apply wp_conn_Close. by intros.
  - intros e _ _ _ _. apply cwp_bind, lcwp_call. by intros [x|].
Qed.

Lemma lcwp_rest i x (Q : outcome unit -> list ltok -> Prop) :
  at_rest x -> Q (Returned tt) [Reporting] -> lcwp (setConsumerState (Z.of_nat i) x) [Consumer i false] Q.
Proof. intros Hx. apply lcwp_modify. intros st F. by apply inv_rest. Qed.

Lemma lcwp_runConsumer n m ctx f i :
  lcwp (runConsumer n m l ctx (user_handler f) (Z.of_nat i)) [Consumer i false] (fun o t =>
    match o with Returned _ => t = [Reporting] | NoFuel => True | _ => False end).
Proof.
  unfold runConsumer. apply cwp_bind. unfold try. apply cwp_tbind.
  eapply cwp_mono; [|apply lcwp_body]. intros o t Ho. destruct o as [e|v| | |]; try done. subst t.
  cbn [cwp]. apply cwp_bind. destruct e as [e|].
  - apply cwp_bind, lcwp_rest; [by right|]. apply cwp_lift; [apply ext_only_report|].
    unfold reportError. destruct (l_onError l); wp_go; [|done]. destruct b; by wp_go.
  - apply lcwp_rest; [by left|done].
Qed.

(** Leaving: the WaitGroup is decremented last. *)
Lemma inv_leave x st F :
  x = Reporting \/ x = Leaving -> life_inv st ([x] ++ F) -> life_inv (set_l_wg (l_wg st - 1) st) ([] ++ F).
Proof.
  intros Hx HI. pose proof (weigh_nonneg w_work F (fun y => proj1 (w_work_range y))).
  pose proof (weigh_nonneg w_room F w_room_nonneg).
  destruct Hx as [-> | ->]; inv_step.
  all: try (intros Hd; specialize (Hdone Hd); lia).
  all: try (intros Hd; destruct (Hfresh Hd); split; [done|lia]).
  all: try (intros Hs Hd; specialize (Hinit Hs Hd); mem).
  all: try (intros Hs j Hj; eapply slot_fact_mono; [|by apply Hslots]; intros z Hz Hin; mem).
  all: intros y Hy; assert (Hf : tok_fact st y) by (apply Htok; mem); destruct y; try done; simpl in *; lia.
Qed.

(** The error channel has room for every consumer that may still report. *)
Lemma lcwp_consumer n m ctx f i :
  lcwp (consumer_goroutine n m l ctx (user_handler f) (Z.of_nat i)) [Consumer i false] consumer_end.
Proof.
  unfold consumer_goroutine, defer. apply cwp_tbind, cwp_bind.
  eapply cwp_mono; [|apply lcwp_runConsumer]. intros o t Ho. destruct o as [e|v| | |]; try done. subst t.
  assert (Hend : forall x, x = Reporting \/ x = Leaving ->
    lcwp (modify (fun st => set_l_wg (l_wg st - 1) st) ;;; Ret tt) [x] consumer_end).
  { intros x Hx. apply cwp_bind. apply (lcwp_modify _ _ []); [|done]. intros st F. by apply inv_leave. }
  destruct e as [e|]; [|apply Hend; by left].
  intros st F HI. pose proof (li_room _ _ HI) as Hlt. pose proof (weigh_nonneg w_room F w_room_nonneg).
  simpl in Hlt. unfold slots in Hlt. rewrite (proj2 (Z.ltb_lt _ _)) by lia. split; [done|].
  intros r ->%list_elem_of_singleton. exists [Leaving]. split; [|apply Hend; by right].
  pose proof (weigh_nonneg w_work F (fun y => proj1 (w_work_range y))).
  inv_step.
  - rewrite length_app. simpl. lia.
  - intros Hd. destruct (Hfresh Hd). split; [|lia]. lia.
  - intros Hs Hd. specialize (Hinit Hs Hd). mem.
  - intros Hs j Hj. eapply slot_fact_mono; [|by apply Hslots]. intros z Hz Hin. mem.
  - intros y [->|Hy]%elem_of_cons; [done|]. assert (Hf : tok_fact st y) by (apply Htok; mem).
    destruct y; try done; simpl in *; [lia|]. destruct Hf as [Hd _]. specialize (Hdone Hd). lia.
Qed.

(** ** Steps of Start, close and the probe *)

(** Tokens without weight, which only record knowledge. *)
Definition weightless (x : ltok) : Prop :=
  w_lock x = 0 /\ w_start x = 0 /\ w_close x = 0 /\ w_work x = 0 /\ w_room x = 0 /\ w_conn x = 0.

Definition same_weight (x y : ltok) : Prop :=
  w_lock x = w_lock y /\ w_start x = w_start y /\ w_close x = w_close y /\ w_work x = w_work y /\
  w_room x = w_room y /\ w_conn x = w_conn y.

(** Exchanging a token for one of the same weights. *)
Lemma inv_learn x y st ts :
  structural x = false -> same_weight x y -> tok_fact st y -> life_inv st (x :: ts) -> life_inv st (y :: ts).
Proof.
  intros Hx (H1 & H2 & H3 & H4 & H5 & H6) Hy HI.
  assert (Hin : forall z, structural z = true -> z ∈ x :: ts -> z ∈ y :: ts).
  { intros z Hz [->|Hzs]%elem_of_cons; [congruence|by right]. }
  destruct HI. split; try done; simpl in *; try lia.
  - intros Hd. destruct (li_fresh0 Hd). split; [done|lia].
  - intros Hs Hd. apply Hin; auto.
  - intros Hs i Hi. eapply slot_fact_mono; [exact Hin|]. auto.
  - intros z [->|Hz]%elem_of_cons; [done|]. apply li_tok0. by right.
Qed.

(** Recording knowledge. *)
Lemma inv_know y st ts : weightless y -> tok_fact st y -> life_inv st ts -> life_inv st (y :: ts).
Proof.
  intros (H1 & H2 & H3 & H4 & H5 & H6) Hy HI. destruct HI. split; try done; simpl; try lia.
  - intros Hd. destruct (li_fresh0 Hd). split; [done|lia].
  - intros Hs Hd. right. auto.
  - intros Hs i Hi. eapply slot_fact_mono; [|by apply li_slots0]. intros x _ Hx. by right.
  - intros z [->|Hz]%elem_of_cons; auto.
Qed.

Lemma lcwp_lock t (Q : outcome unit -> list ltok -> Prop) :
  (forall x, x ∈ t -> (life_rank x < 2)%nat) -> Q (Returned tt) (Mu :: t) -> lcwp lock_l t Q.
Proof.
  intros Ht HQ st F HI. split; [destruct (l_mu st) eqn:Hmu0; [intros _; by apply start_blocks|done]|]. intros r Hr.
  destruct (l_mu st) eqn:Hmu0; [by apply not_elem_of_nil in Hr|].
  apply list_elem_of_singleton in Hr as ->. exists (Mu :: t). split; [|exact HQ].
  destruct HI. rewrite Hmu0 in *. split; simpl; try done; try lia.
  - intros Hs Hd. right. auto.
  - intros Hs i Hi. eapply slot_fact_mono; [|by apply li_slots0]. intros x _ Hx. by right.
  - intros z [->|Hz]%elem_of_cons; [done|]. by apply (li_tok0 z).
Qed.

Lemma lcwp_unlock x t (Q : outcome unit -> list ltok -> Prop) :
  x = Mu \/ x = MuOpen \/ x = MuFresh \/ x = MuClosed ->
  Q (Returned tt) t -> lcwp unlock_l (x :: t) Q.
Proof.
  intros Hx. apply lcwp_modify. intros st F HI.
  assert (Hs : forall z, structural z = true -> z ∈ x :: t ++ F -> z ∈ t ++ F).
  { intros z Hz [->|Hzs]%elem_of_cons; [|done]. by destruct Hx as [-> |[-> |[-> | ->]]]. }
  destruct HI. destruct Hx as [-> |[-> |[-> | ->]]]; simpl in *; split; simpl; try done.
  all: try (pose proof (weigh_nonneg w_lock (t ++ F) (fun y => proj1 (w_lock_range y))); destruct (l_mu st); lia).
  all: try (intros Hst Hd; apply Hs; auto; fail).
  all: try (intros Hst i Hi; eapply slot_fact_mono; [exact Hs|]; by apply li_slots0).
  all: intros z Hz; apply (li_tok0 z); by right.
Qed.

(** A read that teaches nothing. *)
Lemma lcwp_reads {A} (f : ListenerState -> A) t (Q : outcome A -> list ltok -> Prop) :
  (forall a, Q (Returned a) t) -> lcwp (reads f) t Q.
Proof. intros HQ st F HI. exists t. split; [done|apply HQ]. Qed.

(** A read under the lock that teaches the value of a flag. *)
Lemma lcwp_flag (f : ListenerState -> bool) x y t (Q : outcome bool -> list ltok -> Prop) :
  structural x = false -> same_weight x y ->
  (forall st, tok_fact st x -> f st = false -> tok_fact st y) ->
  Q (Returned true) (x :: t) -> Q (Returned false) (y :: t) -> lcwp (reads f) (x :: t) Q.
Proof.
  intros Hx Hw Hy H1 H2 st F HI. cbn. destruct (f st) eqn:Hf.
  - by exists (x :: t).
  - exists (y :: t). split; [|done]. eapply inv_learn; [done|done| |exact HI].
    apply Hy; [|done]. apply (li_tok _ _ HI). by left.
Qed.

Lemma inv_start st F :
  life_inv st ([MuFresh] ++ F) -> life_inv (set_l_started st) ([MuInit] ++ F).
Proof.
  intros HI. assert (Hf : tok_fact st MuFresh) by (apply (li_tok _ _ HI); by left).
  destruct Hf as [Hc Hs]. pose proof (weigh_nonneg w_lock F (fun y => proj1 (w_lock_range y))).
  inv_step; rewrite Hs in *; cbn [andb] in *.
  - rewrite (Hnew eq_refl). lia.
  - intros _ _. by left.
  - intros _ j Hj. right. right. left. by left.
  - intros x [->|Hx]%elem_of_cons; [by split; [|apply Hnew]|].
    assert (Hfx : tok_fact st x) by (apply Htok; by right).
    destruct x; try done; simpl in *; try (destruct Hfx; congruence).
    exfalso. eapply (weigh_absent w_lock MuFresh F w_lock_range); [|done|done]. destruct (l_mu st); lia.
Qed.

Lemma inv_init st F :
  life_inv st ([MuInit] ++ F) -> life_inv (set_l_done false st) ([Mu; Starter slots] ++ F).
Proof.
  intros HI. assert (Hf : tok_fact st MuInit) by (apply (li_tok _ _ HI); by left).
  destruct Hf as [Hs Hd]. inv_step; rewrite Hs, Hd in *; cbn [andb] in *; try lia.
  - destruct (Hfresh eq_refl) as [-> Hr]. simpl. lia.
  - intros _ j Hj. right. right. right. exists slots. split; [right; by left|lia].
  - intros x [->|[->|Hx]%elem_of_cons]%elem_of_cons; [done..|].
    assert (Hfx : tok_fact st x) by (apply Htok; by right).
    destruct x; try done; simpl in *; try (destruct Hfx; congruence).
    exfalso. eapply (weigh_absent w_lock MuInit F w_lock_range); [|done|done]. destruct (l_mu st); lia.
Qed.

(** Starting consumer [slots - S k]. *)
Lemma inv_spawn k st F :
  life_inv st ([Starter (S k)] ++ F) ->
  life_inv (set_l_wg (l_wg st + 1) st) ([Consumer (slots - S k) false; Starter k] ++ F).
Proof.
  intros HI.
  assert (Hr : running st = true /\ weigh w_start F = 0).
  { pose proof (weigh_nonneg w_start F (fun y => proj1 (w_start_range y))). destruct HI. simpl in *.
    destruct (running st); lia. }
  destruct Hr as [Hr HF0]. unfold running in Hr. apply andb_true_iff in Hr as [Hs Hd0].
  inv_step; rewrite ?Hs in *.
  - intros Hd. destruct (Hfresh Hd). split; [done|lia].
  - intros _ Hd. specialize (Hinit eq_refl Hd). mem.
  - intros Hd. by rewrite Hd in Hd0.
  - intros _ j Hj. destruct (Hslots eq_refl j Hj) as [Hx|[(b & Hb)|[Hb|(k' & Hk & Hj')]]].
    + by left.
    + right. left. exists b. mem.
    + right. right. left. mem.
    + apply elem_of_cons in Hk as [Hk|Hk].
      * simplify_eq. destruct (decide (j = slots - S k)%nat) as [->|Hne].
        -- right. left. exists false. by left.
        -- right. right. right. exists k. split; [right; by left|lia].
      * right. right. right. exists k'. mem.
  - intros x [->|[->|Hx]%elem_of_cons]%elem_of_cons; [done..|].
    assert (Hfx : tok_fact st x) by (apply Htok; by right).
    destruct x; try done; exfalso;
      (refine (weigh_absent w_start _ F w_start_range _ _ Hx); [lia|done]).
Qed.

Lemma inv_finish es st F :
  life_inv st ([StarterErrs es] ++ F) -> life_inv (set_l_done true st) ([SawErrs es] ++ F).
Proof.
  intros HI. assert (Hf : tok_fact st (StarterErrs es)) by (apply (li_tok _ _ HI); by left).
  destruct Hf as [Hw He].
  assert (Hr : running st = true /\ weigh w_start F = 0).
  { pose proof (weigh_nonneg w_start F (fun y => proj1 (w_start_range y))). destruct HI. simpl in *.
    destruct (running st); lia. }
  destruct Hr as [Hr HF0]. unfold running in Hr. apply andb_true_iff in Hr as [Hs Hd0].
  inv_step; rewrite ?Hs in *; cbn [andb] in *; try done; try lia.
  - intros _ j Hj. eapply slot_fact_mono; [|by apply (Hslots eq_refl)].
    intros x Hx [->|Hin]%elem_of_cons; [done|by right].
  - intros x [->|Hx]%elem_of_cons; [done|]. assert (Hfx : tok_fact st x) by (apply Htok; by right).
    destruct x; try done; simpl in *; try (destruct Hfx; by split).
    exfalso. eapply (weigh_absent w_start MuInit F w_start_range); [|done|done]. lia.
Qed.

Lemma inv_close st F :
  life_inv st ([MuOpen; MayClose] ++ F) -> life_inv (set_l_closed st) ([MuClosed] ++ F).
Proof.
  intros HI. pose proof (weigh_nonneg w_close F (fun y => proj1 (w_close_range y))).
  inv_step.
  - intros Hs Hd. specialize (Hinit Hs Hd). mem.
  - intros Hs j Hj. eapply slot_fact_mono; [|by apply Hslots]. intros z Hz Hin. mem.
  - assert (weigh w_lock F <= 0) by (destruct (l_mu st); lia).
    intros x [->|Hx]%elem_of_cons; [done|]. assert (Hfx : tok_fact st x) by (apply Htok; mem).
    destruct x; try done; simpl in *; try (destruct Hfx; by split); exfalso.
    1,2: by refine (weigh_absent w_lock _ F w_lock_range _ _ Hx).
    refine (weigh_absent w_close _ F w_close_range _ _ Hx); [lia|done].
Qed.

(** The WaitGroup has reached zero: all consumers were started and have left. *)
Lemma inv_idle st F : l_wg st = 0 -> life_inv st ([Starter 0] ++ F) -> life_inv st ([StarterIdle] ++ F).
Proof.
  intros Hz HI. inv_step.
  - intros Hs Hd. specialize (Hinit Hs Hd). mem.
  - intros Hs j Hj. destruct (Hslots Hs j Hj) as [Hx|[(b & Hb)|[Hb|(k & Hk & Hj')]]].
    + by left.
    + right. left. exists b. mem.
    + right. right. left. mem.
    + apply elem_of_cons in Hk as [Hk|Hk]; [simplify_eq; lia|]. right. right. right. exists k. mem.
  - intros x [->|Hx]%elem_of_cons; [done|]. apply (Htok x). by right.
Qed.

(** Writing [l.cancel] concerns no token. *)
Lemma inv_cancel c st ts : life_inv st ts -> life_inv (set_l_cancel c st) ts.
Proof. intros []. by split. Qed.

Lemma lcwp_spawn n m ctx f k (Q : outcome unit -> list ltok -> Prop) :
  0 <= l_concurrency l -> (k <= slots)%nat -> Q (Returned tt) [Starter 0] ->
  lcwp (spawn k n m l ctx (user_handler f)) [Starter k] Q.
Proof.
  intros Hc Hk HQ. induction k as [|k IH]; cbn [spawn]; [done|].
  apply cwp_bind. apply (lcwp_modify _ _ [Consumer (slots - S k) false; Starter k]).
  { intros st F. apply inv_spawn. }
  intros st F HI. exists [Consumer (slots - S k) false], [Starter k]. split_and!; [exact HI| |apply IH; lia].
  replace (l_concurrency l - Z.of_nat (S k)) with (Z.of_nat (slots - S k)) by (unfold slots in *; lia).
  apply lcwp_consumer.
Qed.

(** What a Start that returned leaves: it was refused, or its error is the join
    of what the consumers reported. *)
Definition start_refused (e : error) : Prop :=
  e = Some (ErrSentinel ErrClientClosed) \/
  e = Some (ErrNew [Lit "commons-mq-go: Listener.Start may only be called once"]).

Lemma lcwp_Start n m ctx f (Q : outcome error -> list ltok -> Prop) :
  0 <= l_concurrency l ->
  (forall e, start_refused e -> Q (Returned e) []) ->
  (forall es, Q (Returned (errors_Join (map Some es))) [SawErrs es]) ->
  lcwp (Start n m l ctx (user_handler f)) [] Q.
Proof.
  intros Hc Hno Hok. unfold Start. apply cwp_bind, lcwp_lock; [by intros x ?%not_elem_of_nil|].
  apply cwp_bind, (lcwp_flag _ _ MuOpen); [done|done|done| |].
  { apply cwp_bind, lcwp_unlock; [by left|]. apply Hno. by left. }
  apply cwp_bind, (lcwp_flag _ _ MuFresh); [done|done|by split| |].
  { apply cwp_bind, lcwp_unlock; [by right; left|]. apply Hno. by right. }
  apply cwp_bind. apply (lcwp_modify _ _ [MuInit]); [apply inv_start|].
  apply cwp_bind, lcwp_call. intros runCtx.
  apply cwp_bind. apply (lcwp_modify _ _ [MuInit]); [intros st F; apply inv_cancel|].
  apply cwp_bind. apply (lcwp_modify _ _ [Mu; Starter slots]); [apply inv_init|].
  apply cwp_bind, lcwp_unlock; [by left|].
  unfold defer. apply cwp_tbind, cwp_tbind, cwp_bind, lcwp_spawn; [done|done|].
  apply cwp_bind. intros st F HI. split.
  { destruct (Z.eqb_spec (l_wg st) 0); [done|]. intros _. apply start_blocks; [done|]. split; [|done].
    intros x ->%list_elem_of_singleton. compute. lia. }
  intros r Hr. destruct (Z.eqb_spec (l_wg st) 0) as [Hz|]; [|by apply not_elem_of_nil in Hr].
  apply list_elem_of_singleton in Hr as ->. exists [StarterIdle]. split.
  { by apply inv_idle. }
  cbn [cwp fst]. apply cwp_bind. clear st F HI Hz. intros st F HI. exists [StarterErrs (l_errs st)]. split.
  { apply (inv_learn StarterIdle); [done|done| |exact HI]. split; [|done].
    apply (li_tok _ _ HI StarterIdle). by left. }
  cbn [cwp fst snd]. apply cwp_bind, lcwp_call. intros _.
  apply cwp_bind. apply (lcwp_modify _ _ [SawErrs (l_errs st)]); [apply inv_finish|]. apply Hok.
Qed.

(** Close knows, when it returns, that Start never ran or has finished. *)
Lemma lcwp_close (Q : outcome error -> list ltok -> Prop) :
  (forall st t, life_may_block ChanRecv st t -> mb ChanRecv st t) ->
  (forall x, x = NeverStarted \/ x = SawDone -> Q (Returned None) [x]) ->
  lcwp Listener_close [MayClose] Q.
Proof.
  intros Hmb HQ. unfold Listener_close.
  apply cwp_bind, lcwp_lock; [intros x ->%list_elem_of_singleton; compute; lia|].
  apply cwp_bind. intros st F HI. exists [MuOpen; MayClose].
  assert (Hc : l_closed st = false) by (apply (li_tok _ _ HI MayClose); right; by left).
  split; [by eapply inv_learn; [| | |exact HI]|]. cbn [cwp fst]. rewrite Hc. clear st F HI Hc.
  apply cwp_bind. apply (lcwp_modify _ _ [MuClosed]); [apply inv_close|].
  apply cwp_bind, lcwp_reads. intros cancel. apply cwp_bind. intros st F HI.
  assert (Hcl : l_closed st = true) by (apply (li_tok _ _ HI MuClosed); by left).
  assert (Hcancel : forall t Q', Q' (Returned tt) t ->
    lcwp (match cancel with Some c => lift (call (CancelCtx c)) | None => Ret tt end) t Q').
  { intros t Q' HQ'. destruct cancel; [|done]. apply lcwp_call. by intros []. }
  destruct (l_done st) as [b|] eqn:Hd.
  - exists [MuClosed; SawStarted]. split.
    { assert (HI' : life_inv st (SawStarted :: MuClosed :: F)).
      { apply inv_know; [done|split; [done|by rewrite Hd]|done]. }
      by rewrite Permutation_swap in HI'. }
    cbn [cwp fst]. clear HI Hd Hcl b st F. apply cwp_bind, lcwp_unlock; [by auto|].
    apply cwp_bind, Hcancel. apply cwp_bind. intros st F HI.
    assert (Hf : tok_fact st SawStarted) by (apply (li_tok _ _ HI); by left). destruct Hf as [Hcl Hd].
    split.
    { intros Hr. apply Hmb. split; [intros x ->%list_elem_of_singleton; compute; lia|].
      simpl. by destruct (l_done st) as [[]|]. }
    intros r Hr. destruct (l_done st) as [[]|] eqn:Hdone; try by apply not_elem_of_nil in Hr.
    apply list_elem_of_singleton in Hr as ->. exists [SawDone]. split; [|by apply HQ; right].
    by eapply inv_learn; [| | |exact HI].
  - exists [MuClosed; NeverStarted].
    assert (Hs : l_started st = false).
    { destruct (l_started st) eqn:Hs; [|done]. exfalso. pose proof (li_init _ _ HI Hs Hd) as Hin.
      apply elem_of_cons in Hin as [Hin|Hin]; [done|].
      refine (weigh_absent w_lock _ F w_lock_range _ _ Hin); [|done].
      pose proof (li_mu _ _ HI) as Hmu. simpl in Hmu. destruct (l_mu st); lia. }
    split.
    { assert (HI' : life_inv st (NeverStarted :: MuClosed :: F)) by by apply inv_know.
      by rewrite Permutation_swap in HI'. }
    cbn [cwp fst]. apply cwp_bind, lcwp_unlock; [by auto|].
    apply cwp_bind, Hcancel. apply HQ. by left.
Qed.

Lemma lcwp_probe (Q : outcome (list ConnectionStatus) -> list ltok -> Prop) :
  (forall r, Q (Returned r) []) -> lcwp (listenerHealthProber l) [] Q.
Proof.
  intros HQ. unfold listenerHealthProber. apply cwp_bind, lcwp_lock; [by intros x ?%not_elem_of_nil|].
  apply cwp_bind, lcwp_reads. intros closed. apply cwp_bind, lcwp_unlock; [by left|].
  apply cwp_bind, lcwp_reads. intros n. generalize 0%nat, (@nil ConnectionStatus).
  induction n as [|n IH]; intros i ds; cbn [probe_slots]; [apply HQ|].
  apply cwp_bind, lcwp_reads. intros x. apply IH.
Qed.

(** Once [done] is closed nothing runs any more. *)
Lemma done_quiet st ts : life_inv st ts -> l_done st = Some true -> quiet st.
Proof.
  intros HI Hd. destruct HI.
  assert (Hs : l_started st = true) by (destruct (l_started st); [done|]; by rewrite li_new0 in Hd).
  assert (Hw : weigh w_work ts = 0) by (rewrite <-li_wg0; auto).
  assert (Hr : weigh w_start ts = 0) by (rewrite li_start0; unfold running; by rewrite Hs, Hd).
  split_and!; [by rewrite li_wg0| |].
  - rewrite li_conn0. pose proof (weigh_nonneg w_conn ts (fun x => proj1 (w_conn_work x))).
    pose proof (weigh_le w_conn w_work ts (fun x => proj2 (w_conn_work x))). lia.
  - apply Forall_lookup_2. intros i x Hx.
    assert (Hi : (i < slots)%nat) by (rewrite <-li_len0; by eapply lookup_lt_Some).
    destruct (li_slots0 Hs i Hi) as [(y & Hy & Hrest)|[(b & Hb)|[Hb|(k & Hk & _)]]].
    + congruence.
    + exfalso. refine (weigh_absent w_work _ ts w_work_range _ _ Hb); [lia|done].
    + exfalso. refine (weigh_absent w_start _ ts w_start_range _ _ Hb); [lia|done].
    + exfalso. refine (weigh_absent w_start _ ts w_start_range _ _ Hk); [lia|done].
Qed.

End life.

(** ** Goroutines of a listener *)

Inductive life_op :=
| OpListen (ctx : Ctx) (f : nat)
| OpLook.

Inductive life_result :=
| StartReturned (e : error)
| Looked (ds : list ConnectionStatus)
| CloseReturned (e : error)
| ConsumerLeft.

Section life_claims.
Context `{MQBinding} `{GoArch}.
Variables (l : Listener) (n m : nat).

Definition life_goroutine (op : life_op) : prog ListenerState life_result :=
  match op with
  | OpListen ctx f => do! e <- Start n m l ctx (user_handler f); Ret (StartReturned e)
  | OpLook => do! ds <- listenerHealthProber l; Ret (Looked ds)
  end.

(** A new listener: the close that the client will make once, and any number of
    Starts and probes. *)
Definition life_machine (ops : list life_op) : machine ListenerState life_result :=
  mkMachine (initStates l)
    ((do! e <- Listener_close; Ret (CloseReturned e)) :: map life_goroutine ops).

Abbreviation life_reachable := (reachable (fun _ => ConsumerLeft)).

(** What a goroutine owns when it ends. *)
Definition life_end (o : outcome life_result) (t : list ltok) : Prop :=
  match o with
  | Returned (StartReturned e) =>
      (start_refused e /\ t = []) \/ (exists es, e = errors_Join (map Some es) /\ t = [SawErrs es])
  | Returned (CloseReturned e) => e = None /\ (t = [NeverStarted] \/ t = [SawDone])
  | Returned (Looked _) | Returned ConsumerLeft => t = []
  | NoFuel => True
  | _ => False
  end.

Abbreviation life_minv := (machine_inv (life_inv l) life_may_block consumer_end life_end).

Lemma life_machine_inv ops c :
  0 <= l_concurrency l -> life_reachable (life_machine ops) c -> life_minv c.
Proof.
  intros Hc Hr. eapply (reachable_inv (life_inv l) life_may_block consumer_end
    (Inv_proper := life_inv_proper l)); [|exact Hr|].
  { intros o t Ho. destruct o as [[]| | | |]; try done. }
  exists ([MayClose] :: map (fun _ => []) ops). split; simpl.
  - constructor; [|rewrite Forall2_fmap; apply Forall2_same_length_lookup_2; [done|]].
    + apply cwp_bind. apply (lcwp_close l (mb := life_may_block)); [done|]. intros x [-> | ->]; split; auto.
    + intros i op op' Hop Hop'. assert (op = op') as <- by congruence. destruct op; apply cwp_bind.
      * apply (lcwp_Start l (mb := life_may_block)); [done|intros e He; left; by split|intros es; right; by exists es].
      * by apply (lcwp_probe l (mb := life_may_block)).
  - replace (concat (map (fun _ => []) ops)) with (@nil ltok) by (clear; by induction ops).
    split; simpl; try done; try lia.
    + by rewrite repeat_length.
    + intros x ->%list_elem_of_singleton. done.
Qed.

(** The share of a goroutine that has returned. *)
Lemma returned_share c a :
  life_minv c -> Ret a ∈ threads c ->
  exists t ts, life_end (Returned a) t /\ life_inv l (shared c) ts /\ forall x, x ∈ t -> x ∈ ts.
Proof.
  intros (tss & Hts & HI) Hin. apply list_elem_of_lookup in Hin as [i Hi].
  destruct (Forall2_lookup_l _ _ _ _ _ Hts Hi) as (t & Hti & Hend).
  exists t, (concat tss). split_and!; [done|done|]. intros x Hx.
  apply list_elem_of_In, in_concat. exists t. split; apply list_elem_of_In; [|done].
  by eapply list_elem_of_lookup_2.
Qed.

(** C6: the life cycle under any interleaving.  However a close, any number of
    Starts (one of which starts the consumers) and health probes run together, in
    every state they can reach: no consumer is ever stuck reporting its error;
    once a Start that was not refused has returned, and once close has returned on
    a listener that was started, no consumer runs, none holds a connection, and
    every slot reads StateStopped or StateFailed; the error of that Start is the
    join of what its consumers reported; and close returns nil, with the listener
    closed. *)
Theorem listener_interleaving ops c :
  0 <= l_concurrency l -> life_reachable (life_machine ops) c ->
  let st := shared c in
  (forall p, p ∈ threads c -> ~ stuck_on ChanSend p st) /\
  (forall e, Ret (StartReturned e) ∈ threads c ->
     start_refused e \/ (e = errors_Join (map Some (l_errs st)) /\ quiet st)) /\
  (forall e, Ret (CloseReturned e) ∈ threads c ->
     e = None /\ l_closed st = true /\ (l_started st = false \/ quiet st)).
Proof.
  intros Hc Hr st. pose proof (life_machine_inv ops c Hc Hr) as Hm. split_and!.
  - intros p Hp Hst. by destruct (machine_inv_stuck (life_inv l) life_may_block consumer_end
      (Inv_proper := life_inv_proper l) life_end c ChanSend p Hm Hp Hst) as (t & _ & []).
  - intros e Hin. destruct (returned_share c _ Hm Hin) as (t & ts & [[Hno _]|(es & -> & ->)] & HI & Hsub);
      [by left|right].
    destruct (li_tok _ _ _ HI (SawErrs es)) as [Hd <-]; [apply Hsub; by left|].
    split; [done|]. by eapply done_quiet.
  - intros e Hin. destruct (returned_share c _ Hm Hin) as (t & ts & [-> Ht] & HI & Hsub).
    destruct Ht as [-> | ->].
    + destruct (li_tok _ _ _ HI NeverStarted) as [Hcl Hs]; [apply Hsub; by left|]. auto.
    + destruct (li_tok _ _ _ HI SawDone) as [Hcl Hd]; [apply Hsub; by left|].
      split_and!; [done|done|right]. by eapply done_quiet.
Qed.

(** *** Progress *)

#[export] Instance life_waits_for : WaitsFor (life_inv l) life_rank life_waits.
Proof.
  split; [|intros x; unfold life_rank; repeat case_decide; lia]. intros o st ts HI Hw.
  assert (Hx : forall w, (forall x, 0 <= w x <= 1) -> weigh w ts <> 0 -> exists x, x ∈ ts /\ w x = 1).
  { intros w Hr Hne. apply weigh_pos; [done|].
    pose proof (weigh_nonneg w ts (fun y => proj1 (Hr y))). lia. }
  destruct o; try done; simpl in Hw.
  - assert (Hst : l_started st = true).
    { destruct (l_started st) eqn:Hst; [done|]. by rewrite (li_new _ _ _ HI Hst) in Hw. }
    pose proof (li_start _ _ _ HI) as Hl. unfold running in Hl. rewrite Hst, Hw in Hl. simpl in Hl.
    destruct (Hx w_start w_start_range) as (x & Hin & Hw1); [lia|]. exists x. split; [done|].
    unfold life_rank. simpl. repeat case_decide; lia.
  - pose proof (li_mu _ _ _ HI) as Hl. rewrite Hw in Hl.
    destruct (Hx w_lock w_lock_range) as (x & Hin & Hw1); [lia|]. exists x. split; [done|].
    unfold life_rank. simpl. repeat case_decide; lia.
  - pose proof (li_wg _ _ _ HI) as Hl.
    destruct (Hx w_work w_work_range) as (x & Hin & Hw1); [lia|]. exists x. split; [done|].
    unfold life_rank. simpl. repeat case_decide; lia.
Qed.

Lemma life_end_idle : idle_end life_rank life_end.
Proof.
  intros o t x Ho Hf Hx. destruct o as [[e|ds|e|]|v| | |]; simpl in Ho; try done; try (subst t; set_solver).
  - destruct Ho as [[_ ->]|(es & _ & ->)]; [set_solver|]. by apply list_elem_of_singleton in Hx as ->.
  - destruct Ho as [_ [-> | ->]]; by apply list_elem_of_singleton in Hx as ->.
Qed.

(** No deadlock in a listener.  However a close, Starts, consumers and probes run
    together, in every state they can reach either every goroutine has ended, or
    some goroutine can move: close never waits for a Start that waits for it, and
    no consumer waits for anybody.  (A consumer that has used up its fuel stands
    for one that is still polling.) *)
Theorem listener_no_deadlock ops c :
  0 <= l_concurrency l -> life_reachable (life_machine ops) c ->
  Forall (fun p => finished p = true) (threads c) \/ OutOfFuel ∈ threads c \/
  can_step (fun _ => ConsumerLeft) c.
Proof.
  intros Hc Hr. exact (no_deadlock (life_inv l) life_rank life_waits consumer_end life_end
    (fun _ => ConsumerLeft) (Inv_proper := life_inv_proper l) c life_end_idle (life_machine_inv ops c Hc Hr)).
Qed.

End life_claims.

(** *** Witnesses: close arrives while one consumer fails and the other stops *)

Definition pair_listener : Listener :=
  mkListener readme_config "DEV.QUEUE.1" 2 1 QueueOptions_zero (mkTelemetry 0 NoopTextMapPropagator 1 2 3 4)
    (Some 9%nat).

Definition one_refused : script :=
  mkScript [None; None; None; Some Canceled] [] [refused] [] [] [] [] [] 30.

(** Start has started both consumers and waits; close waits for Start. *)
Definition waiting_schedule : list nat := repeat 1%nat 25 ++ repeat 0%nat 10.

Definition life_run (sched : list nat) : machine ListenerState life_result :=
  exec scripted (fun _ => ConsumerLeft) sched
    (@life_machine ibm_binding amd64 pair_listener 4 4 [OpListen 0 8]) one_refused.

Definition closed_run : machine ListenerState life_result :=
  life_run (waiting_schedule ++ repeat 2%nat 60 ++ repeat 3%nat 60 ++ repeat 1%nat 10 ++ repeat 0%nat 5).

Lemma listener_interleaving_witness :
  Ret (CloseReturned None) ∈ threads closed_run /\ l_started (shared closed_run) = true /\
  l_states (shared closed_run) = [StateFailed; StateStopped] /\ quiet (shared closed_run).
Proof.
  assert (Hin : Ret (CloseReturned None) ∈ threads closed_run) by (vm_compute; left).
  assert (Hs : l_started (shared closed_run) = true) by (vm_compute; reflexivity).
  split; [exact Hin|]. split; [exact Hs|]. split; [vm_compute; reflexivity|].
  destruct (@listener_interleaving ibm_binding amd64 pair_listener 4 4 [OpListen 0 8] closed_run)
    as (_ & _ & Hc); [vm_compute; discriminate|apply exec_reachable, scripted_ok|].
  destruct (Hc None Hin) as (_ & _ & [Hn|Hq]); [congruence|exact Hq].
Defined.

Lemma listener_no_deadlock_witness :
  stuck_thread ChanRecv 0 (life_run waiting_schedule) /\
  can_step (fun _ => ConsumerLeft) (life_run waiting_schedule).
Proof.
  split; [vm_compute; split; reflexivity|].
  destruct (@listener_no_deadlock ibm_binding amd64 pair_listener 4 4 [OpListen 0 8] (life_run waiting_schedule))
    as [Hf|[Hf|Hs]]; [vm_compute; discriminate|apply exec_reachable, scripted_ok| | |exact Hs].
  - exfalso. apply Forall_finished in Hf. vm_compute in Hf. discriminate.
  - exfalso. apply elem_out_of_fuel in Hf. vm_compute in Hf. discriminate.
Defined.
