(* ===== verification/Registry.v ===== *)
(** * The correlation registry

    src/internal/correlation/registry.go: a map from correlation IDs to response
    channels of capacity one.  Channels live in a store of their own, since a
    caller keeps the channel it registered after the map has forgotten it, and
    [Deliver] looks the channel up and sends to it in two separate steps. *)

From Stdlib Require Import ZArith Lia.
From stdpp Require Import base numbers list option strings gmap.
From S2P Require Import Prelude GoErrors Config Mqi GoProg Script.

Local Open Scope go_scope.

(** [pending] is the map; [chans] the contents of every channel made so far, the
    i-th channel being the i-th made. *)
Record Registry (T : Type) := mkRegistry {
  pending : gmap string nat;
  chans : list (list T)
}.

Arguments mkRegistry {T}.
Arguments pending {T}.
Arguments chans {T}.

Section registry.
Context {T : Type}.

Definition NewRegistry : Registry T := mkRegistry ∅ [].

(** [make(chan T, 1)]. *)
Definition make_chan : prog (Registry T) nat :=
  atomic (fun r => (length (chans r), mkRegistry (pending r) (chans r ++ [[]]))).

Definition Register (correlID : string) : prog (Registry T) nat :=
  do! ch <- make_chan;
  modify (fun r => mkRegistry (<[correlID := ch]> (pending r)) (chans r)) ;;;
  Ret ch.

(** [select { case ch <- msg: default: }]. *)
Definition try_send (ch : nat) (msg : T) : prog (Registry T) unit :=
  select SelectDefault (fun r =>
    match chans r !! ch with
    | Some [] => [(tt, mkRegistry (pending r) (<[ch := [msg]]> (chans r)))]
    | _ => [(tt, r)]
    end).

Definition Deliver (correlID : string) (msg : T) : prog (Registry T) unit :=
  do! ch <- reads (fun r => pending r !! correlID);
  match ch with
  | None => Ret tt
  | Some ch => try_send ch msg
  end.

Definition Deregister (correlID : string) : prog (Registry T) unit :=
  modify (fun r => mkRegistry (delete correlID (pending r)) (chans r)).

Definition Len : prog (Registry T) nat := reads (fun r => size (pending r)).

(** A caller that waits on its channel: [<-ch]. *)
Definition Receive (ch : nat) : prog (Registry T) T :=
  select ChanRecv (fun r =>
    match chans r !! ch with
    | Some (m :: q) => [(m, mkRegistry (pending r) (<[ch := q]> (chans r)))]
    | _ => []
    end).

End registry.

(** ** Goroutines on one registry

    Messages carry the correlation ID they are delivered under, so that a mix-up
    would show. *)

Inductive registry_op (M : Type) :=
| OpRegister (id : string)
| OpDeliver (id : string) (m : M)
| OpDeregister (id : string)
| OpExchange (id : string).

Arguments OpRegister {M}.
Arguments OpDeliver {M}.
Arguments OpDeregister {M}.
Arguments OpExchange {M}.

(** What a goroutine reports: the channel it was given for an ID, or the message
    it received waiting for an ID. *)
Inductive registry_result (M : Type) :=
| GotChan (id : string) (ch : nat)
| GotMessage (id : string) (m : string * M)
| Finished.

Arguments GotChan {M}.
Arguments GotMessage {M}.
Arguments Finished {M}.

Section registry_machine.
Context {M : Type}.

(** [OpExchange] is a whole caller: register, wait for the reply, deregister. *)
Definition registry_goroutine (op : registry_op M)
    : prog (Registry (string * M)) (registry_result M) :=
  match op with
  | OpRegister id => do! ch <- Register id; Ret (GotChan id ch)
  | OpDeliver id m => Deliver id (id, m) ;;; Ret Finished
  | OpDeregister id => Deregister id ;;; Ret Finished
  | OpExchange id =>
      do! ch <- Register id;
      do! m <- Receive ch;
      Deregister id ;;;
      Ret (GotMessage id m)
  end.

Definition registry_machine (ops : list (registry_op M))
    : machine (Registry (string * M)) (registry_result M) :=
  mkMachine NewRegistry (map registry_goroutine ops).

Abbreviation registry_reachable := (reachable (fun _ => Finished)).

(** The token of a goroutine that knows channel [ch] to be one made for [id]. *)
Definition rtok : Type := nat * string.

(** Every channel belongs to one ID; the map and the goroutines only know it
    under that ID, and it holds at most one message, delivered under that ID. *)
Definition reg_inv (r : Registry (string * M)) (ts : list rtok) : Prop :=
  exists owner : list string, length owner = length (chans r) /\
    (forall id ch, pending r !! id = Some ch -> owner !! ch = Some id) /\
    (forall ch id, (ch, id) ∈ ts -> owner !! ch = Some id) /\
    (forall ch q, chans r !! ch = Some q -> (length q <= 1)%nat /\
       forall m, m ∈ q -> owner !! ch = Some m.1).

#[local] Instance reg_inv_proper r : Proper ((≡ₚ) ==> iff) (reg_inv r).
Proof.
  intros t t' Ht. unfold reg_inv. by setoid_rewrite Ht.
Qed.

(** Only waiting for a message may block. *)
Definition reg_may_block (l : chanop) (_ : Registry (string * M)) (_ : list rtok) : Prop :=
  l = ChanRecv.

Definition reg_no_fork (_ : outcome unit) (_ : list rtok) : Prop := False.

Abbreviation rcwp := (cwp reg_inv reg_may_block reg_no_fork).

Lemma rcwp_Register id t (Q : outcome nat -> list rtok -> Prop) :
  (forall ch, Q (Returned ch) ((ch, id) :: t)) -> rcwp (Register id) t Q.
Proof.
  intros HQ. unfold Register. apply cwp_bind. intros r F (owner & Hl & Hp & Ht & Hq).
  exists ((length (chans r), id) :: t). split.
  { exists (owner ++ [id]). simpl. rewrite !length_app. simpl. split_and!; [lia| | |].
    - intros id' ch Hch. apply lookup_app_l_Some. by apply Hp.
    - intros ch id' [Heq|Hin]%elem_of_cons; [|apply lookup_app_l_Some, Ht; set_solver].
      simplify_eq. rewrite lookup_app_r by lia. by rewrite Hl, Nat.sub_diag.
    - intros ch q [Hch|[Hge Hch]]%lookup_app_Some.
      + destruct (Hq ch q Hch) as [Hle Hm]. split; [done|]. intros m Hin. by apply lookup_app_l_Some, Hm.
      + apply list_lookup_singleton_Some in Hch as [_ <-]. split; [simpl; lia|]. set_solver. }
  cbn [cwp fst]. generalize (length (chans r)) as ch. clear r F owner Hl Hp Ht Hq. intros ch. apply cwp_bind.
  intros r F (owner & Hl & Hp & Ht & Hq). exists ((ch, id) :: t). split; [|apply HQ].
  exists owner. simpl. split_and!; [done| |done|done].
  intros id' ch'. destruct (decide (id = id')) as [<-|Hne].
  - rewrite lookup_insert_eq. intros [= <-]. apply Ht. set_solver.
  - rewrite lookup_insert_ne by done. apply Hp.
Qed.

Lemma rcwp_Deliver id m t (Q : outcome unit -> list rtok -> Prop) :
  (forall t', Q (Returned tt) t') -> rcwp (Deliver id (id, m)) t Q.
Proof.
  intros HQ. unfold Deliver. apply cwp_bind. intros r F HI.
  destruct (pending r !! id) as [ch|] eqn:Hch; cbn [fst snd]; [|exists t; split; [done|apply HQ]].
  exists ((ch, id) :: t). split.
  { destruct HI as (owner & Hl & Hp & Ht & Hq). exists owner. split_and!; try done.
    intros ch' id' [Heq|Hin]%elem_of_cons; [|apply Ht; set_solver]. simplify_eq. by apply Hp. }
  clear r F HI Hch. intros r F (owner & Hl & Hp & Ht & Hq). split.
  { by destruct (chans r !! ch) as [[|]|]. }
  intros x Hx. exists ((ch, id) :: t).
  destruct (chans r !! ch) as [[|m' q]|] eqn:Hq0; apply list_elem_of_singleton in Hx as ->; (split; [|apply HQ]);
    exists owner; simpl; split_and!; try done; [by rewrite length_insert|].
  intros ch' q' Hq'. destruct (decide (ch = ch')) as [<-|Hne].
  - rewrite list_lookup_insert_eq in Hq' by (by eapply lookup_lt_Some). simplify_eq.
    split; [simpl; lia|]. intros m0 ->%list_elem_of_singleton. apply Ht. set_solver.
  - rewrite list_lookup_insert_ne in Hq' by done. by apply Hq.
Qed.

Lemma rcwp_Deregister id t (Q : outcome unit -> list rtok -> Prop) :
  Q (Returned tt) t -> rcwp (Deregister id) t Q.
Proof.
  intros HQ r F (owner & Hl & Hp & Ht & Hq). exists t. split; [|exact HQ].
  exists owner. split_and!; try done. simpl. intros id' ch [_ Hch]%lookup_delete_Some. by apply Hp.
Qed.

Lemma rcwp_Receive ch id t (Q : outcome (string * M) -> list rtok -> Prop) :
  (ch, id) ∈ t -> (forall m, m.1 = id -> Q (Returned m) t) -> rcwp (Receive ch) t Q.
Proof.
  intros Hin HQ r F (owner & Hl & Hp & Ht & Hq). split; [done|]. intros x Hx. exists t.
  destruct (chans r !! ch) as [[|m q]|] eqn:Hc; try by apply not_elem_of_nil in Hx.
  apply list_elem_of_singleton in Hx as ->. destruct (Hq ch _ Hc) as [Hle Hm]. split.
  - exists owner. simpl. split_and!; try done; [by rewrite length_insert|].
    intros ch' q' Hq'. destruct (decide (ch = ch')) as [<-|Hne].
    + rewrite list_lookup_insert_eq in Hq' by (by eapply lookup_lt_Some). simplify_eq.
      split; [simpl in *; lia|]. intros m' Hm'. apply Hm. by right.
    + rewrite list_lookup_insert_ne in Hq' by done. by apply Hq.
  - apply HQ. assert (H1 : owner !! ch = Some m.1) by (apply Hm; by left).
    assert (H2 : owner !! ch = Some id) by (apply Ht, elem_of_app; by left). simpl. congruence.
Qed.

(** What a goroutine's report entails. *)
Definition reg_end (o : outcome (registry_result M)) (t : list rtok) : Prop :=
  match o with
  | Returned (GotChan id ch) => (ch, id) ∈ t
  | Returned (GotMessage id m) => m.1 = id
  | Returned Finished => True
  | _ => False
  end.

Lemma registry_machine_inv ops m :
  registry_reachable (registry_machine ops) m ->
  machine_inv reg_inv reg_may_block reg_no_fork reg_end m.
Proof.
  intros Hr. eapply (reachable_inv reg_inv reg_may_block reg_no_fork (Inv_proper := reg_inv_proper));
    [by intros o t []|exact Hr|].
  exists (map (fun _ => []) ops). split; simpl.
  - rewrite Forall2_fmap. apply Forall2_same_length_lookup_2; [done|]. intros i op op' Hop Hop'.
    assert (op = op') as <- by congruence. destruct op as [id|id x|id|id]; apply cwp_bind.
    + apply rcwp_Register. intros ch. simpl. set_solver.
    + by apply rcwp_Deliver.
    + by apply rcwp_Deregister.
    + apply rcwp_Register. intros ch. apply cwp_bind. apply (rcwp_Receive ch id); [set_solver|].
      intros y Hy. apply cwp_bind, rcwp_Deregister. done.
  - replace (concat (map (fun _ => []) ops)) with (@nil rtok) by (clear; by induction ops).
    exists []. simpl. split_and!; try done; set_solver.
Qed.

(** C18: routing.  However many callers register, wait and deregister while
    deliveries run, in every state they can reach: a message received while
    waiting for an ID was delivered under that ID; a channel handed out for an ID
    holds at most one message, and only one delivered under that ID, even after the
    ID was deregistered or registered anew; and the only operation a goroutine can
    be stuck in is waiting for its message: no delivery ever blocks. *)
Theorem registry_isolation ops m :
  registry_reachable (registry_machine ops) m ->
  (forall id x, Ret (GotMessage id x) ∈ threads m -> x.1 = id) /\
  (forall id ch q, Ret (GotChan id ch) ∈ threads m -> chans (shared m) !! ch = Some q ->
     (length q <= 1)%nat /\ forall x, x ∈ q -> x.1 = id) /\
  (forall l p, l <> ChanRecv -> p ∈ threads m -> ~ stuck_on l p (shared m)).
Proof.
  intros Hr. pose proof (registry_machine_inv ops m Hr) as Hm. split_and!.
  - intros id x Hin.
    by destruct (machine_inv_returned reg_inv reg_may_block reg_no_fork reg_end m _ Hm Hin) as [t Ht].
  - intros id ch q Hin Hq. destruct Hm as (tss & Hts & owner & _ & _ & Ht & Hc).
    apply list_elem_of_lookup in Hin as [i Hi].
    destruct (Forall2_lookup_l _ _ _ _ _ Hts Hi) as (t & Hti & Hend). simpl in Hend.
    destruct (Hc ch q Hq) as [Hle Hown]. split; [done|]. intros x Hx.
    assert (H1 : owner !! ch = Some id).
    { apply Ht, list_elem_of_In, in_concat. exists t. split; [|by apply list_elem_of_In].
      apply list_elem_of_In. by eapply list_elem_of_lookup_2. }
    specialize (Hown x Hx). congruence.
  - intros l p Hl Hp Hst. by destruct (machine_inv_stuck reg_inv reg_may_block reg_no_fork
      (Inv_proper := reg_inv_proper) reg_end m l p Hm Hp Hst).
Qed.

End registry_machine.

(** What a registered ID promises in a quiet registry.  After Register, a
    delivery under that ID puts its message in the channel returned; a second one
    before the first is received is dropped; after Deregister, and for any ID never
    registered, a delivery changes nothing. *)
Lemma registry_delivery {T W} (h : handler W) (r : Registry T) id (m1 m2 : T) w :
  let r1 := run h (Register id) r w in
  exists ch, out r1 = Returned ch /\
    let d1 := run h (Deliver id m1) (st r1) w in
    let d2 := run h (Deliver id m2) (st d1) w in
    let e := run h (Deregister id) (st d2) w in
    chans (st r1) !! ch = Some [] /\ chans (st d1) !! ch = Some [m1] /\ st d2 = st d1 /\
    run h (Deliver id m2) (st e) w = mkResult (Returned tt) (st e) w [] /\
    out (run h (Receive ch) (st d2) w) = Returned m1.
Proof.
  cbn. exists (length (chans r)). split; [done|]. unfold Deliver, try_send. cbn.
  rewrite lookup_insert_eq. cbn.
  assert (Hnew : (chans r ++ [[]]) !! length (chans r) = Some []) by by apply list_lookup_middle.
  rewrite Hnew. cbn. rewrite lookup_insert_eq. cbn.
  assert (Hlt : (length (chans r) < length (chans r ++ [@nil T]))%nat) by (rewrite length_app; simpl; lia).
  rewrite !list_lookup_insert_eq by done. cbn. split_and!; try done.
  - by rewrite lookup_delete_eq.
  - by rewrite list_lookup_insert_eq by done.
Qed.

(** *** Witness: two callers and their replies, delivered in the other order *)

Definition registry_sample : machine (Registry (string * nat)) (registry_result nat) :=
  exec scripted (fun _ => Finished) [0; 0; 1; 1; 2; 2; 3; 3; 0; 1; 0; 1]%nat
    (registry_machine [OpExchange "a"; OpExchange "b"; OpDeliver "b" 7%nat; OpDeliver "a" 9%nat]) calm.

Lemma registry_isolation_witness :
  Ret (GotMessage "a" ("a"%string, 9%nat)) ∈ threads registry_sample /\
  forall id x, Ret (GotMessage id x) ∈ threads registry_sample -> x.1 = id.
Proof.
  split; [vm_compute; left|].
  exact (proj1 (registry_isolation _ registry_sample (exec_reachable scripted _ _ _ calm scripted_ok))).
Defined.
