(* ===== verification/Client.v ===== *)
(** * The client

    src/mq/client.go and [Client.Health] of src/mq/health.go.  A client keeps the
    teardown and probe functions its components register.  Each of them is a
    method value (s.close, l.close, r.Close, or the probe built from s, l or r), so
    it is represented by the component it belongs to; [closer] and [prober] give
    the program it stands for, run in the [World] of all component states. *)

From Stdlib Require Import ZArith Lia.
From stdpp Require Import base numbers list option strings gmap.
From S2P Require Import Prelude GoErrors Float64 Config Mqi GoProg Script Backoff Connection.
From S2P Require Import Telemetry Wire Sender Listener RequestReply Health.

Local Open Scope Z_scope.
Local Open Scope go_scope.

(** The states of the components created so far, by kind and index. *)
Record World := mkWorld {
  w_senders : list SenderState;
  w_listeners : list ListenerState;
  w_rrs : list RRState
}.

(** A component: where its state lives and its fixed fields. *)
Inductive component :=
| TheSender (i : nat) (s : Sender)
| TheListener (i : nat) (l : Listener)
| TheRR (i : nat) (r : RequestReplyClient).

(** The mutable part of a [Client]; its configuration is fixed by NewClient. *)
Record ClientState := mkClientState {
  cl_closed : bool;
  cl_closers : list component;
  cl_probers : list component;
  cl_world : World
}.

Definition ClientState_init : ClientState := mkClientState false [] [] (mkWorld [] [] []).

(** A method of one component, run in the world. *)
Definition get_sender (i : nat) (w : World) : SenderState := default SenderState_init (w_senders w !! i).

Definition set_sender (i : nat) (x : SenderState) (w : World) : World :=
  mkWorld (<[i := x]> (w_senders w)) (w_listeners w) (w_rrs w).

Definition get_rr (i : nat) (w : World) : RRState := default RRState_init (w_rrs w !! i).

Definition set_rr (i : nat) (x : RRState) (w : World) : World :=
  mkWorld (w_senders w) (w_listeners w) (<[i := x]> (w_rrs w)).

Definition ListenerState_zero : ListenerState := mkListenerState false false false None None [] 0 [] 0.

Definition get_listener (i : nat) (w : World) : ListenerState :=
  default ListenerState_zero (w_listeners w !! i).

Definition set_listener (i : nat) (x : ListenerState) (w : World) : World :=
  mkWorld (w_senders w) (<[i := x]> (w_listeners w)) (w_rrs w).

Definition on_sender {A} (i : nat) (p : prog SenderState A) : prog World A :=
  zoom (get_sender i) (set_sender i) p.

Definition on_listener {A} (i : nat) (p : prog ListenerState A) : prog World A :=
  zoom (get_listener i) (set_listener i) p.

Definition on_rr {A} (i : nat) (p : prog RRState A) : prog World A :=
  zoom (get_rr i) (set_rr i) p.

(** The functions behind a registered component. *)
Definition closer (c : component) : prog World error :=
  match c with
  | TheSender i _ => on_sender i Sender_close
  | TheListener i _ => on_listener i Listener_close
  | TheRR i _ => on_rr i RR_Close
  end.

Definition prober (c : component) : prog World (list ConnectionStatus) :=
  match c with
  | TheSender i s => on_sender i (senderHealthProber s)
  | TheListener i l => on_listener i (listenerHealthProber l)
  | TheRR i r => on_rr i (requestReplyHealthProber r)
  end.

(** A program of the world, run by the client. *)
Definition set_world (w : World) (c : ClientState) : ClientState :=
  mkClientState (cl_closed c) (cl_closers c) (cl_probers c) w.

Definition in_world {A} (p : prog World A) : prog ClientState A := zoom cl_world set_world p.

(** [NewClient]. *)
Definition NewClient (cfg : Config) : (Config * ClientState) + err :=
  let cfg := applyDefaults cfg in
  match Validate cfg with
  | Some e => inr e
  | None => inl (cfg, ClientState_init)
  end.

(** [Client.Config]. *)
Definition Client_Config (c : Config * ClientState) : Config := c.1.

(** [Client.register] and [Client.registerHealthProber]. *)
Definition register (fn : component) : prog ClientState unit :=
  modify (fun c => mkClientState (cl_closed c) (cl_closers c ++ [fn]) (cl_probers c) (cl_world c)).

Definition registerHealthProber (p : component) : prog ClientState unit :=
  modify (fun c => mkClientState (cl_closed c) (cl_closers c) (cl_probers c ++ [p]) (cl_world c)).

(** Allocation of a component's state. *)
Definition alloc_sender (x : SenderState) : prog ClientState nat :=
  atomic (fun c => let w := cl_world c in
    (length (w_senders w),
     set_world (mkWorld (w_senders w ++ [x]) (w_listeners w) (w_rrs w)) c)).

Definition alloc_listener (x : ListenerState) : prog ClientState nat :=
  atomic (fun c => let w := cl_world c in
    (length (w_listeners w),
     set_world (mkWorld (w_senders w) (w_listeners w ++ [x]) (w_rrs w)) c)).

Definition alloc_rr (x : RRState) : prog ClientState nat :=
  atomic (fun c => let w := cl_world c in
    (length (w_rrs w), set_world (mkWorld (w_senders w) (w_listeners w) (w_rrs w ++ [x])) c)).

(** [for _, opt := range opts { opt(x) }]. *)
Definition apply_options {A : Type} (opts : list (A -> A)) (x : A) : A :=
  fold_left (fun x opt => opt x) opts x.

(** [Client.NewListener]. *)
Definition NewListener (cfg : Config) (queueName : string) (opts : list ListenerOption)
    : prog ClientState (nat * Listener) :=
  do! tel <- lift (newMQTelemetry (Telemetry cfg));
  let l := apply_options opts
    (mkListener cfg queueName (InputConcurrency cfg) (MaxRetries cfg) QueueOptions_zero tel None) in
  do! i <- alloc_listener (initStates l);
  register (TheListener i l) ;;;
  registerHealthProber (TheListener i l) ;;;
  Ret (i, l).

(** [Client.NewSender]. *)
Definition NewSender (cfg : Config) (destinationQueue : string) (opts : list SenderOption)
    : prog ClientState (nat * Sender) :=
  let destinationQueue := if String.eqb destinationQueue "" then OutputQueue cfg else destinationQueue in
  do! tel <- lift (newMQTelemetry (Telemetry cfg));
  let s := apply_options opts (mkSender cfg destinationQueue (OutputConcurrency cfg) tel) in
  do! i <- alloc_sender SenderState_init;
  register (TheSender i s) ;;;
  registerHealthProber (TheSender i s) ;;;
  Ret (i, s).

(** The common body of [NewRequestReplyClient] and [NewRequestReplyClientFixed]. *)
Definition new_rr (cfg : Config) (requestQueue replyQueue : string) (mode : RequestReplyMode)
    (opts : list RROption)
    : prog ClientState (nat * RequestReplyClient) :=
  do! tel <- lift (newMQTelemetry (Telemetry cfg));
  let r := apply_options opts (mkRRClient cfg requestQueue replyQueue mode tel) in
  do! i <- alloc_rr RRState_init;
  register (TheRR i r) ;;;
  registerHealthProber (TheRR i r) ;;;
  Ret (i, r).

Definition NewRequestReplyClient (cfg : Config) (requestQueue : string)
    (opts : list RROption) :=
  new_rr cfg requestQueue "" TemporaryQueue opts.

Definition NewRequestReplyClientFixed (cfg : Config) (requestQueue replyQueue : string)
    (opts : list RROption) :=
  new_rr cfg requestQueue replyQueue FixedQueueSelector opts.

(** The loop of [Client.Close] over the closers left, in call order. *)
Fixpoint close_all (fns : list component) (errs : list error) : prog ClientState error :=
  match fns with
  | [] => Ret (errors_Join errs)
  | fn :: fns =>
      do! e <- in_world (closer fn);
      close_all fns (match e with Some _ => errs ++ [e] | None => errs end)
  end.

(** [Client.Close]. *)
Definition Client_Close : prog ClientState error :=
  do! closers <- atomic (fun c =>
    if cl_closed c then (None, c)
    else (Some (cl_closers c), mkClientState true [] (cl_probers c) (cl_world c)));
  match closers with
  | None => Ret None
  | Some fns => close_all (reverse fns) []
  end.

(** The loop of [Client.Health] over the probers. *)
Fixpoint probe_all (fns : list component) (details : list ConnectionStatus)
    : prog ClientState (list ConnectionStatus) :=
  match fns with
  | [] => Ret details
  | fn :: fns => do! d <- in_world (prober fn); probe_all fns (details ++ d)
  end.

Definition closed_entry (cfg : Config) : ConnectionStatus :=
  mkConnectionStatus (QueueManagerName cfg) false [Lit "client is closed"] [Lit "client"].

(** [Client.Health]. *)
Definition Client_Health (cfg : Config) : prog ClientState HealthStatus :=
  do! '(closed, probers) <- reads (fun c => (cl_closed c, cl_probers c));
  do! details <- probe_all probers [];
  let details := if closed : bool then closed_entry cfg :: details else details in
  Ret (mkHealthStatus (forallb Alive details) details).

(** ** What the client asks of a component *)

(** Components are told apart by kind and index. *)
Definition comp_key (c : component) : nat * nat :=
  match c with
  | TheSender i _ => (0, i)%nat
  | TheListener i _ => (1, i)%nat
  | TheRR i _ => (2, i)%nat
  end.

(** Nothing of the component is in flight: no call is running, no lock is held,
    and the accounts of a sender's pool are in order, with [k] connections lost. *)
Definition sender_at_rest (s : Sender) (st : SenderState) : Prop :=
  (exists k, pool_ok s k st) /\ wg st = 0 /\ poolMu st = false.

Definition listener_at_rest (l : Listener) (st : ListenerState) : Prop :=
  l_mu st = false /\ l_done st <> Some false /\ length (l_states st) = Z.to_nat (l_concurrency l).

Definition comp_at_rest (w : World) (c : component) : Prop :=
  match c with
  | TheSender i s => exists st, w_senders w !! i = Some st /\ sender_at_rest s st
  | TheListener i l => exists st, w_listeners w !! i = Some st /\ listener_at_rest l st
  | TheRR i _ => exists st, w_rrs w !! i = Some st
  end.

Definition comp_closed (w : World) (c : component) : Prop :=
  match c with
  | TheSender i _ => exists st, w_senders w !! i = Some st /\ s_closed st = true
  | TheListener i _ => exists st, w_listeners w !! i = Some st /\ l_closed st = true
  | TheRR i _ => exists st, w_rrs w !! i = Some st /\ rr_closed st = true
  end.

(** The handles a component holds that closing it must give back. *)
Definition pooled (w : World) (c : component) : list MQQueueManager :=
  match c with
  | TheSender i _ =>
      match w_senders w !! i with
      | Some st => if s_closed st then [] else map conn_queueManager (pool st)
      | None => []
      end
  | _ => []
  end.

(** The contract of a teardown function. *)
Record closes (c : component) (w : World) (o : outcome error) (w' : World) (t : list event) : Prop := {
  cs_out : exists e, o = Returned e /\ (e = None <-> omap disc_failure t = []);
  cs_disc : omap disc_handle t = pooled w c;
  cs_closed : comp_closed w' c;
  cs_rest : forall c', comp_at_rest w c' -> comp_at_rest w' c';
  cs_stays : forall c', comp_closed w c' -> comp_closed w' c';
  cs_frame : forall c', comp_key c' <> comp_key c -> pooled w' c' = pooled w c'
}.

#[export] Instance sender_lens i :
  LensOn (fun w => is_Some (w_senders w !! i)) (get_sender i) (set_sender i).
Proof.
  split.
  - intros t w [x Hx]. unfold get_sender, set_sender. simpl.
    by rewrite list_lookup_insert_eq by (by eapply lookup_lt_Some).
  - intros [ss ls rs] [x Hx]. unfold get_sender, set_sender. simpl in *.
    by rewrite Hx, list_insert_id.
  - intros. unfold set_sender. simpl. by rewrite list_insert_insert_eq.
  - intros t w [x Hx]. simpl. rewrite list_lookup_insert_eq by (by eapply lookup_lt_Some). eauto.
Qed.

#[export] Instance listener_lens i :
  LensOn (fun w => is_Some (w_listeners w !! i)) (get_listener i) (set_listener i).
Proof.
  split.
  - intros t w [x Hx]. unfold get_listener, set_listener. simpl.
    by rewrite list_lookup_insert_eq by (by eapply lookup_lt_Some).
  - intros [ss ls rs] [x Hx]. unfold get_listener, set_listener. simpl in *.
    by rewrite Hx, list_insert_id.
  - intros. unfold set_listener. simpl. by rewrite list_insert_insert_eq.
  - intros t w [x Hx]. simpl. rewrite list_lookup_insert_eq by (by eapply lookup_lt_Some). eauto.
Qed.

#[export] Instance rr_lens i : LensOn (fun w => is_Some (w_rrs w !! i)) (get_rr i) (set_rr i).
Proof.
  split.
  - intros t w [x Hx]. unfold get_rr, set_rr. simpl.
    by rewrite list_lookup_insert_eq by (by eapply lookup_lt_Some).
  - intros [ss ls rs] [x Hx]. unfold get_rr, set_rr. simpl in *. by rewrite Hx, list_insert_id.
  - intros. unfold set_rr. simpl. by rewrite list_insert_insert_eq.
  - intros t w [x Hx]. simpl. rewrite list_lookup_insert_eq by (by eapply lookup_lt_Some). eauto.
Qed.

#[export] Instance world_lens : LensOn (fun _ => True) cl_world set_world.
Proof. split; try done. by intros []. Qed.

(** ** The components keep the contract *)

Lemma lookup_set_sender w i j st st' :
  w_senders w !! i = Some st ->
  w_senders (set_sender i st' w) !! j = if decide (i = j) then Some st' else w_senders w !! j.
Proof.
  intros Hi. simpl. destruct (decide (i = j)) as [<-|Hne].
  - apply list_lookup_insert_eq. by eapply lookup_lt_Some.
  - by apply list_lookup_insert_ne.
Qed.

Lemma lookup_set_listener w i j st st' :
  w_listeners w !! i = Some st ->
  w_listeners (set_listener i st' w) !! j = if decide (i = j) then Some st' else w_listeners w !! j.
Proof.
  intros Hi. simpl. destruct (decide (i = j)) as [<-|Hne].
  - apply list_lookup_insert_eq. by eapply lookup_lt_Some.
  - by apply list_lookup_insert_ne.
Qed.

Lemma lookup_set_rr w i j st st' :
  w_rrs w !! i = Some st ->
  w_rrs (set_rr i st' w) !! j = if decide (i = j) then Some st' else w_rrs w !! j.
Proof.
  intros Hi. simpl. destruct (decide (i = j)) as [<-|Hne].
  - apply list_lookup_insert_eq. by eapply lookup_lt_Some.
  - by apply list_lookup_insert_ne.
Qed.

Lemma closes_sender w i s st st' e t :
  w_senders w !! i = Some st -> s_closed st' = true ->
  (forall s', sender_at_rest s' st -> sender_at_rest s' st') ->
  (e = None <-> omap disc_failure t = []) -> omap disc_handle t = pooled w (TheSender i s) ->
  closes (TheSender i s) w (Returned e) (set_sender i st' w) t.
Proof.
  intros Hi Hc Hrest He Hd. pose proof (lookup_set_sender w i) as Hl.
  split; [by eexists|done| | | |].
  - exists st'. rewrite (Hl i st st') by done. by rewrite decide_True.
  - intros [j s'|j l|j r]; try done. unfold comp_at_rest. rewrite (Hl j st st') by done.
    case_decide as Hij; [|done]. intros (st0 & H0 & Hr). exists st'. split; [done|]. apply Hrest. congruence.
  - intros [j s'|j l|j r]; try done. unfold comp_closed. rewrite (Hl j st st') by done.
    case_decide as Hij; [|done]. intros _. eauto.
  - intros [j s'|j l|j r] Hk; try done. unfold pooled. rewrite (Hl j st st') by done.
    rewrite decide_False; [done|]. intros ->. by apply Hk.
Qed.

(** A closed sender is still at rest, its drained connections no longer pooled. *)
Lemma sender_at_rest_closed s st :
  sender_at_rest s st -> sender_at_rest s (set_poolMu false (set_pool [] (set_closed st))).
Proof.
  intros ([k [Hk Hc Hb Ha Hr]] & Hwg & Hmu). split; [|done].
  exists (Z.of_nat (length (pool st)) + k). split; simpl; try done; lia.
Qed.

Lemma wp_close_sender w i s :
  comp_at_rest w (TheSender i s) -> wp (closer (TheSender i s)) (closes (TheSender i s) w) w.
Proof.
  intros (st & Hi & Hst). unfold closer, on_sender.
  apply (wp_zoom (fun w => is_Some (w_senders w !! i)) (get_sender i) (set_sender i)); [by exists st|].
  replace (get_sender i w) with st by (unfold get_sender; by rewrite Hi).
  destruct (s_closed st) eqn:Hc.
  - unfold Sender_close. wp_go. rewrite Hc. cbn [fst snd]. wp_go.
    eapply closes_sender; [done|done|done|done|simpl; by rewrite Hi, Hc].
  - destruct Hst as ((k & Hpo) & Hwg & Hmu).
    eapply wp_mono; [|by eapply (wp_Sender_close s k)].
    intros o st' t ((e & -> & He) & Hd & ->).
    eapply closes_sender; [done|done|intros s'; apply sender_at_rest_closed|done|]. simpl. by rewrite Hi, Hc.
Qed.

Lemma wp_close_rr w i r :
  comp_at_rest w (TheRR i r) -> wp (closer (TheRR i r)) (closes (TheRR i r) w) w.
Proof.
  intros (st & Hi). unfold closer, on_rr, RR_Close.
  apply (wp_zoom (fun w => is_Some (w_rrs w !! i)) (get_rr i) (set_rr i)); [by exists st|]. wp_go.
  pose proof (lookup_set_rr w i) as Hl. split; [by eexists|done| | | |].
  - eexists. erewrite Hl by done. by rewrite decide_True.
  - intros [j s'|j l|j r']; try done. unfold comp_at_rest. erewrite Hl by done.
    case_decide; [|done]. intros _. eauto.
  - intros [j s'|j l|j r']; try done. unfold comp_closed. erewrite Hl by done.
    case_decide; [|done]. intros _. eauto.
  - by intros [j s'|j l|j r'].
Qed.

Lemma wp_close_listener w i l :
  comp_at_rest w (TheListener i l) -> wp (closer (TheListener i l)) (closes (TheListener i l) w) w.
Proof.
  intros (st & Hi & Hmu & Hd & _). unfold closer, on_listener.
  apply (wp_zoom (fun w => is_Some (w_listeners w !! i)) (get_listener i) (set_listener i)); [by exists st|].
  replace (get_listener i w) with st by (unfold get_listener; by rewrite Hi).
  pose proof (lookup_set_listener w i) as Hl.
  assert (Hpost : forall st' t, l_closed st' = true -> l_mu st' = false -> l_done st' <> Some false ->
    l_states st' = l_states st -> omap disc_failure t = [] -> omap disc_handle t = [] ->
    closes (TheListener i l) w (Returned None) (set_listener i st' w) t).
  { intros st' t Hc Hm' Hd' Hls Hf Hh. split; [by eexists|done| | | |].
    - exists st'. erewrite Hl by done. by rewrite decide_True.
    - intros [j s'|j l'|j r']; try done. unfold comp_at_rest. erewrite Hl by done.
      case_decide; [|done]. intros (st0 & H0 & _ & _ & Hlen). exists st'. simplify_eq.
      split; [done|]. repeat split; [done|done|]. by rewrite Hls.
    - intros [j s'|j l'|j r']; try done. unfold comp_closed. erewrite Hl by done.
      case_decide; [|done]. intros _. eauto.
    - by intros [j s'|j l'|j r']. }
  unfold Listener_close, lock_l, unlock_l. wp_go. apply wp_select; rewrite Hmu; [done|].
  intros ? ->%list_elem_of_singleton. cbn [fst snd]. wp_go.
  destruct (l_closed st) eqn:Hc; cbn [l_closed set_l_mu fst]; rewrite Hc; wp_go; [by apply Hpost|].
  cbn [fst snd l_cancel l_done set_l_closed set_l_mu].
  destruct (l_cancel st) as [cc|], (l_done st) as [[|]|] eqn:Hdn; try done; wp_go.
  all: try (apply wp_select; cbn [l_done set_l_mu set_l_closed]; rewrite Hdn; [done|];
            intros ? ->%list_elem_of_singleton; cbn [fst snd]; wp_go).
  all: apply Hpost; simpl; congruence.
Qed.

Lemma wp_closer w c : comp_at_rest w c -> wp (closer c) (closes c w) w.
Proof. destruct c; [apply wp_close_sender|apply wp_close_listener|apply wp_close_rr]. Qed.

(** ** Closing everything *)

Definition all_closed (fns : list component) (errs : list error) (cs : ClientState) (o : outcome error)
    (cs' : ClientState) (t : list event) : Prop :=
  (exists e, o = Returned e /\ (e = None <-> errs = [] /\ omap disc_failure t = [])) /\
  omap disc_handle t = concat (map (pooled (cl_world cs)) fns) /\
  Forall (comp_closed (cl_world cs')) fns /\
  (forall c, comp_at_rest (cl_world cs) c -> comp_at_rest (cl_world cs') c) /\
  (forall c, comp_closed (cl_world cs) c -> comp_closed (cl_world cs') c) /\
  cl_closed cs' = cl_closed cs /\ cl_closers cs' = cl_closers cs /\ cl_probers cs' = cl_probers cs.

Lemma wp_close_all fns errs cs :
  Forall (comp_at_rest (cl_world cs)) fns -> NoDup (map comp_key fns) -> Forall (fun e => e <> None) errs ->
  wp (close_all fns errs) (all_closed fns errs cs) cs.
Proof.
  revert errs cs. induction fns as [|c fns IH]; intros errs cs Hi Hn He; cbn [close_all].
  { cbn [wp]. split_and!; try done. eexists. split; [done|]. rewrite errors_Join_nil.
    destruct errs as [|e errs]; [done|]. split; [|by intros [? _]].
    intros Hf. apply Forall_cons_1 in Hf as [-> _]. by apply Forall_cons_1 in He as [? _]. }
  apply Forall_cons_1 in Hi as [Hc Hi]. inversion Hn as [|? ? Hk Hn']; subst.
  wp_go. unfold in_world. apply (wp_zoom (fun _ => True) cl_world set_world); [done|].
  eapply wp_mono; [|by apply wp_closer]. intros o w' t [(e & -> & Hnone) Hd Hcl Hrest Hst Hfr]. wp_go.
  eapply wp_mono; [|apply IH; [|exact Hn'|]].
  - intros o cs' t' ((e' & -> & He') & Hd' & Hcl' & Hrest' & Hst' & H1 & H2 & H3).
    split_and!; try done.
    + eexists. split; [done|]. rewrite He', omap_app, app_nil. destruct e as [e|].
      * split; [|intros (_ & Hf & _); by apply Hnone in Hf]. intros [Hf _]. by destruct errs.
      * rewrite (proj1 Hnone) by done. naive_solver.
    + rewrite omap_app, Hd, Hd'. simpl. f_equal. f_equal. apply map_ext_in. intros c' Hin. apply Hfr.
      intros Heq. apply Hk. rewrite <-Heq. apply list_elem_of_fmap. exists c'. split; [done|].
      by apply list_elem_of_In.
    + constructor; [|done]. by apply Hst'.
    + intros c' Hc'. by apply Hrest', Hrest.
    + intros c' Hc'. by apply Hst', Hst.
  - eapply Forall_impl; [exact Hi|]. apply Hrest.
  - destruct e; [|done]. by apply Forall_app_2; [|repeat constructor].
Qed.

(** ** Health *)

(** What it means for a component to be well, by its own state. *)
Definition sender_healthy (st : SenderState) : Prop :=
  sender_usable st /\
  (created st = 0 -> s_lastErr st = None) /\
  (created st <> 0 -> pool st <> [] \/ s_state st = StateConnected \/ s_state st = StateUnknown).

Definition comp_healthy (w : World) (c : component) : Prop :=
  match c with
  | TheSender i _ => forall st, w_senders w !! i = Some st -> sender_healthy st
  | TheListener i _ => forall st, w_listeners w !! i = Some st ->
      Forall (fun x => x = StateConnected /\ l_closed st = false) (l_states st)
  | TheRR i _ => forall st, w_rrs w !! i = Some st -> rr_closed st = false /\ rr_state st <> StateFailed
  end.

(** The contract of a probe function. *)
Record probes (c : component) (w : World) (o : outcome (list ConnectionStatus)) (w' : World)
    (t : list event) : Prop := {
  pb_quiet : t = [];
  pb_out : exists ds, o = Returned ds /\ (forallb Alive ds = true <-> comp_healthy w c);
  pb_rest : forall c', comp_at_rest w c' -> comp_at_rest w' c';
  pb_closed : forall c', comp_closed w c' -> comp_closed w' c';
  pb_healthy : forall c', comp_healthy w' c' <-> comp_healthy w c'
}.

Lemma pool_ok_perm s k st p : pool_ok s k st -> p ≡ₚ pool st -> pool_ok s k (set_pool p st).
Proof. intros [] Hp. split; simpl; rewrite ?Hp; done. Qed.

Lemma sender_healthy_perm st p : p ≡ₚ pool st -> sender_healthy (set_pool p st) <-> sender_healthy st.
Proof.
  intros Hp. unfold sender_healthy, sender_usable. simpl.
  assert (Hn : p <> [] <-> pool st <> []).
  { split; intros Hne He; apply Hne; [|rewrite He in Hp; by apply Permutation_nil].
    rewrite He in Hp. by apply Permutation_nil; symmetry. }
  tauto.
Qed.

Lemma sender_report_healthy s st o st' t :
  sender_probe_post s st o st' t ->
  exists ds, o = Returned ds /\ (forallb Alive ds = true <-> sender_healthy st).
Proof.
  intros (_ & ds & p & -> & _ & _ & Hlen & _ & Hnil & Hal). exists ds. split; [done|].
  destruct ds as [|d [|d' ds]]; simpl in *; try lia.
  - destruct (proj1 Hnil eq_refl) as (Hu & Hc & He). split; [|done]. intros _.
    split_and!; [done|done|congruence].
  - rewrite andb_true_r. unfold sender_healthy. split.
    + intros Ha. destruct Hal as [Hal _]. destruct Hal as (Hu & Hc & Hs); [exists d; set_solver|]. naive_solver.
    + intros (Hu & H0 & H1). destruct (decide (created st = 0)) as [Hz|Hz].
      * pose proof (proj2 Hnil (conj Hu (conj Hz (H0 Hz)))). done.
      * destruct (proj2 Hal (conj Hu (conj Hz (H1 Hz)))) as (d' & ->%list_elem_of_singleton & Ha). done.
Qed.

Lemma wp_probe_sender w i s :
  comp_at_rest w (TheSender i s) -> wp (prober (TheSender i s)) (probes (TheSender i s) w) w.
Proof.
  intros (st & Hi & (k & Hpo) & _ & Hmu). unfold prober, on_sender.
  apply (wp_zoom (fun w => is_Some (w_senders w !! i)) (get_sender i) (set_sender i)); [by exists st|].
  replace (get_sender i w) with st by (unfold get_sender; by rewrite Hi).
  eapply wp_mono; [|by apply (wp_senderHealthProber s k)]. intros o st' t Hp.
  destruct (sender_report_healthy _ _ _ _ _ Hp) as (ds & -> & Hds).
  destruct Hp as (-> & ds' & p & _ & -> & Hperm & _).
  pose proof (lookup_set_sender w i) as Hl. split; [done|exists ds; split; [done|]| | |].
  - rewrite Hds. simpl. split; [intros ? st0; congruence|auto].
  - intros [j s'|j l|j r]; try done. unfold comp_at_rest. erewrite Hl by done.
    case_decide as Hij; [|done]. intros (st0 & H0 & (k0 & Hpo0) & Hrest).
    eexists. split; [done|]. simplify_eq. split; [exists k0; by apply pool_ok_perm|done].
  - intros [j s'|j l|j r]; try done. unfold comp_closed. erewrite Hl by done.
    case_decide as Hij; [|done]. intros (st0 & H0 & Hc0). eexists. split; [done|]. simpl. congruence.
  - intros [j s'|j l|j r]; try done. unfold comp_healthy. erewrite Hl by done.
    case_decide as Hij; [subst j|done]. pose proof (sender_healthy_perm st p Hperm).
    split; intros Hh st0 Hst0; simplify_eq; [by apply H, Hh|by apply H, Hh].
Qed.

Lemma wp_probe_listener w i l :
  comp_at_rest w (TheListener i l) -> wp (prober (TheListener i l)) (probes (TheListener i l) w) w.
Proof.
  intros (st & Hi & Hmu & _). unfold prober, on_listener.
  apply (wp_zoom (fun w => is_Some (w_listeners w !! i)) (get_listener i) (set_listener i)); [by exists st|].
  assert (Hg : get_listener i w = st) by (unfold get_listener; by rewrite Hi).
  assert (Hset : set_listener i st w = w) by (rewrite <-Hg; by apply set_get; exists st).
  rewrite Hg. eapply wp_mono; [|by apply wp_listenerHealthProber].
  intros o st' t (ds & -> & -> & -> & Hlen & Hds). rewrite Hset. split; [done|exists ds; split; [done|]|done|done|done].
  rewrite forallb_forall. simpl. split.
  - intros Ha st0 Hst0. simplify_eq. apply Forall_lookup. intros j x Hx.
    destruct (Hds j x Hx) as (d & Hd & _ & Hal). apply Hal, Ha, list_elem_of_In.
    by eapply list_elem_of_lookup_2.
  - intros Hf d Hin. apply list_elem_of_In, list_elem_of_lookup in Hin as [j Hj].
    destruct (lookup_lt_is_Some_2 (l_states st) j) as [x Hx].
    { rewrite <-Hlen. by eapply lookup_lt_Some. }
    destruct (Hds j x Hx) as (d' & Hd & _ & Hal). simplify_eq. apply Hal.
    specialize (Hf _ Hi). rewrite Forall_lookup in Hf. by apply (Hf j x).
Qed.

Lemma wp_probe_rr w i r :
  comp_at_rest w (TheRR i r) -> wp (prober (TheRR i r)) (probes (TheRR i r) w) w.
Proof.
  intros (st & Hi). unfold prober, on_rr.
  apply (wp_zoom (fun w => is_Some (w_rrs w !! i)) (get_rr i) (set_rr i)); [by exists st|].
  assert (Hg : get_rr i w = st) by (unfold get_rr; by rewrite Hi).
  assert (Hset : set_rr i st w = w) by (rewrite <-Hg; by apply set_get; exists st).
  rewrite Hg. eapply wp_mono; [|by apply wp_requestReplyHealthProber].
  intros o st' t (ds & -> & -> & -> & _ & _ & Hdead). rewrite Hset.
  split; [done|exists ds; split; [done|]|done|done|done].
  rewrite forallb_forall. simpl. split.
  - intros Ha st0 Hst0. assert (st0 = st) as -> by congruence.
    assert (Hno : ~ (rr_closed st = true \/ rr_state st = StateFailed)).
    { rewrite <-Hdead. intros (d & Hd%list_elem_of_In & Hf). by rewrite (Ha d Hd) in Hf. }
    destruct (rr_closed st); naive_solver.
  - intros Hf d Hin%list_elem_of_In. destruct (Alive d) eqn:Hd; [done|].
    destruct (proj1 Hdead) as [Hc|Hs]; [by exists d|..]; destruct (Hf st Hi); congruence.
Qed.

Lemma wp_prober w c : comp_at_rest w c -> wp (prober c) (probes c w) w.
Proof. destruct c; [apply wp_probe_sender|apply wp_probe_listener|apply wp_probe_rr]. Qed.

(** The registrations are as they were, and no component was disturbed. *)
Record same_registry (cs cs' : ClientState) : Prop := {
  sr_closed : cl_closed cs' = cl_closed cs;
  sr_closers : cl_closers cs' = cl_closers cs;
  sr_probers : cl_probers cs' = cl_probers cs;
  sr_rest : forall c, comp_at_rest (cl_world cs) c -> comp_at_rest (cl_world cs') c;
  sr_stays : forall c, comp_closed (cl_world cs) c -> comp_closed (cl_world cs') c
}.

(** Health as the conjunction of the components' own. *)
Lemma wp_probe_all fns ds cs :
  Forall (comp_at_rest (cl_world cs)) fns ->
  wp (probe_all fns ds) (fun o cs' t => t = [] /\ same_registry cs cs' /\
    (forall c, comp_healthy (cl_world cs') c <-> comp_healthy (cl_world cs) c) /\
    exists ds', o = Returned (ds ++ ds') /\
      (forallb Alive ds' = true <-> Forall (comp_healthy (cl_world cs)) fns)) cs.
Proof.
  revert ds cs. induction fns as [|c fns IH]; intros ds cs Hp; cbn [probe_all].
  { cbn [wp]. split_and!; try done. exists []. rewrite app_nil_r. split; [done|]. by split. }
  apply Forall_cons_1 in Hp as [Hc Hp]. wp_go.
  unfold in_world. apply (wp_zoom (fun _ => True) cl_world set_world); [done|].
  eapply wp_mono; [|by apply wp_prober]. intros o w' t [-> (d & -> & Hd) Hrest Hclosed Hh]. wp_go.
  eapply wp_mono; [|apply IH].
  2:{ eapply Forall_impl; [exact Hp|]. apply Hrest. }
  intros o cs' t (-> & [] & Hh' & ds' & -> & Hds'). split_and!; try done; [split; eauto|..].
  - intros c'. by rewrite Hh', <-Hh.
  - exists (d ++ ds'). rewrite app_assoc. split; [done|].
    rewrite forallb_app, andb_true_iff, Hd, Hds', Forall_cons.
    assert (Hf : Forall (comp_healthy w') fns <-> Forall (comp_healthy (cl_world cs)) fns).
    { apply Forall_iff. exact Hh. } simpl. by rewrite Hf.
Qed.

(** A configuration with its names set is accepted, after defaulting. *)
Lemma NewClient_accepts cfg :
  QueueManagerName cfg <> "" -> ConnectionName cfg <> "" -> ChannelName cfg <> "" -> 0 <= ProducerTTL cfg ->
  NewClient cfg = inl (applyDefaults cfg, ClientState_init).
Proof.
  intros H1 H2 H3 H4. unfold NewClient. cbn zeta. rewrite (proj2 (Validate_nil (applyDefaults cfg))); [done|].
  destruct (applyDefaults_ok cfg). split; simpl in *; try done; lia.
Qed.

(** ** Properties *)

Lemma NewClient_fresh cfg0 cfg cs : NewClient cfg0 = inl (cfg, cs) -> cs = ClientState_init.
Proof. unfold NewClient. cbn zeta. destruct (Validate _); congruence. Qed.


(** A rejected configuration's error does not depend on its secrets: two
    configurations that differ only in the username, the password, the key store
    path and the certificate label are rejected with the same error. *)
Lemma NewClient_no_secrets c1 c2 e1 :
  same_public c1 c2 -> NewClient c1 = inr e1 -> NewClient c2 = inr e1.
Proof.
  intros Hp. unfold NewClient. cbn zeta.
  assert (Hv : Validate (applyDefaults c1) = Validate (applyDefaults c2)).
  { unfold Validate, validate_errs. rewrite (validate_checks_public _ (applyDefaults c2)); [done|].
    destruct Hp. split; simpl; try done;
      repeat match goal with H : ?f c1 = ?f c2 |- _ => rewrite H; clear H end; done. }
  rewrite Hv. by destruct (Validate (applyDefaults c2)).
Qed.

(** Close of an open client whose components are at rest. *)
Definition client_closed_post (cs : ClientState) (o : outcome error) (cs' : ClientState)
    (t : list event) : Prop :=
  (exists e, o = Returned e /\ (e = None <-> omap disc_failure t = [])) /\
  omap disc_handle t = concat (map (pooled (cl_world cs)) (reverse (cl_closers cs))) /\
  Forall (comp_closed (cl_world cs')) (cl_closers cs) /\
  (forall c, comp_at_rest (cl_world cs) c -> comp_at_rest (cl_world cs') c) /\
  (forall c, comp_closed (cl_world cs) c -> comp_closed (cl_world cs') c) /\
  cl_closed cs' = true /\ cl_closers cs' = [] /\ cl_probers cs' = cl_probers cs.

Lemma wp_Client_Close cs :
  cl_closed cs = false -> Forall (comp_at_rest (cl_world cs)) (cl_closers cs) ->
  NoDup (map comp_key (cl_closers cs)) -> wp Client_Close (client_closed_post cs) cs.
Proof.
  intros Hc Hi Hn. unfold Client_Close. wp_go. rewrite Hc. cbn [fst snd].
  set (cs1 := mkClientState true [] (cl_probers cs) (cl_world cs)).
  eapply wp_mono; [|apply (wp_close_all (reverse (cl_closers cs)) [] cs1); [|..|done]].
  - intros o cs' t ((e & -> & He) & Hd & Hcl & Hrest & Hst & H1 & H2 & H3).
    split_and!; try done; [|by apply Forall_reverse].
    exists e. split; [done|]. rewrite He. naive_solver.
  - by apply Forall_reverse.
  - change (NoDup (comp_key <$> reverse (cl_closers cs))). rewrite fmap_reverse.
    by rewrite reverse_Permutation.
Qed.

(** Health between operations. *)
Definition client_health_post (cfg : Config) (cs : ClientState) (o : outcome HealthStatus)
    (cs' : ClientState) (t : list event) : Prop :=
  exists hs, o = Returned hs /\ t = [] /\ same_registry cs cs' /\
    (forall c, comp_healthy (cl_world cs') c <-> comp_healthy (cl_world cs) c) /\
    (Healthy hs = true <-> cl_closed cs = false /\ Forall (comp_healthy (cl_world cs)) (cl_probers cs)) /\
    (cl_closed cs = true -> Details hs !! 0%nat = Some (closed_entry cfg)).

Lemma wp_Client_Health cfg cs :
  Forall (comp_at_rest (cl_world cs)) (cl_probers cs) ->
  wp (Client_Health cfg) (client_health_post cfg cs) cs.
Proof.
  intros Hp. unfold Client_Health. wp_go. cbn [fst snd]. wp_go.
  eapply wp_mono; [|by apply (wp_probe_all (cl_probers cs) [] cs)].
  intros o cs' t (-> & Hcl & Hh' & ds & -> & Hds). wp_go. eexists. split; [reflexivity|].
  destruct (cl_closed cs); simpl; split_and!; try done; naive_solver.
Qed.

Lemma ext_only_newMQTelemetry tel : ext_only (newMQTelemetry tel).
Proof. simpl. intros ? ? [] [] [] []. done. Qed.

Lemma wp_newMQTelemetry tel (Q : outcome mqTelemetry -> unit -> list event -> Prop) s :
  (forall x t, Forall (fun ev => mqi_call ev = false) t -> Q (Returned x) s t) ->
  wp (newMQTelemetry tel) Q s.
Proof.
  intros HQ. unfold newMQTelemetry. wp_go.
  repeat match goal with b : (nat * error)%type |- _ => destruct b end. wp_go.
  repeat match goal with b : (nat * error)%type |- _ => destruct b; wp_go end.
  apply HQ. by repeat constructor.
Qed.

(** A RetryMultiplier that is not a number passes both the defaulting and
    the validation, although the configuration promises a multiplier of at least
    1.0; the delays computed from it on amd64 are then the smallest int64. *)
Lemma NewClient_accepts_nan cfg attempt :
  QueueManagerName cfg <> "" -> ConnectionName cfg <> "" -> ChannelName cfg <> "" ->
  0 <= ProducerTTL cfg -> RetryMultiplier cfg = S754_nan -> 0 < attempt ->
  exists c st, NewClient cfg = inl (c, st) /\ RetryMultiplier c = S754_nan /\
    @BackoffDuration amd64 (InitialRetryInterval c) (RetryMultiplier c) attempt = - 2 ^ 63.
Proof.
  intros H1 H2 H3 H4 H5 Ha. rewrite NewClient_accepts by done. do 2 eexists. split; [reflexivity|].
  cbn [applyDefaults RetryMultiplier]. rewrite H5. split; [done|].
  change (if f64_ltb S754_nan f64_one then f64_two else S754_nan) with S754_nan.
  unfold BackoffDuration. destruct (Z.to_nat attempt) as [|n] eqn:Hn; [lia|].
  assert (Hx : forall d, f64_mul d S754_nan = S754_nan) by by intros [].
  rewrite Nat.iter_succ, Hx. reflexivity.
Qed.
