(* ===== verification/Traffic.v ===== *)
(** * What the library sends, and what can bring it down

    For every operation of src/mq, from any state and under any interference: no
    goroutine it runs panics unless a creator of the application does, it opens only
    the queues it is told to, and every message it puts was written by the creator
    it was given.  The queues and messages allowed are parameters, [Ro] and [Rm]. *)

From Stdlib Require Import ZArith Lia.
From stdpp Require Import base numbers list option strings gmap.
From S2P Require Import Prelude GoErrors Float64 Hex Config Mqi GoProg Always Script Backoff Connection.
From S2P Require Import Telemetry Wire Sender Listener RequestReply Health Client.

Local Open Scope Z_scope.
Local Open Scope go_scope.

(** The queues opened and the messages put. *)
Definition traffic (Ro : MQOD -> Z -> Prop) (Rm : MQMD -> list Byte.byte -> Prop) (ev : event) : Prop :=
  match ev with
  | Ev e _ => match e with
              | MQOpen _ od opts => Ro od opts
              | MQPut _ md _ body => Rm md body
              | _ => True
              end
  end.

(** How a program ends: by returning; or by returning or running out of fuel. *)
Definition returns {A : Type} (o : outcome A) : Prop :=
  match o with Returned _ => True | _ => False end.

Definition settles {A : Type} (o : outcome A) : Prop :=
  match o with Returned _ | NoFuel => True | _ => False end.

Lemma returns_settles {A : Type} (o : outcome A) : returns o -> settles o.
Proof. by destruct o. Qed.

Section traffic.
Context `{MQBinding} `{GoArch} (Ro : MQOD -> Z -> Prop) (Rm : MQMD -> list Byte.byte -> Prop).

Abbreviation safe := (always (traffic Ro Rm) settles).

(** A creator that, given a message in [Kin], fails or leaves one in [K]. *)
Definition writes (Kin K : Message -> Prop) (creator : option MessageCreator) : Prop :=
  forall m, Kin m ->
  match creator with
  | Some f => safe (f m) (fun o => match o with
      | Returned (m', None) => K m'
      | Returned (_, Some _) => True
      | _ => False end)
  | None => K m
  end.

(** The trace context is written to the properties, which never reach the wire. *)
Definition ignores_properties (K : Message -> Prop) : Prop :=
  forall m p, K m -> K (set_UserProperties p m).

(** ** Connections *)

Lemma emits_mono {S A : Type} (P Q : event -> Prop) (p : prog S A) :
  (forall ev, P ev -> Q ev) -> emits P p -> emits Q p.
Proof.
  intros HPQ. induction p as [A a|A v|A|A B f k IH|A B l f k IH|A B e k IH|A c IHc k IHk]; simpl; auto; [|naive_solver].
  intros Hp b Hb. destruct (Hp b Hb). auto.
Qed.

Lemma conn_traffic ev : conn_event ev = true -> traffic Ro Rm ev.
Proof. destruct ev as [B e b]. by destruct e. Qed.

Lemma safe_newConnectionWithRetry ctx cfg : safe (newConnectionWithRetry ctx cfg) returns.
Proof.
  apply (always_of_wp _ _ _ _ tt); [apply ext_only_newConnectionWithRetry| |by apply wp_newConnectionWithRetry].
  unfold newConnectionWithRetry. apply (emits_mono _ _ _ conn_traffic), emits_connect_loop.
Qed.

Lemma safe_Reconnect ctx c : safe (Reconnect ctx c) returns.
Proof.
  apply (always_of_wp _ _ _ _ tt); [apply ext_only_Reconnect| |by apply wp_Reconnect].
  unfold Reconnect. apply (emits_mono _ _ _ conn_traffic), emits_reconnect_loop.
Qed.

Lemma safe_newConnection cfg : safe (newConnection cfg) returns.
Proof. simpl. by intros [] _. Qed.

Lemma safe_conn_Close c : safe (conn_Close c) returns.
Proof. simpl. by intros [] _. Qed.

Lemma safe_endSpan sp e : safe (endSpan sp e) returns.
Proof. unfold endSpan. destruct e; always_go. Qed.

Lemma safe_newMQTelemetry tel : safe (newMQTelemetry tel) returns.
Proof.
  unfold newMQTelemetry. always_go.
  repeat match goal with b : (nat * error)%type |- _ => destruct b end. always_go.
  repeat match goal with b : (nat * error)%type |- _ => destruct b; always_go end.
Qed.

(** ** Messages *)

Lemma safe_inject t c m K :
  ignores_properties K -> K m ->
  safe (injectToMessage t c m) (fun o => match o with Returned m' => K m' | _ => False end).
Proof.
  intros HK Hm. unfold injectToMessage, Inject. destruct (tel_propagator t); always_go; by apply HK.
Qed.

Lemma safe_wrap t c creator Kin K m :
  ignores_properties K -> writes Kin K creator -> Kin m ->
  safe (wrap_creator t c creator m) (fun o => match o with
    | Returned (m', None) => K m'
    | Returned (_, Some _) => True
    | _ => False end).
Proof.
  intros HK Hw Hm. unfold wrap_creator. always_go.
  apply (always_mono _ _ _ (fun o => match o with
      | Returned (m', None) => K m'
      | Returned (_, Some _) => True
      | _ => False end)).
  - intros [[m' [e|]]|v| | |] Ho; try done; always_go. eapply always_mono; [|by apply safe_inject].
    by intros [a|v| | |] Ho'.
  - specialize (Hw m Hm). by destruct creator.
Qed.

Lemma safe_put cfg hc q t c creator K :
  ignores_properties K -> writes (eq outgoing_message) K creator ->
  Ro (queue_od q) output_options -> (forall m, K m -> Rm (put_mqmd cfg m) (Body m)) ->
  safe (put cfg hc q (wrap_creator t c creator)) returns.
Proof.
  intros HK Hw Hq Hm. unfold put. always_go; [exact Hq|]. destruct b as [[qo od]|e]; [|done]. always_go.
  eapply always_mono; [|by eapply safe_wrap]. intros [[m [e|]]|v| | |] Ho; try done; always_go.
  { by apply Hm. }
  destruct b; always_go.
Qed.

(** ** The sender *)

Lemma safe_acquireConn s ctx : safe (acquireConn s ctx) returns.
Proof.
  unfold acquireConn, try_recv_pool, Sender_setState, incConnActive. always_go. destruct b as [x|]; always_go.
  destruct r as [[c|] st']; cbn [fst]; always_go.
  match goal with |- safe (if ?x then _ else _) _ => destruct x end; always_go.
  - eapply always_mono; [|apply safe_newConnectionWithRetry]. intros [[c|e]|v| | |] Ho; ends Ho; always_go.
    destruct b as [x|]; always_go.
  - destruct r as [[c|x] st'']; cbn [fst]; always_go.
Qed.

Lemma safe_releaseConn s c : safe (releaseConn s c) returns.
Proof. unfold releaseConn. always_go. Qed.

Lemma safe_finish_send s spanCtx span start c id e : safe (finish_send s spanCtx span start c id e) returns.
Proof.
  unfold finish_send, Sender_setState, recordPublishDuration, incError, releaseConn.
  destruct e as [e|]; [|case_goal]; always_go.
  all: eapply always_mono; [|apply safe_endSpan]; intros [a|v| | |] Ho; ends Ho; always_go.
Qed.

Lemma safe_discard c : safe (discard c) returns.
Proof.
  unfold discard, decConnActive. always_go. eapply always_mono; [|apply safe_conn_Close].
  intros [a|v| | |] Ho; ends Ho; always_go.
Qed.

(** The endings of a Send that gives its connection up. *)
Lemma safe_give_up (tel : mqTelemetry) ctx what span e (a : string * error) :
  always (S := SenderState) (traffic Ro Rm) settles (lift (incError tel ctx what) ;;; lift (endSpan span e) ;;; Ret a) returns.
Proof.
  unfold incError. always_go. eapply always_mono; [|apply safe_endSpan]. by intros [u|v| | |] Ho.
Qed.

Lemma safe_send_admitted s ctx dest creator K :
  ignores_properties K -> writes (eq outgoing_message) K creator ->
  Ro (queue_od dest) output_options -> (forall m, K m -> Rm (put_mqmd (s_cfg s) m) (Body m)) ->
  safe (send_admitted s ctx dest creator) returns.
Proof.
  intros HK Hw Hq Hm. unfold send_admitted, startProducerSpan, Sender_setState. always_go.
  destruct b as [spanCtx span]. always_go.
  eapply always_mono; [|apply safe_acquireConn]. intros [[c|e]|v| | |] Ho; ends Ho; [|apply safe_give_up].
  always_go. eapply always_mono; [|by eapply safe_put]. intros [[id e]|v| | |] Hp; ends Hp.
  destruct (IsConnectionError e); [|apply safe_finish_send]. always_go.
  eapply always_mono; [|apply safe_Reconnect]. intros [[c' [e'|]]|v| | |] Hr; ends Hr; always_go.
  - eapply always_mono; [|apply safe_discard]. intros [u|v| | |] Hd; ends Hd; always_go. apply safe_give_up.
  - eapply always_mono; [|by eapply safe_put]. intros [[id' [e'|]]|v| | |] Hp'; ends Hp'; [|apply safe_finish_send].
    always_go. eapply always_mono; [|apply safe_discard]. intros [u|v| | |] Hd; ends Hd; always_go.
    case_goal; always_go; apply safe_give_up.
Qed.

Lemma safe_SendWithCreator s ctx dest creator K :
  ignores_properties K -> writes (eq outgoing_message) K creator ->
  Ro (queue_od (if decide (dest = ""%string) then s_queue s else dest)) output_options ->
  (forall m, K m -> Rm (put_mqmd (s_cfg s) m) (Body m)) ->
  safe (SendWithCreator s ctx dest creator) returns.
Proof.
  intros HK Hw Hq Hm. unfold SendWithCreator.
  replace (if String.eqb dest "" then s_queue s else dest)
    with (if decide (dest = ""%string) then s_queue s else dest)
    by (by destruct (String.eqb_spec dest ""); case_decide).
  case_goal; [done|]. always_go. case_goal; [|done]. always_go.
  eapply always_mono; [|by eapply safe_send_admitted]. intros [u|v| | |] Hd; ends Hd; always_go.
Qed.

Lemma safe_drain n errs : safe (drain n errs) returns.
Proof.
  revert errs. induction n as [|n IH]; intros errs; cbn [drain]; [done|]. unfold try_recv_pool. always_go.
  destruct r as [[c|] st']; [|apply IH]. cbn [fst]. always_go.
  eapply always_mono; [|apply safe_conn_Close]. intros [[c' e]|v| | |] Ho; ends Ho. apply IH.
Qed.

Lemma safe_Sender_close : safe Sender_close returns.
Proof.
  unfold Sender_close. always_go. case_goal; [|done]. always_go.
  eapply always_mono; [|apply safe_drain]. intros [u|v| | |] Hd; ends Hd; always_go.
Qed.

(** ** The listener *)

Lemma safe_reportError l ctx msg e : safe (reportError l ctx msg e) returns.
Proof.
  unfold reportError. destruct (l_onError l) as [g|]; [|exact I]. destruct e as [e|]; [|exact I]. always_go.
  destruct b; always_go.
Qed.

Lemma safe_handle_message l ctx f md data : safe (handle_message l ctx (user_handler f) md data) returns.
Proof.
  unfold handle_message, extractFromMessage, Extract, noopTextMapPropagator_Extract, noopPropagator_Extract,
    startConsumerSpan, invokeHandler, user_handler, incError, recordReceiveDuration.
  destruct (tel_propagator (l_tel l)); always_go;
    match goal with r : (Ctx * Span)%type |- _ => destruct r as [spanCtx span] end; always_go;
    match goal with r : user_answer |- _ => destruct r as [m' [e|]|m' v] end; always_go.
  all: first [apply safe_endSpan | eapply always_mono; [|apply safe_reportError]].
  all: intros [u|v'| | |] Ho; ends Ho; always_go; apply safe_endSpan.
Qed.

Lemma safe_consumeLoop m l ctx conn f :
  Ro (queue_od (l_queue l)) (listen_options (l_queueOpts l)) ->
  safe (consumeLoop m l ctx conn (user_handler f)) settles.
Proof.
  intros Hq. unfold consumeLoop. always_go; [exact Hq|]. destruct b as [[qObj od]|e]; [|exact I]. always_go.
  apply (always_mono _ _ _ settles).
  { intros [u|v| | |] Ho; ends Ho. always_go. }
  clear. induction m as [|m IH]; cbn [consume_polls]; [exact I|]. always_go. destruct b as [x|]; always_go.
  destruct b as [[md data]|e]; [|case_goal; [exact IH|exact I]]. always_go.
  eapply always_mono; [|apply safe_handle_message]. intros [u|v| | |] Ho; ends Ho. exact IH.
Qed.

Lemma safe_consumer_rounds n m l ctx conn f idx :
  Ro (queue_od (l_queue l)) (listen_options (l_queueOpts l)) ->
  safe (consumer_rounds n m l ctx conn (user_handler f) idx) (fun o => match o with
    | Returned (_, inl _) | NoFuel => True
    | _ => False end).
Proof.
  intros Hq. revert conn. induction n as [|n IH]; intros conn; cbn [consumer_rounds]; [exact I|].
  unfold try, setConsumerState in *. always_go. destruct b as [x|]; always_go.
  eapply always_mono; [|by apply safe_consumeLoop]. intros [[e|]|v| | |] Ho; ends Ho; always_go.
  destruct b as [x|]; always_go. case_goal; always_go.
  eapply always_mono; [|apply safe_Reconnect]. intros [[c' [e'|]]|v| | |] Hr; ends Hr; always_go; [|apply IH].
  destruct b as [x|]; always_go.
Qed.

Lemma safe_consumer_goroutine n m l ctx f idx :
  Ro (queue_od (l_queue l)) (listen_options (l_queueOpts l)) ->
  safe (consumer_goroutine n m l ctx (user_handler f) idx) settles.
Proof.
  intros Hq. unfold consumer_goroutine, runConsumer, try, setConsumerState. always_go.
  apply (always_mono _ _ _ settles).
  { intros [[e|]|v| | |] Ho; ends Ho; always_go; cbn [raise]; always_go.
    eapply always_mono; [|apply safe_reportError]. intros [u|v| | |] Hr; ends Hr. always_go. }
  unfold consumer_body, setConsumerState, incConnActive, decConnActive. always_go. destruct b as [x|]; always_go.
  eapply always_mono; [|apply safe_newConnectionWithRetry]. intros [[conn|e]|v| | |] Ho; ends Ho; always_go.
  - eapply always_mono; [|by apply safe_consumer_rounds]. intros [[c' [e|v]]|v| | |] Hr; ends Hr. always_go.
    eapply always_mono; [|apply safe_conn_Close]. intros [u|v| | |] Hc; ends Hc.
  - destruct b as [x|]; always_go.
Qed.

Lemma safe_Start n m l ctx f :
  Ro (queue_od (l_queue l)) (listen_options (l_queueOpts l)) ->
  safe (Start n m l ctx (user_handler f)) returns.
Proof.
  intros Hq. unfold Start, lock_l, unlock_l. always_go. case_goal; always_go. case_goal; always_go.
  apply (always_mono _ _ _ returns).
  { intros [u|v| | |] Ho; ends Ho. always_go. }
  assert (Hs : forall k c, safe (spawn k n m l c (user_handler f)) returns); [|apply Hs].
  clear - Hq. induction k as [|k IH]; intros c; cbn [spawn]; [exact I|]. always_go.
  split; [by apply safe_consumer_goroutine|apply IH].
Qed.

Lemma safe_Listener_close : safe Listener_close returns.
Proof.
  unfold Listener_close, lock_l, unlock_l. always_go. case_goal; always_go. case_goal; always_go; case_goal; always_go.
Qed.

(** ** Request-reply *)

Definition is_request (m : Message) : Prop := exists c q, m = request_message c q.

(** The queues a request-reply client opens besides the request queue. *)
Definition opens_reply (r : RequestReplyClient) : Prop :=
  match rr_mode r with
  | TemporaryQueue =>
      Ro (mkMQOD (ModelQueue (rr_cfg r)) "AMQ.*") (Z.lor MQOO_INPUT_EXCLUSIVE MQOO_FAIL_IF_QUIESCING)
  | FixedQueueSelector => Ro (queue_od (rr_replyQueue r)) (Z.lor MQOO_INPUT_SHARED MQOO_FAIL_IF_QUIESCING)
  end.

Lemma safe_exchange cfg hc q ro md body gmd gmo pt gt reply :
  Ro (queue_od q) output_options -> Rm md body ->
  safe (exchange cfg hc q ro md body gmd gmo pt gt reply) returns.
Proof.
  intros Hq Hm. unfold exchange. always_go; [exact Hq|]. destruct b as [[qo od]|e]; always_go; [exact Hm|].
  destruct b as [md'|e]; always_go. destruct b as [[got data]|e]; always_go. case_goal; always_go.
Qed.

Lemma safe_flow r conn t c creator timeout K :
  ignores_properties K -> writes is_request K creator -> opens_reply r ->
  Ro (queue_od (rr_requestQueue r)) output_options ->
  (forall m q correl, K m -> Rm (request_mqmd (conn_config conn) m q correl) (Body m)) ->
  safe (flow r conn (wrap_creator t c creator) timeout) returns.
Proof.
  intros HK Hw Ho Hq Hm. unfold flow, opens_reply in *.
  destruct (rr_mode r); unfold requestReplyViaTempQueue, requestReplyViaFixedQueue.
  - always_go; [exact Ho|]. destruct b as [[qo od]|e]; always_go.
    eapply always_mono; [|eapply safe_wrap; [done|done|by do 2 eexists]]. intros [[m [e|]]|v| | |] Hc; ends Hc; always_go.
    eapply always_mono; [|by apply safe_exchange; [|apply Hm]]. intros [u|v| | |] He; ends He. always_go.
  - always_go. destruct b as [random|e]; always_go.
    eapply always_mono; [|eapply safe_wrap; [done|done|by do 2 eexists]]. intros [[m [e|]]|v| | |] Hc; ends Hc; always_go.
    destruct (fixed_correl random (CorrelationID m)); always_go; [exact Ho|].
    destruct b as [[qo od]|e]; always_go.
    eapply always_mono; [|by apply safe_exchange; [|apply Hm]]. intros [u|v| | |] He; ends He. always_go.
Qed.

Lemma safe_RequestReply r ctx creator timeout K :
  ignores_properties K -> writes is_request K creator -> opens_reply r ->
  Ro (queue_od (rr_requestQueue r)) output_options ->
  (forall cfg m q correl, K m -> Rm (request_mqmd cfg m q correl) (Body m)) ->
  safe (RequestReplyWithCreator r ctx creator timeout) returns.
Proof.
  intros HK Hw Ho Hq Hm. unfold RequestReplyWithCreator, call_admitted, startClientSpan, recordState. always_go.
  destruct b as [x|]; always_go. case_goal; always_go. destruct b as [spanCtx span]. always_go.
  eapply always_mono; [|apply safe_newConnection]. intros [[conn|e]|v| | |] Hc; ends Hc; always_go.
  eapply always_mono; [|eapply safe_flow; [exact HK|exact Hw|exact Ho|exact Hq|intros; by apply Hm]]. intros [[m [e|]]|v| | |] Hf; ends Hf; always_go.
  all: eapply always_mono; [|apply safe_conn_Close]; intros [u|v| | |] Hx; ends Hx; always_go.
Qed.

(** ** The client *)

Lemma safe_senderHealthProber s : safe (senderHealthProber s) returns.
Proof.
  unfold senderHealthProber, probe_pool, try_recv_pool. always_go. case_goal; [exact I|].
  case_goal; try exact I; (case_goal; [exact I|]); always_go; (destruct r0 as [[c|] st']; cbn [fst]; always_go);
    eapply always_mono; try apply safe_releaseConn; intros [u|v| | |] Hx; ends Hx; always_go.
Qed.

Lemma safe_prober c : safe (prober c) returns.
Proof.
  destruct c as [i s|i l|i r]; apply always_zoom; [apply safe_senderHealthProber| |].
  - unfold listenerHealthProber, lock_l, unlock_l. always_go.
    match goal with |- safe (probe_slots _ _ ?i ?n ?ds) _ => generalize i, n, ds end.
    intros i0 n. revert i0. induction n as [|n IH]; intros i0 ds; cbn [probe_slots]; [exact I|]. always_go. apply IH.
  - unfold requestReplyHealthProber. always_go.
Qed.

Lemma safe_Client_Health cfg : safe (Client_Health cfg) returns.
Proof.
  unfold Client_Health. always_go.
  apply (always_mono _ _ _ returns); [by intros [u|v| | |] Hx; ends Hx; always_go|].
  generalize (@nil ConnectionStatus) as ds. generalize (cl_probers s) as cs.
  induction cs as [|c cs IH]; intros ds; cbn [probe_all]; [exact I|]. unfold in_world. always_go.
  eapply always_mono; [|apply safe_prober]. intros [u|v| | |] Hx; ends Hx. apply IH.
Qed.

Lemma safe_Client_Close : safe Client_Close returns.
Proof.
  unfold Client_Close. always_go. case_goal; [|exact I].
  generalize (@nil error) as es. generalize (reverse l) as cs.
  induction cs as [|c cs IH]; intros es; cbn [close_all]; [exact I|]. unfold in_world. always_go.
  apply (always_mono _ _ _ returns); [intros [u|v| | |] Hx; ends Hx; apply IH|].
  destruct c as [i s'|i l'|i r]; apply always_zoom; [apply safe_Sender_close|apply safe_Listener_close|].
  unfold RR_Close. always_go.
Qed.

(** What the factories hand out. *)
Lemma safe_NewSender cfg q (Q : nat * Sender -> Prop) :
  (forall i tel, Q (i, mkSender cfg (if decide (q = ""%string) then OutputQueue cfg else q) (OutputConcurrency cfg) tel)) ->
  safe (NewSender cfg q []) (fun o => match o with Returned x => Q x | _ => False end).
Proof.
  intros HQ. unfold NewSender, alloc_sender, register, registerHealthProber, apply_options. always_go.
  eapply always_mono; [|apply safe_newMQTelemetry]. intros [tel|v| | |] Hx; ends Hx. always_go. cbn [fold_left].
  replace (if String.eqb q "" then OutputQueue cfg else q)
    with (if decide (q = ""%string) then OutputQueue cfg else q)
    by (by destruct (String.eqb_spec q ""); case_decide). apply HQ.
Qed.

Lemma safe_NewListener cfg q opts (Q : nat * Listener -> Prop) :
  (forall i tel, Q (i, apply_options opts
    (mkListener cfg q (InputConcurrency cfg) (MaxRetries cfg) QueueOptions_zero tel None))) ->
  safe (NewListener cfg q opts) (fun o => match o with Returned x => Q x | _ => False end).
Proof.
  intros HQ. unfold NewListener, alloc_listener, register, registerHealthProber. always_go.
  eapply always_mono; [|apply safe_newMQTelemetry]. intros [tel|v| | |] Hx; ends Hx. always_go. apply HQ.
Qed.

Lemma safe_new_rr cfg q rq mode (Q : nat * RequestReplyClient -> Prop) :
  (forall i tel, Q (i, mkRRClient cfg q rq mode tel)) ->
  safe (new_rr cfg q rq mode []) (fun o => match o with Returned x => Q x | _ => False end).
Proof.
  intros HQ. unfold new_rr, alloc_rr, register, registerHealthProber, apply_options. always_go.
  eapply always_mono; [|apply safe_newMQTelemetry]. intros [tel|v| | |] Hx; ends Hx. always_go. apply HQ.
Qed.

End traffic.

(** A goroutine as an observer sees it: not panicking, and about to make no call
    but those [P] allows. *)
Definition behaves {S A : Type} (P : event -> Prop) (p : prog S A) : Prop :=
  match p with
  | Panic _ => False
  | Ext e _ => forall b, answer_ok e b -> P (Ev e b)
  | _ => True
  end.

(** A process whose goroutines satisfy [always] behaves, whatever the schedule. *)
Lemma always_behaves {S A : Type} P (inj : unit -> A) (c c' : machine S A) :
  Forall (fun p => always P settles p settles) (threads c) -> reachable inj c c' ->
  Forall (behaves P) (threads c').
Proof.
  intros Hc Hr.
  assert (Hall : Forall (fun p => always P settles p settles) (threads c')).
  { eapply (always_reachable _ _ inj settles c c'); [|done|done]. by intros []. }
  eapply Forall_impl; [exact Hall|]. intros p Hp. destruct p; simpl in *; try done.
  intros b Hb. by apply (Hp b).
Qed.
