(* ===== verification/Lasting.v ===== *)
(** * The library has enough fuel

    Every operation of src/mq lasts for ever but a listener's Start, which lasts as
    long as the fuel of its consumers ([lasts_Start]). *)

From Stdlib Require Import ZArith Lia.
From stdpp Require Import base numbers list option strings gmap.
From S2P Require Import Prelude GoErrors Float64 Hex Config Mqi GoProg Always Fuel Backoff Connection.
From S2P Require Import Telemetry Wire Sender Listener RequestReply Health Client.

Local Open Scope Z_scope.
Local Open Scope go_scope.

Section lasting.
Context `{MQBinding} `{GoArch}.

(** ** Connections and messages *)

Lemma lasts_newConnection cfg k : lasts k (newConnection cfg).
Proof. unfold newConnection, dial. lasts_go. Qed.

Lemma lasts_newConnectionWithRetry ctx cfg k : lasts k (newConnectionWithRetry ctx cfg).
Proof.
  apply (wp_lasts _ tt); [apply ext_only_newConnectionWithRetry|].
  by apply wp_newConnectionWithRetry.
Qed.

Lemma lasts_Reconnect ctx c k : lasts k (Reconnect ctx c).
Proof.
  apply (wp_lasts _ tt); [apply ext_only_Reconnect|].
  by apply wp_Reconnect.
Qed.

Lemma lasts_conn_Close c k : lasts k (conn_Close c).
Proof. unfold conn_Close. lasts_go. Qed.

Lemma lasts_endSpan span e k : lasts k (endSpan span e).
Proof. unfold endSpan. lasts_go. Qed.

Lemma lasts_inject t ctx m k : lasts k (injectToMessage t ctx m).
Proof. unfold injectToMessage, Inject, noopTextMapPropagator_Inject, noopPropagator_Inject. lasts_go. Qed.

Lemma lasts_extract t ctx m k : lasts k (extractFromMessage t ctx m).
Proof. unfold extractFromMessage, Extract, noopTextMapPropagator_Extract, noopPropagator_Extract. lasts_go. Qed.

Lemma lasts_newMQTelemetry tel k : lasts k (newMQTelemetry tel).
Proof. unfold newMQTelemetry. lasts_go. Qed.

#[local] Hint Resolve lasts_newConnection lasts_newConnectionWithRetry lasts_Reconnect lasts_conn_Close lasts_endSpan
  lasts_inject lasts_extract lasts_newMQTelemetry : lasts_db.

(** Creators of the application that return or panic. *)
Definition creator_lasts (creator : option MessageCreator) : Prop :=
  forall f m k, creator = Some f -> lasts k (f m).

Lemma creator_ok_lasts creator : (forall f, creator = Some f -> creator_ok f) -> creator_lasts creator.
Proof.
  intros Hc f m k Hf. destruct (Hc f Hf) as [He Hw]. apply (wp_lasts _ tt); [done|].
  eapply wp_mono; [|apply Hw]. by intros o s t [_ [[r ->]|[v ->]]].
Qed.

Lemma lasts_wrap t ctx creator m k : creator_lasts creator -> lasts k (wrap_creator t ctx creator m).
Proof. intros Hc. unfold wrap_creator. lasts_go. Qed.

Lemma lasts_put cfg hc q creator k : (forall m, lasts k (creator m)) -> lasts k (put cfg hc q creator).
Proof. intros Hc. unfold put. lasts_go. Qed.

#[local] Hint Resolve lasts_wrap lasts_put : lasts_db.

(** ** The sender *)

Lemma lasts_acquireConn s ctx k : lasts k (acquireConn s ctx).
Proof. unfold acquireConn, try_recv_pool, Sender_setState, incConnActive. lasts_go. Qed.

Lemma lasts_finish_send s ctx span start c id e k : lasts k (finish_send s ctx span start c id e).
Proof. unfold finish_send, Sender_setState, recordPublishDuration, incError, releaseConn. lasts_go. Qed.

#[local] Hint Resolve lasts_acquireConn lasts_finish_send : lasts_db.

Lemma lasts_SendWithCreator s ctx dest creator k :
  creator_lasts creator -> lasts k (SendWithCreator s ctx dest creator).
Proof.
  intros Hc. assert (Hw : forall t c m, lasts k (wrap_creator t c creator m)) by (intros; by apply lasts_wrap).
  unfold SendWithCreator, send_admitted, Sender_setState, discard, decConnActive, startProducerSpan, incError.
  lasts_go.
Qed.

Lemma lasts_Sender_close k : lasts k Sender_close.
Proof.
  unfold Sender_close. lasts_go.
  generalize (@nil error) as es. induction (Z.to_nat z) as [|n IH]; intros es; cbn [drain]; [exact I|].
  unfold try_recv_pool. lasts_go; apply IH.
Qed.

(** ** The listener *)

Lemma lasts_reportError l ctx m e k : lasts k (reportError l ctx m e).
Proof. unfold reportError. lasts_go. Qed.

#[local] Hint Resolve lasts_reportError : lasts_db.

Lemma lasts_handle_message l ctx f md data k : lasts k (handle_message l ctx (user_handler f) md data).
Proof.
  unfold handle_message, startConsumerSpan, invokeHandler, user_handler, incError, recordReceiveDuration. lasts_go.
Qed.

(** Each poll looks at the context first, which pays for it. *)
Lemma lasts_polls m l ctx q f : forall k, (k <= m)%nat -> lasts k (consume_polls m l ctx q (user_handler f)).
Proof.
  induction m as [|m IH]; intros k Hk; cbn [consume_polls]; [simpl; lia|].
  apply lasts_call_bind. intros e. cbn [spend]. destruct e; [exact I|]. lasts_go.
  - apply lasts_handle_message.
  - apply IH. lia.
  - apply IH. lia.
Qed.

Lemma lasts_consumeLoop m l ctx conn f k : (k <= m)%nat -> lasts k (consumeLoop m l ctx conn (user_handler f)).
Proof. intros Hk. unfold consumeLoop. lasts_go. by apply lasts_polls. Qed.

Lemma lasts_rounds n m l ctx f idx :
  forall k conn, (k <= n)%nat -> (k <= m)%nat -> lasts k (consumer_rounds n m l ctx conn (user_handler f) idx).
Proof.
  induction n as [|n IH]; intros k conn Hn Hm; cbn [consumer_rounds]; [simpl; lia|].
  unfold lift at 1. cbn [zoom]. intros e _. cbn [spend].
  destruct e; [exact I|]. unfold try, setConsumerState. lasts_go; [by apply lasts_consumeLoop; lia|].
  apply IH; lia.
Qed.

Lemma lasts_consumer n m l ctx f idx k :
  (k <= n)%nat -> (k <= m)%nat -> lasts k (consumer_goroutine n m l ctx (user_handler f) idx).
Proof.
  intros Hn Hm. unfold consumer_goroutine, runConsumer, try, consumer_body, setConsumerState, incConnActive,
    decConnActive, raise. lasts_go. by apply lasts_rounds.
Qed.

Lemma lasts_Start n m l ctx f k :
  (k <= n)%nat -> (k <= m)%nat -> lasts k (Start n m l ctx (user_handler f)).
Proof.
  intros Hn Hm. unfold Start, lock_l, unlock_l. lasts_go.
  match goal with |- lasts _ (spawn ?c _ _ _ ?x _) => generalize c, x end. intros c x.
  induction c as [|c IH]; cbn [spawn]; [exact I|]. lasts_go.
  - apply lasts_consumer; lia.
  - by eapply lasts_le; [|exact IH]; lia.
Qed.

Lemma lasts_Listener_close k : lasts k Listener_close.
Proof. unfold Listener_close, lock_l, unlock_l. lasts_go. Qed.

(** ** Request-reply *)

Lemma lasts_exchange cfg hc q ro md body gmd gmo pt gt reply k :
  lasts k (exchange cfg hc q ro md body gmd gmo pt gt reply).
Proof. unfold exchange. lasts_go. Qed.

#[local] Hint Resolve lasts_exchange : lasts_db.

Lemma lasts_RequestReply r ctx creator timeout k :
  creator_lasts creator -> lasts k (RequestReplyWithCreator r ctx creator timeout).
Proof.
  intros Hc. assert (Hw : forall t c m, lasts k (wrap_creator t c creator m)) by (intros; by apply lasts_wrap).
  unfold RequestReplyWithCreator, call_admitted, startClientSpan, recordState, flow, requestReplyViaFixedQueue,
    requestReplyViaTempQueue. lasts_go.
Qed.

(** ** The client *)

Lemma lasts_closer c k : lasts k (closer c).
Proof.
  destruct c; apply lasts_zoom; [apply lasts_Sender_close|apply lasts_Listener_close|]. unfold RR_Close. lasts_go.
Qed.

Lemma lasts_prober c k : lasts k (prober c).
Proof.
  destruct c as [i s|i l|i r]; apply lasts_zoom.
  - unfold senderHealthProber, probe_pool, try_recv_pool, releaseConn. lasts_go.
  - unfold listenerHealthProber, lock_l, unlock_l. lasts_go.
    match goal with |- lasts _ (probe_slots _ _ ?i ?n ?ds) => generalize i, n, ds end.
    intros j n. revert j. induction n as [|n IH]; intros j ds; cbn [probe_slots]; lasts_go.
  - unfold requestReplyHealthProber. lasts_go.
Qed.

#[local] Hint Resolve lasts_closer lasts_prober : lasts_db.

Lemma lasts_Client_Close k : lasts k Client_Close.
Proof.
  unfold Client_Close. lasts_go. generalize (@nil error) as es.
  induction (reverse _) as [|c cs IH]; intros es; cbn [close_all]; [exact I|]. unfold in_world. lasts_go.
Qed.

Lemma lasts_Client_Health cfg k : lasts k (Client_Health cfg).
Proof.
  unfold Client_Health. lasts_go. generalize (@nil ConnectionStatus) as ds.
  match goal with |- forall ds, lasts _ (probe_all ?cs _) => induction cs as [|c cs IH] end; intros ds;
    cbn [probe_all]; [exact I|]. unfold in_world. lasts_go.
Qed.

Lemma lasts_NewSender cfg q opts k : lasts k (NewSender cfg q opts).
Proof. unfold NewSender, alloc_sender, register, registerHealthProber. lasts_go. Qed.

Lemma lasts_NewListener cfg q opts k : lasts k (NewListener cfg q opts).
Proof. unfold NewListener, alloc_listener, register, registerHealthProber. lasts_go. Qed.

Lemma lasts_new_rr cfg q rq mode opts k : lasts k (new_rr cfg q rq mode opts).
Proof. unfold new_rr, alloc_rr, register, registerHealthProber. lasts_go. Qed.

End lasting.

#[export] Hint Resolve lasts_Client_Close lasts_Client_Health lasts_NewSender lasts_NewListener lasts_new_rr : lasts_db.
