(* ===== verification/Session.v ===== *)
(** * Sessions of a client

    What an application can do with a client of src/mq/client.go: build it, create
    components with the options the package exports, use them, ask for health and
    close.  A session is any sequence of such calls, each one ended before the next
    begins, under any environment.  Every property of the client is stated for the
    states a session can reach, so it needs no assumption about the components. *)

From Stdlib Require Import ZArith Lia.
From stdpp Require Import base numbers list option strings gmap relations.
From S2P Require Import Prelude GoErrors Float64 Config Mqi GoProg Script Backoff Connection.
From S2P Require Import Telemetry Wire Sender Listener RequestReply Health Client.

Local Open Scope Z_scope.
Local Open Scope go_scope.

(** The options of a listener; a sender's option is its concurrency, a
    request-reply client's is its reply queue. *)
Inductive listener_opt :=
| LConcurrency (n : Z)
| LQueueOptions (o : QueueOptions)
| LMaxRetries (n : Z)
| LErrorHandler (f : option nat).

Definition listener_option (o : listener_opt) : Listener -> Listener :=
  match o with
  | LConcurrency n => WithListenerConcurrency n
  | LQueueOptions o => WithListenerQueueOptions o
  | LMaxRetries n => WithListenerMaxRetries n
  | LErrorHandler f => WithListenerErrorHandler f
  end.

(** The calls of the public interface.  The handle of a component is what its
    factory returned. *)
Inductive api :=
| ANewSender (queue : string) (opts : list Z)
| ANewListener (queue : string) (opts : list listener_opt)
| ANewRR (queue : string) (opts : list string)
| ANewRRFixed (queue reply : string) (opts : list string)
| ASend (i : nat) (s : Sender) (ctx : Ctx) (dest : string) (creator : option MessageCreator)
| AStart (i : nat) (l : Listener) (n m : nat) (ctx : Ctx) (f : nat)
| ARequestReply (i : nat) (r : RequestReplyClient) (ctx : Ctx) (creator : option MessageCreator) (timeout : Z)
| ACloseRR (i : nat) (r : RequestReplyClient)
| AHealth
| AClose.

(** A call whose result the session does not look at. *)
Definition ignore {S A : Type} (p : prog S A) : prog S unit := p ;;; Ret tt.

Section session.
Context `{MQBinding} `{GoArch}.

Definition api_call (cfg : Config) (a : api) : prog ClientState unit :=
  match a with
  | ANewSender q opts => ignore (NewSender cfg q (map WithSenderConcurrency opts))
  | ANewListener q opts => ignore (NewListener cfg q (map listener_option opts))
  | ANewRR q opts => ignore (NewRequestReplyClient cfg q (map WithRRReplyQueue opts))
  | ANewRRFixed q rq opts => ignore (NewRequestReplyClientFixed cfg q rq (map WithRRReplyQueue opts))
  | ASend i s ctx dest creator => ignore (in_world (on_sender i (SendWithCreator s ctx dest creator)))
  | AStart i l n m ctx f => ignore (in_world (on_listener i (Start n m l ctx (user_handler f))))
  | ARequestReply i r ctx creator timeout =>
      ignore (in_world (on_rr i (RequestReplyWithCreator r ctx creator timeout)))
  | ACloseRR i r => ignore (in_world (on_rr i RR_Close))
  | AHealth => ignore (Client_Health cfg)
  | AClose => ignore Client_Close
  end.

(** A call on a component of this client, with creators that only touch the
    message they are given. *)
Definition api_ok (cs : ClientState) (a : api) : Prop :=
  match a with
  | ASend i s _ _ creator =>
      TheSender i s ∈ cl_probers cs /\ forall f, creator = Some f -> creator_ok f
  | AStart i l _ _ _ _ => TheListener i l ∈ cl_probers cs
  | ARequestReply i r _ creator _ =>
      TheRR i r ∈ cl_probers cs /\ forall f, creator = Some f -> creator_ok f
  | ACloseRR i r => TheRR i r ∈ cl_probers cs
  | _ => True
  end.

Definition api_step (cfg : Config) (cs cs' : ClientState) : Prop :=
  exists (W : Type) (h : handler W) w a, handler_ok h /\ api_ok cs a /\
    let r := run h (api_call cfg a) cs w in ended (out r) = true /\ cs' = st r.

Definition session (cfg : Config) (cs : ClientState) : Prop :=
  exists cfg0 cs0, NewClient cfg0 = inl (cfg, cs0) /\ rtc (api_step cfg) cs0 cs.

(** ** What a session keeps *)

(** The fixed fields of a component, as its client's configuration allows. *)
Definition comp_typed (cfg : Config) (c : component) : Prop :=
  match c with
  | TheSender _ s => s_cfg s = cfg /\ 1 <= s_maxConns s
  | TheListener _ l => l_cfg l = cfg /\ 1 <= l_concurrency l /\ 0 <= l_maxRetries l
  | TheRR _ r => rr_cfg r = cfg /\ (rr_mode r = TemporaryQueue -> rr_replyQueue r = ""%string)
  end.

(** The configuration is a valid one; every component is registered once, has a
    state of its own, is at rest and has sensible limits; an open client will
    close all of them, a closed one has closed all those made before its Close. *)
Record session_wf (cfg : Config) (cs : ClientState) : Prop := {
  sw_ok : config_ok cfg;
  sw_def : config_defaulted cfg;
  sw_keys : NoDup (map comp_key (cl_probers cs));
  sw_rest : Forall (comp_at_rest (cl_world cs)) (cl_probers cs);
  sw_typed : Forall (comp_typed cfg) (cl_probers cs);
  sw_closers : exists pre, cl_probers cs = pre ++ cl_closers cs /\
    Forall (comp_closed (cl_world cs)) pre /\ (cl_closed cs = false -> pre = [])
}.

(** What only grows: the components, the ones that are closed, and the client's
    own closing. *)
Record grows (cs cs' : ClientState) : Prop := {
  gr_probers : cl_probers cs `prefix_of` cl_probers cs';
  gr_client : cl_closed cs = true -> cl_closed cs' = true;
  gr_closed : Forall (fun c => comp_closed (cl_world cs) c -> comp_closed (cl_world cs') c) (cl_probers cs)
}.

(** ** What a factory makes *)

Definition concurrency_opt (o : listener_opt) : option Z :=
  match o with LConcurrency n => Some n | _ => None end.

Definition retries_opt (o : listener_opt) : option Z :=
  match o with LMaxRetries n => Some n | _ => None end.

Definition queue_opt (o : listener_opt) : option QueueOptions :=
  match o with LQueueOptions q => Some q | _ => None end.

Definition handler_opt (o : listener_opt) : option (option nat) :=
  match o with LErrorHandler f => Some f | _ => None end.

(** The last value in range wins, over the configuration's. *)
Definition last_from (least d : Z) (ns : list Z) : Z :=
  default d (last (filter (fun n => least <= n) ns)).

(** The component a factory call returns. *)
Definition built (cfg : Config) (a : api) (c : component) : Prop :=
  match a, c with
  | ANewSender q opts, TheSender _ s =>
      s_cfg s = cfg /\ s_queue s = (if decide (q = ""%string) then OutputQueue cfg else q) /\
      s_maxConns s = last_from 1 (OutputConcurrency cfg) opts
  | ANewListener q opts, TheListener _ l =>
      l_cfg l = cfg /\ l_queue l = q /\
      l_concurrency l = last_from 1 (InputConcurrency cfg) (omap concurrency_opt opts) /\
      l_maxRetries l = last_from 0 (MaxRetries cfg) (omap retries_opt opts) /\
      l_queueOpts l = default QueueOptions_zero (last (omap queue_opt opts)) /\
      l_onError l = default None (last (omap handler_opt opts))
  | ANewRR q opts, TheRR _ r =>
      rr_cfg r = cfg /\ rr_requestQueue r = q /\ rr_replyQueue r = ""%string /\ rr_mode r = TemporaryQueue
  | ANewRRFixed q rq opts, TheRR _ r =>
      rr_cfg r = cfg /\ rr_requestQueue r = q /\ rr_replyQueue r = default rq (last opts) /\
      rr_mode r = FixedQueueSelector
  | _, _ => False
  end.

(** Its state: nothing connected, nothing started. *)
Definition brand_new (w : World) (c : component) : Prop :=
  match c with
  | TheSender i _ => w_senders w !! i = Some SenderState_init
  | TheListener i l => w_listeners w !! i = Some (initStates l)
  | TheRR i _ => w_rrs w !! i = Some RRState_init
  end.

(** Its state exists. *)
Definition allocated (w : World) (c : component) : Prop :=
  match c with
  | TheSender i _ => is_Some (w_senders w !! i)
  | TheListener i _ => is_Some (w_listeners w !! i)
  | TheRR i _ => is_Some (w_rrs w !! i)
  end.

Definition is_factory (a : api) : bool :=
  match a with
  | ANewSender _ _ | ANewListener _ _ | ANewRR _ _ | ANewRRFixed _ _ _ => true
  | _ => false
  end.

(** No state of [w] is lost or changed. *)
Definition extends (w w' : World) : Prop :=
  w_senders w `prefix_of` w_senders w' /\ w_listeners w `prefix_of` w_listeners w' /\
  w_rrs w `prefix_of` w_rrs w'.

(** A factory call makes no MQ call, leaves every other component alone, and
    registers one new component, for Close and for Health. *)
Definition factory_post (cfg : Config) (a : api) (cs : ClientState) (o : outcome unit) (cs' : ClientState)
    (t : list event) : Prop :=
  exists c w', o = Returned tt /\ Forall (fun ev => mqi_call ev = false) t /\
    extends (cl_world cs) w' /\ brand_new w' c /\ built cfg a c /\
    ~ allocated (cl_world cs) c /\
    cs' = mkClientState (cl_closed cs) (cl_closers cs ++ [c]) (cl_probers cs ++ [c]) w'.

(** ** Preservation *)

Lemma grows_refl cs : grows cs cs.
Proof. split; [done|done|]. by apply Forall_forall. Qed.

Lemma grows_trans cs1 cs2 cs3 : grows cs1 cs2 -> grows cs2 cs3 -> grows cs1 cs3.
Proof.
  intros [H1 H2 H3] [H4 H5 H6]. split; [by etrans|auto|].
  destruct H1 as [l Hl]. rewrite Hl in H6. apply Forall_app in H6 as [H6 _].
  rewrite Forall_forall in *. eauto.
Qed.

(** Steps that leave every component at rest, and the closed ones closed. *)
Lemma wf_same_registry cfg cs cs' :
  session_wf cfg cs -> same_registry cs cs' -> session_wf cfg cs' /\ grows cs cs'.
Proof.
  intros [Hok Hdef Hk Hr Ht (pre & Hpre & Hcl & Hopen)] [S1 S2 S3 S4 S5]. split.
  - split; rewrite ?S3; try done; [eapply Forall_impl; [exact Hr|]; auto|].
    exists pre. rewrite S1, S2. split_and!; try done. eapply Forall_impl; [exact Hcl|]. auto.
  - split; [by rewrite S3|congruence|]. apply Forall_forall. auto.
Qed.

(** A step of component [c] alone. *)
Record touches (c : component) (w w' : World) : Prop := {
  to_rest : comp_at_rest w' c;
  to_closed : comp_closed w c -> comp_closed w' c;
  to_frame : forall c', comp_key c' <> comp_key c ->
    (comp_at_rest w c' -> comp_at_rest w' c') /\ (comp_closed w c' -> comp_closed w' c')
}.

Lemma comp_key_inj (cs : list component) c c' :
  NoDup (map comp_key cs) -> c ∈ cs -> c' ∈ cs -> comp_key c' = comp_key c -> c' = c.
Proof.
  intros Hn [i Hi]%list_elem_of_lookup [j Hj]%list_elem_of_lookup Heq.
  assert (Hij : j = i).
  { apply (NoDup_lookup (map comp_key cs) j i (comp_key c)); [done|..];
      rewrite list_lookup_fmap; [by rewrite Hj; simpl; rewrite Heq|by rewrite Hi]. }
  congruence.
Qed.

Lemma wf_touches cfg cs c w' :
  session_wf cfg cs -> c ∈ cl_probers cs -> touches c (cl_world cs) w' ->
  session_wf cfg (set_world w' cs) /\ grows cs (set_world w' cs).
Proof.
  intros [Hok Hdef Hk Hr Ht (pre & Hpre & Hcl & Hopen)] Hc [T1 T2 T3].
  assert (Hall : forall c', c' ∈ cl_probers cs ->
    (comp_at_rest (cl_world cs) c' -> comp_at_rest w' c') /\
    (comp_closed (cl_world cs) c' -> comp_closed w' c')).
  { intros c' Hc'. destruct (decide (comp_key c' = comp_key c)) as [Heq|Hne]; [|by apply T3].
    by rewrite (comp_key_inj _ _ _ Hk Hc Hc' Heq). }
  split; [split; try done|split; try done]; simpl.
  - rewrite Forall_forall in *. intros c' Hc'. by apply (Hall c' Hc'), Hr.
  - exists pre. split_and!; try done. rewrite Forall_forall in *. intros c' Hc'.
    apply (Hall c'); [|by apply Hcl]. rewrite Hpre. apply elem_of_app. by left.
  - apply Forall_forall. intros c' Hc'. apply (Hall c' Hc').
Qed.

Lemma touches_sender w i s st st' :
  w_senders w !! i = Some st -> sender_at_rest s st' -> (s_closed st = true -> s_closed st' = true) ->
  touches (TheSender i s) w (set_sender i st' w).
Proof.
  intros Hi Hr Hc. pose proof (lookup_set_sender w i) as Hl. split.
  - exists st'. by erewrite Hl, decide_True.
  - intros (st0 & Hst0 & Hc0). exists st'. erewrite Hl, decide_True by done. split; [done|]. apply Hc. congruence.
  - intros [j s'|j l|j r] Hne; try done. unfold comp_at_rest, comp_closed. erewrite Hl by done.
    rewrite decide_False; [done|]. intros ->. by apply Hne.
Qed.

Lemma touches_listener w i l st st' :
  w_listeners w !! i = Some st -> listener_at_rest l st' -> (l_closed st = true -> l_closed st' = true) ->
  touches (TheListener i l) w (set_listener i st' w).
Proof.
  intros Hi Hr Hc. pose proof (lookup_set_listener w i) as Hl. split.
  - exists st'. by erewrite Hl, decide_True.
  - intros (st0 & Hst0 & Hc0). exists st'. erewrite Hl, decide_True by done. split; [done|]. apply Hc. congruence.
  - intros [j s'|j l'|j r] Hne; try done. unfold comp_at_rest, comp_closed. erewrite Hl by done.
    rewrite decide_False; [done|]. intros ->. by apply Hne.
Qed.

Lemma touches_rr w i r st st' :
  w_rrs w !! i = Some st -> (rr_closed st = true -> rr_closed st' = true) ->
  touches (TheRR i r) w (set_rr i st' w).
Proof.
  intros Hi Hc. pose proof (lookup_set_rr w i) as Hl. split.
  - exists st'. by erewrite Hl, decide_True.
  - intros (st0 & Hst0 & Hc0). exists st'. erewrite Hl, decide_True by done. split; [done|]. apply Hc. congruence.
  - intros [j s'|j l'|j r'] Hne; try done. unfold comp_at_rest, comp_closed. erewrite Hl by done.
    rewrite decide_False; [done|]. intros ->. by apply Hne.
Qed.

(** ** Factories *)

Lemma last_from_snoc least d ns n :
  last_from least d (ns ++ [n]) = if least <=? n then n else last_from least d ns.
Proof.
  unfold last_from. rewrite filter_app. destruct (Z.leb_spec least n).
  - rewrite (filter_cons_True (fun n => least <= n)) by done. by rewrite filter_nil, last_snoc.
  - rewrite (filter_cons_False (fun n => least <= n)) by lia. by rewrite filter_nil, app_nil_r.
Qed.

Lemma last_from_range least d ns : least <= d -> least <= last_from least d ns.
Proof.
  intros Hd. induction ns as [|n ns IH] using rev_ind; [done|]. rewrite last_from_snoc.
  destruct (Z.leb_spec least n); done.
Qed.

Lemma apply_options_snoc {A : Type} (opts : list (A -> A)) f x :
  apply_options (opts ++ [f]) x = f (apply_options opts x).
Proof. unfold apply_options. by rewrite fold_left_app. Qed.

Lemma sender_options_spec opts s :
  apply_options (map WithSenderConcurrency opts) s =
  mkSender (s_cfg s) (s_queue s) (last_from 1 (s_maxConns s) opts) (s_tel s).
Proof.
  induction opts as [|n opts IH] using rev_ind; [by destruct s|].
  rewrite map_app, last_from_snoc. cbn [map]. rewrite apply_options_snoc, IH. unfold WithSenderConcurrency.
  by destruct (1 <=? n).
Qed.

Lemma listener_options_spec opts l :
  apply_options (map listener_option opts) l =
  mkListener (l_cfg l) (l_queue l) (last_from 1 (l_concurrency l) (omap concurrency_opt opts))
    (last_from 0 (l_maxRetries l) (omap retries_opt opts))
    (default (l_queueOpts l) (last (omap queue_opt opts))) (l_tel l)
    (default (l_onError l) (last (omap handler_opt opts))).
Proof.
  induction opts as [|o opts IH] using rev_ind; [by destruct l|].
  rewrite map_app, !omap_app. cbn [map]. rewrite apply_options_snoc, IH.
  destruct o as [n|q|n|f]; cbn [listener_option omap list_omap concurrency_opt retries_opt queue_opt handler_opt];
    rewrite ?app_nil_r, ?last_snoc, ?last_from_snoc; try done.
  - unfold WithListenerConcurrency. by destruct (1 <=? n).
  - unfold WithListenerMaxRetries. by destruct (0 <=? n).
Qed.

Lemma rr_options_spec opts r :
  apply_options (map WithRRReplyQueue opts) r =
  mkRRClient (rr_cfg r) (rr_requestQueue r)
    (if decide (rr_mode r = FixedQueueSelector) then default (rr_replyQueue r) (last opts) else rr_replyQueue r)
    (rr_mode r) (rr_tel r).
Proof.
  induction opts as [|q opts IH] using rev_ind; [destruct r; simpl; by case_decide|].
  rewrite map_app, last_snoc. cbn [map]. rewrite apply_options_snoc, IH. unfold WithRRReplyQueue.
  simpl. by case_decide.
Qed.

Lemma factory_post_intro cfg a cs c w' t :
  Forall (fun ev => mqi_call ev = false) t -> extends (cl_world cs) w' -> brand_new w' c -> built cfg a c ->
  ~ allocated (cl_world cs) c ->
  factory_post cfg a cs (Returned tt)
    (mkClientState (cl_closed cs) (cl_closers cs ++ [c]) (cl_probers cs ++ [c]) w') t.
Proof. intros. by exists c, w'. Qed.

Lemma wp_factory cfg a cs :
  is_factory a = true -> wp (api_call cfg a) (factory_post cfg a cs) cs.
Proof.
  destruct a as [q opts|q opts|q opts|q rq opts| | | | | |]; try done; intros _; cbn [api_call];
    unfold ignore, NewSender, NewListener, NewRequestReplyClient, NewRequestReplyClientFixed, new_rr;
    wp_go; apply wp_newMQTelemetry; intros tel t Ht; wp_go;
    unfold alloc_sender, alloc_listener, alloc_rr, register, registerHealthProber; wp_go;
    rewrite !app_nil_r; cbn [fst snd set_world cl_closed cl_closers cl_probers cl_world].
  - rewrite sender_options_spec. apply factory_post_intro; [done|..].
    + split_and!; simpl; [by apply prefix_app_r|done|done].
    + simpl. by rewrite lookup_app_r, Nat.sub_diag.
    + simpl. split_and!; [done|by destruct (String.eqb_spec q ""); case_decide|done].
    + intros [st Hst%lookup_lt_Some]. lia.
  - rewrite listener_options_spec. apply factory_post_intro; [done|..].
    + split_and!; simpl; [done|by apply prefix_app_r|done].
    + simpl. by rewrite lookup_app_r, Nat.sub_diag.
    + by split_and!.
    + intros [st Hst%lookup_lt_Some]. lia.
  - rewrite rr_options_spec. apply factory_post_intro; [done|..].
    + split_and!; simpl; [done|done|by apply prefix_app_r].
    + simpl. by rewrite lookup_app_r, Nat.sub_diag.
    + by split_and!.
    + intros [st Hst%lookup_lt_Some]. lia.
  - rewrite rr_options_spec. apply factory_post_intro; [done|..].
    + split_and!; simpl; [done|done|by apply prefix_app_r].
    + simpl. by rewrite lookup_app_r, Nat.sub_diag.
    + by split_and!.
    + intros [st Hst%lookup_lt_Some]. lia.
Qed.

Lemma extends_rest w w' c : extends w w' -> comp_at_rest w c -> comp_at_rest w' c.
Proof.
  intros (Hs & Hl & Hr). destruct c as [i s|i l|i r]; simpl.
  - intros (st & Hi & ?). exists st. eauto using prefix_lookup_Some.
  - intros (st & Hi & ?). exists st. eauto using prefix_lookup_Some.
  - intros (st & Hi). exists st. eauto using prefix_lookup_Some.
Qed.

Lemma extends_closed w w' c : extends w w' -> comp_closed w c -> comp_closed w' c.
Proof.
  intros (Hs & Hl & Hr). destruct c as [i s|i l|i r]; simpl; intros (st & Hi & ?); exists st;
    eauto using prefix_lookup_Some.
Qed.

Lemma brand_new_rest cfg a c w :
  config_defaulted cfg -> built cfg a c -> brand_new w c -> comp_at_rest w c /\ comp_typed cfg c.
Proof.
  intros [? ? ? ? ? ? ?] Hb Hn.
  assert (Hr : 1 <= last_from 1 (OutputConcurrency cfg) match a with ANewSender _ opts => opts | _ => [] end)
    by by apply last_from_range.
  assert (Hl : 1 <= last_from 1 (InputConcurrency cfg)
      (omap concurrency_opt match a with ANewListener _ opts => opts | _ => [] end) /\
    0 <= last_from 0 (MaxRetries cfg) (omap retries_opt match a with ANewListener _ opts => opts | _ => [] end))
    by (split; apply last_from_range; lia).
  destruct a, c as [j s'|j l'|j r']; simpl in *; try done; destruct_and!; split; simpl; try by eauto.
  - exists SenderState_init. split; [done|]. split_and!; [|done..]. exists 0. split; simpl; try done; lia.
  - split; [done|]. lia.
  - exists (initStates l'). split; [done|]. split_and!; [done|done|]. apply repeat_length.
  - split_and!; [done|lia|lia].
  - split; [done|]. intros ?. congruence.
Qed.

Lemma allocated_key w c c' : comp_at_rest w c' -> comp_key c' = comp_key c -> allocated w c.
Proof. destruct c, c'; try done; simpl; intros (st & Hst) [= <-]; exists st; tauto. Qed.

Lemma wf_factory cfg a cs o cs' t :
  session_wf cfg cs -> factory_post cfg a cs o cs' t -> session_wf cfg cs' /\ grows cs cs'.
Proof.
  intros [Hok Hdef Hk Hr Ht (pre & Hpre & Hcl & Hopen)] (c & w' & _ & _ & He & Hn & Hb & Hfresh & ->).
  destruct (brand_new_rest cfg a c w' Hdef Hb Hn) as [Hrest Htyped].
  split; [split; try done|split]; simpl.
  - rewrite map_app. apply NoDup_app. split_and!; [done| |apply NoDup_singleton].
    intros k (c' & -> & Hin)%list_elem_of_fmap Heq%list_elem_of_singleton.
    rewrite Forall_forall in Hr. apply Hfresh. by eapply allocated_key; [apply Hr|].
  - apply Forall_app_2; [|by apply Forall_singleton]. eapply Forall_impl; [exact Hr|].
    intros c'. by apply extends_rest.
  - apply Forall_app_2; [done|by apply Forall_singleton].
  - exists pre. rewrite Hpre, app_assoc. split_and!; try done. eapply Forall_impl; [exact Hcl|].
    intros c'. by apply extends_closed.
  - by apply prefix_app_r.
  - done.
  - apply Forall_forall. intros c' _. by apply extends_closed.
Qed.

(** ** Every call of the interface *)

Lemma wf_init cfg cfg0 cs0 : NewClient cfg0 = inl (cfg, cs0) -> session_wf cfg cs0.
Proof.
  intros Hn. assert (Hok : config_ok cfg /\ config_defaulted cfg /\ cs0 = ClientState_init).
  { unfold NewClient in Hn. cbn zeta in Hn. destruct (Validate (applyDefaults cfg0)) eqn:Hv; simplify_eq.
    split_and!; [by apply Validate_nil|apply applyDefaults_ok|done]. }
  destruct Hok as (? & ? & ->). split; try done; try constructor. exists []. by split_and!.
Qed.

(** What a call leaves when it comes back; only a Start may be left waiting. *)
Definition call_wf (cfg : Config) (cs : ClientState) (a : api) {A : Type} (o : outcome A) (cs' : ClientState)
    (t : list event) : Prop :=
  match o with
  | Returned _ | Panicked _ => session_wf cfg cs' /\ grows cs cs'
  | Blocked => exists i l n m ctx f, a = AStart i l n m ctx f
  | NoFuel | Crashed _ => False
  end.

Lemma wp_ignore {S A : Type} (p : prog S A) (Q : outcome unit -> S -> list event -> Prop) s :
  wp p (fun o s' t => match o with
    | Returned _ => Q (Returned tt) s' t
    | Panicked v => Q (Panicked v) s' t
    | NoFuel => Q NoFuel s' t
    | Blocked => Q Blocked s' t
    | Crashed v => Q (Crashed v) s' t
    end) s -> wp (ignore p) Q s.
Proof.
  intros Hp. unfold ignore. apply wp_bind. eapply wp_mono; [|exact Hp].
  intros o s' t Ho. destruct o; simpl; rewrite ?app_nil_r; done.
Qed.

(** A call on one component, lifted to the client. *)
Lemma wp_on_component cfg a cs c {A : Type} (p : prog World A) :
  session_wf cfg cs -> c ∈ cl_probers cs ->
  wp p (fun o w' t => match o with
    | Returned _ | Panicked _ => touches c (cl_world cs) w'
    | Blocked => exists i l n m ctx f, a = AStart i l n m ctx f
    | _ => False end) (cl_world cs) ->
  wp (ignore (in_world p)) (call_wf cfg cs a) cs.
Proof.
  intros Hwf Hc Hp. apply wp_ignore. unfold in_world.
  apply (wp_zoom (fun _ => True) cl_world set_world); [done|].
  eapply wp_mono; [|exact Hp]. intros o w' t Ho.
  destruct o; simpl; try done; by eapply wf_touches.
Qed.

Lemma wp_send_touches w i s ctx dest creator :
  comp_at_rest w (TheSender i s) -> (forall f, creator = Some f -> creator_ok f) ->
  wp (on_sender i (SendWithCreator s ctx dest creator)) (fun o w' t =>
    ended o = true /\ touches (TheSender i s) w w') w.
Proof.
  intros (st & Hi & (k & Hpo) & Hwg & Hmu) Hf. unfold on_sender.
  apply (wp_zoom (fun w => is_Some (w_senders w !! i)) (get_sender i) (set_sender i)); [by exists st|].
  replace (get_sender i w) with st by (unfold get_sender; by rewrite Hi).
  assert (Hshell : forall k st', pool_ok s k st' -> same_shell st st' -> touches (TheSender i s) w (set_sender i st' w)).
  { intros k' st' Hpo' (Hc & Hw & Hm). eapply touches_sender; [done| |congruence].
    split_and!; [by exists k'|congruence..]. }
  destruct (decide ((dest = ""%string /\ s_queue s = ""%string) \/ s_closed st = true)) as [Hr|Hr].
  - eapply wp_mono; [|by apply wp_SendWithCreator_refused]. intros o st' t (-> & _ & e & -> & _).
    split; [done|]. by apply (Hshell k).
  - eapply wp_mono; [|apply (wp_SendWithCreator s ctx dest creator k st Hf Hpo)].
    + intros o st' t [_ Ho]. destruct o as [[id e]|v| | |]; try done; (split; [done|]).
      * destruct Ho. by apply (Hshell k).
      * destruct Ho as (? & ? & _). by apply (Hshell (k + 1)).
    + destruct (s_closed st); naive_solver.
    + destruct (decide (dest = ""%string)); [|by left]. destruct (decide (s_queue s = ""%string)); [|by right].
      naive_solver.
Qed.

Lemma wp_start_touches w i l n m ctx f :
  comp_at_rest w (TheListener i l) ->
  wp (on_listener i (Start n m l ctx (user_handler f))) (fun o w' t =>
    match o with
    | Returned _ => touches (TheListener i l) w w'
    | Blocked => True
    | _ => False
    end) w.
Proof.
  intros (st & Hi & Hmu & Hd & Hlen). unfold on_listener.
  apply (wp_zoom (fun w => is_Some (w_listeners w !! i)) (get_listener i) (set_listener i)); [by exists st|].
  replace (get_listener i w) with st by (unfold get_listener; by rewrite Hi).
  eapply wp_mono; [|by apply wp_Start]. intros o st' t Ho. destruct o; try done.
  destruct Ho as (? & ? & ? & ? & _). eapply touches_listener; [done| |congruence].
  repeat split; [done|done|congruence].
Qed.

Lemma wp_request_touches w i r ctx creator timeout :
  comp_at_rest w (TheRR i r) -> (forall f, creator = Some f -> creator_ok f) ->
  wp (on_rr i (RequestReplyWithCreator r ctx creator timeout)) (fun o w' t =>
    ended o = true /\ touches (TheRR i r) w w') w.
Proof.
  intros (st & Hi) Hf. unfold on_rr.
  apply (wp_zoom (fun w => is_Some (w_rrs w !! i)) (get_rr i) (set_rr i)); [by exists st|].
  replace (get_rr i w) with st by (unfold get_rr; by rewrite Hi).
  eapply wp_mono; [|by apply wp_RequestReply].
  intros o st' t [(x & -> & -> & _)|[(_ & -> & -> & _)|(Hc & t' & _ & Hp)]].
  - split; [done|]. by eapply touches_rr.
  - split; [done|]. by eapply touches_rr.
  - split; [|eapply touches_rr; [done|congruence]]. apply ca_out in Hp.
    by destruct o as [[[?|] [?|]]|v| | |].
Qed.

(** Closing the client. *)
Lemma wf_close cfg cs o cs' t :
  session_wf cfg cs -> cl_closed cs = false -> client_closed_post cs o cs' t ->
  session_wf cfg cs' /\ grows cs cs' /\ Forall (comp_closed (cl_world cs')) (cl_probers cs').
Proof.
  intros [Hok Hdef Hk Hr Ht (pre & Hpre & Hcl & Hopen)] Hc (_ & _ & Hall & Hrest & Hst & C1 & C2 & C3).
  rewrite (Hopen Hc) in Hpre. simpl in Hpre. rewrite <-Hpre in Hall. split_and!; [split|split|]; rewrite ?C3; try done.
  - eapply Forall_impl; [exact Hr|]. auto.
  - exists (cl_probers cs). by rewrite C2, app_nil_r, C1.
  - apply Forall_forall. auto.
Qed.

Lemma wp_api cfg a cs :
  session_wf cfg cs -> api_ok cs a -> wp (api_call cfg a) (call_wf cfg cs a) cs.
Proof.
  intros Hwf Ha. pose proof (sw_rest _ _ Hwf) as Hr. rewrite Forall_forall in Hr.
  destruct (is_factory a) eqn:Hfac.
  { eapply wp_mono; [|by apply wp_factory]. intros o cs' t Hp. pose proof Hp as (c & w' & -> & _).
    by eapply wf_factory. }
  destruct a as [| | | |i s ctx dest cr|i l n m ctx f|i r ctx cr timeout|i r| |]; try done; cbn [api_call api_ok] in *.
  - destruct Ha as [Hin Hf]. eapply wp_on_component; [done|done|].
    eapply wp_mono; [|apply wp_send_touches; [by apply Hr|done]]. intros o w' t [He ?]. by destruct o.
  - eapply wp_on_component; [done|done|].
    eapply wp_mono; [|apply wp_start_touches; by apply Hr]. intros o w' t Ho. destruct o; try done. by repeat eexists.
  - destruct Ha as [Hin Hf]. eapply wp_on_component; [done|done|].
    eapply wp_mono; [|apply wp_request_touches; [by apply Hr|done]]. intros o w' t [He ?]. by destruct o.
  - eapply wp_on_component; [done|done|]. destruct (Hr _ Ha) as [st Hi]. unfold on_rr.
    apply (wp_zoom (fun w => is_Some (w_rrs w !! i)) (get_rr i) (set_rr i)); [by exists st|].
    unfold RR_Close. wp_go. by eapply touches_rr.
  - apply wp_ignore. eapply wp_mono; [|apply wp_Client_Health; apply Hwf].
    intros o cs' t (hs & -> & _ & Hsr & _). by apply wf_same_registry.
  - apply wp_ignore. destruct (cl_closed cs) eqn:Hc.
    + unfold Client_Close. wp_go. rewrite Hc. cbn [fst snd]. wp_go. split; [done|apply grows_refl].
    + pose proof (sw_closers _ _ Hwf) as (pre & Hpre & _ & Hopen). rewrite (Hopen Hc) in Hpre. simpl in Hpre.
      eapply wp_mono; [|apply wp_Client_Close; [done|rewrite <-Hpre; apply Hwf|rewrite <-Hpre; apply Hwf]].
      intros o cs' t Hp. pose proof Hp as ((e & -> & _) & _). by destruct (wf_close _ _ _ _ _ Hwf Hc Hp) as (? & ? & _).
Qed.

Lemma wf_step cfg cs cs' :
  session_wf cfg cs -> api_step cfg cs cs' -> session_wf cfg cs' /\ grows cs cs'.
Proof.
  intros Hwf (W & h & w & a & Hh & Ha & He & ->).
  pose proof (wp_run h _ Hh _ cs w (wp_api cfg a cs Hwf Ha)) as Hp.
  unfold call_wf in Hp. by destruct (out (run h (api_call cfg a) cs w)).
Qed.

Lemma wf_steps cfg cs cs' :
  session_wf cfg cs -> rtc (api_step cfg) cs cs' -> session_wf cfg cs' /\ grows cs cs'.
Proof.
  intros Hwf Hs. revert Hwf. induction Hs as [cs|cs1 cs2 cs3 H12 H23 IH]; intros Hwf.
  { split; [done|apply grows_refl]. }
  destruct (wf_step cfg cs1 cs2 Hwf H12) as [Hwf2 Hg]. destruct (IH Hwf2) as [Hwf3 Hg'].
  split; [done|by eapply grows_trans].
Qed.

Lemma wf_session cfg cs : session cfg cs -> session_wf cfg cs.
Proof. intros (cfg0 & cs0 & Hn & Hs). by eapply wf_steps; [eapply wf_init|]. Qed.

(** ** Closed components *)

(** Each component's own operation comes back at once with ErrClientClosed (a
    request, which looks at its context first, perhaps with the context's error)
    and changes nothing. *)
Definition refuses (cs : ClientState) (c : component) : Prop :=
  forall (W : Type) (h : handler W) w ctx, handler_ok h ->
  match c with
  | TheSender i s => forall dest creator, dest <> ""%string \/ s_queue s <> ""%string ->
      let x := run h (in_world (on_sender i (SendWithCreator s ctx dest creator))) cs w in
      out x = Returned (""%string, Some (ErrSentinel ErrClientClosed)) /\ st x = cs /\ tr x = []
  | TheListener i l => forall n m f,
      let x := run h (in_world (on_listener i (Start n m l ctx (user_handler f)))) cs w in
      out x = Returned (Some (ErrSentinel ErrClientClosed)) /\ st x = cs /\ tr x = []
  | TheRR i r => forall creator timeout,
      let x := run h (in_world (on_rr i (RequestReplyWithCreator r ctx creator timeout))) cs w in
      st x = cs /\ exists seen, tr x = [Ev (CtxErr ctx) seen] /\
        out x = Returned (None, Some match seen with
                                     | Some y => ErrCtx y
                                     | None => ErrSentinel ErrClientClosed
                                     end)
  end.

Lemma set_world_id w cs : w = cl_world cs -> set_world w cs = cs.
Proof. intros ->. by destruct cs. Qed.

Lemma closed_refuses_all cs c :
  comp_at_rest (cl_world cs) c -> comp_closed (cl_world cs) c -> refuses cs c.
Proof.
  intros Hr Hc W h w ctx Hh. destruct c as [i s|i l|i r].
  - intros dest creator Hd x. destruct Hc as (st0 & Hi & Hc).
    apply (wp_run h _ Hh (fun o s' t => o = _ /\ s' = cs /\ t = []) cs w). unfold in_world, on_sender.
    apply (wp_zoom (fun _ => True) cl_world set_world); [done|].
    apply (wp_zoom (fun w => is_Some (w_senders w !! i)) (get_sender i) (set_sender i)); [by exists st0|].
    assert (Hg : get_sender i (cl_world cs) = st0) by (unfold get_sender; by rewrite Hi). rewrite Hg.
    eapply wp_mono; [|apply wp_SendWithCreator_refused; by right]. intros o st' t (-> & -> & e & -> & He).
    split_and!; [by rewrite He|apply set_world_id|done]. rewrite <-Hg. by apply set_get; exists st0.
  - intros n m f x. destruct Hc as (st0 & Hi & Hc), Hr as (st1 & Hi' & Hmu & Hdn & _).
    assert (st1 = st0) as -> by congruence.
    apply (wp_run h _ Hh (fun o s' t => o = _ /\ s' = cs /\ t = []) cs w). unfold in_world, on_listener.
    apply (wp_zoom (fun _ => True) cl_world set_world); [done|].
    apply (wp_zoom (fun w => is_Some (w_listeners w !! i)) (get_listener i) (set_listener i)); [by exists st0|].
    assert (Hg : get_listener i (cl_world cs) = st0) by (unfold get_listener; by rewrite Hi). rewrite Hg.
    eapply wp_mono; [|by apply wp_Start]. intros o st' t Ho. destruct o as [e| | | |]; try done; [|congruence].
    destruct Ho as (_ & _ & _ & _ & Ho). destruct (Ho Hc) as (-> & -> & ->).
    split_and!; [done|apply set_world_id|done]. rewrite <-Hg. by apply set_get; exists st0.
  - intros creator timeout x. destruct Hc as (st0 & Hi & Hc).
    apply (wp_run h _ Hh (fun o s' t => s' = cs /\ exists seen, t = _ /\ o = _) cs w). unfold in_world, on_rr.
    apply (wp_zoom (fun _ => True) cl_world set_world); [done|].
    apply (wp_zoom (fun w => is_Some (w_rrs w !! i)) (get_rr i) (set_rr i)); [by exists st0|].
    assert (Hg : get_rr i (cl_world cs) = st0) by (unfold get_rr; by rewrite Hi). rewrite Hg.
    assert (Hid : set_world (set_rr i st0 (cl_world cs)) cs = cs).
    { apply set_world_id. rewrite <-Hg. by apply set_get; exists st0. }
    unfold RequestReplyWithCreator. wp_go. destruct b as [y|]; wp_go; [by split; [|exists (Some y)]|].
    rewrite Hc. cbn [fst snd]. wp_go. by split; [|exists None].
Qed.

Lemma session_call {W : Type} (h : handler W) cfg cs a w :
  session cfg cs -> handler_ok h -> api_ok cs a ->
  ended (out (run h (api_call cfg a) cs w)) = true -> session cfg (st (run h (api_call cfg a) cs w)).
Proof.
  intros (cfg0 & cs0 & Hn & Hs) Hh Ha He. exists cfg0, cs0. split; [done|].
  eapply rtc_r; [exact Hs|]. by exists W, h, w, a.
Qed.

(** The components an open client will close are all of them. *)
Lemma wf_open cfg cs : session_wf cfg cs -> cl_closed cs = false -> cl_closers cs = cl_probers cs.
Proof. intros Hwf Hc. destruct (sw_closers _ _ Hwf) as (pre & Hpre & _ & Hopen). by rewrite Hpre, (Hopen Hc). Qed.

Lemma wp_session_Close cfg cs :
  session_wf cfg cs -> cl_closed cs = false -> wp Client_Close (client_closed_post cs) cs.
Proof.
  intros Hwf Hc. pose proof (wf_open _ _ Hwf Hc) as Heq. apply wp_Client_Close; [done|..]; rewrite Heq; apply Hwf.
Qed.

(** ** Properties *)


(** C20: Close, from any state of a session.  It returns; every component of
    the client is closed, each pooled connection is disconnected exactly once, in
    reverse order of creation, oldest connection of a pool first; the result is nil
    exactly when every disconnect succeeded.  A second Close returns nil and does
    nothing. *)
Theorem Client_Close_spec {W} (h : handler W) cfg cs w :
  session cfg cs -> cl_closed cs = false -> handler_ok h ->
  let r := run h Client_Close cs w in
  (exists e, out r = Returned e /\ (e = None <-> omap disc_failure (tr r) = [])) /\
  omap disc_handle (tr r) = concat (map (pooled (cl_world cs)) (reverse (cl_probers cs))) /\
  cl_probers (st r) = cl_probers cs /\ Forall (comp_closed (cl_world (st r))) (cl_probers cs) /\
  cl_closed (st r) = true /\
  run h Client_Close (st r) (env r) = mkResult (Returned None) (st r) (env r) [].
Proof.
  intros Hs Hc Hh r. pose proof (wf_session _ _ Hs) as Hwf.
  destruct (wp_run h _ Hh _ cs w (wp_session_Close cfg cs Hwf Hc)) as (He & Hd & Hcl & _ & _ & Hc' & _ & Hp).
  fold r in He, Hd, Hcl, Hc', Hp. rewrite (wf_open _ _ Hwf Hc) in Hd, Hcl. split_and!; try done.
  simpl. by rewrite Hc'.
Qed.

(** C21: Health, from any state of a session.  It makes no external call and
    changes neither a component's health nor the registrations; it says Healthy
    exactly when the client is open and every component is well by its own state;
    the entry of a closed client comes first. *)
Theorem Client_Health_spec {W} (h : handler W) cfg cs w :
  session cfg cs -> handler_ok h ->
  let r := run h (Client_Health cfg) cs w in client_health_post cfg cs (out r) (st r) (tr r).
Proof.
  intros Hs Hh r. apply (wp_run h _ Hh _ cs w), wp_Client_Health. exact (sw_rest _ _ (wf_session _ _ Hs)).
Qed.

(** C22: a closed client stays closed.  After Close, and after any further calls,
    each component made before it refuses its work: a Send with a destination and a
    Start return ErrClientClosed, a request returns it or its context's error, and
    none of them changes anything or calls the queue manager. *)
Theorem closed_refuses {W} (h : handler W) cfg cs w cs' :
  session cfg cs -> cl_closed cs = false -> handler_ok h ->
  rtc (api_step cfg) (st (run h Client_Close cs w)) cs' ->
  Forall (refuses cs') (cl_probers cs).
Proof.
  intros Hs Hc Hh Hsteps. pose proof (wf_session _ _ Hs) as Hwf.
  pose proof (wp_run h _ Hh _ cs w (wp_session_Close cfg cs Hwf Hc)) as Hp.
  destruct (wf_close _ _ _ _ _ Hwf Hc Hp) as (Hwf1 & [Hpre _ _] & Hcl1).
  destruct (wf_steps _ _ _ Hwf1 Hsteps) as (Hwf2 & [Hpre2 _ Hcl2]).
  apply Forall_forall. intros c Hin. pose proof (elem_of_prefix _ _ _ Hin Hpre) as Hin1.
  rewrite Forall_forall in Hcl1, Hcl2. pose proof (sw_rest _ _ Hwf2) as Hr. rewrite Forall_forall in Hr.
  apply closed_refuses_all; [|by apply Hcl2, Hcl1]. apply Hr. by eapply elem_of_prefix.
Qed.

(** C33: the four factories.  A factory makes no MQ call and always succeeds; it
    registers one new component for Close and for Health and leaves the others as
    they are.  The component starts disconnected; its settings are the
    configuration's, unless an option in range overrides them, the last one
    winning; a reply queue given to a temporary-queue client is ignored. *)
Theorem factories_spec {W} (h : handler W) cfg cs a w :
  is_factory a = true -> handler_ok h ->
  let r := run h (api_call cfg a) cs w in factory_post cfg a cs (out r) (st r) (tr r).
Proof. intros Ha Hh r. apply (wp_run h _ Hh _ cs w). by apply wp_factory. Qed.

(** A component created after Close escapes it.  The client hands it out all
    the same, registered and not refusing work; and every later Close returns nil
    without closing it. *)
Theorem NewSender_after_Close {W} (h : handler W) cfg cs q opts w :
  session cfg cs -> cl_closed cs = true -> handler_ok h ->
  let r := run h (api_call cfg (ANewSender q opts)) cs w in
  out r = Returned tt /\
  (exists i s, last (cl_probers (st r)) = Some (TheSender i s) /\
     w_senders (cl_world (st r)) !! i = Some SenderState_init) /\
  run h Client_Close (st r) (env r) = mkResult (Returned None) (st r) (env r) [].
Proof.
  intros Hs Hc Hh r.
  destruct (wp_run h _ Hh _ cs w (wp_factory cfg (ANewSender q opts) cs eq_refl))
    as (c & w' & Ho & _ & _ & Hn & Hb & _ & Hst). fold r in Ho, Hst.
  destruct c as [i s|i l|i x]; try done. rewrite Hst. simpl. split_and!; [done| |by rewrite Hc].
  exists i, s. by rewrite last_snoc.
Qed.

End session.

(** *** Witnesses: a session with one component of each kind *)

Definition demo_input : Config :=
  mkConfig "QM1" "localhost(1414)" "DEV.APP.SVRCONN" "app" "passw0rd" None "DEV.QUEUE.1" "DEV.QUEUE.2" "" 3 2
    0 0 0 (S754_zero false) 0 false None.

Definition demo_cfg : Config := applyDefaults demo_input.

Definition demo_call (a : api) (cs : ClientState) : result ClientState script unit :=
  run scripted (@api_call ibm_binding amd64 demo_cfg a) cs calm.

Definition demo_sender : Sender := mkSender demo_cfg "DEV.QUEUE.2" 3 (mkTelemetry 0 NoopTextMapPropagator 0 0 0 0).

Definition demo_made : ClientState :=
  st (demo_call (ANewRRFixed "DEV.REQ" "DEV.REPLY" [])
    (st (demo_call (ANewListener "DEV.QUEUE.1" [LConcurrency 0; LMaxRetries 7])
      (st (demo_call (ANewSender "" [3; 0]) ClientState_init))))).

Definition demo_send : api := ASend 0 demo_sender 0 "" (Some (body_creator "hi")).

Definition demo_sent : ClientState := st (demo_call demo_send demo_made).

Definition demo_closed : ClientState := st (demo_call AClose demo_sent).

Lemma demo_made_session : @session ibm_binding amd64 demo_cfg demo_made.
Proof.
  unfold demo_made, demo_call.
  do 3 (apply session_call; [|exact scripted_ok|exact I|vm_compute; reflexivity]).
  exists demo_input, ClientState_init. split; [reflexivity|apply rtc_refl].
Qed.

Lemma demo_send_ok : api_ok demo_made demo_send.
Proof.
  split.
  - apply (list_elem_of_lookup_2 _ 0). vm_compute. reflexivity.
  - intros f [= <-]. apply creator_ok_body.
Qed.

Lemma demo_sent_session : @session ibm_binding amd64 demo_cfg demo_sent.
Proof.
  unfold demo_sent, demo_call.
  apply session_call; [exact demo_made_session|exact scripted_ok|exact demo_send_ok|vm_compute; reflexivity].
Qed.

Lemma demo_closed_session : @session ibm_binding amd64 demo_cfg demo_closed.
Proof.
  unfold demo_closed, demo_call.
  apply session_call; [exact demo_sent_session|exact scripted_ok|exact I|vm_compute; reflexivity].
Qed.

Lemma demo_sent_open : cl_closed demo_sent = false.
Proof. vm_compute. reflexivity. Qed.


Lemma Client_Close_spec_witness :
  let r := run scripted Client_Close demo_sent calm in
  length (omap disc_handle (tr r)) = 1%nat /\ cl_closed (st r) = true /\
  Forall (comp_closed (cl_world (st r))) (cl_probers demo_sent).
Proof.
  destruct (Client_Close_spec scripted demo_cfg demo_sent calm demo_sent_session demo_sent_open scripted_ok)
    as (_ & Hd & _ & Hf & Hc & _).
  split; [rewrite Hd; vm_compute; reflexivity|]. split; [exact Hc|exact Hf].
Defined.

Lemma Client_Health_spec_witness :
  exists hs, out (run scripted (Client_Health demo_cfg) demo_closed calm) = Returned hs /\
    Details hs !! 0%nat = Some (closed_entry demo_cfg).
Proof.
  destruct (Client_Health_spec scripted demo_cfg demo_closed calm demo_closed_session scripted_ok)
    as (hs & Ho & _ & _ & _ & _ & Hd).
  exists hs. split; [exact Ho|]. apply Hd. vm_compute. reflexivity.
Defined.

Lemma closed_refuses_witness :
  Forall (@refuses ibm_binding amd64 (st (run scripted Client_Close demo_sent calm))) (cl_probers demo_sent).
Proof.
  exact (closed_refuses scripted demo_cfg demo_sent calm _ demo_sent_session demo_sent_open scripted_ok (rtc_refl _ _)).
Defined.

Lemma factories_spec_witness :
  @factory_post demo_cfg (ANewSender "" [3; 0]) ClientState_init (Returned tt)
    (st (demo_call (ANewSender "" [3; 0]) ClientState_init)) (tr (demo_call (ANewSender "" [3; 0]) ClientState_init)).
Proof.
  exact (factories_spec scripted demo_cfg ClientState_init (ANewSender "" [3; 0]) calm eq_refl scripted_ok).
Defined.

Lemma NewSender_after_Close_witness :
  exists i s, last (cl_probers (st (demo_call (ANewSender "Q" []) demo_closed))) = Some (TheSender i s) /\
    w_senders (cl_world (st (demo_call (ANewSender "Q" []) demo_closed))) !! i = Some SenderState_init.
Proof.
  destruct (NewSender_after_Close scripted demo_cfg demo_closed "Q" [] calm demo_closed_session
    ltac:(vm_compute; reflexivity) scripted_ok) as (_ & He & _).
  exact He.
Defined.
