(* ===== verification/ClientLogic.v ===== *)
(** * The logic of a whole client

    Goroutines that use a client own tokens of all its components at once: those of
    the senders ([SenderPool]), of the listeners ([ListenerLife]) and of the
    request-reply clients, together with what they know about the client itself.
    The right to close a component is created with it, is deposited in the client's
    list of closers when the component is registered, and passes to the call of
    Close that takes that list.  [client_inv] states the invariant of every
    component and what the client keeps track of; the calls verified in the files of
    the components are verified here by embedding their logics. *)

From Stdlib Require Import ZArith Lia.
From stdpp Require Import base numbers list option strings gmap relations.
From S2P Require Import Prelude GoErrors Float64 Config Mqi GoProg Compose Script Backoff Connection.
From S2P Require Import Telemetry Wire Sender Listener RequestReply Health.
From S2P Require Import SenderPool ListenerLife Client Session.

Local Open Scope Z_scope.
Local Open Scope go_scope.

#[local] Existing Instances pool_inv_proper life_inv_proper pool_waits_for life_waits_for.

(** ** Request-reply clients *)

(** A request-reply client has one flag to be known about: once closed it stays so. *)
Inductive rrtok := RRShut.

Definition rr_inv (_ : RequestReplyClient) (st : RRState) (ts : list rrtok) : Prop :=
  RRShut ∈ ts -> rr_closed st = true.

#[export] Instance rr_inv_proper r st : Proper ((≡ₚ) ==> iff) (rr_inv r st).
Proof. intros ts ts' Hts. unfold rr_inv. by rewrite Hts. Qed.

Definition rr_no_fork (_ : outcome unit) (_ : list rrtok) : Prop := False.

Section rr_logic.
Context `{MQBinding} (r : RequestReplyClient).

Abbreviation rcwp := (cwp (rr_inv r) never rr_no_fork).

Lemma ext_only_exchange cfg hc rq ro md body gmd gmo pt gt reply :
  ext_only (exchange cfg hc rq ro md body gmd gmo pt gt reply).
Proof.
  unfold exchange. apply ext_only_bind; [done|]. intros [[o od]|e]; [|done].
  apply ext_only_defer; [done|]. apply ext_only_bind; [done|]. intros [x|e]; [|done].
  apply ext_only_bind; [done|]. intros [[got data]|e]; [done|]. by destruct (IsEmptyQueueError (Some e)).
Qed.

Lemma ext_only_flow conn creator timeout :
  (forall m, ext_only (creator m)) -> ext_only (flow r conn creator timeout).
Proof.
  intros Hc. unfold flow, requestReplyViaTempQueue, requestReplyViaFixedQueue. destruct (rr_mode r).
  - apply ext_only_bind; [done|]. intros [[o od]|e]; [|done]. apply ext_only_defer; [done|].
    apply ext_only_bind; [done|]. intros [msg [e|]]; [done|]. apply ext_only_exchange.
  - apply ext_only_bind; [done|]. intros [random|e]; [|done].
    apply ext_only_bind; [done|]. intros [msg [e|]]; [done|]. destruct (fixed_correl _ _); [|done].
    apply ext_only_bind; [done|]. intros [[o od]|e]; [|done]. apply ext_only_defer; [done|].
    apply ext_only_exchange.
Qed.

Lemma ext_only_newConnection cfg : ext_only (newConnection cfg).
Proof. apply ext_only_bind; [apply ext_only_dial|]. by intros [c [e|]]. Qed.

Lemma wp_newConnection_returns cfg (Q : outcome (connection + err) -> unit -> list event -> Prop) :
  (forall x t, Q (Returned x) tt t) -> wp (newConnection cfg) Q tt.
Proof.
  intros HQ. unfold newConnection. wp_go. apply wp_dial; intros; wp_go; apply HQ.
Qed.

(** A step that leaves the flag alone. *)
Lemma rcwp_recordState x e (Q : outcome unit -> list rrtok -> Prop) :
  Q (Returned tt) [] -> rcwp (recordState x e) [] Q.
Proof. intros HQ st F HI. by exists []. Qed.

Lemma rcwp_call {A} (e : ext A) (Q : outcome A -> list rrtok -> Prop) :
  (forall b, Q (Returned b) []) -> rcwp (lift (call e)) [] Q.
Proof. intros HQ b _. apply HQ. Qed.

(** A call ends owning nothing, with a result or with its creator's panic. *)
Lemma rcwp_RequestReply ctx creator timeout (Q : outcome (option Message * error) -> list rrtok -> Prop) :
  (forall f, creator = Some f -> creator_ok f) ->
  (forall x, Q (Returned x) []) -> (forall v, Q (Panicked v) []) ->
  rcwp (RequestReplyWithCreator r ctx creator timeout) [] Q.
Proof.
  intros Hf HR HP. unfold RequestReplyWithCreator. apply cwp_bind, rcwp_call. intros [x|]; [apply HR|].
  apply cwp_bind. intros st F HI. exists []. split; [done|]. cbn [cwp fst]. destruct (rr_closed st); [apply HR|].
  clear st F HI. unfold call_admitted. apply cwp_bind, rcwp_call. intros [spanCtx span].
  unfold defer at 1. apply cwp_tbind.
  assert (Hend : forall x, rcwp (bind (lift (call (SpanEnd span)))
    (fun _ => match x with inl a => Ret a | inr v => Panic v end)) [] Q).
  { intros x. apply cwp_bind, rcwp_call. intros _. destruct x; [apply HR|apply HP]. }
  apply cwp_bind, cwp_lift; [apply ext_only_newConnection|].
  apply wp_newConnection_returns. intros [conn|e] tr.
  2:{ apply cwp_bind, rcwp_recordState, cwp_bind, rcwp_call. intros _. cbn [cwp]. apply (Hend (inl _)). }
  unfold defer. apply cwp_tbind.
  assert (Hcl : forall x, rcwp (bind (lift (conn_Close conn) ;;; Ret tt)
      (fun _ => match x with inl a => Ret a | inr v => Panic v end)) [] (fun o t' =>
    match o with
    | Returned a => rcwp (bind (lift (call (SpanEnd span))) (fun _ => Ret a)) t' Q
    | Panicked v => rcwp (bind (lift (call (SpanEnd span))) (fun _ => Panic v)) t' Q
    | NoFuel => Q NoFuel t'
    | Blocked | Crashed _ => True
    end)).
  { intros x. apply cwp_bind, cwp_bind, cwp_lift; [apply ext_only_conn_Close|]. apply wp_conn_Close.
    intros. cbn [cwp]. destruct x; [apply (Hend (inl _))|apply (Hend (inr _))]. }
  apply cwp_bind, cwp_lift.
  { apply ext_only_flow. intros m. by apply creator_ok_wrap. }
  eapply wp_mono; [|apply wp_flow, creator_ok_wrap, Hf]. intros o _ t [[_ _ _ Ho] _].
  destruct o as [[m e]|v| | |]; try done; [|apply (Hcl (inr v))].
  apply cwp_bind. destruct e as [x|]; [apply rcwp_call; intros _|]; apply cwp_bind, rcwp_recordState;
    apply (Hcl (inl _)).
Qed.

End rr_logic.

(** ** Tokens *)

(** Tokens of component [i] of a kind; a component that exists, and one that the
    client has been told to close; the right to call [Client.Close], and how the
    call went: it took these components to close, or another call had. *)
Inductive gtok :=
| TS (i : nat) (x : tok)
| TL (i : nat) (x : ltok)
| TR (i : nat) (x : rrtok)
| Know (c : component)
| Registered (c : component)
| CloseRight
| Won (cs : list component)
| Lost.

Definition s_tok (i : nat) (x : gtok) : option tok :=
  match x with TS j y => if decide (j = i) then Some y else None | _ => None end.

Definition l_tok (i : nat) (x : gtok) : option ltok :=
  match x with TL j y => if decide (j = i) then Some y else None | _ => None end.

Definition r_tok (i : nat) (x : gtok) : option rrtok :=
  match x with TR j y => if decide (j = i) then Some y else None | _ => None end.

(** A token of the client itself. *)
Definition is_plain (x : gtok) : bool :=
  match x with TS _ _ | TL _ _ | TR _ _ => false | _ => true end.

Definition plain (ts : list gtok) : list gtok := filter (fun x => is_plain x = true) ts.

(** The right to close a component. *)
Definition right_of (c : component) : list gtok :=
  match c with
  | TheSender i _ => [TS i MayShut]
  | TheListener i _ => [TL i MayClose]
  | TheRR _ _ => []
  end.

Definition rights (cs : list component) : list gtok := concat (map right_of cs).

Definition grank (x : gtok) : nat :=
  match x with TS _ y => pool_rank y | TL _ y => life_rank y | _ => 0%nat end.

(** Tokens nobody waits for. *)
Definition idle (x : gtok) : Prop := grank x = 0%nat.

Definition w_won (x : gtok) : Z := match x with Won _ => 1 | _ => 0 end.

Definition w_right (x : gtok) : Z := match x with CloseRight | Won _ | Lost => 1 | _ => 0 end.

(** ** Families of components *)

(** The fixed fields of the components created so far. *)
Record names := mkNames {
  n_senders : list Sender;
  n_listeners : list Listener;
  n_rrs : list RequestReplyClient
}.

Definition named (g : names) (c : component) : Prop :=
  match c with
  | TheSender i s => n_senders g !! i = Some s
  | TheListener i l => n_listeners g !! i = Some l
  | TheRR i r => n_rrs g !! i = Some r
  end.

Definition tok_in (g : names) (x : gtok) : Prop :=
  match x with
  | TS i _ => (i < length (n_senders g))%nat
  | TL i _ => (i < length (n_listeners g))%nat
  | TR i _ => (i < length (n_rrs g))%nat
  | _ => True
  end.

(** Each component of a kind satisfies its invariant with its own tokens. *)
Definition comps_ok {X St Tok : Type} (P : X -> St -> list Tok -> Prop) (ns : list X) (sts : list St)
    (toks : nat -> list Tok) : Prop :=
  length ns = length sts /\
  forall i n st, ns !! i = Some n -> sts !! i = Some st -> P n st (toks i).

Section comps.
Context {X St Tok : Type} (P : X -> St -> list Tok -> Prop).
Context `{P_proper : !forall n st, Proper ((≡ₚ) ==> iff) (P n st)}.

Lemma comps_ok_lookup ns sts toks i n :
  comps_ok P ns sts toks -> ns !! i = Some n -> exists st, sts !! i = Some st /\ P n st (toks i).
Proof.
  intros [Hl Hp] Hn. destruct (lookup_lt_is_Some_2 sts i) as [st Hst]; [|by eauto].
  rewrite <-Hl. by eapply lookup_lt_Some.
Qed.

Lemma comps_ok_perm ns sts toks toks' :
  (forall i, toks i ≡ₚ toks' i) -> comps_ok P ns sts toks -> comps_ok P ns sts toks'.
Proof. intros Ht [Hl Hp]. split; [done|]. intros i n st Hn Hst. rewrite <-Ht. eauto. Qed.

Lemma comps_ok_set ns sts toks toks' i n st :
  comps_ok P ns sts toks -> ns !! i = Some n -> P n st (toks' i) ->
  (forall j, j <> i -> toks j ≡ₚ toks' j) -> comps_ok P ns (<[i := st]> sts) toks'.
Proof.
  intros [Hl Hp] Hi Hst Ht. split; [by rewrite length_insert|]. intros j m x Hm Hx.
  destruct (decide (j = i)) as [->|Hne].
  - rewrite list_lookup_insert_eq in Hx by (rewrite <-Hl; by eapply lookup_lt_Some). by simplify_eq.
  - rewrite list_lookup_insert_ne in Hx by done. rewrite <-Ht by done. eauto.
Qed.

Lemma comps_ok_snoc ns sts toks toks' n st :
  comps_ok P ns sts toks -> P n st (toks' (length sts)) ->
  (forall j, (j < length sts)%nat -> toks j ≡ₚ toks' j) -> comps_ok P (ns ++ [n]) (sts ++ [st]) toks'.
Proof.
  intros [Hl Hp] Hst Ht. split; [rewrite !length_app; simpl; lia|]. intros j m x Hm Hx.
  apply lookup_app_Some in Hx as [Hx|[Hge Hx]].
  - rewrite lookup_app_l in Hm by (rewrite Hl; by eapply lookup_lt_Some).
    rewrite <-Ht by (by eapply lookup_lt_Some). eauto.
  - rewrite lookup_app_r in Hm by lia. rewrite Hl in Hm.
    apply list_lookup_singleton_Some in Hx as [Hz ->]. rewrite Hz in Hm. injection Hm as <-.
    by replace j with (length sts) by lia.
Qed.
End comps.

(** ** The invariant *)

Section client_logic.
Context `{MQBinding} `{GoArch} (cfg : Config) (N : Z).

(** The rights to close that wait in the client's list of closers. *)
Definition held (cs : ClientState) : list gtok := rights (cl_closers cs).

(** A registered component will be closed, or Close has taken it. *)
Definition tracked (cs : ClientState) (ts : list gtok) (c : component) : Prop :=
  c ∈ cl_closers cs \/ exists l, Won l ∈ ts /\ c ∈ l.

(** [N] goroutines may call Close; the one that won has set closed. *)
Record client_inv_at (g : names) (cs : ClientState) (ts : list gtok) : Prop := {
  ci_senders : comps_ok pool_inv (n_senders g) (w_senders (cl_world cs))
    (fun i => omap (s_tok i) (ts ++ held cs));
  ci_listeners : comps_ok life_inv (n_listeners g) (w_listeners (cl_world cs))
    (fun i => omap (l_tok i) (ts ++ held cs));
  ci_rrs : comps_ok rr_inv (n_rrs g) (w_rrs (cl_world cs)) (fun i => omap (r_tok i) (ts ++ held cs));
  ci_typed : forall c, named g c -> comp_typed cfg c;
  ci_named : forall c, Know c ∈ ts \/ c ∈ cl_closers cs \/ c ∈ cl_probers cs -> named g c;
  ci_range : forall x, x ∈ ts -> tok_in g x;
  ci_tracked : forall c, Registered c ∈ ts \/ c ∈ cl_probers cs -> tracked cs ts c;
  ci_won : weigh w_won ts = if cl_closed cs then 1 else 0;
  ci_rights : weigh w_right ts = N;
  ci_lost : Lost ∈ ts -> cl_closed cs = true
}.

Definition client_inv (cs : ClientState) (ts : list gtok) : Prop := exists g, client_inv_at g cs ts.

Definition client_waits (o : chanop) (cs : ClientState) : Prop :=
  (exists i st, w_senders (cl_world cs) !! i = Some st /\ pool_waits o st) \/
  (exists i st, w_listeners (cl_world cs) !! i = Some st /\ life_waits o st).

Abbreviation client_may_block := (blocks grank client_waits).

(** A goroutine that was started ends owning nothing others wait for. *)
Definition started_end (o : outcome unit) (t : list gtok) : Prop :=
  match o with Returned _ => Forall idle t | NoFuel => True | _ => False end.

Abbreviation gcwp := (cwp client_inv client_may_block started_end).

(** ** Tokens and permutations *)

Lemma plain_elem x ts : is_plain x = true -> x ∈ ts <-> x ∈ plain ts.
Proof. intros Hx. unfold plain. rewrite list_elem_of_filter. tauto. Qed.

Lemma weigh_plain w ts : (forall x, is_plain x = false -> w x = 0) -> weigh w (plain ts) = weigh w ts.
Proof.
  intros Hw. unfold plain. induction ts as [|x ts IH]; [done|]. rewrite filter_cons. simpl.
  case_decide as Hx; simpl; [lia|]. rewrite Hw by (by destruct (is_plain x)). lia.
Qed.

(** The invariant speaks of the client's own tokens and of each component's. *)
Lemma inv_update g cs cs' ts ts' :
  client_inv_at g cs ts ->
  cl_closed cs' = cl_closed cs -> cl_closers cs' = cl_closers cs -> cl_probers cs' = cl_probers cs ->
  comps_ok pool_inv (n_senders g) (w_senders (cl_world cs')) (fun i => omap (s_tok i) (ts' ++ held cs)) ->
  comps_ok life_inv (n_listeners g) (w_listeners (cl_world cs')) (fun i => omap (l_tok i) (ts' ++ held cs)) ->
  comps_ok rr_inv (n_rrs g) (w_rrs (cl_world cs')) (fun i => omap (r_tok i) (ts' ++ held cs)) ->
  plain ts ≡ₚ plain ts' -> (forall x, x ∈ ts' -> tok_in g x) ->
  client_inv_at g cs' ts'.
Proof.
  intros [] Hc Hcl Hpr Hs Hl Hr Hp Hin.
  assert (He : forall x, is_plain x = true -> x ∈ ts' <-> x ∈ ts).
  { intros x Hx. by rewrite (plain_elem x ts), (plain_elem x ts'), Hp. }
  assert (Hw : forall w, (forall x, is_plain x = false -> w x = 0) -> weigh w ts' = weigh w ts).
  { intros w Hz. by rewrite <-(weigh_plain w ts), <-(weigh_plain w ts'), Hp. }
  assert (Hh : held cs' = held cs) by (unfold held; by rewrite Hcl).
  split; rewrite ?Hh, ?Hc; try done.
  - intros c Hk. apply ci_named0. rewrite <-Hcl, <-Hpr. by rewrite <-He.
  - intros c Hk. rewrite He, Hpr in Hk by done. destruct (ci_tracked0 c Hk) as [Hx|(l & Hx & Hcx)].
    + left. by rewrite Hcl.
    + right. exists l. by rewrite He.
  - rewrite Hw; [done|by intros []].
  - rewrite Hw; [done|by intros []].
  - by rewrite He.
Qed.

Lemma inv_perm g cs ts ts' : ts ≡ₚ ts' -> client_inv_at g cs ts -> client_inv_at g cs ts'.
Proof.
  intros Hp HI. eapply inv_update; [exact HI|done|done|done|..].
  - eapply (comps_ok_perm pool_inv); [|exact (ci_senders _ _ _ HI)]. intros i. cbn beta. by rewrite Hp.
  - eapply (comps_ok_perm life_inv); [|exact (ci_listeners _ _ _ HI)]. intros i. cbn beta. by rewrite Hp.
  - eapply (comps_ok_perm rr_inv); [|exact (ci_rrs _ _ _ HI)]. intros i. cbn beta. by rewrite Hp.
  - unfold plain. by rewrite Hp.
  - intros x Hx. apply (ci_range _ _ _ HI). by rewrite Hp.
Qed.

#[export] Instance client_inv_proper cs : Proper ((≡ₚ) ==> iff) (client_inv cs).
Proof. intros ts ts' Hp. split; intros [g HI]; exists g; by eapply inv_perm. Qed.

(** ** The components inside the client *)

Lemma omap_none {X Y Z : Type} (f : Y -> option Z) (h : X -> Y) t :
  (forall x, f (h x) = None) -> omap f (map h t) = [].
Proof. intros Hf. induction t as [|x t IH]; simpl; [done|]. by rewrite Hf. Qed.

Lemma omap_own {X Y : Type} (f : Y -> option X) (h : X -> Y) t :
  (forall x, f (h x) = Some x) -> omap f (map h t) = t.
Proof. intros Hf. induction t as [|x t IH]; simpl; [done|]. rewrite Hf. by f_equal. Qed.

(** What a component's tokens look like from it, from another component, and from
    the client. *)
Lemma s_tok_own i t : omap (s_tok i) (map (TS i) t) = t.
Proof. apply omap_own. intros x. simpl. by rewrite decide_True. Qed.

Lemma l_tok_own i t : omap (l_tok i) (map (TL i) t) = t.
Proof. apply omap_own. intros x. simpl. by rewrite decide_True. Qed.

Lemma r_tok_own i t : omap (r_tok i) (map (TR i) t) = t.
Proof. apply omap_own. intros x. simpl. by rewrite decide_True. Qed.

Lemma s_tok_other i j t : j <> i -> omap (s_tok j) (map (TS i) t) = [].
Proof. intros Hne. apply omap_none. intros x. simpl. by rewrite decide_False. Qed.

Lemma l_tok_other i j t : j <> i -> omap (l_tok j) (map (TL i) t) = [].
Proof. intros Hne. apply omap_none. intros x. simpl. by rewrite decide_False. Qed.

Lemma r_tok_other i j t : j <> i -> omap (r_tok j) (map (TR i) t) = [].
Proof. intros Hne. apply omap_none. intros x. simpl. by rewrite decide_False. Qed.

Lemma plain_app ts ts' : plain (ts ++ ts') = plain ts ++ plain ts'.
Proof. apply filter_app. Qed.

Lemma plain_none {X : Type} (h : X -> gtok) t : (forall x, is_plain (h x) = false) -> plain (map h t) = [].
Proof.
  intros Hh. unfold plain. induction t as [|x t IH]; simpl; [done|].
  rewrite filter_cons, decide_False by (by rewrite Hh). done.
Qed.

(** A component of a client, as a part of the client's state. *)
Definition sender_in (i : nat) (cs : ClientState) : SenderState := get_sender i (cl_world cs).

Definition put_sender (i : nat) (x : SenderState) (cs : ClientState) : ClientState :=
  set_world (set_sender i x (cl_world cs)) cs.

Definition listener_in (i : nat) (cs : ClientState) : ListenerState := get_listener i (cl_world cs).

Definition put_listener (i : nat) (x : ListenerState) (cs : ClientState) : ClientState :=
  set_world (set_listener i x (cl_world cs)) cs.

Definition rr_in (i : nat) (cs : ClientState) : RRState := get_rr i (cl_world cs).

Definition put_rr (i : nat) (x : RRState) (cs : ClientState) : ClientState :=
  set_world (set_rr i x (cl_world cs)) cs.

(** Knowing a component means that it has a name. *)
Lemma know_named g cs t c F : client_inv_at g cs (t ++ [Know c] ++ F) -> named g c.
Proof. intros HI. apply (ci_named _ _ _ HI). left. rewrite !elem_of_app. right. left. by left. Qed.

Lemma know_dup g cs c F : client_inv_at g cs ([Know c] ++ F) -> client_inv_at g cs ([Know c] ++ [Know c] ++ F).
Proof.
  intros HI. pose proof HI as [H1 H2 H3 H4 H5 H6 H7 H8 H9 H10].
  split; try done.
  - intros c' [Hc|Hc]; [|by apply H5; right]. apply H5. left. set_solver.
  - intros x Hx. apply H6. set_solver.
  - intros c' Hc. destruct (H7 c') as [Hx|(l & Hl & Hx)]; [set_solver|by left|]. right. exists l. set_solver.
  - intros Hl. apply H10. set_solver.
Qed.

(** Where a component lets a goroutine block, so does the client. *)
Definition lifts {St Tok : Type} (get : ClientState -> St) (inj : Tok -> gtok) (c : component)
    (mb : chanop -> St -> list Tok -> Prop) (mbS : chanop -> ClientState -> list gtok -> Prop) : Prop :=
  forall g cs o t R F, client_inv_at g cs (map inj t ++ [Know c] ++ R ++ F) -> Forall idle R ->
    mb o (get cs) t -> mbS o cs (map inj t ++ [Know c] ++ R).

Lemma lifts_never {St Tok : Type} (get : ClientState -> St) (inj : Tok -> gtok) c mbS : lifts get inj c never mbS.
Proof. by intros g cs o t R F _ _ []. Qed.

Lemma lifts_blocks {St Tok : Type} (get : ClientState -> St) (inj : Tok -> gtok) c rank waits :
  (forall x, grank (inj x) = rank x) ->
  (forall g cs o t F, client_inv_at g cs (map inj t ++ [Know c] ++ F) -> waits o (get cs) -> client_waits o cs) ->
  lifts get inj c (blocks rank waits) client_may_block.
Proof.
  intros Hr Hw g cs o t R F HI HR [Hl Hwt]. split; [|by eapply Hw].
  intros x [Hx|[Hx|Hx]%elem_of_app]%elem_of_app.
  - apply list_elem_of_fmap in Hx as (z & -> & Hz). rewrite Hr. by apply Hl.
  - apply list_elem_of_singleton in Hx as ->. simpl. destruct o; simpl; lia.
  - rewrite Forall_forall in HR. rewrite (HR x Hx). destruct o; simpl; lia.
Qed.

(** What has to be shown of a kind of component. *)
Lemma embeds_intro {St Tok : Type} (get : ClientState -> St) put (inj : Tok -> gtok) (P : St -> list Tok -> Prop)
    (mb : chanop -> St -> list Tok -> Prop) mbS QF c :
  (forall g cs t F, client_inv_at g cs (map inj t ++ [Know c] ++ F) ->
     exists F', put (get cs) cs = cs /\ P (get cs) (t ++ F') /\
       forall x t', P x (t' ++ F') -> client_inv_at g (put x cs) (map inj t' ++ [Know c] ++ F)) ->
  lifts get inj c mb mbS -> (forall o t, QF o t -> started_end o (map inj t ++ [Know c])) ->
  embeds get put inj P mb QF client_inv mbS started_end [Know c] idle.
Proof.
  intros Hin Hb Hf. split; [..|done].
  - intros cs t F [g HI]. destruct (Hin g cs t F HI) as (F' & _ & HP & Hback).
    exists F'. split; [done|]. intros x t' HP'. exists g. by apply Hback.
  - intros cs t F [g HI]. by destruct (Hin g cs t F HI) as (F' & ? & _).
  - intros cs F [g HI]. exists g. by apply know_dup.
  - intros o cs t R F HR [g HI] Hmb. by eapply Hb.
Qed.

(** A component that is known, found in the state. *)
Lemma sender_found g cs t i s F :
  client_inv_at g cs (map (TS i) t ++ [Know (TheSender i s)] ++ F) ->
  n_senders g !! i = Some s /\ w_senders (cl_world cs) !! i = Some (sender_in i cs) /\
  pool_inv s (sender_in i cs) (t ++ omap (s_tok i) (F ++ held cs)).
Proof.
  intros HI. pose proof (know_named _ _ _ _ _ HI) as Hn. simpl in Hn.
  destruct (comps_ok_lookup pool_inv _ _ _ _ _ (ci_senders _ _ _ HI) Hn) as (st & Hst & Hp).
  unfold sender_in, get_sender. rewrite Hst. split_and!; try done.
  rewrite !omap_app, s_tok_own, <-app_assoc in Hp. by rewrite omap_app.
Qed.

Lemma listener_found g cs t i l F :
  client_inv_at g cs (map (TL i) t ++ [Know (TheListener i l)] ++ F) ->
  n_listeners g !! i = Some l /\ w_listeners (cl_world cs) !! i = Some (listener_in i cs) /\
  life_inv l (listener_in i cs) (t ++ omap (l_tok i) (F ++ held cs)).
Proof.
  intros HI. pose proof (know_named _ _ _ _ _ HI) as Hn. simpl in Hn.
  destruct (comps_ok_lookup life_inv _ _ _ _ _ (ci_listeners _ _ _ HI) Hn) as (st & Hst & Hp).
  unfold listener_in, get_listener. rewrite Hst. split_and!; try done.
  rewrite !omap_app, l_tok_own, <-app_assoc in Hp. by rewrite omap_app.
Qed.

Lemma rr_found g cs t i r F :
  client_inv_at g cs (map (TR i) t ++ [Know (TheRR i r)] ++ F) ->
  n_rrs g !! i = Some r /\ w_rrs (cl_world cs) !! i = Some (rr_in i cs) /\
  rr_inv r (rr_in i cs) (t ++ omap (r_tok i) (F ++ held cs)).
Proof.
  intros HI. pose proof (know_named _ _ _ _ _ HI) as Hn. simpl in Hn.
  destruct (comps_ok_lookup rr_inv _ _ _ _ _ (ci_rrs _ _ _ HI) Hn) as (st & Hst & Hp).
  unfold rr_in, get_rr. rewrite Hst. split_and!; try done.
  rewrite !omap_app, r_tok_own, <-app_assoc in Hp. by rewrite omap_app.
Qed.

(** The tokens of component [i] change, the others' do not. *)
Ltac same_tokens :=
  intros; cbn beta; rewrite !omap_app;
  repeat first [rewrite s_tok_own | rewrite l_tok_own | rewrite r_tok_own
    | rewrite s_tok_other by done | rewrite l_tok_other by done | rewrite r_tok_other by done
    | rewrite omap_none by done];
  rewrite <-?app_assoc; done.

Ltac tokens_in HI Hn :=
  intros y [Hy|Hy]%elem_of_app;
  [apply list_elem_of_fmap in Hy as (z & -> & _); by apply lookup_lt_Some in Hn
  |apply (ci_range _ _ _ HI); set_solver].

Lemma sender_embeds i s mb mbS :
  lifts (sender_in i) (TS i) (TheSender i s) mb mbS ->
  embeds (sender_in i) (put_sender i) (TS i) (pool_inv s) mb no_fork
    client_inv mbS started_end [Know (TheSender i s)] idle.
Proof.
  intros Hmb. apply embeds_intro; [|done|by intros o t []].
  intros g cs t F HI. destruct (sender_found _ _ _ _ _ _ HI) as (Hn & Hst & Hp).
    exists (omap (s_tok i) (F ++ held cs)). split_and!; [|exact Hp|].
    { destruct cs as [? ? ? []]. unfold put_sender, set_sender, set_world. simpl in *. by rewrite list_insert_id. }
    intros x t' HT. eapply inv_update; [exact HI|done|done|done|..].
    + eapply (comps_ok_set pool_inv); [exact (ci_senders _ _ _ HI)|exact Hn| |same_tokens].
      cbn beta. rewrite omap_app in HT. by rewrite !omap_app, s_tok_own, <-app_assoc.
    + eapply (comps_ok_perm life_inv); [|exact (ci_listeners _ _ _ HI)]. same_tokens.
    + eapply (comps_ok_perm rr_inv); [|exact (ci_rrs _ _ _ HI)]. same_tokens.
    + by rewrite !plain_app, !(plain_none (TS i)).
    + tokens_in HI Hn.
Qed.

Lemma sender_lifts i s :
  lifts (sender_in i) (TS i) (TheSender i s) (blocks pool_rank pool_waits) client_may_block.
Proof.
  apply lifts_blocks; [done|]. intros g cs o t F HI Hw. destruct (sender_found _ _ _ _ _ _ HI) as (_ & Hst & _).
  left. eauto.
Qed.

Lemma listener_embeds i l mb mbS :
  lifts (listener_in i) (TL i) (TheListener i l) mb mbS ->
  embeds (listener_in i) (put_listener i) (TL i) (life_inv l) mb consumer_end
    client_inv mbS started_end [Know (TheListener i l)] idle.
Proof.
  intros Hmb. apply embeds_intro; [|done|].
  - intros g cs t F HI. destruct (listener_found _ _ _ _ _ _ HI) as (Hn & Hst & Hp).
    exists (omap (l_tok i) (F ++ held cs)). split_and!; [|exact Hp|].
    { destruct cs as [? ? ? []]. unfold put_listener, set_listener, set_world. simpl in *. by rewrite list_insert_id. }
    intros x t' HT. eapply inv_update; [exact HI|done|done|done|..].
    + eapply (comps_ok_perm pool_inv); [|exact (ci_senders _ _ _ HI)]. same_tokens.
    + eapply (comps_ok_set life_inv); [exact (ci_listeners _ _ _ HI)|exact Hn| |same_tokens].
      cbn beta. rewrite omap_app in HT. by rewrite !omap_app, l_tok_own, <-app_assoc.
    + eapply (comps_ok_perm rr_inv); [|exact (ci_rrs _ _ _ HI)]. same_tokens.
    + by rewrite !plain_app, !(plain_none (TL i)).
    + tokens_in HI Hn.
  - intros o t Ho. destruct o as [u|v| | |]; try done. simpl in Ho. subst t. simpl. by constructor.
Qed.

Lemma listener_lifts i l :
  lifts (listener_in i) (TL i) (TheListener i l) (blocks life_rank life_waits) client_may_block.
Proof.
  apply lifts_blocks; [done|]. intros g cs o t F HI Hw. destruct (listener_found _ _ _ _ _ _ HI) as (_ & Hst & _).
  right. eauto.
Qed.

(** A Start inside the client never receives from a channel either. *)
Definition start_may_wait (o : chanop) (cs : ClientState) (t : list gtok) : Prop :=
  o <> ChanRecv /\ client_may_block o cs t.

#[export] Instance start_may_wait_perm : PermBlock start_may_wait.
Proof. intros o s t t' Ht [Ho Hb]. split; [done|]. by eapply perm_block. Qed.

Lemma start_lifts i l : lifts (listener_in i) (TL i) (TheListener i l) start_may_block start_may_wait.
Proof. intros g cs o t R F HI HR [Ho Hb]. split; [done|]. by eapply listener_lifts. Qed.

Lemma rr_embeds i r mbS :
  embeds (rr_in i) (put_rr i) (TR i) (rr_inv r) never rr_no_fork
    client_inv mbS started_end [Know (TheRR i r)] idle.
Proof.
  apply embeds_intro; [|apply lifts_never|by intros o t []].
  intros g cs t F HI. destruct (rr_found _ _ _ _ _ _ HI) as (Hn & Hst & Hp).
  exists (omap (r_tok i) (F ++ held cs)). split_and!; [|exact Hp|].
  { destruct cs as [? ? ? []]. unfold put_rr, set_rr, set_world. simpl in *. by rewrite list_insert_id. }
  intros x t' HT. eapply inv_update; [exact HI|done|done|done|..].
  - eapply (comps_ok_perm pool_inv); [|exact (ci_senders _ _ _ HI)]. same_tokens.
  - eapply (comps_ok_perm life_inv); [|exact (ci_listeners _ _ _ HI)]. same_tokens.
  - eapply (comps_ok_set rr_inv); [exact (ci_rrs _ _ _ HI)|exact Hn| |same_tokens].
    cbn beta. rewrite omap_app in HT. by rewrite !omap_app, r_tok_own, <-app_assoc.
  - by rewrite !plain_app, !(plain_none (TR i)).
  - tokens_in HI Hn.
Qed.

(** ** Rules for the calls of a client *)

(** A call of a known component: its own logic says how its tokens change. *)
Lemma gcwp_within {St Tok A : Type} (get : ClientState -> St) put (inj : Tok -> gtok) P mb QF mbS `{!PermBlock mbS} c
    (p : prog St A) t0 u t Q :
  embeds get put inj P mb QF client_inv mbS started_end [Know c] idle ->
  t0 ≡ₚ map inj u ++ t -> Forall idle t -> Know c ∈ t -> cwp P mb QF p u Q ->
  cwp client_inv mbS started_end (zoom get put p) t0 (fun o t' => exists u', t' ≡ₚ map inj u' ++ t /\ Q o u').
Proof.
  intros Hem Ht0 Hid Hk Hp. apply elem_of_Permutation in Hk as [R HR].
  apply (cwp_perm client_inv mbS started_end _ (map inj u ++ [Know c] ++ R)).
  - intros o t1 t2 H12 (u' & Hu' & HQ). exists u'. by rewrite <-H12.
  - rewrite Ht0. by rewrite HR.
  - eapply cwp_mono; [|eapply (cwp_component _ _ _ _ _ _ _ _ _ p [Know c] idle Hem); [|exact Hp]].
    + intros o t' (u' & -> & HQ). exists u'. split; [|done]. by rewrite HR.
    + rewrite HR in Hid. by inversion Hid.
Qed.

Lemma gcwp_sender {A : Type} i s (p : prog SenderState A) mb mbS `{!PermBlock mbS} t0 u t Q :
  lifts (sender_in i) (TS i) (TheSender i s) mb mbS ->
  t0 ≡ₚ map (TS i) u ++ t -> Forall idle t -> Know (TheSender i s) ∈ t ->
  cwp (pool_inv s) mb no_fork p u Q ->
  cwp client_inv mbS started_end (in_world (on_sender i p)) t0
    (fun o t' => exists u', t' ≡ₚ map (TS i) u' ++ t /\ Q o u').
Proof.
  intros Hl Ht Hid Hk Hp. apply cwp_zoom_zoom.
  exact (gcwp_within _ _ _ _ _ _ mbS _ p t0 u t Q (sender_embeds i s mb mbS Hl) Ht Hid Hk Hp).
Qed.

Lemma gcwp_listener {A : Type} i l (p : prog ListenerState A) mb mbS `{!PermBlock mbS} t0 u t Q :
  lifts (listener_in i) (TL i) (TheListener i l) mb mbS ->
  t0 ≡ₚ map (TL i) u ++ t -> Forall idle t -> Know (TheListener i l) ∈ t ->
  cwp (life_inv l) mb consumer_end p u Q ->
  cwp client_inv mbS started_end (in_world (on_listener i p)) t0
    (fun o t' => exists u', t' ≡ₚ map (TL i) u' ++ t /\ Q o u').
Proof.
  intros Hl Ht Hid Hk Hp. apply cwp_zoom_zoom.
  exact (gcwp_within _ _ _ _ _ _ mbS _ p t0 u t Q (listener_embeds i l mb mbS Hl) Ht Hid Hk Hp).
Qed.

Lemma gcwp_rr {A : Type} i r (p : prog RRState A) mbS `{!PermBlock mbS} t0 u t Q :
  t0 ≡ₚ map (TR i) u ++ t -> Forall idle t -> Know (TheRR i r) ∈ t ->
  cwp (rr_inv r) never rr_no_fork p u Q ->
  cwp client_inv mbS started_end (in_world (on_rr i p)) t0
    (fun o t' => exists u', t' ≡ₚ map (TR i) u' ++ t /\ Q o u').
Proof.
  intros Ht Hid Hk Hp. apply cwp_zoom_zoom.
  exact (gcwp_within _ _ _ _ _ _ mbS _ p t0 u t Q (rr_embeds i r mbS) Ht Hid Hk Hp).
Qed.

(** The share of a goroutine between two calls: nobody waits for it, and it knows
    the components [K]. *)
Definition share (K : list component) (t : list gtok) : Prop :=
  Forall idle t /\ forall c, c ∈ K -> Know c ∈ t /\ comp_typed cfg c.

(** A share that has gained tokens nobody waits for. *)
Definition grown (t t' : list gtok) : Prop := exists R, Forall idle R /\ t' ≡ₚ R ++ t.

Lemma grown_refl t : grown t t.
Proof. by exists []. Qed.

Lemma grown_trans t1 t2 t3 : grown t1 t2 -> grown t2 t3 -> grown t1 t3.
Proof.
  intros (R & HR & H12) (R' & HR' & H23). exists (R' ++ R). split; [by apply Forall_app|].
  by rewrite H23, H12, app_assoc.
Qed.

Lemma share_grown K t t' : grown t t' -> share K t -> share K t'.
Proof.
  intros (R & HR & Ht) [Hi Hk]. split.
  - rewrite Ht. by apply Forall_app.
  - intros c Hc. destruct (Hk c Hc). split; [|done]. rewrite Ht. apply elem_of_app. by right.
Qed.

(** What a component adds, idle tokens of its own. *)
Lemma grown_comp {Tok : Type} (inj : Tok -> gtok) u t t' :
  t' ≡ₚ map inj u ++ t -> (forall x, x ∈ u -> grank (inj x) = 0%nat) -> grown t t'.
Proof.
  intros Ht Hu. exists (map inj u). split; [|done]. apply Forall_forall.
  intros x (y & -> & Hy)%list_elem_of_fmap. by apply Hu.
Qed.

(** Knowledge can be recorded at any step. *)
Lemma inv_knows g cs L ts :
  (forall c, c ∈ L -> named g c) -> client_inv_at g cs ts -> client_inv_at g cs (map Know L ++ ts).
Proof.
  intros HL HI. induction L as [|c L IH]; [done|]. assert (Hc : named g c) by (apply HL; left).
  destruct IH as [H1 H2 H3 H4 H5 H6 H7 H8 H9 H10]; [intros c' Hc'; apply HL; by right|].
  split; try done; cbn [map app].
  - intros c' [[Hx|Hx]%elem_of_cons|Hx]; [by simplify_eq|by apply H5; left|by apply H5; right].
  - intros x [->|Hx]%elem_of_cons; [done|]. by apply H6.
  - intros c' Hx. destruct (H7 c') as [?|(l & ? & ?)]; [|by left|right; exists l; split; [by right|done]].
    destruct Hx as [[?|?]%elem_of_cons|?]; [done|by left|by right].
  - intros [?|?]%elem_of_cons; [done|]. by apply H10.
Qed.

(** The share of a goroutine that is started. *)
Lemma inv_share_dup K t cs F :
  share K t -> client_inv cs (t ++ F) -> client_inv cs (map Know K ++ t ++ F).
Proof.
  intros [_ Hk] [g HI]. exists g. apply inv_knows; [|done]. intros c Hc. apply (ci_named _ _ _ HI).
  left. apply elem_of_app. left. by apply Hk.
Qed.

(** ** Factories *)

(** No token of a component that does not exist yet. *)
Lemma fresh_tokens {Tok : Type} (f : gtok -> option Tok) g cs ts :
  client_inv_at g cs ts -> (forall x, tok_in g x -> f x = None) -> omap f (ts ++ held cs) = [].
Proof.
  intros HI Hf. assert (Hall : forall x, x ∈ ts ++ held cs -> f x = None).
  { intros x [Hx|Hx]%elem_of_app; [by apply Hf, (ci_range _ _ _ HI)|].
    unfold held, rights in Hx. apply list_elem_of_In, in_concat in Hx as (l & Hl & Hx).
    apply list_elem_of_In, list_elem_of_fmap in Hl as (c & -> & Hc). apply list_elem_of_In in Hx.
    assert (Hn : named g c) by (apply (ci_named _ _ _ HI); auto). apply Hf.
    destruct c; simpl in *; [|..]; try (by apply not_elem_of_nil in Hx);
      apply list_elem_of_singleton in Hx as ->; simpl; by eapply lookup_lt_Some. }
  clear -Hall. induction (ts ++ held cs) as [|x l IH]; [done|]. simpl. rewrite Hall by left.
  apply IH. intros y Hy. apply Hall. by right.
Qed.

(** The component number [i] of its kind is about to be made. *)
Definition next_of (w : World) (c : component) : Prop :=
  match c with
  | TheSender i _ => i = length (w_senders w)
  | TheListener i _ => i = length (w_listeners w)
  | TheRR i _ => i = length (w_rrs w)
  end.

(** The world with the new component, its state as its factory makes it. *)
Definition add_comp (c : component) (w : World) : World :=
  match c with
  | TheSender _ _ => mkWorld (w_senders w ++ [SenderState_init]) (w_listeners w) (w_rrs w)
  | TheListener _ l => mkWorld (w_senders w) (w_listeners w ++ [initStates l]) (w_rrs w)
  | TheRR _ _ => mkWorld (w_senders w) (w_listeners w) (w_rrs w ++ [RRState_init])
  end.

Definition add_name (c : component) (g : names) : names :=
  match c with
  | TheSender _ s => mkNames (n_senders g ++ [s]) (n_listeners g) (n_rrs g)
  | TheListener _ l => mkNames (n_senders g) (n_listeners g ++ [l]) (n_rrs g)
  | TheRR _ r => mkNames (n_senders g) (n_listeners g) (n_rrs g ++ [r])
  end.

Lemma named_add g c c' : named g c' -> named (add_name c g) c'.
Proof. destruct c, c'; simpl; try done; intros Hx; by apply lookup_app_l_Some. Qed.

Lemma named_add_inv g w c c' :
  length (n_senders g) = length (w_senders w) -> length (n_listeners g) = length (w_listeners w) ->
  length (n_rrs g) = length (w_rrs w) -> next_of w c -> named (add_name c g) c' -> named g c' \/ c' = c.
Proof.
  intros H1 H2 H3 Hn. destruct c, c'; simpl in *; subst; try (by left).
  all: intros [Hx|[Hge Hx]]%lookup_app_Some; [by left|right].
  all: apply list_lookup_singleton_Some in Hx as [Hz <-]; f_equal; lia.
Qed.

Lemma tok_in_add g c x : tok_in g x -> tok_in (add_name c g) x.
Proof. destruct c, x; simpl; rewrite ?length_app; lia. Qed.

Lemma pool_inv_init s : 0 <= s_maxConns s -> pool_inv s SenderState_init [MayShut].
Proof.
  intros Hm. split; simpl; rewrite ?cnt_same, ?cnt_diff, ?cnt_nil by done; try done; lia.
Qed.

Lemma life_inv_init l : life_inv l (initStates l) [MayClose].
Proof.
  split; simpl; try done; try lia.
  - by rewrite repeat_length.
  - by intros x ->%list_elem_of_singleton.
Qed.

Lemma inv_alloc_comps g cs ts c :
  client_inv_at g cs ts -> next_of (cl_world cs) c -> comp_typed cfg c ->
  let toks := right_of c ++ Know c :: ts in let w := add_comp c (cl_world cs) in let g' := add_name c g in
  comps_ok pool_inv (n_senders g') (w_senders w) (fun i => omap (s_tok i) (toks ++ held cs)) /\
  comps_ok life_inv (n_listeners g') (w_listeners w) (fun i => omap (l_tok i) (toks ++ held cs)) /\
  comps_ok rr_inv (n_rrs g') (w_rrs w) (fun i => omap (r_tok i) (toks ++ held cs)).
Proof.
  intros HI Hn Ht. pose proof (ci_senders _ _ _ HI) as HS. pose proof (ci_listeners _ _ _ HI) as HL.
  pose proof (ci_rrs _ _ _ HI) as HR. pose proof (proj1 HS) as LS. pose proof (proj1 HL) as LL.
  pose proof (proj1 HR) as LR. destruct c as [n s|n l|n r]; simpl in Hn; split_and!; try done.
  - eapply (comps_ok_snoc pool_inv); [exact HS| |].
    + simpl. rewrite decide_True by done. rewrite (fresh_tokens (s_tok _) g); [|done|].
      * apply pool_inv_init. destruct Ht. lia.
      * intros []; simpl; try done. intros Hlt. rewrite decide_False by lia. done.
    + intros j Hj. simpl. by rewrite decide_False by lia.
  - eapply (comps_ok_snoc life_inv); [exact HL| |].
    + simpl. rewrite decide_True by done. rewrite (fresh_tokens (l_tok _) g); [|done|].
      * apply life_inv_init.
      * intros []; simpl; try done. intros Hlt. rewrite decide_False by lia. done.
    + intros j Hj. simpl. by rewrite decide_False by lia.
  - eapply (comps_ok_snoc rr_inv); [exact HR| |done].
    simpl. rewrite (fresh_tokens (r_tok _) g); [by intros ?%not_elem_of_nil|done|].
    intros []; simpl; try done. intros Hlt. rewrite decide_False by lia. done.
Qed.

(** Making a component: its maker knows it and has the right to close it. *)
Lemma inv_alloc g cs ts c :
  client_inv_at g cs ts -> next_of (cl_world cs) c -> comp_typed cfg c ->
  client_inv_at (add_name c g) (set_world (add_comp c (cl_world cs)) cs) (right_of c ++ Know c :: ts).
Proof.
  intros HI Hn Ht. destruct (inv_alloc_comps g cs ts c HI Hn Ht) as (HS & HL & HR).
  destruct HI as [H1 H2 H3 H4 H5 H6 H7 H8 H9 H10].
  assert (Hnew : named (add_name c g) c).
  { destruct c as [n s|n l|n r]; simpl in *; subst n; rewrite <-?(proj1 H1), <-?(proj1 H2), <-?(proj1 H3);
      apply list_lookup_middle; done. }
  assert (Hin : forall x, is_plain x = true -> x ∈ right_of c ++ Know c :: ts -> x = Know c \/ x ∈ ts).
  { intros x Hx [Hr|[->|Hr]%elem_of_cons]%elem_of_app; auto. destruct c; simpl in Hr;
      [apply list_elem_of_singleton in Hr as ->..|]; try done. by apply not_elem_of_nil in Hr. }
  assert (Hw : forall w, (forall x, is_plain x = false -> w x = 0) -> w (Know c) = 0 ->
    weigh w (right_of c ++ Know c :: ts) = weigh w ts).
  { intros w Hz Hk. rewrite weigh_app. simpl. rewrite Hk, (weigh_zero w (right_of c)); [lia|].
    apply Forall_forall. intros x Hx. apply Hz. destruct c; simpl in Hx;
      [apply list_elem_of_singleton in Hx as ->..|]; try done. by apply not_elem_of_nil in Hx. }
  split; try done.
  - intros c' Hc'. destruct (named_add_inv g (cl_world cs) c c' (proj1 H1) (proj1 H2) (proj1 H3) Hn Hc') as [?| ->];
      [by apply H4|done].
  - intros c' [Hk|Hc']; [|by apply named_add, H5; right].
    destruct (Hin (Know c') eq_refl Hk) as [[= ->]|Hk']; [done|]. apply named_add, H5. by left.
  - intros x [Hx|[->|Hx]%elem_of_cons]%elem_of_app; [|done|by apply tok_in_add, H6].
    destruct c; simpl in Hx; [apply list_elem_of_singleton in Hx as ->..|by apply not_elem_of_nil in Hx];
      simpl in *; by eapply lookup_lt_Some.
  - intros c' Hc'. destruct (H7 c') as [Hx|(l & Hl & Hx)]; [|by left|].
    + destruct Hc' as [Hc'|?]; [|by right]. destruct (Hin (Registered c') eq_refl Hc') as [?|?]; [done|by left].
    + right. exists l. split; [|done]. apply elem_of_app. right. by right.
  - rewrite Hw; [done|by intros []|done].
  - rewrite Hw; [done|by intros []|done].
  - intros Hl. destruct (Hin Lost eq_refl Hl) as [?|?]; [done|by apply H10].
Qed.

(** Registering it: the right to close it goes to the client. *)
Lemma inv_register g cs ts c :
  client_inv_at g cs (right_of c ++ Know c :: ts) ->
  client_inv_at g (mkClientState (cl_closed cs) (cl_closers cs ++ [c]) (cl_probers cs) (cl_world cs))
    (Registered c :: Know c :: ts).
Proof.
  intros HI. pose proof HI as [H1 H2 H3 H4 H5 H6 H7 H8 H9 H10].
  set (cs' := mkClientState _ _ _ _).
  assert (Hheld : held cs' = held cs ++ right_of c).
  { unfold held, rights, cs'. simpl. rewrite map_app, concat_app. simpl. by rewrite app_nil_r. }
  assert (Htok : forall {Tok : Type} (f : gtok -> option Tok), f (Registered c) = None ->
    omap f ((right_of c ++ Know c :: ts) ++ held cs) ≡ₚ omap f ((Registered c :: Know c :: ts) ++ held cs')).
  { intros Tok f Hf. change (Registered c :: Know c :: ts) with ([Registered c] ++ Know c :: ts).
    rewrite Hheld, !omap_app. replace (omap f [Registered c]) with (@nil Tok) by (simpl; by rewrite Hf).
    solve_Permutation. }
  assert (Hw : forall w, w (Registered c) = 0 -> (forall x, is_plain x = false -> w x = 0) ->
    weigh w (Registered c :: Know c :: ts) = weigh w (right_of c ++ Know c :: ts)).
  { intros w Hr Hz. rewrite <-(weigh_plain w (right_of c ++ _)), <-(weigh_plain w (Registered c :: _)) by done.
    rewrite plain_app. destruct c; simpl; rewrite Hr; simpl; done. }
  split; try done.
  - eapply (comps_ok_perm pool_inv); [|exact H1]. intros i. by apply Htok.
  - eapply (comps_ok_perm life_inv); [|exact H2]. intros i. by apply Htok.
  - eapply (comps_ok_perm rr_inv); [|exact H3]. intros i. by apply Htok.
  - intros c' Hc'. apply H5. destruct Hc' as [Hc'|[Hc'|Hc']]; [left; set_solver| |by right; right].
    simpl in Hc'. apply elem_of_app in Hc' as [?| ->%list_elem_of_singleton]; [by right; left|].
    left. set_solver.
  - intros x [->|Hx]%elem_of_cons; [done|]. apply H6. apply elem_of_app. by right.
  - intros c' Hc'. assert (Hor : c' = c \/ (Registered c' ∈ right_of c ++ Know c :: ts \/ c' ∈ cl_probers cs)).
    { destruct Hc' as [[Hr|Hc']%elem_of_cons|?]; [by simplify_eq; left| |by right; right].
      right. left. apply elem_of_app. by right. }
    destruct Hor as [->|Hor].
    { left. simpl. apply elem_of_app. right. by left. }
    destruct (H7 c' Hor) as [Hx|(l & Hl & Hx)]; [left; simpl; set_solver|].
    right. exists l. split; [|done]. apply elem_of_app in Hl as [Hl|Hl]; [|by right].
    destruct c; simpl in Hl; [apply list_elem_of_singleton in Hl..|by apply not_elem_of_nil in Hl]; done.
  - rewrite Hw; [done|done|by intros []].
  - rewrite Hw; [done|done|by intros []].
  - intros Hl. apply H10. set_solver.
Qed.

Lemma inv_prober g cs ts c :
  client_inv_at g cs (Registered c :: Know c :: ts) ->
  client_inv_at g (mkClientState (cl_closed cs) (cl_closers cs) (cl_probers cs ++ [c]) (cl_world cs))
    (Registered c :: Know c :: ts).
Proof.
  intros HI. pose proof HI as [H1 H2 H3 H4 H5 H6 H7 H8 H9 H10]. split; try done.
  - intros c' Hc'. apply H5. simpl in Hc'. set_solver.
  - intros c' Hc'. apply (H7 c'). simpl in Hc'. set_solver.
Qed.

(** ** Close *)

(** Another call of Close has been here. *)
Lemma inv_lose g cs F :
  cl_closed cs = true -> client_inv_at g cs (CloseRight :: F) -> client_inv_at g cs (Lost :: F).
Proof.
  intros Hc HI. pose proof HI as [H1 H2 H3 H4 H5 H6 H7 H8 H9 H10]. split; try done.
  - intros c Hk. apply H5. set_solver.
  - intros x [->|Hx]%elem_of_cons; [done|]. apply H6. by right.
  - intros c Hk. destruct (H7 c) as [?|(l & Hl & ?)]; [set_solver|by left|]. right. exists l. set_solver.
Qed.

Lemma rights_in g l x : (forall c, c ∈ l -> named g c) -> x ∈ rights l -> tok_in g x /\ is_plain x = false.
Proof.
  intros Hl Hx. unfold rights in Hx. apply list_elem_of_In, in_concat in Hx as (r & Hr & Hx).
  apply list_elem_of_In, list_elem_of_fmap in Hr as (c & -> & Hc). apply list_elem_of_In in Hx.
  specialize (Hl c Hc). destruct c; simpl in *; try (by apply not_elem_of_nil in Hx);
    apply list_elem_of_singleton in Hx as ->; simpl; split; try done; by eapply lookup_lt_Some.
Qed.

(** The first call takes the list, and with it the rights to close what it holds. *)
Lemma inv_win g cs F :
  let l := cl_closers cs in
  cl_closed cs = false -> client_inv_at g cs (CloseRight :: F) ->
  client_inv_at g (mkClientState true [] (cl_probers cs) (cl_world cs))
    ((rights l ++ Won l :: map Know l) ++ F).
Proof.
  intros l Hc HI. pose proof HI as [H1 H2 H3 H4 H5 H6 H7 H8 H9 H10].
  assert (Hn : forall c, c ∈ l -> named g c) by (intros c ?; apply H5; auto).
  assert (Htok : forall {Tok : Type} (f : gtok -> option Tok), (forall x, is_plain x = true -> f x = None) ->
    omap f ((CloseRight :: F) ++ held cs) ≡ₚ
    omap f (((rights l ++ Won l :: map Know l) ++ F) ++ held (mkClientState true [] (cl_probers cs) (cl_world cs)))).
  { intros Tok f Hf. change (CloseRight :: F) with ([CloseRight] ++ F).
    change (Won l :: map Know l) with ([Won l] ++ map Know l).
    rewrite !omap_app, (omap_none f Know) by (intros; by apply Hf).
    replace (omap f [CloseRight]) with (@nil Tok) by (simpl; by rewrite Hf).
    replace (omap f [Won l]) with (@nil Tok) by (simpl; by rewrite Hf).
    unfold held at 2. unfold rights at 2. simpl. rewrite !app_nil_r. solve_Permutation. }
  assert (Hw : forall w, (forall x, is_plain x = false -> w x = 0) -> (forall c, w (Know c) = 0) ->
    weigh w ((rights l ++ Won l :: map Know l) ++ F) = w (Won l) + weigh w F).
  { intros w Hz Hk. rewrite !weigh_app. simpl. rewrite (weigh_zero w (rights l)), (weigh_zero w (map Know l)); [lia|..];
      apply Forall_forall; [by intros x (c & -> & _)%list_elem_of_fmap|].
    intros x Hx. by apply Hz, (rights_in g l x). }
  assert (Hpl : forall x, is_plain x = true -> x ∈ (rights l ++ Won l :: map Know l) ++ F ->
    x = Won l \/ (exists c, x = Know c /\ c ∈ l) \/ x ∈ F).
  { intros x Hx [[Hr|[->|Hr]%elem_of_cons]%elem_of_app|Hr]%elem_of_app; auto.
    - by destruct (rights_in g l x Hn Hr) as [_ ?]; congruence.
    - apply list_elem_of_fmap in Hr as (c & -> & Hc'). eauto. }
  simpl in H8, H9. rewrite Hc in H8. split; try done.
  - eapply (comps_ok_perm pool_inv); [|exact H1]. intros i. apply Htok. by intros [].
  - eapply (comps_ok_perm life_inv); [|exact H2]. intros i. apply Htok. by intros [].
  - eapply (comps_ok_perm rr_inv); [|exact H3]. intros i. apply Htok. by intros [].
  - intros c [Hk|[Hk|Hk]]; [|by apply not_elem_of_nil in Hk|by apply H5; auto].
    destruct (Hpl (Know c) eq_refl Hk) as [?|[(c' & [= ->] & ?)|?]]; [done|by apply Hn|].
    apply H5. left. by right.
  - intros x Hx. destruct (is_plain x) eqn:Hp; [by destruct x|].
    apply elem_of_app in Hx as [[Hx|[->|Hx]%elem_of_cons]%elem_of_app|Hx]; [by apply (rights_in g l)|done| |].
    + by apply list_elem_of_fmap in Hx as (c & -> & _).
    + apply H6. by right.
  - intros c Hk. right. assert (Hor : Registered c ∈ CloseRight :: F \/ c ∈ cl_probers cs).
    { destruct Hk as [Hk|?]; [|by right]. left.
      destruct (Hpl (Registered c) eq_refl Hk) as [?|[(c' & ? & ?)|?]]; [done|done|by right]. }
    destruct (H7 c Hor) as [Hx|(l' & Hl' & Hx)]; [exists l; set_solver|].
    exists l'. split; [|done]. apply elem_of_app. right. set_solver.
  - rewrite Hw; [simpl; lia|by intros []|done].
  - rewrite Hw; [simpl; lia|by intros []|done].
Qed.

Lemma rights_reverse l : rights (reverse l) ≡ₚ rights l.
Proof. unfold rights. by rewrite reverse_Permutation. Qed.

End client_logic.
