(* ===== verification/ClientLife.v ===== *)
(** * A client used by many goroutines at once

    The most general application: any number of goroutines, each of which calls the
    public interface of one client in any order, uses the components it made or was
    handed, starts further goroutines, and goes on in any way after a result or a
    panic; message handlers that send, make requests and create components themselves,
    and start goroutines that may do anything; and any number of goroutines that call [Client.Close].  What src/mq/client.go
    promises of Close is proved for every interleaving of such an application. *)

From Stdlib Require Import ZArith Lia.
From stdpp Require Import base numbers list option strings gmap relations.
From S2P Require Import Prelude GoErrors Float64 Config Mqi GoProg Always Fuel Termination Compose Script Backoff Connection.
From S2P Require Import Telemetry Wire Sender Listener RequestReply Health.
From S2P Require Import SenderPool ListenerLife Client Traffic Lasting Session ClientLogic.

Local Open Scope Z_scope.
Local Open Scope go_scope.

(** ** Applications *)

(** The calls of the public interface that come back by themselves, with the types of
    their results. *)
Inductive quick : Type -> Type :=
| QNewSender (queue : string) (opts : list Z) : quick (nat * Sender)
| QNewListener (queue : string) (opts : list listener_opt) : quick (nat * Listener)
| QNewRR (queue : string) (opts : list string) : quick (nat * RequestReplyClient)
| QNewRRFixed (queue reply : string) (opts : list string) : quick (nat * RequestReplyClient)
| QSend (i : nat) (s : Sender) (ctx : Ctx) (dest : string) (creator : option MessageCreator)
    : quick (string * error)
| QRequestReply (i : nat) (r : RequestReplyClient) (ctx : Ctx) (creator : option MessageCreator) (timeout : Z)
    : quick (option Message * error)
| QCloseRR (i : nat) (r : RequestReplyClient) : quick error.

(** A goroutine of the application ([Do], [Go]): it makes calls and decides how to go
    on from each result, or from the panic of the call; it starts goroutines.  The
    calls it makes are the quick ones, Health, and Start with a listener's handlers,
    given by the number the listener calls them by; those of Close are made by
    goroutines of their own.  A handler of messages or of errors makes quick calls,
    starts goroutines, which may do anything, and answers. *)
Inductive app :=
| Stop
| Do {B : Type} (r : request B) (k : B + nat -> app)
| Go (child k : app)
with reaction :=
| Answer (a : user_answer)
| React {B : Type} (q : quick B) (k : B + nat -> reaction)
| Launch (child : app) (k : reaction)
with request : Type -> Type :=
| Quick {B : Type} (q : quick B) : request B
| Listen (i : nat) (l : Listener) (n m : nat) (ctx : Ctx) (f : nat)
    (h : nat -> Ctx -> option Message -> error -> reaction) : request error
| AskHealth : request HealthStatus.

Definition callbacks : Type := nat -> Ctx -> option Message -> error -> reaction.

Scheme app_rect_mut := Induction for app Sort Prop
  with reaction_rect_mut := Induction for reaction Sort Prop
  with request_rect_mut := Induction for request Sort Prop.

Combined Scheme app_mutind from app_rect_mut, reaction_rect_mut, request_rect_mut.

Section apps.
Context `{MQBinding} `{GoArch} (cfg : Config).

Definition quick_prog {B : Type} (q : quick B) : prog ClientState B :=
  match q in quick B return prog ClientState B with
  | QNewSender q opts => NewSender cfg q (map WithSenderConcurrency opts)
  | QNewListener q opts => NewListener cfg q (map listener_option opts)
  | QNewRR q opts => NewRequestReplyClient cfg q (map WithRRReplyQueue opts)
  | QNewRRFixed q rq opts => NewRequestReplyClientFixed cfg q rq (map WithRRReplyQueue opts)
  | QSend i s ctx dest creator => in_world (on_sender i (SendWithCreator s ctx dest creator))
  | QRequestReply i r ctx creator timeout => in_world (on_rr i (RequestReplyWithCreator r ctx creator timeout))
  | QCloseRR i r => in_world (on_rr i RR_Close)
  end.

Fixpoint app_prog (a : app) : prog ClientState unit :=
  match a with
  | Stop => Ret tt
  | Do r k => tbind (request_prog r) (fun x => app_prog (k x))
  | Go child k => Fork (app_prog child) (app_prog k)
  end
with react_prog (r : reaction) : prog ClientState user_answer :=
  match r with
  | Answer a => Ret a
  | React q k => tbind (quick_prog q) (fun x => react_prog (k x))
  | Launch child k => Fork (app_prog child) (react_prog k)
  end
with request_prog {B : Type} (r : request B) : prog ClientState B :=
  match r in request B return prog ClientState B with
  | Quick q => quick_prog q
  | Listen i l n m ctx f h =>
      link (fun g c msg e => react_prog (h g c msg e)) (in_world (on_listener i (Start n m l ctx (user_handler f))))
  | AskHealth => Client_Health cfg
  end.

End apps.

(** A goroutine uses only components it knows, with creators that only touch the
    message they are given. *)
Definition quick_ok (K : list component) {B : Type} (q : quick B) : Prop :=
  match q with
  | QSend i s _ _ creator => TheSender i s ∈ K /\ forall f, creator = Some f -> creator_ok f
  | QRequestReply i r _ creator _ => TheRR i r ∈ K /\ forall f, creator = Some f -> creator_ok f
  | QCloseRR i r => TheRR i r ∈ K
  | _ => True
  end.

(** What it gets to know from a result. *)
Definition made {B : Type} (q : quick B) : B + nat -> list component :=
  match q in quick B return B + nat -> list component with
  | QNewSender _ _ => fun x => match x with inl (i, s) => [TheSender i s] | inr _ => [] end
  | QNewListener _ _ => fun x => match x with inl (i, l) => [TheListener i l] | inr _ => [] end
  | QNewRR _ _ => fun x => match x with inl (i, r) => [TheRR i r] | inr _ => [] end
  | QNewRRFixed _ _ _ => fun x => match x with inl (i, r) => [TheRR i r] | inr _ => [] end
  | _ => fun _ => []
  end.

Definition learned {B : Type} (r : request B) : B + nat -> list component :=
  match r in request B return B + nat -> list component with
  | Quick q => made q
  | _ => fun _ => []
  end.

Fixpoint app_ok (K : list component) (a : app) : Prop :=
  match a with
  | Stop => True
  | Do r k => req_ok K r /\ forall x, app_ok (learned r x ++ K) (k x)
  | Go child k => app_ok K child /\ app_ok K k
  end
with react_ok (K : list component) (r : reaction) : Prop :=
  match r with
  | Answer _ => True
  | React q k => quick_ok K q /\ forall x, react_ok (made q x ++ K) (k x)
  | Launch child k => app_ok K child /\ react_ok K k
  end
with req_ok (K : list component) {B : Type} (r : request B) : Prop :=
  match r with
  | Quick q => quick_ok K q
  | Listen i l _ _ _ _ h => TheListener i l ∈ K /\ forall g c msg e, react_ok K (h g c msg e)
  | AskHealth => True
  end.

(** The listeners of an application have fuel for [k] steps. *)
Fixpoint fuelled (k : nat) (a : app) : Prop :=
  match a with
  | Stop => True
  | Do r f => req_fuel k r /\ forall x, fuelled k (f x)
  | Go child f => fuelled k child /\ fuelled k f
  end
with react_fuel (k : nat) (r : reaction) : Prop :=
  match r with
  | Answer _ => True
  | React _ f => forall x, react_fuel k (f x)
  | Launch child f => fuelled k child /\ react_fuel k f
  end
with req_fuel (k : nat) {B : Type} (r : request B) : Prop :=
  match r with
  | Listen _ _ n m _ _ h => (k <= n)%nat /\ (k <= m)%nat /\ forall g c msg e, react_fuel k (h g c msg e)
  | _ => True
  end.

(** ** The machine *)

Inductive client_result := CloseDone (e : error) | AppDone.

Definition close_goroutine : prog ClientState client_result := do! e <- Client_Close; Ret (CloseDone e).

Definition app_goroutine `{MQBinding} `{GoArch} (cfg : Config) (a : app) : prog ClientState client_result :=
  app_prog cfg a ;;; Ret AppDone.

(** A client (its configuration and its state, as NewClient returns them), [n]
    goroutines that call Close (the first ones), and the application's goroutines. *)
Definition client_machine `{MQBinding} `{GoArch} (client : Config * ClientState) (n : nat) (apps : list app)
    : machine ClientState client_result :=
  mkMachine client.2 (repeat close_goroutine n ++ map (app_goroutine client.1) apps).

Abbreviation client_step := (cstep (fun _ => AppDone)).

Abbreviation client_reachable := (reachable (fun _ => AppDone)).

(** ** Fuel *)

Section fuel.
Context `{MQBinding} `{GoArch} (cfg : Config).

Lemma lasts_quick {B : Type} (q : quick B) K k : quick_ok K q -> lasts k (quick_prog cfg q).
Proof.
  destruct q; cbn [quick_prog quick_ok]; intros Hq.
  1-4: first [apply lasts_NewSender | apply lasts_NewListener | apply lasts_new_rr].
  all: apply lasts_zoom, lasts_zoom.
  - by apply lasts_SendWithCreator, creator_ok_lasts, Hq.
  - by apply lasts_RequestReply, creator_ok_lasts, Hq.
  - unfold RR_Close. lasts_go.
Qed.

Lemma lasts_apps :
  (forall a k K, app_ok K a -> fuelled k a -> lasts k (app_prog cfg a)) /\
  (forall r k K, react_ok K r -> react_fuel k r -> lasts k (react_prog cfg r)) /\
  (forall B (r : request B) k K, req_ok K r -> req_fuel k r -> lasts k (request_prog cfg r)).
Proof.
  apply app_mutind; cbn [app_prog react_prog request_prog].
  - done.
  - intros B r IHr f IHf k K [Hr Hk] [Hfr Hfk]. apply lasts_tbind; [by eapply IHr|]. intros x. by eapply IHf.
  - intros child IHc f IHf k K [Hc Hk] [Hfc Hfk].
    split; (eapply lasts_le; [apply Nat.le_pred_l|]); [by eapply IHc|by eapply IHf].
  - done.
  - intros B q f IHf k K [Hq Hk] Hf. apply lasts_tbind; [by eapply lasts_quick|]. intros x. eapply IHf; [apply Hk|apply Hf].
  - intros child IHc f IHf k K [Hc Hk] [Hfc Hfk].
    split; (eapply lasts_le; [apply Nat.le_pred_l|]); [by eapply IHc|by eapply IHf].
  - intros B q k K Hq _. by eapply lasts_quick.
  - intros i l n m ctx f h IHh k K [_ Hh] (Hn & Hm & Hf).
    apply lasts_link; [intros; by eapply IHh|]. by apply lasts_zoom, lasts_zoom, lasts_Start.
  - intros k K _ _. apply lasts_Client_Health.
Qed.

Lemma lasts_machine (cs : ClientState) n apps k :
  Forall (app_ok []) apps -> Forall (fuelled k) apps -> Forall (lasts k) (threads (client_machine (cfg, cs) n apps)).
Proof.
  intros Ha Hf. apply Forall_app_2.
  - apply Forall_forall. intros p ->%list_elem_of_In%repeat_spec.
    apply lasts_bind; [apply lasts_Client_Close|done].
  - apply Forall_map, Forall_forall. intros a Hin. rewrite Forall_forall in Ha, Hf.
    apply lasts_bind; [by eapply (proj1 lasts_apps); auto|done].
Qed.

End fuel.

Section calls.
Context `{MQBinding} `{GoArch} (cfg : Config) (N : Z).
Context (Hcfg : config_defaulted cfg).

Abbreviation gcwp := (cwp (client_inv cfg N) (blocks grank client_waits) started_end).
Abbreviation qcwp := (cwp (client_inv cfg N) never started_end).
Abbreviation share := (share cfg).

(** What a call adds to its caller's share: idle tokens, and knowledge of [L]. *)
Definition gains (L : list component) (t t' : list gtok) : Prop :=
  grown t t' /\ forall c, c ∈ L -> Know c ∈ t' /\ comp_typed cfg c.

Lemma share_gains L K t t' : gains L t t' -> share K t -> share (L ++ K) t'.
Proof.
  intros [Hg HL] Hs. destruct (share_grown cfg K t t' Hg Hs) as [Hi Hk]. split; [done|].
  intros c [Hc|Hc]%elem_of_app; auto.
Qed.

(** ** Making components *)

Lemma qcwp_register {A : Type} c (a : A) t :
  comp_typed cfg c ->
  qcwp (register c ;;; registerHealthProber c ;;; Ret a) (right_of c ++ Know c :: t)
    (fun o t' => o = Returned a /\ gains [c] t t').
Proof.
  intros Hc. apply cwp_bind. intros cs F [g HI]. exists (Registered c :: Know c :: t). split.
  { exists g. rewrite <-app_assoc in HI. exact (inv_register cfg N g cs (t ++ F) c HI). }
  cbn [cwp fst snd]. apply cwp_bind. clear cs F g HI. intros cs F [g HI].
  exists (Registered c :: Know c :: t). split.
  { exists g. exact (inv_prober cfg N g cs (t ++ F) c HI). }
  cbn [cwp fst snd]. split; [done|]. split.
  - exists [Registered c; Know c]. split; [by repeat constructor|done].
  - intros c' ->%list_elem_of_singleton. split; [right; by left|done].
Qed.

Lemma sender_typed q n opts tel i :
  1 <= n -> comp_typed cfg (TheSender i (apply_options (map WithSenderConcurrency opts) (mkSender cfg q n tel))).
Proof. intros Hn. rewrite sender_options_spec. simpl. split; [done|]. by apply last_from_range. Qed.

Lemma listener_typed q n m qo tel f opts i :
  1 <= n -> 0 <= m ->
  comp_typed cfg (TheListener i (apply_options (map listener_option opts) (mkListener cfg q n m qo tel f))).
Proof.
  intros Hn Hm. rewrite listener_options_spec. simpl. split_and!; [done|by apply last_from_range..].
Qed.

Lemma rr_typed q rq mode tel opts i :
  (mode = TemporaryQueue -> rq = ""%string) ->
  comp_typed cfg (TheRR i (apply_options (map WithRRReplyQueue opts) (mkRRClient cfg q rq mode tel))).
Proof.
  intros Hm. rewrite rr_options_spec. simpl. split; [done|]. intros ->. rewrite decide_False by done. auto.
Qed.

(** The telemetry of a new component concerns nobody. *)
Lemma qcwp_telemetry tel t (Q : outcome mqTelemetry -> list gtok -> Prop) :
  (forall x, Q (Returned x) t) -> qcwp (lift (newMQTelemetry tel)) t Q.
Proof.
  intros HQ. apply cwp_lift; [apply ext_only_newMQTelemetry|]. apply wp_newMQTelemetry. intros. apply HQ.
Qed.

(** The three factories after the telemetry: allocate, register, report. *)
Lemma qcwp_alloc {X : Type} (mk : nat -> X -> component) (x : X) (f : ClientState -> nat * ClientState) t :
  (forall cs, let c := mk (f cs).1 x in
     next_of (cl_world cs) c /\ comp_typed cfg c /\ (f cs).2 = set_world (add_comp c (cl_world cs)) cs) ->
  qcwp (do! i <- atomic f; register (mk i x) ;;; registerHealthProber (mk i x) ;;; Ret (i, x)) t
    (fun o t' => exists i, o = Returned (i, x) /\ gains [mk i x] t t').
Proof.
  intros Hf. apply cwp_bind. intros cs F [g HI]. destruct (Hf cs) as (Hn & Ht & Heq).
  exists (right_of (mk (f cs).1 x) ++ Know (mk (f cs).1 x) :: t). split.
  { exists (add_name (mk (f cs).1 x) g). rewrite Heq, <-app_assoc. by apply inv_alloc. }
  cbn [cwp]. eapply cwp_mono; [|by apply qcwp_register]. intros o t' [-> Ht']. eauto.
Qed.

Lemma qcwp_NewSender q opts t :
  qcwp (NewSender cfg q (map WithSenderConcurrency opts)) t
    (fun o t' => exists i s, o = Returned (i, s) /\ gains [TheSender i s] t t').
Proof.
  apply cwp_bind, qcwp_telemetry. intros tel. eapply cwp_mono; [|apply (qcwp_alloc TheSender); intros cs].
  - intros o t' (i & -> & Ht'). eauto.
  - split_and!; [done| |done]. apply sender_typed. apply Hcfg.
Qed.

Lemma qcwp_NewListener q opts t :
  qcwp (NewListener cfg q (map listener_option opts)) t
    (fun o t' => exists i l, o = Returned (i, l) /\ gains [TheListener i l] t t').
Proof.
  apply cwp_bind, qcwp_telemetry. intros tel. eapply cwp_mono; [|apply (qcwp_alloc TheListener); intros cs].
  - intros o t' (i & -> & Ht'). eauto.
  - split_and!; [done| |done]. apply listener_typed; [apply Hcfg|]. pose proof (d_retries _ Hcfg). lia.
Qed.

Lemma qcwp_new_rr q rq mode opts t :
  (mode = TemporaryQueue -> rq = ""%string) ->
  qcwp (new_rr cfg q rq mode (map WithRRReplyQueue opts)) t
    (fun o t' => exists i r, o = Returned (i, r) /\ gains [TheRR i r] t t').
Proof.
  intros Hm. apply cwp_bind, qcwp_telemetry. intros tel. eapply cwp_mono; [|apply (qcwp_alloc TheRR); intros cs].
  - intros o t' (i & -> & Ht'). eauto.
  - split_and!; [done| |done]. by apply rr_typed.
Qed.

(** ** Using components *)

Lemma qcwp_Send i s ctx dest creator K t :
  (forall f, creator = Some f -> creator_ok f) -> TheSender i s ∈ K -> share K t ->
  qcwp (in_world (on_sender i (SendWithCreator s ctx dest creator))) t
    (fun o t' => ended o = true /\ grown t t').
Proof.
  intros Hc HK Hs. eapply cwp_mono; [|eapply (gcwp_sender cfg N i s _ never never t [] t
    (fun o u => ended o = true /\ (u = [] \/ u = [Slot]))); [apply lifts_never|done|apply Hs|by apply Hs|]].
  - intros o t' (u & Ht & Ho & Hu). split; [done|]. eapply grown_comp; [exact Ht|].
    intros x Hx. destruct Hu as [-> | ->]; [by apply not_elem_of_nil in Hx|].
    by apply list_elem_of_singleton in Hx as ->.
  - apply pcwp_SendWithCreator; auto.
Qed.

Lemma qcwp_RequestReply i r ctx creator timeout K t :
  (forall f, creator = Some f -> creator_ok f) -> TheRR i r ∈ K -> share K t ->
  qcwp (in_world (on_rr i (RequestReplyWithCreator r ctx creator timeout))) t
    (fun o t' => ended o = true /\ grown t t').
Proof.
  intros Hc HK Hs. eapply cwp_mono; [|eapply (gcwp_rr cfg N i r _ never t [] t (fun o u => ended o = true /\ u = []));
    [done|apply Hs|by apply Hs|by apply rcwp_RequestReply]].
  intros o t' (u & Ht & Ho & ->). split; [done|]. eapply grown_comp; [exact Ht|]. by intros x ?%not_elem_of_nil.
Qed.

(** Closing a request-reply client, which anyone may do. *)
Lemma rcwp_Close r u (Q : outcome error -> list rrtok -> Prop) :
  (forall e, Q (Returned e) (RRShut :: u)) -> cwp (rr_inv r) never rr_no_fork RR_Close u Q.
Proof. intros HQ. apply cwp_bind. intros st F HI. exists (RRShut :: u). split; [by intros _|]. apply HQ. Qed.

Lemma qcwp_CloseRR i r K t :
  TheRR i r ∈ K -> share K t -> qcwp (in_world (on_rr i RR_Close)) t
    (fun o t' => ended o = true /\ grown t t').
Proof.
  intros HK Hs. eapply cwp_mono; [|eapply (gcwp_rr cfg N i r _ never t [] t (fun o u => ended o = true /\ u = [RRShut]));
    [done|apply Hs|by apply Hs|by apply rcwp_Close]].
  intros o t' (u & Ht & Ho & ->). split; [done|]. eapply grown_comp; [exact Ht|]. by intros x ->%list_elem_of_singleton.
Qed.

(** What any of these calls leaves. *)
Definition call_post {B : Type} (L : B + nat -> list component) (t : list gtok) (o : outcome B) (t' : list gtok)
    : Prop :=
  match o with
  | Returned b => gains (L (inl b)) t t'
  | Panicked v => gains (L (inr v)) t t'
  | _ => False
  end.

Lemma call_post_grown {B : Type} (t t' : list gtok) (o : outcome B) :
  ended o = true -> grown t t' -> call_post (fun _ => []) t o t'.
Proof. intros Ho Hg. destruct o; try done; split; try done; by intros c ?%not_elem_of_nil. Qed.

Lemma qcwp_quick {B : Type} (q : quick B) K t :
  quick_ok K q -> share K t -> qcwp (quick_prog cfg q) t (call_post (made q) t).
Proof.
  intros Hr Hs. destruct q as [q opts|q opts|q opts|q rq opts|i s ctx dest cr|i r ctx cr d|i r]; cbn [quick_prog].
  - eapply cwp_mono; [|by apply qcwp_NewSender]. by intros o t' (i & s & -> & Ht').
  - eapply cwp_mono; [|by apply qcwp_NewListener]. by intros o t' (i & s & -> & Ht').
  - eapply cwp_mono; [|by apply qcwp_new_rr]. by intros o t' (i & s & -> & Ht').
  - eapply cwp_mono; [|by apply qcwp_new_rr]. by intros o t' (i & s & -> & Ht').
  - destruct Hr as [HK Hc]. eapply cwp_mono; [|by apply (qcwp_Send i s ctx dest cr K)].
    intros o t' [? ?]. by apply call_post_grown.
  - destruct Hr as [HK Hc]. eapply cwp_mono; [|by apply (qcwp_RequestReply i r ctx cr d K)].
    intros o t' [? ?]. by apply call_post_grown.
  - eapply cwp_mono; [|by apply (qcwp_CloseRR i r K)]. intros o t' [? ?]. by apply call_post_grown.
Qed.

(** ** Handlers *)

(** A goroutine that starts another hands on what it knows. *)
Lemma share_know K t : share K t -> share K (map Know K).
Proof.
  intros [_ Hk]. split; [apply Forall_forall; by intros x (c & -> & _)%list_elem_of_fmap|].
  intros c Hc. split; [by apply list_elem_of_fmap_2|by apply Hk].
Qed.

(** How a reaction ends that owned [t] besides what its goroutine owns for others: with
    an answer, having given all that back. *)
Definition answered (t T : list gtok) (o : outcome user_answer) (t' : list gtok) : Prop :=
  (exists a, o = Returned a) /\ exists t1, t' = t1 ++ T /\ grown t t1.

(** The client's calls never wait, whatever else their goroutine owns. *)
Lemma gcwp_React {B : Type} (q : quick B) (k : B + nat -> reaction) K t T :
  quick_ok K q -> share K t ->
  (forall x t1, grown t t1 -> share (made q x ++ K) t1 -> gcwp (react_prog cfg (k x)) (t1 ++ T) (answered t1 T)) ->
  gcwp (react_prog cfg (React q k)) (t ++ T) (answered t T).
Proof.
  intros Hq Hs Hk. cbn [react_prog]. apply cwp_tbind.
  eapply cwp_mono; [|by apply cwp_frame, (qcwp_quick q K)]. intros o t' (t1 & -> & Ho).
  assert (Hgo : forall x, gains (made q x) t t1 -> gcwp (react_prog cfg (k x)) (t1 ++ T) (answered t T)).
  { intros x Hg. eapply cwp_mono; [|apply (Hk x t1); [apply Hg|by eapply share_gains]].
    intros o' t' (Ho' & t2 & -> & Hg'). split; [done|]. exists t2. split; [done|]. eapply grown_trans; [apply Hg|done]. }
  destruct o; simpl in Ho; try done; by apply Hgo.
Qed.

(** ** Any goroutine of the application *)

Lemma gcwp_Start i l n m ctx f K t :
  TheListener i l ∈ K -> share K t ->
  cwp (client_inv cfg N) start_may_wait started_end (in_world (on_listener i (Start n m l ctx (user_handler f)))) t
    (fun o t' => (exists e, o = Returned e) /\ grown t t').
Proof.
  intros HK Hs. eapply cwp_mono; [|eapply (gcwp_listener cfg N i l _ _ _ t [] t
    (fun o u => (exists e, o = Returned e) /\ (u = [] \/ exists es, u = [SawErrs es])));
    [apply start_lifts|done|apply Hs|by apply Hs|]].
  - intros o t' (u & Ht & Ho & Hu). split; [done|]. eapply grown_comp; [exact Ht|].
    intros x Hx. destruct Hu as [->|[es ->]]; [by apply not_elem_of_nil in Hx|].
    by apply list_elem_of_singleton in Hx as ->.
  - destruct (proj2 Hs _ HK) as [_ (_ & Hc & _)]. apply (lcwp_Start l (mb := start_may_block)); [lia|by eauto|by eauto].
Qed.

(** A handler runs in a consumer's goroutine, whatever that owns. *)
Lemma gcwp_handler (r : reaction) K t0 t :
  share K t0 ->
  (forall t1 T, share K t1 -> gcwp (react_prog cfg r) (t1 ++ T) (answered t1 T)) ->
  gcwp (react_prog cfg r) (map Know K ++ t) (fun o t' =>
    ended o = true /\ exists R, Forall idle R /\ t' ≡ₚ map Know K ++ t ++ R).
Proof.
  intros Hs Hr. eapply cwp_mono; [|apply Hr; by eapply share_know].
  intros o t' ([a ->] & t1 & -> & R & HR & Ht1). split; [done|]. exists R. split; [done|].
  rewrite Ht1. solve_Permutation.
Qed.

Lemma gcwp_Listen i l n m ctx f (h : callbacks) K t :
  TheListener i l ∈ K -> share K t ->
  (forall g c msg e t1 T, share K t1 -> gcwp (react_prog cfg (h g c msg e)) (t1 ++ T) (answered t1 T)) ->
  gcwp (request_prog cfg (Listen i l n m ctx f h)) t (fun o t' => (exists e, o = Returned e) /\ grown t t').
Proof.
  intros HK Hs Hh. cbn [request_prog].
  apply (cwp_gain (client_inv cfg N) grank client_waits started_end _ t (map Know K ++ t)); [done|set_solver| |].
  { intros s F HI. rewrite <-app_assoc. by eapply inv_share_dup. }
  eapply cwp_mono; [|eapply (cwp_link (client_inv cfg N) idle start_may_wait (blocks grank client_waits) started_end
    (map Know K) (proj1 (share_know K t Hs))) with (t := t) (R := []);
    [| |intros o s t1 R HR [_ Hb]; by apply blocks_lazy|by intros; eapply gcwp_handler; auto| | |by apply (gcwp_Start i l n m ctx f K)]].
  - intros o t' (u & R & Ht' & HR & He & Hg). split; [done|]. eapply grown_trans; [exact Hg|].
    exists (map Know K ++ R). split; [apply Forall_app; split; [apply (share_know K t Hs)|done]|].
    rewrite Ht'. simpl. solve_Permutation.
  - intros s F HI. eapply inv_share_dup; [by eapply share_know|done].
  - intros o t1 t2 R Ho HR Ht. destruct o; try done. simpl in *. rewrite Ht. by apply Forall_app.
  - rewrite app_nil_r. apply Permutation_app_comm.
  - constructor.
Qed.

Lemma gcwp_probe c K t :
  c ∈ K -> share K t ->
  gcwp (in_world (prober c)) t (fun o t' => (exists ds, o = Returned ds) /\ grown t t').
Proof.
  intros HK Hs.
  assert (Hpost : forall {Tok : Type} (inj : Tok -> gtok) (o : outcome (list ConnectionStatus)) t',
    (exists u, t' ≡ₚ map inj u ++ t /\ (exists ds, o = Returned ds) /\ u = []) ->
    (exists ds, o = Returned ds) /\ grown t t').
  { intros Tok inj o t' (u & Ht & Ho & ->). split; [done|]. eapply grown_comp; [exact Ht|]. by intros x ?%not_elem_of_nil. }
  pose (Q := fun (o : outcome (list ConnectionStatus)) {Tok : Type} (u : list Tok) => (exists ds, o = Returned ds) /\ u = []).
  destruct c as [i s|i l|i r]; cbn [prober].
  - eapply cwp_mono; [intros o t'; apply (Hpost _ (TS i))|].
    eapply (gcwp_sender cfg N i s _ _ _ t [] t (fun o u => Q o tok u));
      [apply sender_lifts|done|apply Hs|by apply Hs|apply pcwp_probe; unfold Q; eauto].
  - eapply cwp_mono; [intros o t'; apply (Hpost _ (TL i))|].
    eapply (gcwp_listener cfg N i l _ _ _ t [] t (fun o u => Q o ltok u));
      [apply listener_lifts|done|apply Hs|by apply Hs|apply (lcwp_probe l (mb := life_may_block)); unfold Q; eauto].
  - eapply cwp_mono; [intros o t'; apply (Hpost _ (TR i))|].
    eapply (gcwp_rr cfg N i r _ _ t [] t (fun o u => Q o rrtok u)); [done|apply Hs|by apply Hs|].
    apply cwp_bind. intros st F HI. exists []. split; [done|]. unfold Q. simpl. eauto.
Qed.

Lemma gcwp_probe_all fns ds K t :
  fns ⊆ K -> share K t ->
  gcwp (probe_all fns ds) t (fun o t' => (exists ds, o = Returned ds) /\ grown t t').
Proof.
  revert ds t. induction fns as [|c fns IH]; intros ds t Hsub Hs; cbn [probe_all].
  { split; [eauto|apply grown_refl]. }
  apply cwp_bind. eapply cwp_mono; [|apply (gcwp_probe c K); [set_solver|done]]. intros o t' [[d ->] Hg].
  eapply cwp_mono; [|apply IH; [set_solver|by eapply share_grown]]. intros o t'' [? ?]. split; [done|].
  by eapply grown_trans.
Qed.

Lemma gcwp_Health K t : share K t -> gcwp (Client_Health cfg) t (fun o t' => (exists h, o = Returned h) /\ grown t t').
Proof.
  intros Hs. apply cwp_bind. intros cs F [g HI].
  assert (Hp : forall c, c ∈ cl_probers cs -> named g c) by (intros c Hc; apply (ci_named _ _ _ _ _ HI); auto).
  assert (Hg : grown t (map Know (cl_probers cs) ++ t)).
  { exists (map Know (cl_probers cs)). split; [|done]. apply Forall_forall. by intros x (c & -> & _)%list_elem_of_fmap. }
  exists (map Know (cl_probers cs) ++ t). split; [exists g; rewrite <-app_assoc; by apply inv_knows|].
  cbn [cwp fst snd]. apply cwp_bind.
  eapply cwp_mono; [|apply (gcwp_probe_all (cl_probers cs) [] (cl_probers cs ++ K)); [set_solver|]].
  - intros o t' [[ds ->] Hg']. split; [eauto|]. by eapply grown_trans.
  - apply (share_gains _ _ t); [|done]. split; [done|]. intros c Hc.
    split; [apply elem_of_app; left; by apply list_elem_of_fmap_2|by apply (ci_typed _ _ _ _ _ HI), Hp].
Qed.

(** Goroutines, handlers and calls of the application, by induction on all three. *)
Lemma gcwp_apps :
  (forall a K t, app_ok K a -> share K t -> gcwp (app_prog cfg a) t started_end) /\
  (forall r K t T, react_ok K r -> share K t -> gcwp (react_prog cfg r) (t ++ T) (answered t T)) /\
  (forall B (r : request B) K t, req_ok K r -> share K t -> gcwp (request_prog cfg r) t (call_post (learned r) t)).
Proof.
  apply app_mutind.
  - intros K t _ Hs. apply Hs.
  - intros B r IHr k IHk K t [Hr Hk] Hs. cbn [app_prog]. apply cwp_tbind. eapply cwp_mono; [|by apply (IHr K)].
    intros o t' Ho. destruct o; simpl in Ho; try done; (eapply IHk; [apply Hk|by eapply share_gains]).
  - intros child IHc k IHk K t [Hc Hk] Hs. intros cs F HI. exists (map Know K), t.
    split_and!; [by eapply inv_share_dup|eapply IHc; [done|by eapply share_know]|by eapply IHk].
  - intros a K t T _ Hs. split; [eauto|]. exists t. split; [done|apply grown_refl].
  - intros B q k IHk K t T [Hq Hk] Hs. eapply gcwp_React; [done..|]. intros x t1 _ Hs1. by eapply IHk.
  - intros child IHc k IHk K t T [Hc Hk] Hs. intros cs F HI. rewrite <-app_assoc in HI. exists (map Know K), (t ++ T).
    rewrite <-app_assoc. split_and!; [by eapply inv_share_dup|eapply IHc; [done|by eapply share_know]|by eapply IHk].
  - intros B q K t Hq Hs. rewrite <-(app_nil_r t) at 1. eapply cwp_mono; [|by apply cwp_frame, (qcwp_quick q K)].
    intros o t' (t0 & -> & Ho). by rewrite app_nil_r.
  - intros i l n m ctx f h IHh K t [HK Hh] Hs.
    eapply cwp_mono; [|apply (gcwp_Listen i l n m ctx f h K); [done..|by intros; eapply IHh]].
    intros o t' [[e ->] Hg]. by apply (call_post_grown t t' (Returned e)).
  - intros K t _ Hs. eapply cwp_mono; [|by apply (gcwp_Health K)]. intros o t' [[x ->] Hg].
    by apply (call_post_grown t t' (Returned x)).
Qed.

(** ** Close *)

(** What says that a component has been closed. *)
Definition evidence (t : list gtok) (c : component) : Prop :=
  match c with
  | TheSender i _ => TS i Waited ∈ t
  | TheListener i _ => TL i NeverStarted ∈ t \/ TL i SawDone ∈ t
  | TheRR i _ => TR i RRShut ∈ t
  end.

Lemma evidence_mono t t' c : t ⊆ t' -> evidence t c -> evidence t' c.
Proof. intros Hsub. destruct c; simpl; [by auto|intros [?|?]; auto|by auto]. Qed.

(** A call adds idle tokens, among them the evidence that [fns] are closed. *)
Definition closes_all (fns : list component) (t : list gtok) (o : outcome error) (t' : list gtok) : Prop :=
  (exists e, o = Returned e) /\ exists new, t' ≡ₚ new ++ t /\ Forall idle new /\ forall c, c ∈ fns -> evidence new c.

(** Closing one component, with the right to do so. *)
Lemma gcwp_closer c t0 t :
  t0 ≡ₚ right_of c ++ t -> Forall idle t -> Know c ∈ t ->
  gcwp (in_world (closer c)) t0 (closes_all [c] t).
Proof.
  intros Ht0 Hid Hk. destruct c as [i s|i l|i r]; cbn [closer].
  - eapply cwp_mono; [|eapply (gcwp_sender cfg N i s _ _ _ t0 [MayShut] t
      (fun o u => (exists e, o = Returned e) /\ u = [Closer; Waited]))];
      [|apply sender_lifts|done|done|done|apply pcwp_close_once; eauto].
    intros o t' (u & Ht & Ho & ->). split; [done|]. exists (map (TS i) [Closer; Waited]). split_and!; [done|by repeat constructor|].
    intros c ->%list_elem_of_singleton. simpl. set_solver.
  - eapply cwp_mono; [|eapply (gcwp_listener cfg N i l _ _ _ t0 [MayClose] t
      (fun o u => (exists e, o = Returned e) /\ (u = [NeverStarted] \/ u = [SawDone])))];
      [|apply listener_lifts|done|done|done|].
    + intros o t' (u & Ht & Ho & Hu). split; [done|]. exists (map (TL i) u).
      split_and!; [done|by destruct Hu as [-> | ->]; repeat constructor|].
      intros c ->%list_elem_of_singleton. simpl. destruct Hu as [-> | ->]; simpl; set_solver.
    + apply (lcwp_close l (mb := life_may_block)); [done|]. intros x [-> | ->]; eauto.
  - eapply cwp_mono; [|eapply (gcwp_rr cfg N i r _ _ t0 [] t
      (fun o u => (exists e, o = Returned e) /\ u = [RRShut]))]; [|done|done|done|].
    + intros o t' (u & Ht & Ho & ->). split; [done|]. exists (map (TR i) [RRShut]).
      split_and!; [done|by repeat constructor|]. intros c ->%list_elem_of_singleton. simpl. by left.
    + apply rcwp_Close. eauto.
Qed.

Lemma right_idle c : Forall idle (right_of c).
Proof. destruct c; by repeat constructor. Qed.

Lemma gcwp_close_all fns : forall errs t0 t,
  t0 ≡ₚ rights fns ++ t -> Forall idle t -> (forall c, c ∈ fns -> Know c ∈ t) ->
  gcwp (close_all fns errs) t0 (closes_all fns t).
Proof.
  induction fns as [|c fns IH]; intros errs t0 t Ht0 Hid Hk; cbn [close_all].
  { split; [eauto|]. exists []. split_and!; [done|done|]. by intros c ?%not_elem_of_nil. }
  assert (Hri : Forall idle (rights fns)).
  { clear. induction fns as [|c fns IH]; [constructor|]. apply Forall_app. split; [apply right_idle|exact IH]. }
  apply cwp_bind. eapply cwp_mono; [|apply (gcwp_closer c t0 (rights fns ++ t))].
  - intros o t' ([e ->] & new & Ht' & Hnew & Hev).
    eapply cwp_mono; [|apply (IH _ t' (new ++ t))].
    + intros o t'' ([e' ->] & new' & Ht'' & Hnew' & Hev'). split; [eauto|]. exists (new' ++ new).
      split_and!; [by rewrite Ht'', app_assoc|by apply Forall_app|].
      intros c' [->|Hc']%elem_of_cons.
      * eapply evidence_mono; [|apply Hev; by left]. set_solver.
      * eapply evidence_mono; [|by apply Hev']. set_solver.
    + rewrite Ht'. solve_Permutation.
    + by apply Forall_app.
    + intros c' Hc'. apply elem_of_app. right. apply Hk. by right.
  - rewrite Ht0. unfold rights. simpl. solve_Permutation.
  - by apply Forall_app.
  - apply elem_of_app. right. apply Hk. by left.
Qed.

(** What a call of Close ends with: it closed everything it took, or another call
    took it. *)
Definition close_end (t : list gtok) : Prop :=
  Forall idle t /\ ((exists l, Won l ∈ t /\ forall c, c ∈ l -> evidence t c) \/ (Lost ∈ t /\ forall l, Won l ∉ t)).

Lemma gcwp_Close : gcwp Client_Close [CloseRight] (fun o t => (exists e, o = Returned e) /\ close_end t).
Proof.
  apply cwp_bind. intros cs F [g HI]. destruct (cl_closed cs) eqn:Hc; cbn [fst snd].
  { exists [Lost]. split; [exists g; by apply inv_lose|]. cbn [cwp]. split; [eauto|].
    split; [by repeat constructor|]. right. split; [by left|]. by intros l ?%list_elem_of_singleton. }
  set (l := cl_closers cs). exists (rights l ++ Won l :: map Know l).
  split; [exists g; by apply inv_win|]. cbn [cwp].
  eapply cwp_mono; [|apply (gcwp_close_all (reverse l) [] _ (Won l :: map Know l))].
  - intros o t' (Ho & new & Ht' & Hnew & Hev). split; [done|]. split.
    + rewrite Ht'. apply Forall_app. split; [done|]. constructor; [done|].
      apply Forall_forall. by intros x (c & -> & _)%list_elem_of_fmap.
    + left. exists l. split; [rewrite Ht'; set_solver|]. intros c Hc'.
      eapply evidence_mono; [|apply Hev; by apply elem_of_reverse]. intros x Hx. rewrite Ht'. set_solver.
  - by rewrite rights_reverse.
  - constructor; [done|]. apply Forall_forall. by intros x (c & -> & _)%list_elem_of_fmap.
  - intros c Hc'. right. apply list_elem_of_fmap_2. by rewrite elem_of_reverse in Hc'.
Qed.

End calls.

(** ** Every interleaving *)

Section client_claims.
Context `{MQBinding} `{GoArch} (cfg : Config) (n : nat) (apps : list app).
Context (Hcfg : config_defaulted cfg) (Happs : Forall (app_ok []) apps).

(** What a goroutine owns when it ends. *)
Definition client_end (o : outcome client_result) (t : list gtok) : Prop :=
  match o with
  | Returned (CloseDone _) => close_end t
  | Returned AppDone => Forall idle t
  | NoFuel => True
  | _ => False
  end.

Abbreviation client_minv :=
  (machine_inv (client_inv cfg (Z.of_nat n)) (blocks grank client_waits) started_end client_end).

Lemma client_inv_init ts :
  ts = repeat CloseRight n -> client_inv cfg (Z.of_nat n) ClientState_init ts.
Proof.
  intros ->. exists (mkNames [] [] []).
  assert (Hin : forall x, x ∈ repeat CloseRight n -> x = CloseRight).
  { intros x Hx%list_elem_of_In. by eapply repeat_spec. }
  split; simpl; try done.
  - intros [i s|i l|i r]; simpl; by rewrite lookup_nil.
  - intros c [Hx%Hin|[Hx|Hx]]; [done|by apply not_elem_of_nil in Hx..].
  - by intros x ->%Hin.
  - intros c [Hx%Hin|Hx]; [done|by apply not_elem_of_nil in Hx].
  - apply weigh_zero, Forall_forall. by intros x ->%Hin.
  - clear. induction n as [|k IH]; simpl; lia.
  - by intros ?%Hin.
Qed.

Lemma client_machine_inv c :
  client_reachable (client_machine (cfg, ClientState_init) n apps) c -> client_minv c.
Proof.
  intros Hr. eapply (reachable_inv (client_inv cfg (Z.of_nat n)) (blocks grank client_waits) started_end
    (Inv_proper := client_inv_proper cfg (Z.of_nat n))); [|exact Hr|].
  { intros o t Ho. by destruct o. }
  exists (repeat [CloseRight] n ++ map (fun _ => []) apps). split; simpl.
  - apply Forall2_app.
    + generalize (Z.of_nat n). intros N. clear -Hcfg. induction n as [|k IH]; simpl; [constructor|].
      constructor; [|exact IH].
      apply cwp_bind. eapply cwp_mono; [|by apply gcwp_Close]. by intros o t [[e ->] He].
    + apply Forall2_fmap, Forall2_same_length_lookup_2; [done|]. intros i a a' Ha Ha'.
      assert (a = a') as <- by congruence. apply cwp_bind.
      eapply cwp_mono; [|apply (proj1 (gcwp_apps cfg (Z.of_nat n) Hcfg) a [] [])].
      * by intros [] t Ht.
      * by eapply Forall_lookup_1.
      * split; [constructor|]. by intros c' ?%not_elem_of_nil.
  - apply client_inv_init. rewrite concat_app.
    replace (concat (map (fun _ => []) apps)) with (@nil gtok) by (clear; by induction apps).
    rewrite app_nil_r. clear. induction n as [|k IH]; simpl; [done|]. by rewrite IH.
Qed.

(** Nothing of the component is running, and nothing will. *)
Definition shut (w : World) (c : component) : Prop :=
  match c with
  | TheSender i _ => exists st, w_senders w !! i = Some st /\ s_closed st = true /\ wg st = 0
  | TheListener i _ => exists st, w_listeners w !! i = Some st /\ l_closed st = true /\
      (l_started st = false \/ quiet st)
  | TheRR i _ => exists st, w_rrs w !! i = Some st /\ rr_closed st = true
  end.

Lemma evidence_shut N g cs ts c :
  client_inv_at cfg N g cs ts -> named g c -> evidence ts c -> shut (cl_world cs) c.
Proof.
  intros HI Hn He. destruct c as [i s|i l|i r]; simpl in *.
  - destruct (comps_ok_lookup pool_inv _ _ _ _ _ (ci_senders _ _ _ _ _ HI) Hn) as (st & Hst & Hp).
    exists st. split; [done|]. apply (pi_waited _ _ _ Hp). rewrite omap_app, cnt_app.
    pose proof (cnt_nonneg Waited (omap (s_tok i) (held cs))).
    assert (Hin : Waited ∈ omap (s_tok i) ts).
    { apply list_elem_of_omap. exists (TS i Waited). simpl. by rewrite decide_True. }
    apply elem_of_Permutation in Hin as [k Hk]. unfold cnt in *. rewrite Hk.
    rewrite filter_cons, decide_True by done. simpl length. lia.
  - destruct (comps_ok_lookup life_inv _ _ _ _ _ (ci_listeners _ _ _ _ _ HI) Hn) as (st & Hst & Hp).
    exists st. split; [done|].
    assert (Hin : forall x, TL i x ∈ ts -> x ∈ omap (l_tok i) (ts ++ held cs)).
    { intros x Hx. apply list_elem_of_omap. exists (TL i x). simpl. rewrite decide_True by done.
      split; [apply elem_of_app; by left|done]. }
    destruct He as [He|He]; apply Hin in He; pose proof (li_tok _ _ _ Hp _ He) as Hf; destruct Hf; split; auto.
    right. by eapply done_quiet.
  - destruct (comps_ok_lookup rr_inv _ _ _ _ _ (ci_rrs _ _ _ _ _ HI) Hn) as (st & Hst & Hp).
    exists st. split; [done|]. apply Hp, list_elem_of_omap. exists (TR i RRShut). simpl.
    rewrite decide_True by done. split; [apply elem_of_app; by left|done].
Qed.

(** Every call of Close has returned. *)
Definition closes_returned (c : machine ClientState client_result) : Prop :=
  (0 < n)%nat /\ forall i, (i < n)%nat -> exists e, threads c !! i = Some (Ret (CloseDone e)).

(** The call that won is one of them, and what it took is shut. *)
Lemma close_effect c g tss :
  Forall2 (fun p t => cwp (client_inv cfg (Z.of_nat n)) (blocks grank client_waits) started_end p t client_end)
    (threads c) tss ->
  client_inv_at cfg (Z.of_nat n) g (shared c) (concat tss) -> closes_returned c ->
  cl_closed (shared c) = true /\
  forall l x, Won l ∈ concat tss -> x ∈ l -> evidence (concat tss) x.
Proof.
  intros Hts HI [Hn Hret].
  assert (Hsub : forall i t, tss !! i = Some t -> t ⊆ concat tss).
  { intros i t Hi x Hx. apply list_elem_of_In, in_concat. exists t. split; apply list_elem_of_In; [|done].
    by eapply list_elem_of_lookup_2. }
  assert (Hend : forall i, (i < n)%nat -> exists t, tss !! i = Some t /\ close_end t).
  { intros i Hi. destruct (Hret i Hi) as [e He].
    destruct (Forall2_lookup_l _ _ _ _ _ Hts He) as (t & Hti & Hcwp). by exists t. }
  assert (Hpos : forall z, 0 <= w_right z) by (intros []; simpl; lia).
  assert (Hone : forall i, (i < n)%nat -> exists t, tss !! i = Some t /\ 1 <= weigh w_right t).
  { intros i Hi. destruct (Hend i Hi) as (t & Ht & _ & [(l & Hl & _)|[Hl _]]); exists t; split; try done;
      [apply (weigh_elem w_right (Won l))|apply (weigh_elem w_right Lost)]; done. }
  assert (Hwon1 : weigh w_won (concat tss) <= 1).
  { rewrite (ci_won _ _ _ _ _ HI). destruct (cl_closed (shared c)); lia. }
  split.
  - destruct (Hend 0%nat Hn) as (t & Ht & _ & [(l & Hl & _)|[Hl _]]).
    + apply (Hsub _ _ Ht) in Hl. pose proof (ci_won _ _ _ _ _ HI) as Hw.
      pose proof (weigh_elem w_won (Won l) _ ltac:(by intros []) Hl) as Hge. simpl in Hge.
      destruct (cl_closed (shared c)); [done|lia].
    + apply (ci_lost _ _ _ _ _ HI). by apply (Hsub _ _ Ht).
  - intros l x Hl Hx. destruct (weigh_owner w_right n tss (Won l) Hpos Hone (ci_rights _ _ _ _ _ HI) Hl ltac:(done))
      as (i & t & Hi & Ht & Hlt).
    destruct (Hend i Hi) as (t' & Ht' & _ & Hcase). assert (t' = t) as -> by congruence.
    destruct Hcase as [(l' & Hl' & Hev)|[_ Hno]]; [|by destruct (Hno l)].
    assert (Hll : Won l = Won l').
    { apply (weigh_unique w_won (concat tss)); try done; [by intros []|by apply (Hsub _ _ Ht)]. }
    injection Hll as <-. eapply evidence_mono; [by apply (Hsub _ _ Ht)|]. by apply Hev.
Qed.

#[local] Existing Instances pool_waits_for life_waits_for.

(** Rights that wait with the client are not waited for. *)
Lemma rights_idle l x : x ∈ rights l -> grank x = 0%nat.
Proof.
  intros (r & Hr & Hx)%list_elem_of_In%in_concat. apply list_elem_of_In, list_elem_of_fmap in Hr as (c & -> & _).
  pose proof (right_idle c) as Hi. rewrite Forall_forall in Hi. by apply Hi, list_elem_of_In.
Qed.

Lemma owned_by_goroutine {Tok : Type} (f : gtok -> option Tok) (inj : Tok -> gtok) cs ts x o :
  (forall y z, f y = Some z -> y = inj z) -> x ∈ omap f (ts ++ held cs) -> (level o <= grank (inj x))%nat ->
  exists y, y ∈ ts /\ (level o <= grank y)%nat.
Proof.
  intros Hf (y & Hy & Hfy)%list_elem_of_omap Hr. apply Hf in Hfy as ->. exists (inj x). split; [|done].
  apply elem_of_app in Hy as [Hy|Hy]; [done|]. rewrite (rights_idle _ _ Hy) in Hr. destruct o; simpl in Hr; lia.
Qed.

#[export] Instance client_waits_for : WaitsFor (client_inv cfg (Z.of_nat n)) grank client_waits.
Proof.
  split; [|intros [i x|i x| | | | | |]; simpl; try lia; [destruct x; simpl; lia|unfold life_rank; repeat case_decide; lia]].
  intros o cs ts [g HI] [(i & st & Hst & Hw)|(i & st & Hst & Hw)].
  - pose proof (ci_senders _ _ _ _ _ HI) as [Hl Hp].
    destruct (lookup_lt_is_Some_2 (n_senders g) i) as [s Hs]; [rewrite Hl; by eapply lookup_lt_Some|].
    destruct (waits_for o st _ (Hp i s st Hs Hst) Hw) as (x & Hx & Hr).
    eapply (owned_by_goroutine (s_tok i) (TS i)); [|exact Hx|exact Hr].
    intros [] z; simpl; try done. case_decide; [|done]. by intros [= ->]; subst.
  - pose proof (ci_listeners _ _ _ _ _ HI) as [Hl Hp].
    destruct (lookup_lt_is_Some_2 (n_listeners g) i) as [s Hs]; [rewrite Hl; by eapply lookup_lt_Some|].
    destruct (waits_for o st _ (Hp i s st Hs Hst) Hw) as (x & Hx & Hr).
    eapply (owned_by_goroutine (l_tok i) (TL i)); [|exact Hx|exact Hr].
    intros [] z; simpl; try done. case_decide; [|done]. by intros [= ->]; subst.
Qed.

Lemma client_end_idle : idle_end grank client_end.
Proof.
  intros o t x Ho Hf Hx. assert (Hi : Forall idle t).
  { destruct o as [[e|]|v| | |]; try done. apply Ho. }
  rewrite Forall_forall in Hi. by apply Hi.
Qed.

End client_claims.

(** A sender within its limit, holding usable connections only. *)
Definition within_limits (w : World) (c : component) : Prop :=
  match c with
  | TheSender i s => exists st, w_senders w !! i = Some st /\
      Z.of_nat (length (pool st)) <= created st <= s_maxConns s /\ Forall (conn_ready s) (pool st)
  | TheListener i l => exists st, w_listeners w !! i = Some st /\
      Z.of_nat (length (l_errs st)) <= l_concurrency l /\ length (l_states st) = Z.to_nat (l_concurrency l)
  | TheRR i _ => exists st, w_rrs w !! i = Some st
  end.

Lemma named_within `{MQBinding} `{GoArch} cfg N g cs ts c :
  client_inv_at cfg N g cs ts -> named g c -> within_limits (cl_world cs) c.
Proof.
  intros HI Hn. pose proof (ci_typed _ _ _ _ _ HI c Hn) as Ht. destruct c as [i s|i l|i r]; simpl in *.
  - destruct (comps_ok_lookup pool_inv _ _ _ _ _ (ci_senders _ _ _ _ _ HI) Hn) as (st & Hst & [Hs _ Hm _ _ Hr _ _ _]).
    exists st. split_and!; try done. pose proof (cnt_nonneg Slot (omap (s_tok i) (ts ++ held cs))). lia.
  - destruct (comps_ok_lookup life_inv _ _ _ _ _ (ci_listeners _ _ _ _ _ HI) Hn) as (st & Hst & Hp).
    exists st. split_and!; [done| |apply (li_len _ _ _ Hp)]. pose proof (li_room _ _ _ Hp) as Hroom. unfold slots in Hroom.
    pose proof (weigh_nonneg w_room (omap (l_tok i) (ts ++ held cs)) w_room_nonneg). lia.
  - destruct (comps_ok_lookup rr_inv _ _ _ _ _ (ci_rrs _ _ _ _ _ HI) Hn) as (st & Hst & _). eauto.
Qed.

Section theorems.
Context `{MQBinding} `{GoArch}.
Variables (cfg0 : Config) (client : Config * ClientState) (n : nat) (apps : list app).
Hypothesis (Hnew : NewClient cfg0 = inl client) (Happs : Forall (app_ok []) apps).

Lemma client_all_inv c :
  client_reachable (client_machine client n apps) c ->
  machine_inv (client_inv client.1 (Z.of_nat n)) (blocks grank client_waits) started_end client_end c.
Proof.
  intros Hr. destruct client as [cfg cs0]. pose proof (sw_def _ _ (wf_init _ _ _ Hnew)) as Hdef.
  pose proof (NewClient_fresh _ _ _ Hnew) as ->.
  by apply (client_machine_inv cfg n apps).
Qed.

(** Once every call of Close has returned, what it took is shut. *)
Lemma client_shut c :
  client_reachable (client_machine client n apps) c -> closes_returned n c ->
  cl_closed (shared c) = true /\
  forall x, x ∈ cl_probers (shared c) -> x ∈ cl_closers (shared c) \/ shut (cl_world (shared c)) x.
Proof.
  intros Hr Hret. destruct (client_all_inv c Hr) as (tss & Hts & g & HI).
  destruct (close_effect client.1 n c g tss Hts HI Hret) as [Hcl Hev]. split; [done|].
  intros x Hx. destruct (ci_tracked _ _ _ _ _ HI x) as [?|(l & Hl & Hxl)]; [by right|by left|right].
  eapply evidence_shut; [exact HI|apply (ci_named _ _ _ _ _ HI); auto|by eapply Hev].
Qed.

(** C1: a client under any interleaving.  Whatever goroutines an application runs
    on one client, whichever components they make, share and use, whatever its message
    handlers and the goroutines these start do with them, and however many goroutines
    call Close, in every state they can reach: every component the client knows
    respects its limits, and no goroutine is stuck giving a connection back or
    reporting a consumer's error.  Once every call of Close has returned, the client
    is closed, and each of its components is shut (a sender is closed with no send in
    flight, a listener is closed with no consumer running and no connection held, a
    request-reply client is closed), except those that were registered too late for
    Close, which are still in the list of closers. *)
Theorem client_interleaving c :
  client_reachable (client_machine client n apps) c ->
  let cs := shared c in
  Forall (within_limits (cl_world cs)) (cl_probers cs) /\
  (forall p, p ∈ threads c -> ~ stuck_on ChanSend p cs) /\
  (closes_returned n c ->
     cl_closed cs = true /\
     forall x, x ∈ cl_probers cs -> x ∈ cl_closers cs \/ shut (cl_world cs) x).
Proof.
  intros Hr cs. pose proof (client_all_inv c Hr) as Hm. pose proof Hm as (tss & Hts & g & HI). fold cs in HI.
  assert (Hn : forall x, x ∈ cl_probers cs -> named g x) by (intros x Hx; apply (ci_named _ _ _ _ _ HI); auto).
  split_and!.
  - apply Forall_forall. intros x Hx. eapply named_within; [exact HI|auto].
  - intros p Hp Hst. destruct (machine_inv_stuck (client_inv client.1 (Z.of_nat n)) (blocks grank client_waits)
      started_end (Inv_proper := client_inv_proper _ _) client_end c ChanSend p Hm Hp Hst)
      as (t & _ & [(i & st & _ & [])|(i & st & _ & [])]).
  - by apply client_shut.
Qed.

(** In every reachable state all goroutines have ended, or one can move, or a
    consumer has used up its fuel. *)
Lemma client_progress c :
  client_reachable (client_machine client n apps) c ->
  Forall (fun p => finished p = true) (threads c) \/ OutOfFuel ∈ threads c \/ can_step (fun _ => AppDone) c.
Proof.
  intros Hr. exact (no_deadlock (client_inv client.1 (Z.of_nat n)) grank client_waits started_end client_end
    (fun _ => AppDone) (Inv_proper := client_inv_proper _ _) c client_end_idle (client_all_inv c Hr)).
Qed.


(** A call of Close ends by returning an error value. *)
Lemma close_thread c i :
  client_reachable (client_machine client n apps) c -> (i < n)%nat ->
  exists p, threads c !! i = Some p /\ (finished p = true -> p <> OutOfFuel -> exists e, p = Ret (CloseDone e)).
Proof.
  intros Hr Hi.
  destruct (always_at (traffic (fun _ _ => True) (fun _ _ => True)) settles (fun _ => AppDone)
    (fun o => match o with Returned (CloseDone _) => True | _ => False end) i _ _ Hr) as (p & Hp & Ha).
  - exists close_goroutine. split.
    { simpl. rewrite lookup_app_l by (by rewrite repeat_length).
      destruct (lookup_lt_is_Some_2 (repeat close_goroutine n) i) as [p Hp]; [by rewrite repeat_length|].
      pose proof (list_elem_of_lookup_2 _ _ _ Hp) as Hin. apply list_elem_of_In, repeat_spec in Hin. by subst. }
    apply always_bind. eapply always_mono; [|apply safe_Client_Close]. by intros [].
  - exists p. split; [done|]. intros Hf Hn. destruct p as [[e|]| | | | | |]; try done. by exists e.
Qed.


End theorems.

(** ** Witnesses *)

(** An echo service: a goroutine makes a sender, a listener and a request-reply
    client, and leaves it to another goroutine to listen; the handler starts a
    goroutine that asks for the client's health, and sends what it received to the
    sender's queue. *)
Definition echo (i : nat) (s : Sender) : callbacks := fun _ c msg _ =>
  Launch (Do AskHealth (fun _ => Stop)) (React (QSend i s c "" (Some (body_creator "echo")))
    (fun r => Answer (UserReturns (default Message_zero msg) (match r with inl (_, e) => e | inr _ => None end)))).

Definition echo_app : app :=
  Do (Quick (QNewSender "" [3])) (fun x =>
    match x with
    | inl (i, s) =>
        Do (Quick (QNewListener "DEV.QUEUE.1" [LConcurrency 1])) (fun y =>
          match y with
          | inl (j, l) => Go (Do (Listen j l 300 300 0 7 (echo i s)) (fun _ => Stop))
                            (Do (Quick (QNewRR "DEV.REQ" [])) (fun _ => Stop))
          | inr _ => Stop
          end)
    | inr _ => Stop
    end).

Lemma echo_app_ok : Forall (app_ok []) [echo_app].
Proof.
  apply Forall_singleton. split; [exact I|]. intros [[i s]|v]; [|exact I].
  split; [exact I|]. intros [[j l]|v]; [|exact I]. split.
  - split; [|intros x; exact I]. split; [by left|]. intros g c msg e. split; [by split|]. split; [|intros x; exact I].
    split; [set_solver|]. intros f Hf. injection Hf as <-. apply creator_ok_body.
  - split; [exact I|]. intros x. exact I.
Qed.

Definition demo_client : Config * ClientState := (demo_cfg, ClientState_init).

Lemma demo_client_new : NewClient demo_input = inl demo_client.
Proof. reflexivity. Qed.

(** The listener's context is cancelled after a while. *)
Definition demo_script : script :=
  mkScript (repeat None 6 ++ repeat (Some Canceled) 9) [] [] [] [] [] [] [] 1.

Definition echo_machine (n : nat) : machine ClientState client_result :=
  @client_machine ibm_binding amd64 demo_client n [echo_app].

Definition echo_run (n : nat) (sched : list nat) : machine ClientState client_result :=
  exec scripted (fun _ => AppDone) sched (echo_machine n) demo_script.

(** The handler is sending, Start waits for its consumer, and Close for Start. *)
Definition echo_waiting : list nat :=
  repeat 1%nat 40 ++ repeat 2%nat 20 ++ repeat 3%nat 23 ++ repeat 0%nat 10.

Definition echo_done : machine ClientState client_result :=
  echo_run 1 (echo_waiting ++ repeat 3%nat 90 ++ repeat 2%nat 10 ++ repeat 0%nat 30 ++ repeat 4%nat 20).

Lemma echo_reachable n sched : client_reachable (echo_machine n) (echo_run n sched).
Proof. apply exec_reachable, scripted_ok. Qed.

Lemma client_interleaving_witness :
  length (cl_probers (shared echo_done)) = 3%nat /\
  Forall (shut (cl_world (shared echo_done))) (cl_probers (shared echo_done)).
Proof.
  split; [vm_compute; reflexivity|].
  destruct (@client_interleaving ibm_binding amd64 demo_input demo_client 1 [echo_app] demo_client_new echo_app_ok
    echo_done (echo_reachable 1 _)) as (_ & _ & Hret).
  destruct Hret as [_ Hshut].
  - split; [lia|]. intros i Hi. replace i with 0%nat by lia. eexists. vm_compute. reflexivity.
  - apply Forall_forall. intros x Hx. destruct (Hshut x Hx) as [Hin|Hs]; [|exact Hs].
    exfalso. revert Hin. vm_compute (cl_closers _). by intros ?%not_elem_of_nil.
Defined.

Lemma echo_app_fuelled k : (k <= 300)%nat -> Forall (fuelled k) [echo_app].
Proof.
  intros Hk. apply Forall_singleton. split; [exact I|]. intros [[i s]|v]; [|exact I].
  split; [exact I|]. intros [[j l]|v]; [|exact I]. by repeat split.
Qed.


