(* ===== verification/ClientRaces.v ===== *)
(** * What Close does not wait for, and where it must not be called

    Concrete interleavings of a client: a call of Close that returns before the
    components are closed because another call is closing them, a request-reply call
    that outlives Close, and a message handler that calls Close. *)

From Stdlib Require Import ZArith Lia.
From stdpp Require Import base numbers list option strings gmap relations.
From S2P Require Import Prelude GoErrors Float64 Config Mqi GoProg Always Compose Script Backoff Connection.
From S2P Require Import Telemetry Wire Sender Listener RequestReply Health.
From S2P Require Import SenderPool ListenerLife Client Session ClientLogic ClientLife.

Local Open Scope Z_scope.
Local Open Scope go_scope.

(** ** Close returns early *)

(** A goroutine makes a sender and a request-reply client, and starts one goroutine
    that sends and one that makes a request. *)
Definition busy_app : app :=
  Do (Quick (QNewSender "" [3])) (fun x =>
    match x with
    | inl (i, s) =>
        Do (Quick (QNewRRFixed "DEV.REQ" "DEV.REPLY" [])) (fun y =>
          match y with
          | inl (j, r) =>
              Go (Do (Quick (QSend i s 0 "" (Some (body_creator "hi")))) (fun _ => Stop))
                 (Go (Do (Quick (QRequestReply j r 0 (Some (body_creator "hi")) (5 * Second))) (fun _ => Stop)) Stop)
          | inr _ => Stop
          end)
    | inr _ => Stop
    end).

Definition busy_machine (n : nat) : machine ClientState client_result :=
  @client_machine ibm_binding amd64 demo_client n [busy_app].

(** Two calls of Close while a Send is in flight: the first waits for it. *)
Definition second_close : machine ClientState client_result :=
  exec scripted (fun _ => AppDone) (repeat 2%nat 60 ++ repeat 3%nat 4 ++ repeat 0%nat 10 ++ repeat 1%nat 5)
    (busy_machine 2) calm.

(** One call of Close while a request waits for its reply. *)
Definition close_over_request : machine ClientState client_result :=
  exec scripted (fun _ => AppDone) (repeat 1%nat 60 ++ repeat 3%nat 8 ++ repeat 0%nat 40) (busy_machine 1) calm.

(** The goroutine is about to wait for a message. *)
Definition about_to_get {S A : Type} (p : prog S A) : bool :=
  match p with Ext e _ => match e with GetSlice _ _ _ _ => true | _ => false end | _ => false end.

Lemma busy_app_ok : Forall (app_ok []) [busy_app].
Proof.
  assert (Hc : forall f, Some (body_creator "hi") = Some f -> creator_ok f).
  { intros f Hf. injection Hf as <-. apply creator_ok_body. }
  apply Forall_singleton. split; [exact I|]. intros [[i s]|v]; [|exact I].
  split; [exact I|]. intros [[j r]|v]; [|exact I]. split; [|split; [|exact I]].
  - split; [split; [set_solver|exact Hc]|intros x; exact I].
  - split; [split; [set_solver|exact Hc]|intros x; exact I].
Qed.

(** C26: Close can return before what it documents.  The application is a lawful one.
    When two goroutines call Close, the second call returns nil at once, here while
    the first still waits for a Send in flight; and a call of Close that has closed
    everything returns while a request-reply call is still to wait for its reply. *)
Theorem Close_returns_early :
  Forall (app_ok []) [busy_app] /\
  client_reachable (busy_machine 2) second_close /\
  threads second_close !! 1%nat = Some (Ret (CloseDone None)) /\
  stuck_thread WgWait 0 second_close /\ map wg (w_senders (cl_world (shared second_close))) = [1] /\
  client_reachable (busy_machine 1) close_over_request /\
  threads close_over_request !! 0%nat = Some (Ret (CloseDone None)) /\
  map about_to_get (threads close_over_request) = [false; false; false; true] /\
  map rr_closed (w_rrs (cl_world (shared close_over_request))) = [true].
Proof.
  split; [exact busy_app_ok|]. split; [apply exec_reachable, scripted_ok|]. split; [vm_compute; reflexivity|].
  split; [vm_compute; split; reflexivity|]. split; [vm_compute; reflexivity|].
  split; [apply exec_reachable, scripted_ok|]. repeat (split; [vm_compute; reflexivity|]). vm_compute. reflexivity.
Qed.

(** ** Close in a message handler *)

(** The message handler of a listener calls Close and returns its error. *)
Definition closing_handler (_ : nat) (_ : Ctx) (msg : option Message) (_ : error) : prog ClientState user_answer :=
  do! e <- Client_Close; Ret (UserReturns (default Message_zero msg) e).

Definition closing_app `{MQBinding} `{GoArch} (cfg : Config) : prog ClientState client_result :=
  do! '(j, l) <- NewListener cfg "DEV.QUEUE.1" [WithListenerConcurrency 1];
  link closing_handler (in_world (on_listener j (Start 4 4 l 0 (user_handler 7)))) ;;;
  Ret AppDone.

Definition closing_machine : machine ClientState client_result :=
  mkMachine ClientState_init [@closing_app ibm_binding amd64 demo_cfg].

(** The listener has received a message and handed it to its handler. *)
Definition closing_run : machine ClientState client_result :=
  exec scripted (fun _ => AppDone) (repeat 0%nat 40 ++ repeat 1%nat 60) closing_machine calm.

Lemma two_stuck {S A : Type} (l0 l1 : chanop) (c : machine S A) :
  stuck_thread l0 0 c -> stuck_thread l1 1 c -> length (threads c) = 2%nat -> halted c.
Proof.
  unfold stuck_thread, halted. destruct (threads c) as [|p0 [|p1 [|]]]; simpl; try done.
  intros H0 H1 _. constructor; [|constructor; [|constructor]]; eauto.
Qed.

(** C27: a message handler that calls Close.  Close waits for Start, Start for its
    consumer, and the consumer for the handler that called Close: the machine reaches
    a state in which nobody has ended and nobody will ever move again. *)
Theorem Close_in_handler_deadlocks :
  client_reachable closing_machine closing_run /\
  stuck_thread WgWait 0 closing_run /\ stuck_thread ChanRecv 1 closing_run /\
  length (threads closing_run) = 2%nat /\ ~ can_step (fun _ => AppDone) closing_run.
Proof.
  assert (Hs : stuck_thread WgWait 0 closing_run /\ stuck_thread ChanRecv 1 closing_run /\
    length (threads closing_run) = 2%nat).
  { split; [vm_compute; split; reflexivity|]. split; [vm_compute; split; reflexivity|]. vm_compute. reflexivity. }
  destruct Hs as (H0 & H1 & Hl). split; [apply exec_reachable, scripted_ok|].
  split; [exact H0|]. split; [exact H1|]. split; [exact Hl|].
  apply halted_no_step. exact (two_stuck _ _ _ H0 H1 Hl).
Qed.
