(* ===== verification/ExampleEnv.v ===== *)
(** * How the example programs read their environment

    [requireEnv] and [intEnv] of src/examples (each program has its own copy of the
    same code), over the environment as a function: os.Getenv returns the empty
    string for a variable that is not set.  log.Fatal ends the process before
    anything was created, so it is the error of a sum. *)

From Stdlib Require Import ZArith Lia Ascii String.
From stdpp Require Import base numbers list option strings pretty.
From S2P Require Import Prelude GoErrors Config Mqi GoProg.

Local Open Scope Z_scope.

(** Why a program gave up before it started. *)
Inductive fatal :=
| FatalMissing (key : string)
| FatalNotPositive (key value : string)
| FatalNoReplyQueue
| FatalClient (e : err).

(** How a goroutine of a program ends: main returns, which ends the process; the
    others just end. *)
Inductive process_end := MainReturned | GoroutineEnded.

Abbreviation process_step := (cstep (fun _ => GoroutineEnded)).

Abbreviation process_reachable := (reachable (fun _ => GoroutineEnded)).

Definition environ : Type := string -> string.

Definition or_fatal {A B : Type} (x : A + fatal) (k : A -> B + fatal) : B + fatal :=
  match x with inl a => k a | inr e => inr e end.

Notation "'let!' x <- e ; k" := (or_fatal e (fun x => k))
  (at level 10, x name, e at level 100, k at level 200) : go_scope.

Local Open Scope go_scope.

(** strconv.Atoi on a 64-bit platform: an optional sign, then decimal digits, in
    the range of an int. *)
Definition digit_value (c : ascii) : option Z :=
  let n := Z.of_nat (nat_of_ascii c) in
  if (48 <=? n) && (n <=? 57) then Some (n - 48) else None.

Fixpoint read_digits (acc : Z) (s : string) : option Z :=
  match s with
  | EmptyString => Some acc
  | String c s =>
      match digit_value c with
      | Some d => read_digits (acc * 10 + d) s
      | None => None
      end
  end.

Definition split_sign (s : string) : bool * string :=
  match s with
  | String "-"%char r => (true, r)
  | String "+"%char r => (false, r)
  | _ => (false, s)
  end.

Definition Atoi (s : string) : option Z :=
  let (neg, ds) := split_sign s in
  match ds with
  | EmptyString => None
  | _ =>
      match read_digits 0 ds with
      | Some n =>
          let n := if neg then - n else n in
          if (- 2 ^ 63 <=? n) && (n <? 2 ^ 63) then Some n else None
      | None => None
      end
  end.

(** [requireEnv] and [intEnv]. *)
Definition requireEnv (getenv : environ) (key : string) : string + fatal :=
  if String.eqb (getenv key) "" then inr (FatalMissing key) else inl (getenv key).

Definition intEnv (getenv : environ) (key : string) (defaultVal : Z) : Z + fatal :=
  if String.eqb (getenv key) "" then inl defaultVal else
  match Atoi (getenv key) with
  | Some n => if n <? 1 then inr (FatalNotPositive key (getenv key)) else inl n
  | None => inr (FatalNotPositive key (getenv key))
  end.

(** ** Reading back what was printed *)

Lemma digit_value_char x : (x < 10)%N -> digit_value (pretty_N_char x) = Some (Z.of_N x).
Proof.
  intros Hx. assert (Hc : x = 0%N \/ x = 1%N \/ x = 2%N \/ x = 3%N \/ x = 4%N \/ x = 5%N \/ x = 6%N \/
    x = 7%N \/ x = 8%N \/ x = 9%N) by lia.
  repeat destruct Hc as [->|Hc]; [reflexivity..|]. by subst.
Qed.

Lemma read_digits_go x s : read_digits 0 (pretty_N_go x s) = read_digits (Z.of_N x) s.
Proof.
  revert s. induction (N.lt_wf_0 x) as [x _ IH]; intros s.
  destruct (decide (x = 0%N)) as [->|Hx]; [done|].
  rewrite pretty_N_go_step by lia. rewrite IH by (apply N.div_lt; lia). cbn [read_digits].
  rewrite digit_value_char by (apply N.mod_lt; lia). f_equal.
  pose proof (N.div_mod' x 10). lia.
Qed.

(** What is printed starts with a digit. *)
Lemma pretty_go_head x s :
  (0 < x)%N \/ (exists c r, s = String c r /\ digit_value c <> None) ->
  exists c r, pretty_N_go x s = String c r /\ digit_value c <> None.
Proof.
  revert s. induction (N.lt_wf_0 x) as [x _ IH]; intros s Hs.
  destruct (decide (x = 0%N)) as [->|Hx]; [destruct Hs; [lia|done]|].
  rewrite pretty_N_go_step by lia. apply IH; [apply N.div_lt; lia|]. right.
  eexists _, _. split; [done|]. rewrite digit_value_char by (apply N.mod_lt; lia). done.
Qed.

Lemma split_sign_digit c r : digit_value c <> None -> split_sign (String c r) = (false, String c r).
Proof. destruct c as [[] [] [] [] [] [] [] []]; try reflexivity; done. Qed.

Lemma Atoi_pretty n : 0 < n < 2 ^ 63 -> Atoi (pretty n) = Some n.
Proof.
  intros Hn. destruct n as [|p|p]; try lia.
  change (pretty (Zpos p)) with (pretty (Npos p)). unfold pretty, pretty_N. rewrite decide_False by done.
  destruct (pretty_go_head (Npos p) "") as (c & r & Heq & Hc); [left; lia|].
  unfold Atoi. rewrite Heq, split_sign_digit by done. rewrite <-Heq, read_digits_go. cbn [read_digits].
  rewrite (proj2 (Z.leb_le _ _)), (proj2 (Z.ltb_lt _ _)) by lia. done.
Qed.

(** Whether main has returned, to be evaluated on a concrete process. *)
Definition returned {S : Type} (p : prog S process_end) : bool :=
  match p with Ret MainReturned => true | _ => false end.

Lemma elem_returned {S : Type} (ps : list (prog S process_end)) : Ret MainReturned ∈ ps -> existsb returned ps = true.
Proof.
  induction ps as [|p ps IH]; [by intros ?%not_elem_of_nil|].
  intros [<-|Hin]%elem_of_cons; [done|]. simpl. rewrite IH by done. apply orb_true_r.
Qed.

(** What [intEnv] can answer. *)
Lemma intEnv_cases getenv key d :
  match intEnv getenv key d with
  | inl v => (getenv key = ""%string /\ v = d) \/ (getenv key <> ""%string /\ 1 <= v < 2 ^ 63)
  | inr e => getenv key <> ""%string /\ e = FatalNotPositive key (getenv key)
  end.
Proof.
  unfold intEnv. destruct (String.eqb_spec (getenv key) ""); [by left|].
  destruct (Atoi (getenv key)) as [v|] eqn:Ha; [|done]. destruct (Z.ltb_spec v 1); [done|]. right.
  split; [done|]. unfold Atoi in Ha. destruct (split_sign (getenv key)) as [neg ds], ds; [done|].
  destruct (read_digits 0 _) as [m|]; [|done]. cbn zeta in Ha.
  destruct ((_ <=? _) && (_ <? _)) eqn:Hr; simplify_eq. apply andb_true_iff in Hr as [_ Hr%Z.ltb_lt]. lia.
Qed.

(** ** Properties *)

(** A number printed in decimal is read back: for every n from 1 to the
    largest int, a variable set to n's decimal form is accepted as n.  Whatever the
    variable holds, an accepted value is the default, if the variable is not set, or
    a positive int; everything else is reported with the variable and its value. *)
Theorem intEnv_roundtrip getenv key d n :
  (getenv key = pretty n -> 0 < n < 2 ^ 63 -> intEnv getenv key d = inl n) /\
  match intEnv getenv key d with
  | inl v => (getenv key = ""%string /\ v = d) \/ (getenv key <> ""%string /\ 1 <= v < 2 ^ 63)
  | inr e => getenv key <> ""%string /\ e = FatalNotPositive key (getenv key)
  end.
Proof.
  split.
  - intros Hk Hn. unfold intEnv. rewrite Hk, Atoi_pretty by done.
    destruct (String.eqb_spec (pretty n) ""); [|by rewrite (proj2 (Z.ltb_ge _ _)) by lia].
    pose proof (Atoi_pretty n Hn) as Ha. by rewrite e in Ha.
  - apply intEnv_cases.
Qed.
