(* ===== verification/ExampleProcess.v ===== *)
(** * A program with one client and one listener goroutine

    What the two example programs have in common: main creates components, starts a
    goroutine that runs Start of a listener and sends its result on a channel of
    capacity one, works, cancels, receives the result and closes the client.  The
    logic of [ClientLife] sits inside the program's, whose tokens say which goroutine
    is main and who owes the result of Start; a second logic keeps account of the
    components main has registered. *)

From Stdlib Require Import ZArith Lia.
From stdpp Require Import base numbers list option strings gmap relations.
From S2P Require Import Prelude GoErrors Float64 Config Mqi GoProg Always Compose Script Backoff Connection.
From S2P Require Import Telemetry Wire Sender Listener RequestReply Health.
From S2P Require Import SenderPool ListenerLife Client Session Traffic ClientLogic ClientLife ExampleEnv.

Local Open Scope Z_scope.
Local Open Scope go_scope.

(** The state of such a program: its client, and the channel for Start's result. *)
Class Process (S : Type) := {
  p_client : S -> ClientState;
  p_set_client : ClientState -> S -> S;
  p_done : S -> list error;
  p_get_set : forall c s, p_client (p_set_client c s) = c;
  p_set_get : forall s, p_set_client (p_client s) s = s;
  p_done_set : forall c s, p_done (p_set_client c s) = p_done s
}.

(** A step of the program's own variables. *)
Definition private {S : Type} `{Process S} (s s' : S) : Prop := p_client s' = p_client s /\ p_done s' = p_done s.

(** ** Tokens *)

(** A token of the client; the goroutine of the listener, before and after it is
    started; main, as the receiver of the result, and as main. *)
Inductive ptok :=
| PC (x : gtok)
| ToListen
| Listening
| ToHear
| Main.

Definition pc (x : ptok) : option gtok := match x with PC y => Some y | _ => None end.

Definition w_listen (x : ptok) : Z := match x with ToListen | Listening => 1 | _ => 0 end.

Definition w_hear (x : ptok) : Z := match x with ToHear => 1 | _ => 0 end.

Definition w_main (x : ptok) : Z := match x with Main => 1 | _ => 0 end.

Definition prank (x : ptok) : nat :=
  match x with PC y => grank y | ToListen | Listening => 1%nat | _ => 0%nat end.

(** Tokens nobody waits for, other than main's. *)
Definition spare (x : ptok) : Prop := prank x = 0%nat /\ x <> Main.

Lemma omap_pc (t : list gtok) : omap pc (map PC t) = t.
Proof. induction t as [|x t IH]; [done|]. cbn [map omap list_omap pc]. by f_equal. Qed.

Lemma elem_pc x (ts : list ptok) : PC x ∈ ts <-> x ∈ omap pc ts.
Proof.
  rewrite list_elem_of_omap. split; [by exists (PC x)|]. intros ([] & Hy & [= ->]); done.
Qed.

Lemma weigh_pc w (t : list gtok) : (forall x, w (PC x) = 0) -> weigh w (map PC t) = 0.
Proof. intros Hw. apply weigh_zero, Forall_forall. by intros x (y & -> & _)%list_elem_of_fmap. Qed.

Lemma spare_pc (t : list gtok) : Forall idle t -> Forall spare (map PC t).
Proof. intros Ht. apply Forall_fmap. eapply Forall_impl; [exact Ht|]. by intros x Hx. Qed.

Section process.
Context `{MQBinding} `{GoArch} (cfg : Config) (Hcfg : config_defaulted cfg).
Context {S : Type} `{Process S}.

Record proc_inv (s : S) (ts : list ptok) : Prop := {
  pv_client : client_inv cfg 1 (p_client s) (omap pc ts);
  pv_listen : weigh w_listen ts + Z.of_nat (length (p_done s)) = weigh w_hear ts;
  pv_hear : weigh w_hear ts <= 1;
  pv_main : weigh w_main ts = 1
}.

#[export] Instance proc_inv_proper s : Proper ((≡ₚ) ==> iff) (proc_inv s).
Proof.
  assert (Hp : forall ts ts', ts ≡ₚ ts' -> proc_inv s ts -> proc_inv s ts').
  { intros ts ts' Hts []. split; by rewrite <-Hts. }
  intros ts ts' Hts. split; by apply Hp.
Qed.

(** Where its goroutines wait: where those of the client do, and main for the
    result of Start.  A goroutine that owns nothing may wait on a WaitGroup of the
    program for ever. *)
Definition proc_blocks (o : chanop) (s : S) (t : list ptok) : Prop :=
  (forall x, x ∈ t -> (prank x < level o)%nat) /\
  (client_waits o (p_client s) \/ (o = ChanRecv /\ ToHear ∈ t /\ p_done s = [])).

Definition proc_may_block (o : chanop) (s : S) (t : list ptok) : Prop :=
  proc_blocks o s t \/ (o = WgWait /\ t = []).

#[export] Instance proc_blocks_perm : PermBlock proc_blocks.
Proof.
  intros o s t t' Ht [Hl Hw]. split; [intros x; rewrite <-Ht; apply Hl|].
  destruct Hw as [?|(? & ? & ?)]; [by left|right]. by rewrite <-Ht.
Qed.

#[export] Instance proc_may_block_perm : PermBlock proc_may_block.
Proof.
  intros o s t t' Ht [Hb|[-> ->]]; [left; by eapply perm_block|].
  right. split; [done|]. by apply Permutation_nil_l in Ht.
Qed.

Lemma proc_blocks_spare o s t R : Forall spare R -> proc_blocks o s t -> proc_may_block o s (t ++ R).
Proof.
  intros HR [Hl Hw]. left. split.
  - rewrite Forall_forall in HR. intros x [Hx|Hx]%elem_of_app; [by apply Hl|]. destruct (HR x Hx) as [-> _].
    destruct o; simpl; lia.
  - destruct Hw as [?|(? & ? & ?)]; [by left|right]. split_and!; [done|apply elem_of_app; by left|done].
Qed.

#[local] Existing Instance client_waits_for.

#[export] Instance proc_yields : Yields proc_inv prank proc_may_block.
Proof.
  split.
  2:{ intros [x| | | |]; simpl; try lia. apply (rank_max (Inv := client_inv cfg (Z.of_nat 1)) (waits := client_waits)). }
  intros o s t F [Hc Hl Hh _] Hmb Hne. destruct Hmb as [[Hlow Hw]|[_ Hn]]; [|done].
  assert (Hy : exists y, y ∈ t ++ F /\ (level o <= prank y)%nat).
  { destruct Hw as [Hw|(-> & Hth & Hd)].
    - destruct (waits_for (Inv := client_inv cfg (Z.of_nat 1)) (rank := grank) o _ _ Hc Hw) as (y & Hy & Hr).
      exists (PC y). by rewrite elem_pc.
    - assert (1 <= weigh w_hear (t ++ F)).
      { apply (weigh_elem w_hear ToHear); [by intros []|]. apply elem_of_app. by left. }
      rewrite Hd in Hl. simpl in Hl. destruct (weigh_pos w_listen (t ++ F)) as (y & Hy & Hwy); [by intros []|lia|].
      exists y. split; [done|]. by destruct y. }
  destruct Hy as (y & Hy & Hr). exists y. split_and!; [done|destruct o; simpl in Hr; lia|].
  intros x Hx. specialize (Hlow x Hx). lia.
Qed.

(** What a goroutine started by the program owns when it ends. *)
Definition proc_fork (o : outcome unit) (t : list ptok) : Prop :=
  (Main ∉ t) /\ match o with Returned _ => Forall (fun x => prank x = 0%nat) t | NoFuel => True | _ => False end.

Abbreviation pcwp := (cwp proc_inv proc_may_block proc_fork).

(** ** The client inside the program *)

Lemma client_embeds mbT mbS (rest : ptok -> Prop) :
  (forall o s t R, Forall rest R -> mbT o (p_client s) t -> mbS o s (map PC t ++ R)) ->
  embeds p_client p_set_client PC (client_inv cfg 1) mbT started_end proc_inv mbS proc_fork [] rest.
Proof.
  intros Hmb. split; simpl.
  - intros s t F [Hc Hl Hh Hm]. exists (omap pc F). rewrite omap_app, omap_pc in Hc. split; [done|].
    intros x t' Hx. rewrite weigh_app, weigh_pc in Hl, Hh, Hm by done. 
    split; rewrite ?p_get_set, ?p_done_set, ?omap_app, ?omap_pc, ?weigh_app, ?(weigh_pc _ t') by done; try done.
    by rewrite weigh_app, (weigh_pc w_hear t) in Hl.
  - intros s t F _. apply p_set_get.
  - done.
  - intros o s t R F HR _ Ht. by apply Hmb.
  - intros o t Ho. rewrite app_nil_r. split; [by intros (y & [=] & _)%list_elem_of_fmap|].
    destruct o; try done. simpl in Ho. by rewrite Forall_fmap.
Qed.

(** A call of the client, with what else its goroutine owns. *)
Lemma pcwp_client {A : Type} (p : prog ClientState A) mbT mbS `{!PermBlock mbS} (rest : ptok -> Prop) t0 t R Q :
  (forall o s t R, Forall rest R -> mbT o (p_client s) t -> mbS o s (map PC t ++ R)) ->
  t0 ≡ₚ map PC t ++ R -> Forall rest R -> cwp (client_inv cfg 1) mbT started_end p t Q ->
  cwp proc_inv mbS proc_fork (zoom p_client p_set_client p) t0
    (fun o t' => exists u, t' ≡ₚ map PC u ++ R /\ Q o u).
Proof.
  intros Hmb Ht HR Hp. apply (cwp_perm _ _ _ _ (map PC t ++ R)).
  - intros o u u' Hu (v & Hv & HQ). exists v. by rewrite <-Hu.
  - done.
  - eapply cwp_mono; [|exact (cwp_component _ _ _ _ _ _ _ _ _ p [] rest (client_embeds _ _ _ Hmb) t Q R HR Hp)].
    intros o t' (u & -> & HQ). by exists u.
Qed.

(** ** Steps of the program's own variables *)

Lemma proc_private s s' ts : private s s' -> proc_inv s ts -> proc_inv s' ts.
Proof. intros [Hc Hd] []. by split; rewrite ?Hc, ?Hd. Qed.

Lemma pcwp_private {B : Type} (f : S -> B * S) t (Q : outcome B -> list ptok -> Prop) :
  (forall s, private s (f s).2) -> (forall b, Q (Returned b) t) -> pcwp (atomic f) t Q.
Proof. intros Hf HQ s F HI. exists t. split; [by eapply proc_private|apply HQ]. Qed.

Lemma pcwp_ext {B : Type} (e : ext B) t (Q : outcome B -> list ptok -> Prop) :
  (forall b, Q (Returned b) t) -> pcwp (lift (call e)) t Q.
Proof. intros HQ b _. apply HQ. Qed.

(** The result of Start is sent into an empty channel, and received once. *)
Lemma pcwp_report (f : S -> list (unit * S)) t t0 (Q : outcome unit -> list ptok -> Prop) :
  (forall s, p_done s = [] -> exists s', f s = [(tt, s')] /\ p_client s' = p_client s /\ length (p_done s') = 1%nat) ->
  t0 ≡ₚ Listening :: t -> Q (Returned tt) t -> pcwp (select ChanSend f) t0 Q.
Proof.
  intros Hf Ht HQ s F HI. rewrite Ht in HI. destruct HI as [Hc Hl Hh Hm]. simpl in *.
  pose proof (weigh_nonneg w_listen (t ++ F) ltac:(by intros [])) as Hge.
  destruct (Hf s) as (s' & Heq & Hcl & Hd); [destruct (p_done s); [done|simpl in Hl; lia]|]. rewrite Heq.
  split; [done|]. intros r ->%list_elem_of_singleton. exists t. split; [|done].
  split; simpl; rewrite ?Hcl, ?Hd; try done. destruct (p_done s); simpl in *; lia.
Qed.

Lemma pcwp_hear {B : Type} (f : S -> list (B * S)) t t0 (Q : outcome B -> list ptok -> Prop) :
  (forall s e, p_done s = [e] -> exists b s', f s = [(b, s')] /\ p_client s' = p_client s /\ p_done s' = []) ->
  (forall s, p_done s = [] -> f s = []) ->
  t0 ≡ₚ ToHear :: t -> (forall x, x ∈ t -> prank x = 0%nat) -> (forall b, Q (Returned b) t) ->
  pcwp (select ChanRecv f) t0 Q.
Proof.
  intros Hf He Ht Hlow HQ s F HI. rewrite Ht in HI. pose proof HI as [Hc Hl Hh Hm]. simpl in *.
  pose proof (weigh_nonneg w_hear (t ++ F) ltac:(by intros [])).
  pose proof (weigh_nonneg w_listen (t ++ F) ltac:(by intros [])).
  destruct (p_done s) as [|e [|]] eqn:Hd; simpl in Hl; [|..|lia].
  - rewrite (He s Hd). split; [|by intros r ?%not_elem_of_nil]. intros _. left. split.
    + intros x. rewrite Ht. intros [->|Hx]%elem_of_cons; [simpl; lia|]. rewrite (Hlow x Hx). simpl. lia.
    + right. split_and!; [done| |done]. rewrite Ht. by left.
  - destruct (Hf s e Hd) as (b & s' & -> & Hcl & Hd'). split; [done|]. intros r ->%list_elem_of_singleton.
    exists t. split; [|apply HQ]. split; simpl; rewrite ?Hcl, ?Hd'; simpl; try done; lia.
Qed.

(** ** Main between two calls *)

(** Main knows the components [K], and owns [R] besides. *)
Definition main_at (K : list component) (R t0 : list ptok) : Prop :=
  exists t, t0 ≡ₚ map PC t ++ R /\ share cfg K t.

Lemma main_at_start R : main_at [] R R.
Proof. exists []. split; [done|]. split; [constructor|]. by intros c ?%not_elem_of_nil. Qed.

(** Main makes a call that never waits, and gets to know what it made. *)
Lemma pcwp_main_call {B : Type} (p : prog ClientState B) (L : B -> list component) K R t0
    (Q : outcome B -> list ptok -> Prop) :
  (forall t, share cfg K t ->
     cwp (client_inv cfg 1) never started_end p t (fun o t' => exists b, o = Returned b /\ gains cfg (L b) t t')) ->
  main_at K R t0 -> (forall b t', main_at (L b ++ K) R t' -> Q (Returned b) t') ->
  pcwp (zoom p_client p_set_client p) t0 Q.
Proof.
  intros Hp (t & Ht & Hs) HQ. eapply cwp_mono; [|eapply (pcwp_client _ never _ (fun _ => True) t0 t R);
    [by intros ? ? ? ? _ []|done|by apply Forall_forall|by apply Hp]].
  intros o t' (u & Hu & b & -> & Hg). apply HQ. exists u. split; [done|]. by eapply share_gains.
Qed.

Lemma pcwp_main_NewSender q opts K R t0 (Q : outcome (nat * Sender) -> list ptok -> Prop) :
  main_at K R t0 -> (forall j s t', main_at (TheSender j s :: K) R t' -> Q (Returned (j, s)) t') ->
  pcwp (zoom p_client p_set_client (NewSender cfg q (map WithSenderConcurrency opts))) t0 Q.
Proof.
  intros Ht HQ. apply (pcwp_main_call _ (fun x => [TheSender x.1 x.2]) K R); [|done|intros []; apply HQ].
  intros t _. eapply cwp_mono; [|by apply (qcwp_NewSender cfg 1 Hcfg)]. intros o t' (j & s & -> & Hg). by exists (j, s).
Qed.

Lemma pcwp_main_NewListener q opts K R t0 (Q : outcome (nat * Listener) -> list ptok -> Prop) :
  main_at K R t0 -> (forall i l t', main_at (TheListener i l :: K) R t' -> Q (Returned (i, l)) t') ->
  pcwp (zoom p_client p_set_client (NewListener cfg q (map listener_option opts))) t0 Q.
Proof.
  intros Ht HQ. apply (pcwp_main_call _ (fun x => [TheListener x.1 x.2]) K R); [|done|intros []; apply HQ].
  intros t _. eapply cwp_mono; [|by apply (qcwp_NewListener cfg 1 Hcfg)]. intros o t' (i & l & -> & Hg). by exists (i, l).
Qed.

Lemma qcwp_returns {B : Type} (p : prog ClientState B) P RF t :
  always P RF p (fun o => match o with Returned _ => True | _ => False end) ->
  cwp (client_inv cfg 1) never started_end p t (fun o t' => ended o = true /\ grown t t') ->
  cwp (client_inv cfg 1) never started_end p t (fun o t' => exists b, o = Returned b /\ gains cfg [] t t').
Proof.
  intros Ha Hp. eapply cwp_mono; [|by eapply cwp_always]. intros o t' [[_ Hg] Ho]. destruct o as [b|v| | |]; try done.
  exists b. split; [done|]. split; [done|]. by intros c ?%not_elem_of_nil.
Qed.

(** The calls with a fixed body, which always come back. *)
Lemma qcwp_Send_body j s ctx body K t :
  TheSender j s ∈ K -> share cfg K t ->
  cwp (client_inv cfg 1) never started_end (in_world (on_sender j (Send s ctx body))) t
    (fun o t' => exists b, o = Returned b /\ gains cfg [] t t').
Proof.
  intros HK Hs. apply (qcwp_returns _ (traffic (fun _ _ => True) (fun _ _ => True)) settles).
  - unfold in_world, on_sender, Send. apply always_zoom, always_zoom. by apply (safe_SendWithCreator _ _ _ _ _ _ (fun _ => True)).
  - apply (qcwp_Send cfg 1 j s ctx "" _ K); [|done|done]. intros f [= <-]. apply creator_ok_body.
Qed.

Lemma qcwp_RequestReply_body i r ctx body timeout K t :
  TheRR i r ∈ K -> share cfg K t ->
  cwp (client_inv cfg 1) never started_end (in_world (on_rr i (RequestReply r ctx body timeout))) t
    (fun o t' => exists b, o = Returned b /\ gains cfg [] t t').
Proof.
  intros HK Hs. apply (qcwp_returns _ (traffic (fun _ _ => True) (fun _ _ => True)) settles).
  - unfold in_world, on_rr, RequestReply. apply always_zoom, always_zoom.
    apply (safe_RequestReply _ _ _ _ _ _ (fun _ => True)); try done. unfold opens_reply. by destruct (rr_mode r).
  - apply (qcwp_RequestReply cfg 1 i r ctx _ timeout K); [|done|done]. intros f [= <-]. apply creator_ok_body.
Qed.

Lemma qcwp_main_CloseRR i r K t :
  TheRR i r ∈ K -> share cfg K t ->
  cwp (client_inv cfg 1) never started_end (in_world (on_rr i RR_Close)) t
    (fun o t' => exists b, o = Returned b /\ gains cfg [] t t').
Proof.
  intros HK Hs. apply (qcwp_returns _ (traffic (fun _ _ => True) (fun _ _ => True)) settles).
  - unfold in_world, on_rr, RR_Close. apply always_zoom, always_zoom. always_go.
  - by apply (qcwp_CloseRR cfg 1 i r K).
Qed.

(** A send made by a message handler, whatever else its goroutine owns. *)
Lemma pcwp_handler_Send j s ctx dest creator t :
  (forall f, creator = Some f -> creator_ok f) -> comp_typed cfg (TheSender j s) ->
  pcwp (zoom p_client p_set_client (in_world (on_sender j (SendWithCreator s ctx dest creator))))
    (map PC (map Know [TheSender j s]) ++ t)
    (fun o t' => ended o = true /\ exists R, Forall spare R /\ t' ≡ₚ map PC (map Know [TheSender j s]) ++ t ++ R).
Proof.
  intros Hc Hty. eapply cwp_mono; [|eapply (pcwp_client _ never _ (fun _ => True) _ [Know (TheSender j s)] t);
    [by intros ? ? ? ? _ []|done|by apply Forall_forall|apply (qcwp_Send cfg 1 j s ctx dest creator [TheSender j s])]].
  - intros o t' (u & Hu & Ho & R & HR & Hg). split; [done|]. exists (map PC R). split; [by apply spare_pc|].
    rewrite Hu, Hg, map_app. solve_Permutation.
  - done.
  - by left.
  - split; [by repeat constructor|]. intros c ->%list_elem_of_singleton. split; [by left|done].
Qed.

(** Calls that may wait: main owns nothing that others wait for. *)
Lemma low_blocks o s t R :
  Forall (fun x => prank x = 0%nat) R -> blocks grank client_waits o (p_client s) t -> proc_may_block o s (map PC t ++ R).
Proof.
  intros HR [Hl Hw]. left. split; [|by left]. rewrite Forall_forall in HR. intros x [Hx|Hx]%elem_of_app.
  - apply list_elem_of_fmap in Hx as (y & -> & Hy). by apply Hl.
  - rewrite (HR x Hx). destruct o; simpl; lia.
Qed.

Lemma pcwp_main_Health K R t0 (Q : outcome HealthStatus -> list ptok -> Prop) :
  main_at K R t0 -> Forall (fun x => prank x = 0%nat) R -> (forall h t', main_at K R t' -> Q (Returned h) t') ->
  pcwp (zoom p_client p_set_client (Client_Health cfg)) t0 Q.
Proof.
  intros (t & Ht & Hs) HR HQ. eapply cwp_mono; [|eapply (pcwp_client _ _ _ _ t0 t R);
    [by apply low_blocks|done|done|by apply (gcwp_Health cfg 1 Hcfg K)]].
  intros o t' (u & Hu & [h ->] & Hg). apply HQ. exists u. split; [done|]. by eapply share_grown.
Qed.

(** What both programs end with: the health report, the cancellation, and the result
    of Start. *)
Lemma pcwp_main_finish {B C : Type} (f : S -> list (B * S)) ctx (c : C) K R t0 (Q : outcome C -> list ptok -> Prop) :
  (forall s e, p_done s = [e] -> exists b s', f s = [(b, s')] /\ p_client s' = p_client s /\ p_done s' = []) ->
  (forall s, p_done s = [] -> f s = []) ->
  main_at K (ToHear :: R) t0 -> Forall (fun x => prank x = 0%nat) R ->
  (forall t', main_at K R t' -> Q (Returned c) t') ->
  pcwp (zoom p_client p_set_client (Client_Health cfg) ;;; lift (call (CancelCtx ctx)) ;;;
        select ChanRecv f ;;; Ret c) t0 Q.
Proof.
  intros Hf He Ht HR HQ. apply cwp_bind, (pcwp_main_Health K (ToHear :: R)); [done|by constructor|].
  clear t0 Ht. intros h t0 (t & Ht & Hs). apply cwp_bind, pcwp_ext. intros [].
  apply cwp_bind, (pcwp_hear f (map PC t ++ R)); [done|done|by rewrite Ht; symmetry; apply Permutation_middle| |].
  - apply Forall_forall, Forall_app. split; [rewrite Forall_fmap; apply Hs|done].
  - intros b. apply HQ. by exists t.
Qed.

(** What main owns once it has called Close. *)
Definition main_done (t : list ptok) : Prop :=
  Forall (fun x => prank x = 0%nat) t /\ exists u, u ⊆ omap pc t /\ close_end u.

Lemma pcwp_main_Close K R t0 (Q : outcome error -> list ptok -> Prop) :
  main_at K (PC CloseRight :: R) t0 -> Forall (fun x => prank x = 0%nat) R ->
  (forall e t, main_done t -> Q (Returned e) t) ->
  pcwp (zoom p_client p_set_client Client_Close) t0 Q.
Proof.
  intros (t & Ht & [Hid _]) HR HQ.
  assert (HtR : Forall (fun x => prank x = 0%nat) (map PC t ++ R)) by (apply Forall_app; split; [by rewrite Forall_fmap|done]).
  eapply cwp_mono; [|eapply (pcwp_client _ _ _ (fun x => prank x = 0%nat) t0 [CloseRight] (map PC t ++ R));
    [by apply low_blocks| |exact HtR|by apply gcwp_Close]].
  - intros o t' (u & Hu & [e ->] & Hcl). apply HQ. split.
    + rewrite Hu. apply Forall_app. split; [|done]. rewrite Forall_fmap. apply Hcl.
    + exists u. split; [|done]. intros x Hx. rewrite Hu, omap_app, omap_pc. apply elem_of_app. by left.
  - rewrite Ht. simpl. solve_Permutation.
Qed.

(** ** Goroutines of main *)

(** The goroutine of the listener takes on the result of Start. *)
Lemma proc_fork_listener K L R t0 s F :
  main_at K (ToListen :: R) t0 -> L ⊆ K -> proc_inv s (t0 ++ F) ->
  exists t, main_at K R t /\ proc_inv s ((Listening :: map PC (map Know L)) ++ t ++ F).
Proof.
  intros (t & Ht & Hs) HL HI. exists (map PC t ++ R). split; [by exists t|].
  rewrite Ht in HI. destruct HI as [Hc Hl Hh Hm].
  rewrite !weigh_app in Hl, Hh, Hm. simpl in Hl, Hh, Hm. rewrite !weigh_app in Hl. simpl in Hl.
  split; simpl; rewrite ?weigh_app, ?(weigh_pc _ (map Know L)) by done; try lia.
  change (omap pc (Listening :: map PC (map Know L) ++ (map PC t ++ R) ++ F))
    with (omap pc (map PC (map Know L) ++ (map PC t ++ R) ++ F)).
  rewrite !omap_app, !omap_pc, <-!app_assoc in *. cbn [omap list_omap pc] in Hc.
  apply (inv_share_dup cfg 1 L t); [|done]. destruct Hs as [Hid Hk]. split; [done|]. intros c Hc'. by apply Hk, HL.
Qed.

Lemma pcwp_main_fork {A : Type} child (k : prog S A) K L R t0 (Q : outcome A -> list ptok -> Prop) :
  main_at K (ToListen :: R) t0 -> L ⊆ K ->
  ((forall c, c ∈ L -> comp_typed cfg c) -> pcwp child (Listening :: map PC (map Know L)) proc_fork) ->
  (forall t', main_at K R t' -> pcwp k t' Q) -> pcwp (Fork child k) t0 Q.
Proof.
  intros Ht HL Hc Hk s F HI. destruct (proc_fork_listener K L R t0 s F) as (t & Ht' & HI'); [done|done|done|].
  exists (Listening :: map PC (map Know L)), t. split_and!; [done| |by apply Hk].
  apply Hc. destruct Ht as (u & _ & Hs). intros c Hx. by apply Hs, HL.
Qed.

Lemma proc_fork_spare o t t' R : proc_fork o t -> Forall spare R -> t' ≡ₚ t ++ R -> proc_fork o t'.
Proof.
  intros [Hm Ho] HR Ht. split.
  - rewrite Ht, elem_of_app. intros [?|Hx]; [done|]. rewrite Forall_forall in HR. by destruct (HR _ Hx).
  - destruct o; try done. rewrite Ht. apply Forall_app. split; [done|]. eapply Forall_impl; [exact HR|]. by intros x [? _].
Qed.

(** Starting a listener, in a goroutine that owes its result. *)
Lemma pcwp_Start i l n m ctx h :
  comp_typed cfg (TheListener i l) ->
  cwp proc_inv proc_blocks proc_fork
    (zoom p_client p_set_client (in_world (on_listener i (Start n m l ctx (user_handler h)))))
    [PC (Know (TheListener i l)); Listening]
    (fun o t' => (exists e, o = Returned e) /\ exists R, Forall spare R /\ t' ≡ₚ Listening :: R).
Proof.
  intros Hl. eapply cwp_mono; [|eapply (pcwp_client _ start_may_wait _ (fun x => x = Listening) _
    [Know (TheListener i l)] [Listening]); [|done|by repeat constructor|apply (gcwp_Start cfg 1 i l n m ctx h [TheListener i l])]].
  - intros o t' (u & Hu & Ho & R & HR & Hg). split; [done|]. exists (map PC u). split; [|by rewrite Hu, Permutation_app_comm].
    apply spare_pc. rewrite Hg. apply Forall_app. split; [done|by repeat constructor].
  - intros o s t R HR [Ho [Hlow Hw]]. split; [|by left]. rewrite Forall_forall in HR.
    intros x [Hx|Hx]%elem_of_app; [apply list_elem_of_fmap in Hx as (y & -> & Hy); by apply Hlow|].
    rewrite (HR x Hx). destruct o; simpl; try done; lia.
  - by left.
  - split; [by repeat constructor|]. intros c ->%list_elem_of_singleton. split; [by left|done].
Qed.

(** The goroutine of the listener, with handlers [cb] that know the components [L];
    [f] sends its result. *)
Lemma pcwp_listen cb L i l n m ctx h f :
  (forall c, c ∈ L -> comp_typed cfg c) -> comp_typed cfg (TheListener i l) ->
  (forall g c msg er t, pcwp (cb g c msg er) (map PC (map Know L) ++ t)
     (fun o t' => ended o = true /\ exists R, Forall spare R /\ t' ≡ₚ map PC (map Know L) ++ t ++ R)) ->
  (forall s e, p_done s = [] ->
     exists s', f e s = [(tt, s')] /\ p_client s' = p_client s /\ length (p_done s') = 1%nat) ->
  pcwp (do! e <- link cb (zoom p_client p_set_client (in_world (on_listener i (Start n m l ctx (user_handler h)))));
        select ChanSend (f e))
    (Listening :: map PC (map Know (TheListener i l :: L))) proc_fork.
Proof.
  intros HL Hl Hcb Hf.
  assert (Hsh : share cfg L (map Know L)).
  { split; [apply Forall_forall; by intros x (c & -> & _)%list_elem_of_fmap|].
    intros c Hc. split; [by apply list_elem_of_fmap_2|auto]. }
  assert (HK : Forall spare (map PC (map Know L))) by apply spare_pc, Hsh.
  apply cwp_bind. eapply cwp_mono; [|eapply (cwp_link proc_inv spare proc_blocks proc_may_block proc_fork
    (map PC (map Know L)) HK) with (R := []); [|apply proc_fork_spare|apply proc_blocks_spare|exact Hcb| | |by apply pcwp_Start]].
  - intros o t' (u & R' & Ht' & HR' & [e ->] & R & HR & Hu).
    apply (pcwp_report _ (R ++ map PC (map Know L) ++ R')); [intros s; apply Hf|by rewrite Ht', Hu|].
    apply (proc_fork_spare _ [] _ (R ++ map PC (map Know L) ++ R')); [|by rewrite !Forall_app|done].
    split; [by apply not_elem_of_nil|constructor].
  - intros s F [Hc Hls Hh Hm].
    rewrite !weigh_app, (weigh_pc w_listen), (weigh_pc w_hear) in Hls by done.
    rewrite weigh_app, weigh_pc in Hh, Hm by done.
    split; rewrite ?weigh_app, ?(weigh_pc _ (map Know L)) by done; try lia.
    rewrite !omap_app, !omap_pc in *. by apply (inv_share_dup cfg 1 L (map Know L)).
  - simpl. rewrite app_nil_r. apply perm_swap.
  - constructor.
Qed.

(** ** How the program ends *)

(** What a goroutine owns when it ends. *)
Definition proc_end (o : outcome process_end) (t : list ptok) : Prop :=
  match o with
  | Returned MainReturned => main_done t
  | Returned GoroutineEnded => proc_fork (Returned tt) t
  | NoFuel => proc_fork NoFuel t
  | _ => False
  end.

(** What main owns at the start, and until it closes the client once it has started
    the listener. *)
Definition main_owns : list ptok := [PC CloseRight; Main].

Definition main_starts : list ptok := ToListen :: ToHear :: main_owns.

(** The body of main, whose deferred call closes the client. *)
Definition closing_main (body : prog S unit) : prog S process_end :=
  defer (zoom p_client p_set_client Client_Close ;;; Ret tt) body ;;; Ret MainReturned.

Lemma pcwp_closing_main body t :
  pcwp body t (fun o t' => o = Returned tt /\ exists K, main_at K main_owns t') -> pcwp (closing_main body) t proc_end.
Proof.
  intros Hb. unfold closing_main, defer. apply cwp_bind, cwp_tbind. eapply cwp_mono; [|exact Hb].
  intros o t' [-> (K & Ht)]. apply cwp_bind, cwp_bind.
  eapply pcwp_main_Close; [exact Ht|by repeat constructor|]. by intros e u Hu.
Qed.

Abbreviation proc_minv := (machine_inv proc_inv proc_may_block proc_fork proc_end).

Lemma proc_fork_post : fork_post proc_fork (fun _ => GoroutineEnded) proc_end.
Proof. intros o t Ho. destruct o as [[]|v| | |]; try done; apply Ho. Qed.

(** While main has not returned, somebody can move. *)
Lemma proc_progress c :
  proc_minv c -> Ret MainReturned ∈ threads c \/ OutOfFuel ∈ threads c \/ can_step (fun _ => GoroutineEnded) c.
Proof.
  intros (tss & Hts & HI). destruct (out_of_fuel_dec (threads c)) as [?|Hf]; [by right; left|].
  assert (Hmain : exists x, x ∈ concat tss /\ w_main x = 1).
  { apply weigh_pos; [intros []; simpl; lia|]. rewrite (pv_main _ _ HI). lia. }
  destruct Hmain as (x & Hx & Hwx). destruct x; try done.
  destruct (owner_progress proc_inv prank proc_may_block proc_fork proc_end (fun _ => GoroutineEnded)) with (c := c) (tss := tss) (x := Main)
    as [Hs|(p & t & Hp & Hm & Hfin & Hcwp)]; try done; [|by right; right|left].
  - intros o t y Ho Hn Hy. destruct o as [[]|v| | |]; try done; [destruct Ho as [Ho _]|destruct Ho as [_ Ho]];
      rewrite Forall_forall in Ho; by apply Ho.
  - destruct p as [[]|v| | | | |]; try done. by destruct Hcwp.
Qed.

(** Once main has returned, everything the client was told to close is shut. *)
Lemma proc_shutdown c :
  proc_minv c -> Ret MainReturned ∈ threads c ->
  let cs := p_client (shared c) in
  cl_closed cs = true /\ forall x, x ∈ cl_probers cs -> x ∈ cl_closers cs \/ shut (cl_world cs) x.
Proof.
  intros (tss & Hts & HI) [i Hi]%list_elem_of_lookup cs. destruct (Forall2_lookup_l _ _ _ _ _ Hts Hi) as (t & Hti & _ & u & Hu & Hend).
  destruct (pv_client _ _ HI) as [g HC]. fold cs in HC. set (T := omap pc (concat tss)) in *.
  assert (Hsub : forall x, x ∈ u -> x ∈ T).
  { intros x Hx%Hu%elem_pc. apply elem_pc. apply list_elem_of_In, in_concat. exists t.
    split; apply list_elem_of_In; [by eapply list_elem_of_lookup_2|done]. }
  assert (Hpos : forall w : gtok -> Z, (w = w_won \/ w = w_right) -> forall z, 0 <= w z) by (intros w [-> | ->] []; simpl; lia).
  pose proof (ci_won _ _ _ _ _ HC) as Hw. pose proof (ci_rights _ _ _ _ _ HC) as Hr.
  assert (Hwon : cl_closed cs = true /\ exists l, Won l ∈ u /\ forall x, x ∈ l -> evidence u x).
  { destruct Hend as [_ [(l & Hl & He)|[Hl _]]].
    - split; [|by exists l]. pose proof (weigh_elem w_won (Won l) T (Hpos _ ltac:(by left)) (Hsub _ Hl)) as Hge. simpl in Hge.
      destruct (cl_closed cs); [done|lia].
    - exfalso. apply Hsub in Hl. pose proof (ci_lost _ _ _ _ _ HC Hl) as Hcl. rewrite Hcl in Hw.
      destruct (weigh_pos w_won T) as (y & Hy & Hwy); [intros []; simpl; lia|lia|]. destruct y; try done.
      assert (Heq : Lost = Won cs0); [|done].
      apply (weigh_unique w_right T); try done; [by apply Hpos; right|lia]. }
  destruct Hwon as (Hcl & l & Hl & He). split; [done|]. intros x Hx.
  destruct (ci_tracked _ _ _ _ _ HC x) as [?|(l' & Hl' & Hxl)]; [by right|by left|right].
  assert (Heq : Won l' = Won l).
  { apply (weigh_unique w_won T); try done; [by apply Hpos; left|rewrite Hw, Hcl; lia|by apply Hsub]. }
  injection Heq as ->. eapply (evidence_shut cfg); [exact HC|apply (ci_named _ _ _ _ _ HC); auto|].
  eapply evidence_mono; [|by apply He]. intros y Hy. by apply Hsub.
Qed.

End process.

(** ** The components main has registered

    A second, coarser logic: main owns what the client's registry holds, so nobody
    else changes it; nothing is said about blocking. *)

Definition roster : Type := bool * list component * list component.

Definition roster_of (cs : ClientState) : roster := (cl_closed cs, cl_closers cs, cl_probers cs).

Definition same_roster (cs cs' : ClientState) : Prop := roster_of cs' = roster_of cs.

#[export] Instance same_roster_refl : Reflexive same_roster.
Proof. by intros cs. Qed.

Definition anywhere {S Tok : Type} (_ : chanop) (_ : S) (_ : list Tok) : Prop := True.

Definition owns_nothing (_ : outcome unit) (t : list roster) : Prop := t = [].

Definition client_roster (cs : ClientState) (ts : list roster) : Prop := ts = [roster_of cs].

(** A computation that leaves the registry alone, in any goroutine. *)
Lemma cwp_stays {S Tok A : Type} (Inv : S -> list Tok -> Prop) R (p : prog S A) :
  (forall s s' ts, R s s' -> Inv s ts -> Inv s' ts) -> stays R p ->
  forall t, cwp Inv anywhere (fun _ u => u = []) p t (fun _ t' => t' = t).
Proof.
  intros HR. induction p as [A a|A v|A|A B f k IH|A B l f k IH|A B e k IH|A c IHc k IHk]; intros Hp t; simpl in *; try done.
  - intros s F HI. exists t. split; [by eapply HR; [apply Hp|]|by apply IH, Hp].
  - intros s F HI. split; [done|]. intros r Hr. exists t. split; [by eapply HR; [by apply Hp|]|by apply IH, Hp].
  - intros b _. by apply IH.
  - intros s F HI. exists [], t. split_and!; [done|exact (IHc (proj1 Hp) [])|apply IHk, Hp].
Qed.

Lemma stays_world {A : Type} (p : prog World A) : stays same_roster (in_world p).
Proof.
  unfold in_world. induction p as [A a|A v|A|A B f k IH|A B l f k IH|A B e k IH|A c IHc k IHk]; simpl; try done.
  split; [|done]. by intros s r (r' & -> & _)%list_elem_of_fmap.
Qed.

Lemma stays_Health `{MQBinding} `{GoArch} cfg : stays same_roster (Client_Health cfg).
Proof.
  apply stays_bind; [by split|]. intros [closed ps]. apply stays_bind; [|by intros ds].
  generalize (@nil ConnectionStatus). induction ps as [|c ps IH]; intros ds; cbn [probe_all]; [done|].
  apply stays_bind; [apply stays_world|]. intros d. apply IH.
Qed.

Section roster.
Context `{MQBinding} `{GoArch} (cfg : Config) {S : Type} `{Process S}.

Definition proc_roster (s : S) (ts : list roster) : Prop := client_roster (p_client s) ts.

#[export] Instance proc_roster_proper s : Proper ((≡ₚ) ==> iff) (proc_roster s).
Proof.
  intros ts ts' Ht. unfold proc_roster, client_roster.
  split; intros ->; [by apply Permutation_singleton_l in Ht|by apply Permutation_singleton_r in Ht].
Qed.

Definition keeps (s s' : S) : Prop := same_roster (p_client s) (p_client s').

#[export] Instance keeps_refl : Reflexive keeps.
Proof. by intros s. Qed.

Lemma rcwp_keeps {A : Type} (p : prog S A) :
  stays keeps p -> forall t, cwp proc_roster anywhere owns_nothing p t (fun _ t' => t' = t).
Proof. apply cwp_stays. unfold proc_roster, client_roster. by intros s s' ts ->. Qed.

Lemma stays_client {A : Type} (p : prog ClientState A) :
  stays same_roster p -> stays keeps (zoom p_client p_set_client p).
Proof.
  induction p as [A a|A v|A|A B f k IH|A B l f k IH|A B e k IH|A c IHc k IHk]; simpl; intros Hp; try done.
  - split; [|intros b; apply IH, Hp]. intros s. unfold keeps. rewrite p_get_set. apply Hp.
  - split; [|intros b; apply IH, Hp]. intros s r (r' & -> & Hr)%list_elem_of_fmap. unfold keeps. simpl.
    rewrite p_get_set. by apply Hp.
  - intros b. apply IH, Hp.
  - split; [by apply IHc, Hp|by apply IHk, Hp].
Qed.

Lemma stays_link cb {A : Type} (p : prog S A) :
  (forall f c m e, stays keeps (cb f c m e)) -> stays keeps p -> stays keeps (link cb p).
Proof.
  intros Hcb. induction p as [A a|A v|A|A B f k IH|A B l f k IH|A B e k IH|A c IHc k IHk]; simpl; intros Hp; try done.
  - split; [apply Hp|]. intros b. by apply IH, Hp.
  - split; [apply Hp|]. intros b. by apply IH, Hp.
  - destruct e; try (intros b; by apply IH). apply stays_tbind; [apply Hcb|]. intros r. by apply IH.
  - split; [by apply IHc, Hp|by apply IHk, Hp].
Qed.

(** A client's computation, in the client's own terms. *)
Lemma rcwp_client {A : Type} (p : prog ClientState A) :
  forall t Q, cwp client_roster anywhere owns_nothing p t Q ->
  cwp proc_roster anywhere owns_nothing (zoom p_client p_set_client p) t Q.
Proof.
  induction p as [A a|A v|A|A B f k IH|A B l f k IH|A B e k IH|A c IHc k IHk]; intros t Q Hp; simpl in *; try done.
  - intros s F HI. destruct (Hp _ F HI) as (t' & HI' & Hk). exists t'. unfold proc_roster. rewrite p_get_set. eauto.
  - intros s F HI. split; [done|]. intros r (r' & -> & Hr)%list_elem_of_fmap.
    destruct (proj2 (Hp _ F HI) r' Hr) as (t' & HI' & Hk). exists t'. unfold proc_roster. simpl. rewrite p_get_set. eauto.
  - intros b Hb. apply IH, Hp, Hb.
  - intros s F HI. destruct (Hp _ F HI) as (t1 & t2 & HI' & Hc & Hk). exists t1, t2. eauto.
Qed.

(** The factories add to both lists of the registry, Close empties the first. *)
Definition rostered (c : component) (r : roster) : roster := (r.1.1, r.1.2 ++ [c], r.2 ++ [c]).

Abbreviation rcwp := (cwp client_roster anywhere owns_nothing).

Lemma rcwp_atomic {B : Type} (f : ClientState -> B * ClientState) r (Q : outcome B -> list roster -> Prop) :
  (forall cs, roster_of cs = r -> exists r', roster_of (f cs).2 = r' /\ Q (Returned (f cs).1) [r']) ->
  rcwp (atomic f) [r] Q.
Proof.
  intros Hf cs F HI. injection HI as Hr ->. destruct (Hf cs) as (r' & <- & HQ); [done|].
  by exists [roster_of (f cs).2].
Qed.

Lemma rcwp_factory {X : Type} (mk : nat -> X -> component) (x : X) (f : ClientState -> nat * ClientState) r :
  (forall cs, roster_of (f cs).2 = roster_of cs) ->
  rcwp (do! i <- atomic f; register (mk i x) ;;; registerHealthProber (mk i x) ;;; Ret (i, x)) [r]
    (fun o t' => exists i, o = Returned (i, x) /\ t' = [rostered (mk i x) r]).
Proof.
  intros Hf. apply cwp_bind, rcwp_atomic. intros cs <-. exists (roster_of cs). split; [apply Hf|].
  generalize (f cs).1, (roster_of cs). clear cs. intros i r.
  apply cwp_bind, rcwp_atomic. intros cs <-. eexists. split; [done|].
  apply cwp_bind, rcwp_atomic. intros cs' Hr. eexists. split; [done|]. exists i. split; [done|].
  destruct cs, cs'. unfold roster_of in *. simpl in *. by simplify_eq.
Qed.

Lemma rcwp_NewListener q opts r :
  rcwp (NewListener cfg q (map listener_option opts)) [r] (fun o t' => exists i l,
    o = Returned (i, l) /\ l_queue l = q /\ t' = [rostered (TheListener i l) r]).
Proof.
  apply cwp_bind, cwp_lift; [apply ext_only_newMQTelemetry|]. apply wp_newMQTelemetry. intros tel tr _.
  eapply cwp_mono; [|by apply (rcwp_factory TheListener)]. intros o t' (i & -> & ->). do 2 eexists. split_and!; [done| |done].
  by rewrite listener_options_spec.
Qed.

Lemma rcwp_NewSender q r :
  rcwp (NewSender cfg q []) [r] (fun o t' => exists i s, o = Returned (i, s) /\
    s_queue s = (if String.eqb q "" then OutputQueue cfg else q) /\ t' = [rostered (TheSender i s) r]).
Proof.
  apply cwp_bind, cwp_lift; [apply ext_only_newMQTelemetry|]. apply wp_newMQTelemetry. intros tel tr _.
  eapply cwp_mono; [|by apply (rcwp_factory TheSender)]. intros o t' (i & -> & ->). by do 2 eexists.
Qed.

Lemma rcwp_new_rr q rq mode r :
  rcwp (new_rr cfg q rq mode []) [r] (fun o t' => exists i c, o = Returned (i, c) /\
    rr_requestQueue c = q /\ rr_replyQueue c = rq /\ t' = [rostered (TheRR i c) r]).
Proof.
  apply cwp_bind, cwp_lift; [apply ext_only_newMQTelemetry|]. apply wp_newMQTelemetry. intros tel tr _.
  eapply cwp_mono; [|by apply (rcwp_factory TheRR)]. intros o t' (i & -> & ->). by do 2 eexists.
Qed.

Lemma stays_close_all fns errs : stays same_roster (close_all fns errs).
Proof.
  revert errs. induction fns as [|c fns IH]; intros errs; cbn [close_all]; [done|].
  apply stays_bind; [apply stays_world|]. intros e. apply IH.
Qed.

Definition closed_roster (r : roster) : roster := (true, if r.1.1 : bool then r.1.2 else [], r.2).

Lemma rcwp_client_Close r : rcwp Client_Close [r] (fun _ t' => t' = [closed_roster r]).
Proof.
  apply cwp_bind, rcwp_atomic. intros cs <-. exists (closed_roster (roster_of cs)). destruct cs as [[] cls prs w]; [done|].
  split; [done|]. apply (cwp_stays client_roster same_roster); [|apply stays_close_all]. intros c c' ts Hc ->. by rewrite <-Hc.
Qed.

(** The rest of main, under its deferred call. *)
Lemma rcwp_rest (P : roster -> Prop) ctx (p : prog S unit) r :
  stays keeps p -> P r ->
  cwp proc_roster anywhere owns_nothing p [r] (fun o t' =>
    match o with
    | Returned a => cwp proc_roster anywhere owns_nothing (lift (call (CancelCtx ctx)) ;;; Ret a) t'
                      (fun _ t' => exists r, t' = [r] /\ P r)
    | Panicked v => cwp proc_roster anywhere owns_nothing (lift (call (CancelCtx ctx)) ;;; Panic (A := unit) v) t'
                      (fun _ t' => exists r, t' = [r] /\ P r)
    | NoFuel => exists r, t' = [r] /\ P r
    | Blocked | Crashed _ => True
    end).
Proof.
  intros Hp HP. eapply cwp_mono; [|by apply rcwp_keeps]. intros o t ->. destruct o; try done; [intros b _..|]; by exists r.
Qed.

Lemma rcwp_closing_main (P : roster -> Prop) body r :
  cwp proc_roster anywhere owns_nothing body [r] (fun _ t' => exists r', t' = [r'] /\ P r') ->
  cwp proc_roster anywhere owns_nothing (closing_main body) [r]
    (fun o t' => o = Returned MainReturned -> exists r', t' = [closed_roster r'] /\ P r').
Proof.
  intros Hb. unfold closing_main, defer. apply cwp_bind, cwp_tbind. eapply cwp_mono; [|exact Hb].
  intros o t (r' & -> & Hr').
  assert (Hc : forall p : prog S unit, stays keeps p ->
    cwp proc_roster anywhere owns_nothing ((zoom p_client p_set_client Client_Close ;;; Ret tt) ;;; p) [r']
      (fun o t => o = Returned tt -> t = [closed_roster r'])).
  { intros p Hp. apply cwp_bind, cwp_bind. eapply cwp_mono; [|apply rcwp_client, rcwp_client_Close].
    intros o' t ->. destruct o'; try done. cbn [cwp]. eapply cwp_mono; [|by apply rcwp_keeps]. by intros o' t ->. }
  destruct o as [[]|v| | |]; try done.
  - eapply cwp_mono; [|by apply (Hc (Ret tt))]. intros [[]|v| | |] t Ht; try done. intros _. exists r'. by rewrite Ht.
  - eapply cwp_mono; [|by apply (Hc (Panic v))]. intros [[]|v'| | |] t Ht; try done. intros _. exists r'. by rewrite Ht.
Qed.

(** What main leaves of the registry. *)
Lemma proc_registered (P : roster -> Prop) c :
  machine_inv proc_roster anywhere owns_nothing
    (fun o t => o = Returned MainReturned -> exists r, t = [closed_roster r] /\ P r) c ->
  Ret MainReturned ∈ threads c -> exists r, P r /\ roster_of (p_client (shared c)) = closed_roster r.
Proof.
  intros (tss & Hts & HI) [i Hi]%list_elem_of_lookup. destruct (Forall2_lookup_l _ _ _ _ _ Hts Hi) as (t & Ht & Hq).
  destruct (Hq eq_refl) as (r & -> & Hr). exists r. split; [done|].
  assert (Hin : closed_roster r ∈ concat tss).
  { apply list_elem_of_In, in_concat. exists [closed_roster r]. split; [|by left].
    by eapply list_elem_of_In, list_elem_of_lookup_2. }
  unfold proc_roster, client_roster in HI. rewrite HI in Hin. by apply list_elem_of_singleton in Hin.
Qed.

(** A process of a new client whose main satisfies both logics: while main has not
    returned somebody can move; once it has, the client is closed, its components are
    those main made, and all of them are shut. *)
Lemma process_ends (Hcfg : config_defaulted cfg) (P : roster -> Prop) s0 body c :
  p_client s0 = ClientState_init -> p_done s0 = [] ->
  cwp (proc_inv cfg) proc_may_block proc_fork body main_starts
    (fun o t' => o = Returned tt /\ exists K, main_at cfg K main_owns t') ->
  cwp proc_roster anywhere owns_nothing body [roster_of ClientState_init] (fun _ t' => exists r, t' = [r] /\ P r) ->
  process_reachable (mkMachine s0 [closing_main body]) c ->
  (Ret MainReturned ∈ threads c \/ OutOfFuel ∈ threads c \/ can_step (fun _ => GoroutineEnded) c) /\
  (Ret MainReturned ∈ threads c ->
     exists r, P r /\ roster_of (p_client (shared c)) = closed_roster r /\
       forall x, x ∈ r.2 -> x ∈ (closed_roster r).1.2 \/ shut (cl_world (p_client (shared c))) x).
Proof.
  intros Hs0 Hd0 Hp Hr Hreach.
  assert (Hm : machine_inv (proc_inv cfg) proc_may_block proc_fork proc_end c).
  { eapply (reachable_inv (proc_inv cfg) proc_may_block proc_fork); [exact proc_fork_post|exact Hreach|].
    exists [main_starts]. split; [constructor; [|constructor]|].
    - by apply pcwp_closing_main.
    - simpl. split; simpl; rewrite ?Hs0, ?Hd0; try done. by apply (client_inv_init cfg 1). }
  split; [by eapply proc_progress|]. intros Hmain.
  destruct (proc_registered P c) as (r & HP & Hro); [|done|].
  - eapply (reachable_inv proc_roster anywhere owns_nothing); [|exact Hreach|]; [by intros [[]|v| | |] t Ht|].
    exists [[roster_of ClientState_init]]. split; [constructor; [|constructor]|].
    + by apply rcwp_closing_main.
    + simpl. unfold proc_roster, client_roster. by rewrite Hs0.
  - exists r. split_and!; [done|done|]. intros x Hx. unfold roster_of, closed_roster in Hro. simpl in Hro. injection Hro as H1' H2' H3'.
    destruct (proc_shutdown cfg c Hm Hmain) as [_ Hsh]. destruct (Hsh x) as [?|?]; [by rewrite H3'|left|by right].
    simpl. by rewrite <-H2'.
Qed.

End roster.
