(* ===== verification/ExampleSendReceive.v ===== *)
(** * The send-receive example

    src/examples/send-receive/main.go: a listener and a sender on the same queue, in
    one process.  The goroutines of the program are modelled with its shared state:
    the client, the counters of the handler and the two channels.  Log output and
    the fixed pause before the first send are left out; the timer of the final
    select may fire at any moment.  [n] and [m] are the fuel of the listener.  What the
    process may do is proved with the rules of [Traffic], that it ends with those of
    [ExampleProcess]. *)

From Stdlib Require Import ZArith Lia.
From stdpp Require Import base numbers list option strings gmap pretty.
From S2P Require Import Prelude GoErrors Float64 Config Mqi GoProg Always Fuel Compose Script Backoff Connection.
From S2P Require Import Telemetry Wire Sender Listener RequestReply Health Client Traffic Lasting Session.
From S2P Require Import ClientLogic ClientLife ExampleEnv ExampleProcess.

Local Open Scope Z_scope.
Local Open Scope go_scope.

(** [configFromEnv]: the fields the program leaves out have their zero value. *)
Definition configFromEnv (getenv : environ) : Config + fatal :=
  let! queue <- requireEnv getenv "MQ_QUEUE";
  let! qm <- requireEnv getenv "MQ_QUEUE_MANAGER";
  let! host <- requireEnv getenv "MQ_HOST";
  let! port <- requireEnv getenv "MQ_PORT";
  let! channel <- requireEnv getenv "MQ_CHANNEL";
  inl (mkConfig qm (host +:+ "(" +:+ port +:+ ")") channel (getenv "MQ_USERNAME"%string) (getenv "MQ_PASSWORD"%string)
         None queue queue "" 0 0 0 0 0 (S754_zero false) 0 false None).

(** The variables and channels of [main], with its client. *)
Record AppState := mkApp {
  a_client : ClientState;
  a_received : Z;
  a_allReceived : Z;
  a_listenerDone : list error;
  a_waitClosed : bool
}.

Definition set_client (c : ClientState) (a : AppState) : AppState :=
  mkApp c (a_received a) (a_allReceived a) (a_listenerDone a) (a_waitClosed a).

Definition with_client {A : Type} (p : prog ClientState A) : prog AppState A := zoom a_client set_client p.

(** [wg.Add(d)]: the counter panics when it goes below zero. *)
Definition wg_add (d : Z) : prog AppState unit :=
  do! v <- atomic (fun a => (a_allReceived a + d,
    mkApp (a_client a) (a_received a) (a_allReceived a + d) (a_listenerDone a) (a_waitClosed a)));
  if v <? 0 then Panic 0 else Ret tt.

(** The handler given to Start: count, and tell the WaitGroup. *)
Definition on_message (msg : Message) : prog AppState user_answer :=
  modify (fun a => mkApp (a_client a) (wrap32 (a_received a + 1)) (a_allReceived a) (a_listenerDone a) (a_waitClosed a)) ;;;
  wg_add (-1) ;;;
  Ret (UserReturns msg None).

(** The program's callbacks: the handler is number 0, and there is no other. *)
Definition callbacks (f : nat) (c : Ctx) (m : option Message) (e : error) : prog AppState user_answer :=
  on_message (default Message_zero m).

Definition payload (i msgCount : Z) : string :=
  "hello from commons-mq-go, message " +:+ pretty i +:+ " of " +:+ pretty msgCount.

Definition background : Ctx := 0%nat.

Section main.
Context `{MQBinding} `{GoArch} (n m : nat).

(** The goroutine of the listener. *)
Definition listen_goroutine (i : nat) (l : Listener) (ctx : Ctx) : prog AppState unit :=
  do! e <- link callbacks (with_client (in_world (on_listener i (Start n m l ctx (user_handler 0)))));
  select ChanSend (fun a => match a_listenerDone a with
    | [] => [(tt, mkApp (a_client a) (a_received a) (a_allReceived a) [e] (a_waitClosed a))]
    | _ => [] end).

(** [for i := range msgCount], [k] messages left. *)
Fixpoint send_loop (k : nat) (msgCount : Z) (j : nat) (s : Sender) : prog AppState unit :=
  match k with
  | O => Ret tt
  | S k' =>
      with_client (in_world (on_sender j (Send s background (payload (msgCount - Z.of_nat k + 1) msgCount)))) ;;;
      send_loop k' msgCount j s
  end.

(** The goroutine that waits for the handler to have seen every message. *)
Definition wait_goroutine : prog AppState unit :=
  select WgWait (fun a => if a_allReceived a =? 0 then [(tt, a)] else []) ;;;
  modify (fun a => mkApp (a_client a) (a_received a) (a_allReceived a) (a_listenerDone a) true).

(** [main] from the creation of the listener on; [cfg] is the program's own copy of
    the configuration, [ccfg] the client's. *)
Definition main_run (cfg ccfg : Config) (msgCount : Z) : prog AppState unit :=
  do! '(i, l) <- with_client (NewListener ccfg (InputQueue cfg) []);
  do! ctx <- lift (call (WithCancel background));
  defer (lift (call (CancelCtx ctx)))
    (Fork (listen_goroutine i l ctx)
       (do! '(j, s) <- with_client (NewSender ccfg (OutputQueue cfg) []);
        send_loop (Z.to_nat msgCount) msgCount j s ;;;
        Fork wait_goroutine
          (select ChanRecv (fun a => (if a_waitClosed a then [(tt, a)] else []) ++ [(tt, a)]) ;;;
           with_client (Client_Health ccfg) ;;;
           lift (call (CancelCtx ctx)) ;;;
           select ChanRecv (fun a => match a_listenerDone a with
             | e :: es => [(e, mkApp (a_client a) (a_received a) (a_allReceived a) es (a_waitClosed a))]
             | [] => [] end) ;;;
           Ret tt))).

(** [main], once the client is created. *)
Definition main_body (cfg ccfg : Config) (msgCount : Z) : prog AppState unit :=
  defer (with_client Client_Close ;;; Ret tt)
    (wg_add msgCount ;;;
     main_run cfg ccfg msgCount).

(** [main]: the process it starts, or the reason it gave up. *)
Definition main (getenv : environ) : machine AppState process_end + fatal :=
  let! cfg <- configFromEnv getenv;
  let! msgCount <- intEnv getenv "MQ_MSG_COUNT" 5;
  match NewClient cfg with
  | inr e => inr (FatalClient e)
  | inl (ccfg, cs) => inl (mkMachine (mkApp cs 0 0 [] false) [main_body cfg ccfg msgCount ;;; Ret MainReturned])
  end.

(** ** What the process does *)

(** Only the configured queue is opened, and only the numbered greetings are put. *)
Definition greetings (queue : string) (msgCount : Z) : event -> Prop :=
  traffic (fun od _ => od = queue_od queue)
    (fun md body => exists i, 1 <= i <= msgCount /\ body = String.list_byte_of_string (payload i msgCount)).

Lemma writes_body Ro Rm p :
  writes Ro Rm (eq outgoing_message) (fun m => Body m = String.list_byte_of_string p) (Some (body_creator p)).
Proof. by intros msg _. Qed.

Lemma always_send_loop queue ccfg msgCount tel j conns k :
  (Z.of_nat k <= msgCount) -> queue <> ""%string ->
  always (greetings queue msgCount) settles (send_loop k msgCount j (mkSender ccfg queue conns tel)) returns.
Proof.
  intros Hk Hq. induction k as [|k IH]; cbn [send_loop]; [exact I|]. unfold with_client, in_world, on_sender, Send. always_go.
  eapply always_mono; [|eapply safe_SendWithCreator; [|apply writes_body|done|]].
  - intros [u|v| | |] Ho; ends Ho. apply IH. lia.
  - by intros msg q' Hm.
  - intros msg Hm. eexists. split; [|exact Hm]. lia.
Qed.

Lemma always_callbacks P f c msg e :
  always P settles (callbacks f c msg e) (fun o => match o with NoFuel => False | _ => True end).
Proof. unfold callbacks, on_message, wg_add. always_go. case_goal; always_go. Qed.

Lemma always_main_run cfg ccfg msgCount queue :
  InputQueue cfg = queue -> OutputQueue cfg = queue -> queue <> ""%string -> 0 <= msgCount ->
  always (greetings queue msgCount) settles (main_run cfg ccfg msgCount) settles.
Proof.
  intros Hi Ho Hq Hn. unfold main_run, with_client. always_go.
  eapply always_mono; [|apply (safe_NewListener _ _ _ _ _ (fun x => l_queue x.2 = queue)); by intros i tel].
  intros [[i l]|v| | |] Hl; ends Hl. simpl in Hl. always_go. split.
  { unfold listen_goroutine, with_client, in_world, on_listener. always_step.
    apply always_link; [apply always_callbacks|]. always_go.
    eapply always_mono; [|apply safe_Start; by rewrite Hl]. intros [u|v| | |] Hx; ends Hx. always_go. }
  apply (always_mono _ _ _ settles); [intros [u|v| | |] Hx; ends Hx; always_go|]. always_go.
  eapply always_mono; [|apply (safe_NewSender _ _ _ _ (fun x => exists conns tel, x.2 = mkSender ccfg queue conns tel))].
  2:{ intros i0 tel. rewrite Ho, decide_False by done. by eexists _, _. }
  intros [[j s]|v| | |] Hx; ends Hx. destruct Hx as (conns & tel & [= ->]). always_go.
  eapply always_mono; [|apply always_send_loop; [lia|done]]. intros [u|v| | |] Hy; ends Hy. split.
  - unfold wait_goroutine. always_go.
  - always_go. eapply always_mono; [|apply safe_Client_Health]. intros [u'|v| | |] Hz; ends Hz. always_go.
Qed.

(** The same, with the deferred Close. *)
Lemma always_main_body cfg ccfg msgCount queue :
  InputQueue cfg = queue -> OutputQueue cfg = queue -> queue <> ""%string -> 0 <= msgCount ->
  always (greetings queue msgCount) settles
    (defer (with_client Client_Close ;;; Ret tt) (main_run cfg ccfg msgCount)) settles.
Proof.
  intros Hi Ho Hq Hn. apply always_defer. eapply always_mono; [|by apply always_main_run].
  intros [u|v| | |] Hx; ends Hx. unfold with_client. always_go.
  eapply always_mono; [|apply safe_Client_Close]. intros [u'|v| | |] Hy; ends Hy.
Qed.

(** A message beyond the expected number makes the handler panic, which the
    listener's barrier turns into a handler error. *)
Lemma extra_message_panics {W} (h : handler W) msg a w :
  a_allReceived a = 0 -> out (run h (on_message msg) a w) = Panicked 0.
Proof. intros Ha. unfold on_message, wg_add. simpl. by rewrite Ha. Qed.

(** The process [main] starts, or why it starts none. *)
Definition required : list string :=
  ["MQ_QUEUE"; "MQ_QUEUE_MANAGER"; "MQ_HOST"; "MQ_PORT"; "MQ_CHANNEL"]%string.

Lemma configFromEnv_spec getenv :
  match configFromEnv getenv with
  | inl cfg =>
      Forall (fun k => getenv k <> ""%string) required /\
      InputQueue cfg = getenv "MQ_QUEUE"%string /\ OutputQueue cfg = getenv "MQ_QUEUE"%string /\
      exists ccfg, NewClient cfg = inl (ccfg, ClientState_init)
  | inr e => exists k, e = FatalMissing k /\ List.find (fun k => String.eqb (getenv k) "") required = Some k
  end.
Proof.
  unfold configFromEnv, requireEnv, required. cbn [List.find].
  repeat match goal with
  | |- context[String.eqb (getenv ?k) ""] =>
      destruct (String.eqb_spec (getenv k) ""); cbn [or_fatal]; [by eexists|]
  end.
  split_and!; [by repeat constructor|done|done|].
  eexists. apply NewClient_accepts; simpl; try done. by destruct (getenv "MQ_HOST"%string).
Qed.

(** C36: the send-receive program.  It gives up before it starts exactly for the
    first of its five required variables that is not set, or for an MQ_MSG_COUNT that
    is not a positive int; the configuration it builds is never rejected.  Otherwise,
    however its goroutines (main, the listener, its consumers, the waiter) are
    scheduled, none of them panics, only the queue MQ_QUEUE is ever opened, and every
    message put is one of the numbered greetings. *)
Theorem send_receive_safe getenv c :
  match main getenv with
  | inr e =>
      match List.find (fun k => String.eqb (getenv k) "") required with
      | Some k => e = FatalMissing k
      | None => e = FatalNotPositive "MQ_MSG_COUNT" (getenv "MQ_MSG_COUNT"%string)
      end
  | inl c0 =>
      Forall (fun k => getenv k <> ""%string) required /\
      exists msgCount, intEnv getenv "MQ_MSG_COUNT" 5 = inl msgCount /\
        (process_reachable c0 c -> Forall (behaves (greetings (getenv "MQ_QUEUE"%string) msgCount)) (threads c))
  end.
Proof.
  unfold main. pose proof (configFromEnv_spec getenv) as Hc.
  destruct (configFromEnv getenv) as [cfg|e]; cbn [or_fatal]; [|by destruct Hc as (k & -> & ->)].
  destruct Hc as (Hreq & Hi & Ho & ccfg & Hn).
  pose proof (intEnv_cases getenv "MQ_MSG_COUNT" 5) as Hm.
  destruct (intEnv getenv "MQ_MSG_COUNT" 5) as [msgCount|e]; cbn [or_fatal].
  - rewrite Hn. split; [done|]. exists msgCount. split; [done|]. intros [->|Hr]%reachable_atomic; [by repeat constructor|].
    revert Hr. cbn [fst snd a_allReceived]. rewrite (proj2 (Z.ltb_ge _ _)) by lia. apply always_behaves.
    apply Forall_singleton. apply (always_bind _ _ (defer (with_client Client_Close ;;; Ret tt)
      (main_run cfg ccfg msgCount)) (fun _ => Ret MainReturned)).
    eapply always_mono; [|eapply always_main_body; [exact Hi|exact Ho| |lia]]; [by intros [u|v| | |] Hx|].
    rewrite Forall_forall in Hreq. apply Hreq. by left.
  - destruct Hm as [_ ->]. assert (Hf : List.find (fun k => String.eqb (getenv k) "") required = None); [|by rewrite Hf].
    rewrite Forall_forall in Hreq. destruct (List.find _ required) as [k|] eqn:Hf; [|done].
    apply find_some in Hf as [Hk%list_elem_of_In He%String.eqb_eq]. by destruct (Hreq k Hk).
Qed.

End main.

(** ** Progress and shutdown *)

#[export, refine] Instance app_process : Process AppState := {|
  p_client := a_client; p_set_client := set_client; p_done := a_listenerDone
|}.
Proof. all: by try intros []. Defined.

(** A call of the client, in the terms of [ExampleProcess]. *)
Ltac client_call := lazymatch goal with
  |- context [with_client ?p] => change (with_client p) with (zoom p_client p_set_client p) end.

Section life.
Context `{MQBinding} `{GoArch} (n m : nat) (cfg ccfg : Config) (msgCount : Z).
Context (Hdef : config_defaulted ccfg).

Abbreviation pcwp := (cwp (proc_inv ccfg) proc_may_block proc_fork).

Lemma pcwp_callbacks f c msg e t :
  pcwp (callbacks f c msg e) t (fun o t' => ended o = true /\ t' = t).
Proof.
  unfold callbacks, on_message, wg_add. apply cwp_bind, pcwp_private; [done|]. intros [].
  apply cwp_bind, cwp_bind, pcwp_private; [done|]. intros v. by destruct (v <? 0).
Qed.

Lemma pcwp_send_loop j s K R k : forall t (Q : outcome unit -> list ptok -> Prop),
  TheSender j s ∈ K -> main_at ccfg K R t -> (forall t', main_at ccfg K R t' -> Q (Returned tt) t') ->
  pcwp (send_loop k msgCount j s) t Q.
Proof.
  induction k as [|k IH]; intros t Q HK Ht HQ; cbn [send_loop]; [by apply HQ|].
  apply cwp_bind. client_call. eapply (pcwp_main_call ccfg _ (fun _ => []) K R t); [|done|by intros b u Hu; apply IH].
  intros u Hu. by apply (qcwp_Send_body ccfg j s background _ K).
Qed.

Lemma pcwp_listen_goroutine i l ctx :
  comp_typed ccfg (TheListener i l) ->
  pcwp (listen_goroutine n m i l ctx) (Listening :: map PC (map Know [TheListener i l])) proc_fork.
Proof.
  intros Hl. unfold listen_goroutine. client_call.
  eapply (pcwp_listen ccfg callbacks [] i l n m ctx 0); [by intros c ?%not_elem_of_nil|done| |].
  - intros f c msg e t. eapply cwp_mono; [|apply pcwp_callbacks]. intros o t' [Ho ->]. split; [done|].
    exists []. split; [done|]. by rewrite app_nil_r.
  - intros a e Hd. change (a_listenerDone a = []) in Hd. rewrite Hd. by eexists.
Qed.

(** The waiter owns nothing: it may wait for ever. *)
Lemma pcwp_wait_goroutine : pcwp wait_goroutine [] proc_fork.
Proof.
  apply cwp_bind. intros a F HI. split; [by right|]. intros r Hr. exists [].
  destruct (a_allReceived a =? 0); [|by apply not_elem_of_nil in Hr]. apply list_elem_of_singleton in Hr as ->.
  split; [done|]. apply pcwp_private; [done|]. intros b. by split; [apply not_elem_of_nil|].
Qed.

Lemma pcwp_main_run :
  pcwp (main_run n m cfg ccfg msgCount) main_starts (fun o t' => o = Returned tt /\ exists K, main_at ccfg K main_owns t').
Proof.
  pose proof (main_at_start ccfg main_starts) as Ht. revert Ht. generalize main_starts at 2 3. intros t Ht.
  unfold main_run. client_call. apply cwp_bind. eapply (pcwp_main_NewListener ccfg Hdef _ []); [exact Ht|].
  clear t Ht. intros i l t Ht. apply cwp_bind, pcwp_ext. intros ctx. unfold defer. apply cwp_tbind.
  eapply (pcwp_main_fork ccfg); [exact Ht|reflexivity|intros Hty; apply pcwp_listen_goroutine, Hty; by left|].
  clear t Ht. intros t Ht. apply cwp_bind. client_call. eapply (pcwp_main_NewSender ccfg Hdef _ []); [exact Ht|].
  clear t Ht. intros j s t Ht. apply cwp_bind. eapply pcwp_send_loop; [by left|exact Ht|]. clear t Ht. intros t Ht.
  intros a F HI. exists [], t. split_and!; [done|apply pcwp_wait_goroutine|].
  clear a F HI. apply cwp_bind. intros a F HI. split; [by destruct (a_waitClosed a)|].
  intros r Hr. assert (Hra : r = (tt, a)) by (destruct (a_waitClosed a); set_solver). subst r.
  exists t. split; [done|]. cbn [cwp fst]. client_call.
  eapply (pcwp_main_finish ccfg Hdef _ ctx tt _ main_owns); [| |exact Ht|by repeat constructor|].
  - intros x e Hd. change (a_listenerDone x = [e]) in Hd. rewrite Hd. by do 2 eexists.
  - intros x Hd. change (a_listenerDone x = []) in Hd. by rewrite Hd.
  - clear t Ht HI F Hr a. intros t Ht. apply cwp_bind, pcwp_ext. intros []. split; [done|]. by eexists.
Qed.

(** ** The components of main *)

Abbreviation rcwp := (cwp proc_roster anywhere owns_nothing).

Lemma stays_call {A : Type} (p : prog ClientState A) : stays same_roster p -> stays keeps (with_client p).
Proof. client_call. apply stays_client. Qed.

Lemma stays_listen i l ctx : stays keeps (listen_goroutine n m i l ctx).
Proof.
  apply stays_bind.
  - apply stays_link; [|apply stays_call, stays_world]. intros f c msg e. apply stays_bind; [by split|]. intros _.
    apply stays_bind; [apply stays_bind; [by split|]; intros v; by destruct (v <? 0)|done].
  - intros e. apply stays_select. intros a r Hr. destruct (a_listenerDone a); [|by apply not_elem_of_nil in Hr].
    by apply list_elem_of_singleton in Hr as ->.
Qed.

Lemma stays_send_loop k j s : stays keeps (send_loop k msgCount j s).
Proof. induction k as [|k IH]; [done|]. apply stays_bind; [apply stays_call, stays_world|done]. Qed.

Lemma stays_wait : stays keeps wait_goroutine.
Proof.
  apply stays_bind; [|by split]. apply stays_select. intros a r Hr.
  destruct (a_allReceived a =? 0); [|by apply not_elem_of_nil in Hr]. by apply list_elem_of_singleton in Hr as ->.
Qed.

Definition main_makes (r r' : roster) : Prop := exists i l j s,
  r' = rostered (TheSender j s) (rostered (TheListener i l) r) /\ l_queue l = InputQueue cfg /\
  s_queue s = (if String.eqb (OutputQueue cfg) "" then OutputQueue ccfg else OutputQueue cfg).

Lemma rcwp_main_run r : rcwp (main_run n m cfg ccfg msgCount) [r] (fun _ t' => exists r', t' = [r'] /\ main_makes r r').
Proof.
  unfold main_run. client_call. apply cwp_bind. eapply cwp_mono; [|apply rcwp_client, (rcwp_NewListener ccfg _ [])].
  intros o t (i & l & -> & Hl & ->). apply cwp_bind. intros ctx _. unfold defer. apply cwp_tbind.
  intros a F HI. exists [], [rostered (TheListener i l) r]. split_and!; [done| |].
  { eapply cwp_mono; [|apply rcwp_keeps, stays_listen]. done. }
  clear a F HI. apply cwp_bind. client_call. eapply cwp_mono; [|apply rcwp_client, (rcwp_NewSender ccfg)].
  intros o t (j & s & -> & Hs & ->).
  set (r' := rostered _ (rostered _ r)). assert (Hr' : main_makes r r') by (by exists i, l, j, s). clearbody r'.
  apply rcwp_rest; [|done].
  apply stays_bind; [apply stays_send_loop|]. intros _. split; [apply stays_wait|].
  apply stays_bind; [|intros _; apply stays_bind; [apply stays_call, stays_Health|intros _; apply stays_bind; [done|intros _]]].
  - apply stays_select. intros a x Hx. destruct (a_waitClosed a); set_solver.
  - apply stays_bind; [|done]. apply stays_select. intros a x Hx. destruct (a_listenerDone a); set_solver.
Qed.

End life.

(** Progress and shutdown, whatever the fuel. *)
Lemma send_receive_progress `{MQBinding} `{GoArch} n m getenv c0 c :
  main n m getenv = inl c0 -> process_reachable c0 c ->
  (Ret MainReturned ∈ threads c \/ OutOfFuel ∈ threads c \/ can_step (fun _ => GoroutineEnded) c) /\
  (Ret MainReturned ∈ threads c ->
     let cs := a_client (shared c) in
     cl_closed cs = true /\ cl_closers cs = [] /\
     exists i l j s, cl_probers cs = [TheListener i l; TheSender j s] /\
       l_queue l = getenv "MQ_QUEUE"%string /\ s_queue s = getenv "MQ_QUEUE"%string /\
       shut (cl_world cs) (TheListener i l) /\ shut (cl_world cs) (TheSender j s)).
Proof.
  unfold main. pose proof (configFromEnv_spec getenv) as Hc.
  destruct (configFromEnv getenv) as [cfg|e]; cbn [or_fatal]; [|done].
  destruct Hc as (Hreq & Hi & Ho & ccfg & Hn).
  pose proof (intEnv_cases getenv "MQ_MSG_COUNT" 5) as Hm.
  destruct (intEnv getenv "MQ_MSG_COUNT" 5) as [msgCount|e]; cbn [or_fatal]; [|done].
  rewrite Hn. intros [= <-] [->|Hr]%reachable_atomic.
  { split; [right; right; eapply can_step_thread; [by left|done|intros o Hs; exact Hs]|].
    intros Hx. simpl in Hx. by apply list_elem_of_singleton in Hx. }
  cbn [fst snd a_allReceived] in Hr. rewrite (proj2 (Z.ltb_ge _ _)) in Hr by lia.
  pose proof (sw_def _ _ (wf_init _ _ _ Hn)) as Hdef.
  assert (Hrun : process_reachable (mkMachine (mkApp ClientState_init 0 msgCount [] false)
    [closing_main (main_run n m cfg ccfg msgCount)]) c) by exact Hr. clear Hr.
  apply (process_ends ccfg Hdef (main_makes cfg ccfg (roster_of ClientState_init))) in Hrun as [Hp Hs]; [|done|done| |].
  - split; [done|]. intros Hmain. destruct (Hs Hmain) as (r & (i & l & j & s & -> & Hl & Hq) & Hro & Hsh).
    injection Hro as Hcl Hclo Hpr. split_and!; [done|done|]. exists i, l, j, s.
    split_and!; [done|congruence| | |].
    + rewrite Hq, Ho. rewrite Forall_forall in Hreq.
      by rewrite (proj2 (String.eqb_neq _ _)) by (apply Hreq; by left).
    + destruct (Hsh (TheListener i l)) as [Hx|]; [by left|by apply not_elem_of_nil in Hx|done].
    + destruct (Hsh (TheSender j s)) as [Hx|]; [by right; left|by apply not_elem_of_nil in Hx|done].
  - by apply pcwp_main_run.
  - by apply rcwp_main_run.
Qed.

(** The program lasts as long as the fuel of its listener. *)
Lemma lasts_main `{MQBinding} `{GoArch} n m getenv c0 k :
  main n m getenv = inl c0 -> (k <= n)%nat -> (k <= m)%nat -> Forall (lasts k) (threads c0).
Proof.
  unfold main. destruct (configFromEnv getenv) as [cfg|e]; cbn [or_fatal]; [|done].
  destruct (intEnv getenv "MQ_MSG_COUNT" 5) as [msgCount|e]; cbn [or_fatal]; [|done].
  destruct (NewClient cfg) as [[ccfg cs]|e]; [|done]. intros [= <-] Hn Hm. apply Forall_singleton.
  unfold main_body, main_run, with_client, wg_add, listen_goroutine, wait_goroutine. lasts_go.
  - apply lasts_link; [|by apply lasts_zoom, lasts_zoom, lasts_zoom, lasts_Start; lia].
    intros f c x e. unfold callbacks, on_message, wg_add. lasts_go.
  - generalize (Z.to_nat msgCount) as j. induction j as [|j IH]; cbn [send_loop]; [exact I|].
    unfold with_client, in_world, on_sender, Send. lasts_go.
    apply lasts_SendWithCreator, creator_ok_lasts. intros f [= <-]. apply creator_ok_body.
Qed.


(** *** Witness: one message, and main gives up waiting for it *)

Definition demo_env : environ := fun k =>
  if String.eqb k "MQ_MSG_COUNT" then "1"%string
  else if existsb (String.eqb k) required then "APP"%string else ""%string.

Definition demo_process : machine AppState process_end :=
  match @main ibm_binding amd64 700 700 demo_env with
  | inl c0 => c0
  | inr _ => mkMachine (mkApp ClientState_init 0 0 [] false) []
  end.

(** The listener's context is live for a while; main, the listener, its consumer, main
    again, and so to the end. *)
Definition demo_schedule : list nat :=
  repeat 0%nat 30 ++ repeat 1%nat 20 ++ repeat 2%nat 60 ++ repeat 0%nat 200 ++
  repeat 2%nat 100 ++ repeat 1%nat 50 ++ repeat 0%nat 100.

Definition demo_env_script : script := mkScript (repeat None 8 ++ repeat (Some Canceled) 40) [] [] [] [] [] [] [] 1.

Definition demo_end : machine AppState process_end :=
  exec scripted (fun _ => GoroutineEnded) demo_schedule demo_process demo_env_script.

Lemma demo_process_main : @main ibm_binding amd64 700 700 demo_env = inl demo_process.
Proof.
  assert (Hs : match @main ibm_binding amd64 700 700 demo_env with inl _ => true | inr _ => false end = true)
    by (vm_compute; reflexivity).
  unfold demo_process. by destruct (@main ibm_binding amd64 700 700 demo_env).
Qed.

(** The same process before main's last turns. *)
Definition demo_waiting : machine AppState process_end :=
  exec scripted (fun _ => GoroutineEnded) (take 310 demo_schedule) demo_process demo_env_script.

