(* ===== verification/ExampleRequestReply.v ===== *)
(** * The request-reply example

    src/examples/request-reply/main.go: a replier (a listener whose handler answers
    through a sender) and a requester in one process, with its goroutines and shared
    state.  Log output and the fixed pause before the first request are left out.
    [n] and [m] are the fuel of the listener.  What the process may do is proved with
    the rules of [Traffic], that it ends with those of [ExampleProcess]. *)

From Stdlib Require Import ZArith Lia Strings.Byte.
From stdpp Require Import base numbers list option strings gmap pretty.
From S2P Require Import Prelude GoErrors Float64 Hex Config Mqi GoProg Always Fuel Compose Script Backoff Connection.
From S2P Require Import Telemetry Wire Sender Listener RequestReply Health Client Traffic Lasting Session.
From S2P Require Import ClientLogic ClientLife ExampleEnv ExampleProcess.

Local Open Scope Z_scope.
Local Open Scope go_scope.

(** strings.ToUpper and strings.ToLower: on ASCII text they act letter by letter,
    on the rest of Unicode as its case tables say. *)
Definition is_ascii (s : string) : Prop :=
  Forall (fun b => (Byte.to_N b < 128)%N) (String.list_byte_of_string s).

Definition upper_byte (b : byte) : byte :=
  let n := Byte.to_N b in
  if (97 <=? n)%N && (n <=? 122)%N then default b (Byte.of_N (n - 32)) else b.

Definition lower_byte (b : byte) : byte :=
  let n := Byte.to_N b in
  if (65 <=? n)%N && (n <=? 90)%N then default b (Byte.of_N (n + 32)) else b.

Class GoStrings := {
  ToUpper : string -> string;
  ToLower : string -> string;
  ToUpper_ascii : forall s, is_ascii s ->
    ToUpper s = String.string_of_list_byte (map upper_byte (String.list_byte_of_string s));
  ToLower_ascii : forall s, is_ascii s ->
    ToLower s = String.string_of_list_byte (map lower_byte (String.list_byte_of_string s))
}.

(** [requireEnv] and [intEnv], this program's copies. *)
Definition requireEnv (getenv : environ) (key : string) : string + fatal :=
  if String.eqb (getenv key) "" then inr (FatalMissing key) else inl (getenv key).

Definition intEnv (getenv : environ) (key : string) (defaultVal : Z) : Z + fatal :=
  if String.eqb (getenv key) "" then inl defaultVal else
  match Atoi (getenv key) with
  | Some n => if n <? 1 then inr (FatalNotPositive key (getenv key)) else inl n
  | None => inr (FatalNotPositive key (getenv key))
  end.

(** [configFromEnv]. *)
Definition configFromEnv (getenv : environ) : Config + fatal :=
  let modelQueue := if String.eqb (getenv "MQ_MODEL_QUEUE") "" then "DEV.APP.MODEL.QUEUE"%string
                    else getenv "MQ_MODEL_QUEUE"%string in
  let! qm <- requireEnv getenv "MQ_QUEUE_MANAGER";
  let! host <- requireEnv getenv "MQ_HOST";
  let! port <- requireEnv getenv "MQ_PORT";
  let! channel <- requireEnv getenv "MQ_CHANNEL";
  inl (mkConfig qm (host +:+ "(" +:+ port +:+ ")") channel (getenv "MQ_USERNAME"%string) (getenv "MQ_PASSWORD"%string)
         None "" "" modelQueue 0 0 0 0 0 (S754_zero false) 0 false None).

Definition rrModeLabel (mode : string) : string :=
  if String.eqb mode "fixed" then "FixedQueueSelector" else "TemporaryQueue".

(** The variables and the channel of [main], with its client. *)
Record AppState := mkApp {
  a_client : ClientState;
  a_replied : Z;
  a_listenerDone : list error
}.

Definition set_client (c : ClientState) (a : AppState) : AppState := mkApp c (a_replied a) (a_listenerDone a).

Definition with_client {A : Type} (p : prog ClientState A) : prog AppState A := zoom a_client set_client p.

Definition background : Ctx := 0%nat.

Definition payload (i msgCount : Z) : string :=
  "request " +:+ pretty i +:+ " of " +:+ pretty msgCount +:+ " — hello from commons-mq-go".

(** The creator of the replier's answer. *)
Definition reply_creator (response correlationID : string) : MessageCreator := fun reply =>
  Ret (mkMessage (ID reply) correlationID (ReplyToQueue reply) (ReplyToQueueManager reply)
         (String.list_byte_of_string response) (UserProperties reply) (TTL reply), None).

Section main.
Context `{MQBinding} `{GoArch} `{GoStrings} (n m : nat).

Definition response (body : list byte) : string := "ECHO: " +:+ ToUpper (String.string_of_list_byte body).

(** The replier's handler, with the sender [s] (component [j]) and the context of
    [main]. *)
Definition on_request (j : nat) (s : Sender) (ctx : Ctx) (msg : Message) : prog AppState user_answer :=
  let replyTo := ReplyToQueue msg in
  if String.eqb replyTo "" then Ret (UserReturns msg None)
  else
    do! '(_, sendErr) <- with_client (in_world (on_sender j
      (SendWithCreator s ctx replyTo (Some (reply_creator (response (Body msg)) (CorrelationID msg))))));
    match sendErr with
    | Some e => Ret (UserReturns msg (Some (wrapf [Lit "replier: failed to send response: "] (Some e))))
    | None =>
        modify (fun a => mkApp (a_client a) (wrap32 (a_replied a + 1)) (a_listenerDone a)) ;;;
        Ret (UserReturns msg None)
    end.

(** The program's callbacks: the handler is number 0, the error handler, which only
    logs, is number 1. *)
Definition callbacks (j : nat) (s : Sender) (ctx : Ctx) (f : nat) (c : Ctx) (msg : option Message) (e : error)
    : prog AppState user_answer :=
  if Nat.eqb f 0 then on_request j s ctx (default Message_zero msg)
  else Ret (UserReturns (default Message_zero msg) None).

(** The goroutine of the replier. *)
Definition replier_goroutine (j : nat) (s : Sender) (i : nat) (l : Listener) (ctx : Ctx) : prog AppState unit :=
  do! e <- link (callbacks j s ctx) (with_client (in_world (on_listener i (Start n m l ctx (user_handler 0)))));
  select ChanSend (fun a => match a_listenerDone a with
    | [] => [(tt, mkApp (a_client a) (a_replied a) [e])]
    | _ => [] end).

(** [for i := range msgCount], [k] requests left. *)
Fixpoint request_loop (k : nat) (msgCount timeout : Z) (i : nat) (r : RequestReplyClient) : prog AppState unit :=
  match k with
  | O => Ret tt
  | S k' =>
      with_client (in_world (on_rr i (RequestReply r background (payload (msgCount - Z.of_nat k + 1) msgCount) timeout))) ;;;
      request_loop k' msgCount timeout i r
  end.

(** The client of [main]'s mode. *)
Definition new_rr_client (ccfg : Config) (rrMode requestQueue replyQueue : string)
    : prog ClientState (nat * RequestReplyClient) :=
  if String.eqb rrMode "fixed" then NewRequestReplyClientFixed ccfg requestQueue replyQueue []
  else NewRequestReplyClient ccfg requestQueue [].

(** [main], once the client is created. *)
Definition main_body (ccfg : Config) (requestQueue replyQueue rrMode : string) (msgCount timeout : Z)
    : prog AppState unit :=
  defer (with_client Client_Close ;;; Ret tt)
    (do! '(j, s) <- with_client (NewSender ccfg "" []);
     do! '(i, l) <- with_client (NewListener ccfg requestQueue [WithListenerErrorHandler (Some 1%nat)]);
     do! ctx <- lift (call (WithCancel background));
     defer (lift (call (CancelCtx ctx)))
       (Fork (replier_goroutine j s i l ctx)
          (do! '(k, r) <- with_client (new_rr_client ccfg rrMode requestQueue replyQueue);
           defer (with_client (in_world (on_rr k RR_Close)) ;;; Ret tt)
             (request_loop (Z.to_nat msgCount) msgCount timeout k r ;;;
              with_client (Client_Health ccfg) ;;;
              lift (call (CancelCtx ctx)) ;;;
              select ChanRecv (fun a => match a_listenerDone a with
                | e :: es => [(e, mkApp (a_client a) (a_replied a) es)]
                | [] => [] end) ;;;
              Ret tt)))).

(** [main]: the process it starts, or the reason it gave up. *)
Definition main (getenv : environ) : machine AppState process_end + fatal :=
  let! cfg <- configFromEnv getenv;
  let! requestQueue <- requireEnv getenv "MQ_REQUEST_QUEUE";
  let replyQueue := getenv "MQ_REPLY_QUEUE"%string in
  let rrMode := ToLower (getenv "MQ_RR_MODE"%string) in
  let! msgCount <- intEnv getenv "MQ_MSG_COUNT" 3;
  let! timeoutSecs <- intEnv getenv "MQ_TIMEOUT_SECS" 10;
  let timeout := wrap64 (timeoutSecs * Second) in
  if String.eqb rrMode "fixed" && String.eqb replyQueue "" then inr FatalNoReplyQueue
  else
    match NewClient cfg with
    | inr e => inr (FatalClient e)
    | inl (ccfg, cs) =>
        inl (mkMachine (mkApp cs 0 []) [main_body ccfg requestQueue replyQueue rrMode msgCount timeout ;;; Ret MainReturned])
    end.

(** ** What the process does *)

(** The queues it may open: the request queue, the source of replies (the model
    queue or the reply queue), and, for output, the queue a request asks to be
    answered on.  The messages it may put: numbered requests and echoes. *)
Definition may_open (modelQueue requestQueue replyQueue : string) (od : MQOD) (opts : Z) : Prop :=
  od = queue_od requestQueue \/ od = mkMQOD modelQueue "AMQ.*" \/
  (od = queue_od replyQueue /\ replyQueue <> ""%string) \/
  (exists q, q <> ""%string /\ od = queue_od q /\ opts = output_options).

Definition may_put (msgCount : Z) (md : MQMD) (body : list byte) : Prop :=
  (exists i, 1 <= i <= msgCount /\ body = String.list_byte_of_string (payload i msgCount)) \/
  (exists request, body = String.list_byte_of_string (response request)).

Definition conversation (modelQueue requestQueue replyQueue : string) (msgCount : Z) : event -> Prop :=
  traffic (may_open modelQueue requestQueue replyQueue) (may_put msgCount).

(** Messages with the given body. *)
Definition has_body (b : list byte) (msg : Message) : Prop := Body msg = b.

Lemma has_body_properties b : ignores_properties (has_body b).
Proof. by intros msg p. Qed.

Section lemmas.
Variables (ccfg : Config) (requestQueue replyQueue : string) (msgCount : Z).

Abbreviation allowed := (conversation (ModelQueue ccfg) requestQueue replyQueue msgCount).

Lemma always_on_request j s ctx msg :
  always allowed settles (on_request j s ctx msg) (fun o => match o with NoFuel => False | _ => True end).
Proof.
  unfold on_request. destruct (String.eqb_spec (ReplyToQueue msg) ""); [exact I|].
  unfold with_client, in_world, on_sender. always_go.
  eapply always_mono; [|eapply (safe_SendWithCreator _ _ _ _ _ _ (has_body (String.list_byte_of_string (response (Body msg))))); [apply has_body_properties|..]].
  - intros [[id [e|]]|v| | |] Ho; ends Ho; always_go.
  - by intros m0 _.
  - rewrite decide_False by done. right; right; right. by eexists.
  - intros m0 Hm0. right. eexists. exact Hm0.
Qed.

Lemma always_rr_callbacks j s ctx f c msg e :
  always allowed settles (callbacks j s ctx f c msg e) (fun o => match o with NoFuel => False | _ => True end).
Proof. unfold callbacks. destruct (Nat.eqb f 0); [apply always_on_request|exact I]. Qed.

Lemma always_request_loop timeout i r k :
  Z.of_nat k <= msgCount -> rr_requestQueue r = requestQueue ->
  opens_reply (may_open (ModelQueue ccfg) requestQueue replyQueue) r ->
  always allowed settles (request_loop k msgCount timeout i r) returns.
Proof.
  intros Hk Hq Ho. induction k as [|k IH]; cbn [request_loop]; [exact I|].
  unfold with_client, in_world, on_rr, RequestReply. always_go.
  eapply always_mono; [|eapply (safe_RequestReply _ _ _ _ _ _
    (has_body (String.list_byte_of_string (payload (msgCount - Z.of_nat (S k) + 1) msgCount)))); [apply has_body_properties|..|done| |]].
  - intros [u|v| | |] Hx; ends Hx. apply IH. lia.
  - by intros m0 _.
  - left. by rewrite Hq.
  - intros cfg m0 q correl Hm0. left. eexists. split; [|exact Hm0]. lia.
Qed.

Lemma always_new_rr rrMode :
  (rrMode = "fixed"%string -> replyQueue <> ""%string) ->
  always allowed settles (new_rr_client ccfg rrMode requestQueue replyQueue) (fun o => match o with
    | Returned (_, r) => rr_requestQueue r = requestQueue /\
        opens_reply (may_open (ModelQueue ccfg) requestQueue replyQueue) r
    | _ => False end).
Proof.
  intros Hm. unfold new_rr_client, NewRequestReplyClientFixed, NewRequestReplyClient.
  destruct (String.eqb_spec rrMode "fixed");
    (eapply always_mono; [|apply (safe_new_rr _ _ _ _ _ _ (fun x => rr_requestQueue x.2 = requestQueue /\
       opens_reply (may_open (ModelQueue ccfg) requestQueue replyQueue) x.2))]).
  1,3: by intros [[i r]|v| | |] Hx.
  - intros i tel. split; [done|]. right; right; left. auto.
  - intros i tel. split; [done|]. right; left. done.
Qed.

Lemma always_rr_main_body rrMode timeout :
  (rrMode = "fixed"%string -> replyQueue <> ""%string) -> 0 <= msgCount ->
  always allowed settles (main_body ccfg requestQueue replyQueue rrMode msgCount timeout) settles.
Proof.
  intros Hm Hn. unfold main_body. apply always_defer, (always_mono _ _ _ settles).
  { intros [u|v| | |] Hx; ends Hx. unfold with_client. always_go.
    eapply always_mono; [|apply safe_Client_Close]. intros [u'|v| | |] Hy; ends Hy. }
  unfold with_client. always_go.
  eapply always_mono; [|apply (safe_NewSender _ _ _ _ (fun x => True)); done]. intros [[j s]|v| | |] Hs; ends Hs. always_go.
  eapply always_mono; [|apply (safe_NewListener _ _ _ _ _ (fun x => l_queue x.2 = requestQueue)); by intros i tel].
  intros [[i l]|v| | |] Hl; ends Hl. simpl in Hl. always_go. split.
  { unfold replier_goroutine, with_client, in_world, on_listener. always_step.
    apply always_link; [apply always_rr_callbacks|]. always_go.
    eapply always_mono; [|apply safe_Start; left; by rewrite Hl]. intros [u|v| | |] Hx; ends Hx. always_go. }
  apply (always_mono _ _ _ settles); [intros [u|v| | |] Hx; ends Hx; always_go|]. always_go.
  eapply always_mono; [|by apply always_new_rr].
  intros [[k r]|v| | |] Hx; ends Hx. destruct Hx as [Hq Ho].
  apply always_defer, (always_mono _ _ _ settles).
  { intros [u|v| | |] Hx; ends Hx. unfold in_world, on_rr, RR_Close. always_go. }
  always_go.
  eapply always_mono; [|apply always_request_loop; [lia|done|done]]. intros [u|v| | |] Hy; ends Hy. always_go.
  eapply always_mono; [|apply safe_Client_Health]. intros [u'|v| | |] Hz; ends Hz. always_go.
Qed.

End lemmas.

(** The required variables, in the order they are looked at, and the model queue. *)
Definition required : list string :=
  ["MQ_QUEUE_MANAGER"; "MQ_HOST"; "MQ_PORT"; "MQ_CHANNEL"; "MQ_REQUEST_QUEUE"]%string.

Definition model_queue (getenv : environ) : string :=
  if decide (getenv "MQ_MODEL_QUEUE"%string = ""%string) then "DEV.APP.MODEL.QUEUE"%string
  else getenv "MQ_MODEL_QUEUE"%string.

Lemma rr_configFromEnv_spec getenv :
  match configFromEnv getenv with
  | inl cfg =>
      Forall (fun k => getenv k <> ""%string) (take 4 required) /\
      exists ccfg, NewClient cfg = inl (ccfg, ClientState_init) /\ ModelQueue ccfg = model_queue getenv
  | inr e => exists k, e = FatalMissing k /\ List.find (fun k => String.eqb (getenv k) "") required = Some k
  end.
Proof.
  unfold configFromEnv, requireEnv, required, model_queue. cbn [List.find take].
  destruct (String.eqb_spec (getenv "MQ_QUEUE_MANAGER") ""); cbn [or_fatal]; [by eexists|].
  destruct (String.eqb_spec (getenv "MQ_HOST") ""); cbn [or_fatal]; [by eexists|].
  destruct (String.eqb_spec (getenv "MQ_PORT") ""); cbn [or_fatal]; [by eexists|].
  destruct (String.eqb_spec (getenv "MQ_CHANNEL") ""); cbn [or_fatal]; [by eexists|].
  split; [by repeat constructor|]. eexists. split.
  - apply NewClient_accepts; simpl; try done. by destruct (getenv "MQ_HOST"%string).
  - simpl. destruct (String.eqb_spec (getenv "MQ_MODEL_QUEUE") ""); case_decide; try done.
    by rewrite (proj2 (String.eqb_neq _ _)).
Qed.


(** ** One exchange, end to end *)

#[local] Instance client_lens : LensOn (fun _ => True) a_client set_client.
Proof. split; try done. by intros []. Qed.

(** An answer of the replier: on which queue, with which descriptor and body. *)
Definition answers (queue : string) (correl : list byte) (text : string) : event -> Prop :=
  traffic (fun od opts => od = queue_od queue /\ opts = output_options)
    (fun md body => CorrelId md = correl /\ body = String.list_byte_of_string text).

Lemma always_echo `{!CorrelId24} j s ctx md body :
  ReplyToQ md <> ""%string -> length (CorrelId md) = 24%nat ->
  let msg := messageFromMQMD md body in
  always (answers (ReplyToQ md) (CorrelId md) (response body)) settles (on_request j s ctx msg)
    (fun o => exists e, o = Returned (UserReturns msg e)).
Proof.
  intros Hq Hl msg. unfold on_request. change (ReplyToQueue msg) with (ReplyToQ md).
  rewrite (proj2 (String.eqb_neq _ _) Hq). unfold with_client, in_world, on_sender. always_go.
  eapply always_mono; [|eapply (safe_SendWithCreator _ _ _ _ _ _ (fun m0 =>
    CorrelationID m0 = CorrelationID msg /\ Body m0 = String.list_byte_of_string (response body)))].
  - intros [[id [e|]]|v| | |] Ho; ends Ho; always_go; by eexists.
  - by intros m0 p.
  - by intros m0 _.
  - by rewrite decide_False.
  - intros m0 [Hc Hb]. split; [|done]. by apply (put_mqmd_correl _ md body).
Qed.

(** A nil result of the handler means the answer was accepted. *)
Lemma wp_echo_sent j s ctx msg a k st0 :
  w_senders (cl_world (a_client a)) !! j = Some st0 -> pool_ok s k st0 -> s_closed st0 = false ->
  ReplyToQueue msg <> ""%string ->
  wp (on_request j s ctx msg) (fun o _ t => o <> Blocked /\
    forall m', o = Returned (UserReturns m' None) -> exists id, delivered (s_cfg s) id t) a.
Proof.
  intros Hj Hpo Hc Hq. unfold on_request. rewrite (proj2 (String.eqb_neq _ _) Hq).
  wp_go. unfold with_client. apply (wp_zoom (fun _ => True) a_client set_client); [done|].
  unfold in_world. apply (wp_zoom (fun _ => True) cl_world set_world); [done|].
  unfold on_sender. apply (wp_zoom (fun w => is_Some (w_senders w !! j)) (get_sender j) (set_sender j)); [by exists st0|].
  replace (get_sender j (cl_world (a_client a))) with st0 by (unfold get_sender; by rewrite Hj).
  eapply wp_mono; [|apply (wp_SendWithCreator s ctx _ _ k st0); [|done|done|by left]].
  2:{ intros f [= <-]. split; [done|]. intros m0 s0. simpl. eauto. }
  intros o st' t [_ Ho]. destruct o as [[id e]|v| | |]; try done; wp_go; try done.
  destruct Ho as [_ _ _ _ Hok _]. destruct e as [e|]; wp_go; [done|]. split; [done|].
  intros m' _. rewrite app_nil_r. exists id. by apply Hok.
Qed.

(** C23: one exchange, end to end, in fixed-queue mode.  Take any request of the
    client: its wait, and the message it put.  Deliver that message, with its
    correlation and reply queue, to the example's handler, whatever happens to the
    handler's own connection: the handler returns, it opens only the client's reply
    queue, and everything it puts there carries the CorrelId the client's wait
    matches on and the echo of the request; if it returns nil the queue manager
    accepted such a message. *)
Theorem echo_end_to_end `{!CorrelId24} {W W'} (h : handler W) (h' : handler W') r ctx creator timeout st0 w
    gmd gmo pmd body md j s k st1 rctx a w' :
  (forall f, creator = Some f -> creator_ok f) -> handler_ok h -> handler_ok h' ->
  rr_mode r = FixedQueueSelector -> rr_replyQueue r <> ""%string ->
  let x := run h (RequestReplyWithCreator r ctx creator timeout) st0 w in
  (gmd, gmo) ∈ omap get_request (tr x) -> (pmd, body) ∈ omap put_request (tr x) ->
  CorrelId md = CorrelId pmd -> ReplyToQ md = ReplyToQ pmd ->
  w_senders (cl_world (a_client a)) !! j = Some st1 -> pool_ok s k st1 -> s_closed st1 = false ->
  let msg := messageFromMQMD md body in
  let y := run h' (on_request j s rctx msg) a w' in
  MatchOptions gmo = MQMO_MATCH_CORREL_ID /\
  Forall (answers (rr_replyQueue r) (CorrelId gmd) (response body)) (tr y) /\
  exists e, out y = Returned (UserReturns msg e) /\
    (e = None -> exists id, delivered (s_cfg s) id (tr y)).
Proof.
  intros Hf Hh Hh' Hm Hq x Hg Hp Hc Hr Hj Hpo Hcl msg y.
  destruct (run_correlated h r ctx creator timeout st0 w gmd gmo Hf Hh Hm Hg)
    as (Hmo & Hlen & pmd' & body' & Hput & Hrq & Hcor). fold x in Hput. rewrite Hput in Hp.
  apply list_elem_of_singleton in Hp as [= -> ->]. rewrite Hrq in Hr. rewrite Hcor in Hc.
  assert (Hs : wp (on_request j s rctx msg) _ a) by (by eapply wp_echo_sent; [..|simpl; congruence]).
  assert (Ha : always (answers (rr_replyQueue r) (CorrelId gmd) (response body')) settles (on_request j s rctx msg)
    (fun o => exists e, o = Returned (UserReturns msg e))).
  { rewrite <-Hr, <-Hc. apply always_echo; congruence. }
  split; [done|]. destruct (wp_run h' _ Hh' _ a w' (wp_conj _ _ _ _ Hs (wp_always _ _ _ _ a (fun v Hv => Hv) Ha)))
    as ((Hnb & Hd) & Ht & Ho). fold y in Hnb, Hd, Ht, Ho. split; [done|].
  destruct (out y) as [u|v| | |]; try (by destruct Ho). destruct Ho as [e He]. exists e. split; [done|].
  intros ->. by apply (Hd msg).
Qed.

End main.

(** *** Witnesses: ASCII text, and a request answered by the replier *)

Definition ascii_strings : GoStrings := {|
  ToUpper s := String.string_of_list_byte (map upper_byte (String.list_byte_of_string s));
  ToLower s := String.string_of_list_byte (map lower_byte (String.list_byte_of_string s));
  ToUpper_ascii s _ := eq_refl;
  ToLower_ascii s _ := eq_refl
|}.

(** The request [rr_run replying] puts. *)
Definition demo_request : MQMD := mkMQMD (repeat x00 24) (repeat x2a 24) "DEV.REPLY" "" (-1).

Definition demo_app : AppState :=
  mkApp (mkClientState false [] [] (mkWorld [sample_pool] [] [])) 0 [].

Definition demo_answer : result AppState script user_answer :=
  run scripted (@on_request ibm_binding amd64 ascii_strings 0 sample_sender 0
    (messageFromMQMD demo_request (String.list_byte_of_string "ping"))) demo_app calm.

Lemma demo_put : omap put_request (tr (rr_run replying)) = [(demo_request, String.list_byte_of_string "ping")].
Proof. vm_compute. reflexivity. Qed.

Lemma demo_get : omap get_request (tr (rr_run replying)) = [(sample_filter, sample_wait)].
Proof. vm_compute. reflexivity. Qed.

Lemma echo_end_to_end_witness :
  Forall (@answers ibm_binding "DEV.REPLY" (CorrelId sample_filter) "ECHO: PING") (tr demo_answer) /\
  length (omap put_request (tr demo_answer)) = 1%nat.
Proof.
  split; [|vm_compute; reflexivity].
  destruct (@echo_end_to_end ibm_binding amd64 ascii_strings ibm_correl_id_24 script script scripted scripted sample_rr 0
    (Some (body_creator "ping")) (5 * Second) RRState_init replying sample_filter sample_wait demo_request
    (String.list_byte_of_string "ping") demo_request 0 sample_sender 0 sample_pool 0 demo_app calm
    (body_creators_ok "ping") scripted_ok scripted_ok eq_refl ltac:(discriminate)
    (eq_ind_r (fun l => (sample_filter, sample_wait) ∈ l) (list_elem_of_here _ _) demo_get)
    (eq_ind_r (fun l => (demo_request, String.list_byte_of_string "ping") ∈ l) (list_elem_of_here _ _) demo_put)
    eq_refl eq_refl eq_refl sample_pool_ok eq_refl) as (_ & Ht & _).
  exact Ht.
Defined.

(** A timeout of more than 292 years overflows the Duration: the wait is one
    millisecond. *)
Lemma timeout_overflow : wait_ms (wrap64 (9223372037 * Second)) = 1.
Proof. reflexivity. Qed.

(** ** Progress and shutdown *)

#[export, refine] Instance app_process : Process AppState := {|
  p_client := a_client; p_set_client := set_client; p_done := a_listenerDone
|}.
Proof. all: by try intros []. Defined.

(** A call of the client, in the terms of [ExampleProcess]. *)
Ltac client_call := lazymatch goal with
  |- context [with_client ?p] => change (with_client p) with (zoom p_client p_set_client p) end.

Section life.
Context `{MQBinding} `{GoArch} `{GoStrings} (n m : nat) (ccfg : Config).
Context (requestQueue replyQueue rrMode : string) (msgCount timeout : Z).
Context (Hdef : config_defaulted ccfg).

Abbreviation pcwp := (cwp (proc_inv ccfg) proc_may_block proc_fork).

Lemma creator_ok_reply r c : creator_ok (reply_creator r c).
Proof. split; [done|]. intros msg x. simpl. eauto. Qed.

Lemma pcwp_rr_callbacks j s ctx f c msg e t :
  comp_typed ccfg (TheSender j s) ->
  pcwp (callbacks j s ctx f c msg e) (map PC (map Know [TheSender j s]) ++ t)
    (fun o t' => ended o = true /\ exists R, Forall spare R /\ t' ≡ₚ map PC (map Know [TheSender j s]) ++ t ++ R).
Proof.
  intros Hty. assert (Hnone : exists R, Forall spare R /\
    map PC (map Know [TheSender j s]) ++ t ≡ₚ map PC (map Know [TheSender j s]) ++ t ++ R).
  { exists []. split; [done|]. by rewrite app_nil_r. }
  unfold callbacks, on_request. destruct (Nat.eqb f 0); [|done]. case_goal; [done|]. client_call. apply cwp_bind.
  eapply cwp_mono; [|apply pcwp_handler_Send; [|done]].
  - intros o t' [Ho Ht']. destruct o as [[id [x|]]|v| | |]; try done. by apply cwp_bind, pcwp_private.
  - intros g [= <-]. apply creator_ok_reply.
Qed.

Lemma pcwp_replier j s i l ctx :
  comp_typed ccfg (TheSender j s) -> comp_typed ccfg (TheListener i l) ->
  pcwp (replier_goroutine n m j s i l ctx) (Listening :: map PC (map Know [TheListener i l; TheSender j s])) proc_fork.
Proof.
  intros Hs Hl. unfold replier_goroutine. client_call.
  eapply (pcwp_listen ccfg (callbacks j s ctx) [TheSender j s] i l n m ctx 0); [|done| |].
  - by intros c ->%list_elem_of_singleton.
  - intros f c msg e t. by apply pcwp_rr_callbacks.
  - intros a e Hd. change (a_listenerDone a = []) in Hd. rewrite Hd. by eexists.
Qed.

Lemma pcwp_request_loop i r K R k : forall t (Q : outcome unit -> list ptok -> Prop),
  TheRR i r ∈ K -> main_at ccfg K R t -> (forall t', main_at ccfg K R t' -> Q (Returned tt) t') ->
  pcwp (request_loop k msgCount timeout i r) t Q.
Proof.
  induction k as [|k IH]; intros t Q HK Ht HQ; cbn [request_loop]; [by apply HQ|].
  apply cwp_bind. client_call. eapply (pcwp_main_call ccfg _ (fun _ => []) K R t); [|done|by intros b u Hu; apply IH].
  intros u Hu. by apply (qcwp_RequestReply_body ccfg i r background _ timeout K).
Qed.

Lemma qcwp_new_rr_client t :
  cwp (client_inv ccfg 1) never started_end (new_rr_client ccfg rrMode requestQueue replyQueue) t
    (fun o t' => exists b, o = Returned b /\ gains ccfg [TheRR b.1 b.2] t t').
Proof.
  unfold new_rr_client. case_goal; (eapply cwp_mono; [|by apply (qcwp_new_rr ccfg 1 _ _ _ [])]);
    intros o t' (i & r & -> & Hg); by exists (i, r).
Qed.

(** The body of [main], up to the deferred Close. *)
Definition requester : prog AppState unit :=
  do! '(j, s) <- with_client (NewSender ccfg "" []);
  do! '(i, l) <- with_client (NewListener ccfg requestQueue [WithListenerErrorHandler (Some 1%nat)]);
  do! ctx <- lift (call (WithCancel background));
  defer (lift (call (CancelCtx ctx)))
    (Fork (replier_goroutine n m j s i l ctx)
       (do! '(k, r) <- with_client (new_rr_client ccfg rrMode requestQueue replyQueue);
        defer (with_client (in_world (on_rr k RR_Close)) ;;; Ret tt)
          (request_loop (Z.to_nat msgCount) msgCount timeout k r ;;;
           with_client (Client_Health ccfg) ;;;
           lift (call (CancelCtx ctx)) ;;;
           select ChanRecv (fun a => match a_listenerDone a with
             | e :: es => [(e, mkApp (a_client a) (a_replied a) es)]
             | [] => [] end) ;;;
           Ret tt))).

Lemma main_body_requester :
  (main_body n m ccfg requestQueue replyQueue rrMode msgCount timeout ;;; Ret MainReturned) = closing_main requester.
Proof. reflexivity. Qed.

Lemma pcwp_requester :
  pcwp requester main_starts (fun o t' => o = Returned tt /\ exists K, main_at ccfg K main_owns t').
Proof.
  pose proof (main_at_start ccfg main_starts) as Ht. revert Ht. generalize main_starts at 2 3. intros t Ht.
  unfold requester. client_call. apply cwp_bind.
  eapply (pcwp_main_NewSender ccfg Hdef "" []); [exact Ht|]. clear t Ht. intros j s t Ht. client_call. apply cwp_bind.
  eapply (pcwp_main_NewListener ccfg Hdef requestQueue [LErrorHandler (Some 1%nat)]); [exact Ht|].
  clear t Ht. intros i l t Ht. apply cwp_bind, pcwp_ext. intros ctx. unfold defer at 1. apply cwp_tbind.
  eapply (pcwp_main_fork ccfg); [exact Ht|reflexivity|intros Hty; apply pcwp_replier; apply Hty; set_solver|].
  clear t Ht. intros t Ht. client_call. apply cwp_bind.
  eapply (pcwp_main_call ccfg (new_rr_client ccfg rrMode requestQueue replyQueue) (fun x => [TheRR x.1 x.2]));
    [intros v _; apply qcwp_new_rr_client|exact Ht|].
  clear t Ht. intros [k r] t Ht. cbn [fst snd Datatypes.app] in Ht. unfold defer. apply cwp_tbind, cwp_bind.
  eapply pcwp_request_loop; [by left|exact Ht|]. clear t Ht. intros t Ht. client_call.
  eapply (pcwp_main_finish ccfg Hdef _ ctx tt _ main_owns); [| |exact Ht|by repeat constructor|].
  - intros x e Hd. change (a_listenerDone x = [e]) in Hd. rewrite Hd. by do 2 eexists.
  - intros x Hd. change (a_listenerDone x = []) in Hd. by rewrite Hd.
  - clear t Ht. intros t Ht. client_call. apply cwp_bind, cwp_bind.
    eapply (pcwp_main_call ccfg (in_world (on_rr k RR_Close)) (fun _ => [])); [|exact Ht|].
    { intros u Hu. eapply qcwp_main_CloseRR; [|exact Hu]. by left. }
    clear t Ht. intros e t Ht. apply cwp_bind, pcwp_ext. intros []. split; [done|]. by eexists.
Qed.

(** ** The components of main *)

Abbreviation rcwp := (cwp proc_roster anywhere owns_nothing).

Lemma stays_rr_call {A : Type} (p : prog ClientState A) : stays same_roster p -> stays keeps (with_client p).
Proof. client_call. apply stays_client. Qed.

Lemma stays_replier j s i l ctx : stays keeps (replier_goroutine n m j s i l ctx).
Proof.
  apply stays_bind.
  - apply stays_link; [|apply stays_rr_call, stays_world]. intros f c msg e. unfold callbacks, on_request.
    destruct (Nat.eqb f 0); [|done]. case_goal; [done|]. apply stays_bind; [apply stays_rr_call, stays_world|].
    intros [id [x|]]; [done|]. apply stays_bind; [by split|done].
  - intros e. apply stays_select. intros a r Hr. destruct (a_listenerDone a); set_solver.
Qed.

Lemma stays_request_loop k i r : stays keeps (request_loop k msgCount timeout i r).
Proof. induction k as [|k IH]; [done|]. apply stays_bind; [apply stays_rr_call, stays_world|done]. Qed.

(** A sender, a listener of the request queue, a client for requests to it. *)
Definition main_makes (r r' : roster) : Prop := exists j s i l k c,
  r' = rostered (TheRR k c) (rostered (TheListener i l) (rostered (TheSender j s) r)) /\
  l_queue l = requestQueue /\ rr_requestQueue c = requestQueue.

Lemma rcwp_new_rr_client r :
  rcwp (with_client (new_rr_client ccfg rrMode requestQueue replyQueue)) [r] (fun o t' => exists k c,
    o = Returned (k, c) /\ rr_requestQueue c = requestQueue /\ t' = [rostered (TheRR k c) r]).
Proof.
  client_call. apply rcwp_client. unfold new_rr_client. case_goal; (eapply cwp_mono; [|apply (rcwp_new_rr ccfg)]);
    intros o t (k & c & -> & Hq & _ & ->); by exists k, c.
Qed.

Lemma rcwp_requester r : rcwp requester [r] (fun _ t' => exists r', t' = [r'] /\ main_makes r r').
Proof.
  unfold requester. client_call. apply cwp_bind. eapply cwp_mono; [|apply rcwp_client, (rcwp_NewSender ccfg)].
  intros o t (j & s & -> & _ & ->). client_call. apply cwp_bind.
  eapply cwp_mono; [|apply rcwp_client, (rcwp_NewListener ccfg _ [LErrorHandler (Some 1%nat)])].
  intros o t (i & l & -> & Hl & ->). apply cwp_bind. intros ctx _. unfold defer at 1. apply cwp_tbind.
  intros a F HI. eexists [], [_]. split_and!; [exact HI| |].
  { eapply cwp_mono; [|apply rcwp_keeps, stays_replier]. done. }
  clear a F HI. apply cwp_bind. eapply cwp_mono; [|apply rcwp_new_rr_client].
  intros o t (k & c & -> & Hq & ->).
  set (r' := rostered _ (rostered _ (rostered _ r))). assert (Hr' : main_makes r r') by (by exists j, s, i, l, k, c).
  clearbody r'.
  apply rcwp_rest; [|done]. apply stays_defer; [by apply stays_bind; [apply stays_rr_call, stays_world|]|].
  apply stays_bind; [apply stays_request_loop|intros _; apply stays_bind; [apply stays_rr_call, stays_Health|intros _]].
  apply stays_bind; [done|intros _]. apply stays_bind; [|done].
  apply stays_select. intros a x Hx. destruct (a_listenerDone a); set_solver.
Qed.

End life.

(** Progress and shutdown, whatever the fuel. *)
Lemma request_reply_progress `{MQBinding} `{GoArch} `{GoStrings} n m getenv c0 c :
  main n m getenv = inl c0 -> process_reachable c0 c ->
  (Ret MainReturned ∈ threads c \/ OutOfFuel ∈ threads c \/ can_step (fun _ => GoroutineEnded) c) /\
  (Ret MainReturned ∈ threads c ->
     let cs := a_client (shared c) in
     cl_closed cs = true /\ cl_closers cs = [] /\
     exists j s i l x r, cl_probers cs = [TheSender j s; TheListener i l; TheRR x r] /\
       l_queue l = getenv "MQ_REQUEST_QUEUE"%string /\ rr_requestQueue r = getenv "MQ_REQUEST_QUEUE"%string /\
       Forall (shut (cl_world cs)) [TheSender j s; TheListener i l; TheRR x r]).
Proof.
  unfold main. pose proof (rr_configFromEnv_spec getenv) as Hc.
  destruct (configFromEnv getenv) as [cfg|e]; cbn [or_fatal]; [|done]. destruct Hc as (_ & ccfg & Hn & _).
  unfold requireEnv. destruct (String.eqb (getenv "MQ_REQUEST_QUEUE") ""); cbn [or_fatal]; [done|].
  destruct (intEnv getenv "MQ_MSG_COUNT" 3) as [msgCount|e]; cbn [or_fatal]; [|done].
  destruct (intEnv getenv "MQ_TIMEOUT_SECS" 10) as [secs|e]; cbn [or_fatal]; [|done].
  case_goal; [done|]. rewrite Hn, main_body_requester. intros [= <-] Hr.
  pose proof (sw_def _ _ (wf_init _ _ _ Hn)) as Hdef.
  apply (process_ends ccfg Hdef (main_makes (getenv "MQ_REQUEST_QUEUE"%string) (roster_of ClientState_init))) in Hr as [Hp Hs];
    [|done|done|by apply pcwp_requester|by apply rcwp_requester].
  split; [done|]. intros Hmain. destruct (Hs Hmain) as (r & (j & s & i & l & k & x & -> & Hl & Hq) & Hro & Hsh).
  injection Hro as Hcl Hclo Hpr. split_and!; [done|done|]. exists j, s, i, l, k, x. split_and!; [done..|].
  apply Forall_forall. intros y Hy. destruct (Hsh y Hy) as [Hx|]; [by apply not_elem_of_nil in Hx|done].
Qed.

(** The program lasts as long as the fuel of its listener. *)
Lemma rr_lasts_main `{MQBinding} `{GoArch} `{GoStrings} n m getenv c0 k :
  main n m getenv = inl c0 -> (k <= n)%nat -> (k <= m)%nat -> Forall (lasts k) (threads c0).
Proof.
  unfold main. destruct (configFromEnv getenv) as [cfg|e]; cbn [or_fatal]; [|done].
  destruct (requireEnv getenv "MQ_REQUEST_QUEUE") as [q|e]; cbn [or_fatal]; [|done].
  destruct (intEnv getenv "MQ_MSG_COUNT" 3) as [msgCount|e]; cbn [or_fatal]; [|done].
  destruct (intEnv getenv "MQ_TIMEOUT_SECS" 10) as [secs|e]; cbn [or_fatal]; [|done].
  case_goal; [done|]. destruct (NewClient cfg) as [[ccfg cs]|e]; [|done]. intros [= <-] Hn Hm. apply Forall_singleton.
  unfold main_body, with_client, replier_goroutine, new_rr_client, NewRequestReplyClient,
    NewRequestReplyClientFixed, in_world, on_rr, RR_Close. lasts_go.
  - apply lasts_link; [|by apply lasts_zoom, lasts_zoom, lasts_zoom, lasts_Start; lia].
    intros f c x e. unfold callbacks, on_request, with_client, in_world, on_sender. lasts_go.
    apply lasts_SendWithCreator, creator_ok_lasts. intros g [= <-]. apply creator_ok_reply.
  - generalize (Z.to_nat msgCount). intros i. induction i as [|i IH]; cbn [request_loop]; [exact I|].
    unfold with_client, in_world, on_rr, RequestReply. lasts_go.
    apply lasts_RequestReply, creator_ok_lasts. intros f [= <-]. apply creator_ok_body.
Qed.


(** *** Witness: one round *)

Definition pair_env : environ := fun k =>
  if String.eqb k "MQ_MSG_COUNT" then "1"%string
  else if existsb (String.eqb k) required then "APP"%string else ""%string.

Definition pair_process : machine AppState process_end :=
  match @main ibm_binding amd64 ascii_strings 700 700 pair_env with
  | inl c0 => c0
  | inr _ => mkMachine (mkApp ClientState_init 0 []) []
  end.

(** Main, the replier, its consumer, main again, and so to the end. *)
Definition pair_schedule : list nat :=
  repeat 0%nat 40 ++ repeat 1%nat 20 ++ repeat 2%nat 60 ++ repeat 0%nat 200 ++
  repeat 2%nat 100 ++ repeat 1%nat 50 ++ repeat 0%nat 100.

Definition pair_script : script := mkScript (repeat None 8 ++ repeat (Some Canceled) 40) [] [] [] [] [] [] [] 1.

Definition pair_end : machine AppState process_end :=
  exec scripted (fun _ => GoroutineEnded) pair_schedule pair_process pair_script.

Lemma pair_process_main : @main ibm_binding amd64 ascii_strings 700 700 pair_env = inl pair_process.
Proof.
  assert (Hs : match @main ibm_binding amd64 ascii_strings 700 700 pair_env with inl _ => true | inr _ => false end = true)
    by (vm_compute; reflexivity).
  unfold pair_process. by destruct (@main ibm_binding amd64 ascii_strings 700 700 pair_env).
Qed.

(** The same process while main waits for the replier. *)
Definition pair_waiting : machine AppState process_end :=
  exec scripted (fun _ => GoroutineEnded) (take 320 pair_schedule) pair_process pair_script.

